(* ===== verification/_CoqProject ===== *)
-Q . S2P
Prelude.v
Au.v
Accounting.v
Bandwidth.v
Pseudosettle.v
Swap.v
Bytes.v
Cursor.v
Postage.v
ReserveTx.v
ReserveStore.v
ReserveSpec.v
ReserveSync.v
ReserveDemo.v
Radius.v
Expiry.v
StorerDemo.v
Lru.v
LocalStore.v
PullSync.v
PullSyncSpec.v
PullSyncDemo.v
Redistribution.v
ChainIndex.v
RateLimiter.v
ProximityIndex.v
Kademlia.v
Dialer.v
Registry.v
Connections.v
F64.v
Primitives.v
PeerScore.v
PeerManager.v
Candidates.v
LocalNet.v
GossipIntake.v
Gossip.v
PeerRecord.v
Handshake.v
Hive.v
Behaviour.v
Race.v
Forward.v
Dispatch.v
Handler.v
ClientNode.v
Stream.v
