(* ===== verification/Prelude.v ===== *)
(** * Vertex: a verification development for the Swarm node

    Vertex is a node of the Swarm storage network.  It keeps a bandwidth ledger
    with every peer and settles it by time or by cheque, stores the chunks of its
    neighbourhood in a reserve under postage stamps, fills that reserve by pull
    sync, follows the postage contract on chain, keeps a Kademlia table of
    connections, and retrieves, pushes, serves and relays chunks for itself and
    for others.  This library translates those parts into executable definitions
    and proves what makes them correct.  Paths below are under [src/crates/].

    ** The parts, and where each is modelled

    Bandwidth accounting ([swarm/accounting/], [swarm/api/]).
    - [Au]: [Au], [Debt] and the admission band ([api/src/accounting.rs],
      [reporting.rs]).
    - [Accounting]: [PeerState], typed reservations, the ledger with its peer map
      ([accounting/core/src/accounting/]).  An [Arc] is an index into a store of
      cells, so a handle that outlives [remove_peer] keeps writing to its cell.
      [ledger_step] runs one public operation.
    - [Bandwidth]: the [BandwidthLedger] interface that settlement relies on and
      its instance, thresholds, pricing, [settle_all], the compare-exchange loops
      under interleaving, and the ledger's typing.
    - [Pseudosettle], [Swap]: the two settlement actors, written against
      [BandwidthLedger]; a handler is a step that returns its effects.

    Storage ([swarm/postage/], [swarm/storer/], [store/], [swarm/localstore/]).
    - [Bytes], [Cursor]: big-endian keys, and cursors over tables in key order.
    - [Postage]: slot arbitration, admission checks, the batch set.
    - [ReserveTx], [ReserveStore], [ReserveSpec], [ReserveSync]: the six tables of
      [db_reserve/], their operations, and what they promise; [ReserveDemo] is a
      concrete reserve.
    - [Radius], [Expiry]: the storage radius controller and the batch expiry
      sweep, over the reserve; [StorerDemo] fills one in bulk.
    - [Lru], [LocalStore]: the byte-bounded LRU store and the chunk cache over the
      [CacheBackend] interface.
    - [Redistribution]: the round of a storage claim ([swarm/redistribution/]):
      candidate filter, bounded sample, commitment, witness slots, inclusion
      proofs.

    Synchronisation ([swarm/puller/], [swarm/storer-behaviour/],
    [chain/index/]).
    - [PullSync], [PullSyncSpec], [PullSyncDemo]: interval store, bit vector, both
      ends of the exchange, the puller.
    - [ChainIndex]: the event-indexing engine.

    Network ([net/], [swarm/topology/], [swarm/peers/]).
    - [RateLimiter]: GCRA limiter and the parking self-limiter.
    - [ProximityIndex], [Kademlia]: peers by bin; limits, phases, capacity
      counters, depth with its hysteresis, trimming.
    - [Dialer], [Registry]: dial tracker and connection registry.
    - [Connections]: the handlers of [topology/src/] that keep dial tracker,
      registry and routing table in step, as one transition system over the three
      models.
    - [F64]: binary64 numbers over [SpecFloat]; [Primitives]: node types.
    - [PeerScore]: scores, weights, thresholds and backoff ([net/peer/],
      [swarm/peers/peer-score/]).
    - [PeerManager]: peer entries and the manager over them
      ([swarm/peers/peer-manager/]); [pm_step] runs one public operation.
    - [Candidates]: which peers to dial: the evaluation over the routing table and
      the peer manager, and the queues it fills ([topology/src/kademlia/]).
    - [LocalNet]: address scopes, dial capability, the addresses a node offers
      ([net/local/], [topology/src/nat_discovery.rs]) and peer reachability
      ([topology/src/reachability.rs]).
    - [GossipIntake], [Gossip]: admission of gossiped records, and the gossip task
      with its recipient filter and selections ([topology/src/gossip/]).
    - [PeerRecord]: signed peer records, their wire form, and the identity that
      signs them ([swarm/peers/peer/], [swarm/identity/]).
    - [Handshake]: message codecs, both sides of the exchange, the cached own
      record and the per-connection handler ([swarm/net/handshake/]).
    - [Hive]: gossip of records between nodes: the validated-record cache under
      concurrent validation, the rate-limited reader, handler and behaviour
      ([swarm/net/hive/], [swarm/net/handler-core/]).
    - [Behaviour]: the whole topology behaviour ([topology/src/behaviour.rs] and
      its handlers) over all of these: [behaviour_step] handles one event, and
      calls of other tasks to the peer manager are events too.

    Requests ([swarm/node/src/], [swarm/client-behaviour/src/],
    [swarm/net/pushsync/]).
    - [Race]: the staggered race and the latency estimates that pace it.
    - [Forward]: closer candidates, the relay walk and the serve driver on the
      shared ledger of [Accounting], custody receipts, and the relay chain across
      a network of nodes.
    - [Dispatch]: candidate ranking by the ledger's admission band, settlement
      triggers, the in-flight cap, the origin credit gate, the bin route, push and
      the whole retrieval over [Race].
    - [Handler]: the client protocols of one connection, with its queues, serving
      futures, response channels and payment responders.
    - [ClientNode]: the behaviour that routes commands and events, the client
      service and the node's channels, composed with the handlers of all
      connections and with the settlement service of [Pseudosettle].
    - [Stream]: the bounded download and upload pipelines as poll functions
      ([swarm/stream/]).

    ** How code becomes definitions

    A [w]-bit integer is a [Z] with its wrap-around or saturation written out; a
    hash map is a [gmap], and where the code iterates one, the order is an input.
    Fallible code returns [result].  A transaction that errs changes nothing.  A
    [select!] loop is a step function over the event that its next arm delivers,
    and an actor a step over its mailbox.  Clock readings, random draws, channel
    states, network answers and what other tasks do to the ledger at an await are
    inputs, so the theorems hold for all of them.  Code outside the repository is
    an argument or a class with the laws used of it: chunks, stamps, signatures
    and keccak ([ReserveEnv], [PostageEnv], section variables), the [hashlink]
    containers ([LinkedHashSet], [LinkedHashMap], the LRU cache of [Dialer]), the
    RPC provider and commit of [ChainIndex], proximity and distance of addresses.
    Each theorem with such an argument is applied to a concrete instance in its
    witness.

    ** What the theorems show

    - Ledger: every counter stays in its type; reserved counters are exactly the
      reservations held; exposure in both directions is bounded by the thresholds,
      whatever the interleaving.
    - Settlement: forgiveness never exceeds the refresh rate over time; cheques
      are authentic, increase strictly, never credit more than the exposure limit;
      after an exchange both books agree.
    - Reserve: the six tables agree after every trace; the newest stamp wins each
      slot; a resumed scan finds exactly what was stored since; expiry leaves no
      orphans while batches fit one eviction call.
    - Redistribution: the sample equals its reference selection and does not
      depend on the order of the candidates; the challenged slots are exact; a
      claim succeeds exactly when enough candidates pass the gates.
    - Synchronisation: with an honest server a pull brings a bin up to date and
      ends; whatever a peer sends, intervals advance over verified pages only; the
      chain index is a gapless prefix whatever fails, and catches up.
    - Stores and limits: the LRU store refines a recency list; granted tokens are
      bounded over every window.
    - Topology: capacity counters equal the tracked phases plus the leaked slots;
      depth moves only with its hysteresis; trimming keeps the saturation level;
      dials and registry entries are one to one; while connections do not overlap
      the three components agree.  A simultaneous open and a mismatched identity
      break this, and the theorems say how.  Banned peers are closed and leave the
      routing table even when the stream of bans overflows; closes are attributed
      to the side that made them; the dial queue drains within its rate and loses
      nobody to it.
    - Peers: index, entries, banned set, histogram and gauges of the peer manager
      agree after every sequence of operations; a full bin gives up its worst
      disconnected record only; gossip refreshes a record and nothing else; a
      restart keeps the verified peers; scores stay on their scale and signal
      bans, disconnects and warnings exactly.
    - Discovery: a dial evaluation picks only peers worth dialling and leaves no
      bin wanting while its budget lasts; the queues hold what was picked, once
      each; gossip reveals to nobody an address of another scope, is bounded per
      gossiper, and covers the bins of a distant peer; advertised addresses and
      reachability verdicts are exactly those the events justify.
    - Identity: a signed record survives its wire form; two nodes of one network
      complete the handshake and learn each other's record; a completed handshake
      reports an authentic record for this connection's peer.  The record is not
      bound to the connection: it can be replayed, and a second identity on one
      connection locks its overlay out.  Gossiped records get the verdict they
      would get without the cache, whatever runs concurrently; a broadcast of up
      to 120 records arrives whole; what one peer can make a node validate is
      bounded while it stays connected.
    - Requests: a race ends, stays within its bounds and equals the sequential
      walk at width one; a relayed request comes strictly closer, ends, and finds a
      holder exactly when one can be reached; serving books exactly the delivered
      legs; a relayed receipt is deep; origin requests are booked at dispatch and
      refunded exactly when they cannot have been charged; a retrieval contacts
      boundedly many peers, all admitted by the ledger, and returns.
    - Pipelines: every address or chunk is resolved once, within the window, and
      no poll parks without something in flight that will wake it.
    - Node: every response channel is answered or dropped once; a handler stays
      within its bounds and sends one ack per payment.  Three theorems show where
      the composition fails: two services acknowledge one payment, a replaced
      connection makes an overlay unreachable, a settlement to a departed peer is
      stranded.

    ** Bounds and fuel

    Loops whose recursion is not structural carry fuel that the definitions
    supply, and lemmas show that it is enough: the LRU eviction loop one more than
    its entries, [grow_loop] one per bin, [sync_bin_loop] one more than the events
    that can arrive, [fetch_page] one more than the blocks of the page, [sync_loop]
    the blocks left to index, [spill_bins] 256 for a [u8] distance, the relay chain
    [serve] more than the number of nodes.  The two loops of [Behaviour] take one
    clock reading a round: [drain_lifecycle] needs one more than the channel holds,
    [drain_loop] one per candidate and per timer that is ready at once.  Where a loop could run out it returns
    [None], and the theorems prove the result is not [None].

    ** Not modelled

    Failures of the storage backend (every transaction runs or errs as the code
    decides); the other libp2p behaviours, stream drivers and protobuf codecs, which
    are event plumbing over external or generated code; the power function of the score
    decay, which is an argument; signatures and hashing; readiness waits; hardfork
    tables, RPC services, metrics, configuration and start-up. *)

From stdpp Require Export prelude gmap sorting strings.
#[global] Open Scope Z_scope.

(** ** Machine integers

    A [u64] or [usize] is a [Z] in [[0, 2^64)], an [i64] a [Z] in
    [[-2^63, 2^63)].  The bounds are literals so that [lia] sees them once
    [mach] has unfolded the names. *)

Definition u8_max : Z := 255.
Definition u32_max : Z := 4294967295.
Definition u64_max : Z := 18446744073709551615.
Definition i64_max : Z := 9223372036854775807.
Definition i64_min : Z := -9223372036854775808.
Definition u256_max : Z :=
  115792089237316195423570985008687907853269984665640564039457584007913129639935.

Definition is_u8 (x : Z) : Prop := 0 <= x <= u8_max.
Definition is_u32 (x : Z) : Prop := 0 <= x <= u32_max.
Definition is_u64 (x : Z) : Prop := 0 <= x <= u64_max.
Definition is_i64 (x : Z) : Prop := i64_min <= x <= i64_max.
Definition is_u256 (x : Z) : Prop := 0 <= x <= u256_max.

#[global] Instance is_u64_dec x : Decision (is_u64 x).
Proof. unfold is_u64. apply _. Defined.
#[global] Instance is_i64_dec x : Decision (is_i64 x).
Proof. unfold is_i64. apply _. Defined.
#[global] Instance is_u256_dec x : Decision (is_u256 x).
Proof. unfold is_u256. apply _. Defined.

(** Rust's [saturating_*], [checked_*] and [wrapping_*] families. *)

Definition i64_sat (x : Z) : Z := Z.max i64_min (Z.min i64_max x).
Definition i64_saturating_add (a b : Z) : Z := i64_sat (a + b).
Definition i64_saturating_sub (a b : Z) : Z := i64_sat (a - b).
Definition i64_saturating_neg (a : Z) : Z := i64_sat (- a).
Definition i64_checked (x : Z) : option Z :=
  if decide (is_i64 x) then Some x else None.

(** Two's complement wrap-around, the release-build result of [i64] arithmetic. *)
Definition i64_wrap (x : Z) : Z := (x + 2 ^ 63) mod 2 ^ 64 - 2 ^ 63.

Lemma i64_wrap_id x : is_i64 x → i64_wrap x = x.
Proof. unfold is_i64, i64_min, i64_max. intros Hx. unfold i64_wrap. rewrite Z.mod_small; lia. Qed.

Definition u64_saturating_add (a b : Z) : Z := Z.min u64_max (a + b).
Definition u64_saturating_sub (a b : Z) : Z := Z.max 0 (a - b).
Definition u64_saturating_mul (a b : Z) : Z := Z.min u64_max (a * b).
Definition u64_wrapping_add (a b : Z) : Z := (a + b) mod (u64_max + 1).
Definition u64_checked_add (a b : Z) : option Z :=
  if decide (is_u64 (a + b)) then Some (a + b) else None.
Definition u64_checked_sub (a b : Z) : option Z :=
  if decide (b <= a) then Some (a - b) else None.

Definition u256_saturating_sub (a b : Z) : Z := Z.max 0 (a - b).
Definition u256_wrapping_add (a b : Z) : Z := (a + b) mod (u256_max + 1).
Definition u256_wrapping_sub (a b : Z) : Z := (a - b) mod (u256_max + 1).

(** ** Results

    Fallible Rust code returns [result E A]; [x ← m; k] is [?]. *)

Inductive result (E A : Type) : Type :=
| Ok (a : A)
| Err (e : E).
Arguments Ok {E A} a.
Arguments Err {E A} e.

#[global] Instance result_bind {E} : MBind (result E) := λ A B f m,
  match m with Ok a => f a | Err e => Err e end.
#[global] Instance result_fmap {E} : FMap (result E) := λ A B f m,
  match m with Ok a => Ok (f a) | Err e => Err e end.
Definition map_err {E F A} (f : E → F) (m : result E A) : result F A :=
  match m with Ok a => Ok a | Err e => Err (f e) end.
Definition ok_or {E A} (e : E) (o : option A) : result E A :=
  match o with Some a => Ok a | None => Err e end.

#[global] Instance result_eq_dec {E A} `{EqDecision E, EqDecision A} :
  EqDecision (result E A).
Proof. solve_decision. Defined.

(** [Option::is_some_and]. *)
Definition is_some_and {A} (p : A → bool) (o : option A) : bool :=
  match o with Some a => p a | None => false end.

(** ** Tactics *)

(** [mach] unfolds the machine-integer vocabulary. *)
Ltac mach :=
  unfold i64_saturating_add, i64_saturating_sub, i64_saturating_neg, i64_sat,
    u64_saturating_add, u64_saturating_sub, u64_saturating_mul,
    u256_saturating_sub, is_u8, is_u32, is_u64, is_i64, is_u256,
    u8_max, u32_max, u64_max, i64_max, i64_min, u256_max in *.

Ltac mlia := mach; lia.

(** Case analysis on every [decide] and [match] in sight, closing the
    arithmetic and the contradictory branches. *)
Ltac cases :=
  repeat (first [ progress simplify_eq/= | case_decide | case_match ]).

Ltac crush := cases; try done; try mlia; naive_solver mlia.

(** ** Hint databases

    [vertex] holds the introduction lemmas the components register for
    [eauto]; [vsimpl] their rewriting rules. *)

Create HintDb vertex discriminated.
Create Rewrite HintDb vsimpl.

(** ** Shared lemmas: machine integers *)

Lemma i64_sat_range x : is_i64 (i64_sat x).
Proof. mlia. Qed.

Lemma i64_sat_id x : is_i64 x → i64_sat x = x.
Proof. mlia. Qed.

Lemma i64_sat_mono x y : x <= y → i64_sat x <= i64_sat y.
Proof. mlia. Qed.

#[export] Hint Resolve i64_sat_range : vertex.

(** ** Shared lemmas: sums over lists *)

Definition sumZ {A} (f : A → Z) (l : list A) : Z := foldr (λ a z, f a + z) 0 l.

Lemma sumZ_app {A} (f : A → Z) l k : sumZ f (l ++ k) = sumZ f l + sumZ f k.
Proof. induction l; simpl; lia. Qed.

Lemma sumZ_nonneg {A} (f : A → Z) l :
  Forall (λ a, 0 <= f a) l → 0 <= sumZ f l.
Proof. induction 1; simpl; lia. Qed.

Lemma sumZ_ext {A} (f g : A → Z) l : (∀ x, x ∈ l → f x = g x) → sumZ f l = sumZ g l.
Proof.
  induction l as [|x l IH]; intros Hfg; simpl; [done|].
  rewrite (Hfg x) by left. rewrite IH; [done|]. intros y Hy. apply Hfg. by right.
Qed.

Lemma sumZ_elem_le {A} (f : A → Z) l x : Forall (λ y, 0 <= f y) l → x ∈ l → f x <= sumZ f l.
Proof.
  induction 1 as [|y l Hy Hl IH]; simpl; [by intros ?%not_elem_of_nil|].
  pose proof (sumZ_nonneg f l Hl). intros [->|Hx%IH]%elem_of_cons; lia.
Qed.

Lemma sumZ_split {A} (f : A → Z) (P : A → Prop) `{!∀ x, Decision (P x)} l :
  sumZ f (filter P l) + sumZ f (filter (λ x, ¬ P x) l) = sumZ f l.
Proof.
  induction l as [|x l IH]; simpl; [done|]. destruct (decide (P x)).
  - rewrite filter_cons_True, filter_cons_False by naive_solver. simpl. lia.
  - rewrite filter_cons_False, filter_cons_True by naive_solver. simpl. lia.
Qed.

Lemma sumZ_perm {A} (f : A → Z) l k : l ≡ₚ k → sumZ f l = sumZ f k.
Proof. induction 1; simpl; lia. Qed.

#[global] Instance sumZ_proper {A} (f : A → Z) :
  Proper ((≡ₚ) ==> (=)) (sumZ f).
Proof. intros l k. apply sumZ_perm. Qed.

(** ** Shared lemmas: filters *)

Lemma filter_none {A} (P : A → Prop) `{!∀ x, Decision (P x)} (l : list A) :
  (∀ x, x ∈ l → ¬ P x) → filter P l = [].
Proof.
  induction l as [|x l IH]; intros Hl; [done|]. rewrite filter_cons_False.
  - apply IH. intros y Hy. apply Hl. by right.
  - apply Hl. by left.
Qed.

Lemma filter_ext_elem {A} (P Q : A → Prop) `{!∀ x, Decision (P x), !∀ x, Decision (Q x)} (l : list A) :
  (∀ x, x ∈ l → P x ↔ Q x) → filter P l = filter Q l.
Proof.
  induction l as [|x l IH]; intros Hl; [done|]. destruct (decide (P x)) as [Hx|Hx].
  - rewrite !filter_cons_True by (done || by apply Hl; [left|]). f_equal. apply IH. set_solver.
  - rewrite !filter_cons_False by (done || by rewrite <-Hl by left). apply IH. set_solver.
Qed.

Lemma filter_all {A} (P : A → Prop) `{!∀ x, Decision (P x)} (l : list A) :
  (∀ x, x ∈ l → P x) → filter P l = l.
Proof.
  induction l as [|x l IH]; intros Hl; [done|]. rewrite filter_cons_True.
  - f_equal. apply IH. intros y Hy. apply Hl. by right.
  - apply Hl. by left.
Qed.

Lemma StronglySorted_filter {A} (R : A → A → Prop) (P : A → Prop) `{!∀ x, Decision (P x)} (l : list A) :
  StronglySorted R l → StronglySorted R (filter P l).
Proof.
  induction 1 as [|x l _ IH Hx]; [constructor|]. destruct (decide (P x)).
  - rewrite filter_cons_True by done. constructor; [done|]. apply Forall_forall. intros y Hy.
    apply list_elem_of_filter in Hy as [_ Hy]. by rewrite Forall_forall in Hx; apply Hx.
  - by rewrite filter_cons_False.
Qed.

(** ** Shared lemmas: sums over finite maps *)

Definition map_sumZ {K A} `{Countable K} (f : K → A → Z) (m : gmap K A) : Z :=
  sumZ (λ '(k, a), f k a) (map_to_list m).

Section map_sumZ.
Context {K A : Type} `{Countable K}.
Implicit Types (f : K → A → Z) (m : gmap K A).

Lemma map_sumZ_empty f : map_sumZ f ∅ = 0.
Proof. unfold map_sumZ. by rewrite map_to_list_empty. Qed.

Lemma map_sumZ_insert f m k a :
  m !! k = None → map_sumZ f (<[k:=a]> m) = f k a + map_sumZ f m.
Proof. intros Hk. unfold map_sumZ. by rewrite map_to_list_insert. Qed.

Lemma map_sumZ_delete f m k a :
  m !! k = Some a → map_sumZ f m = f k a + map_sumZ f (delete k m).
Proof.
  intros Hk. rewrite <-(insert_delete_id m k a) at 1 by done.
  apply map_sumZ_insert, lookup_delete_eq.
Qed.

Lemma map_sumZ_nonneg f m :
  (∀ k a, m !! k = Some a → 0 <= f k a) → 0 <= map_sumZ f m.
Proof.
  intros Hm. apply sumZ_nonneg, Forall_forall. intros [k a] Hin.
  apply Hm, elem_of_map_to_list. done.
Qed.

(** One binding is at most the sum. *)
Lemma map_sumZ_zero f m : (∀ k a, m !! k = Some a → f k a = 0) → map_sumZ f m = 0.
Proof.
  induction m as [|k a m Hk IH] using map_ind; intros Hm; [apply map_sumZ_empty|].
  rewrite map_sumZ_insert by done. rewrite (Hm k a) by apply lookup_insert_eq. rewrite IH; [done|].
  intros k' a' Hk'. apply Hm. rewrite lookup_insert_ne by congruence. done.
Qed.

Lemma map_sumZ_lookup_le f m k a :
  (∀ k a, m !! k = Some a → 0 <= f k a) → m !! k = Some a → f k a <= map_sumZ f m.
Proof.
  intros Hm Hk. rewrite (map_sumZ_delete f m k a Hk).
  assert (0 <= map_sumZ f (delete k m)); [|lia].
  apply map_sumZ_nonneg. intros k' a' [_ ?]%lookup_delete_Some. eauto.
Qed.
End map_sumZ.

(** A key chosen [fresh] for the domain is unbound. *)
Lemma fresh_dom_lookup {A} (m : gmap nat A) : m !! fresh (dom m) = None.
Proof. apply not_elem_of_dom. apply is_fresh. Qed.

(** ** Shared lemmas: sorting *)

(** Stable sort by a key, highest first. *)
Fixpoint insert_desc {A} (key : A → Z) (x : A) (l : list A) : list A :=
  match l with
  | [] => [x]
  | y :: l => if decide (key y <= key x) then x :: y :: l else y :: insert_desc key x l
  end.

Definition sort_desc {A} (key : A → Z) (l : list A) : list A := foldr (insert_desc key) [] l.

Lemma insert_desc_perm {A} (key : A → Z) x l : insert_desc key x l ≡ₚ x :: l.
Proof. induction l as [|y l IH]; simpl; [done|]. case_decide; [done|]. rewrite IH. constructor. Qed.

Lemma sort_desc_perm {A} (key : A → Z) l : sort_desc key l ≡ₚ l.
Proof. induction l as [|x l IH]; simpl; [done|]. by rewrite insert_desc_perm, IH. Qed.

Lemma sort_desc_sorted {A} (key : A → Z) l : StronglySorted (λ x y, key y <= key x) (sort_desc key l).
Proof.
  induction l as [|x l IH]; simpl; [constructor|]. induction IH as [|y l' Hs IH Hy]; simpl; [by repeat constructor|].
  case_decide.
  - constructor; [by constructor|]. constructor; [done|]. eapply Forall_impl; [exact Hy|]. intros z Hz. simpl in *. lia.
  - constructor; [done|]. rewrite insert_desc_perm. constructor; [lia|done].
Qed.

(** ** Traces

    Components driven by a stream of events are run by folding their step
    over the list of events. *)

Definition run {S E} (step : S → E → S) (s : S) (l : list E) : S :=
  foldl step s l.

Lemma run_app {S E} (step : S → E → S) s l k :
  run step s (l ++ k) = run step (run step s l) k.
Proof. apply foldl_app. Qed.

(** An invariant preserved by every admissible event holds after every trace
    of admissible events. *)
Lemma run_invariant {S E} (step : S → E → S) (P : E → Prop) (I : S → Prop) :
  (∀ s e, I s → P e → I (step s e)) →
  ∀ l s, I s → Forall P l → I (run step s l).
Proof. intros Hstep l. induction l; intros s Hs Hl; inv Hl; simpl; eauto. Qed.
