(* ===== verification/Au.v ===== *)
(** * Accounting units, debt and the admission band

    Models [crates/swarm/api/src/accounting.rs] (the [Au] newtype over [i64],
    the [Debt] newtype over [u64], the [Admission] band) and the
    [LedgerSnapshot] of [crates/swarm/api/src/reporting.rs].

    An [Au] is a [Z] satisfying [is_i64]; a [Debt] a [Z] satisfying [is_u64].
    The constructors and operations are total on [Z] and keep the ranges. *)

From S2P Require Import Prelude.

(** ** [Au] *)

Inductive AuConversionError :=
| U256TooLarge (v : Z)
| Negative (a : Z).

Module Au.

Definition ZERO : Z := 0.

Definition new (value : Z) : Z := value.

Definition from_amount (amount : Z) : Z :=
  if decide (i64_max < amount) then i64_max else amount.

Definition as_amount (a : Z) : Z := if decide (a < 0) then 0 else a.

Definition is_negative (a : Z) : bool := bool_decide (a < 0).

Definition is_positive (a : Z) : bool := bool_decide (0 < a).

(** [i64::unsigned_abs] is exact in [u64], so [|i64::MIN|] reaches
    [from_amount] unharmed and saturates there. *)
Definition unsigned_abs (a : Z) : Z := from_amount (Z.abs a).

Definition checked_add (a b : Z) : option Z := i64_checked (a + b).

Definition checked_sub (a b : Z) : option Z := i64_checked (a - b).

Definition saturating_add (a b : Z) : Z := i64_saturating_add a b.

Definition saturating_sub (a b : Z) : Z := i64_saturating_sub a b.

Definition saturating_neg (a : Z) : Z := i64_saturating_neg a.

Definition checked_scale (a factor : Z) : option Z :=
  if decide (a < 0) then None
  else if decide (i64_max < factor) then None
  else i64_checked (a * factor).

(** Rust's [/] truncates; the dividend is non-negative here. *)
Definition scale_percent (a percent : Z) : Z :=
  if decide (a < 0) then ZERO
  else match checked_scale a percent with
       | Some v => v / 100
       | None => i64_max / 100
       end.

Definition min (a b : Z) : Z := Z.min a b.

Definition max (a b : Z) : Z := Z.max a b.

Definition sum (l : list Z) : Z := foldl saturating_add ZERO l.

(** [u64::try_from(value)] fails above [u64::MAX]. *)
Definition saturating_from_u256 (value : Z) : Z :=
  if decide (value <= u64_max) then from_amount value else from_amount u64_max.

Definition try_from_u256 (value : Z) : result AuConversionError Z :=
  if decide (u64_max < value) then Err (U256TooLarge value)
  else if decide (i64_max < value) then Err (U256TooLarge value)
  else Ok value.

Definition into_u256 (a : Z) : result AuConversionError Z :=
  if decide (a < 0) then Err (Negative a) else Ok a.

End Au.

(** ** [Debt] *)

Module Debt.

Definition committed (balance : Z) : Z :=
  Au.as_amount (Au.saturating_neg balance).

Definition project (balance reserved price : Z) : Z :=
  Au.as_amount (Au.saturating_sub (Au.saturating_add reserved price) balance).

Definition saturating_sub (d settled : Z) : Z :=
  u64_saturating_sub d (Au.as_amount settled).

Definition exceeds (d threshold : Z) : bool :=
  bool_decide (Au.as_amount threshold < d).

Definition into_au (d : Z) : Z := Au.from_amount d.

End Debt.

(** ** The admission band *)

Inductive Admission := Admit | SettleAndAdmit | Refuse.

#[global] Instance Admission_eq_dec : EqDecision Admission.
Proof. solve_decision. Defined.

Definition admits (a : Admission) : bool :=
  match a with Refuse => false | _ => true end.

Definition settles (a : Admission) : bool :=
  match a with SettleAndAdmit => true | _ => false end.

Record LedgerSnapshot := mkSnapshot {
  snap_balance : Z;
  snap_reserved : Z;
  snap_disconnect_line : Z;
  snap_settle_trigger : Z;
}.

Definition snapshot_admit (s : LedgerSnapshot) (price : Z) : Admission :=
  let projected := Debt.project (snap_balance s) (snap_reserved s) price in
  if Debt.exceeds projected (snap_disconnect_line s) then Refuse
  else if Debt.exceeds projected (snap_settle_trigger s) then SettleAndAdmit
  else Admit.

(** How permissive a band is: [Refuse] is 0, [Admit] is 2. *)
Definition band_rank (a : Admission) : Z :=
  match a with Refuse => 0 | SettleAndAdmit => 1 | Admit => 2 end.

(** ** Tactics and basic lemmas *)

Ltac au :=
  unfold Debt.committed, Debt.project, Debt.exceeds, Debt.saturating_sub,
    Debt.into_au, Au.scale_percent, Au.checked_scale, Au.checked_add,
    Au.checked_sub, Au.saturating_from_u256, Au.unsigned_abs,
    Au.from_amount, Au.as_amount, Au.saturating_add,
    Au.saturating_sub, Au.saturating_neg, Au.min, Au.max, Au.ZERO, Au.new,
    Au.is_negative, Au.is_positive, i64_checked in *.

(** Decide every comparison the [Au] layer makes and close by arithmetic. *)
Ltac alia :=
  au; repeat first [ case_decide | case_bool_decide ]; simplify_eq/=;
  try done; try mlia.

Lemma from_amount_range n : 0 <= n → 0 <= Au.from_amount n <= i64_max.
Proof. alia. Qed.

Lemma as_amount_range a : is_i64 a → is_u64 (Au.as_amount a).
Proof. alia. Qed.

Lemma as_amount_max a : Au.as_amount a = Z.max 0 a.
Proof. alia. Qed.

Lemma from_amount_min n : Au.from_amount n = Z.min i64_max n.
Proof. alia. Qed.

#[export] Hint Rewrite as_amount_max from_amount_min : vsimpl.

(** A projected debt is the exact integer [reserved + price - balance]
    floored at zero, until one of the two saturations engages; saturation
    only ever rounds it towards zero debt from above [i64::MAX]. *)
Lemma project_exact balance reserved price :
  is_i64 (reserved + price) → is_i64 (reserved + price - balance) →
  Debt.project balance reserved price = Z.max 0 (reserved + price - balance).
Proof. intros. alia. Qed.

Lemma project_mono_price balance reserved p q :
  p <= q → Debt.project balance reserved p <= Debt.project balance reserved q.
Proof. intros. alia. Qed.

Lemma exceeds_true d t : Debt.exceeds d t = true ↔ Z.max 0 t < d.
Proof. unfold Debt.exceeds. autorewrite with vsimpl. by rewrite bool_decide_eq_true. Qed.

Lemma exceeds_false d t : Debt.exceeds d t = false ↔ d <= Z.max 0 t.
Proof.
  unfold Debt.exceeds. autorewrite with vsimpl. rewrite bool_decide_eq_false. lia.
Qed.

(** The three-way case analysis of the band, as one lemma. *)
Lemma snapshot_admit_cases s price :
  let d := Debt.project (snap_balance s) (snap_reserved s) price in
  (snapshot_admit s price = Refuse ∧ Z.max 0 (snap_disconnect_line s) < d) ∨
  (snapshot_admit s price = SettleAndAdmit ∧
     d <= Z.max 0 (snap_disconnect_line s) ∧ Z.max 0 (snap_settle_trigger s) < d) ∨
  (snapshot_admit s price = Admit ∧
     d <= Z.max 0 (snap_disconnect_line s) ∧ d <= Z.max 0 (snap_settle_trigger s)).
Proof.
  intros d. unfold snapshot_admit. fold d.
  destruct (Debt.exceeds d (snap_disconnect_line s)) eqn:E1.
  { apply exceeds_true in E1. by left. }
  apply exceeds_false in E1.
  destruct (Debt.exceeds d (snap_settle_trigger s)) eqn:E2.
  - apply exceeds_true in E2. right; left. done.
  - apply exceeds_false in E2. right; right. done.
Qed.

(** ** Properties *)

(** The admission band.  On a snapshot whose fields are [i64]s and whose
    sums do not overflow, a request is refused exactly when the integer debt
    [reserved + price - balance] is past the (non-negative) disconnect line,
    and triggers a settlement exactly when it is admitted and past the settle
    trigger. *)
Theorem admission_band_exact s price :
  is_i64 (snap_reserved s + price) →
  is_i64 (snap_reserved s + price - snap_balance s) →
  0 <= snap_disconnect_line s → 0 <= snap_settle_trigger s →
  let debt := snap_reserved s + price - snap_balance s in
  (snapshot_admit s price = Refuse ↔ snap_disconnect_line s < debt) ∧
  (settles (snapshot_admit s price) = true ↔
     snap_settle_trigger s < debt <= snap_disconnect_line s).
Proof.
  intros H1 H2 H3 H4 debt.
  pose proof (project_exact (snap_balance s) (snap_reserved s) price H1 H2) as Hp.
  destruct (snapshot_admit_cases s price) as [[-> H]|[[-> H]|[-> H]]];
    rewrite Hp in H; simpl; split; split; intros; try done; lia.
Qed.

Lemma admission_band_exact_witness :
  snapshot_admit (mkSnapshot (-1000) 200 1687500 675000) 674000 = SettleAndAdmit ∧
  settles (snapshot_admit (mkSnapshot (-1000) 200 1687500 675000) 674000) = true.
Proof.
  destruct (admission_band_exact (mkSnapshot (-1000) 200 1687500 675000) 674000)
    as [_ [_ H]]; [simpl; mlia..|].
  split; [vm_compute; done|]. apply H. simpl. lia.
Defined.

(** No overflow games.  Whatever the snapshot holds, raising the price
    never makes the band more permissive, so an over-large (even saturating)
    price cannot slip past the gate that refused a smaller one. *)
Theorem admission_band_antitone s p q :
  p <= q → band_rank (snapshot_admit s q) <= band_rank (snapshot_admit s p).
Proof.
  intros Hpq.
  pose proof (project_mono_price (snap_balance s) (snap_reserved s) p q Hpq).
  destruct (snapshot_admit_cases s p) as [[-> ?]|[[-> ?]|[-> ?]]];
    destruct (snapshot_admit_cases s q) as [[-> ?]|[[-> ?]|[-> ?]]]; simpl; lia.
Qed.

Lemma admission_band_antitone_witness :
  band_rank (snapshot_admit (mkSnapshot 0 0 10 5) i64_max) <=
  band_rank (snapshot_admit (mkSnapshot 0 0 10 5) 11).
Proof. apply (admission_band_antitone (mkSnapshot 0 0 10 5) 11 i64_max). mlia. Defined.
