(* ===== verification/Accounting.v ===== *)
(** * Per-peer bandwidth accounting

    Models [crates/swarm/accounting/core/src/accounting/] ([PeerState], the
    typed [Reservation] legs, [Accounting]), the bandwidth configuration of
    [crates/swarm/accounting/core/src/config.rs] with the derived thresholds
    of [SwarmAccountingConfig], and the blanket [BandwidthDebit] impl of
    [crates/swarm/api/src/components/bandwidth.rs].

    [Arc<PeerState>] is an index into a store of cells, so a reservation or a
    handle that outlives [remove_peer] keeps writing to the cell it was made
    for, while the map hands out a fresh cell: the aliasing of the code. *)

From S2P Require Import Prelude.
From S2P Require Import Au.

Abbreviation OverlayAddress := Z (only parsing).

Inductive Direction := Upload | Download.

(** ** Configuration *)

Record BandwidthConfig := mkBandwidthConfig {
  payment_threshold_raw : Z;
  payment_tolerance_percent : Z;
  refresh_rate_raw : Z;
  early_payment_percent : Z;
  client_only_factor : Z;
}.

Definition default_bandwidth_config : BandwidthConfig :=
  mkBandwidthConfig 13500000 25 4500000 50 10.

Definition for_client (c : BandwidthConfig) : BandwidthConfig :=
  let factor := Z.max (client_only_factor c) 1 in
  mkBandwidthConfig
    (Z.max (payment_threshold_raw c / factor) 1)
    (payment_tolerance_percent c)
    (Z.max (refresh_rate_raw c / factor) 1)
    (early_payment_percent c)
    (client_only_factor c).

Definition cfg_payment_threshold (c : BandwidthConfig) : Z :=
  Au.from_amount (payment_threshold_raw c).

Definition cfg_refresh_rate (c : BandwidthConfig) : Z :=
  Au.from_amount (refresh_rate_raw c).

Definition disconnect_threshold (c : BandwidthConfig) : Z :=
  let percent := u64_saturating_add 100 (payment_tolerance_percent c) in
  Au.scale_percent (cfg_payment_threshold c) percent.

Definition early_payment_trigger (c : BandwidthConfig) : Z :=
  let early := Z.min (early_payment_percent c) 100 in
  match Au.checked_scale (cfg_payment_threshold c) (100 - early) with
  | Some scaled => Au.from_amount (Au.as_amount scaled / 100)
  | None => Au.from_amount u64_max
  end.

(** ** [PeerState]

    Each counter is one atomic, so each operation below is one atomic
    read-modify-write; [CasLoop] shows that the two compare-exchange loops
    have exactly this effect under any interleaving. *)

Record PeerState := mkPeerState {
  ps_balance : Z;
  ps_reserved : Z;
  ps_shadow : Z;
  ps_ghost : Z;
  ps_payment : Z;
  ps_disconnect : Z;
}.

#[global] Instance PeerState_inhabited : Inhabited PeerState :=
  populate (mkPeerState 0 0 0 0 0 0).

Module PeerState.

Definition new (payment disconnect : Z) : PeerState :=
  mkPeerState 0 0 0 0 payment disconnect.

Definition balance (s : PeerState) : Z := Au.new (ps_balance s).

Definition add_balance (amount : Z) (s : PeerState) : PeerState :=
  mkPeerState (i64_saturating_add (ps_balance s) amount) (ps_reserved s)
    (ps_shadow s) (ps_ghost s) (ps_payment s) (ps_disconnect s).

Definition reserved_balance (s : PeerState) : Z := Au.from_amount (ps_reserved s).

Definition add_reserved (amount : Z) (s : PeerState) : PeerState :=
  mkPeerState (ps_balance s) (u64_wrapping_add (ps_reserved s) (Au.as_amount amount))
    (ps_shadow s) (ps_ghost s) (ps_payment s) (ps_disconnect s).

Definition sub_reserved (amount : Z) (s : PeerState) : PeerState :=
  mkPeerState (ps_balance s) (u64_saturating_sub (ps_reserved s) (Au.as_amount amount))
    (ps_shadow s) (ps_ghost s) (ps_payment s) (ps_disconnect s).

Definition shadow_reserved_balance (s : PeerState) : Z := Au.from_amount (ps_shadow s).

Definition add_shadow_reserved (amount : Z) (s : PeerState) : PeerState :=
  mkPeerState (ps_balance s) (ps_reserved s)
    (u64_wrapping_add (ps_shadow s) (Au.as_amount amount))
    (ps_ghost s) (ps_payment s) (ps_disconnect s).

Definition sub_shadow_reserved (amount : Z) (s : PeerState) : PeerState :=
  mkPeerState (ps_balance s) (ps_reserved s)
    (u64_saturating_sub (ps_shadow s) (Au.as_amount amount))
    (ps_ghost s) (ps_payment s) (ps_disconnect s).

Definition ghost_balance (s : PeerState) : Z := Au.from_amount (ps_ghost s).

Definition add_ghost (amount : Z) (s : PeerState) : PeerState :=
  mkPeerState (ps_balance s) (ps_reserved s) (ps_shadow s)
    (u64_wrapping_add (ps_ghost s) (Au.as_amount amount))
    (ps_payment s) (ps_disconnect s).

End PeerState.

(** ** The ledger: configuration, cells and the peer map *)

Record Accounting := mkAccounting {
  acc_config : BandwidthConfig;
  acc_peers : gmap Z nat;        (** [peers]: overlay to [Arc] *)
  acc_cells : gmap nat PeerState; (** the shared [PeerState]s *)
}.

Definition accounting_new (c : BandwidthConfig) : Accounting := mkAccounting c ∅ ∅.

(** Run a [PeerState] operation through an [Arc]. *)
Definition on_cell (r : nat) (f : PeerState → PeerState) (a : Accounting) : Accounting :=
  mkAccounting (acc_config a) (acc_peers a) (alter f r (acc_cells a)).

Definition fresh_cell (a : Accounting) : nat := fresh (dom (acc_cells a)).

Definition get_or_create_peer (a : Accounting) (peer : OverlayAddress) : nat * Accounting :=
  match acc_peers a !! peer with
  | Some r => (r, a)
  | None =>
      let r := fresh_cell a in
      let st := PeerState.new (cfg_payment_threshold (acc_config a))
                  (disconnect_threshold (acc_config a)) in
      (r, mkAccounting (acc_config a) (<[peer := r]> (acc_peers a))
            (<[r := st]> (acc_cells a)))
  end.

Definition remove_peer (a : Accounting) (peer : OverlayAddress) : Accounting :=
  mkAccounting (acc_config a) (delete peer (acc_peers a)) (acc_cells a).

Definition peer_cell (a : Accounting) (peer : OverlayAddress) : option PeerState :=
  acc_peers a !! peer ≫= λ r, acc_cells a !! r.

(** *** [Ledger] *)

Definition ledger_balance (a : Accounting) (peer : OverlayAddress) : Z :=
  from_option PeerState.balance Au.ZERO (peer_cell a peer).

Definition ledger_reserved (a : Accounting) (peer : OverlayAddress) : Z :=
  from_option PeerState.reserved_balance Au.ZERO (peer_cell a peer).

Definition ledger_disconnect_line (a : Accounting) (peer : OverlayAddress) : Z :=
  from_option ps_disconnect (disconnect_threshold (acc_config a)) (peer_cell a peer).

Definition ledger_settle_trigger (a : Accounting) (peer : OverlayAddress) : Z :=
  Au.max (early_payment_trigger (acc_config a)) (cfg_refresh_rate (acc_config a)).

(** The trait's default [snapshot]: the four reads composed. *)
Definition default_snapshot (a : Accounting) (peer : OverlayAddress) : LedgerSnapshot :=
  mkSnapshot (ledger_balance a peer) (ledger_reserved a peer)
    (ledger_disconnect_line a peer) (ledger_settle_trigger a peer).

(** The override: one lookup for the three per-peer fields. *)
Definition ledger_snapshot (a : Accounting) (peer : OverlayAddress) : LedgerSnapshot :=
  let settle_trigger :=
    Au.max (early_payment_trigger (acc_config a)) (cfg_refresh_rate (acc_config a)) in
  match peer_cell a peer with
  | None => mkSnapshot Au.ZERO Au.ZERO (disconnect_threshold (acc_config a)) settle_trigger
  | Some s => mkSnapshot (PeerState.balance s) (PeerState.reserved_balance s)
                (ps_disconnect s) settle_trigger
  end.

Definition ledger_admit (a : Accounting) (peer : OverlayAddress) (price : Z) : Admission :=
  snapshot_admit (ledger_snapshot a peer) price.

(** ** Reservations *)

Inductive Leg := Receive | Provide.

#[global] Instance Leg_eq_dec : EqDecision Leg.
Proof. solve_decision. Defined.

Definition leg_apply (l : Leg) (price : Z) (s : PeerState) : PeerState :=
  match l with
  | Receive =>
      PeerState.sub_reserved price (PeerState.add_balance (Au.saturating_neg price) s)
  | Provide =>
      PeerState.sub_shadow_reserved price (PeerState.add_balance price s)
  end.

Definition leg_release (l : Leg) (price : Z) (s : PeerState) : PeerState :=
  match l with
  | Receive => PeerState.sub_reserved price s
  | Provide => PeerState.sub_shadow_reserved price s
  end.

Record Reservation := mkReservation {
  res_state : nat;   (** the [Arc<PeerState>] *)
  res_price : Z;
  res_applied : bool;
  res_leg : Leg;
}.

Definition reservation_new (l : Leg) (state : nat) (price : Z) : Reservation :=
  mkReservation state price false l.

(** [Drop]: releases unless applied. *)
Definition reservation_drop (rs : Reservation) (a : Accounting) : Accounting :=
  if res_applied rs then a
  else on_cell (res_state rs) (leg_release (res_leg rs) (res_price rs)) a.

(** [apply(mut self)]: commit, mark applied, then the value is dropped. *)
Definition reservation_apply (rs : Reservation) (a : Accounting) : Accounting :=
  let a := on_cell (res_state rs) (leg_apply (res_leg rs) (res_price rs)) a in
  reservation_drop (mkReservation (res_state rs) (res_price rs) true (res_leg rs)) a.

(** [Reservation<Provide>::forfeit(self)]: accrue the ghost, then the drop
    releases the shadow reservation. *)
Definition reservation_forfeit (rs : Reservation) (a : Accounting) : Accounting :=
  reservation_drop rs (on_cell (res_state rs) (PeerState.add_ghost (res_price rs)) a).

Inductive AccountingError :=
| DisconnectThreshold (peer : OverlayAddress) (balance threshold : Z)
| PaymentThreshold (peer : OverlayAddress) (balance threshold : Z)
| PeerNotFound (peer : OverlayAddress)
| SettlementFailed (reason : string)
| ChannelClosed.

#[global] Instance AccountingError_eq_dec : EqDecision AccountingError.
Proof. solve_decision. Defined.

Definition prepare_receive (a : Accounting) (peer : OverlayAddress) (price : Z) :
    result AccountingError Reservation * Accounting :=
  if admits (ledger_admit a peer price) then
    let '(r, a) := get_or_create_peer a peer in
    (Ok (reservation_new Receive r price),
     on_cell r (PeerState.add_reserved price) a)
  else
    (Err (DisconnectThreshold peer (ledger_balance a peer)
            (disconnect_threshold (acc_config a))), a).

(** The debt a provide would leave, with the gate's own saturations. *)
Definition provide_projected (s : PeerState) (price : Z) : Z :=
  Au.saturating_add
    (Au.saturating_add
       (Au.saturating_add (PeerState.balance s) (PeerState.shadow_reserved_balance s))
       (PeerState.ghost_balance s))
    price.

Definition prepare_provide (a : Accounting) (peer : OverlayAddress) (price : Z) :
    result AccountingError Reservation * Accounting :=
  let '(r, a) := get_or_create_peer a peer in
  let s := acc_cells a !!! r in (* an [Arc] points to a live cell *)
  let projected := provide_projected s price in
  if decide (ps_payment s < projected) then
    (Err (PaymentThreshold peer projected (ps_payment s)), a)
  else
    (Ok (reservation_new Provide r price),
     on_cell r (PeerState.add_shadow_reserved price) a).

(** ** The per-peer handle *)

Definition handle_record (r : nat) (amount : Z) (d : Direction) (a : Accounting) :
    Accounting :=
  match d with
  | Upload => on_cell r (PeerState.add_balance amount) a
  | Download => on_cell r (PeerState.add_balance (Au.saturating_neg amount)) a
  end.

(** [for_peer(peer).record(amount, direction)]. *)
Definition record_for (a : Accounting) (peer : OverlayAddress) (amount : Z)
    (d : Direction) : Accounting :=
  let '(r, a) := get_or_create_peer a peer in handle_record r amount d a.

(** *** [BandwidthDebit] *)

Definition debit_received (a : Accounting) (peer : OverlayAddress) (price : Z) :
    result AccountingError unit * Accounting :=
  match prepare_receive a peer price with
  | (Ok rs, a) => (Ok tt, reservation_apply rs a)
  | (Err e, a) => (Err e, a)
  end.

Definition refund_received (a : Accounting) (peer : OverlayAddress) (price : Z) :
    Accounting :=
  record_for a peer price Upload.

(** ** The ledger as a transition system

    The accounting, the reservations callers hold, and one event per public
    operation.  A handle keeps its cell across [remove_peer], so
    [EvHandleRecord] names the cell. *)

Record LedgerState := mkLedgerState {
  lg_acc : Accounting;
  lg_out : gmap nat Reservation;
}.

Inductive LedgerEvent :=
| EvForPeer (peer : OverlayAddress)
| EvHandleRecord (cell : nat) (amount : Z) (d : Direction)
| EvPrepareReceive (peer : OverlayAddress) (price : Z)
| EvPrepareProvide (peer : OverlayAddress) (price : Z)
| EvApply (id : nat)
| EvDrop (id : nat)
| EvForfeit (id : nat)
| EvRemovePeer (peer : OverlayAddress).

Definition hold (out : gmap nat Reservation)
    (res : result AccountingError Reservation * Accounting) : LedgerState :=
  match res with
  | (Ok rs, a) => mkLedgerState a (<[fresh (dom out) := rs]> out)
  | (Err _, a) => mkLedgerState a out
  end.

(** Consume the reservation [id] with [f]; a reservation is owned, so it is
    gone afterwards. *)
Definition consume (id : nat) (f : Reservation → Accounting → Accounting)
    (s : LedgerState) : LedgerState :=
  match lg_out s !! id with
  | Some rs => mkLedgerState (f rs (lg_acc s)) (delete id (lg_out s))
  | None => s
  end.

Definition ledger_step (s : LedgerState) (e : LedgerEvent) : LedgerState :=
  match e with
  | EvForPeer peer => mkLedgerState (get_or_create_peer (lg_acc s) peer).2 (lg_out s)
  | EvHandleRecord r amount d => mkLedgerState (handle_record r amount d (lg_acc s)) (lg_out s)
  | EvPrepareReceive peer price => hold (lg_out s) (prepare_receive (lg_acc s) peer price)
  | EvPrepareProvide peer price => hold (lg_out s) (prepare_provide (lg_acc s) peer price)
  | EvApply id => consume id reservation_apply s
  | EvDrop id => consume id reservation_drop s
  | EvForfeit id =>
      (* only [Reservation<Provide>] has [forfeit] *)
      if decide (res_leg <$> lg_out s !! id = Some Provide)
      then consume id reservation_forfeit s else s
  | EvRemovePeer peer => mkLedgerState (remove_peer (lg_acc s) peer) (lg_out s)
  end.

Definition ledger_init (c : BandwidthConfig) : LedgerState :=
  mkLedgerState (accounting_new c) ∅.

(** What an event contributes to the totals of a trace. *)
Definition ev_price (e : LedgerEvent) : Z :=
  match e with EvPrepareReceive _ p | EvPrepareProvide _ p => p | _ => 0 end.
Definition ev_download (e : LedgerEvent) : Z :=
  match e with EvHandleRecord _ x Download => x | _ => 0 end.
Definition ev_upload (e : LedgerEvent) : Z :=
  match e with EvHandleRecord _ x Upload => x | _ => 0 end.

(** Prices and recorded amounts are non-negative [Au]s. *)
Definition ev_ok (e : LedgerEvent) : Prop :=
  0 <= ev_price e <= i64_max ∧ 0 <= ev_download e <= i64_max ∧ 0 <= ev_upload e <= i64_max.

(** The price [rs] holds against leg [l] of cell [r]. *)
Definition held (l : Leg) (r : nat) (id : nat) (rs : Reservation) : Z :=
  if decide (res_leg rs = l ∧ res_state rs = r) then res_price rs else 0.

(** ** The ledger invariant *)

Record cell_ok (c : BandwidthConfig) (out : gmap nat Reservation)
    (P D U : Z) (r : nat) (s : PeerState) : Prop := {
  co_balance : is_i64 (ps_balance s);
  co_reserved : ps_reserved s = map_sumZ (held Receive r) out;
  co_shadow : ps_shadow s = map_sumZ (held Provide r) out;
  co_ghost : 0 <= ps_ghost s;
  co_total : ps_reserved s + ps_shadow s + ps_ghost s <= P;
  co_payment : ps_payment s = cfg_payment_threshold c;
  co_disconnect : ps_disconnect s = disconnect_threshold c;
  co_receive : ps_reserved s - ps_balance s <= disconnect_threshold c + D;
  co_provide : ps_balance s + ps_shadow s + ps_ghost s <= cfg_payment_threshold c + U;
}.

(** A held reservation is unapplied, its price an [Au], its cell live. *)
Definition out_ok (a : Accounting) (out : gmap nat Reservation) : Prop :=
  ∀ id rs, out !! id = Some rs →
    res_applied rs = false ∧ 0 <= res_price rs <= i64_max ∧
    is_Some (acc_cells a !! res_state rs).

Record ledger_ok (s : LedgerState) (P D U : Z) : Prop := {
  lo_peers : ∀ p r, acc_peers (lg_acc s) !! p = Some r → is_Some (acc_cells (lg_acc s) !! r);
  lo_inj : ∀ p q r, acc_peers (lg_acc s) !! p = Some r → acc_peers (lg_acc s) !! q = Some r → p = q;
  lo_out : out_ok (lg_acc s) (lg_out s);
  lo_cells : ∀ r cell, acc_cells (lg_acc s) !! r = Some cell →
    cell_ok (acc_config (lg_acc s)) (lg_out s) P D U r cell;
}.

(** Configurations whose lines are genuine (unsaturated) non-negative [Au]s. *)
Definition config_ok (c : BandwidthConfig) : Prop :=
  0 <= cfg_payment_threshold c < i64_max ∧ 0 <= disconnect_threshold c < i64_max.

Lemma held_nonneg l r out :
  (∀ id rs, out !! id = Some rs → 0 <= res_price rs) → 0 <= map_sumZ (held l r) out.
Proof.
  intros H. apply map_sumZ_nonneg. intros id rs Hid%H. unfold held. case_decide; lia.
Qed.

Lemma held_insert l r out id rs :
  out !! id = None → map_sumZ (held l r) (<[id := rs]> out) = held l r id rs + map_sumZ (held l r) out.
Proof. apply map_sumZ_insert. Qed.

Lemma held_delete l r out id rs :
  out !! id = Some rs →
  map_sumZ (held l r) (delete id out) = map_sumZ (held l r) out - held l r id rs.
Proof. intros H. rewrite (map_sumZ_delete _ _ _ _ H). lia. Qed.

Lemma held_other l r id rs : res_state rs ≠ r → held l r id rs = 0.
Proof. intros Hne. unfold held. rewrite decide_False; [done|]. intros [_ ?]. done. Qed.

Lemma held_here l id rs :
  held l (res_state rs) id rs = if decide (res_leg rs = l) then res_price rs else 0.
Proof.
  unfold held. destruct (decide (res_leg rs = l)) as [Hl|Hl].
  - by rewrite decide_True.
  - rewrite decide_False; [done|]. by intros [? _].
Qed.

(** The sums on the touched cell after a reservation is made or consumed. *)
Lemma held_insert_here l out rs :
  map_sumZ (held l (res_state rs)) (<[fresh (dom out) := rs]> out) =
  (if decide (res_leg rs = l) then res_price rs else 0) + map_sumZ (held l (res_state rs)) out.
Proof. rewrite held_insert by apply fresh_dom_lookup. by rewrite held_here. Qed.

Lemma held_delete_here l out id rs :
  out !! id = Some rs →
  map_sumZ (held l (res_state rs)) (delete id out) =
  map_sumZ (held l (res_state rs)) out - (if decide (res_leg rs = l) then res_price rs else 0).
Proof. intros H. by rewrite (held_delete _ _ _ _ _ H), held_here. Qed.

(** No reservation points at a cell that is not allocated. *)
Lemma held_unallocated l r (out : gmap nat Reservation) :
  (∀ id rs, out !! id = Some rs → res_state rs ≠ r) → map_sumZ (held l r) out = 0.
Proof.
  revert r. induction out as [|id rs out Hid IH] using map_ind; intros r Hr.
  { apply map_sumZ_empty. }
  rewrite map_sumZ_insert by done. rewrite held_other, IH; [lia|..].
  - intros id' rs' Hid'. apply (Hr id'). rewrite lookup_insert_ne; [done|congruence].
  - apply (Hr id). by rewrite lookup_insert_eq.
Qed.

Lemma wrapping_add_exact a b : 0 <= a → 0 <= b → a + b <= u64_max → u64_wrapping_add a b = a + b.
Proof. intros. unfold u64_wrapping_add. apply Z.mod_small. mlia. Qed.

(** Everything but the touched cell carries over. *)
Lemma ledger_ok_on_cell a out P D U r f out' P' D' U' :
  ledger_ok (mkLedgerState a out) P D U →
  P <= P' → D <= D' → U <= U' →
  out_ok a out' →
  (∀ l r', r' ≠ r → map_sumZ (held l r') out' = map_sumZ (held l r') out) →
  (∀ s, acc_cells a !! r = Some s → cell_ok (acc_config a) out P D U r s →
        cell_ok (acc_config a) out' P' D' U' r (f s)) →
  ledger_ok (mkLedgerState (on_cell r f a) out') P' D' U'.
Proof.
  intros [Hp Hi Ho Hc] HP HD HU Ho' Hheld Hf; simpl in *. split; simpl.
  - intros p r' Hr'%Hp. destruct Hr' as [s Hs].
    destruct (decide (r = r')) as [->|]; [rewrite lookup_alter_eq, Hs|rewrite lookup_alter_ne by done]; eauto.
  - done.
  - intros id rs Hid%Ho'. destruct Hid as (?&?&s&Hs). do 2 (split; [done|]). simpl.
    destruct (decide (r = res_state rs)) as [->|];
      [rewrite lookup_alter_eq, Hs|rewrite lookup_alter_ne by done]; eauto.
  - intros r' s'. destruct (decide (r = r')) as [->|Hne].
    + rewrite lookup_alter_eq. intros (s&Hs&->)%fmap_Some. eauto.
    + rewrite lookup_alter_ne by done. intros Hs%Hc. destruct Hs.
      split; rewrite ?Hheld by done; try done; lia.
Qed.

Lemma get_or_create_spec a out P D U peer :
  ledger_ok (mkLedgerState a out) P D U → 0 <= P → 0 <= D → 0 <= U →
  config_ok (acc_config a) →
  let '(r, a') := get_or_create_peer a peer in
  ledger_ok (mkLedgerState a' out) P D U ∧ acc_config a' = acc_config a ∧
  acc_peers a' !! peer = Some r ∧ is_Some (acc_cells a' !! r) ∧
  (∀ s, acc_cells a' !! r = Some s → peer_cell a peer = Some s ∨
     peer_cell a peer = None ∧
     s = PeerState.new (cfg_payment_threshold (acc_config a)) (disconnect_threshold (acc_config a))).
Proof.
  intros Hok HP HD HU Hcfg. unfold get_or_create_peer.
  destruct (acc_peers a !! peer) as [r|] eqn:Hr.
  { split_and!; [done..|eapply (lo_peers _ _ _ _ Hok); eauto|].
    intros s Hs. left. unfold peer_cell. by rewrite Hr. }
  assert (Hfresh : acc_cells a !! fresh_cell a = None) by apply fresh_dom_lookup.
  destruct Hok as [Hp Hi Ho Hc]; simpl in *.
  assert (∀ r s, acc_cells a !! r = Some s → fresh_cell a ≠ r) by congruence.
  split_and!; [split; simpl|done|apply lookup_insert_eq|rewrite lookup_insert_eq; eauto|].
  - intros p r [[<- <-]|[_ [s Hs]%Hp]]%lookup_insert_Some; [rewrite lookup_insert_eq; eauto|].
    rewrite lookup_insert_ne by eauto. eauto.
  - intros p q r [[<- <-]|[Hn1 H1]]%lookup_insert_Some [[<- H2]|[Hn2 H2]]%lookup_insert_Some; eauto.
    + apply Hp in H2 as [? ?]. congruence.
    + subst. apply Hp in H1 as [? ?]. congruence.
  - intros id rs (?&?&s&Hs)%Ho. do 2 (split; [done|]). simpl.
    rewrite lookup_insert_ne by eauto. eauto.
  - intros r s [[<- <-]|[_ Hs]]%lookup_insert_Some; [|eauto].
    assert (∀ l, map_sumZ (held l (fresh_cell a)) out = 0) as Hz.
    { intros l. apply held_unallocated. intros id rs (?&?&s&Hs)%Ho Heq. congruence. }
    destruct Hcfg. split; simpl; rewrite ?Hz; try mlia; done.
  - intros s Hs. right. rewrite lookup_insert_eq in Hs. simplify_eq.
    unfold peer_cell. by rewrite Hr.
Qed.

Lemma ledger_ok_weaken s P D U P' D' U' :
  ledger_ok s P D U → P <= P' → D <= D' → U <= U' → ledger_ok s P' D' U'.
Proof.
  intros [? ? ? Hc] ???. split; [done..|].
  intros r c Hs%Hc. destruct Hs. split; try done; lia.
Qed.

(** What the receive gate established about the cell it reserves on. *)
Lemma receive_gate a peer price s :
  admits (ledger_admit a peer price) = true →
  (peer_cell a peer = Some s ∨
   peer_cell a peer = None ∧
   s = PeerState.new (cfg_payment_threshold (acc_config a)) (disconnect_threshold (acc_config a))) →
  Debt.project (ps_balance s) (Au.from_amount (ps_reserved s)) price <= Z.max 0 (ps_disconnect s).
Proof.
  intros Hadm Hs. unfold ledger_admit in Hadm.
  destruct (snapshot_admit_cases (ledger_snapshot a peer) price) as [[E ?]|[[E [Hd _]]|[E [Hd _]]]];
    rewrite E in Hadm; [done|..];
    unfold ledger_snapshot in Hd; destruct Hs as [Hs|[Hs ->]]; rewrite Hs in Hd; apply Hd.
Qed.

(** A debt below an unsaturated line was not clipped by saturation. *)
Lemma project_below_line b r p line :
  is_i64 b → 0 <= r → 0 <= p → r + p <= i64_max → 0 <= line < i64_max →
  Debt.project b (Au.from_amount r) p <= Z.max 0 line → r + p - b <= line.
Proof. intros. alia. Qed.

Lemma provide_below_line s p line :
  is_i64 (ps_balance s) → 0 <= ps_shadow s → 0 <= ps_ghost s → 0 <= p →
  ps_shadow s + ps_ghost s + p <= i64_max → line < i64_max →
  ¬ line < provide_projected s p →
  ps_balance s + ps_shadow s + ps_ghost s + p <= line.
Proof.
  unfold provide_projected, PeerState.balance, PeerState.shadow_reserved_balance,
    PeerState.ghost_balance. intros. alia.
Qed.

Lemma out_ok_insert a out id rs :
  out_ok a out → res_applied rs = false → 0 <= res_price rs <= i64_max →
  is_Some (acc_cells a !! res_state rs) → out_ok a (<[id := rs]> out).
Proof. intros Ho ??? id' rs' [[_ <-]|[_ ?]]%lookup_insert_Some; eauto. Qed.

Lemma out_ok_delete a out id : out_ok a out → out_ok a (delete id out).
Proof. intros Ho id' rs' [_ ?]%lookup_delete_Some. eauto. Qed.

Lemma out_ok_nonneg a out l r : out_ok a out → 0 <= map_sumZ (held l r) out.
Proof. intros Ho. apply held_nonneg. intros id rs (_&?&_)%Ho. lia. Qed.

Lemma ledger_ok_prepare_receive a out P D U peer price :
  ledger_ok (mkLedgerState a out) P D U → 0 <= P → 0 <= D → 0 <= U →
  config_ok (acc_config a) → 0 <= price → P + price <= i64_max →
  ledger_ok (hold out (prepare_receive a peer price)) (P + price) D U.
Proof.
  intros Hok HP HD HU Hcfg Hprice Hmax. unfold prepare_receive.
  destruct (admits _) eqn:Hadm; simpl.
  2:{ eapply ledger_ok_weaken; [exact Hok|lia..]. }
  pose proof (get_or_create_spec a out P D U peer Hok HP HD HU Hcfg) as Hget.
  destruct (get_or_create_peer a peer) as [r a'].
  destruct Hget as (Hok'&Hc'&_&Hr&Hs'). simpl.
  pose proof (lo_out _ _ _ _ Hok') as Ho. simpl in Ho.
  eapply ledger_ok_on_cell; [exact Hok'|lia..| | |].
  - apply out_ok_insert; [exact Ho|done|simpl; lia|done].
  - intros l r' Hne. rewrite held_insert by apply fresh_dom_lookup.
    rewrite held_other by done. lia.
  - intros s Hs Hcell. pose proof (receive_gate _ _ _ _ Hadm (Hs' s Hs)) as Hgate.
    rewrite Hc' in *. destruct Hcell as [Hb Hres Hsh Hgh Htot Hpay Hdis Hrecv Hprov], Hcfg as [Hc1 Hc2].
    pose proof (out_ok_nonneg _ _ Receive r Ho); pose proof (out_ok_nonneg _ _ Provide r Ho).
    rewrite Hdis in Hgate. apply project_below_line in Hgate; [|done || lia..].
    pose proof (held_insert_here Receive out (reservation_new Receive r price)) as HR.
    pose proof (held_insert_here Provide out (reservation_new Receive r price)) as HS.
    simpl in HR, HS.
    split; simpl; rewrite ?HR, ?HS, ?as_amount_max, ?wrapping_add_exact by mlia; try done; lia.
Qed.

Lemma ledger_ok_prepare_provide a out P D U peer price :
  ledger_ok (mkLedgerState a out) P D U → 0 <= P → 0 <= D → 0 <= U →
  config_ok (acc_config a) → 0 <= price → P + price <= i64_max →
  ledger_ok (hold out (prepare_provide a peer price)) (P + price) D U.
Proof.
  intros Hok HP HD HU Hcfg Hprice Hmax. unfold prepare_provide.
  pose proof (get_or_create_spec a out P D U peer Hok HP HD HU Hcfg) as Hget.
  destruct (get_or_create_peer a peer) as [r a'].
  destruct Hget as (Hok'&Hc'&_&[s0 Hr]&_). rewrite (lookup_total_correct _ _ _ Hr).
  pose proof (lo_out _ _ _ _ Hok') as Ho. simpl in Ho.
  case_decide as Hgate; simpl.
  { eapply ledger_ok_weaken; [exact Hok'|lia..]. }
  eapply ledger_ok_on_cell; [exact Hok'|lia..| | |].
  - apply out_ok_insert; [exact Ho|done|simpl; lia|simpl; eauto].
  - intros l r' Hne. rewrite held_insert by apply fresh_dom_lookup.
    rewrite held_other by done. lia.
  - intros s Hs Hcell. rewrite Hs in Hr. injection Hr as <-.
    rewrite Hc' in *. destruct Hcell as [Hb Hres Hsh Hgh Htot Hpay Hdis Hrecv Hprov], Hcfg as [Hc1 Hc2].
    pose proof (out_ok_nonneg _ _ Receive r Ho); pose proof (out_ok_nonneg _ _ Provide r Ho).
    rewrite Hpay in Hgate. apply provide_below_line in Hgate; [|done || lia..].
    pose proof (held_insert_here Receive out (reservation_new Provide r price)) as HR.
    pose proof (held_insert_here Provide out (reservation_new Provide r price)) as HS.
    simpl in HR, HS.
    split; simpl; rewrite ?HR, ?HS, ?as_amount_max, ?wrapping_add_exact by mlia; try done; lia.
Qed.

(** Consuming a reservation: the effect on its own cell is what is left to
    check. *)
Lemma ledger_ok_consume a out P D U id rs f :
  ledger_ok (mkLedgerState a out) P D U → P <= i64_max → out !! id = Some rs →
  (∀ s, cell_ok (acc_config a) out P D U (res_state rs) s →
        0 <= ps_reserved s → 0 <= ps_shadow s →
        (if decide (res_leg rs = Receive) then res_price rs else 0) <= ps_reserved s →
        (if decide (res_leg rs = Provide) then res_price rs else 0) <= ps_shadow s →
        cell_ok (acc_config a) (delete id out) P D U (res_state rs) (f s)) →
  ledger_ok (mkLedgerState (on_cell (res_state rs) f a) (delete id out)) P D U.
Proof.
  intros Hok HP Hid Hf. pose proof (lo_out _ _ _ _ Hok) as Ho. simpl in Ho.
  eapply ledger_ok_on_cell; [exact Hok|lia..| | |].
  - by apply out_ok_delete.
  - intros l r' Hne. rewrite (held_delete _ _ _ _ _ Hid), held_other by done. lia.
  - intros s Hs Hcell. apply Hf; [done|..].
    + rewrite (co_reserved _ _ _ _ _ _ _ Hcell). eapply out_ok_nonneg, Ho.
    + rewrite (co_shadow _ _ _ _ _ _ _ Hcell). eapply out_ok_nonneg, Ho.
    + rewrite (co_reserved _ _ _ _ _ _ _ Hcell).
      pose proof (out_ok_nonneg _ _ Receive (res_state rs) (out_ok_delete _ _ id Ho)) as H.
      rewrite (held_delete_here _ _ _ _ Hid) in H. lia.
    + rewrite (co_shadow _ _ _ _ _ _ _ Hcell).
      pose proof (out_ok_nonneg _ _ Provide (res_state rs) (out_ok_delete _ _ id Ho)) as H.
      rewrite (held_delete_here _ _ _ _ Hid) in H. lia.
Qed.

Lemma on_cell_compose r f g a : on_cell r g (on_cell r f a) = on_cell r (g ∘ f) a.
Proof.
  unfold on_cell; simpl. f_equal. apply map_eq. intros r'. destruct (decide (r = r')) as [->|Hne].
  - rewrite !lookup_alter_eq. by destruct (acc_cells a !! r').
  - by rewrite !lookup_alter_ne.
Qed.

(** Every way a reservation can end. *)
Lemma ledger_ok_apply s id P D U :
  ledger_ok s P D U → P <= i64_max → ledger_ok (consume id reservation_apply s) P D U.
Proof.
  destruct s as [a out]. intros Hok HP. unfold consume; simpl.
  destruct (out !! id) as [rs|] eqn:Hid; [|done].
  destruct (lo_out _ _ _ _ Hok id rs Hid) as (_&Hp&_).
  apply ledger_ok_consume; [done..|]. intros c [Hb Hres Hsh Hgh Htot Hpay Hdis Hrecv Hprov] ????.
  pose proof (held_delete_here Receive _ _ _ Hid) as HR.
  pose proof (held_delete_here Provide _ _ _ Hid) as HS.
  destruct (res_leg rs); simpl in *; split; simpl; rewrite ?HR, ?HS, ?as_amount_max;
    unfold Au.saturating_neg; try done; mlia.
Qed.

Lemma ledger_ok_drop s id P D U :
  ledger_ok s P D U → P <= i64_max → ledger_ok (consume id reservation_drop s) P D U.
Proof.
  destruct s as [a out]. intros Hok HP. unfold consume; simpl.
  destruct (out !! id) as [rs|] eqn:Hid; [|done].
  destruct (lo_out _ _ _ _ Hok id rs Hid) as (Happ&Hp&_).
  unfold reservation_drop. rewrite Happ.
  apply ledger_ok_consume; [done..|]. intros c [Hb Hres Hsh Hgh Htot Hpay Hdis Hrecv Hprov] ????.
  pose proof (held_delete_here Receive _ _ _ Hid) as HR.
  pose proof (held_delete_here Provide _ _ _ Hid) as HS.
  destruct (res_leg rs); simpl in *; split; simpl; rewrite ?HR, ?HS, ?as_amount_max; try done; mlia.
Qed.

Lemma ledger_ok_forfeit s id P D U :
  ledger_ok s P D U → P <= i64_max → res_leg <$> lg_out s !! id = Some Provide →
  ledger_ok (consume id reservation_forfeit s) P D U.
Proof.
  destruct s as [a out]. intros Hok HP Hleg. unfold consume; simpl in *.
  destruct (out !! id) as [rs|] eqn:Hid; [|done]. simplify_eq/=.
  destruct (lo_out _ _ _ _ Hok id rs Hid) as (Happ&Hp&_).
  unfold reservation_forfeit, reservation_drop. rewrite Happ, on_cell_compose.
  apply ledger_ok_consume; [done..|]. intros c [Hb Hres Hsh Hgh Htot Hpay Hdis Hrecv Hprov] ????.
  pose proof (held_delete_here Receive _ _ _ Hid) as HR.
  pose proof (held_delete_here Provide _ _ _ Hid) as HS.
  rewrite Hleg in *. simpl in *.
  split; simpl; rewrite ?HR, ?HS, ?as_amount_max, ?wrapping_add_exact by mlia; try done; mlia.
Qed.

Lemma ledger_ok_record a out r amount d P D U :
  ledger_ok (mkLedgerState a out) P D U → ev_ok (EvHandleRecord r amount d) →
  ledger_ok (mkLedgerState (handle_record r amount d a) out) P
    (D + ev_download (EvHandleRecord r amount d)) (U + ev_upload (EvHandleRecord r amount d)).
Proof.
  intros Hok (_&Hd&Hu). pose proof (lo_out _ _ _ _ Hok) as Ho.
  destruct d; (eapply ledger_ok_on_cell; [exact Hok|lia..|exact Ho|done|]);
    intros s Hs [Hb Hres Hsh Hgh Htot Hpay Hdis Hrecv Hprov];
    split; simpl in *; unfold Au.saturating_neg; try done; mlia.
Qed.

Lemma ledger_ok_remove a out peer P D U :
  ledger_ok (mkLedgerState a out) P D U → ledger_ok (mkLedgerState (remove_peer a peer) out) P D U.
Proof.
  intros [Hp Hi Ho Hc]. split; simpl in *; [..|exact Ho|exact Hc].
  - intros p r [_ ?]%lookup_delete_Some. eauto.
  - intros p q r [_ ?]%lookup_delete_Some [_ ?]%lookup_delete_Some. eauto.
Qed.

Lemma acc_config_get_or_create a peer : acc_config (get_or_create_peer a peer).2 = acc_config a.
Proof. unfold get_or_create_peer. by destruct (acc_peers a !! peer). Qed.

Lemma acc_config_step s e : acc_config (lg_acc (ledger_step s e)) = acc_config (lg_acc s).
Proof.
  destruct e as [peer|r x d|peer p|peer p|id|id|id|peer]; simpl; try done.
  - apply acc_config_get_or_create.
  - by destruct d.
  - unfold prepare_receive. destruct (admits _); [|done].
    pose proof (acc_config_get_or_create (lg_acc s) peer). by destruct (get_or_create_peer _ _).
  - unfold prepare_provide. pose proof (acc_config_get_or_create (lg_acc s) peer).
    destruct (get_or_create_peer _ _). by case_decide.
  - unfold consume. by destruct (lg_out s !! id).
  - unfold consume. destruct (lg_out s !! id); [|done]. simpl. unfold reservation_drop. by case_match.
  - case_decide; [|done]. unfold consume. destruct (lg_out s !! id); [|done]. simpl.
    unfold reservation_forfeit, reservation_drop. by case_match.
Qed.

Lemma ledger_ok_step s e P D U :
  ledger_ok s P D U → 0 <= P → 0 <= D → 0 <= U → config_ok (acc_config (lg_acc s)) →
  ev_ok e → P + ev_price e <= i64_max →
  ledger_ok (ledger_step s e) (P + ev_price e) (D + ev_download e) (U + ev_upload e).
Proof.
  destruct s as [a out]. intros Hok HP HD HU Hcfg He Hmax.
  destruct e as [peer|r x d|peer p|peer p|id|id|id|peer]; simpl in *;
    rewrite ?Z.add_0_r in *.
  - pose proof (get_or_create_spec a out P D U peer Hok HP HD HU Hcfg) as Hget.
    destruct (get_or_create_peer a peer). apply Hget.
  - by apply ledger_ok_record.
  - apply ledger_ok_prepare_receive; try done. apply He.
  - apply ledger_ok_prepare_provide; try done. apply He.
  - by apply ledger_ok_apply.
  - by apply ledger_ok_drop.
  - case_decide; [by apply ledger_ok_forfeit|done].
  - by apply ledger_ok_remove.
Qed.

Lemma ledger_ok_run l : ∀ s P D U,
  ledger_ok s P D U → 0 <= P → 0 <= D → 0 <= U → config_ok (acc_config (lg_acc s)) →
  Forall ev_ok l → P + sumZ ev_price l <= i64_max →
  ledger_ok (run ledger_step s l)
    (P + sumZ ev_price l) (D + sumZ ev_download l) (U + sumZ ev_upload l) ∧
  acc_config (lg_acc (run ledger_step s l)) = acc_config (lg_acc s).
Proof.
  induction l as [|e l IH]; intros s P D U Hok HP HD HU Hcfg Hl Hmax; simpl in *.
  { by rewrite !Z.add_0_r. }
  inv Hl. assert (0 <= sumZ ev_price l).
  { apply sumZ_nonneg. eapply Forall_impl; [done|]. intros ? [? _]. lia. }
  destruct H1 as (He1&He2&He3).
  destruct (IH (ledger_step s e) (P + ev_price e) (D + ev_download e) (U + ev_upload e)) as [Hrun Hc];
    rewrite ?acc_config_step in *; try done; try lia.
  { apply ledger_ok_step; try done. lia. }
  by rewrite !Z.add_assoc.
Qed.

Lemma ledger_ok_init c : config_ok c → ledger_ok (ledger_init c) 0 0 0.
Proof. intros. by split. Qed.

(** Every trace from a fresh ledger lands in the invariant. *)
Lemma ledger_trace_ok c l :
  config_ok c → Forall ev_ok l → sumZ ev_price l <= i64_max →
  ledger_ok (run ledger_step (ledger_init c) l)
    (sumZ ev_price l) (sumZ ev_download l) (sumZ ev_upload l) ∧
  acc_config (lg_acc (run ledger_step (ledger_init c) l)) = c.
Proof.
  intros Hc Hl Hmax. pose proof (ledger_ok_run l (ledger_init c) 0 0 0) as H.
  rewrite !Z.add_0_l in H. by apply H.
Qed.

(** ** Properties of the ledger *)

(** C5: reservations never leak and never go missing.  After any sequence of
    public operations (prepares that succeed or are refused, applies, drops,
    forfeits, handle records, removals of peers whose reservations are still
    held), each cell's reserved counter is exactly the sum of the prices of
    the receive reservations still held on it, and its shadow counter that of
    the provide reservations; with nothing held both are zero. *)
Theorem reservations_exact c l r s :
  config_ok c → Forall ev_ok l → sumZ ev_price l <= i64_max →
  let st := run ledger_step (ledger_init c) l in
  acc_cells (lg_acc st) !! r = Some s →
  ps_reserved s = map_sumZ (held Receive r) (lg_out st) ∧
  ps_shadow s = map_sumZ (held Provide r) (lg_out st) ∧
  (lg_out st = ∅ → ps_reserved s = 0 ∧ ps_shadow s = 0).
Proof.
  intros Hc Hl Hmax st Hs. destruct (ledger_trace_ok c l Hc Hl Hmax) as [Hok _].
  destruct (lo_cells _ _ _ _ Hok _ _ Hs) as [_ HR HS _ _ _ _ _ _]. fold st in HR, HS.
  split_and!; [done..|]. intros Hout. by rewrite HR, HS, Hout, !map_sumZ_empty.
Qed.


(** The provide gate bounds the peer's credit.  After any sequence of
    public operations, what the peer owes, plus what is reserved to be served
    to it, plus the ghost debt of deliveries it refused, stays within the
    payment threshold plus what was recorded as a plain upload; so ghost debt
    alone can exhaust the headroom and starve a repeat refuser. *)
Theorem provide_exposure_bounded c l r s :
  config_ok c → Forall ev_ok l → sumZ ev_price l <= i64_max →
  acc_cells (lg_acc (run ledger_step (ledger_init c) l)) !! r = Some s →
  ps_balance s + ps_shadow s + ps_ghost s <= cfg_payment_threshold c + sumZ ev_upload l.
Proof.
  intros Hc Hl Hmax Hs. destruct (ledger_trace_ok c l Hc Hl Hmax) as [Hok Hcfg].
  pose proof (co_provide _ _ _ _ _ _ _ (lo_cells _ _ _ _ Hok _ _ Hs)). by rewrite Hcfg in *.
Qed.

(** A trace used by the witnesses: a receive is applied, a provide forfeited,
    a receive is still held when its peer is removed and re-created. *)
Definition sample_trace : list LedgerEvent :=
  [EvPrepareReceive 7 1000; EvApply 0; EvPrepareProvide 7 300; EvForfeit 0;
   EvPrepareReceive 7 500; EvRemovePeer 7; EvPrepareReceive 7 40;
   EvHandleRecord 0 200 Upload].

Lemma default_config_ok : config_ok default_bandwidth_config.
Proof. vm_compute. split; split; congruence. Qed.

Lemma sample_trace_ok : Forall ev_ok sample_trace.
Proof. repeat constructor; vm_compute; congruence. Qed.

Lemma reservations_exact_witness :
  ps_reserved (mkPeerState (-800) 500 0 300 13500000 16875000) = 500.
Proof.
  destruct (reservations_exact default_bandwidth_config sample_trace 0
              (mkPeerState (-800) 500 0 300 13500000 16875000)) as [H _].
  - apply default_config_ok.
  - apply sample_trace_ok.
  - vm_compute. congruence.
  - vm_compute. reflexivity.
  - rewrite H. vm_compute. reflexivity.
Defined.


Lemma provide_exposure_bounded_witness :
  -800 + 0 + 300 <= cfg_payment_threshold default_bandwidth_config + sumZ ev_upload sample_trace.
Proof.
  apply (provide_exposure_bounded default_bandwidth_config sample_trace 0
           (mkPeerState (-800) 500 0 300 13500000 16875000)).
  - apply default_config_ok.
  - apply sample_trace_ok.
  - vm_compute. congruence.
  - vm_compute. reflexivity.
Defined.
