(* ===== verification/Bandwidth.v ===== *)
(** * The bandwidth interface, its implementation, pricing and settlement

    [BandwidthLedger] is what a settlement service relies on
    ([SwarmBandwidthAccounting::for_peer] with [SwarmPeerBandwidth::balance]
    and [record]); [accounting_bandwidth] discharges it for [Accounting].  The
    file also holds the thresholds a configuration derives, the fixed pricer of
    [crates/swarm/accounting/pricing/src/], the client accounting that prices
    before it reserves, [AccountingPeerHandle::settle_all], and the
    compare-exchange loops of [peer.rs] under interleaving. *)

From S2P Require Import Prelude.
From S2P Require Import Au.
From S2P Require Import Accounting.

(** ** The interface *)

(** The signed balance change of a record. *)
Definition record_delta (amount : Z) (d : Direction) : Z :=
  match d with Upload => amount | Download => Au.saturating_neg amount end.

Class BandwidthLedger (A : Type) := {
  bw_ok : A → Prop;
  bw_balance : A → OverlayAddress → Z;
  bw_record : A → OverlayAddress → Z → Direction → A;
  bw_ok_record a p x d : bw_ok a → bw_ok (bw_record a p x d);
  bw_balance_i64 a p : bw_ok a → is_i64 (bw_balance a p);
  bw_record_same a p x d : bw_ok a →
    bw_balance (bw_record a p x d) p = i64_saturating_add (bw_balance a p) (record_delta x d);
  bw_record_other a p q x d : bw_ok a → p ≠ q →
    bw_balance (bw_record a p x d) q = bw_balance a q;
}.

(** ** [Accounting] implements it *)

Record acc_wf (a : Accounting) : Prop := {
  aw_live : ∀ p r, acc_peers a !! p = Some r → is_Some (acc_cells a !! r);
  aw_inj : ∀ p q r, acc_peers a !! p = Some r → acc_peers a !! q = Some r → p = q;
  aw_i64 : ∀ r s, acc_cells a !! r = Some s → is_i64 (ps_balance s);
}.

Lemma acc_wf_get_or_create a peer : acc_wf a → acc_wf (get_or_create_peer a peer).2.
Proof.
  intros [Hl Hi Hb]. unfold get_or_create_peer. destruct (acc_peers a !! peer) eqn:Hp; [done|].
  assert (Hf : acc_cells a !! fresh_cell a = None) by apply fresh_dom_lookup.
  split; simpl.
  - intros p r [[<- <-]|[_ Hr]]%lookup_insert_Some; [rewrite lookup_insert_eq; eauto|].
    apply lookup_insert_is_Some'. eauto.
  - intros p q r [[<- <-]|[_ H1]]%lookup_insert_Some [[<- H2]|[_ H2]]%lookup_insert_Some; eauto.
    + apply Hl in H2 as [? ?]. congruence.
    + subst. apply Hl in H1 as [? ?]. congruence.
  - intros r s [[<- <-]|[_ Hs]]%lookup_insert_Some; [simpl; mlia|eauto].
Qed.

Lemma acc_wf_on_cell a r f :
  acc_wf a → (∀ s, is_i64 (ps_balance s) → is_i64 (ps_balance (f s))) → acc_wf (on_cell r f a).
Proof.
  intros [Hl Hi Hb] Hf. split; simpl; [|done|].
  - intros p r' [s Hs]%Hl. destruct (decide (r = r')) as [->|].
    + rewrite lookup_alter_eq, Hs. eauto.
    + rewrite lookup_alter_ne by done. eauto.
  - intros r' s. destruct (decide (r = r')) as [->|].
    + rewrite lookup_alter_eq. intros (?&?%Hb&->)%fmap_Some. eauto.
    + rewrite lookup_alter_ne by done. eauto.
Qed.

(** [get_or_create_peer] finds or makes the cell without moving a balance. *)
Lemma get_or_create_ledger a peer :
  acc_wf a →
  let '(r, a') := get_or_create_peer a peer in
  acc_peers a' !! peer = Some r ∧ ∀ q, ledger_balance a' q = ledger_balance a q.
Proof.
  intros Hwf. unfold get_or_create_peer. destruct (acc_peers a !! peer) as [r|] eqn:Hp; [done|].
  split; [apply lookup_insert_eq|]. intros q. unfold ledger_balance, peer_cell; simpl.
  destruct (decide (peer = q)) as [<-|Hne].
  - by rewrite lookup_insert_eq, Hp; simpl; rewrite lookup_insert_eq.
  - rewrite lookup_insert_ne by done. destruct (acc_peers a !! q) as [r|] eqn:Hq; [|done]. simpl.
    destruct (aw_live _ Hwf _ _ Hq) as [s Hs]. rewrite lookup_insert_ne; [done|].
    intros Heq. subst r. unfold fresh_cell in Hs. by rewrite fresh_dom_lookup in Hs.
Qed.

Lemma ledger_balance_on_cell a peer r x q :
  acc_wf a → acc_peers a !! peer = Some r →
  ledger_balance (on_cell r (PeerState.add_balance x) a) q =
  if decide (peer = q) then i64_saturating_add (ledger_balance a peer) x else ledger_balance a q.
Proof.
  intros Hwf Hr. unfold ledger_balance, peer_cell; simpl. case_decide as Hq.
  - subst. rewrite Hr; simpl. destruct (aw_live _ Hwf _ _ Hr) as [s Hs].
    by rewrite lookup_alter_eq, Hs.
  - destruct (acc_peers a !! q) as [r'|] eqn:Hq'; [|done]. simpl.
    rewrite lookup_alter_ne; [done|]. intros <-. by apply Hq, (aw_inj _ Hwf _ _ r).
Qed.

Lemma record_for_ledger a peer x d q :
  acc_wf a →
  ledger_balance (record_for a peer x d) q =
  if decide (peer = q) then i64_saturating_add (ledger_balance a peer) (record_delta x d)
  else ledger_balance a q.
Proof.
  intros Hwf. unfold record_for. pose proof (acc_wf_get_or_create a peer Hwf) as Hwf'.
  pose proof (get_or_create_ledger a peer Hwf) as Hg.
  destruct (get_or_create_peer a peer) as [r a']. destruct Hg as [Hr Hb].
  rewrite <-!Hb. destruct d; by apply ledger_balance_on_cell.
Qed.

Lemma acc_wf_record a p x d : acc_wf a → acc_wf (record_for a p x d).
Proof.
  intros Hwf%(acc_wf_get_or_create a p). unfold record_for.
  destruct (get_or_create_peer a p) as [r a'].
  destruct d; apply acc_wf_on_cell; try done; intros s _; apply i64_sat_range.
Qed.

Lemma ledger_balance_i64 a p : acc_wf a → is_i64 (ledger_balance a p).
Proof.
  intros Hwf. unfold ledger_balance, peer_cell. destruct (acc_peers a !! p) as [r|]; simpl; [|alia].
  destruct (acc_cells a !! r) eqn:Hs; simpl; [by eapply aw_i64|alia].
Qed.

#[refine, global] Instance accounting_bandwidth : BandwidthLedger Accounting := {|
  bw_ok := acc_wf;
  bw_balance := ledger_balance;
  bw_record := record_for;
|}.
Proof.
  - intros. by apply acc_wf_record.
  - intros. by apply ledger_balance_i64.
  - intros. rewrite record_for_ledger by done. by rewrite decide_True.
  - intros. rewrite record_for_ledger by done. by rewrite decide_False.
Defined.

(** ** The ledger is well typed *)

(** A cell's counters lie in their machine types and its lines are the
    configured ones. *)
Record cell_typed (c : BandwidthConfig) (s : PeerState) : Prop := {
  ct_balance : is_i64 (ps_balance s);
  ct_reserved : is_u64 (ps_reserved s);
  ct_shadow : is_u64 (ps_shadow s);
  ct_ghost : is_u64 (ps_ghost s);
  ct_lines : ps_payment s = cfg_payment_threshold c ∧ ps_disconnect s = disconnect_threshold c;
}.

(** Every peer and every held reservation has a live cell, no two peers share
    one, and no reservation still held was applied. *)
Record ledger_typed (c : BandwidthConfig) (s : LedgerState) : Prop := {
  lt_wf : acc_wf (lg_acc s);
  lt_config : acc_config (lg_acc s) = c;
  lt_cells : ∀ r x, acc_cells (lg_acc s) !! r = Some x → cell_typed c x;
  lt_out : ∀ id rs, lg_out s !! id = Some rs → is_Some (acc_cells (lg_acc s) !! res_state rs) ∧ res_applied rs = false;
}.

(** The operations a public event runs on a cell. *)
Inductive cell_op : (PeerState → PeerState) → Prop :=
| op_balance x : cell_op (PeerState.add_balance x)
| op_reserve x : cell_op (PeerState.add_reserved x)
| op_shadow x : cell_op (PeerState.add_shadow_reserved x)
| op_ghost x : cell_op (PeerState.add_ghost x)
| op_apply l x : cell_op (leg_apply l x)
| op_release l x : cell_op (leg_release l x).

Lemma wrapping_add_u64 a b : is_u64 (u64_wrapping_add a b).
Proof. unfold u64_wrapping_add. pose proof (Z.mod_pos_bound (a + b) (u64_max + 1) ltac:(mach; lia)). unfold is_u64. lia. Qed.

Lemma saturating_sub_u64 a x : is_u64 a → is_u64 (u64_saturating_sub a (Au.as_amount x)).
Proof. unfold is_u64, u64_saturating_sub, Au.as_amount. case_decide; lia. Qed.

Lemma cell_op_typed c f s : cell_op f → cell_typed c s → cell_typed c (f s).
Proof.
  intros Hf [? ? ? ? ?]. destruct Hf as [x|x|x|x|l x|l x]; [..|destruct l|destruct l]; split; simpl;
    first [by auto using wrapping_add_u64, saturating_sub_u64|apply i64_sat_range].
Qed.

Lemma on_cell_typed c r f a out out' : cell_op f → ledger_typed c (mkLedgerState a out) →
  (∀ id rs, out' !! id = Some rs → out !! id = Some rs ∨ res_state rs = r ∧ is_Some (acc_cells a !! r) ∧ res_applied rs = false) →
  ledger_typed c (mkLedgerState (on_cell r f a) out').
Proof.
  intros Hf [Hwf Hc Hx Ho] Hout. simpl in *.
  assert (Hcell : ∀ k x, acc_cells (on_cell r f a) !! k = Some x → cell_typed c x).
  { intros k x. simpl. rewrite lookup_alter_Some. intros [(<-&y&Hy&->)|[_ Hy]]; [apply cell_op_typed|]; eauto. }
  assert (Hlive : ∀ k, is_Some (acc_cells a !! k) → is_Some (acc_cells (on_cell r f a) !! k)).
  { intros k Hk. simpl. by rewrite lookup_alter_is_Some. }
  split; simpl; [|done|exact Hcell|].
  - destruct Hwf as [Hl Hi Hb]. split; simpl; [intros p k Hk; apply Hlive; eauto|done|]. intros k x Hk. by destruct (Hcell k x Hk).
  - intros id rs [Hr|(->&Hk&Hr)]%Hout; [destruct (Ho _ _ Hr)|]; split; auto.
Qed.

Lemma create_typed c peer a out : ledger_typed c (mkLedgerState a out) →
  let '(r, a') := get_or_create_peer a peer in ledger_typed c (mkLedgerState a' out) ∧ is_Some (acc_cells a' !! r).
Proof.
  intros [Hwf Hc Hx Ho]. simpl in *. pose proof (acc_wf_get_or_create a peer Hwf) as Hwf'. unfold get_or_create_peer in *.
  destruct (acc_peers a !! peer) as [r|] eqn:E; [split; [by split|by eapply aw_live]|].
  split; [|simpl; rewrite lookup_insert_eq; eauto]. split; simpl; [done|done| |].
  - intros k x [[<- <-]|[_ Hk]]%lookup_insert_Some; [|eauto]. rewrite Hc. split; simpl; mlia || done.
  - intros id rs H. destruct (Ho _ _ H) as [Hl Hr]. split; [|done]. by apply lookup_insert_is_Some'; right.
Qed.

Lemma held_typed c id f g s : ledger_typed c s → (∀ rs, res_applied rs = false → cell_op (g rs)) →
  (∀ rs a, res_applied rs = false → f rs a = on_cell (res_state rs) (g rs) a) → ledger_typed c (consume id f s).
Proof.
  intros Hs Hg Hf. unfold consume. destruct (lg_out s !! id) as [rs|] eqn:E; [|done]. destruct s as [a out]; simpl in *.
  destruct (lt_out _ _ Hs _ _ E) as [_ Ha]. rewrite Hf by done.
  eapply on_cell_typed; [by apply Hg|done|]. intros k x [_ Hx]%lookup_delete_Some. by left.
Qed.

Lemma ledger_step_typed c s e : ledger_typed c s → ledger_typed c (ledger_step s e).
Proof.
  intros Hs. destruct s as [a out]. destruct e as [peer|r x d|peer price|peer price|id|id|id|peer]; cbn [ledger_step lg_acc lg_out].
  - pose proof (create_typed c peer a out Hs) as H. by destruct (get_or_create_peer a peer) as [r a'], H.
  - destruct d; (eapply on_cell_typed; [constructor|exact Hs|by left]).
  - unfold prepare_receive. destruct (admits _); [|done]. pose proof (create_typed c peer a out Hs) as H.
    destruct (get_or_create_peer a peer) as [r a'], H as [H Hr]. eapply on_cell_typed; [constructor|exact H|].
    intros k rs [[_ <-]|[_ Hk]]%lookup_insert_Some; [by right|by left].
  - unfold prepare_provide. pose proof (create_typed c peer a out Hs) as H.
    destruct (get_or_create_peer a peer) as [r a'], H as [H Hr]. case_decide; [done|]. eapply on_cell_typed; [constructor|exact H|].
    intros k rs [[_ <-]|[_ Hk]]%lookup_insert_Some; [by right|by left].
  - apply (held_typed c id _ (λ rs, leg_apply (res_leg rs) (res_price rs))); [done|constructor|done].
  - apply (held_typed c id _ (λ rs, leg_release (res_leg rs) (res_price rs))); [done|constructor|].
    intros rs b Hr. unfold reservation_drop. by rewrite Hr.
  - case_decide; [|done]. unfold consume. simpl. destruct (out !! id) as [rs|] eqn:E; [|done].
    destruct (lt_out _ _ Hs _ _ E) as [_ Hr]. unfold reservation_forfeit, reservation_drop. rewrite Hr.
    eapply on_cell_typed; [constructor|eapply (on_cell_typed c _ _ a out out); [constructor|done|by left]|].
    intros k x [_ Hx]%lookup_delete_Some. by left.
  - destruct Hs as [[Hl Hi Hb] Hc Hx Ho]. split; simpl in *; [|done|done|done].
    split; simpl; [intros p r [_ Hp]%lookup_delete_Some; eauto| |done]. intros p q r [_ Hp]%lookup_delete_Some [_ Hq]%lookup_delete_Some. eauto.
Qed.


(** ** Client accounting: price, then reserve *)

(** [SwarmPricing]: [FixedPricer] and [NoPricer].  [proximity] (of
    [nectar_primitives::SwarmAddress]) and the spec's [max_po] are given. *)
Section pricing.
Context (proximity : OverlayAddress → Z → Z) (max_po : Z).

Inductive Pricer := FixedPricer (base_price : Z) | NoPricer.

Definition price (p : Pricer) (chunk : Z) : Z :=
  match p with
  | FixedPricer base => Au.from_amount base
  | NoPricer => Au.ZERO
  end.

Definition peer_price (p : Pricer) (peer : OverlayAddress) (chunk : Z) : Z :=
  match p with
  | FixedPricer base =>
      let factor := u64_saturating_sub max_po (proximity peer chunk) + 1 in
      default (Au.from_amount u64_max) (Au.checked_scale (Au.from_amount base) factor)
  | NoPricer => Au.ZERO
  end.

Definition prepare_receive_chunk (p : Pricer) (a : Accounting) (peer : OverlayAddress)
    (chunk : Z) : result AccountingError Reservation * Accounting :=
  prepare_receive a peer (peer_price p peer chunk).

Definition prepare_provide_chunk (p : Pricer) (a : Accounting) (peer : OverlayAddress)
    (chunk : Z) : result AccountingError Reservation * Accounting :=
  prepare_provide a peer (peer_price p peer chunk).

Lemma peer_price_cases base peer chunk :
  0 <= base → 0 <= max_po <= 255 → 0 <= proximity peer chunk →
  let exact := base * (Z.max 0 (max_po - proximity peer chunk) + 1) in
  peer_price (FixedPricer base) peer chunk = Z.min i64_max exact.
Proof.
  intros Hb Hm Hp exact. unfold peer_price, exact, u64_saturating_sub.
  set (f := Z.max 0 (max_po - proximity peer chunk) + 1).
  assert (1 <= f <= 256) by lia. clearbody f.
  unfold Au.checked_scale. rewrite !from_amount_min. rewrite decide_False by mlia.
  rewrite decide_False by mlia. unfold i64_checked. case_decide as Hi; simpl.
  - unfold is_i64 in Hi. destruct (Z.le_gt_cases base i64_max).
    + rewrite (Z.min_r i64_max base) in * by done. lia.
    + rewrite (Z.min_l i64_max base) in * by lia. assert (f = 1) by (mach; nia). subst f. lia.
  - unfold is_i64 in Hi.
    assert (i64_max < base * f) by (mach; destruct (Z.le_gt_cases base 9223372036854775807);
      [rewrite Z.min_r in * by done|]; nia). mlia.
Qed.
End pricing.

(** ** [AccountingPeerHandle::settle_all]

    A provider's [settle] may change the ledger (its service records on the
    same cell) before it answers. *)
Section settle.
Context {E : Type}.
Definition Provider : Type := Accounting → result E Z * Accounting.

(** [NoSettlement]: nothing to settle. *)
Definition no_settlement : Provider := λ a, (Ok Au.ZERO, a).

Definition cell_balance (a : Accounting) (r : nat) : Z :=
  PeerState.balance (acc_cells a !!! r).

Fixpoint settle_loop (r : nat) (payment : Z) (providers : list Provider) (total : Z)
    (a : Accounting) : result E Z * Accounting :=
  match providers with
  | [] => (Ok total, a)
  | settle :: rest =>
      match settle a with
      | (Err e, a) => (Err e, a)
      | (Ok x, a) =>
          let total := Au.saturating_add total x in
          if Debt.exceeds (Debt.committed (cell_balance a r)) payment
          then settle_loop r payment rest total a
          else (Ok total, a)
      end
  end.

Definition settle_all (r : nat) (payment : Z) (providers : list Provider) (a : Accounting) :
    result E Z * Accounting :=
  settle_loop r payment providers Au.ZERO a.

(** [ran ps a xs a']: running [ps] in order from [a] gave the amounts [xs]. *)
Inductive ran : list Provider → Accounting → list Z → Accounting → Prop :=
| ran_nil a : ran [] a [] a
| ran_cons p ps a x a1 xs a2 :
    p a = (Ok x, a1) → ran ps a1 xs a2 → ran (p :: ps) a (x :: xs) a2.
#[local] Hint Constructors ran : core.

Lemma settle_loop_ok r payment ps : ∀ total a t a',
  settle_loop r payment ps total a = (Ok t, a') →
  ∃ pre post xs, ps = pre ++ post ∧ ran pre a xs a' ∧
    t = foldl Au.saturating_add total xs ∧
    (post = [] ∨ Debt.committed (cell_balance a' r) <= Z.max 0 payment).
Proof.
  induction ps as [|p ps IH]; intros total a t a' H; simpl in H.
  { simplify_eq. exists [], [], []. eauto 10. }
  destruct (p a) as [[x|e] a1] eqn:Hp; [|done].
  destruct (Debt.exceeds _ _) eqn:Hex.
  - destruct (IH _ _ _ _ H) as (pre&post&xs&->&Hr&->&Hend).
    exists (p :: pre), post, (x :: xs). split_and!; eauto.
  - simplify_eq. exists [p], ps, [x]. apply exceeds_false in Hex. split_and!; eauto.
Qed.
End settle.

(** ** Compare-exchange loops

    [saturating_fetch_add] and [saturating_fetch_sub] of [peer.rs]: load, then
    retry a weak compare-exchange of [op current delta].  Any number of
    threads run the loop on one atomic; a weak exchange may fail spuriously. *)
Section CasLoop.
Context (op : Z → Z → Z).

Inductive CasPc := CasLoad | CasTry (current : Z) | CasDone.

Record CasState := mkCas { cas_mem : Z; cas_threads : list (Z * CasPc) }.

Inductive cas_step : CasState → CasState → Prop :=
| cas_load m ts i d :
    ts !! i = Some (d, CasLoad) →
    cas_step (mkCas m ts) (mkCas m (<[i := (d, CasTry m)]> ts))
| cas_success m ts i d :
    ts !! i = Some (d, CasTry m) →
    cas_step (mkCas m ts) (mkCas (op m d) (<[i := (d, CasDone)]> ts))
| cas_failure m ts i d current :
    ts !! i = Some (d, CasTry current) →
    cas_step (mkCas m ts) (mkCas m (<[i := (d, CasTry m)]> ts)).

Definition cas_init (m : Z) (deltas : list Z) : CasState :=
  mkCas m ((λ d, (d, CasLoad)) <$> deltas).

Definition is_done (t : Z * CasPc) : Prop := t.2 = CasDone.
#[global] Instance is_done_dec t : Decision (is_done t).
Proof. unfold is_done. destruct t as [d [| |]]; [right|right|left]; done. Defined.

(** The deltas whose exchange has succeeded. *)
Definition done_deltas (ts : list (Z * CasPc)) : list Z := (filter is_done ts).*1.

Definition cas_inv (m0 : Z) (deltas : list Z) (s : CasState) : Prop :=
  (cas_threads s).*1 = deltas ∧
  ∃ order, order ≡ₚ done_deltas (cas_threads s) ∧ cas_mem s = foldl op m0 order.

Lemma done_deltas_insert ts i d pc pc' :
  ts !! i = Some (d, pc) → pc ≠ CasDone →
  done_deltas (<[i := (d, pc')]> ts) ≡ₚ
  (if decide (is_done (d, pc')) then [d] else []) ++ done_deltas ts.
Proof.
  intros Hi Hpc. unfold done_deltas.
  rewrite insert_take_drop by (by eapply lookup_lt_Some).
  rewrite <-(take_drop_middle ts i (d, pc) Hi) at 3.
  rewrite !filter_app. rewrite (filter_cons_False _ (d, pc)) by done.
  destruct (decide (is_done (d, pc'))) as [H|H].
  - rewrite filter_cons_True, !fmap_app by done. simpl. by rewrite Permutation_middle.
  - by rewrite filter_cons_False.
Qed.

Lemma cas_fst_insert (ts : list (Z * CasPc)) i d pc pc' :
  ts !! i = Some (d, pc) → (<[i := (d, pc')]> ts).*1 = ts.*1.
Proof.
  intros Hi. rewrite list_fmap_insert. apply list_insert_id. by rewrite list_lookup_fmap, Hi.
Qed.

Lemma cas_inv_step m0 deltas s s' : cas_inv m0 deltas s → cas_step s s' → cas_inv m0 deltas s'.
Proof.
  intros [Hd (order&Hperm&Hmem)] Hstep.
  destruct Hstep as [m ts i d Hi|m ts i d Hi|m ts i d cur Hi]; simpl in *; (split; simpl;
    [by erewrite cas_fst_insert|]).
  - exists order. by rewrite done_deltas_insert.
  - exists (order ++ [d]). rewrite done_deltas_insert by done. simpl.
    rewrite foldl_app, <-Hmem, <-Hperm. split; [|done]. by rewrite Permutation_app_comm.
  - exists order. by rewrite done_deltas_insert.
Qed.

Lemma cas_inv_init m deltas : cas_inv m deltas (cas_init m deltas).
Proof.
  split; simpl.
  - rewrite <-list_fmap_compose. apply list_fmap_id.
  - exists []. split; [|done]. induction deltas; [done|]. unfold done_deltas. simpl.
    by rewrite filter_cons_False.
Qed.

Lemma cas_inv_reachable m deltas s : rtc cas_step (cas_init m deltas) s → cas_inv m deltas s.
Proof.
  intros H. pose proof (cas_inv_init m deltas) as Hi.
  induction H as [|x y z Hxy _ IH]; [done|]. apply IH. by eapply cas_inv_step.
Qed.

Lemma done_deltas_all ts : Forall is_done ts → done_deltas ts = ts.*1.
Proof.
  induction 1 as [|t ts Ht _ IH]; [done|]. unfold done_deltas in *. by rewrite filter_cons_True, fmap_cons, IH.
Qed.

(** A thread left alone finishes: it observes, then exchanges. *)
Lemma cas_finish_one m ts i d pc :
  ts !! i = Some (d, pc) → ∃ m', rtc cas_step (mkCas m ts) (mkCas m' (<[i := (d, CasDone)]> ts)).
Proof.
  intros Hi. assert (Hl : (i < length ts)%nat) by (by eapply lookup_lt_Some). destruct pc as [|cur|].
  - exists (op m d). eapply rtc_l; [by eapply cas_load|]. apply rtc_once.
    rewrite <-(list_insert_insert_eq ts i (d, CasDone) (d, CasTry m)).
    apply cas_success. by rewrite list_lookup_insert_eq.
  - exists (op m d). eapply rtc_l; [by eapply cas_failure|]. apply rtc_once.
    rewrite <-(list_insert_insert_eq ts i (d, CasDone) (d, CasTry m)).
    apply cas_success. by rewrite list_lookup_insert_eq.
  - exists m. by rewrite list_insert_id.
Qed.

Lemma cas_finish_prefix ts pre : ∀ m,
  Forall is_done pre → ∃ m' ts',
    rtc cas_step (mkCas m (pre ++ ts)) (mkCas m' ts') ∧ Forall is_done ts'.
Proof.
  revert pre. induction ts as [|[d pc] ts IH]; intros pre m Hpre.
  { exists m, pre. by rewrite app_nil_r. }
  destruct (cas_finish_one m (pre ++ (d, pc) :: ts) (length pre) d pc) as [m1 H1].
  { by rewrite list_lookup_middle. }
  rewrite insert_app_r_alt, Nat.sub_diag in H1 by done. simpl in H1.
  destruct (IH (pre ++ [(d, CasDone)]) m1) as (m2&ts'&H2&Hd).
  { apply Forall_app. split; [done|]. by repeat constructor. }
  exists m2, ts'. rewrite <-app_assoc in H2. split; [by etrans|done].
Qed.
End CasLoop.

(** The floor of a run of saturating subtractions does not depend on their
    order. *)
Lemma foldl_saturating_sub l : ∀ m, 0 <= m → Forall (Z.le 0) l →
  foldl u64_saturating_sub m l = Z.max 0 (m - sumZ id l).
Proof.
  induction l as [|d l IH]; intros m Hm Hl; inv Hl; simpl; [lia|].
  assert (0 <= sumZ id l) by (apply sumZ_nonneg; done).
  rewrite IH by (done || mlia). mach. unfold id in *. lia.
Qed.

(** ** Properties *)

(** Looking a peer up creates its cell without changing any ledger read. *)
Lemma get_or_create_snapshot a peer q :
  acc_wf a → ledger_snapshot (get_or_create_peer a peer).2 q = ledger_snapshot a q.
Proof.
  intros Hwf. unfold get_or_create_peer. destruct (acc_peers a !! peer) as [r|] eqn:Hp; [done|].
  unfold ledger_snapshot, peer_cell; simpl. destruct (decide (peer = q)) as [<-|Hne].
  - rewrite lookup_insert_eq; simpl. by rewrite lookup_insert_eq, Hp.
  - rewrite lookup_insert_ne by done. destruct (acc_peers a !! q) as [r|] eqn:Hq; [|done]. simpl.
    destruct (aw_live _ Hwf _ _ Hq) as [s Hs]. rewrite lookup_insert_ne; [done|].
    intros Heq. subst r. unfold fresh_cell in Hs. by rewrite fresh_dom_lookup in Hs.
Qed.

Lemma on_cell_id a r f : (∀ s, acc_cells a !! r = Some s → f s = s) → on_cell r f a = a.
Proof.
  intros Hf. destruct a as [c p m]. unfold on_cell; simpl in *. f_equal. apply map_eq. intros r'.
  destruct (decide (r = r')) as [<-|]; [|by rewrite lookup_alter_ne].
  rewrite lookup_alter_eq. destruct (m !! r) as [s|] eqn:Hs; simpl; [|done]. by rewrite Hf.
Qed.

Lemma debit_received_ok a peer p a1 :
  debit_received a peer p = (Ok tt, a1) →
  ∃ r, (get_or_create_peer a peer).1 = r ∧
  a1 = on_cell r (leg_apply Receive p ∘ PeerState.add_reserved p) (get_or_create_peer a peer).2.
Proof.
  unfold debit_received, prepare_receive. destruct (admits _); [|done].
  destruct (get_or_create_peer a peer) as [r a'] eqn:Hg. intros [= <-]. exists r. split; [done|].
  unfold reservation_apply. simpl. apply on_cell_compose.
Qed.

Lemma get_or_create_found a peer :
  acc_peers (get_or_create_peer a peer).2 !! peer = Some (get_or_create_peer a peer).1.
Proof.
  unfold get_or_create_peer. destruct (acc_peers a !! peer) eqn:H; [done|]. apply lookup_insert_eq.
Qed.

Lemma debit_then_refund s p :
  0 <= p <= i64_max → is_i64 (ps_balance s) → i64_min <= ps_balance s - p →
  0 <= ps_reserved s → ps_reserved s + p <= u64_max →
  PeerState.add_balance p (leg_apply Receive p (PeerState.add_reserved p s)) = s.
Proof.
  intros. destruct s as [b r sh g pt dt]. unfold leg_apply, PeerState.sub_reserved, PeerState.add_balance,
    PeerState.add_reserved, Au.saturating_neg; simpl in *.
  rewrite as_amount_max, wrapping_add_exact by lia. f_equal; mlia.
Qed.

(** A refund is the inverse of the debit.  Whenever [debit_received]
    succeeds on a peer whose counters are in range and whose debt does not
    underflow [i64], [refund_received] of the same price brings every ledger
    read of every peer (balance, reserved, disconnect line, settle trigger)
    back to what it was before the debit. *)
Theorem refund_inverts_debit a peer p a1 :
  acc_wf a → 0 <= p <= i64_max → i64_min <= ledger_balance a peer - p →
  (∀ s, peer_cell a peer = Some s → 0 <= ps_reserved s <= u64_max - p) →
  debit_received a peer p = (Ok tt, a1) →
  ∀ q, ledger_snapshot (refund_received a1 peer p) q = ledger_snapshot a q.
Proof.
  intros Hwf Hp Hb Hr Hd q. apply debit_received_ok in Hd as (r&Hg&->).
  rewrite <-(get_or_create_snapshot a peer q Hwf).
  pose proof (get_or_create_found a peer) as Hfound. rewrite Hg in Hfound.
  pose proof (acc_wf_get_or_create a peer Hwf) as Hwf'.
  assert (Hcell : ∀ s, acc_cells (get_or_create_peer a peer).2 !! r = Some s →
    i64_min <= ps_balance s - p ∧ 0 <= ps_reserved s <= u64_max - p).
  { intros s Hs. unfold get_or_create_peer in Hg, Hs. unfold ledger_balance in Hb.
    destruct (acc_peers a !! peer) as [r'|] eqn:Hpeer; simpl in Hg, Hs; subst r.
    - assert (peer_cell a peer = Some s) as Hs' by (unfold peer_cell; by rewrite Hpeer).
      rewrite Hs' in Hb. split; [apply Hb|eauto].
    - rewrite lookup_insert_eq in Hs. simplify_eq/=. mlia. }
  set (a' := (get_or_create_peer a peer).2) in *. clearbody a'.
  unfold refund_received, record_for, get_or_create_peer at 1; simpl. rewrite Hfound; simpl.
  rewrite on_cell_compose, on_cell_id; [done|].
  intros s Hs. destruct (Hcell s Hs). apply debit_then_refund; try done; try lia. by eapply aw_i64.
Qed.

Definition witness_accounting : Accounting :=
  record_for (accounting_new default_bandwidth_config) 7 1000 Upload.

Lemma acc_wf_new c : acc_wf (accounting_new c).
Proof. by split. Qed.

Lemma refund_inverts_debit_witness :
  ledger_snapshot (refund_received (debit_received witness_accounting 7 400).2 7 400) 7 =
  mkSnapshot 1000 0 16875000 6750000.
Proof.
  rewrite (refund_inverts_debit witness_accounting 7 400 (debit_received witness_accounting 7 400).2).
  - vm_compute. reflexivity.
  - apply acc_wf_record, acc_wf_new.
  - vm_compute. split; congruence.
  - vm_compute. congruence.
  - intros s Hs. vm_compute in Hs. injection Hs as <-. vm_compute. split; congruence.
  - vm_compute. reflexivity.
Defined.

(** The single-lock snapshot is the four ledger reads.  The overridden
    [Ledger::snapshot] returns exactly the fields the individual reads return,
    and looking a peer up first (which inserts its fresh state) changes none
    of them for any peer. *)
Theorem snapshot_equals_reads a peer q :
  acc_wf a →
  ledger_snapshot a q = default_snapshot a q ∧
  default_snapshot (get_or_create_peer a peer).2 q = default_snapshot a q.
Proof.
  intros Hwf. assert (∀ b, ledger_snapshot b q = default_snapshot b q) as E.
  { intros b. unfold ledger_snapshot, default_snapshot, ledger_balance, ledger_reserved,
      ledger_disconnect_line, ledger_settle_trigger. by destruct (peer_cell b q). }
  rewrite <-!E, get_or_create_snapshot; done.
Qed.

Lemma snapshot_equals_reads_witness :
  ledger_snapshot witness_accounting 7 = default_snapshot witness_accounting 7 ∧
  default_snapshot (get_or_create_peer witness_accounting 9).2 7 = default_snapshot witness_accounting 7.
Proof. apply snapshot_equals_reads. apply acc_wf_record, acc_wf_new. Defined.

(** The lines are ordered.  While the marked-up payment threshold fits an
    [i64], the early-payment trigger is at most the payment threshold, which
    is at most the disconnect threshold, each being the percentage of the
    payment threshold it is documented to be, rounded down. *)
Theorem thresholds_ordered c :
  0 <= payment_threshold_raw c → 0 <= payment_tolerance_percent c → 0 <= early_payment_percent c →
  payment_threshold_raw c * (100 + payment_tolerance_percent c) <= i64_max →
  100 + payment_tolerance_percent c <= i64_max →
  early_payment_trigger c = payment_threshold_raw c * (100 - Z.min (early_payment_percent c) 100) / 100 ∧
  disconnect_threshold c = payment_threshold_raw c * (100 + payment_tolerance_percent c) / 100 ∧
  early_payment_trigger c <= cfg_payment_threshold c <= disconnect_threshold c.
Proof.
  intros Hp Ht He Hov Hov'. set (p := payment_threshold_raw c) in *.
  assert (Hpp : cfg_payment_threshold c = p).
  { unfold cfg_payment_threshold. fold p. rewrite from_amount_min. mach. nia. }
  assert (Hs : ∀ f, 0 <= f <= 100 + payment_tolerance_percent c →
    Au.checked_scale p f = Some (p * f)).
  { intros f Hf. unfold Au.checked_scale, i64_checked. rewrite !decide_False, decide_True by (mach; nia). done. }
  assert (E1 : early_payment_trigger c = p * (100 - Z.min (early_payment_percent c) 100) / 100).
  { unfold early_payment_trigger. rewrite Hpp, Hs by lia. simpl.
    rewrite as_amount_max, from_amount_min, Z.max_r by nia.
    apply Z.min_r. apply Z.div_le_upper_bound; mach; nia. }
  assert (E2 : disconnect_threshold c = p * (100 + payment_tolerance_percent c) / 100).
  { unfold disconnect_threshold, Au.scale_percent, u64_saturating_add. rewrite Hpp, decide_False by lia.
    rewrite Z.min_r by mlia. rewrite Hs by lia. done. }
  split_and!; [done..| |]; rewrite ?E1, ?E2, Hpp.
  - apply Z.div_le_upper_bound; nia.
  - apply Z.div_le_lower_bound; nia.
Qed.

Lemma thresholds_ordered_witness :
  early_payment_trigger (for_client default_bandwidth_config) = 675000 ∧
  disconnect_threshold (for_client default_bandwidth_config) = 1687500.
Proof.
  destruct (thresholds_ordered (for_client default_bandwidth_config)) as (->&->&_);
    vm_compute; split || congruence; reflexivity.
Defined.

(** On overflow the disconnect line collapses.  When the marked-up payment
    threshold no longer fits an [i64], [scale_percent] returns [i64::MAX / 100],
    so every payment threshold past that value has a disconnect threshold
    strictly below it: peers are cut off before they are asked to pay. *)
Theorem disconnect_overflow_below_payment c :
  0 <= payment_tolerance_percent c → i64_max / 100 < payment_threshold_raw c →
  i64_max < cfg_payment_threshold c * (100 + payment_tolerance_percent c) →
  disconnect_threshold c < cfg_payment_threshold c.
Proof.
  intros Ht Hp Hov.
  assert (Hpos : i64_max / 100 < cfg_payment_threshold c <= i64_max).
  { unfold cfg_payment_threshold. rewrite from_amount_min. change (i64_max / 100) with 92233720368547758 in *.
    mlia. }
  unfold disconnect_threshold, Au.scale_percent. rewrite decide_False by mlia.
  set (t := u64_saturating_add 100 (payment_tolerance_percent c)).
  assert (Au.checked_scale (cfg_payment_threshold c) t = None) as ->; [|lia].
  unfold Au.checked_scale. rewrite decide_False by mlia. case_decide as Hbig; [done|].
  unfold i64_checked. rewrite decide_False; [done|]. unfold is_i64, t, u64_saturating_add in *.
  mach. lia.
Qed.

Lemma disconnect_overflow_below_payment_witness :
  disconnect_threshold (mkBandwidthConfig 100000000000000000 25 1 50 10) < 100000000000000000.
Proof.
  apply (disconnect_overflow_below_payment (mkBandwidthConfig 100000000000000000 25 1 50 10));
    vm_compute; congruence.
Defined.

(** The fixed price.  A chunk costs [base * (max_po - proximity + 1)],
    clipped at [i64::MAX] when that overflows, so it never wraps into a cheap
    price; it never rises as the chunk gets closer to the peer and is never
    below the base price. *)
Theorem fixed_price_spec (proximity : OverlayAddress → Z → Z) max_po base peer chunk chunk' :
  0 <= base → 0 <= max_po <= u8_max → (∀ p c, 0 <= proximity p c <= u8_max) →
  peer_price proximity max_po (FixedPricer base) peer chunk =
    Z.min i64_max (base * (Z.max 0 (max_po - proximity peer chunk) + 1)) ∧
  (proximity peer chunk <= proximity peer chunk' →
     peer_price proximity max_po (FixedPricer base) peer chunk' <=
     peer_price proximity max_po (FixedPricer base) peer chunk) ∧
  price (FixedPricer base) chunk <= peer_price proximity max_po (FixedPricer base) peer chunk.
Proof.
  intros Hb Hm Hp. pose proof (Hp peer chunk). pose proof (Hp peer chunk').
  rewrite !peer_price_cases by mlia. unfold price. rewrite from_amount_min.
  split; [done|]. split.
  - intros Hle. apply Z.min_le_compat_l, Z.mul_le_mono_nonneg_l; lia.
  - apply Z.min_le_compat_l. nia.
Qed.

(** A stand-in for the library's proximity: the first differing bit of two
    addresses, capped at 31 (addresses below [2^256]). *)
Definition proximity_ref (a b : Z) : Z :=
  if decide (a = b) then 31 else Z.min 31 (Z.max 0 (255 - Z.log2 (Z.lxor a b))).

Lemma fixed_price_spec_witness :
  peer_price proximity_ref 31 (FixedPricer 10) 0 (2 ^ 255) = 320.
Proof.
  destruct (fixed_price_spec proximity_ref 31 10 0 (2 ^ 255) 0) as [-> _]; [lia|mlia| |].
  - intros p c. unfold proximity_ref. case_decide; mlia.
  - vm_compute. reflexivity.
Defined.

(** Settling runs the providers in order, adds up what they settled, and
    stops at the first one after which our debt is within the payment
    threshold; if it returns without error, either the debt is within the
    threshold or every provider has been tried. *)
Theorem settle_all_spec {E} (r : nat) payment (ps : list (Provider (E := E))) a t a' :
  settle_all r payment ps a = (Ok t, a') →
  ∃ pre post xs, ps = pre ++ post ∧ ran pre a xs a' ∧ t = Au.sum xs ∧
    (post = [] ∨ Debt.committed (cell_balance a' r) <= Z.max 0 payment).
Proof. apply settle_loop_ok. Qed.

(** A provider that forgives [x] of what we owe on cell [r]. *)
Definition forgiving_provider (r : nat) (x : Z) : Provider (E := unit) :=
  λ a, (Ok x, handle_record r x Upload a).

Definition indebted_accounting : Accounting :=
  record_for (accounting_new (mkBandwidthConfig 100 25 10 50 10)) 7 350 Download.

Lemma settle_all_spec_witness :
  ∃ pre post xs,
    [no_settlement; forgiving_provider 0 300; forgiving_provider 0 50] = pre ++ post ∧
    ran pre indebted_accounting xs
      (settle_all (E:=unit) 0 100 [no_settlement; forgiving_provider 0 300; forgiving_provider 0 50]
         indebted_accounting).2 ∧ 300 = Au.sum xs ∧
    (post = [] ∨ Debt.committed (cell_balance
       (settle_all (E:=unit) 0 100 [no_settlement; forgiving_provider 0 300; forgiving_provider 0 50]
         indebted_accounting).2 0) <= 100).
Proof.
  apply (settle_all_spec 0 100
    [no_settlement; forgiving_provider 0 300; forgiving_provider 0 50] indebted_accounting 300).
  vm_compute. reflexivity.
Defined.

(** The balance and reserve loops are atomic.  Any number of threads may
    run [saturating_fetch_add] (or [_sub]) on one atomic, interleaved at will
    and with spurious exchange failures: when all have returned, the atomic
    holds the result of applying every delta exactly once, in some order; and
    from every reachable state all of them can still return. *)
Theorem cas_loop_linearizable op m deltas s :
  rtc (cas_step op) (cas_init m deltas) s →
  (Forall is_done (cas_threads s) →
     ∃ order, order ≡ₚ deltas ∧ cas_mem s = foldl op m order) ∧
  (∃ s', rtc (cas_step op) s s' ∧ Forall is_done (cas_threads s')).
Proof.
  intros Hr. destruct (cas_inv_reachable op m deltas s Hr) as [Hd (order&Hp&Hm)]. split.
  - intros Hall. exists order. by rewrite done_deltas_all, Hd in Hp.
  - destruct s as [m1 ts]. destruct (cas_finish_prefix op ts [] m1) as (m2&ts'&H1&H2); [done|].
    by exists (mkCas m2 ts').
Qed.

Lemma cas_loop_linearizable_witness :
  ∃ s', rtc (cas_step u64_saturating_sub) (cas_init 10 [3; 4]) s' ∧ Forall is_done (cas_threads s').
Proof.
  destruct (cas_loop_linearizable u64_saturating_sub 10 [3; 4] (cas_init 10 [3; 4])) as [_ H];
    [constructor|exact H].
Defined.

(** Concurrent releases floor at zero.  However the
    [saturating_fetch_sub] loops of several releases interleave, the reserve
    they leave is the start minus their sum, floored at zero, so a mismatched
    release can never wrap the reserve around. *)
Theorem release_loops_floor m deltas s :
  0 <= m → Forall (Z.le 0) deltas →
  rtc (cas_step u64_saturating_sub) (cas_init m deltas) s →
  Forall is_done (cas_threads s) →
  cas_mem s = Z.max 0 (m - sumZ id deltas).
Proof.
  intros Hm Hl Hr Hall.
  destruct (cas_inv_reachable _ m deltas s Hr) as [Hd (order&Hp&->)].
  rewrite done_deltas_all, Hd in Hp by done.
  rewrite foldl_saturating_sub, Hp by (done || by rewrite Hp). done.
Qed.

Lemma release_loops_floor_witness :
  cas_mem (mkCas 6 [(4, CasDone)]) = Z.max 0 (10 - sumZ id [4]).
Proof.
  apply (release_loops_floor 10 [4]); [lia|by repeat constructor| |by repeat constructor].
  eapply rtc_l; [by apply (cas_load _ 10 [(4, CasLoad)] 0 4)|].
  apply rtc_once. by apply (cas_success u64_saturating_sub 10 [(4, CasTry 10)] 0 4).
Defined.
