(* ===== verification/Pseudosettle.v ===== *)
(** * Pseudosettle: time-based settlement

    Models the actor of [crates/swarm/accounting/pseudosettle/src/]: the
    service state, [handle_command], [handle_event], [calculate_acceptable],
    and the provider that starts a settlement.  The service is written against
    the [BandwidthLedger] interface, so its theorems hold for any accounting
    that keeps the interface's laws.

    A handler is one step of the actor.  What it does to the outside (replies,
    network commands, ledger records, peer reports) is returned as a list of
    effects; [record] also changes the shared ledger.  Every call to
    [current_timestamp] is a separate reading, passed in by the caller, and
    [link] says whether the network command channel is open. *)

From S2P Require Import Prelude.
From S2P Require Import Au.
From S2P Require Import Accounting.
From S2P Require Import Bandwidth.

Definition CLOCK_SKEW_WINDOW_SECS : Z := 60.

Inductive PseudosettleSettlementError :=
| PsServiceStopped
| PsSettlementInProgress
| PsTooSoon
| PsNetworkError (reason : string)
| PsRejected.

Record PseudosettleAck := mkAck { ack_accepted : Z; ack_time : Z }.

(** [response_tx]: a one-shot reply channel, named by a number. *)
Record PendingSettlement := mkPending { pend_amount : Z; pend_tx : nat }.

Inductive PseudosettleCommand :=
| PsSettle (peer : OverlayAddress) (amount : Z) (response_tx : nat).

Inductive PseudosettleEvent :=
| PsSent (peer : OverlayAddress) (ack : PseudosettleAck)
| PsReceived (peer : OverlayAddress) (amount : Z) (request_id : Z)
| PsFailed (peer : OverlayAddress).

Inductive PsEffect :=
| FxRespond (tx : nat) (r : result PseudosettleSettlementError Z)
| FxSendPseudosettle (peer : OverlayAddress) (amount : Z)
| FxAckPseudosettle (peer : OverlayAddress) (request_id : Z) (ack : PseudosettleAck)
| FxRecord (peer : OverlayAddress) (amount : Z) (d : Direction)
| FxReportViolation (peer : OverlayAddress).

(** [wire_from_au] *)
Definition wire_from_au (amount : Z) : Z := Au.as_amount amount.

(** [current_timestamp() as i64] *)
Definition ack_timestamp (now : Z) : Z :=
  if decide (now <= i64_max) then now else now - (u64_max + 1).

Section service.
Context {A : Type} `{BandwidthLedger A}.

Record PseudosettleService := mkPs {
  sv_accounting : A;
  sv_refresh_rate : Z;
  sv_pending : gmap Z PendingSettlement;
  sv_last_settlement : gmap Z Z;
  sv_last_settle_ack : gmap Z Z;
  sv_first_seen : gmap Z Z;
  sv_reporter : bool;
}.

Definition ps_new (accounting : A) (refresh_rate : Z) : PseudosettleService :=
  mkPs accounting refresh_rate ∅ ∅ ∅ ∅ false.

Definition with_reporter (s : PseudosettleService) : PseudosettleService :=
  mkPs (sv_accounting s) (sv_refresh_rate s) (sv_pending s) (sv_last_settlement s)
    (sv_last_settle_ack s) (sv_first_seen s) true.

Definition report_violation (s : PseudosettleService) (peer : OverlayAddress) : list PsEffect :=
  if sv_reporter s then [FxReportViolation peer] else [].

Definition set_pending (p : gmap Z PendingSettlement) (s : PseudosettleService) :=
  mkPs (sv_accounting s) (sv_refresh_rate s) p (sv_last_settlement s)
    (sv_last_settle_ack s) (sv_first_seen s) (sv_reporter s).

Definition ps_handle_command (now : Z) (link : bool) (s : PseudosettleService)
    (cmd : PseudosettleCommand) : PseudosettleService * list PsEffect :=
  match cmd with
  | PsSettle peer amount tx =>
      match sv_pending s !! peer with
      | Some _ => (s, [FxRespond tx (Err PsSettlementInProgress)])
      | None =>
          if is_some_and (λ last, bool_decide (now <= last)) (sv_last_settle_ack s !! peer) then
            (s, [FxRespond tx (Err PsTooSoon)])
          else
            let s := set_pending (<[peer := mkPending amount tx]> (sv_pending s)) s in
            if link then (s, [FxSendPseudosettle peer (wire_from_au amount)])
            else
              match sv_pending s !! peer with
              | Some pending =>
                  (set_pending (delete peer (sv_pending s)) s,
                   [FxRespond (pend_tx pending) (Err (PsNetworkError "channel closed"))])
              | None => (s, [])
              end
      end
  end.

Definition calculate_acceptable (now : Z) (s : PseudosettleService) (peer : OverlayAddress)
    (requested : Z) : Z :=
  let balance := bw_balance (sv_accounting s) peer in
  if negb (Au.is_positive balance) then Au.ZERO
  else
    let since :=
      match sv_last_settlement s !! peer with
      | Some t => t
      | None => default now (sv_first_seen s !! peer)
      end in
    let elapsed := u64_saturating_sub now since in
    let allowance :=
      default (Au.from_amount u64_max) (Au.checked_scale (sv_refresh_rate s) elapsed) in
    Au.min (Au.min requested balance) allowance.

(** The ack timestamp the next outbound settle is paced by. *)
Definition effective_timestamp (now : Z) (timestamp : Z) : Z :=
  if decide (0 <= timestamp ∧ u64_saturating_sub now CLOCK_SKEW_WINDOW_SECS <= timestamp <= now)
  then timestamp else now.

Definition handle_sent (now : Z) (s : PseudosettleService) (peer : OverlayAddress)
    (ack : PseudosettleAck) : PseudosettleService * list PsEffect :=
  match sv_pending s !! peer with
  | None => (s, [])
  | Some pending =>
      let violation :=
        if decide (pend_amount pending < ack_accepted ack) then report_violation s peer else [] in
      let accepted := Au.min (ack_accepted ack) (pend_amount pending) in
      let effective := effective_timestamp now (ack_time ack) in
      let reference :=
        match sv_last_settle_ack s !! peer with
        | Some prev => Z.max prev effective
        | None => effective
        end in
      (mkPs (bw_record (sv_accounting s) peer accepted Upload) (sv_refresh_rate s)
         (delete peer (sv_pending s)) (sv_last_settlement s)
         (<[peer := reference]> (sv_last_settle_ack s)) (sv_first_seen s) (sv_reporter s),
       violation ++ [FxRecord peer accepted Upload; FxRespond (pend_tx pending) (Ok accepted)])
  end.

(** [t1] is the gate's reading, [t2] that of [calculate_acceptable], [t3]
    that of the ack. *)
Definition handle_received (t1 t2 t3 : Z) (link : bool) (s : PseudosettleService)
    (peer : OverlayAddress) (amount request_id : Z) : PseudosettleService * list PsEffect :=
  let send ack := if link then [FxAckPseudosettle peer request_id ack] else [] in
  if is_some_and (λ last, bool_decide (t1 <= last)) (sv_last_settlement s !! peer) then
    (s, send (mkAck Au.ZERO (ack_timestamp t3)))
  else
    let first_seen :=
      match sv_first_seen s !! peer with
      | Some _ => sv_first_seen s
      | None => <[peer := t1]> (sv_first_seen s)
      end in
    let s := mkPs (sv_accounting s) (sv_refresh_rate s) (sv_pending s) (sv_last_settlement s)
               (sv_last_settle_ack s) first_seen (sv_reporter s) in
    let acceptable := calculate_acceptable t2 s peer (Au.saturating_from_u256 amount) in
    let ack := mkAck acceptable (ack_timestamp t3) in
    if Au.is_positive acceptable then
      (mkPs (bw_record (sv_accounting s) peer acceptable Download) (sv_refresh_rate s)
         (sv_pending s) (<[peer := t1]> (sv_last_settlement s))
         (sv_last_settle_ack s) first_seen (sv_reporter s),
       FxRecord peer acceptable Download :: send ack)
    else (s, send ack).

Definition handle_failed (s : PseudosettleService) (peer : OverlayAddress) :
    PseudosettleService * list PsEffect :=
  match sv_pending s !! peer with
  | Some pending =>
      (set_pending (delete peer (sv_pending s)) s,
       [FxRespond (pend_tx pending) (Err (PsNetworkError "substream failed"))])
  | None => (s, [])
  end.

Definition ps_handle_event (t1 t2 t3 : Z) (link : bool) (s : PseudosettleService)
    (event : PseudosettleEvent) : PseudosettleService * list PsEffect :=
  match event with
  | PsSent peer ack => handle_sent t1 s peer ack
  | PsReceived peer amount request_id => handle_received t1 t2 t3 link s peer amount request_id
  | PsFailed peer => handle_failed s peer
  end.

(** [PseudosettleProvider::settle] up to the command it sends: what it asks
    the service to settle, if anything. *)
Definition provider_offer (has_handle : bool) (balance : Z) : option Z :=
  if has_handle then
    if negb (Au.is_negative balance) then None else Some (Au.unsigned_abs balance)
  else None.

(** ** The actor as a transition system

    [InRecord] is any other component recording on the shared ledger between
    two steps of the service. *)

Inductive PsInput :=
| InCommand (now : Z) (link : bool) (cmd : PseudosettleCommand)
| InEvent (t1 t2 t3 : Z) (link : bool) (event : PseudosettleEvent)
| InRecord (peer : OverlayAddress) (amount : Z) (d : Direction).

Definition ps_handle (s : PseudosettleService) (i : PsInput) :
    PseudosettleService * list PsEffect :=
  match i with
  | InCommand now link cmd => ps_handle_command now link s cmd
  | InEvent t1 t2 t3 link event => ps_handle_event t1 t2 t3 link s event
  | InRecord peer amount d =>
      (mkPs (bw_record (sv_accounting s) peer amount d) (sv_refresh_rate s) (sv_pending s)
         (sv_last_settlement s) (sv_last_settle_ack s) (sv_first_seen s) (sv_reporter s), [])
  end.

Definition ps_step (st : PseudosettleService * list PsEffect) (i : PsInput) :
    PseudosettleService * list PsEffect :=
  let '(s, fx) := ps_handle st.1 i in (s, st.2 ++ fx).

(** What the log says was forgiven to [peer]. *)
Definition forgiven_fx (peer : OverlayAddress) (e : PsEffect) : Z :=
  match e with
  | FxRecord p x Download => if decide (p = peer) then x else 0
  | _ => 0
  end.
Definition forgiven (peer : OverlayAddress) (log : list PsEffect) : Z := sumZ (forgiven_fx peer) log.

(** How often the reply channel [tx] was answered, is awaiting an answer, and
    was handed to the service. *)
Definition answered_fx (tx : nat) (e : PsEffect) : Z :=
  match e with FxRespond t _ => if decide (t = tx) then 1 else 0 | _ => 0 end.
Definition answered (tx : nat) (log : list PsEffect) : Z := sumZ (answered_fx tx) log.
Definition awaiting (tx : nat) (pending : gmap Z PendingSettlement) : Z :=
  map_sumZ (λ _ p, if decide (pend_tx p = tx) then 1 else 0) pending.
Definition asked_in (tx : nat) (i : PsInput) : Z :=
  match i with
  | InCommand _ _ (PsSettle _ _ t) => if decide (t = tx) then 1 else 0
  | _ => 0
  end.

Definition ps_init (accounting : A) (refresh_rate : Z) (reporter : bool) : PseudosettleService :=
  if reporter then with_reporter (ps_new accounting refresh_rate)
  else ps_new accounting refresh_rate.

Definition ps_run (s : PseudosettleService) (l : list PsInput) :
    PseudosettleService * list PsEffect :=
  run ps_step (s, []) l.

(** The time that passed inside a handler, between its gate and its
    allowance. *)
Definition skew_in (i : PsInput) : Z :=
  match i with InEvent t1 t2 _ _ _ => t2 - t1 | _ => 0 end.

(** A clock reading is an [i64] number of seconds, and a handler's second
    reading is not before its first. *)
Definition in_clock_ok (i : PsInput) : Prop :=
  match i with InEvent t1 t2 _ _ _ => 0 <= t1 <= t2 ∧ t2 <= i64_max | _ => True end.

(** Every request of [peer] is gated at a reading in [[T0, T]]. *)
Definition in_window (peer : OverlayAddress) (T0 T : Z) (i : PsInput) : Prop :=
  match i with
  | InEvent t1 _ _ _ (PsReceived p _ _) => p = peer → T0 <= t1 <= T
  | _ => True
  end.

(** ** The inbound allowance *)

Lemma allowance_le rate elapsed :
  0 <= rate <= i64_max → 0 <= elapsed <= i64_max →
  0 <= default (Au.from_amount u64_max) (Au.checked_scale rate elapsed) <= rate * elapsed.
Proof.
  intros Hr He. unfold Au.checked_scale, i64_checked.
  rewrite !decide_False by lia. case_decide as Hi; simpl; [nia|].
  rewrite from_amount_min. unfold is_i64 in Hi. mach. nia.
Qed.

Lemma calculate_acceptable_bounds now s peer requested :
  0 <= sv_refresh_rate s <= i64_max → 0 <= now <= i64_max → 0 <= requested →
  (∀ t, sv_last_settlement s !! peer = Some t → 0 <= t) →
  (∀ t, sv_first_seen s !! peer = Some t → 0 <= t) →
  let x := calculate_acceptable now s peer requested in
  0 <= x <= requested ∧ x <= Z.max 0 (bw_balance (sv_accounting s) peer) ∧
  x <= sv_refresh_rate s * Z.max 0 (now -
    match sv_last_settlement s !! peer with
    | Some t => t
    | None => default now (sv_first_seen s !! peer)
    end).
Proof.
  intros Hr Hn Hq Hl Hf. unfold calculate_acceptable, Au.is_positive.
  case_bool_decide as Hb; simpl; [|unfold Au.ZERO; nia].
  set (since := match sv_last_settlement s !! peer with Some t => t | None => _ end).
  assert (0 <= since).
  { unfold since. destruct (sv_last_settlement s !! peer) eqn:E; [eauto|].
    destruct (sv_first_seen s !! peer) eqn:E'; simpl; [eauto|lia]. }
  pose proof (allowance_le (sv_refresh_rate s) (u64_saturating_sub now since) Hr) as Ha.
  unfold Au.min, u64_saturating_sub in *. lia.
Qed.

(** What the log may have granted [peer] so far. *)
Record grant_ok (peer : OverlayAddress) (T0 T : Z) (st : PseudosettleService * list PsEffect)
    (S : Z) : Prop := {
  go_skew : 0 <= S;
  go_rate : 0 <= sv_refresh_rate st.1 <= i64_max;
  go_seen : ∀ f, sv_first_seen st.1 !! peer = Some f → 0 <= f ∧ T0 <= f <= T;
  go_last : ∀ t, sv_last_settlement st.1 !! peer = Some t →
    0 <= t ∧ t <= T ∧ ∃ f, sv_first_seen st.1 !! peer = Some f ∧
    forgiven peer st.2 <= sv_refresh_rate st.1 * (t - f + S);
  go_none : sv_last_settlement st.1 !! peer = None → forgiven peer st.2 = 0;
}.

Lemma forgiven_app peer log fx : forgiven peer (log ++ fx) = forgiven peer log + forgiven peer fx.
Proof. apply sumZ_app. Qed.

Lemma saturating_from_u256_nonneg v : 0 <= v → 0 <= Au.saturating_from_u256 v.
Proof. intros. alia. Qed.

(** Steps that touch neither the inbound maps nor the forgiven total. *)
Lemma grant_ok_frame peer T0 T st s' fx S S' :
  grant_ok peer T0 T st S → S <= S' →
  sv_refresh_rate s' = sv_refresh_rate st.1 →
  sv_last_settlement s' !! peer = sv_last_settlement st.1 !! peer →
  sv_first_seen s' !! peer = sv_first_seen st.1 !! peer →
  forgiven peer fx = 0 → grant_ok peer T0 T (s', st.2 ++ fx) S'.
Proof.
  intros [HS0 Hr Hs Hl Hn] HS E1 E2 E3 E4. split; simpl; rewrite ?E1, ?E2, ?E3, ?forgiven_app, ?E4.
  - lia.
  - done.
  - done.
  - intros t (?&?&f&?&?)%Hl. split_and!; [done..|]. exists f. split; [done|]. nia.
  - intros ?%Hn. lia.
Qed.

Lemma forgiven_send peer (link : bool) p r ack :
  forgiven peer (if link then [FxAckPseudosettle p r ack] else []) = 0.
Proof. by destruct link. Qed.

Lemma grant_ok_received peer T0 T st S t1 t2 t3 link p amount rid :
  grant_ok peer T0 T st S → 0 <= amount → 0 <= t1 <= t2 → t2 <= i64_max →
  (p = peer → T0 <= t1 <= T) →
  grant_ok peer T0 T
    (let '(s, fx) := handle_received t1 t2 t3 link st.1 p amount rid in (s, st.2 ++ fx))
    (S + (t2 - t1)).
Proof.
  intros Hok Ha Ht1 Ht2 Hw. unfold handle_received. destruct (is_some_and _ _) eqn:Hgate.
  { eapply grant_ok_frame; try done; [lia|]. apply forgiven_send. }
  set (seen := match sv_first_seen st.1 !! p with Some _ => _ | None => _ end).
  set (s1 := mkPs _ _ _ _ _ seen _).
  destruct (decide (p = peer)) as [->|Hne].
  2:{ assert (seen !! peer = sv_first_seen st.1 !! peer).
      { unfold seen. destruct (sv_first_seen st.1 !! p); [done|]. by rewrite lookup_insert_ne. }
      destruct (Au.is_positive _); eapply grant_ok_frame; try done; simpl; try lia.
      - by rewrite lookup_insert_ne.
      - unfold forgiven; simpl. rewrite decide_False by done. apply forgiven_send.
      - apply forgiven_send. }
  destruct Hok as [HS Hr Hs Hl Hn]. specialize (Hw eq_refl).
  assert (Hseen : ∃ f, seen !! peer = Some f ∧ 0 <= f ∧ T0 <= f <= T).
  { unfold seen. destruct (sv_first_seen st.1 !! peer) as [f|] eqn:E.
    - exists f. eauto.
    - exists t1. rewrite lookup_insert_eq. split; [done|lia]. }
  destruct Hseen as (f&Hf&Hf0&HfT).
  assert (Hsame : ∀ t, sv_last_settlement st.1 !! peer = Some t → sv_first_seen st.1 !! peer = seen !! peer).
  { intros t (_&_&f'&Hf'&_)%Hl. unfold seen. by rewrite Hf'. }
  destruct (calculate_acceptable_bounds t2 s1 peer (Au.saturating_from_u256 amount)) as (Hx1&Hx2&Hx3);
    [done|lia|by apply saturating_from_u256_nonneg|intros t (?&_)%Hl; done|
     simpl; rewrite Hf; intros; simplify_eq; done|].
  unfold s1 in Hx3 at 2 3 4. simpl in Hx3. rewrite Hf in Hx3. simpl in Hx3.
  set (x := calculate_acceptable t2 s1 peer _) in *. clearbody x.
  unfold Au.is_positive. case_bool_decide as Hpos; split; simpl; rewrite ?forgiven_app; try done; try lia.
  - intros f' Hf'. rewrite Hf in Hf'. by simplify_eq.
  - intros t. rewrite lookup_insert_eq. intros [= <-]. split_and!; [lia..|]. exists f. split; [done|].
    unfold forgiven at 2. simpl. rewrite decide_True by done. fold (forgiven peer).
    change (sumZ (forgiven_fx peer)) with (forgiven peer). rewrite forgiven_send.
    destruct (sv_last_settlement st.1 !! peer) as [t|] eqn:Et.
    + destruct (Hl t eq_refl) as (_&_&f'&Hf'&Hle). rewrite (Hsame t), Hf in Hf' by done. simplify_eq.
      simpl in Hgate. case_bool_decide; [done|]. rewrite Z.max_r in Hx3 by lia. nia.
    + rewrite Hn by done. destruct (Z.le_gt_cases 0 (t2 - f)); [rewrite Z.max_r in Hx3 by done|]; nia.
  - by rewrite lookup_insert_eq.
  - intros f' Hf'. rewrite Hf in Hf'. by simplify_eq.
  - intros t Et. destruct (Hl t Et) as (?&?&f'&Hf'&Hle). rewrite (Hsame t) in Hf' by done.
    split_and!; [done..|]. exists f'. rewrite forgiven_send. split; [done|]. nia.
  - intros Et. rewrite forgiven_send, Hn by done. lia.
Qed.

(** The outbound handlers leave the inbound maps alone and forgive nothing. *)
Lemma command_inbound_frame now link s cmd :
  let '(s', fx) := ps_handle_command now link s cmd in
  sv_refresh_rate s' = sv_refresh_rate s ∧ sv_last_settlement s' = sv_last_settlement s ∧
  sv_first_seen s' = sv_first_seen s ∧ ∀ peer, forgiven peer fx = 0.
Proof.
  destruct cmd as [p x tx]. unfold ps_handle_command. destruct (sv_pending s !! p); [done|].
  destruct (is_some_and _ _); [done|]. destruct link; [done|]. simpl.
  by rewrite lookup_insert_eq.
Qed.

Lemma sent_inbound_frame now s p ack :
  let '(s', fx) := handle_sent now s p ack in
  sv_refresh_rate s' = sv_refresh_rate s ∧ sv_last_settlement s' = sv_last_settlement s ∧
  sv_first_seen s' = sv_first_seen s ∧ ∀ peer, forgiven peer fx = 0.
Proof.
  unfold handle_sent. destruct (sv_pending s !! p) as [pd|]; [|done]. split_and!; try done.
  intros peer. case_decide; [|done]. unfold report_violation. by destruct (sv_reporter s).
Qed.

Lemma failed_inbound_frame s p :
  let '(s', fx) := handle_failed s p in
  sv_refresh_rate s' = sv_refresh_rate s ∧ sv_last_settlement s' = sv_last_settlement s ∧
  sv_first_seen s' = sv_first_seen s ∧ ∀ peer, forgiven peer fx = 0.
Proof. unfold handle_failed. by destruct (sv_pending s !! p). Qed.

(** The wire amount of a request is unsigned. *)
Definition in_amount_ok (i : PsInput) : Prop :=
  match i with InEvent _ _ _ _ (PsReceived _ amount _) => 0 <= amount | _ => True end.

Lemma grant_ok_step peer T0 T st S i :
  grant_ok peer T0 T st S → in_clock_ok i → in_window peer T0 T i → in_amount_ok i →
  grant_ok peer T0 T (ps_step st i) (S + skew_in i).
Proof.
  intros Hok Hc Hw Ha. unfold ps_step.
  destruct i as [now link cmd|t1 t2 t3 link [p ack|p x rid|p]|p x d]; simpl in *.
  - pose proof (command_inbound_frame now link st.1 cmd) as Hf.
    destruct (ps_handle_command _ _ _ _) as [s' fx]. destruct Hf as (?&E1&E2&?).
    eapply grant_ok_frame; try done; [lia|by rewrite E1|by rewrite E2].
  - pose proof (sent_inbound_frame t1 st.1 p ack) as Hf.
    destruct (handle_sent _ _ _ _) as [s' fx]. destruct Hf as (?&E1&E2&?).
    eapply grant_ok_frame; try done; [lia|by rewrite E1|by rewrite E2].
  - apply grant_ok_received; try done; apply Hc.
  - pose proof (failed_inbound_frame st.1 p) as Hf.
    destruct (handle_failed _ _) as [s' fx]. destruct Hf as (?&E1&E2&?).
    eapply grant_ok_frame; try done; [lia|by rewrite E1|by rewrite E2].
  - eapply grant_ok_frame; try done. lia.
Qed.

Lemma grant_ok_run peer T0 T l : ∀ st S,
  grant_ok peer T0 T st S → Forall in_clock_ok l → Forall (in_window peer T0 T) l →
  Forall in_amount_ok l → grant_ok peer T0 T (run ps_step st l) (S + sumZ skew_in l).
Proof.
  induction l as [|i l IH]; intros st S Hok H1 H2 H3; simpl; [by rewrite Z.add_0_r|].
  inv H1; inv H2; inv H3. rewrite Z.add_assoc. apply IH; try done. by apply grant_ok_step.
Qed.

Lemma grant_ok_init peer T0 T a rate rep :
  0 <= rate <= i64_max → grant_ok peer T0 T (ps_init a rate rep, []) 0.
Proof. intros. by destruct rep; split. Qed.

Lemma ps_step_rate st i : sv_refresh_rate (ps_step st i).1 = sv_refresh_rate st.1.
Proof.
  unfold ps_step, ps_handle.
  destruct i as [now link cmd|t1 t2 t3 link [p ack|p x rid|p]|p x d]; simpl; [..|done].
  - pose proof (command_inbound_frame now link st.1 cmd). destruct (ps_handle_command _ _ _ _). tauto.
  - pose proof (sent_inbound_frame t1 st.1 p ack). destruct (handle_sent _ _ _ _). tauto.
  - unfold handle_received. destruct (is_some_and _ _); [done|]. by destruct (Au.is_positive _).
  - pose proof (failed_inbound_frame st.1 p). destruct (handle_failed _ _). tauto.
Qed.

Lemma ps_run_rate l st : sv_refresh_rate (run ps_step st l).1 = sv_refresh_rate st.1.
Proof. revert st. induction l as [|i l IH]; intros st; simpl; [done|]. by rewrite IH, ps_step_rate. Qed.

(** ** Replies *)

Lemma answered_app tx log fx : answered tx (log ++ fx) = answered tx log + answered tx fx.
Proof. apply sumZ_app. Qed.

Lemma awaiting_insert tx m p x :
  m !! p = None → awaiting tx (<[p := x]> m) = (if decide (pend_tx x = tx) then 1 else 0) + awaiting tx m.
Proof. intros Hp. unfold awaiting. by rewrite map_sumZ_insert. Qed.

Lemma awaiting_delete tx m p x :
  m !! p = Some x → awaiting tx m = (if decide (pend_tx x = tx) then 1 else 0) + awaiting tx (delete p m).
Proof. intros Hp. unfold awaiting. by rewrite (map_sumZ_delete _ m p x Hp) at 1. Qed.

Lemma answered_violation tx s p fx : answered tx (report_violation s p ++ fx) = answered tx fx.
Proof. unfold report_violation. by destruct (sv_reporter s). Qed.

Lemma replies_step tx st i :
  answered tx (ps_step st i).2 + awaiting tx (sv_pending (ps_step st i).1) =
  answered tx st.2 + awaiting tx (sv_pending st.1) + asked_in tx i.
Proof.
  unfold ps_step. destruct i as [now link [p x t]|t1 t2 t3 link [p ack|p x rid|p]|p x d]; simpl.
  - destruct (sv_pending st.1 !! p) eqn:Hp.
    { simpl. rewrite answered_app. unfold answered at 2. simpl. lia. }
    destruct (is_some_and _ _); simpl.
    { rewrite answered_app. unfold answered at 2. simpl. lia. }
    destruct link; simpl.
    { rewrite answered_app, awaiting_insert by done. unfold answered at 2. simpl. lia. }
    rewrite lookup_insert_eq. simpl. rewrite answered_app, delete_insert_id by done.
    unfold answered at 2. simpl. lia.
  - unfold handle_sent. destruct (sv_pending st.1 !! p) as [pd|] eqn:Hp; simpl.
    + rewrite (awaiting_delete tx _ p pd Hp), answered_app.
      case_decide; rewrite ?answered_violation; unfold answered at 2; simpl; lia.
    + rewrite app_nil_r. lia.
  - unfold handle_received. destruct (is_some_and _ _); simpl.
    { rewrite answered_app. destruct link; unfold answered at 2; simpl; lia. }
    destruct (Au.is_positive _); simpl; rewrite answered_app; destruct link;
      unfold answered at 2; simpl; lia.
  - unfold handle_failed. destruct (sv_pending st.1 !! p) as [pd|] eqn:Hp; simpl.
    + rewrite (awaiting_delete tx _ p pd Hp), answered_app. unfold answered at 2; simpl; lia.
    + rewrite app_nil_r. lia.
  - rewrite app_nil_r. lia.
Qed.

Lemma replies_run tx l : ∀ st,
  answered tx (run ps_step st l).2 + awaiting tx (sv_pending (run ps_step st l).1) =
  answered tx st.2 + awaiting tx (sv_pending st.1) + sumZ (asked_in tx) l.
Proof.
  induction l as [|i l IH]; intros st; simpl; [lia|]. rewrite IH, replies_step. lia.
Qed.

(** ** Outbound pacing *)

(** The clock a [Sent] event is handled at. *)
Definition sent_before (T : Z) (i : PsInput) : Prop :=
  match i with InEvent t1 _ _ _ (PsSent _ _) => t1 <= T | _ => True end.

Definition acks_before (T : Z) (s : PseudosettleService) : Prop :=
  ∀ peer t, sv_last_settle_ack s !! peer = Some t → t <= T.

Lemma effective_timestamp_le now ts : effective_timestamp now ts <= now.
Proof. unfold effective_timestamp. case_decide; lia. Qed.

Lemma acks_before_step T st i :
  acks_before T st.1 → sent_before T i → acks_before T (ps_step st i).1.
Proof.
  intros Ha Hi. unfold ps_step.
  destruct i as [now link [p x t]|t1 t2 t3 link [p ack|p x rid|p]|p x d]; simpl in *; try done.
  - destruct (sv_pending st.1 !! p); [done|]. destruct (is_some_and _ _); [done|].
    destruct link; [done|]. simpl. by rewrite lookup_insert_eq.
  - unfold handle_sent. destruct (sv_pending st.1 !! p) as [pd|]; [|done]. simpl.
    intros q t. simpl. intros [[<- <-]|[_ Hq]]%lookup_insert_Some; [|by eapply Ha].
    pose proof (effective_timestamp_le t1 (ack_time ack)).
    destruct (sv_last_settle_ack st.1 !! p) eqn:E; [apply Ha in E|]; lia.
  - unfold handle_received. destruct (is_some_and _ _); [done|]. simpl.
    by destruct (Au.is_positive _).
  - unfold handle_failed. by destruct (sv_pending st.1 !! p).
Qed.

Lemma acks_before_run T l st :
  acks_before T st.1 → Forall (sent_before T) l → acks_before T (run ps_step st l).1.
Proof.
  apply (run_invariant ps_step (sent_before T) (λ st, acks_before T st.1)).
  intros. by apply acks_before_step.
Qed.

Lemma acks_before_init T a rate rep : acks_before T (ps_init a rate rep).
Proof. by destruct rep; intros ? ?. Qed.
End service.

Arguments PseudosettleService A : clear implicits.

(** ** Properties *)

(** C12: forgiveness is rate limited.  Over any interleaving of commands,
    events and other records, the total a node forgives a peer through
    pseudosettle is at most the refresh rate times the span between the first
    and last reading at which it handled that peer's requests, plus the time
    its own handlers took between their two clock readings.  Nothing is
    granted for the time before first contact, and re-asking never helps. *)
Theorem forgiveness_rate_limited {A} `{BandwidthLedger A} (a : A) rate rep l peer T0 T :
  0 <= rate <= i64_max → T0 <= T →
  Forall in_clock_ok l → Forall (in_window peer T0 T) l → Forall in_amount_ok l →
  forgiven peer (ps_run (ps_init a rate rep) l).2 <= rate * (T - T0 + sumZ skew_in l).
Proof.
  intros Hr HT Hc Hw Ha.
  pose proof (grant_ok_run peer T0 T l (ps_init a rate rep, []) 0
    (grant_ok_init peer T0 T a rate rep Hr) Hc Hw Ha) as [HS Hr' Hs Hl Hn].
  fold (ps_run (ps_init a rate rep) l) in *.
  assert (Hrate : sv_refresh_rate (ps_run (ps_init a rate rep) l).1 = rate).
  { unfold ps_run. rewrite ps_run_rate. by destruct rep. }
  destruct (sv_last_settlement (ps_run (ps_init a rate rep) l).1 !! peer) as [t|] eqn:Et.
  - destruct (Hl t eq_refl) as (_&HtT&f&Hf&Hle). apply Hs in Hf. rewrite Hrate in Hle. nia.
  - rewrite Hn by done. nia.
Qed.

Definition ps_owed_accounting : Accounting :=
  record_for (accounting_new default_bandwidth_config) 7 100000 Upload.

(** First contact, an early retry and a settle two seconds later. *)
Definition ps_sample : list PsInput :=
  [InEvent 100 100 100 true (PsReceived 7 5000 0); InEvent 100 100 100 true (PsReceived 7 5000 1);
   InRecord 7 10 Upload; InEvent 102 102 103 true (PsReceived 7 5000 2)].

Lemma forgiveness_rate_limited_witness :
  forgiven 7 (ps_run (ps_init ps_owed_accounting 1000 true) ps_sample).2 = 2000 ∧
  forgiven 7 (ps_run (ps_init ps_owed_accounting 1000 true) ps_sample).2 <=
    1000 * (102 - 100 + sumZ skew_in ps_sample).
Proof.
  split; [vm_compute; reflexivity|].
  apply (forgiveness_rate_limited ps_owed_accounting 1000 true ps_sample 7 100 102);
    [mlia|lia|repeat constructor; vm_compute; congruence..].
Defined.

(** Every settle request is answered exactly once.  For each reply
    channel, the number of answers sent plus the number still waiting on a
    pending settlement equals the number of times it was handed in, whatever
    commands, acks, failures and channel closures happen; so no request is
    dropped unanswered and none is answered twice. *)
Theorem settle_answered_once {A} `{BandwidthLedger A} (a : A) rate rep l tx :
  answered tx (ps_run (ps_init a rate rep) l).2 +
  awaiting tx (sv_pending (ps_run (ps_init a rate rep) l).1) = sumZ (asked_in tx) l.
Proof.
  unfold ps_run. rewrite replies_run. simpl. destruct rep; simpl; by rewrite Z.add_0_l.
Qed.

(** A creditor cannot freeze our settlements.  Whatever acks and
    timestamps peers sent up to clock [T], at any later reading a settle to a
    peer with nothing pending is sent (never refused as too soon) and becomes
    the one pending settlement of that peer. *)
Theorem outbound_never_frozen {A} `{BandwidthLedger A} (a : A) rate rep l T now peer amount tx :
  Forall (sent_before T) l → T < now →
  let s := (ps_run (ps_init a rate rep) l).1 in
  sv_pending s !! peer = None →
  (ps_handle_command now true s (PsSettle peer amount tx)).2 =
    [FxSendPseudosettle peer (Au.as_amount amount)] ∧
  sv_pending (ps_handle_command now true s (PsSettle peer amount tx)).1 !! peer =
    Some (mkPending amount tx).
Proof.
  intros Hl HT s Hp. unfold ps_handle_command. rewrite Hp.
  assert (is_some_and (λ last, bool_decide (now <= last)) (sv_last_settle_ack s !! peer) = false) as ->.
  { destruct (sv_last_settle_ack s !! peer) as [t|] eqn:E; [|done]. simpl.
    apply (acks_before_run T l) in E; [|apply acks_before_init|done].
    apply bool_decide_eq_false. lia. }
  simpl. split; [done|]. apply lookup_insert_eq.
Qed.

Lemma outbound_never_frozen_witness :
  (ps_handle_command 11 true
     (ps_run (ps_init ps_owed_accounting 1000 true)
        [InCommand 10 true (PsSettle 7 50 0); InEvent 10 10 10 true (PsSent 7 (mkAck 50 i64_max))]).1
     (PsSettle 7 60 1)).2 = [FxSendPseudosettle 7 60].
Proof.
  apply (outbound_never_frozen ps_owed_accounting 1000 true
    [InCommand 10 true (PsSettle 7 50 0); InEvent 10 10 10 true (PsSent 7 (mkAck 50 i64_max))] 10 11 7 60 1).
  - repeat constructor; vm_compute; congruence.
  - lia.
  - vm_compute. reflexivity.
Defined.

(** A settlement keeps the two books mirrored.  When a debtor whose book
    says it owes [D] settles what its provider offers, and the creditor's book
    says the same, then after the creditor handles the request (at any clock
    readings, gate open or closed) and the debtor handles the ack the creditor
    sent, the two balances are still exact opposites, and the creditor has
    forgiven no more than it was owed. *)
Theorem settlement_mirrors_books {A B} `{BandwidthLedger A, BandwidthLedger B}
    (d : PseudosettleService A) (c : PseudosettleService B)
    pd pc D tx t1 t2 t3 now rid ack :
  bw_ok (sv_accounting d) → bw_ok (sv_accounting c) →
  0 < D <= i64_max → 0 <= sv_refresh_rate c <= i64_max → 0 <= t2 <= i64_max → 0 <= t1 →
  (∀ t, sv_last_settlement c !! pd = Some t → 0 <= t) →
  (∀ t, sv_first_seen c !! pd = Some t → 0 <= t) →
  bw_balance (sv_accounting d) pc = - D → bw_balance (sv_accounting c) pd = D →
  provider_offer true (- D) = Some D ∧
  (sv_pending d !! pc = Some (mkPending D tx) →
   FxAckPseudosettle pd rid ack ∈ (handle_received t1 t2 t3 true c pd (wire_from_au D) rid).2 →
   let c' := (handle_received t1 t2 t3 true c pd (wire_from_au D) rid).1 in
   let d' := (handle_sent now d pc ack).1 in
   bw_balance (sv_accounting d') pc = - bw_balance (sv_accounting c') pd ∧
   0 <= bw_balance (sv_accounting c') pd <= D).
Proof.
  intros Hd Hc HD Hrate Ht2 Ht1 Hls Hfs Ebd Ebc. split.
  { unfold provider_offer. alia. f_equal. lia. }
  intros Hp Hack. assert (Hw : Au.saturating_from_u256 (wire_from_au D) = D).
  { unfold wire_from_au. alia. }
  unfold handle_sent. rewrite Hp. simpl.
  unfold handle_received in *. destruct (is_some_and _ _) eqn:Hg; simpl in *.
  { apply list_elem_of_singleton in Hack. injection Hack as ->. simpl.
    rewrite bw_record_same by done. rewrite Ebd, Ebc. unfold Au.min, Au.ZERO, record_delta. mlia. }
  set (seen := match sv_first_seen c !! pd with Some _ => _ | None => _ end) in *.
  set (s1 := mkPs _ _ _ _ _ seen _) in *.
  destruct (calculate_acceptable_bounds t2 s1 pd D) as (Hx1&Hx2&_); try done; [lia| |].
  { simpl. unfold seen. destruct (sv_first_seen c !! pd) eqn:E; [by rewrite E; eauto|].
    rewrite lookup_insert_eq. intros ? [= <-]. done. }
  rewrite Hw in *. set (x := calculate_acceptable t2 s1 pd D) in *. clearbody x.
  unfold s1 in Hx2; simpl in Hx2. rewrite Ebc in Hx2.
  unfold Au.is_positive in *. case_bool_decide as Hpos; simpl in *.
  - apply elem_of_cons in Hack as [Hack|Hack]; [done|].
    apply list_elem_of_singleton in Hack. injection Hack as ->. simpl.
    rewrite !bw_record_same by done. rewrite Ebd, Ebc.
    unfold Au.min, record_delta, Au.saturating_neg. mlia.
  - apply list_elem_of_singleton in Hack. injection Hack as ->. simpl.
    rewrite !bw_record_same by done. rewrite Ebd, Ebc.
    unfold Au.min, record_delta, Au.saturating_neg. mlia.
Qed.

(** A debtor (overlay 7) with a settle of 500 in flight to the creditor
    (overlay 8), which first saw the debtor at second 100. *)
Definition mirror_debtor : PseudosettleService Accounting :=
  (ps_run (ps_init (record_for (accounting_new default_bandwidth_config) 8 500 Download) 100 true)
     [InCommand 102 true (PsSettle 8 500 0)]).1.
Definition mirror_creditor : PseudosettleService Accounting :=
  (ps_run (ps_init (record_for (accounting_new default_bandwidth_config) 7 500 Upload) 100 true)
     [InEvent 100 100 100 true (PsReceived 7 1 9)]).1.

Lemma settlement_mirrors_books_witness :
  let c' := (handle_received 103 103 103 true mirror_creditor 7 500 4).1 in
  let d' := (handle_sent 104 mirror_debtor 8 (mkAck 300 103)).1 in
  bw_balance (sv_accounting d') 8 = - bw_balance (sv_accounting c') 7 ∧
  0 <= bw_balance (sv_accounting c') 7 <= 500.
Proof.
  apply (settlement_mirrors_books mirror_debtor mirror_creditor 7 8 500 0 103 103 103 104 4 (mkAck 300 103)).
  - apply acc_wf_record, acc_wf_new.
  - apply acc_wf_record, acc_wf_new.
  - mlia.
  - vm_compute. split; congruence.
  - mlia.
  - lia.
  - intros t Ht. vm_compute in Ht. congruence.
  - intros t Ht. vm_compute in Ht. injection Ht as <-. lia.
  - vm_compute. reflexivity.
  - vm_compute. reflexivity.
  - vm_compute. reflexivity.
  - vm_compute. right. left.
Defined.
