(* ===== verification/Swap.v ===== *)
(** * Swap: cheque-based settlement

    Models the actor of [crates/swarm/accounting/swap/src/] (issuing,
    accepting and acknowledging cheques, and the provider that starts a
    payment) and the cheque of [crates/swarm/accounting/chequebook/src/cheque.rs].
    EIP-712 hashing, signing and public-key recovery belong to alloy and are
    parameters; amounts on cheques are [U256]s whose arithmetic wraps. *)

From S2P Require Import Prelude.
From S2P Require Import Au.
From S2P Require Import Accounting.
From S2P Require Import Bandwidth.

Abbreviation Address := Z (only parsing).

Definition DEFAULT_BOUNCE_LIMIT : Z := 135000000.
Definition SIGNATURE_LEN : nat := 65.

Record Cheque := mkCheque {
  ch_chequebook : Address;
  ch_beneficiary : Address;
  ch_payout : Z;
}.

Record SignedCheque := mkSigned { sc_cheque : Cheque; sc_signature : list Z }.

Inductive ChequeError :=
| SignatureRecovery (reason : string)
| InvalidSigner (expected actual : Address)
| MalformedJson (reason : string)
| EncodeError (reason : string).

Inductive SwapSettlementError :=
| SwServiceStopped
| SwSettlementInProgress
| SwNetworkError (reason : string)
| SwUnknownBeneficiary
| SwUnknownPeerIdentity
| SwBeneficiaryMismatch (expected got : Address)
| SwSigningFailed (reason : string)
| SwIssuerMismatch (expected recovered : Address)
| SwNonIncreasingPayout (last received : Z)
| SwAmountOverflow (v : Z)
| SwNegativeAmount (a : Z)
| SwValidationFailed (reason : ChequeError)
| SwExposureLimit (exposure limit : Z)
| SwNoChainBackend.

Definition from_conversion_error (e : AuConversionError) : SwapSettlementError :=
  match e with
  | U256TooLarge v => SwAmountOverflow v
  | Negative a => SwNegativeAmount a
  end.

Record PeerSwapInfo := mkInfo { info_beneficiary : Address; info_issuer : Address }.

Record PeerChequeState := mkPeerCheque {
  pc_info : option PeerSwapInfo;
  pc_last_sent : Z;
  pc_last_received : Z;
  pc_uncashed : Z;
}.

Definition peer_cheque_default : PeerChequeState := mkPeerCheque None 0 0 0.

Record SwPending := mkSwPending { swp_amount : Z; swp_tx : nat }.

Inductive SwapCommand :=
| SwSettle (peer : OverlayAddress) (amount : Z) (response_tx : nat)
| SwRegisterPeerInfo (peer : OverlayAddress) (info : PeerSwapInfo).

Inductive SwapEvent :=
| ChequeSent (peer : OverlayAddress) (peer_rate : Z)
| ChequeReceived (peer : OverlayAddress) (cheque : SignedCheque) (peer_rate : Z)
| SwFailed (peer : OverlayAddress).

Inductive SwEffect :=
| SwRespond (tx : nat) (r : result SwapSettlementError Z)
| SwSendCheque (peer : OverlayAddress) (cheque : SignedCheque)
| SwRecord (peer : OverlayAddress) (amount : Z) (d : Direction)
| SwReport (peer : OverlayAddress)
| SwCash (peer : OverlayAddress) (cheque : SignedCheque).

Section service.
Context {A : Type} `{BandwidthLedger A}.

(** alloy: the EIP-712 hash under the settlement chain's domain, the node's
    signer, and signature parsing with public-key recovery. *)
Context (signing_hash : Cheque → Z)
        (sign_hash : Z → result string (list Z))
        (recover_address : list Z → Z → result string Address).

Definition from_signature (c : Cheque) (sig : list Z) : SignedCheque := mkSigned c sig.

Definition parse_signature (c : SignedCheque) : result ChequeError (list Z) :=
  if decide (length (sc_signature c) = SIGNATURE_LEN) then Ok (sc_signature c)
  else Err (SignatureRecovery "invalid signature length").

Definition recover_signer (c : SignedCheque) : result ChequeError Address :=
  sig ← parse_signature c;
  map_err SignatureRecovery (recover_address sig (signing_hash (sc_cheque c))).

Definition cheque_verify (c : SignedCheque) (owner : Address) : result ChequeError unit :=
  signer ← recover_signer c;
  if decide (signer = owner) then Ok tt else Err (InvalidSigner owner signer).

Record SwapService := mkSwap {
  sw_accounting : A;
  sw_chequebook : Address;
  sw_beneficiary : Address;
  sw_peers : gmap Z PeerChequeState;
  sw_bounce_limit : Z;
  sw_pending : gmap Z SwPending;
  sw_reporter : bool;
  sw_cashout : bool;
}.

Definition swap_new (accounting : A) (chequebook beneficiary : Address) : SwapService :=
  mkSwap accounting chequebook beneficiary ∅ DEFAULT_BOUNCE_LIMIT ∅ false false.

Definition with_bounce_limit (limit : Z) (s : SwapService) : SwapService :=
  mkSwap (sw_accounting s) (sw_chequebook s) (sw_beneficiary s) (sw_peers s) limit
    (sw_pending s) (sw_reporter s) (sw_cashout s).

Definition with_swap_reporter (s : SwapService) : SwapService :=
  mkSwap (sw_accounting s) (sw_chequebook s) (sw_beneficiary s) (sw_peers s)
    (sw_bounce_limit s) (sw_pending s) true (sw_cashout s).

Definition set_peers (m : gmap Z PeerChequeState) (s : SwapService) : SwapService :=
  mkSwap (sw_accounting s) (sw_chequebook s) (sw_beneficiary s) m (sw_bounce_limit s)
    (sw_pending s) (sw_reporter s) (sw_cashout s).

Definition set_sw_pending (m : gmap Z SwPending) (s : SwapService) : SwapService :=
  mkSwap (sw_accounting s) (sw_chequebook s) (sw_beneficiary s) (sw_peers s)
    (sw_bounce_limit s) m (sw_reporter s) (sw_cashout s).

Definition sw_record (peer : OverlayAddress) (amount : Z) (d : Direction) (s : SwapService) :
    SwapService :=
  mkSwap (bw_record (sw_accounting s) peer amount d) (sw_chequebook s) (sw_beneficiary s)
    (sw_peers s) (sw_bounce_limit s) (sw_pending s) (sw_reporter s) (sw_cashout s).

Definition sw_report_violation (s : SwapService) (peer : OverlayAddress) : list SwEffect :=
  if sw_reporter s then [SwReport peer] else [].

(** [peers.entry(peer).or_default()] *)
Definition peer_state (s : SwapService) (peer : OverlayAddress) : PeerChequeState :=
  default peer_cheque_default (sw_peers s !! peer).

Definition issue_cheque (s : SwapService) (peer : OverlayAddress) (wire_amount : Z) :
    result SwapSettlementError SignedCheque * SwapService :=
  let st := peer_state s peer in
  let s := set_peers (<[peer := st]> (sw_peers s)) s in
  match pc_info st with
  | None => (Err SwUnknownBeneficiary, s)
  | Some info =>
      let next_payout := u256_wrapping_add (pc_last_sent st) wire_amount in
      let cheque := mkCheque (sw_chequebook s) (info_beneficiary info) next_payout in
      match sign_hash (signing_hash cheque) with
      | Err e => (Err (SwSigningFailed e), s)
      | Ok sig =>
          (Ok (from_signature cheque sig),
           set_peers (<[peer := mkPeerCheque (pc_info st) next_payout (pc_last_received st)
                                  (pc_uncashed st)]> (sw_peers s)) s)
      end
  end.

Definition sw_settle (link : bool) (s : SwapService) (peer : OverlayAddress) (amount : Z)
    (tx : nat) : SwapService * list SwEffect :=
  match sw_pending s !! peer with
  | Some _ => (s, [SwRespond tx (Err SwSettlementInProgress)])
  | None =>
      match Au.into_u256 amount with
      | Err e => (s, [SwRespond tx (Err (from_conversion_error e))])
      | Ok wire_amount =>
          match issue_cheque s peer wire_amount with
          | (Ok cheque, s) =>
              if link then
                (set_sw_pending (<[peer := mkSwPending amount tx]> (sw_pending s)) s,
                 [SwSendCheque peer cheque])
              else
                let rollback st :=
                  mkPeerCheque (pc_info st) (u256_wrapping_sub (pc_last_sent st) wire_amount)
                    (pc_last_received st) (pc_uncashed st) in
                (set_peers (alter rollback peer (sw_peers s)) s,
                 [SwRespond tx (Err (SwNetworkError "channel closed"))])
          | (Err e, s) => (s, [SwRespond tx (Err e)])
          end
      end
  end.

Definition sw_handle_command (link : bool) (s : SwapService) (cmd : SwapCommand) :
    SwapService * list SwEffect :=
  match cmd with
  | SwRegisterPeerInfo peer info =>
      let st := peer_state s peer in
      (set_peers (<[peer := mkPeerCheque (Some info) (pc_last_sent st) (pc_last_received st)
                              (pc_uncashed st)]> (sw_peers s)) s, [])
  | SwSettle peer amount tx => sw_settle link s peer amount tx
  end.

Definition accept_cheque (s : SwapService) (peer : OverlayAddress) (cheque : SignedCheque) :
    result SwapSettlementError Z * SwapService :=
  match sw_peers s !! peer ≫= pc_info with
  | None => (Err SwUnknownPeerIdentity, s)
  | Some info =>
      if decide (ch_beneficiary (sc_cheque cheque) = sw_beneficiary s) then
        match recover_signer cheque with
        | Err e => (Err (SwValidationFailed e), s)
        | Ok recovered =>
            if decide (recovered = info_issuer info) then
              let st := peer_state s peer in
              let received := ch_payout (sc_cheque cheque) in
              let last := pc_last_received st in
              if decide (received <= last) then (Err (SwNonIncreasingPayout last received), s)
              else
                let headroom := u256_saturating_sub (sw_bounce_limit s) (pc_uncashed st) in
                if decide (headroom = 0) then
                  (Err (SwExposureLimit (pc_uncashed st) (sw_bounce_limit s)), s)
                else
                  let increment := Z.min (received - last) headroom in
                  match Au.try_from_u256 increment with
                  | Err e => (Err (from_conversion_error e), s)
                  | Ok amount =>
                      (Ok amount,
                       set_peers (<[peer := mkPeerCheque (pc_info st) (pc_last_sent st)
                                              (u256_wrapping_add last increment)
                                              (u256_wrapping_add (pc_uncashed st) increment)]>
                                    (sw_peers s)) s)
                  end
            else (Err (SwIssuerMismatch (info_issuer info) recovered), s)
        end
      else (Err (SwBeneficiaryMismatch (sw_beneficiary s) (ch_beneficiary (sc_cheque cheque))), s)
  end.

Definition cheque_sent (s : SwapService) (peer : OverlayAddress) : SwapService * list SwEffect :=
  match sw_pending s !! peer with
  | Some pending =>
      (sw_record peer (swp_amount pending) Upload
         (set_sw_pending (delete peer (sw_pending s)) s),
       [SwRecord peer (swp_amount pending) Upload;
        SwRespond (swp_tx pending) (Ok (swp_amount pending))])
  | None => (s, [])
  end.

Definition is_unknown_identity (e : SwapSettlementError) : bool :=
  match e with SwUnknownPeerIdentity => true | _ => false end.

Definition cheque_received (s : SwapService) (peer : OverlayAddress) (cheque : SignedCheque) :
    SwapService * list SwEffect :=
  match accept_cheque s peer cheque with
  | (Ok amount, s) =>
      (sw_record peer amount Download s,
       SwRecord peer amount Download :: (if sw_cashout s then [SwCash peer cheque] else []))
  | (Err e, s) =>
      (s, if is_unknown_identity e then [] else sw_report_violation s peer)
  end.

Definition sw_failed (s : SwapService) (peer : OverlayAddress) : SwapService * list SwEffect :=
  match sw_pending s !! peer with
  | Some pending =>
      (set_sw_pending (delete peer (sw_pending s)) s,
       [SwRespond (swp_tx pending) (Err (SwNetworkError "substream failed"))])
  | None => (s, [])
  end.

Definition sw_handle_event (s : SwapService) (event : SwapEvent) : SwapService * list SwEffect :=
  match event with
  | ChequeSent peer _ => cheque_sent s peer
  | ChequeReceived peer cheque _ => cheque_received s peer cheque
  | SwFailed peer => sw_failed s peer
  end.

Inductive SwInput :=
| SwInCommand (link : bool) (cmd : SwapCommand)
| SwInEvent (event : SwapEvent)
| SwInRecord (peer : OverlayAddress) (amount : Z) (d : Direction).

Definition sw_handle (s : SwapService) (i : SwInput) : SwapService * list SwEffect :=
  match i with
  | SwInCommand link cmd => sw_handle_command link s cmd
  | SwInEvent event => sw_handle_event s event
  | SwInRecord peer amount d => (sw_record peer amount d s, [])
  end.

Definition sw_step (st : SwapService * list SwEffect) (i : SwInput) :
    SwapService * list SwEffect :=
  let '(s, fx) := sw_handle st.1 i in (s, st.2 ++ fx).

Definition sw_run (s : SwapService) (l : list SwInput) : SwapService * list SwEffect :=
  run sw_step (s, []) l.
End service.

Arguments SwapService A : clear implicits.

(** [SwapProvider::settle] up to the command it sends. *)
Definition swap_offer (c : BandwidthConfig) (has_handle : bool) (balance : Z) : option Z :=
  if negb (Au.is_negative balance) then None
  else
    let debt := Au.unsigned_abs balance in
    if decide (debt < early_payment_trigger c) then None
    else if has_handle then Some debt else None.

(** ** What a log says *)

Definition credited_fx (peer : OverlayAddress) (e : SwEffect) : Z :=
  match e with SwRecord p x Download => if decide (p = peer) then x else 0 | _ => 0 end.
Definition paid_fx (peer : OverlayAddress) (e : SwEffect) : Z :=
  match e with SwRecord p x Upload => if decide (p = peer) then x else 0 | _ => 0 end.
(** Credit granted to [peer] for its cheques; debt of ours cleared by ours. *)
Definition credited (peer : OverlayAddress) (log : list SwEffect) : Z := sumZ (credited_fx peer) log.
Definition paid (peer : OverlayAddress) (log : list SwEffect) : Z := sumZ (paid_fx peer) log.

(** The payouts of the cheques sent to [peer], oldest first. *)
Definition payout_fx (peer : OverlayAddress) (e : SwEffect) : list Z :=
  match e with
  | SwSendCheque p c => if decide (p = peer) then [ch_payout (sc_cheque c)] else []
  | _ => []
  end.
Definition payouts (peer : OverlayAddress) (log : list SwEffect) : list Z :=
  log ≫= payout_fx peer.

Definition pending_amount (peer : OverlayAddress) (m : gmap Z SwPending) : Z :=
  from_option swp_amount 0 (m !! peer).

(** What a settle may add to a payout. *)
Definition settle_in (i : SwInput) : Z :=
  match i with SwInCommand _ (SwSettle _ amount _) => Z.max 0 amount | _ => 0 end.
Definition settle_nonzero (i : SwInput) : Prop :=
  match i with SwInCommand _ (SwSettle _ amount _) => amount ≠ 0 | _ => True end.
(** A received payout is a [U256]. *)
Definition cheque_u256 (i : SwInput) : Prop :=
  match i with SwInEvent (ChequeReceived _ c _) => is_u256 (ch_payout (sc_cheque c)) | _ => True end.

Lemma credited_app peer l k : credited peer (l ++ k) = credited peer l + credited peer k.
Proof. apply sumZ_app. Qed.
Lemma paid_app peer l k : paid peer (l ++ k) = paid peer l + paid peer k.
Proof. apply sumZ_app. Qed.
Lemma payouts_app peer l k : payouts peer (l ++ k) = payouts peer l ++ payouts peer k.
Proof. apply bind_app. Qed.

Lemma u256_add_exact a b : 0 <= a → 0 <= b → a + b <= u256_max → u256_wrapping_add a b = a + b.
Proof. intros. apply Z.mod_small. mlia. Qed.

Lemma u256_sub_exact a b : 0 <= b <= a → a <= u256_max → u256_wrapping_sub a b = a - b.
Proof. intros. apply Z.mod_small. mlia. Qed.

Section proofs.
Context {A : Type} `{BandwidthLedger A}.
Context (signing_hash : Cheque → Z)
        (sign_hash : Z → result string (list Z))
        (recover_address : list Z → Z → result string Address).
Implicit Types s : SwapService A.
Local Abbreviation step := (sw_step signing_hash sign_hash recover_address).
Local Abbreviation accept := (accept_cheque signing_hash recover_address).
Local Abbreviation issue := (issue_cheque signing_hash sign_hash).
Local Abbreviation recovered c := (recover_signer signing_hash recover_address c).

Lemma peer_state_set m s q : peer_state (set_peers m s) q = default peer_cheque_default (m !! q).
Proof. done. Qed.

Lemma peer_state_record p x d s q : peer_state (sw_record p x d s) q = peer_state s q.
Proof. done. Qed.

Lemma peer_state_insert s p st q :
  peer_state (set_peers (<[p := st]> (sw_peers s)) s) q =
  if decide (p = q) then st else peer_state s q.
Proof.
  unfold peer_state; simpl. case_decide; subst.
  - by rewrite lookup_insert_eq.
  - by rewrite lookup_insert_ne.
Qed.

(** ** Accepting a cheque *)

(** An accepted cheque was authenticated, pays us, and raised the payout; it
    is credited its increase up to the exposure headroom, and nothing else in
    the service changes. *)
Lemma accept_cheque_ok s peer c amount s' :
  accept s peer c = (Ok amount, s') →
  let st := peer_state s peer in
  let headroom := u256_saturating_sub (sw_bounce_limit s) (pc_uncashed st) in
  let increment := Z.min (ch_payout (sc_cheque c) - pc_last_received st) headroom in
  (∃ info, pc_info st = Some info ∧ recovered c = Ok (info_issuer info)) ∧
  ch_beneficiary (sc_cheque c) = sw_beneficiary s ∧
  pc_last_received st < ch_payout (sc_cheque c) ∧ headroom ≠ 0 ∧
  amount = increment ∧ increment <= i64_max ∧
  s' = set_peers (<[peer := mkPeerCheque (pc_info st) (pc_last_sent st)
         (u256_wrapping_add (pc_last_received st) increment)
         (u256_wrapping_add (pc_uncashed st) increment)]> (sw_peers s)) s.
Proof.
  unfold accept_cheque, Au.try_from_u256. intros Heq.
  destruct (sw_peers s !! peer ≫= pc_info) as [info|] eqn:Hinfo; [|done].
  assert (pc_info (peer_state s peer) = Some info) as Hst.
  { unfold peer_state. destruct (sw_peers s !! peer); [done|]. done. }
  case_decide as Hb; [|done]. destruct (recovered c) as [r|] eqn:Hr; [|done].
  case_decide as Hi; [|done]. case_decide; [done|]. case_decide; [done|].
  case_decide; [done|]. case_decide; [done|]. injection Heq as <- <-.
  split_and!; try done; try lia. exists info. by subst.
Qed.

(** A refused cheque leaves the service untouched. *)
Lemma accept_cheque_err s peer c e s' : accept s peer c = (Err e, s') → s' = s.
Proof.
  unfold accept_cheque. intros Heq.
  repeat (case_match || case_decide); simplify_eq; done.
Qed.

(** ** The receiving side *)

Record credit_ok (peer : OverlayAddress) (st : SwapService A * list SwEffect) : Prop := {
  cr_received : pc_last_received (peer_state st.1 peer) = credited peer st.2;
  cr_uncashed : pc_uncashed (peer_state st.1 peer) = credited peer st.2;
  cr_bound : 0 <= credited peer st.2 <= sw_bounce_limit st.1;
  cr_limit : is_u256 (sw_bounce_limit st.1);
}.

Lemma credit_ok_frame peer st s' fx :
  credit_ok peer st →
  pc_last_received (peer_state s' peer) = pc_last_received (peer_state st.1 peer) →
  pc_uncashed (peer_state s' peer) = pc_uncashed (peer_state st.1 peer) →
  sw_bounce_limit s' = sw_bounce_limit st.1 → credited peer fx = 0 →
  credit_ok peer (s', st.2 ++ fx).
Proof.
  intros [H1 H2 H3 H4] E1 E2 E3 E4.
  split; simpl; rewrite ?credited_app, ?E1, ?E2, ?E3, ?E4, ?Z.add_0_r; done.
Qed.

(** Issuing never touches the receiving side. *)
Lemma issue_cheque_frame s p w q :
  let s' := (issue s p w).2 in
  pc_last_received (peer_state s' q) = pc_last_received (peer_state s q) ∧
  pc_uncashed (peer_state s' q) = pc_uncashed (peer_state s q) ∧
  sw_bounce_limit s' = sw_bounce_limit s ∧ sw_pending s' = sw_pending s.
Proof.
  unfold issue_cheque. destruct (decide (p = q)) as [<-|Hne].
  - destruct (pc_info _); [destruct (sign_hash _)|]; simpl;
      by rewrite !peer_state_set, !lookup_insert_eq.
  - destruct (pc_info _); [destruct (sign_hash _)|]; simpl;
      by rewrite !peer_state_set, !lookup_insert_ne.
Qed.

Lemma peer_state_alter s f p q :
  (∀ st, pc_last_received (f st) = pc_last_received st ∧ pc_uncashed (f st) = pc_uncashed st) →
  pc_last_received (peer_state (set_peers (alter f p (sw_peers s)) s) q) =
    pc_last_received (peer_state s q) ∧
  pc_uncashed (peer_state (set_peers (alter f p (sw_peers s)) s) q) = pc_uncashed (peer_state s q).
Proof.
  intros Hf. unfold peer_state; simpl. destruct (decide (p = q)) as [<-|].
  - rewrite lookup_alter_eq. destruct (sw_peers s !! p); simpl; [apply Hf|done].
  - by rewrite lookup_alter_ne.
Qed.

Lemma credit_ok_settle peer st link p amount tx :
  credit_ok peer st →
  credit_ok peer (let '(s, fx) := sw_settle signing_hash sign_hash link st.1 p amount tx in (s, st.2 ++ fx)).
Proof.
  intros Hok. unfold sw_settle. destruct (sw_pending st.1 !! p); [by eapply credit_ok_frame|].
  destruct (Au.into_u256 amount) as [w|e]; [|by eapply credit_ok_frame].
  pose proof (issue_cheque_frame st.1 p w peer) as Hf.
  destruct (issue st.1 p w) as [[c|e] s']; simpl in Hf; destruct Hf as (E1&E2&E3&_).
  - destruct link; [by eapply credit_ok_frame|].
    set (f := λ st0, mkPeerCheque _ _ _ _).
    destruct (peer_state_alter s' f p peer) as [E4 E5]; [done|].
    eapply credit_ok_frame; try done; congruence.
  - by eapply credit_ok_frame.
Qed.

Lemma credit_ok_received peer st p c :
  credit_ok peer st → is_u256 (ch_payout (sc_cheque c)) →
  credit_ok peer (let '(s, fx) := cheque_received signing_hash recover_address st.1 p c in (s, st.2 ++ fx)).
Proof.
  intros Hok Hc. unfold cheque_received. destruct (accept st.1 p c) as [[amount|e] s'] eqn:Ha.
  2:{ apply accept_cheque_err in Ha as ->. eapply credit_ok_frame; try done.
      destruct (is_unknown_identity e); [done|]. unfold sw_report_violation. by destruct (sw_reporter _). }
  apply accept_cheque_ok in Ha as (_&_&Hlt&Hh&->&_&->).
  assert (∀ fx, credited peer (SwRecord p fx Download ::
    (if sw_cashout st.1 then [SwCash p c] else [])) = if decide (p = peer) then fx else 0) as Hcr.
  { intros fx. unfold credited. simpl. destruct (sw_cashout st.1); simpl; lia. }
  destruct (decide (p = peer)) as [->|Hne].
  2:{ eapply credit_ok_frame; try done; simpl.
      - rewrite peer_state_record, peer_state_insert. by rewrite decide_False.
      - rewrite peer_state_record, peer_state_insert. by rewrite decide_False. }
  destruct Hok as [H1 H2 H3 H4]. unfold u256_saturating_sub in *.
  set (inc := Z.min _ _).
  assert (0 <= inc ∧ credited peer st.2 + inc <= sw_bounce_limit st.1) by lia.
  split; simpl.
  - rewrite peer_state_record, peer_state_insert, decide_True by done. simpl.
    rewrite credited_app, Hcr, H1. apply u256_add_exact; mlia.
  - rewrite peer_state_record, peer_state_insert, decide_True by done. simpl.
    rewrite credited_app, Hcr, H2. apply u256_add_exact; mlia.
  - rewrite credited_app, Hcr. lia.
  - done.
Qed.

Lemma credit_ok_step peer st i :
  credit_ok peer st → cheque_u256 i → credit_ok peer (step st i).
Proof.
  intros Hok Hi. unfold sw_step.
  destruct i as [link [p x tx|p info]|[p rate|p c rate|p]|p x d]; simpl in *.
  - by apply credit_ok_settle.
  - eapply credit_ok_frame; try done; rewrite (peer_state_insert st.1); case_decide; subst; done.
  - unfold cheque_sent. destruct (sw_pending st.1 !! p); [|by eapply credit_ok_frame].
    by eapply credit_ok_frame.
  - by apply credit_ok_received.
  - unfold sw_failed. destruct (sw_pending st.1 !! p); by eapply credit_ok_frame.
  - by eapply credit_ok_frame.
Qed.
(** ** The issuing side *)

Abbreviation last_sent s q := (pc_last_sent (peer_state s q)).

(** Issuing raises the payout of its peer by the amount once the cheque is
    signed, and no payout otherwise. *)
Lemma issue_cheque_result s p w :
  0 <= last_sent s p → 0 <= w → last_sent s p + w <= u256_max →
  match issue s p w with
  | (Ok c, s') =>
      ch_payout (sc_cheque c) = last_sent s p + w ∧
      (∀ q, last_sent s' q = if decide (p = q) then last_sent s p + w else last_sent s q) ∧
      is_Some (sw_peers s' !! p) ∧ sw_pending s' = sw_pending s
  | (Err _, s') => (∀ q, last_sent s' q = last_sent s q) ∧ sw_pending s' = sw_pending s
  end.
Proof.
  intros H1 H2 H3. unfold issue_cheque.
  assert (Hd : ∀ q, last_sent (set_peers (<[p := peer_state s p]> (sw_peers s)) s) q = last_sent s q).
  { intros q. rewrite peer_state_insert. by case_decide; subst. }
  destruct (pc_info (peer_state s p)); [destruct (sign_hash _)|]; simpl; try by split.
  rewrite u256_add_exact by done. split_and!; [done| |by rewrite lookup_insert_eq|done].
  intros q. rewrite peer_state_set. case_decide; subst.
  - by rewrite lookup_insert_eq.
  - by rewrite !lookup_insert_ne.
Qed.

Record send_ok (peer : OverlayAddress) (st : SwapService A * list SwEffect) (B : Z) : Prop := {
  se_range : 0 <= last_sent st.1 peer;
  se_budget : ∀ q, 0 <= last_sent st.1 q <= B;
  se_sorted : StronglySorted Z.lt (payouts peer st.2);
  se_below : Forall (λ x, x <= last_sent st.1 peer) (payouts peer st.2);
  se_pending : 0 <= pending_amount peer (sw_pending st.1);
  se_paid : paid peer st.2 + pending_amount peer (sw_pending st.1) <= last_sent st.1 peer;
}.

Lemma send_ok_frame peer st B s' fx B' :
  send_ok peer st B → B <= B' →
  (∀ q, last_sent s' q = last_sent st.1 q) →
  payouts peer fx = [] →
  0 <= pending_amount peer (sw_pending s') →
  paid peer fx + pending_amount peer (sw_pending s') <= pending_amount peer (sw_pending st.1) →
  send_ok peer (s', st.2 ++ fx) B'.
Proof.
  intros [H1 H2 H3 H4 H5 H6] HB E1 E2 E3 E4.
  split; simpl; rewrite ?payouts_app, ?paid_app, ?E1, ?E2, ?app_nil_r; try done; try lia.
  intros q. rewrite E1. specialize (H2 q). lia.
Qed.

Lemma StronglySorted_snoc_lt (l : list Z) x m :
  StronglySorted Z.lt l → Forall (λ y, y <= m) l → m < x → StronglySorted Z.lt (l ++ [x]).
Proof.
  induction 1 as [|y l Hl IH Hy]; intros Hm Hx; simpl; [repeat constructor|].
  inv Hm. constructor; [by apply IH|]. apply Forall_app. split; [done|]. repeat constructor. lia.
Qed.

Lemma pending_amount_insert peer m p x :
  pending_amount peer (<[p := x]> m) = if decide (p = peer) then swp_amount x else pending_amount peer m.
Proof.
  unfold pending_amount. case_decide; subst; [by rewrite lookup_insert_eq|by rewrite lookup_insert_ne].
Qed.

Lemma pending_amount_delete peer m p :
  pending_amount peer (delete p m) = if decide (p = peer) then 0 else pending_amount peer m.
Proof.
  unfold pending_amount. case_decide; subst; [by rewrite lookup_delete_eq|by rewrite lookup_delete_ne].
Qed.

(** A cheque that went out. *)
Lemma send_ok_sent peer st B s' p c w tx :
  send_ok peer st B → 0 < w → sw_pending st.1 !! p = None →
  ch_payout (sc_cheque c) = last_sent st.1 p + w →
  (∀ q, last_sent s' q = if decide (p = q) then last_sent st.1 p + w else last_sent st.1 q) →
  sw_pending s' = sw_pending st.1 →
  send_ok peer (set_sw_pending (<[p := mkSwPending w tx]> (sw_pending s')) s',
                st.2 ++ [SwSendCheque p c]) (B + w).
Proof.
  intros [H1 H2 H3 H4 H5 H6] Hw Hp Hc Hs Hpend.
  assert (Hls : ∀ q, last_sent (set_sw_pending (<[p := mkSwPending w tx]> (sw_pending s')) s') q =
    last_sent s' q) by done.
  split; simpl; rewrite ?Hls, ?Hs, ?payouts_app, ?paid_app, ?Hpend, ?pending_amount_insert.
  - specialize (H2 p). case_decide; lia.
  - intros q. change (0 <= last_sent s' q <= B + w). rewrite Hs. pose proof (H2 p). pose proof (H2 q). case_decide; lia.
  - simpl. case_decide; subst; simpl; [|by rewrite app_nil_r].
    eapply StronglySorted_snoc_lt; try done. lia.
  - simpl. case_decide; subst; simpl; [|by rewrite app_nil_r].
    apply Forall_app. split; [|by repeat constructor; lia].
    eapply Forall_impl; [done|]. simpl. intros; lia.
  - case_decide; simpl; lia.
  - unfold paid at 2; simpl. case_decide; subst; [|lia].
    unfold pending_amount in H6. rewrite Hp in H6. simpl in *. lia.
Qed.

Lemma send_ok_settle peer st B link p amount tx :
  send_ok peer st B → amount ≠ 0 → B + Z.max 0 amount <= u256_max →
  send_ok peer (let '(s, fx) := sw_settle signing_hash sign_hash link st.1 p amount tx in (s, st.2 ++ fx))
    (B + Z.max 0 amount).
Proof.
  intros Hok Hne HB. pose proof Hok as [H1 H2 H3 H4 H5 H6].
  assert (Hresp : ∀ s' r, (∀ q, last_sent s' q = last_sent st.1 q) → sw_pending s' = sw_pending st.1 →
    send_ok peer (s', st.2 ++ [SwRespond tx r]) (B + Z.max 0 amount)).
  { intros s' r E1 E2. eapply send_ok_frame; rewrite ?E2; try done; lia. }
  unfold sw_settle. destruct (sw_pending st.1 !! p) eqn:Hp; [by apply Hresp|].
  unfold Au.into_u256. case_decide as Hneg; [by apply Hresp|].
  rewrite Z.max_r in * by lia. pose proof (H2 p).
  pose proof (issue_cheque_result st.1 p amount) as Hi.
  destruct (issue st.1 p amount) as [[c|e] s'].
  2:{ destruct Hi as [E1 E2]; [lia..|]. by apply Hresp. }
  destruct Hi as (E0&E1&E2&E3); [lia..|]. destruct link.
  { apply send_ok_sent; try done. lia. }
  apply Hresp; [|done]. intros q. rewrite peer_state_set. specialize (E1 q).
  destruct E2 as [st' E2]. unfold peer_state in E1 at 1. destruct (decide (p = q)) as [<-|Hq].
  - rewrite lookup_alter_eq. rewrite E2 in *; simpl in *.
    rewrite E1. rewrite u256_sub_exact by lia. lia.
  - rewrite lookup_alter_ne by done. exact E1.
Qed.

Lemma send_ok_step peer st i B :
  send_ok peer st B → settle_nonzero i → B + settle_in i <= u256_max →
  send_ok peer (step st i) (B + settle_in i).
Proof.
  intros Hok Hi HB. pose proof (se_pending _ _ _ Hok). unfold sw_step.
  destruct i as [link [p x tx|p info]|[p rate|p c rate|p]|p x d]; simpl in *;
    rewrite ?Z.add_0_r in *.
  - by apply send_ok_settle.
  - eapply send_ok_frame; try done. intros q. rewrite peer_state_insert. case_decide; by subst.
  - unfold cheque_sent. destruct (sw_pending st.1 !! p) as [pd|] eqn:Hp; [|by eapply send_ok_frame].
    eapply send_ok_frame; try done; simpl; rewrite pending_amount_delete; unfold paid; simpl;
      case_decide; subst; try lia; unfold pending_amount; rewrite Hp; simpl; lia.
  - unfold cheque_received. destruct (accept st.1 p c) as [[amount|e] s'] eqn:Ha.
    + apply accept_cheque_ok in Ha as (_&_&_&_&_&_&->).
      eapply send_ok_frame; try done; simpl.
      * intros q. rewrite peer_state_record, peer_state_insert. case_decide; by subst.
      * by destruct (sw_cashout st.1).
      * unfold paid. destruct (sw_cashout st.1); simpl; lia.
    + apply accept_cheque_err in Ha as ->. eapply send_ok_frame; try done;
        destruct (is_unknown_identity e); try done; unfold sw_report_violation; by destruct (sw_reporter _).
  - unfold sw_failed. destruct (sw_pending st.1 !! p) as [pd|] eqn:Hp; [|by eapply send_ok_frame].
    eapply send_ok_frame; try done; simpl; rewrite pending_amount_delete; unfold paid; simpl;
      case_decide; subst; try lia.
  - by eapply send_ok_frame.
Qed.

Lemma send_ok_run peer l : ∀ st B,
  send_ok peer st B → Forall settle_nonzero l → B + sumZ settle_in l <= u256_max →
  send_ok peer (run step st l) (B + sumZ settle_in l).
Proof.
  induction l as [|i l IH]; intros st B Hok Hl HB; simpl in *; [by rewrite Z.add_0_r|].
  inv Hl. rewrite Z.add_assoc in *. apply IH; try done.
  apply send_ok_step; try done.
  assert (0 <= sumZ settle_in l); [|lia].
  apply sumZ_nonneg, Forall_forall. intros j _. destruct j as [? []|?|]; simpl; lia.
Qed.

Lemma credit_ok_run peer l st :
  credit_ok peer st → Forall cheque_u256 l → credit_ok peer (run step st l).
Proof. apply run_invariant. intros. by apply credit_ok_step. Qed.

Lemma bounce_limit_run l st : sw_bounce_limit (run step st l).1 = sw_bounce_limit st.1.
Proof.
  revert st. induction l as [|i l IH]; intros st; simpl; [done|]. rewrite IH. unfold sw_step.
  destruct i as [link [p x tx|p info]|[p rate|p c rate|p]|p x d]; simpl; try done.
  - unfold sw_settle. destruct (sw_pending st.1 !! p); [done|]. destruct (Au.into_u256 x) as [w|]; [|done].
    pose proof (issue_cheque_frame st.1 p w p) as (_&_&E&_). destruct (issue st.1 p w) as [[c|e] s'];
      [destruct link|]; done.
  - unfold cheque_sent. by destruct (sw_pending st.1 !! p).
  - unfold cheque_received. destruct (accept st.1 p c) as [[amount|e] s'] eqn:Ha.
    + by apply accept_cheque_ok in Ha as (_&_&_&_&_&_&->).
    + by apply accept_cheque_err in Ha as ->.
  - unfold sw_failed. by destruct (sw_pending st.1 !! p).
Qed.
(** ** Authentication *)

(** Every identity in the state was registered by an input, and every credit
    in the log belongs to a received cheque that names us and was signed by a
    registered issuer of that peer. *)
Record auth_ok (l : list SwInput) (st : SwapService A * list SwEffect) (us : Address) : Prop := {
  au_us : sw_beneficiary st.1 = us;
  au_info : ∀ p info, pc_info (peer_state st.1 p) = Some info →
    ∃ link, SwInCommand link (SwRegisterPeerInfo p info) ∈ l;
  au_credit : ∀ p x, SwRecord p x Download ∈ st.2 → 0 < x ∧ ∃ c rate info link,
    SwInEvent (ChequeReceived p c rate) ∈ l ∧
    SwInCommand link (SwRegisterPeerInfo p info) ∈ l ∧
    recovered c = Ok (info_issuer info) ∧ ch_beneficiary (sc_cheque c) = us;
}.

Lemma auth_ok_frame l k st us s' fx :
  auth_ok l st us → (∀ i, i ∈ l → i ∈ k) → sw_beneficiary s' = sw_beneficiary st.1 →
  (∀ p, pc_info (peer_state s' p) = pc_info (peer_state st.1 p)) →
  (∀ p x, SwRecord p x Download ∉ fx) → auth_ok k (s', st.2 ++ fx) us.
Proof.
  intros [H1 H2 H3] Hk E1 E2 E3. split; simpl.
  - congruence.
  - intros p info Hi. rewrite E2 in Hi. apply H2 in Hi as [link ?]. eauto.
  - intros p x [Hin|Hin]%elem_of_app; [|by apply E3 in Hin].
    destruct (H3 p x Hin) as (?&c&r&info&link&?&?&?&?). split; [done|]. exists c, r, info, link. auto.
Qed.

Lemma issue_cheque_info s p w :
  let s' := (issue s p w).2 in
  sw_beneficiary s' = sw_beneficiary s ∧
  ∀ q, pc_info (peer_state s' q) = pc_info (peer_state s q).
Proof.
  unfold issue_cheque. destruct (pc_info (peer_state s p)) eqn:Hi; [destruct (sign_hash _)|]; simpl;
    (split; [done|]); intros q; rewrite peer_state_set;
    (destruct (decide (p = q)) as [<-|]; [by rewrite !lookup_insert_eq|by rewrite !lookup_insert_ne]).
Qed.

Lemma auth_ok_settle l k st us link p amount tx :
  auth_ok l st us → (∀ i, i ∈ l → i ∈ k) →
  auth_ok k (let '(s, fx) := sw_settle signing_hash sign_hash link st.1 p amount tx in (s, st.2 ++ fx)) us.
Proof.
  intros Hok Hk. unfold sw_settle.
  assert (∀ r q x, SwRecord q x Download ∉ [SwRespond tx r]) as Hr by (intros; set_solver).
  destruct (sw_pending st.1 !! p); [by eapply auth_ok_frame|].
  destruct (Au.into_u256 amount) as [w|e]; [|by eapply auth_ok_frame].
  pose proof (issue_cheque_info st.1 p w) as [E1 E2]. destruct (issue st.1 p w) as [[c|e] s']; simpl in *.
  - destruct link; eapply auth_ok_frame; try done; [set_solver|].
    intros q. rewrite <-E2, peer_state_set. unfold peer_state.
    destruct (decide (p = q)) as [<-|]; [rewrite lookup_alter_eq|by rewrite lookup_alter_ne].
    by destruct (sw_peers s' !! p).
  - by eapply auth_ok_frame.
Qed.

Lemma auth_ok_step l st us i :
  auth_ok l st us → auth_ok (l ++ [i]) (step st i) us.
Proof.
  intros Hok. assert (Hk : ∀ j, j ∈ l → j ∈ l ++ [i]) by set_solver. unfold sw_step.
  destruct i as [link [p x tx|p info]|[p rate|p c rate|p]|p x d]; simpl in *.
  - by eapply auth_ok_settle.
  - destruct Hok as [H1 H2 H3]. split; simpl; [done| |].
    + intros q info'. rewrite peer_state_insert. case_decide as Hq; simpl.
      * intros [= <-]. exists link. subst. set_solver.
      * intros [link' ?]%H2. exists link'. set_solver.
    + rewrite app_nil_r. intros q x Hin. destruct (H3 q x Hin) as (?&c&r&i'&link'&?&?&?&?).
      split; [done|]. exists c, r, i', link'. set_solver.
  - unfold cheque_sent. destruct (sw_pending st.1 !! p); eapply auth_ok_frame; try done; set_solver.
  - unfold cheque_received. destruct (accept st.1 p c) as [[amount|e] s'] eqn:Ha.
    + apply accept_cheque_ok in Ha as ([info [Hi Hr]]&Hb&Hlt&Hh&Hx&_&->).
      unfold u256_saturating_sub in *. destruct Hok as [H1 H2 H3]. split; simpl; [done| |].
      * intros q info'. rewrite peer_state_record, peer_state_insert.
        intros Hq. assert (pc_info (peer_state st.1 q) = Some info') as Hq' by (case_decide; subst; done).
        destruct (H2 q info' Hq') as [link ?]. exists link. set_solver.
      * intros q x [Hin|[Hin|Hin]%elem_of_cons]%elem_of_app.
        { destruct (H3 q x Hin) as (?&c'&r&i'&link'&?&?&?&?).
          split; [done|]. exists c', r, i', link'. set_solver. }
        { injection Hin as -> ->. split; [lia|]. destruct (H2 _ _ Hi) as [link Hl].
          exists c, rate, info, link. split_and!; try done; [set_solver..|congruence]. }
        { destruct (sw_cashout st.1); set_solver. }
    + apply accept_cheque_err in Ha as ->. eapply auth_ok_frame; try done.
      destruct (is_unknown_identity e); [set_solver|]. unfold sw_report_violation.
      destruct (sw_reporter st.1); set_solver.
  - unfold sw_failed. destruct (sw_pending st.1 !! p); eapply auth_ok_frame; try done; set_solver.
  - eapply auth_ok_frame; try done; set_solver.
Qed.

Lemma auth_ok_run us k : ∀ l st,
  auth_ok l st us → auth_ok (l ++ k) (run step st k) us.
Proof.
  induction k as [|i k IH]; intros l st Hok; simpl; [by rewrite app_nil_r|].
  rewrite cons_middle, app_assoc. by apply IH, auth_ok_step.
Qed.
End proofs.

(** ** Properties *)

Definition swap_init {A} (a : A) (chequebook beneficiary limit : Z) (reporter : bool) : SwapService A :=
  let s := with_bounce_limit limit (swap_new a chequebook beneficiary) in
  if reporter then with_swap_reporter s else s.

Lemma swap_init_peer {A} (a : A) cb us L rep q :
  peer_state (swap_init a cb us L rep) q = peer_cheque_default.
Proof. by destruct rep. Qed.

Lemma swap_init_fields {A} (a : A) cb us L rep :
  sw_pending (swap_init a cb us L rep) = ∅ ∧ sw_bounce_limit (swap_init a cb us L rep) = L ∧
  sw_beneficiary (swap_init a cb us L rep) = us.
Proof. by destruct rep. Qed.

(** C2: cheque credit is capped for good.  Over any interleaving of commands,
    events and other ledger records, the credit a peer has received for its
    cheques equals both its accepted cumulative payout and its uncashed
    exposure, and never exceeds the bounce limit: replayed, reordered or
    overlapping cheques are never credited twice. *)
Theorem cheque_credit_bounded {A} `{BandwidthLedger A} signing_hash sign_hash recover_address
    (a : A) cb us L rep l peer :
  is_u256 L → Forall cheque_u256 l →
  let st := sw_run signing_hash sign_hash recover_address (swap_init a cb us L rep) l in
  pc_last_received (peer_state st.1 peer) = credited peer st.2 ∧
  pc_uncashed (peer_state st.1 peer) = credited peer st.2 ∧
  0 <= credited peer st.2 <= L.
Proof.
  intros HL Hl st. destruct (swap_init_fields a cb us L rep) as (_&Hlim&_).
  destruct (credit_ok_run signing_hash sign_hash recover_address peer l (swap_init a cb us L rep, []))
    as [H1 H2 H3 H4]; [|done|].
  { split; simpl; rewrite ?swap_init_peer, ?Hlim; try done. unfold credited; simpl. mlia. }
  rewrite bounce_limit_run in H3. simpl in H3. rewrite Hlim in H3. done.
Qed.

(** C25: our cheques only ever go up, and they cover what we clear.  With
    non-zero settlements whose sum fits a [U256], the payouts of the cheques
    sent to a peer are strictly increasing (across failures, closed channels
    and signing errors), none exceeds the recorded cumulative payout, and the
    debt we cleared by paying, plus the payment in flight, never exceeds what
    those cheques promise. *)
Theorem cheques_sent_increase {A} `{BandwidthLedger A} signing_hash sign_hash recover_address
    (a : A) cb us L rep l peer :
  Forall settle_nonzero l → sumZ settle_in l <= u256_max →
  let st := sw_run signing_hash sign_hash recover_address (swap_init a cb us L rep) l in
  StronglySorted Z.lt (payouts peer st.2) ∧
  Forall (λ x, x <= pc_last_sent (peer_state st.1 peer)) (payouts peer st.2) ∧
  paid peer st.2 + pending_amount peer (sw_pending st.1) <= pc_last_sent (peer_state st.1 peer).
Proof.
  intros Hl HB st. destruct (swap_init_fields a cb us L rep) as (Hp&_&_).
  destruct (send_ok_run signing_hash sign_hash recover_address peer l (swap_init a cb us L rep, []) 0)
    as [_ _ H3 H4 _ H6]; try done.
  split; simpl; rewrite ?swap_init_peer, ?Hp; try done; try constructor.
  all: by rewrite swap_init_peer.
Qed.

(** No credit without an authenticated cheque.  Every credit the service
    ever recorded for a peer is positive and answers a cheque that arrived
    from that peer, names our own beneficiary, and carries a signature that
    recovers to an issuer registered for that very peer. *)
Theorem credit_authenticated {A} `{BandwidthLedger A} signing_hash sign_hash recover_address
    (a : A) cb us L rep l peer x :
  SwRecord peer x Download ∈
    (sw_run signing_hash sign_hash recover_address (swap_init a cb us L rep) l).2 →
  0 < x ∧ ∃ c rate info link,
    SwInEvent (ChequeReceived peer c rate) ∈ l ∧
    SwInCommand link (SwRegisterPeerInfo peer info) ∈ l ∧
    recover_signer signing_hash recover_address c = Ok (info_issuer info) ∧
    ch_beneficiary (sc_cheque c) = us.
Proof.
  intros Hin. destruct (swap_init_fields a cb us L rep) as (_&_&Hus).
  destruct (auth_ok_run signing_hash sign_hash recover_address us l [] (swap_init a cb us L rep, []))
    as [_ _ H3]; [|by apply H3].
  split; [done| |intros; set_solver]. intros p info. simpl. by rewrite swap_init_peer.
Qed.

(** An exhausted exposure blames the peer.  Once a peer's uncashed credit
    has reached the bounce limit, a cheque that names us, is signed by the
    peer's issuer and strictly increases the payout is still reported as an
    accounting violation, although it breaks none of the laws the report is
    said to stand for. *)
Theorem exhausted_exposure_reports_honest_cheque {A} `{BandwidthLedger A}
    signing_hash recover_address (s : SwapService A) peer c info :
  sw_reporter s = true → pc_info (peer_state s peer) = Some info →
  ch_beneficiary (sc_cheque c) = sw_beneficiary s →
  recover_signer signing_hash recover_address c = Ok (info_issuer info) →
  pc_last_received (peer_state s peer) < ch_payout (sc_cheque c) →
  sw_bounce_limit s <= pc_uncashed (peer_state s peer) →
  cheque_received signing_hash recover_address s peer c = (s, [SwReport peer]).
Proof.
  intros Hrep Hinfo Hb Hr Hlt Hlim. unfold cheque_received, accept_cheque.
  assert (sw_peers s !! peer ≫= pc_info = Some info) as ->.
  { unfold peer_state in Hinfo. by destruct (sw_peers s !! peer). }
  rewrite decide_True, Hr, decide_True, decide_False, decide_True by (try done; mlia).
  simpl. unfold sw_report_violation. by rewrite Hrep.
Qed.

(** A cheque keeps the two books mirrored.  When payer and payee agree on
    a debt [D] and on the cumulative payout so far, and [D] is within the
    payee's exposure headroom, then the cheque the payer issues is accepted
    and credited in full, so after the payee's credit and the payer's own
    record both books show the debt cleared. *)
Theorem cheque_settles_both_books {A B} `{BandwidthLedger A, BandwidthLedger B}
    signing_hash sign_hash recover_address (me : Address)
    (d : SwapService A) (c : SwapService B) pd pc D tx info_d info_c :
  (∀ h, ∃ sig, sign_hash h = Ok sig ∧ length sig = SIGNATURE_LEN ∧ recover_address sig h = Ok me) →
  bw_ok (sw_accounting d) → bw_ok (sw_accounting c) → 0 < D <= i64_max →
  bw_balance (sw_accounting d) pc = - D → bw_balance (sw_accounting c) pd = D →
  sw_pending d !! pc = None → pc_info (peer_state d pc) = Some info_d →
  info_beneficiary info_d = sw_beneficiary c →
  pc_info (peer_state c pd) = Some info_c → info_issuer info_c = me →
  pc_last_sent (peer_state d pc) = pc_last_received (peer_state c pd) →
  0 <= pc_last_sent (peer_state d pc) → pc_last_sent (peer_state d pc) + D <= u256_max →
  D <= sw_bounce_limit c - pc_uncashed (peer_state c pd) →
  ∃ cheque d1 d2 c1 fx,
    sw_settle signing_hash sign_hash true d pc D tx = (d1, [SwSendCheque pc cheque]) ∧
    cheque_received signing_hash recover_address c pd cheque = (c1, SwRecord pd D Download :: fx) ∧
    cheque_sent d1 pc = (d2, [SwRecord pc D Upload; SwRespond tx (Ok D)]) ∧
    bw_balance (sw_accounting d2) pc = 0 ∧ bw_balance (sw_accounting c1) pd = 0.
Proof.
  intros Hsig Hd Hc HD Ebd Ebc Hp Hid Hben Hic Hiss Hsync Hpos Hmax Hroom.
  unfold sw_settle. rewrite Hp. unfold Au.into_u256. rewrite decide_False by lia.
  unfold issue_cheque. rewrite Hid. rewrite u256_add_exact by lia.
  set (ch := mkCheque _ _ _). destruct (Hsig (signing_hash ch)) as (sig&Hsign&Hlen&Hrec). rewrite Hsign.
  do 5 eexists. split; [reflexivity|].
  unfold cheque_received, accept_cheque.
  assert (sw_peers c !! pd ≫= pc_info = Some info_c) as ->.
  { unfold peer_state in Hic. by destruct (sw_peers c !! pd). }
  simpl. rewrite decide_True by done. unfold recover_signer, parse_signature; simpl.
  rewrite decide_True by done. simpl. rewrite Hrec; simpl. rewrite decide_True by done.
  rewrite decide_False by lia. unfold u256_saturating_sub. rewrite decide_False by lia.
  assert (Z.min (pc_last_sent (peer_state d pc) + D - pc_last_received (peer_state c pd))
    (Z.max 0 (sw_bounce_limit c - pc_uncashed (peer_state c pd))) = D) as -> by lia.
  unfold Au.try_from_u256. rewrite !decide_False by mlia.
  split; [reflexivity|]. unfold cheque_sent. simpl. rewrite lookup_insert_eq. simpl.
  split; [reflexivity|]. simpl. rewrite !bw_record_same by done.
  rewrite Ebd, Ebc. unfold record_delta, Au.saturating_neg. mlia.
Qed.

(** A stand-in signer with address 42 for the witnesses. *)
Definition demo_hash (c : Cheque) : Z := ch_payout c.
Definition demo_sign (h : Z) : result string (list Z) := Ok (replicate 65 h).
Definition demo_recover (sig : list Z) (h : Z) : result string Address := Ok 42.

(** A peer that registers, sends two overlapping cheques and a replay; we
    settle twice, the second time over a closed channel. *)
Definition swap_sample : list SwInput :=
  [SwInCommand true (SwRegisterPeerInfo 7 (mkInfo 11 42));
   SwInEvent (ChequeReceived 7 (mkSigned (mkCheque 5 99 600) (replicate 65 0)) 1);
   SwInEvent (ChequeReceived 7 (mkSigned (mkCheque 5 99 600) (replicate 65 0)) 1);
   SwInEvent (ChequeReceived 7 (mkSigned (mkCheque 5 99 2000) (replicate 65 0)) 1);
   SwInCommand true (SwSettle 7 30 0); SwInEvent (ChequeSent 7 1);
   SwInCommand false (SwSettle 7 5 1); SwInCommand true (SwSettle 7 8 2)].

Definition swap_demo : SwapService Accounting * list SwEffect :=
  sw_run demo_hash demo_sign demo_recover
    (swap_init (accounting_new default_bandwidth_config) 1 99 1000 true) swap_sample.

Lemma cheque_credit_bounded_witness :
  credited 7 swap_demo.2 = 1000 ∧ 0 <= credited 7 swap_demo.2 <= 1000.
Proof.
  split; [vm_compute; reflexivity|].
  apply (cheque_credit_bounded demo_hash demo_sign demo_recover
           (accounting_new default_bandwidth_config) 1 99 1000 true swap_sample 7).
  - mlia.
  - repeat constructor; vm_compute; congruence.
Defined.

Lemma cheques_sent_increase_witness :
  payouts 7 swap_demo.2 = [30; 38] ∧ StronglySorted Z.lt (payouts 7 swap_demo.2).
Proof.
  split; [vm_compute; reflexivity|].
  apply (cheques_sent_increase demo_hash demo_sign demo_recover
           (accounting_new default_bandwidth_config) 1 99 1000 true swap_sample 7).
  - repeat constructor; vm_compute; congruence.
  - vm_compute. congruence.
Defined.

Lemma credit_authenticated_witness :
  0 < 400 ∧ ∃ c rate info link,
    SwInEvent (ChequeReceived 7 c rate) ∈ swap_sample ∧
    SwInCommand link (SwRegisterPeerInfo 7 info) ∈ swap_sample ∧
    recover_signer demo_hash demo_recover c = Ok (info_issuer info) ∧
    ch_beneficiary (sc_cheque c) = 99.
Proof.
  apply (credit_authenticated demo_hash demo_sign demo_recover
           (accounting_new default_bandwidth_config) 1 99 1000 true swap_sample 7 400).
  vm_compute. do 2 right. left.
Defined.

Lemma exhausted_exposure_reports_honest_cheque_witness :
  cheque_received demo_hash demo_recover swap_demo.1 7
    (mkSigned (mkCheque 5 99 3000) (replicate 65 0)) = (swap_demo.1, [SwReport 7]).
Proof.
  apply (exhausted_exposure_reports_honest_cheque demo_hash demo_recover swap_demo.1 7
           (mkSigned (mkCheque 5 99 3000) (replicate 65 0)) (mkInfo 11 42));
    vm_compute; congruence.
Defined.

(** Payer 7 owes payee 8 five hundred; neither has paid before. *)
Definition swap_payer : SwapService Accounting :=
  (sw_run demo_hash demo_sign demo_recover
     (swap_init (record_for (accounting_new default_bandwidth_config) 8 500 Download) 1 99 1000 true)
     [SwInCommand true (SwRegisterPeerInfo 8 (mkInfo 11 43))]).1.
Definition swap_payee : SwapService Accounting :=
  (sw_run demo_hash demo_sign demo_recover
     (swap_init (record_for (accounting_new default_bandwidth_config) 7 500 Upload) 2 11 1000 true)
     [SwInCommand true (SwRegisterPeerInfo 7 (mkInfo 99 42))]).1.

Lemma cheque_settles_both_books_witness :
  ∃ cheque d1 d2 c1 fx,
    sw_settle demo_hash demo_sign true swap_payer 8 500 0 = (d1, [SwSendCheque 8 cheque]) ∧
    cheque_received demo_hash demo_recover swap_payee 7 cheque = (c1, SwRecord 7 500 Download :: fx) ∧
    cheque_sent d1 8 = (d2, [SwRecord 8 500 Upload; SwRespond 0 (Ok 500)]) ∧
    bw_balance (sw_accounting d2) 8 = 0 ∧ bw_balance (sw_accounting c1) 7 = 0.
Proof.
  apply (cheque_settles_both_books demo_hash demo_sign demo_recover 42 swap_payer swap_payee 7 8 500 0
           (mkInfo 11 43) (mkInfo 99 42)).
  - intros h. exists (replicate 65 h). done.
  - apply acc_wf_record, acc_wf_new.
  - apply acc_wf_record, acc_wf_new.
  - mlia.
  - vm_compute. reflexivity.
  - vm_compute. reflexivity.
  - vm_compute. reflexivity.
  - vm_compute. reflexivity.
  - vm_compute. reflexivity.
  - vm_compute. reflexivity.
  - reflexivity.
  - vm_compute. reflexivity.
  - vm_compute. congruence.
  - vm_compute. congruence.
  - vm_compute. congruence.
Defined.
