(* ===== verification/Bytes.v ===== *)
(** * Big-endian bytes

    The fixed-width big-endian encodings every compound database key is built
    from, their inverse, and the byte-wise lexicographic order the storage
    backend sorts keys by.  A [[u8; 32]] field is a [Z] in [[0, 256^32)]. *)

From S2P Require Import Prelude.

(** [be_bytes n x]: the [n] low bytes of [x], most significant first
    ([to_be_bytes]). *)
Fixpoint be_bytes (n : nat) (x : Z) : list Z :=
  match n with
  | O => []
  | S n => (x / 256 ^ Z.of_nat n) mod 256 :: be_bytes n x
  end.

(** [from_be_bytes] *)
Definition of_be (l : list Z) : Z := foldl (λ acc b, acc * 256 + b) 0 l.

(** Byte-wise order of two keys, as [<[u8]>::cmp]. *)
Fixpoint lex (a b : list Z) : comparison :=
  match a, b with
  | [], [] => Eq
  | [], _ :: _ => Lt
  | _ :: _, [] => Gt
  | x :: a, y :: b => match x ?= y with Eq => lex a b | c => c end
  end.

(** Lexicographic composition of two comparisons. *)
Definition then_cmp (c d : comparison) : comparison := match c with Eq => d | _ => c end.

Lemma be_bytes_length n x : length (be_bytes n x) = n.
Proof. induction n; simpl; congruence. Qed.

Lemma be_bytes_range n x : Forall (λ b, 0 <= b < 256) (be_bytes n x).
Proof. induction n; simpl; constructor; [apply Z.mod_pos_bound; lia|done]. Qed.

Lemma pow256_pos n : 0 < 256 ^ Z.of_nat n.
Proof. apply Z.pow_pos_nonneg; lia. Qed.

Lemma pow256_S n : 256 ^ Z.of_nat (S n) = 256 * 256 ^ Z.of_nat n.
Proof. rewrite Nat2Z.inj_succ, Z.pow_succ_r by lia. done. Qed.

(** Only the low bytes matter. *)
Lemma be_bytes_mod n x : be_bytes n (x mod 256 ^ Z.of_nat n) = be_bytes n x.
Proof.
  assert (∀ m, (n <= m)%nat → be_bytes n (x mod 256 ^ Z.of_nat m) = be_bytes n x) as H.
  { induction n as [|n IH]; intros m Hm; simpl; [done|]. f_equal; [|apply IH; lia].
    replace (Z.of_nat m) with (Z.of_nat n + 1 + Z.of_nat (m - n - 1)) by lia.
    rewrite !Z.pow_add_r, Z.pow_1_r by lia.
    pose proof (pow256_pos n). pose proof (pow256_pos (m - n - 1)).
    rewrite <-Z.mul_assoc, Z.rem_mul_r by lia.
    rewrite (Z.add_comm (x mod _)), Z.mul_comm, Z.div_add_l by lia.
    rewrite (Z.div_small (x mod _)) by (apply Z.mod_pos_bound; lia). rewrite Z.add_0_r.
    rewrite Z.rem_mul_r by lia. rewrite Z.mul_comm, Z.mod_add by lia. apply Z.mod_mod. lia. }
  by apply H.
Qed.

Lemma of_be_acc l : ∀ a, foldl (λ acc b, acc * 256 + b) a l = a * 256 ^ Z.of_nat (length l) + of_be l.
Proof.
  unfold of_be. induction l as [|b l IH]; intros a; [simpl; lia|].
  cbn [foldl length]. rewrite IH, (IH (0 * 256 + b)), pow256_S. lia.
Qed.

Lemma of_be_bytes n x : of_be (be_bytes n x) = x mod 256 ^ Z.of_nat n.
Proof.
  induction n as [|n IH]; [simpl; by rewrite Z.mod_1_r|].
  cbn [be_bytes]. unfold of_be. cbn [foldl]. rewrite of_be_acc, be_bytes_length, IH, pow256_S.
  pose proof (pow256_pos n).
  rewrite (Z.mul_comm 256), Z.rem_mul_r by lia. lia.
Qed.

Lemma of_be_bytes_id n x : 0 <= x < 256 ^ Z.of_nat n → of_be (be_bytes n x) = x.
Proof. intros. rewrite of_be_bytes. by apply Z.mod_small. Qed.

Lemma lex_refl l : lex l l = Eq.
Proof. induction l; simpl; [done|]. by rewrite Z.compare_refl. Qed.

(** Fields of equal width compare one after the other. *)
Lemma lex_app a b r s : length a = length b → lex (a ++ r) (b ++ s) = then_cmp (lex a b) (lex r s).
Proof.
  revert b. induction a as [|x a IH]; intros [|y b] Hl; simplify_eq/=; [done|].
  destruct (x ?= y); [by apply IH|done..].
Qed.

(** Big-endian order is numeric order. *)
Lemma lex_be_bytes n x y :
  0 <= x < 256 ^ Z.of_nat n → 0 <= y < 256 ^ Z.of_nat n →
  lex (be_bytes n x) (be_bytes n y) = (x ?= y).
Proof.
  revert x y. induction n as [|n IH]; intros x y Hx Hy.
  { simpl in *. replace x with 0 by lia. replace y with 0 by lia. done. }
  cbn [be_bytes lex]. rewrite pow256_S in *. pose proof (pow256_pos n) as Hp.
  set (p := 256 ^ Z.of_nat n) in *.
  rewrite !(Z.mod_small (_ / p)) by (split; [apply Z.div_pos; lia|apply Z.div_lt_upper_bound; lia]).
  rewrite <-(be_bytes_mod n x), <-(be_bytes_mod n y). fold p.
  rewrite IH by (apply Z.mod_pos_bound; lia).
  pose proof (Z.div_mod x p). pose proof (Z.div_mod y p).
  pose proof (Z.mod_pos_bound x p). pose proof (Z.mod_pos_bound y p).
  destruct (Z.compare_spec (x / p) (y / p)) as [E|E|E].
  - destruct (Z.compare_spec (x mod p) (y mod p)), (Z.compare_spec x y); try done; exfalso; nia.
  - symmetry. apply Z.compare_lt_iff. nia.
  - symmetry. apply Z.compare_gt_iff. nia.
Qed.
