(* ===== verification/Cursor.v ===== *)
(** * Ordered tables

    A table of the storage backend is a finite map; a cursor walks its rows in
    the byte order of the encoded keys.  [rows] is the whole walk, [seek] the
    cursor position after [DbCursorRO::seek], and a scan loop is a recursion
    over the rows that remain ([first] is the head of [rows], [next] the tail). *)

From S2P Require Import Prelude.
From S2P Require Import Bytes.

Lemma lex_antisym a b : lex a b = CompOpp (lex b a).
Proof.
  revert b. induction a as [|x a IH]; intros [|y b]; simpl; try done.
  rewrite (Z.compare_antisym y x). destruct (y ?= x); simpl; auto.
Qed.

Lemma lex_trans_le a b c : lex a b ≠ Gt → lex b c ≠ Gt → lex a c ≠ Gt.
Proof.
  revert b c. induction a as [|x a IH]; intros [|y b] [|z c]; simpl; try done.
  destruct (Z.compare_spec x y), (Z.compare_spec y z), (Z.compare_spec x z); subst; try done; try lia.
  apply IH.
Qed.

Lemma lex_eq a b : lex a b = Eq → a = b.
Proof.
  revert b. induction a as [|x a IH]; intros [|y b]; simpl; try done.
  destruct (Z.compare_spec x y); try done. intros ?%IH. congruence.
Qed.

Lemma lex_trans_lt a b c : lex a b ≠ Gt → lex b c = Lt → lex a c = Lt.
Proof.
  revert b c. induction a as [|x a IH]; intros [|y b] [|z c]; simpl; try done.
  destruct (Z.compare_spec x y), (Z.compare_spec y z), (Z.compare_spec x z); subst; try done; try lia.
  apply IH.
Qed.

(** A loop that pushes rows while [p] holds. *)
Fixpoint take_while {A} (p : A → bool) (l : list A) : list A :=
  match l with
  | [] => []
  | x :: l => if p x then x :: take_while p l else []
  end.

(** The same loop, leaving once [max] rows are collected. *)
Fixpoint collect_up_to {A} (p : A → bool) (max : Z) (acc : list A) (l : list A) : list A :=
  match l with
  | [] => acc
  | x :: l =>
      if p x then
        let acc := acc ++ [x] in
        if decide (max <= Z.of_nat (length acc)) then acc else collect_up_to p max acc l
      else acc
  end.

Section cursor.
Context {K V : Type} `{Countable K} (enc : K → list Z).

Definition row_le (a b : K * V) : Prop := lex (enc a.1) (enc b.1) ≠ Gt.

#[global] Instance row_le_dec : RelDecision row_le.
Proof. intros a b. unfold row_le. destruct (lex _ _); [left|left|right]; congruence. Defined.

Definition rows (m : gmap K V) : list (K * V) := merge_sort row_le (map_to_list m).

Fixpoint seek (k : K) (l : list (K * V)) : list (K * V) :=
  match l with
  | [] => []
  | r :: rest => match lex (enc r.1) (enc k) with Lt => seek k rest | _ => l end
  end.

#[global] Instance row_le_total : Total row_le.
Proof.
  intros a b. unfold row_le. rewrite (lex_antisym (enc b.1)).
  destruct (lex (enc a.1) (enc b.1)); simpl; [left|left|right]; done.
Qed.

#[global] Instance row_le_trans : Transitive row_le.
Proof. intros a b c. apply lex_trans_le. Qed.

Lemma rows_perm m : rows m ≡ₚ map_to_list m.
Proof. apply merge_sort_Permutation. Qed.

Lemma rows_sorted m : StronglySorted row_le (rows m).
Proof. apply StronglySorted_merge_sort; apply _. Qed.

Lemma elem_of_rows m k v : (k, v) ∈ rows m ↔ m !! k = Some v.
Proof. rewrite rows_perm. apply elem_of_map_to_list. Qed.

Lemma rows_NoDup m : NoDup (rows m).*1.
Proof. rewrite rows_perm. apply NoDup_fst_map_to_list. Qed.

Lemma rows_length m : length (rows m) = size m.
Proof. rewrite rows_perm. apply length_map_to_list. Qed.

(** A scan of one value of a leading key field, started at its least key,
    visits exactly the rows with that value. *)
Lemma prefix_scan (f : K → Z) (t : Z) (k0 : K) (l : list (K * V)) :
  StronglySorted row_le l →
  (∀ r s, r ∈ l → s ∈ l → row_le r s → f r.1 <= f s.1) →
  (∀ r, r ∈ l → lex (enc r.1) (enc k0) = Lt ↔ f r.1 < t) →
  take_while (λ r, bool_decide (f r.1 = t)) (seek k0 l) = filter (λ r, f r.1 = t) l.
Proof.
  induction 1 as [|r l Hs IH Hr]; intros Hmono Hk0; simpl; [done|].
  assert (IH' : take_while (λ r, bool_decide (f r.1 = t)) (seek k0 l) = filter (λ r, f r.1 = t) l).
  { apply IH; intros; [apply Hmono|apply Hk0]; set_solver. }
  pose proof (Hk0 r ltac:(set_solver)) as Hr0.
  destruct (lex (enc r.1) (enc k0)) eqn:E.
  2:{ rewrite filter_cons_False; [done|]. assert (f r.1 < t) by tauto. lia. }
  all: simpl; case_bool_decide as Ht;
    [rewrite filter_cons_True by done; f_equal; rewrite <-IH'|
     rewrite filter_cons_False by done].
  (* in the range: the rest continues from here *)
  1,3: destruct l as [|s l]; [done|]; simpl;
    assert (¬ f s.1 < t) by (rewrite <-Ht; enough (f r.1 <= f s.1) by lia;
      apply Hmono; [set_solver|set_solver|inv Hr; done]);
    pose proof (Hk0 s ltac:(set_solver)) as Hs0;
    destruct (lex (enc s.1) (enc k0)); [done|tauto|done].
  (* past the range: everything after is past it too *)
  all: symmetry; apply filter_none; intros s Hin; assert (f r.1 <= f s.1) by
      (apply Hmono; [set_solver|set_solver|by rewrite Forall_forall in Hr; apply Hr]);
    assert (¬ f r.1 < t) by (rewrite <-Hr0; done); lia.
Qed.

(** Seeking drops exactly the rows below the key. *)
Lemma seek_filter k l :
  StronglySorted row_le l → seek k l = filter (λ r, lex (enc r.1) (enc k) ≠ Lt) l.
Proof.
  induction 1 as [|r l _ IH Hr]; simpl; [done|].
  destruct (lex (enc r.1) (enc k)) eqn:E.
  2:{ rewrite filter_cons_False; [done|]. congruence. }
  all: symmetry; apply filter_all; intros s [->|Hs]%elem_of_cons; [congruence|]; intros Hlt;
    rewrite Forall_forall in Hr; apply (lex_trans_lt (enc r.1)) in Hlt; [congruence|by apply Hr].
Qed.
End cursor.

Lemma take_while_ext {A} (p q : A → bool) l : (∀ x, p x = q x) → take_while p l = take_while q l.
Proof. intros Hpq. induction l as [|x l IH]; simpl; [done|]. by rewrite Hpq, IH. Qed.

Lemma collect_up_to_spec {A} (p : A → bool) max l : ∀ acc,
  Z.of_nat (length acc) < max →
  collect_up_to p max acc l = acc ++ take (Z.to_nat max - length acc) (take_while p l).
Proof.
  induction l as [|x l IH]; intros acc Hacc; simpl; [by rewrite take_nil, app_nil_r|].
  destruct (p x); [|by rewrite take_nil, app_nil_r].
  rewrite length_app; simpl. case_decide as Hm.
  - replace (Z.to_nat max - length acc)%nat with 1%nat by lia. by destruct (take_while p l).
  - rewrite IH by (rewrite length_app; simpl; lia). rewrite length_app, <-app_assoc; simpl.
    by replace (Z.to_nat max - length acc)%nat with (S (Z.to_nat max - (length acc + 1)))%nat by lia.
Qed.

(** A downward-closed condition on a sorted list cuts off a prefix. *)
Lemma take_while_sorted {A} (R : A → A → Prop) (p : A → bool) l :
  StronglySorted R l → (∀ x y, x ∈ l → y ∈ l → R x y → p y = true → p x = true) →
  take_while p l = filter (λ x, p x = true) l.
Proof.
  induction 1 as [|x l _ IH Hx]; intros Hp; simpl; [done|].
  destruct (p x) eqn:E.
  - rewrite filter_cons_True by done. f_equal. apply IH. intros a b Ha Hb. apply Hp; by right.
  - rewrite filter_cons_False by congruence. symmetry. apply filter_none. intros y Hy Hpy.
    rewrite Forall_forall in Hx. rewrite (Hp x y) in E; [done|left|by right|by apply Hx|done].
Qed.
