(* ===== verification/Postage.v ===== *)
(** * Postage: stamp slots, arbitration, admission and the batch set

    Models [crates/swarm/postage/src/]: the stamp-index arbiter
    ([stampindex.rs]: newest timestamp wins per [(batch, stampIndex)] slot),
    the synchronous admission checks ([admission.rs]) and the persisted batch
    set with its chain-event ingest ([store.rs]).

    Stamps and batches are types of [nectar_postage]; what the sources use of a
    batch (usability, expiry, index and bucket checks, signature verification)
    is the class [PostageEnv].  Hashes, addresses and batch ids are 32-byte big-endian
    numbers. *)

From S2P Require Import Prelude.
From S2P Require Import Bytes.
From S2P Require Import Cursor.

Abbreviation BatchId := Z (only parsing).
Abbreviation B256 := Z (only parsing).
Abbreviation ChunkAddress := Z (only parsing).

(** [nectar_postage::Stamp]: the fields the sources read. *)
Record Stamp := mkStamp {
  st_batch : BatchId;
  st_index : Z;
  st_timestamp : Z;
  st_sig : list Z;
}.

#[global] Instance Stamp_eq_dec : EqDecision Stamp.
Proof. solve_decision. Defined.

(** ** Slot keys *)

Record StampSlotKey := mkSlot { sk_batch : BatchId; sk_index : Z }.

#[global] Instance StampSlotKey_eq_dec : EqDecision StampSlotKey.
Proof. solve_decision. Defined.
#[global] Instance StampSlotKey_countable : Countable StampSlotKey.
Proof.
  refine (inj_countable' (λ k, (sk_batch k, sk_index k)) (λ '(b, i), mkSlot b i) _).
  by intros [].
Defined.

(** [[batch: 32][index_be8: 8]] *)
Definition slot_encode (k : StampSlotKey) : list Z :=
  be_bytes 32 (sk_batch k) ++ be_bytes 8 (sk_index k).

Definition slot_decode (value : list Z) : option StampSlotKey :=
  if decide (length value = 40%nat) then
    Some (mkSlot (of_be (take 32 value)) (of_be (drop 32 value)))
  else None.

(** ** The arbiter *)

(** The timestamp is kept as the eight raw big-endian bytes. *)
Record StampIndexEntry := mkIndexEntry {
  se_timestamp : list Z;
  se_hash : B256;
  se_address : ChunkAddress;
}.

#[global] Instance StampIndexEntry_eq_dec : EqDecision StampIndexEntry.
Proof. solve_decision. Defined.

Definition timestamp_u64 (e : StampIndexEntry) : Z := of_be (se_timestamp e).

Record IncomingStamp := mkIncoming {
  in_batch : BatchId;
  in_index : Z;
  in_timestamp : list Z;
  in_hash : B256;
  in_address : ChunkAddress;
}.

Definition incoming_slot (i : IncomingStamp) : StampSlotKey := mkSlot (in_batch i) (in_index i).

Definition incoming_entry (i : IncomingStamp) : StampIndexEntry :=
  mkIndexEntry (in_timestamp i) (in_hash i) (in_address i).

Record DisplacedEntry := mkDisplaced {
  de_address : ChunkAddress;
  de_hash : B256;
  de_timestamp : list Z;
}.

Inductive RejectReason := NotNewer (stored incoming : list Z).

Inductive Arbitration :=
| ArbAdmit (displaced : option DisplacedEntry)
| ArbReject (reason : RejectReason).

(** [prev.timestamp >= incoming.timestamp] on byte arrays. *)
Definition bytes_ge (a b : list Z) : bool := match lex a b with Lt => false | _ => true end.

Definition arb_decide (stored : option StampIndexEntry) (incoming : IncomingStamp) : Arbitration :=
  match stored with
  | None => ArbAdmit None
  | Some prev =>
      if bytes_ge (se_timestamp prev) (in_timestamp incoming) then
        ArbReject (NotNewer (se_timestamp prev) (in_timestamp incoming))
      else ArbAdmit (Some (mkDisplaced (se_address prev) (se_hash prev) (se_timestamp prev)))
  end.

Abbreviation StampIndexTable := (gmap StampSlotKey StampIndexEntry).

Definition arbitrate (t : StampIndexTable) (incoming : IncomingStamp) :
    Arbitration * StampIndexTable :=
  let slot := incoming_slot incoming in
  let verdict := arb_decide (t !! slot) incoming in
  match verdict with
  | ArbAdmit _ => (verdict, <[slot := incoming_entry incoming]> t)
  | ArbReject _ => (verdict, t)
  end.

Definition arbiter_get (t : StampIndexTable) (slot : StampSlotKey) : option StampIndexEntry :=
  t !! slot.

(** ** Admission *)

(** The errors of [nectar_postage] the sources tell apart. *)
Inductive StampError :=
| StampOwnerMismatch (expected actual : Z)
| StampInvalidIndex
| StampBucketFull
| StampInvalidSignature
| StampOther (reason : string).

Inductive AdmissionError :=
| UnknownBatch (b : BatchId)
| BatchNotUsable
| BatchExpired
| OwnerMismatch
| AdmStamp (e : StampError).

(** What the sources use of [nectar_postage]'s batches and chain context. *)
Class PostageEnv := {
  Batch : Type;
  PostageContext : Type;
  default_context : PostageContext;
  ctx_block : PostageContext → Z;
  ctx_total : PostageContext → Z;
  batch_id : Batch → BatchId;
  batch_value : Batch → Z;
  set_value : Z → Batch → Batch;
  set_depth : Z → Batch → Batch;
  is_usable : Batch → Z → Z → bool;
  is_expired : Batch → Z → bool;
  validate_index : Batch → Z → result StampError unit;
  validate_bucket : Batch → Z → ChunkAddress → result StampError unit;
  owner : Batch → Z;
  verify : Stamp → ChunkAddress → Z → result StampError unit;
}.

Section postage.
Context {PE : PostageEnv}.

Definition validate (confirmation_threshold : Z) (stamp : Stamp) (address : ChunkAddress)
    (batch : Batch) (context : PostageContext) : result AdmissionError unit :=
  if negb (is_usable batch (ctx_block context) confirmation_threshold) then Err BatchNotUsable
  else if is_expired batch (ctx_total context) then Err BatchExpired
  else
    _ ← map_err AdmStamp (validate_index batch (st_index stamp));
    _ ← map_err AdmStamp (validate_bucket batch (st_index stamp) address);
    match verify stamp address (owner batch) with
    | Ok _ => Ok tt
    | Err (StampOwnerMismatch _ _) => Err OwnerMismatch
    | Err e => Err (AdmStamp e)
    end.

(** Admission means every check passed. *)
Lemma validate_ok threshold stamp address batch context :
  validate threshold stamp address batch context = Ok tt →
  is_usable batch (ctx_block context) threshold = true ∧
  is_expired batch (ctx_total context) = false ∧
  validate_index batch (st_index stamp) = Ok tt ∧
  validate_bucket batch (st_index stamp) address = Ok tt ∧
  verify stamp address (owner batch) = Ok tt.
Proof.
  unfold validate. destruct (is_usable _ _ _); [|done]. destruct (is_expired _ _); [done|]. simpl.
  destruct (validate_index _ _) as [[]|]; [|done]. simpl.
  destruct (validate_bucket _ _ _) as [[]|]; [|done]. simpl.
  destruct (verify _ _ _) as [[]|[]]; done.
Qed.
(** ** The batch set *)

Record DbBatchStore := mkBatchStore {
  bs_batches : gmap Z Batch;
  bs_context : option PostageContext;
}.

Inductive BatchEvent :=
| BatchCreated (batch : Batch)
| BatchTopUp (id : BatchId) (new_value : Z)
| BatchDepthIncrease (id : BatchId) (new_depth : Z)
| BatchExpiredEv (id : BatchId).

Definition bs_get (s : DbBatchStore) (id : BatchId) : option Batch := bs_batches s !! id.

Definition bs_put (s : DbBatchStore) (batch : Batch) : DbBatchStore :=
  mkBatchStore (<[batch_id batch := batch]> (bs_batches s)) (bs_context s).

Definition bs_remove (s : DbBatchStore) (id : BatchId) : bool * DbBatchStore :=
  (bool_decide (is_Some (bs_batches s !! id)),
   mkBatchStore (delete id (bs_batches s)) (bs_context s)).

Definition bs_contains (s : DbBatchStore) (id : BatchId) : bool :=
  bool_decide (is_Some (bs_batches s !! id)).

Definition bs_get_context (s : DbBatchStore) : PostageContext :=
  default default_context (bs_context s).

Definition bs_set_context (s : DbBatchStore) (c : PostageContext) : DbBatchStore :=
  mkBatchStore (bs_batches s) (Some c).

(** The keys in cursor order. *)
Definition bs_batch_ids (s : DbBatchStore) : list BatchId := (rows (be_bytes 32) (bs_batches s)).*1.

Definition bs_count (s : DbBatchStore) : Z := Z.of_nat (size (bs_batches s)).

Definition mutate_sync (s : DbBatchStore) (id : BatchId) (mutate : Batch → Batch) : DbBatchStore :=
  match bs_batches s !! id with
  | Some batch => mkBatchStore (<[id := mutate batch]> (bs_batches s)) (bs_context s)
  | None => s
  end.

Definition acknowledge_expired (s : DbBatchStore) (id : BatchId) : bool * DbBatchStore :=
  bs_remove s id.

Definition bs_handle_event (s : DbBatchStore) (event : BatchEvent) : DbBatchStore :=
  match event with
  | BatchCreated batch => bs_put s batch
  | BatchTopUp id new_value => mutate_sync s id (set_value new_value)
  | BatchDepthIncrease id new_depth => mutate_sync s id (set_depth new_depth)
  | BatchExpiredEv id => (acknowledge_expired s id).2
  end.

(** An event touches its own batch only, and leaves the context alone. *)
Lemma bs_handle_event_frame s event id :
  match event with
  | BatchCreated b => batch_id b ≠ id
  | BatchTopUp i _ | BatchDepthIncrease i _ | BatchExpiredEv i => i ≠ id
  end →
  bs_get (bs_handle_event s event) id = bs_get s id ∧
  bs_context (bs_handle_event s event) = bs_context s.
Proof.
  unfold bs_get. destruct event as [b|i v|i v|i]; simpl; intros Hne.
  - by rewrite lookup_insert_ne.
  - unfold mutate_sync. destruct (bs_batches s !! i); simpl; [|done]. by rewrite lookup_insert_ne.
  - unfold mutate_sync. destruct (bs_batches s !! i); simpl; [|done]. by rewrite lookup_insert_ne.
  - by rewrite lookup_delete_ne.
Qed.
End postage.

(** ** Lemmas *)

(** A 32-byte field, and a [u64] timestamp in its raw form. *)
Definition is_b256 (x : Z) : Prop := 0 <= x < 256 ^ 32.
Definition is_ts (l : list Z) (t : Z) : Prop := l = be_bytes 8 t ∧ 0 <= t < 256 ^ 8.

(** The raw comparison is the comparison of the timestamps. *)
Lemma bytes_ge_spec a b ta tb :
  is_ts a ta → is_ts b tb → bytes_ge a b = bool_decide (tb <= ta).
Proof.
  intros [-> Ha] [-> Hb]. unfold bytes_ge. rewrite lex_be_bytes by done.
  destruct (Z.compare_spec ta tb); symmetry; apply bool_decide_eq_true || apply bool_decide_eq_false; lia.
Qed.

Lemma slot_decode_encode k :
  is_b256 (sk_batch k) → 0 <= sk_index k < 256 ^ 8 → slot_decode (slot_encode k) = Some k.
Proof.
  intros Hb Hi. unfold slot_decode, slot_encode.
  rewrite length_app, !be_bytes_length, decide_True by done.
  rewrite take_app_length', drop_app_length' by (by rewrite be_bytes_length).
  rewrite !of_be_bytes_id by done. by destruct k.
Qed.

(** ** Properties *)

(** Arbitrating a sequence of stamps in order. *)
Definition arbitrate_all (t : StampIndexTable) (l : list IncomingStamp) : StampIndexTable :=
  foldl (λ t i, (arbitrate t i).2) t l.

Definition incoming_ok (i : IncomingStamp) : Prop := ∃ t, is_ts (in_timestamp i) t.

(** [e] is the stamp the slot must hold after [l]: some stamp of the slot that
    is strictly newer than those before it and at least as new as all. *)
Definition newest_for (slot : StampSlotKey) (l : list IncomingStamp) (i : IncomingStamp) : Prop :=
  ∃ pre post, l = pre ++ i :: post ∧ incoming_slot i = slot ∧
    (∀ j, j ∈ pre → incoming_slot j = slot → of_be (in_timestamp j) < of_be (in_timestamp i)) ∧
    (∀ j, j ∈ post → incoming_slot j = slot → of_be (in_timestamp j) <= of_be (in_timestamp i)).

Lemma is_ts_of_be l t : is_ts l t → of_be l = t.
Proof. intros [-> ?]. by apply of_be_bytes_id. Qed.

Lemma arbitrate_step t i slot :
  arbiter_get (arbitrate t i).2 slot =
  if decide (incoming_slot i = slot) then
    match arbiter_get t slot with
    | Some prev => if bytes_ge (se_timestamp prev) (in_timestamp i) then Some prev
                   else Some (incoming_entry i)
    | None => Some (incoming_entry i)
    end
  else arbiter_get t slot.
Proof.
  unfold arbitrate, arbiter_get, arb_decide. case_decide as Hs; subst.
  - destruct (t !! incoming_slot i) as [prev|] eqn:E; simpl; [|by rewrite lookup_insert_eq].
    destruct (bytes_ge _ _); simpl; [done|]. by rewrite lookup_insert_eq.
  - destruct (t !! incoming_slot i) as [prev|] eqn:E; simpl; [|by rewrite lookup_insert_ne].
    destruct (bytes_ge _ _); simpl; [done|]. by rewrite lookup_insert_ne.
Qed.

(** Newest timestamp wins, first presentation wins ties.  After any
    sequence of stamps is arbitrated, a slot holds the entry of the stamp that
    is strictly newer than every earlier stamp of that slot and at least as new
    as every later one; a slot nobody stamped is empty.  So the outcome does
    not depend on stale re-presentations or on other slots. *)
Theorem arbitration_newest_wins l slot :
  Forall incoming_ok l →
  match arbiter_get (arbitrate_all ∅ l) slot with
  | Some e => ∃ i, e = incoming_entry i ∧ newest_for slot l i
  | None => ∀ i, i ∈ l → incoming_slot i ≠ slot
  end.
Proof.
  unfold arbitrate_all. induction l as [|i l IH] using rev_ind; intros Hl.
  { unfold arbiter_get; simpl. rewrite lookup_empty. intros i Hi. by apply not_elem_of_nil in Hi. }
  apply Forall_app in Hl as [Hl Hi]. inv Hi. specialize (IH Hl).
  rewrite foldl_app; simpl. rewrite arbitrate_step.
  set (t := foldl _ _ l) in *. case_decide as Hs; subst.
  - destruct (arbiter_get t (incoming_slot i)) as [prev|].
    + destruct IH as (j&->&(pre&post&->&Hj&Hpre&Hpost)). simpl.
      assert (incoming_ok j) as [tj Hj'] by (rewrite Forall_app, Forall_cons in Hl; tauto).
      destruct H1 as [ti Hti]. rewrite (bytes_ge_spec _ _ tj ti) by done.
      rewrite (is_ts_of_be _ _ Hj') in *.
      case_bool_decide as Hle.
      * exists j. split; [done|]. exists pre, (post ++ [i]). rewrite <-app_assoc. split_and!; try done.
        -- by rewrite (is_ts_of_be _ _ Hj').
        -- rewrite (is_ts_of_be _ _ Hj'). intros k [Hk|Hk]%elem_of_app Hks; [by apply Hpost|].
           apply list_elem_of_singleton in Hk as ->. by rewrite (is_ts_of_be _ _ Hti).
      * exists i. split; [done|]. eexists _, []. split; [done|]. split; [done|].
        rewrite (is_ts_of_be _ _ Hti). split; [|intros k Hk; by apply not_elem_of_nil in Hk].
        intros k [Hk|[->|Hk]%elem_of_cons]%elem_of_app Hks.
        -- specialize (Hpre k Hk Hks). lia.
        -- rewrite (is_ts_of_be _ _ Hj'). lia.
        -- specialize (Hpost k Hk Hks). lia.
    + exists i. split; [done|]. exists l, []. split_and!; try done.
      * intros k Hk Hks. by destruct (IH k Hk).
      * intros k Hk; by apply not_elem_of_nil in Hk.
  - destruct (arbiter_get t slot) as [prev|].
    + destruct IH as (j&->&(pre&post&->&Hj&Hpre&Hpost)). exists j. split; [done|].
      exists pre, (post ++ [i]). rewrite <-app_assoc. split_and!; try done.
      intros k [Hk|Hk]%elem_of_app Hks; [by apply Hpost|].
      by apply list_elem_of_singleton in Hk as ->.
    + intros k [Hk|Hk]%elem_of_app; [by apply IH|]. by apply list_elem_of_singleton in Hk as ->.
Qed.

Definition sample_stamps : list IncomingStamp :=
  [mkIncoming 1 0 (be_bytes 8 300) 11 101; mkIncoming 1 0 (be_bytes 8 299) 12 102;
   mkIncoming 1 1 (be_bytes 8 7) 13 103; mkIncoming 1 0 (be_bytes 8 300) 14 104].

Lemma arbitration_newest_wins_witness :
  match arbiter_get (arbitrate_all ∅ sample_stamps) (mkSlot 1 0) with
  | Some e => ∃ i, e = incoming_entry i ∧ newest_for (mkSlot 1 0) sample_stamps i
  | None => ∀ i, i ∈ sample_stamps → incoming_slot i ≠ mkSlot 1 0
  end.
Proof.
  apply (arbitration_newest_wins sample_stamps (mkSlot 1 0)).
  repeat constructor; eexists; (split; [reflexivity|]); lia.
Defined.
