(* ===== verification/ReserveTx.v ===== *)
(** * The reserve's tables and transaction primitives

    Models [crates/swarm/storer/src/db_reserve/schema.rs] (the six tables,
    their keys and codecs) and [tx.rs] (refcounting and entry deletion inside a
    transaction), with the invariant that ties the tables together.

    [ReserveEnv] carries what comes from elsewhere: the proximity and bin of an
    address to the node's overlay ([nectar_primitives]), keccak, the stamp codec
    ([nectar_postage]), and chunks with their type-tagged byte form
    ([AnyChunk]).  [ReserveEnvLaws] states what
    is documented of them. *)

From S2P Require Import Prelude.
From S2P Require Import Bytes.
From S2P Require Import Postage.
From S2P Require Import Cursor.

Class ReserveEnv := {
  po_of : ChunkAddress → Z;
  bin_of : ChunkAddress → Z;
  keccak256 : list Z → B256;
  stamp_to_bytes : Stamp → list Z;
  stamp_from_bytes : list Z → option Stamp;
  AnyChunk : Type;
  any_address : AnyChunk → ChunkAddress;
  any_type : AnyChunk → Z;
  any_to_bytes : AnyChunk → list Z;
  any_from_bytes : ChunkAddress → list Z → option AnyChunk;
}.

(** ** Schema *)

Record EntryKey := mkEntryKey {
  ek_po : Z;
  ek_batch : BatchId;
  ek_hash : B256;
  ek_addr : ChunkAddress;
}.

Record EntryValue := mkEntryValue { ev_bin : Z; ev_binid : Z; ev_stamp : list Z }.

Record BatchGroupKey := mkGroupKey {
  gk_batch : BatchId;
  gk_po : Z;
  gk_addr : ChunkAddress;
  gk_hash : B256;
}.

Record ReplayKey := mkReplayKey { rk_bin : Z; rk_binid : Z }.

Record ReplayValue := mkReplayValue {
  rv_address : ChunkAddress;
  rv_batch : BatchId;
  rv_hash : B256;
  rv_type : Z;
}.

Record PayloadValue := mkPayload { pv_refcnt : Z; pv_bytes : list Z }.

#[global] Instance EntryKey_eq_dec : EqDecision EntryKey.
Proof. solve_decision. Defined.
#[global] Instance EntryKey_countable : Countable EntryKey.
Proof.
  refine (inj_countable' (λ k, (ek_po k, ek_batch k, ek_hash k, ek_addr k))
            (λ '(p, b, h, a), mkEntryKey p b h a) _). by intros [].
Defined.
#[global] Instance BatchGroupKey_eq_dec : EqDecision BatchGroupKey.
Proof. solve_decision. Defined.
#[global] Instance BatchGroupKey_countable : Countable BatchGroupKey.
Proof.
  refine (inj_countable' (λ k, (gk_batch k, gk_po k, gk_addr k, gk_hash k))
            (λ '(b, p, a, h), mkGroupKey b p a h) _). by intros [].
Defined.
#[global] Instance ReplayKey_eq_dec : EqDecision ReplayKey.
Proof. solve_decision. Defined.
#[global] Instance ReplayKey_countable : Countable ReplayKey.
Proof.
  refine (inj_countable' (λ k, (rk_bin k, rk_binid k)) (λ '(b, i), mkReplayKey b i) _). by intros [].
Defined.

(** [[po: 1][batch: 32][stampHash: 32][addr: 32]] *)
Definition entry_encode (k : EntryKey) : list Z :=
  be_bytes 1 (ek_po k) ++ be_bytes 32 (ek_batch k) ++ be_bytes 32 (ek_hash k) ++ be_bytes 32 (ek_addr k).

Definition entry_decode (value : list Z) : option EntryKey :=
  if decide (length value = 97%nat) then
    Some (mkEntryKey (of_be (take 1 value)) (of_be (take 32 (drop 1 value)))
            (of_be (take 32 (drop 33 value))) (of_be (drop 65 value)))
  else None.

(** [[batch: 32][po: 1][addr: 32][stampHash: 32]] *)
Definition group_encode (k : BatchGroupKey) : list Z :=
  be_bytes 32 (gk_batch k) ++ be_bytes 1 (gk_po k) ++ be_bytes 32 (gk_addr k) ++ be_bytes 32 (gk_hash k).

Definition group_decode (value : list Z) : option BatchGroupKey :=
  if decide (length value = 97%nat) then
    Some (mkGroupKey (of_be (take 32 value)) (of_be (take 1 (drop 32 value)))
            (of_be (take 32 (drop 33 value))) (of_be (drop 65 value)))
  else None.

(** [[bin: 1][binid: 8]] *)
Definition replay_encode (k : ReplayKey) : list Z := be_bytes 1 (rk_bin k) ++ be_bytes 8 (rk_binid k).

Definition replay_decode (value : list Z) : option ReplayKey :=
  if decide (length value = 9%nat) then
    Some (mkReplayKey (of_be (take 1 value)) (of_be (drop 1 value)))
  else None.

Record ReserveDb := mkDb {
  db_payload : gmap Z PayloadValue;
  db_entry : gmap EntryKey EntryValue;
  db_group : gmap BatchGroupKey unit;
  db_replay : gmap ReplayKey ReplayValue;
  db_counter : gmap Z Z;
  db_slots : StampIndexTable;
}.

Definition db_empty : ReserveDb := mkDb ∅ ∅ ∅ ∅ ∅ ∅.

Record EvictTarget := mkTarget {
  tg_batch : BatchId;
  tg_hash : B256;
  tg_addr : ChunkAddress;
}.

Section tx.
Context {RE : ReserveEnv}.

Definition stamp_hash (stamp : Stamp) : B256 := keccak256 (stamp_to_bytes stamp).

Definition decode_stamp (bytes : list Z) : option Stamp := stamp_from_bytes bytes.

(** ** Transaction primitives *)

Definition bump_or_insert_payload (address : ChunkAddress) (typed_bytes : list Z)
    (p : gmap Z PayloadValue) : gmap Z PayloadValue :=
  match p !! address with
  | Some v => <[address := mkPayload (pv_refcnt v + 1) (pv_bytes v)]> p
  | None => <[address := mkPayload 1 typed_bytes]> p
  end.

Definition dec_payload (address : ChunkAddress) (p : gmap Z PayloadValue) : gmap Z PayloadValue :=
  match p !! address with
  | Some v =>
      if decide (pv_refcnt v <= 1) then delete address p
      else <[address := mkPayload (pv_refcnt v - 1) (pv_bytes v)]> p
  | None => p
  end.

Definition target_key (po : Z) (t : EvictTarget) : EntryKey :=
  mkEntryKey po (tg_batch t) (tg_hash t) (tg_addr t).

Definition delete_entry_rows_in_tx (po : Z) (t : EvictTarget) (db : ReserveDb) : bool * ReserveDb :=
  match db_entry db !! target_key po t with
  | None => (false, db)
  | Some value =>
      (true,
       mkDb (dec_payload (tg_addr t) (db_payload db))
         (delete (target_key po t) (db_entry db))
         (delete (mkGroupKey (tg_batch t) po (tg_addr t) (tg_hash t)) (db_group db))
         (delete (mkReplayKey (ev_bin value) (ev_binid value)) (db_replay db))
         (db_counter db) (db_slots db))
  end.

Definition delete_entry_in_tx (t : EvictTarget) (db : ReserveDb) : bool * ReserveDb :=
  let po := po_of (tg_addr t) in
  let slot :=
    value ← db_entry db !! target_key po t;
    stamp ← decode_stamp (ev_stamp value);
    Some (mkSlot (st_batch stamp) (st_index stamp)) in
  let '(removed, db) := delete_entry_rows_in_tx po t db in
  match removed, slot with
  | true, Some slot =>
      match db_slots db !! slot with
      | Some occupant =>
          if decide (se_hash occupant = tg_hash t) then
            (removed, mkDb (db_payload db) (db_entry db) (db_group db) (db_replay db)
                        (db_counter db) (delete slot (db_slots db)))
          else (removed, db)
      | None => (removed, db)
      end
  | _, _ => (removed, db)
  end.

(** The big-endian timestamp at bytes 40..48 of a stamp encoding. *)
Definition stamp_timestamp (bytes : list Z) : Z :=
  let s := take 8 (drop 40 bytes) in
  if decide (length s = 8%nat) then of_be s else 0.

(** ** What the tables mean together *)

(** The fixed-width fields of a stamp are in range. *)
Definition stamp_ok (s : Stamp) : Prop :=
  is_b256 (st_batch s) ∧ 0 <= st_index s < 256 ^ 8 ∧ 0 <= st_timestamp s < 256 ^ 8.

(** How many entries reference an address. *)
Definition refs (a : ChunkAddress) (m : gmap EntryKey EntryValue) : Z :=
  map_sumZ (λ k _, if decide (ek_addr k = a) then 1 else 0) m.

Definition group_of (k : EntryKey) : BatchGroupKey :=
  mkGroupKey (ek_batch k) (ek_po k) (ek_addr k) (ek_hash k).

(** A stored body is the byte form of a chunk of that address. *)
Definition body_ok (p : gmap Z PayloadValue) : Prop :=
  ∀ a v, p !! a = Some v → ∃ c, any_address c = a ∧ pv_bytes v = any_to_bytes c.

(** The entry [k ↦ v] and its rows in the other tables. *)
Record entry_ok (db : ReserveDb) (k : EntryKey) (v : EntryValue) : Prop := {
  eo_po : ek_po k = po_of (ek_addr k);
  eo_bin : ev_bin v = bin_of (ek_addr k);
  eo_binid : 1 <= ev_binid v <= default 0 (db_counter db !! ev_bin v);
  eo_batch : is_b256 (ek_batch k);
  eo_group : db_group db !! group_of k = Some tt;
  eo_replay : ∃ ty, db_replay db !! mkReplayKey (ev_bin v) (ev_binid v) =
    Some (mkReplayValue (ek_addr k) (ek_batch k) (ek_hash k) ty);
  eo_stamp : ∃ s, decode_stamp (ev_stamp v) = Some s ∧ stamp_hash s = ek_hash k ∧
    st_batch s = ek_batch k ∧ (ev_stamp v = stamp_to_bytes s ∧ stamp_ok s) ∧
    db_slots db !! mkSlot (st_batch s) (st_index s) =
      Some (mkIndexEntry (be_bytes 8 (st_timestamp s)) (ek_hash k) (ek_addr k));
}.

Record db_ok (db : ReserveDb) : Prop := {
  do_entry : ∀ k v, db_entry db !! k = Some v → entry_ok db k v;
  do_group : ∀ g u, db_group db !! g = Some u →
    is_Some (db_entry db !! mkEntryKey (gk_po g) (gk_batch g) (gk_hash g) (gk_addr g));
  do_replay : ∀ r w, db_replay db !! r = Some w →
    ∃ v, db_entry db !! mkEntryKey (po_of (rv_address w)) (rv_batch w) (rv_hash w) (rv_address w) = Some v ∧
      ev_bin v = rk_bin r ∧ ev_binid v = rk_binid r;
  do_slot : ∀ sl e, db_slots db !! sl = Some e →
    ∃ v s, db_entry db !! mkEntryKey (po_of (se_address e)) (sk_batch sl) (se_hash e) (se_address e) = Some v ∧
      decode_stamp (ev_stamp v) = Some s ∧ st_batch s = sk_batch sl ∧ st_index s = sk_index sl;
  do_payload : ∀ a, match db_payload db !! a with
    | Some p => pv_refcnt p = refs a (db_entry db) ∧ 1 <= pv_refcnt p
    | None => refs a (db_entry db) = 0
    end;
  do_counter : ∀ b c, db_counter db !! b = Some c → 0 <= c <= 2 ^ 64 - 1;
  do_body : body_ok (db_payload db);
}.
End tx.

Class ReserveEnvLaws `{RE : ReserveEnv} : Prop := {
  po_range a : 0 <= po_of a < 256;
  po_max a : po_of a <= 31;
  bin_range a : 0 <= bin_of a < 256;
  keccak_stamps s t : stamp_ok s → stamp_ok t →
    keccak256 (stamp_to_bytes s) = keccak256 (stamp_to_bytes t) → stamp_to_bytes s = stamp_to_bytes t;
  stamp_round_trip s : stamp_ok s → stamp_from_bytes (stamp_to_bytes s) = Some s;
  timestamp_at_40 s : stamp_ok s → stamp_timestamp (stamp_to_bytes s) = st_timestamp s;
  any_round_trip c : any_from_bytes (any_address c) (any_to_bytes c) = Some c;
}.

(** ** Deleting and filling a slot *)

Section lemmas.
Context `{RL : ReserveEnvLaws}.

Lemma decode_encode s : stamp_ok s → decode_stamp (stamp_to_bytes s) = Some s.
Proof. apply stamp_round_trip. Qed.

Lemma stamp_hash_inj s t : stamp_ok s → stamp_ok t → stamp_hash s = stamp_hash t → s = t.
Proof.
  intros Hs Ht E. apply keccak_stamps in E; [|done..]. apply (f_equal decode_stamp) in E.
  rewrite !decode_encode in E by done. congruence.
Qed.

(** [db] is well-formed but for the slot [sl], which no entry claims. *)
Record hole_ok (sl : StampSlotKey) (db : ReserveDb) : Prop := {
  ho_entry : ∀ k v, db_entry db !! k = Some v → entry_ok db k v;
  ho_free : ∀ k v s, db_entry db !! k = Some v → decode_stamp (ev_stamp v) = Some s →
    mkSlot (st_batch s) (st_index s) ≠ sl;
  ho_group : ∀ g u, db_group db !! g = Some u →
    is_Some (db_entry db !! mkEntryKey (gk_po g) (gk_batch g) (gk_hash g) (gk_addr g));
  ho_replay : ∀ r w, db_replay db !! r = Some w →
    ∃ v, db_entry db !! mkEntryKey (po_of (rv_address w)) (rv_batch w) (rv_hash w) (rv_address w) = Some v ∧
      ev_bin v = rk_bin r ∧ ev_binid v = rk_binid r;
  ho_slot : ∀ sl' e, sl' ≠ sl → db_slots db !! sl' = Some e →
    ∃ v s, db_entry db !! mkEntryKey (po_of (se_address e)) (sk_batch sl') (se_hash e) (se_address e) = Some v ∧
      decode_stamp (ev_stamp v) = Some s ∧ st_batch s = sk_batch sl' ∧ st_index s = sk_index sl';
  ho_payload : ∀ a, match db_payload db !! a with
    | Some p => pv_refcnt p = refs a (db_entry db) ∧ 1 <= pv_refcnt p
    | None => refs a (db_entry db) = 0
    end;
  ho_counter : ∀ b c, db_counter db !! b = Some c → 0 <= c <= 2 ^ 64 - 1;
  ho_body : body_ok (db_payload db);
}.

Lemma refs_insert a m k v :
  m !! k = None → refs a (<[k := v]> m) = (if decide (ek_addr k = a) then 1 else 0) + refs a m.
Proof. intros Hk. unfold refs. by rewrite map_sumZ_insert. Qed.

Lemma refs_delete a m k v :
  m !! k = Some v → refs a (delete k m) = refs a m - (if decide (ek_addr k = a) then 1 else 0).
Proof. intros Hk. unfold refs. rewrite (map_sumZ_delete _ m k v Hk). lia. Qed.

Lemma refs_nonneg a m : 0 <= refs a m.
Proof. apply map_sumZ_nonneg. intros. case_decide; lia. Qed.

(** An entry is determined by its slot, and by its place in the replay log. *)
Lemma entry_slot_inj db k k' v v' s s' :
  entry_ok db k v → entry_ok db k' v' →
  decode_stamp (ev_stamp v) = Some s → decode_stamp (ev_stamp v') = Some s' →
  mkSlot (st_batch s) (st_index s) = mkSlot (st_batch s') (st_index s') → k = k'.
Proof.
  intros [Hp _ _ _ _ _ (s1&E1&Hh1&Hb1&_&Hs1)] [Hp' _ _ _ _ _ (s2&E2&Hh2&Hb2&_&Hs2)] D1 D2 Heq.
  simplify_eq. destruct k, k'; simpl in *. congruence.
Qed.

Lemma entry_replay_inj db k k' v v' :
  entry_ok db k v → entry_ok db k' v' →
  ev_bin v = ev_bin v' → ev_binid v = ev_binid v' → k = k'.
Proof.
  intros [Hp _ _ _ _ [ty Hr] _] [Hp' _ _ _ _ [ty' Hr'] _] E1 E2.
  rewrite E1, E2, Hr' in Hr. destruct k, k'; simpl in *. congruence.
Qed.

Lemma dec_payload_spec db k v a :
  (match db_payload db !! a with
   | Some p => pv_refcnt p = refs a (db_entry db) ∧ 1 <= pv_refcnt p
   | None => refs a (db_entry db) = 0
   end) →
  db_entry db !! k = Some v →
  match dec_payload (ek_addr k) (db_payload db) !! a with
  | Some p => pv_refcnt p = refs a (delete k (db_entry db)) ∧ 1 <= pv_refcnt p
  | None => refs a (delete k (db_entry db)) = 0
  end.
Proof.
  intros Ha Hk. rewrite (refs_delete a _ k v Hk). unfold dec_payload.
  pose proof (refs_nonneg a (delete k (db_entry db))) as Hnn. rewrite (refs_delete a _ k v Hk) in Hnn.
  destruct (decide (ek_addr k = a)) as [<-|Hne].
  - destruct (db_payload db !! ek_addr k) as [p|] eqn:Hp; [|lia].
    case_decide; [rewrite lookup_delete_eq; lia|]. rewrite lookup_insert_eq; simpl. lia.
  - rewrite Z.sub_0_r. destruct (db_payload db !! ek_addr k) as [p|]; [|done].
    case_decide; [by rewrite lookup_delete_ne|by rewrite lookup_insert_ne].
Qed.

Lemma body_ok_dec a p : body_ok p → body_ok (dec_payload a p).
Proof.
  intros Hp. unfold dec_payload. destruct (p !! a) as [v|] eqn:E; [|done]. case_decide.
  - intros b w [_ ?]%lookup_delete_Some. eauto.
  - intros b w [[<- <-]|[_ ?]]%lookup_insert_Some; [by apply (Hp _ _ E)|eauto].
Qed.

Lemma body_ok_bump c p :
  body_ok p → body_ok (bump_or_insert_payload (any_address c) (any_to_bytes c) p).
Proof.
  intros Hp. unfold bump_or_insert_payload. destruct (p !! any_address c) as [v|] eqn:E;
    intros b w [[<- <-]|[_ ?]]%lookup_insert_Some; eauto. by apply (Hp _ _ E).
Qed.

(** Deleting an entry's rows leaves a hole at its slot and nothing else. *)
Lemma delete_rows_hole db t v s :
  db_ok db → db_entry db !! target_key (po_of (tg_addr t)) t = Some v →
  decode_stamp (ev_stamp v) = Some s →
  ∃ db', delete_entry_rows_in_tx (po_of (tg_addr t)) t db = (true, db') ∧
    hole_ok (mkSlot (st_batch s) (st_index s)) db' ∧
    db_entry db' = delete (target_key (po_of (tg_addr t)) t) (db_entry db) ∧
    db_counter db' = db_counter db ∧ db_slots db' = db_slots db.
Proof.
  intros [He Hg Hr Hs Hp Hc Hb] Hk Hdec. unfold delete_entry_rows_in_tx. rewrite Hk.
  set (k := target_key (po_of (tg_addr t)) t) in *. eexists. split; [done|].
  assert (Hk' : ∀ k' v', delete k (db_entry db) !! k' = Some v' → k' ≠ k ∧ db_entry db !! k' = Some v').
  { intros k' v' [? ?]%lookup_delete_Some. split; congruence. }
  assert (Hkeep : ∀ k' v', db_entry db !! k' = Some v' → k' ≠ k → delete k (db_entry db) !! k' = Some v')
    by (intros; by rewrite lookup_delete_ne).
  split; [|done]. split; simpl.
  - intros k' v' [Hne Hin]%Hk'. destruct (He _ _ Hin) as [H1 H2 H3 H4 H5 H6 H7]. split; try done.
    + cbn. rewrite lookup_delete_ne; [done|]. intros Heq. apply Hne. destruct k' as [po' b' h' a'].
      unfold group_of in Heq; simpl in *. injection Heq as E1 E2 E3 E4. unfold k, target_key. congruence.
    + destruct H6 as [ty H6]. exists ty. cbn. rewrite lookup_delete_ne; [done|].
      intros [= E1 E2]. apply Hne. eapply entry_replay_inj; eauto.
  - intros k' v' s' [Hne Hin]%Hk' Hd Heq. apply Hne. eapply entry_slot_inj; eauto.
  - intros g u [Hne Hg']%lookup_delete_Some. destruct (Hg _ _ Hg') as [v' Hv']. exists v'.
    apply Hkeep; [done|]. intros Heq. apply Hne. destruct g; unfold k, target_key in Heq; simpl in *. congruence.
  - intros r w [Hne Hr']%lookup_delete_Some. destruct (Hr _ _ Hr') as (v'&Hv'&E1&E2). exists v'.
    split; [|done]. apply Hkeep; [done|]. intros Heq. rewrite Heq, Hk in Hv'. simplify_eq.
    apply Hne. destruct r; simpl in *; congruence.
  - intros sl e Hne Hsl. destruct (Hs _ _ Hsl) as (v'&s'&Hv'&Hd'&E1&E2). exists v', s'.
    split; [|done]. apply Hkeep; [done|]. intros Heq. rewrite Heq, Hk in Hv'. simplify_eq.
    apply Hne. destruct sl; simpl in *; congruence.
  - intros a. apply (dec_payload_spec db k v); [apply Hp|done].
  - exact Hc.
  - by apply body_ok_dec.
Qed.

(** Clearing the slot closes the hole. *)
Lemma hole_clear sl db :
  hole_ok sl db →
  db_ok (mkDb (db_payload db) (db_entry db) (db_group db) (db_replay db) (db_counter db)
           (delete sl (db_slots db))).
Proof.
  intros [He Hf Hg Hr Hs Hp Hc Hb']. split; simpl; try done.
  - intros k v Hk. destruct (He _ _ Hk) as [H1 H2 H3 H4 H5 H6 (s&Hd&Hh&Hb&Henc&Hsl)]. split; try done.
    exists s. do 4 (split; [done|]). cbn. rewrite lookup_delete_ne; [done|].
    intros Heq. symmetry in Heq. revert Heq. by eapply Hf.
  - intros sl' e [Hne Hsl]%lookup_delete_Some. by apply Hs.
Qed.

(** Deleting a live entry with its slot keeps the tables consistent; a target
    that is not there changes nothing. *)
Lemma delete_entry_spec db t :
  db_ok db →
  let k := target_key (po_of (tg_addr t)) t in
  let '(removed, db') := delete_entry_in_tx t db in
  db_ok db' ∧ removed = bool_decide (is_Some (db_entry db !! k)) ∧
  db_entry db' = delete k (db_entry db) ∧ db_counter db' = db_counter db.
Proof.
  intros Hok k. unfold delete_entry_in_tx. fold k.
  destruct (db_entry db !! k) as [v|] eqn:Hk; simpl.
  2:{ unfold delete_entry_rows_in_tx. fold k. rewrite Hk. simpl. split_and!; try done.
      by rewrite delete_id. }
  destruct (eo_stamp _ _ _ (do_entry _ Hok _ _ Hk)) as (s&Hd&Hh&Hb&_&Hsl).
  destruct (delete_rows_hole db t v s Hok Hk Hd) as (db'&->&Hhole&He'&Hc'&Hs').
  rewrite Hd; simpl. rewrite Hs', Hsl; simpl. rewrite decide_True by done.
  split_and!; try done. rewrite <-Hs'. by apply hole_clear.
Qed.

(** An empty slot is a hole. *)
Lemma hole_of_empty sl db : db_ok db → db_slots db !! sl = None → hole_ok sl db.
Proof.
  intros [He Hg Hr Hs Hp Hc Hb] Hsl. split; try done.
  - intros k v s Hk Hd Heq. destruct (eo_stamp _ _ _ (He _ _ Hk)) as (s'&Hd'&_&_&_&Hsl').
    simplify_eq; congruence.
  - intros sl' e _ Hsl'. by apply Hs.
Qed.

Lemma bump_payload_spec db k v bytes a :
  (match db_payload db !! a with
   | Some p => pv_refcnt p = refs a (db_entry db) ∧ 1 <= pv_refcnt p
   | None => refs a (db_entry db) = 0
   end) →
  db_entry db !! k = None →
  match bump_or_insert_payload (ek_addr k) bytes (db_payload db) !! a with
  | Some p => pv_refcnt p = refs a (<[k := v]> (db_entry db)) ∧ 1 <= pv_refcnt p
  | None => refs a (<[k := v]> (db_entry db)) = 0
  end.
Proof.
  intros Ha Hk. rewrite (refs_insert a _ k v Hk). unfold bump_or_insert_payload.
  destruct (decide (ek_addr k = a)) as [<-|Hne].
  - destruct (db_payload db !! ek_addr k) as [p|]; rewrite lookup_insert_eq; simpl; lia.
  - rewrite Z.add_0_l. destruct (db_payload db !! ek_addr k) as [p|]; by rewrite lookup_insert_ne.
Qed.

(** A stamp whose slot is a hole has no entry yet: its hash identifies it. *)
Lemma hole_fresh db s a :
  stamp_ok s → hole_ok (mkSlot (st_batch s) (st_index s)) db →
  db_entry db !! mkEntryKey (po_of a) (st_batch s) (stamp_hash s) a = None.
Proof.
  intros Hs Hh. destruct (db_entry db !! _) as [v|] eqn:Hk; [exfalso|done].
  destruct (eo_stamp _ _ _ (ho_entry _ _ Hh _ _ Hk)) as (s'&Hd&Hhash&_&[_ Hs']&_).
  apply stamp_hash_inj in Hhash as ->; [|done..]. by eapply (ho_free _ _ Hh).
Qed.
End lemmas.
