(* ===== verification/ReserveStore.v ===== *)
(** * The reserve store

    Models [DbReserve] of [crates/swarm/storer/src/db_reserve/store.rs]: put
    with newest-wins arbitration, get, contains, remove, the eviction verbs and
    the per-bin cursors, over the tables of [ReserveTx].  A transaction that
    returns an error changes nothing.  Backend failures are not modelled; the
    one error a healthy backend can produce inside [put], an exhausted bin
    counter, is. *)

From S2P Require Import Prelude.
From S2P Require Import Bytes.
From S2P Require Import Postage.
From S2P Require Import Cursor.
From S2P Require Import ReserveTx.

(** Why a put is refused ([SwarmError::InvalidChunk] with its reason, or the
    database error of the counter). *)
Inductive PutError :=
| StamplessPut (address : ChunkAddress)
| PutUnknownBatch (address : ChunkAddress) (b : BatchId)
| PutNotAdmitted (address : ChunkAddress) (e : AdmissionError)
| BinCounterExhausted (bin : Z).

Inductive PutOutcome := PutAdmitted | PutRestamped | PutRejected.

Inductive GetError :=
| StampUndecodable (address : ChunkAddress)
| BodyUndecodable (address : ChunkAddress).

Section store.
Context {RE : ReserveEnv} {PE : PostageEnv}.

Record CachedChunk := mkCached { cc_any : AnyChunk; cc_stamp : option Stamp }.

Record DbReserve := mkReserve {
  r_db : ReserveDb;
  r_batches : DbBatchStore;
  r_threshold : Z;     (** [AdmissionValidator] *)
  r_count : Z;         (** [Reserve]'s in-memory size *)
  r_capacity : Z;
  r_radius : Z;
  r_epoch : Z;
}.

Definition with_db (db : ReserveDb) (count : Z) (r : DbReserve) : DbReserve :=
  mkReserve db (r_batches r) (r_threshold r) count (r_capacity r) (r_radius r) (r_epoch r).

(** [DbReserve::new] over an existing database: the size is the persisted
    entry count. *)
Definition reserve_open (db : ReserveDb) (batches : DbBatchStore)
    (threshold capacity radius epoch : Z) : DbReserve :=
  mkReserve db batches threshold (Z.of_nat (size (db_entry db))) capacity radius epoch.

Definition set_storage_radius (radius : Z) (r : DbReserve) : DbReserve :=
  mkReserve (r_db r) (r_batches r) (r_threshold r) (r_count r) (r_capacity r) radius (r_epoch r).

Definition storage_radius (r : DbReserve) : Z :=
  if decide (r_radius r <= 31) then r_radius r else 0.

Definition is_responsible_for (r : DbReserve) (address : ChunkAddress) : bool :=
  bool_decide (r_radius r <= po_of address).

(** ** Put *)

(** The rows an admitted stamp writes, the displaced entry already gone. *)
Definition write_entry (address : ChunkAddress) (any : AnyChunk) (stamp : Stamp)
    (incoming : IncomingStamp) (db : ReserveDb) : result PutError ReserveDb :=
  let hash := in_hash incoming in
  let po := po_of address in
  let bin := bin_of address in
  match u64_checked_add (default 0 (db_counter db !! bin)) 1 with
  | None => Err (BinCounterExhausted bin)
  | Some next =>
      Ok (mkDb (bump_or_insert_payload address (any_to_bytes any) (db_payload db))
            (<[mkEntryKey po (in_batch incoming) hash address :=
                 mkEntryValue bin next (stamp_to_bytes stamp)]> (db_entry db))
            (<[mkGroupKey (in_batch incoming) po address hash := tt]> (db_group db))
            (<[mkReplayKey bin next :=
                 mkReplayValue address (in_batch incoming) hash (any_type any)]> (db_replay db))
            (<[bin := next]> (db_counter db))
            (<[incoming_slot incoming := incoming_entry incoming]> (db_slots db)))
  end.

Definition put_tx (any : AnyChunk) (stamp : Stamp) (db : ReserveDb) :
    result PutError (PutOutcome * ReserveDb) :=
  let address := any_address any in
  let incoming := mkIncoming (st_batch stamp) (st_index stamp)
                    (be_bytes 8 (st_timestamp stamp)) (stamp_hash stamp) address in
  match arb_decide (db_slots db !! incoming_slot incoming) incoming with
  | ArbReject _ => Ok (PutRejected, db)
  | ArbAdmit None =>
      db ← write_entry address any stamp incoming db;
      Ok (PutAdmitted, db)
  | ArbAdmit (Some d) =>
      let target := mkTarget (in_batch incoming) (de_hash d) (de_address d) in
      let db := (delete_entry_rows_in_tx (po_of (de_address d)) target db).2 in
      db ← write_entry address any stamp incoming db;
      Ok (PutRestamped, db)
  end.

Definition reserve_put (chunk : CachedChunk) (r : DbReserve) : result PutError unit * DbReserve :=
  let address := any_address (cc_any chunk) in
  match cc_stamp chunk with
  | None => (Err (StamplessPut address), r)
  | Some stamp =>
      match bs_get (r_batches r) (st_batch stamp) with
      | None => (Err (PutUnknownBatch address (st_batch stamp)), r)
      | Some batch =>
          match validate (r_threshold r) stamp address batch (bs_get_context (r_batches r)) with
          | Err e => (Err (PutNotAdmitted address e), r)
          | Ok _ =>
              match put_tx (cc_any chunk) stamp (r_db r) with
              | Err e => (Err e, r)
              | Ok (PutAdmitted, db) => (Ok tt, with_db db (r_count r + 1) r)
              | Ok (_, db) => (Ok tt, with_db db (r_count r) r)
              end
          end
      end
  end.

(** ** Reads *)

Definition entry_rows (r : DbReserve) : list (EntryKey * EntryValue) :=
  rows entry_encode (db_entry (r_db r)).

(** The least key of a proximity order, where prefix scans start. *)
Definition po_start (po : Z) : EntryKey := mkEntryKey po 0 0 0.

Definition po_rows (r : DbReserve) (po : Z) : list (EntryKey * EntryValue) :=
  seek entry_encode (po_start po) (entry_rows r).

(** The loop of [get]: remember the greatest timestamp seen for the address. *)
Fixpoint best_stamp (po : Z) (address : ChunkAddress) (best : option (Z * list Z))
    (l : list (EntryKey * EntryValue)) : option (Z * list Z) :=
  match l with
  | [] => best
  | (key, value) :: l =>
      if decide (ek_po key = po) then
        let best :=
          if decide (ek_addr key = address) then
            let ts := stamp_timestamp (ev_stamp value) in
            if is_some_and (λ '(b, _), bool_decide (ts <= b)) best then best
            else Some (ts, ev_stamp value)
          else best in
        best_stamp po address best l
      else best
  end.

Definition decode_body (address : ChunkAddress) (typed_bytes : list Z) : result GetError AnyChunk :=
  match any_from_bytes address typed_bytes with
  | None => Err (BodyUndecodable address)
  | Some any => Ok any
  end.

Definition reserve_get (address : ChunkAddress) (r : DbReserve) :
    result GetError (option CachedChunk) :=
  match db_payload (r_db r) !! address with
  | None => Ok None
  | Some payload =>
      match best_stamp (po_of address) address None (po_rows r (po_of address)) with
      | None => Ok None
      | Some (_, stamp_bytes) =>
          match decode_stamp stamp_bytes with
          | None => Err (StampUndecodable address)
          | Some stamp =>
              any ← decode_body address (pv_bytes payload);
              Ok (Some (mkCached any (Some stamp)))
          end
      end
  end.

Definition reserve_contains (address : ChunkAddress) (r : DbReserve) : bool :=
  bool_decide (is_Some (db_payload (r_db r) !! address)).

(** [ReserveStore::count], from the table. *)
Definition reserve_count (r : DbReserve) : Z := Z.of_nat (size (db_entry (r_db r))).

Definition count_in (po : Z) (r : DbReserve) : Z :=
  Z.of_nat (length (take_while (λ row, bool_decide (ek_po row.1 = po)) (po_rows r po))).

(** ** Evictions *)

Definition target_of (row : EntryKey * EntryValue) : EvictTarget :=
  mkTarget (ek_batch row.1) (ek_hash row.1) (ek_addr row.1).

Definition delete_targets (targets : list EvictTarget) (db : ReserveDb) : Z * ReserveDb :=
  foldl (λ '(n, db) t,
    let '(removed, db) := delete_entry_in_tx t db in
    (if removed : bool then n + 1 else n, db)) (0, db) targets.

Definition evict_entries (targets : list EvictTarget) (r : DbReserve) : Z * DbReserve :=
  match targets with
  | [] => (0, r)
  | _ =>
      let '(removed, db) := delete_targets targets (r_db r) in
      (removed, with_db db (u64_saturating_sub (r_count r) removed) r)
  end.

Definition entries_for_address (address : ChunkAddress) (r : DbReserve) : list EvictTarget :=
  let po := po_of address in
  target_of <$> filter (λ row, ek_addr row.1 = address)
    (take_while (λ row, bool_decide (ek_po row.1 = po)) (po_rows r po)).

Definition reserve_remove (address : ChunkAddress) (r : DbReserve) : DbReserve :=
  (evict_entries (entries_for_address address r) r).2.

Definition evict_to_capacity (r : DbReserve) : Z * DbReserve :=
  match u64_checked_sub (r_count r) (r_capacity r) with
  | Some overflow =>
      if decide (0 < overflow) then
        let targets := target_of <$> collect_up_to (λ _, true) overflow [] (entry_rows r) in
        match targets with
        | [] => (0, r)
        | _ => evict_entries targets r
        end
      else (0, r)
  | None => (0, r)
  end.

Definition evict_furthest (r : DbReserve) : option ChunkAddress * DbReserve :=
  match entry_rows r with
  | [] => (None, r)
  | row :: _ => (Some (ek_addr row.1), (evict_entries [target_of row] r).2)
  end.

Definition evict_from_bin (bin max : Z) (r : DbReserve) : Z * DbReserve :=
  if decide (max = 0) then (0, r)
  else
    evict_entries (target_of <$>
      collect_up_to (λ row, bool_decide (ek_po row.1 = bin)) max [] (po_rows r bin)) r.

Definition group_rows (r : DbReserve) (batch : BatchId) : list (BatchGroupKey * unit) :=
  seek group_encode (mkGroupKey batch 0 0 0) (rows group_encode (db_group (r_db r))).

Definition group_target (row : BatchGroupKey * unit) : EvictTarget :=
  mkTarget (gk_batch row.1) (gk_hash row.1) (gk_addr row.1).

Definition evict_batch (batch : BatchId) (up_to_bin : option Z) (max : Z) (r : DbReserve) :
    Z * DbReserve :=
  if decide (max = 0) then (0, r)
  else
    evict_entries (group_target <$>
      collect_up_to (λ row, bool_decide (gk_batch row.1 = batch) &&
                            negb (is_some_and (λ b, bool_decide (b <= gk_po row.1)) up_to_bin))
        max [] (group_rows r batch)) r.

(** ** Cursors *)

Record BinScanItem := mkScanItem {
  bi_seq : Z;
  bi_address : ChunkAddress;
  bi_batch : BatchId;
  bi_hash : B256;
}.

Definition bin_cursor (bin : Z) (r : DbReserve) : Z := default 0 (db_counter (r_db r) !! bin).

Definition scan_item (row : ReplayKey * ReplayValue) : BinScanItem :=
  mkScanItem (rk_binid row.1) (rv_address row.2) (rv_batch row.2) (rv_hash row.2).

Definition scan_bin_from (bin start_seq : Z) (r : DbReserve) : list BinScanItem :=
  scan_item <$> take_while (λ row, bool_decide (rk_bin row.1 = bin))
    (seek replay_encode (mkReplayKey bin start_seq) (rows replay_encode (db_replay (r_db r)))).

(** ** The store as a transition system *)

Inductive ReserveOp :=
| OpPut (chunk : CachedChunk)
| OpRemove (address : ChunkAddress)
| OpEvictToCapacity
| OpEvictFurthest
| OpEvictFromBin (bin max : Z)
| OpEvictBatch (batch : BatchId) (up_to_bin : option Z) (max : Z)
| OpSetRadius (radius : Z)
| OpBatchEvent (e : BatchEvent).

Definition reserve_step (r : DbReserve) (op : ReserveOp) : DbReserve :=
  match op with
  | OpPut chunk => (reserve_put chunk r).2
  | OpRemove address => reserve_remove address r
  | OpEvictToCapacity => (evict_to_capacity r).2
  | OpEvictFurthest => (evict_furthest r).2
  | OpEvictFromBin bin max => (evict_from_bin bin max r).2
  | OpEvictBatch batch up_to max => (evict_batch batch up_to max r).2
  | OpSetRadius radius => set_storage_radius radius r
  | OpBatchEvent e =>
      mkReserve (r_db r) (bs_handle_event (r_batches r) e) (r_threshold r) (r_count r)
        (r_capacity r) (r_radius r) (r_epoch r)
  end.
End store.

Section proofs.
Context `{RL : ReserveEnvLaws} {PE : PostageEnv}.
Implicit Types (db : ReserveDb) (r : DbReserve).

(** ** Writing an entry into a hole *)

Definition incoming_of (a : ChunkAddress) (s : Stamp) : IncomingStamp :=
  mkIncoming (st_batch s) (st_index s) (be_bytes 8 (st_timestamp s)) (stamp_hash s) a.

Lemma write_entry_spec db any s db' :
  let a := any_address any in
  hole_ok (mkSlot (st_batch s) (st_index s)) db →
  stamp_ok s →
  write_entry a any s (incoming_of a s) db = Ok db' →
  let k := mkEntryKey (po_of a) (st_batch s) (stamp_hash s) a in
  let next := default 0 (db_counter db !! bin_of a) + 1 in
  db_ok db' ∧ db_entry db !! k = None ∧
  db_entry db' = <[k := mkEntryValue (bin_of a) next (stamp_to_bytes s)]> (db_entry db) ∧
  db_counter db' = <[bin_of a := next]> (db_counter db).
Proof.
  intros a Hh Hsok Hw k next. pose proof (hole_fresh db s a Hsok Hh) as Hk. fold k in Hk.
  unfold write_entry, u64_checked_add in Hw. simpl in Hw. fold next in Hw. case_decide; [|done].
  injection Hw as <-. simpl. split_and!; try done.
  destruct Hh as [He Hf Hg Hr Hs Hp Hc Hbody].
  assert (Hnext : 1 <= next).
  { unfold next. destruct (db_counter db !! bin_of a) eqn:E; simpl; [apply Hc in E|]; lia. }
  assert (Hnew : db_replay db !! mkReplayKey (bin_of a) next = None).
  { destruct (db_replay db !! _) as [w|] eqn:E; [exfalso|done].
    destruct (Hr _ _ E) as (v&Hv&E1&E2). pose proof (eo_binid _ _ _ (He _ _ Hv)) as Hid.
    simpl in *. rewrite E1, E2 in Hid. unfold next in Hid. lia. }
  split; simpl.
  - intros k' v' [[<- <-]|[Hne Hin]]%lookup_insert_Some.
    { split; simpl; try done; rewrite ?lookup_insert_eq; simpl; eauto; try lia.
      - apply Hsok.
      - exists s. by rewrite decode_encode, lookup_insert_eq. }
    destruct (He _ _ Hin) as [H1 H2 H3 H4 H5 H6 (s'&Hd&Hh'&Hb'&Henc&Hsl)]. split; simpl; try done.
    + destruct (decide (bin_of a = ev_bin v')) as [E|E].
      * rewrite E, lookup_insert_eq; simpl. unfold next. rewrite E. lia.
      * by rewrite lookup_insert_ne.
    + rewrite lookup_insert_ne; [done|]. intros Heq. apply Hne. destruct k'; unfold k, group_of in *.
      simpl in *. congruence.
    + destruct H6 as [ty H6]. exists ty. rewrite lookup_insert_ne; [done|]. intros Heq. congruence.
    + exists s'. do 4 (split; [done|]). rewrite lookup_insert_ne; [done|].
      intros Heq. symmetry in Heq. revert Heq. by eapply Hf.
  - intros g u [[<- _]|[Hne Hg']]%lookup_insert_Some; simpl.
    + rewrite lookup_insert_eq. eauto.
    + destruct (Hg _ _ Hg') as [v' Hv']. apply lookup_insert_is_Some'. eauto.
  - intros rk w [[<- <-]|[Hne Hr']]%lookup_insert_Some; simpl.
    + rewrite lookup_insert_eq. eauto.
    + destruct (Hr _ _ Hr') as (v'&Hv'&E1&E2). exists v'. split; [|done].
      rewrite lookup_insert_ne; [done|]. intros Heq. rewrite <-Heq in Hv'.
      change (db_entry db !! k = Some v') in Hv'. congruence.
  - intros sl e [[<- <-]|[Hne Hs']]%lookup_insert_Some; simpl.
    + eexists _, s. rewrite lookup_insert_eq. split; [done|]. simpl. by rewrite decode_encode.
    + destruct (Hs sl e) as (v'&s'&Hv'&Hd&E1&E2); [by intros ->; apply Hne|done|]. exists v', s'. split; [|done].
      rewrite lookup_insert_ne; [done|]. intros Heq. rewrite <-Heq in Hv'.
      change (db_entry db !! k = Some v') in Hv'. congruence.
  - intros a'. apply (bump_payload_spec db k); [apply Hp|done].
  - intros b c [[<- <-]|[_ ?]]%lookup_insert_Some; [mlia|eauto].
  - by apply body_ok_bump.
Qed.
(** ** Put *)

Definition put_key (any : AnyChunk) (s : Stamp) : EntryKey :=
  mkEntryKey (po_of (any_address any)) (st_batch s) (stamp_hash s) (any_address any).

(** The three ways a put transaction can end. *)
Lemma put_tx_spec db any s out db' :
  db_ok db → stamp_ok s → put_tx any s db = Ok (out, db') →
  let next := default 0 (db_counter db !! bin_of (any_address any)) + 1 in
  let v := mkEntryValue (bin_of (any_address any)) next (stamp_to_bytes s) in
  db_ok db' ∧
  match out with
  | PutRejected => db' = db
  | PutAdmitted =>
      db_slots db !! mkSlot (st_batch s) (st_index s) = None ∧
      db_entry db !! put_key any s = None ∧
      db_entry db' = <[put_key any s := v]> (db_entry db) ∧
      db_counter db' = <[bin_of (any_address any) := next]> (db_counter db)
  | PutRestamped => ∃ k0, is_Some (db_entry db !! k0) ∧ ek_batch k0 = st_batch s ∧
      delete k0 (db_entry db) !! put_key any s = None ∧
      db_entry db' = <[put_key any s := v]> (delete k0 (db_entry db)) ∧
      db_counter db' = <[bin_of (any_address any) := next]> (db_counter db)
  end.
Proof.
  intros Hok Hsok. unfold put_tx, arb_decide. simpl.
  change (incoming_slot _) with (mkSlot (st_batch s) (st_index s)).
  destruct (db_slots db !! mkSlot (st_batch s) (st_index s)) as [prev|] eqn:Hsl.
  - destruct (bytes_ge _ _); [by intros [= <- <-]|].
    destruct (do_slot _ Hok _ _ Hsl) as (v0&s0&Hv0&Hd0&E1&E2). simpl in *.
    destruct (delete_rows_hole db (mkTarget (st_batch s) (se_hash prev) (se_address prev)) v0 s0)
      as (db1&Hdel&Hhole&He1&Hc1&Hs1); [done..|]. simpl in Hdel. rewrite Hdel. simpl.
    rewrite E1, E2 in Hhole.
    destruct (write_entry _ any s _ db1) as [db2|] eqn:Hw; [|done]. simpl. intros [= <- <-].
    apply write_entry_spec in Hw as (Hok2&Hk&He2&Hc2); [|done..].
    rewrite He1 in *. rewrite Hc1 in *. split; [done|].
    eexists. split_and!; [eauto|done|exact Hk|done|done].
  - destruct (write_entry _ any s _ db) as [db2|] eqn:Hw; [|done]. simpl. intros [= <- <-].
    apply write_entry_spec in Hw as (Hok2&Hk&He2&Hc2); [done| |done..]. by apply hole_of_empty.
Qed.

(** ** Deleting targets *)

Definition target_entry (t : EvictTarget) : EntryKey := target_key (po_of (tg_addr t)) t.

Lemma size_delete_Z {K A} `{Countable K} (m : gmap K A) k :
  Z.of_nat (size (delete k m)) = Z.of_nat (size m) - (if decide (is_Some (m !! k)) then 1 else 0).
Proof.
  case_decide as Hk.
  - rewrite map_size_delete_Some by done. destruct (decide (size m = 0%nat)) as [E|E]; [|lia].
    apply map_size_empty_iff in E as ->. destruct Hk as [? Hk]. by rewrite lookup_empty in Hk.
  - rewrite delete_id; [lia|]. by apply eq_None_not_Some.
Qed.

Lemma delete_targets_spec ts : ∀ db n,
  db_ok db →
  let '(n', db') := foldl (λ '(n, db) t,
    let '(removed, db) := delete_entry_in_tx t db in
    (if removed : bool then n + 1 else n, db)) (n, db) ts in
  db_ok db' ∧ n' = n + (Z.of_nat (size (db_entry db)) - Z.of_nat (size (db_entry db'))) ∧
  db_entry db' = foldl (λ m t, delete (target_entry t) m) (db_entry db) ts ∧
  db_counter db' = db_counter db.
Proof.
  induction ts as [|t ts IH]; intros db n Hok; simpl; [split_and!; try done; lia|].
  pose proof (delete_entry_spec db t Hok) as Hd. destruct (delete_entry_in_tx t db) as [b db1].
  destruct Hd as (Hok1&Hb&He&Hc). specialize (IH db1 (if b then n + 1 else n) Hok1).
  destruct (foldl _ _ ts) as [n' db']. destruct IH as (Hok'&Hn&He'&Hc').
  rewrite He in *. rewrite Hc in *. split_and!; try done.
  rewrite Hn, size_delete_Z, Hb. case_bool_decide; case_decide; try done; lia.
Qed.

(** The counted size tracks the table, and a batch of targets is removed. *)
Record reserve_ok r : Prop := {
  ro_db : db_ok (r_db r);
  ro_count : r_count r = Z.of_nat (size (db_entry (r_db r)));
}.

Lemma evict_entries_spec ts r :
  reserve_ok r →
  let '(n, r') := evict_entries ts r in
  reserve_ok r' ∧ n = r_count r - r_count r' ∧
  db_entry (r_db r') = foldl (λ m t, delete (target_entry t) m) (db_entry (r_db r)) ts ∧
  db_counter (r_db r') = db_counter (r_db r) ∧ r_capacity r' = r_capacity r.
Proof.
  intros [Hdb Hc]. unfold evict_entries. destruct ts as [|t ts].
  { split_and!; try done. lia. }
  pose proof (delete_targets_spec (t :: ts) (r_db r) 0 Hdb) as Hd. unfold delete_targets.
  destruct (foldl _ (0, r_db r) (t :: ts)) as [n db']. destruct Hd as (Hok'&Hn&He&Hcnt).
  assert (u64_saturating_sub (r_count r) n = Z.of_nat (size (db_entry db'))) as Hsz by mlia.
  split_and!; simpl; try done. rewrite Hsz. lia.
Qed.

Lemma foldl_delete_lookup {A} (ts : list A) (f : A → EntryKey) (m : gmap EntryKey EntryValue) k :
  foldl (λ m t, delete (f t) m) m ts !! k = if decide (k ∈ f <$> ts) then None else m !! k.
Proof.
  revert m. induction ts as [|t ts IH]; intros m; [done|].
  rewrite fmap_cons. cbn [foldl]. rewrite IH. destruct (decide (k ∈ f <$> ts)) as [Hin|Hin].
  - rewrite decide_True; [done|]. by right.
  - destruct (decide (f t = k)) as [<-|Hne].
    + rewrite lookup_delete_eq, decide_True; [done|]. by left.
    + rewrite lookup_delete_ne by done. rewrite decide_False; [done|].
      intros [?|?]%elem_of_cons; congruence.
Qed.

(** Evicting never invents entries. *)
Lemma evict_entries_subset ts r k v :
  reserve_ok r → db_entry (r_db (evict_entries ts r).2) !! k = Some v → db_entry (r_db r) !! k = Some v.
Proof.
  intros Hok. pose proof (evict_entries_spec ts r Hok) as He. destruct (evict_entries ts r) as [n r'].
  destruct He as (_&_&He&_). simpl. rewrite He, foldl_delete_lookup. by case_decide.
Qed.

(** ** Every operation keeps the reserve well-formed *)

Definition op_ok (op : ReserveOp) : Prop :=
  match op with
  | OpPut chunk => ∀ s, cc_stamp chunk = Some s → stamp_ok s
  | _ => True
  end.

Lemma reserve_ok_evict ts r : reserve_ok r → reserve_ok (evict_entries ts r).2.
Proof.
  intros Hok. pose proof (evict_entries_spec ts r Hok). destruct (evict_entries ts r). tauto.
Qed.

Lemma reserve_ok_put chunk r :
  reserve_ok r → op_ok (OpPut chunk) → reserve_ok (reserve_put chunk r).2.
Proof.
  intros [Hdb Hc] Hop. unfold reserve_put. destruct (cc_stamp chunk) as [s|] eqn:Hs; [|by split].
  destruct (bs_get _ _); [|by split]. destruct (validate _ _ _ _ _); [|by split].
  destruct (put_tx (cc_any chunk) s (r_db r)) as [[out db]|] eqn:Hp; [|by split].
  apply put_tx_spec in Hp as [Hok Hp]; [|done|by apply Hop..].
  destruct out; split; simpl; try done.
  - destruct Hp as (_&Hk&->&_). rewrite map_size_insert_None by done. lia.
  - destruct Hp as (k0&Hk0&_&Hk&->&_). rewrite map_size_insert_None by done.
    rewrite Hc. pose proof (size_delete_Z (db_entry (r_db r)) k0) as E.
    rewrite decide_True in E by done. lia.
  - by subst.
Qed.

Lemma reserve_ok_step r op : reserve_ok r → op_ok op → reserve_ok (reserve_step r op).
Proof.
  intros Hok Hop. destruct op as [c|a| | |b m|b u m|rad|e]; simpl.
  - by apply reserve_ok_put.
  - by apply reserve_ok_evict.
  - unfold evict_to_capacity. destruct (u64_checked_sub _ _); [|done]. case_decide; [|done].
    destruct (_ <$> _); [done|]. by apply reserve_ok_evict.
  - unfold evict_furthest. destruct (entry_rows r); [done|]. by apply reserve_ok_evict.
  - unfold evict_from_bin. case_decide; [done|]. by apply reserve_ok_evict.
  - unfold evict_batch. case_decide; [done|]. by apply reserve_ok_evict.
  - by destruct Hok.
  - by destruct Hok.
Qed.

Lemma db_ok_empty : db_ok db_empty.
Proof. split; try done. Qed.

Lemma reserve_ok_open batches th cap rad ep : reserve_ok (reserve_open db_empty batches th cap rad ep).
Proof. split; [apply db_ok_empty|done]. Qed.

Lemma reserve_ok_run batches th cap rad ep l :
  Forall op_ok l → reserve_ok (run reserve_step (reserve_open db_empty batches th cap rad ep) l).
Proof.
  intros Hl. apply (run_invariant reserve_step op_ok reserve_ok); [|apply reserve_ok_open|done].
  intros. by apply reserve_ok_step.
Qed.
End proofs.
