(* ===== verification/ReserveSpec.v ===== *)
(** * What the reserve promises

    The scans of [DbReserve] return exactly the entries they are meant to, and
    from that: the consistency of the six tables under every operation, the
    newest-stamp read, furthest-first eviction down to capacity, batch
    eviction, the resumable per-bin replay, and the key codecs. *)

From S2P Require Import Prelude.
From S2P Require Import Bytes.
From S2P Require Import Postage.
From S2P Require Import Cursor.
From S2P Require Import ReserveTx.
From S2P Require Import ReserveStore.

(** ** Key order *)

Definition is_byte (x : Z) : Prop := 0 <= x < 256.

Lemma lex_zeros a n : Forall (λ b, 0 <= b < 256) a → length a = n → lex a (replicate n 0) ≠ Lt.
Proof.
  intros Ha. revert n. induction Ha as [|x a Hx _ IH]; intros n Hn; destruct n; simplify_eq/=; [done|].
  destruct (Z.compare_spec x 0); subst; [by apply IH|lia|done].
Qed.

Lemma be_bytes_zero n : be_bytes n 0 = replicate n 0.
Proof. induction n as [|n IH]; [done|]. cbn [be_bytes replicate]. rewrite IH. by rewrite Z.div_0_l by (pose proof (pow256_pos n); lia). Qed.

Lemma bytes_of_fields n m x l : Forall (λ b, 0 <= b < 256) l → length l = m →
  Forall (λ b, 0 <= b < 256) (be_bytes n x ++ l) ∧ length (be_bytes n x ++ l) = (n + m)%nat.
Proof.
  intros Hl Hm. split; [apply Forall_app; split; [apply be_bytes_range|done]|].
  by rewrite length_app, be_bytes_length, Hm.
Qed.

(** The order of two keys is decided by their leading field. *)
Lemma lex_leading n x y r s :
  0 <= x < 256 ^ Z.of_nat n → 0 <= y < 256 ^ Z.of_nat n →
  lex (be_bytes n x ++ r) (be_bytes n y ++ s) = then_cmp (x ?= y) (lex r s).
Proof. intros. rewrite lex_app by (by rewrite !be_bytes_length). by rewrite lex_be_bytes. Qed.

Lemma leading_mono n x y r s :
  0 <= x < 256 ^ Z.of_nat n → 0 <= y < 256 ^ Z.of_nat n →
  lex (be_bytes n x ++ r) (be_bytes n y ++ s) ≠ Gt → x <= y.
Proof. intros. rewrite lex_leading in * by done. destruct (Z.compare_spec x y); simpl in *; congruence || lia. Qed.

(** Against the least key of a prefix, only the prefix counts. *)
Lemma leading_start n m x y r :
  0 <= x < 256 ^ Z.of_nat n → 0 <= y < 256 ^ Z.of_nat n →
  Forall (λ b, 0 <= b < 256) r → length r = m →
  lex (be_bytes n x ++ r) (be_bytes n y ++ replicate m 0) = Lt ↔ x < y.
Proof.
  intros. rewrite lex_leading by done. pose proof (lex_zeros r m).
  destruct (Z.compare_spec x y); simpl; split; intros; try done; try lia. naive_solver.
Qed.

Lemma entry_tail_bytes k :
  Forall (λ b, 0 <= b < 256) (be_bytes 32 (ek_batch k) ++ be_bytes 32 (ek_hash k) ++ be_bytes 32 (ek_addr k)) ∧
  length (be_bytes 32 (ek_batch k) ++ be_bytes 32 (ek_hash k) ++ be_bytes 32 (ek_addr k)) = 96%nat.
Proof.
  apply (bytes_of_fields 32 64); apply (bytes_of_fields 32 32); try apply be_bytes_range; apply be_bytes_length.
Qed.

Lemma entry_start_tail po : entry_encode (po_start po) = be_bytes 1 po ++ replicate 96 0.
Proof. unfold entry_encode, po_start; simpl ek_po; simpl ek_batch; simpl ek_hash; simpl ek_addr. by rewrite !be_bytes_zero. Qed.

Lemma group_tail_bytes k :
  Forall (λ b, 0 <= b < 256) (be_bytes 1 (gk_po k) ++ be_bytes 32 (gk_addr k) ++ be_bytes 32 (gk_hash k)) ∧
  length (be_bytes 1 (gk_po k) ++ be_bytes 32 (gk_addr k) ++ be_bytes 32 (gk_hash k)) = 65%nat.
Proof.
  apply (bytes_of_fields 1 64); apply (bytes_of_fields 32 32); try apply be_bytes_range; apply be_bytes_length.
Qed.

Lemma group_start_tail b : group_encode (mkGroupKey b 0 0 0) = be_bytes 32 b ++ replicate 65 0.
Proof. unfold group_encode. cbn [gk_batch gk_po gk_addr gk_hash]. by rewrite !be_bytes_zero. Qed.

Lemma group_le_po x y :
  is_b256 (gk_batch x) → gk_batch x = gk_batch y → is_byte (gk_po x) → is_byte (gk_po y) →
  lex (group_encode x) (group_encode y) ≠ Gt → gk_po x <= gk_po y.
Proof.
  intros Hb E Hx Hy. unfold group_encode. rewrite <-E, (lex_leading 32), Z.compare_refl by done.
  apply (leading_mono 1); done.
Qed.

(** The bins an optional exclusive bound leaves in. *)
Definition below_bound (up_to : option Z) (po : Z) : Prop :=
  match up_to with Some m => po < m | None => True end.

#[global] Instance below_bound_dec up_to po : Decision (below_bound up_to po).
Proof. unfold below_bound; destruct up_to; apply _. Defined.

Section spec.
Context `{RL : ReserveEnvLaws} {PE : PostageEnv}.
Implicit Types r : DbReserve.

Lemma entry_row_po r row :
  reserve_ok r → row ∈ entry_rows r → is_byte (ek_po row.1) ∧ ek_po row.1 = po_of (ek_addr row.1).
Proof.
  intros Hok Hin. destruct row as [k v]. apply elem_of_rows in Hin.
  pose proof (eo_po _ _ _ (do_entry _ (ro_db _ Hok) _ _ Hin)) as E. simpl. split; [|done].
  rewrite E. apply po_range.
Qed.

(** A proximity-order scan visits exactly that order's entries. *)
Lemma po_scan r po :
  reserve_ok r → is_byte po →
  take_while (λ row, bool_decide (ek_po row.1 = po)) (po_rows r po) =
  filter (λ row, ek_po row.1 = po) (entry_rows r).
Proof.
  intros Hok Hpo. unfold po_rows. apply (prefix_scan entry_encode ek_po).
  - apply rows_sorted.
  - intros a b Ha Hb. unfold row_le. apply (leading_mono 1);
      [by apply (entry_row_po r a Hok Ha)|by apply (entry_row_po r b Hok Hb)].
  - intros a Ha. rewrite entry_start_tail. destruct (entry_tail_bytes a.1).
    apply (leading_start 1 96); try done. by apply (entry_row_po r a Hok Ha).
Qed.

Lemma target_entry_of r row : reserve_ok r → row ∈ entry_rows r → target_entry (target_of row) = row.1.
Proof.
  intros Hok Hin. destruct (entry_row_po r row Hok Hin) as [_ E].
  unfold target_entry, target_key, target_of; simpl. rewrite <-E. by destruct row as [[] ?].
Qed.

(** Evicting the targets of some rows removes exactly their keys. *)
Lemma evict_rows r l k :
  reserve_ok r → (∀ row, row ∈ l → row ∈ entry_rows r) →
  db_entry (r_db (evict_entries (target_of <$> l) r).2) !! k =
  if decide (k ∈ l.*1) then None else db_entry (r_db r) !! k.
Proof.
  intros Hok Hl. pose proof (evict_entries_spec (target_of <$> l) r Hok) as He.
  destruct (evict_entries _ r) as [n r']. destruct He as (_&_&He&_). simpl. rewrite He, foldl_delete_lookup.
  assert (target_entry <$> (target_of <$> l) = l.*1) as ->; [|done].
  rewrite <-list_fmap_compose. apply list_fmap_ext. intros i row Hi. simpl.
  apply (target_entry_of r); [done|]. by apply Hl, (list_elem_of_lookup_2 _ i).
Qed.

(** The number of entries an eviction of distinct rows removes. *)
Lemma evict_rows_count r l :
  reserve_ok r → (∀ row, row ∈ l → row ∈ entry_rows r) → NoDup l.*1 →
  r_count (evict_entries (target_of <$> l) r).2 = r_count r - Z.of_nat (length l).
Proof.
  intros Hok Hl Hnd. pose proof (evict_entries_spec (target_of <$> l) r Hok) as He.
  pose proof (evict_rows r l) as Hlk.
  destruct (evict_entries _ r) as [n r']. simpl in *. destruct He as (Hok'&_&He&_).
  rewrite (ro_count _ Hok'), (ro_count _ Hok).
  assert (db_entry (r_db r) = list_to_map l ∪ db_entry (r_db r')) as Hu.
  { apply map_eq. intros k. destruct (decide (k ∈ l.*1)) as [Hk|Hk].
    - apply list_elem_of_fmap in Hk as ([k' v]&->&Hin). simpl.
      erewrite lookup_union_Some_l; [|by apply elem_of_list_to_map]. by apply (elem_of_rows entry_encode), Hl.
    - rewrite lookup_union_r by (by apply not_elem_of_list_to_map). rewrite Hlk by done. by rewrite decide_False. }
  rewrite Hu, map_size_disj_union.
  - rewrite <-(length_map_to_list (list_to_map l)), map_to_list_to_map by done. lia.
  - apply map_disjoint_spec. intros k v w Hv Hw. rewrite Hlk in Hw by done. case_decide as Hk; [done|].
    by rewrite (not_elem_of_list_to_map_1 _ _ Hk) in Hv.
Qed.

Lemma NoDup_prefix_rows r l : sublist l (entry_rows r) → NoDup l.*1.
Proof.
  intros Hs. eapply sublist_NoDup; [apply (rows_NoDup entry_encode (db_entry (r_db r)))|].
  apply (fmap_sublist fst). exact Hs.
Qed.
(** ** Reading the newest stamp *)

Definition newer (best : option (Z * list Z)) (row : EntryKey * EntryValue) : option (Z * list Z) :=
  let ts := stamp_timestamp (ev_stamp row.2) in
  if is_some_and (λ '(b, _), bool_decide (ts <= b)) best then best else Some (ts, ev_stamp row.2).

Lemma best_stamp_fold po a l : ∀ best,
  best_stamp po a best l =
  foldl newer best (filter (λ row, ek_addr row.1 = a) (take_while (λ row, bool_decide (ek_po row.1 = po)) l)).
Proof.
  induction l as [|[k v] l IH]; intros best; simpl; [done|].
  case_decide as Hpo; [rewrite bool_decide_eq_true_2 by done|by rewrite bool_decide_eq_false_2].
  case_decide as Ha; [rewrite filter_cons_True by done|rewrite filter_cons_False by done]; apply IH.
Qed.

Lemma foldl_newer_spec l : ∀ best,
  match foldl newer best l with
  | None => best = None ∧ l = []
  | Some (t, b) =>
      (best = Some (t, b) ∨ ∃ row, row ∈ l ∧ t = stamp_timestamp (ev_stamp row.2) ∧ b = ev_stamp row.2) ∧
      (∀ t' b', best = Some (t', b') → t' <= t) ∧
      (∀ row, row ∈ l → stamp_timestamp (ev_stamp row.2) <= t)
  end.
Proof.
  induction l as [|row l IH]; intros best; simpl.
  { destruct best as [[t b]|]; [|done]. split_and!; [by left|intros ?? [= -> ->]; lia|].
    intros row Hr. by apply not_elem_of_nil in Hr. }
  specialize (IH (newer best row)). destruct (foldl newer (newer best row) l) as [[t b]|].
  2:{ exfalso. destruct IH as [IH _]. unfold newer in IH. by destruct best as [[t b]|]; [case_match|]. }
  destruct IH as (H1&H2&H3).
  assert (Hn : (best = newer best row ∧ ∀ t' b', best = Some (t', b') → stamp_timestamp (ev_stamp row.2) <= t') ∨
    newer best row = Some (stamp_timestamp (ev_stamp row.2), ev_stamp row.2) ∧
    ∀ t' b', best = Some (t', b') → t' <= stamp_timestamp (ev_stamp row.2)).
  { unfold newer. destruct best as [[t' b']|]; simpl; [|right; done].
    case_bool_decide; [left|right]; (split; [done|]); intros ?? [= -> ->]; lia. }
  destruct Hn as [[E Hle]|[E Hle]].
  - rewrite <-E in *. split_and!.
    + destruct H1 as [?|(row'&?&?)]; [by left|]. right. exists row'. split; [by right|done].
    + done.
    + intros row' [->|Hr]%elem_of_cons; [|by apply H3].
      destruct best as [[t' b']|]; [|unfold newer in E; done].
      specialize (Hle t' b' eq_refl). specialize (H2 t' b' eq_refl). lia.
  - rewrite E in *. specialize (H2 _ _ eq_refl). split_and!.
    + right. destruct H1 as [[= <- <-]|(row'&?&?)]; [exists row|exists row']; (split; [|done]); [left|by right].
    + intros t' b' Hb. specialize (Hle t' b' Hb). lia.
    + intros row' [->|Hr]%elem_of_cons; [done|by apply H3].
Qed.

(** A scan of an address's proximity order, kept to the address, visits
    exactly the rows of the address. *)
Lemma address_rows r a row :
  reserve_ok r →
  row ∈ filter (λ row, ek_addr row.1 = a)
    (take_while (λ row, bool_decide (ek_po row.1 = po_of a)) (po_rows r (po_of a))) ↔
  row ∈ entry_rows r ∧ ek_addr row.1 = a.
Proof.
  intros Hok. rewrite po_scan by (done || apply po_range).
  rewrite !list_elem_of_filter. split; [tauto|]. intros [Hin Ha]. split_and!; try done.
  destruct (entry_row_po r row Hok Hin) as [_ E]. congruence.
Qed.

Lemma reserve_get_spec r a :
  reserve_ok r →
  match reserve_get a r with
  | Err _ => False
  | Ok None => ∀ k v, db_entry (r_db r) !! k = Some v → ek_addr k ≠ a
  | Ok (Some chunk) => any_address (cc_any chunk) = a ∧
      pv_bytes <$> db_payload (r_db r) !! a = Some (any_to_bytes (cc_any chunk)) ∧ ∃ s k v,
      cc_stamp chunk = Some s ∧ db_entry (r_db r) !! k = Some v ∧
      ek_addr k = a ∧ ek_hash k = stamp_hash s ∧
      (∀ k' v' s', db_entry (r_db r) !! k' = Some v' → ek_addr k' = a →
         decode_stamp (ev_stamp v') = Some s' → st_timestamp s' <= st_timestamp s)
  end.
Proof.
  intros Hok. pose proof (ro_db _ Hok) as Hdb. unfold reserve_get.
  assert (Hts : ∀ k v s, db_entry (r_db r) !! k = Some v → decode_stamp (ev_stamp v) = Some s →
    stamp_timestamp (ev_stamp v) = st_timestamp s ∧ stamp_hash s = ek_hash k).
  { intros k v s Hk Hd. destruct (eo_stamp _ _ _ (do_entry _ Hdb _ _ Hk)) as (s'&Hd'&Hh&_&[E Ht]&_).
    simplify_eq. rewrite E. by rewrite timestamp_at_40. }
  pose proof (do_payload _ Hdb a) as Hp. destruct (db_payload (r_db r) !! a) as [p|] eqn:Epay.
  2:{ intros k v Hk Ha. unfold refs in Hp. rewrite (map_sumZ_delete _ _ _ _ Hk), decide_True in Hp by done.
      pose proof (refs_nonneg a (delete k (db_entry (r_db r)))). unfold refs in *. lia. }
  rewrite best_stamp_fold.
  pose proof (foldl_newer_spec (filter (λ row, ek_addr row.1 = a)
    (take_while (λ row, bool_decide (ek_po row.1 = po_of a)) (po_rows r (po_of a)))) None) as Hbest.
  destruct (foldl newer None _) as [[t b]|].
  2:{ destruct Hbest as [_ Hnil]. intros k v Hk Ha.
      assert ((k, v) ∈ filter (λ row, ek_addr row.1 = a)
        (take_while (λ row, bool_decide (ek_po row.1 = po_of a)) (po_rows r (po_of a)))) as Hin.
      { apply address_rows; [done|]. split; [by apply elem_of_rows|done]. }
      rewrite Hnil in Hin. by apply not_elem_of_nil in Hin. }
  destruct Hbest as ([?|([k v]&Hrow&->&->)]&_&Hmax); [done|]. simpl.
  apply address_rows in Hrow as [Hrow Hka]; [|done]. apply elem_of_rows in Hrow. simpl in Hka.
  destruct (eo_stamp _ _ _ (do_entry _ Hdb _ _ Hrow)) as (s&Hd&Hh&_). rewrite Hd.
  destruct (do_body _ Hdb a p Epay) as (c&Hc&->). 
  unfold decode_body. assert (any_from_bytes a (any_to_bytes c) = Some c) as -> by (rewrite <-Hc; apply any_round_trip).
  split; [done|]. split; [done|]. exists s, k, v. split_and!; try done.
  intros k' v' s' Hk' Ha' Hd'. destruct (Hts _ _ _ Hrow Hd) as [<- _]. destruct (Hts _ _ _ Hk' Hd') as [<- _].
  apply (Hmax (k', v')). apply address_rows; [done|]. split; [by apply elem_of_rows|done].
Qed.

(** Every read returns the newest stamp.  In a well-formed reserve, [get]
    never fails on stored data; it returns nothing exactly when no entry is
    stored for the address, and otherwise the stored body with a stamp that is
    stored for that address and is at least as new as every other one. *)
Theorem get_returns_newest r a :
  reserve_ok r →
  match reserve_get a r with
  | Err _ => False
  | Ok None => ∀ k v, db_entry (r_db r) !! k = Some v → ek_addr k ≠ a
  | Ok (Some chunk) => any_address (cc_any chunk) = a ∧
      pv_bytes <$> db_payload (r_db r) !! a = Some (any_to_bytes (cc_any chunk)) ∧ ∃ s k v,
      cc_stamp chunk = Some s ∧ db_entry (r_db r) !! k = Some v ∧
      ek_addr k = a ∧ ek_hash k = stamp_hash s ∧
      (∀ k' v' s', db_entry (r_db r) !! k' = Some v' → ek_addr k' = a →
         decode_stamp (ev_stamp v') = Some s' → st_timestamp s' <= st_timestamp s)
  end.
Proof. apply reserve_get_spec. Qed.

(** ** Eviction to capacity *)

Lemma take_while_true {A} (l : list A) : take_while (λ _, true) l = l.
Proof. induction l; simpl; congruence. Qed.

Lemma sorted_take_drop r n a b :
  reserve_ok r → a ∈ take n (entry_rows r) → b ∈ drop n (entry_rows r) → ek_po a.1 <= ek_po b.1.
Proof.
  intros Hok Ha Hb. pose proof (rows_sorted entry_encode (db_entry (r_db r))) as Hs.
  fold (entry_rows r) in Hs. rewrite <-(take_drop n (entry_rows r)) in Hs.
  pose proof (StronglySorted_app_1_elem_of _ _ _ a b Hs Ha Hb) as Hle.
  apply (leading_mono 1) in Hle; [done|apply (entry_row_po r a Hok)|apply (entry_row_po r b Hok)];
    rewrite <-(take_drop n (entry_rows r)); apply elem_of_app; auto.
Qed.

(** Evicting the first [n] rows removes [n] entries, the furthest ones. *)
Lemma evict_prefix r n :
  reserve_ok r → (n <= size (db_entry (r_db r)))%nat →
  let r' := (evict_entries (target_of <$> take n (entry_rows r)) r).2 in
  r_count r' = r_count r - Z.of_nat n ∧
  (∀ k v k' v', db_entry (r_db r) !! k = Some v → db_entry (r_db r') !! k = None →
     db_entry (r_db r') !! k' = Some v' → ek_po k <= ek_po k').
Proof.
  intros Hok Hn. set (l := take n (entry_rows r)).
  assert (Hl : ∀ row, row ∈ l → row ∈ entry_rows r).
  { intros row Hx. rewrite <-(take_drop n (entry_rows r)). apply elem_of_app. by left. }
  assert (Hnd : NoDup l.*1) by (apply (NoDup_prefix_rows r), sublist_take).
  assert (Hlen : length l = n).
  { unfold l. rewrite length_take. unfold entry_rows. rewrite rows_length. lia. }
  simpl. split; [rewrite evict_rows_count by done; lia|].
  intros k v k' v' Hk Hgone Hk'. rewrite evict_rows in Hgone, Hk' by done.
  destruct (decide (k ∈ l.*1)) as [Hin|]; [|congruence].
  destruct (decide (k' ∈ l.*1)) as [|Hout]; [done|].
  apply list_elem_of_fmap in Hin as (row&->&Hin).
  apply (sorted_take_drop r n row (k', v')); [done|done|].
  assert ((k', v') ∈ entry_rows r) as Hrow by (by apply elem_of_rows).
  rewrite <-(take_drop n (entry_rows r)) in Hrow. apply elem_of_app in Hrow as [Hrow|]; [|done].
  exfalso. apply Hout. apply list_elem_of_fmap. by exists (k', v').
Qed.

(** Eviction to capacity takes the furthest entries and no more.  In a
    well-formed reserve it leaves exactly [min count capacity] entries and
    reports how many went; every evicted entry is at most as close as every
    entry that stays; and the bin counters are untouched, so sync cursors stay
    valid. *)
Theorem evict_to_capacity_spec r :
  reserve_ok r → 0 <= r_capacity r →
  let '(n, r') := evict_to_capacity r in
  reserve_count r' = Z.min (reserve_count r) (r_capacity r) ∧
  n = reserve_count r - reserve_count r' ∧
  (∀ k v k' v', db_entry (r_db r) !! k = Some v → db_entry (r_db r') !! k = None →
     db_entry (r_db r') !! k' = Some v' → ek_po k <= ek_po k') ∧
  db_counter (r_db r') = db_counter (r_db r).
Proof.
  intros Hok Hcap. pose proof (ro_count _ Hok) as Hc. change (r_count r = reserve_count r) in Hc.
  unfold evict_to_capacity, u64_checked_sub.
  assert (Hsame : reserve_count r <= r_capacity r →
    reserve_count r = Z.min (reserve_count r) (r_capacity r) ∧ 0 = reserve_count r - reserve_count r ∧
    (∀ k v k' v', db_entry (r_db r) !! k = Some v → db_entry (r_db r) !! k = None →
      db_entry (r_db r) !! k' = Some v' → ek_po k <= ek_po k') ∧ db_counter (r_db r) = db_counter (r_db r)).
  { intros Hle. split_and!; [lia|lia|congruence|done]. }
  case_decide as H1; [|apply Hsame; lia]. case_decide as H2; [|apply Hsame; lia]. clear Hsame.
  rewrite collect_up_to_spec, take_while_true by (simpl; lia). simpl app. rewrite Nat.sub_0_r.
  set (n := Z.to_nat (r_count r - r_capacity r)).
  assert (Hn : (n <= size (db_entry (r_db r)))%nat) by (unfold n, reserve_count in *; lia).
  destruct (evict_prefix r n Hok Hn) as [Hcnt Hfar].
  destruct (target_of <$> take n (entry_rows r)) as [|t ts] eqn:Ht.
  { apply (f_equal length) in Ht. rewrite length_fmap, length_take in Ht. simpl in Ht.
    unfold entry_rows in Ht. rewrite rows_length in Ht. lia. }
  pose proof (evict_entries_spec (t :: ts) r Hok) as He.
  destruct (evict_entries (t :: ts) r) as [m r']. simpl in *. destruct He as (Hok'&Hm&_&Hcc&_).
  pose proof (ro_count _ Hok') as Hc'. change (r_count r' = reserve_count r') in Hc'.
  split_and!; [lia|lia|done|done].
Qed.

(** ** Batch eviction *)

Lemma group_row_key r row :
  reserve_ok r → row ∈ rows group_encode (db_group (r_db r)) →
  is_b256 (gk_batch row.1) ∧ is_byte (gk_po row.1) ∧
  target_entry (group_target row) = mkEntryKey (gk_po row.1) (gk_batch row.1) (gk_hash row.1) (gk_addr row.1) ∧
  is_Some (db_entry (r_db r) !! target_entry (group_target row)).
Proof.
  intros Hok Hin. destruct row as [g u]. apply elem_of_rows in Hin. pose proof (ro_db _ Hok) as Hdb.
  destruct (do_group _ Hdb _ _ Hin) as [v Hv]. destruct (do_entry _ Hdb _ _ Hv) as [E _ _ Hb _ _ _]. simpl in *.
  assert (target_entry (group_target (g, u)) = mkEntryKey (gk_po g) (gk_batch g) (gk_hash g) (gk_addr g)) as Et.
  { unfold target_entry, target_key, group_target; simpl. by rewrite <-E. }
  rewrite Et. pose proof (po_range (gk_addr g)) as Hp. rewrite <-E in Hp. eauto.
Qed.

Definition entry_of_group (g : BatchGroupKey) : EntryKey :=
  mkEntryKey (gk_po g) (gk_batch g) (gk_hash g) (gk_addr g).

#[local] Instance entry_of_group_inj : Inj (=) (=) entry_of_group.
Proof. by intros [] [] [= -> -> -> ->]. Qed.

Lemma take_while_and {A} (p q : A → bool) l :
  take_while (λ x, p x && q x) l = take_while q (take_while p l).
Proof.
  induction l as [|x l IH]; simpl; [done|]. destruct (p x); simpl; [|done].
  destruct (q x); [by rewrite IH|done].
Qed.

Lemma batch_scan r batch up_to :
  reserve_ok r → is_b256 batch →
  take_while (λ row, bool_decide (gk_batch row.1 = batch) &&
                     negb (is_some_and (λ b, bool_decide (b <= gk_po row.1)) up_to)) (group_rows r batch) =
  filter (λ row, negb (is_some_and (λ b, bool_decide (b <= gk_po row.1)) up_to) = true)
    (filter (λ row, gk_batch row.1 = batch) (rows group_encode (db_group (r_db r)))).
Proof.
  intros Hok Hb. rewrite take_while_and. unfold group_rows. pose proof (group_row_key r) as Hk.
  rewrite (prefix_scan group_encode gk_batch).
  - apply (take_while_sorted (row_le group_encode)); [apply StronglySorted_filter, rows_sorted|].
    intros [x []] [y []] [Ex Hx]%list_elem_of_filter [Ey Hy]%list_elem_of_filter Hle Hp.
    destruct up_to as [m|]; simpl in Hp; [|done]. simpl.
    apply (group_le_po x y) in Hle;
      [|by apply (Hk (x, ()))|by simpl in *; congruence|by apply (Hk (x, ()))|by apply (Hk (y, ()))].
    apply negb_true_iff, bool_decide_eq_false in Hp. apply negb_true_iff, bool_decide_eq_false. lia.
  - apply rows_sorted.
  - intros a b Ha Hb'. unfold row_le. apply (leading_mono 32); [by apply (Hk a)|by apply (Hk b)].
  - intros a Ha. rewrite group_start_tail. destruct (group_tail_bytes a.1).
    apply (leading_start 32 65); try done. by apply (Hk a).
Qed.

(** The entries an eviction of the batch selects. *)
Definition batch_rows (batch : BatchId) (up_to : option Z) r : list (EntryKey * EntryValue) :=
  filter (λ row, ek_batch row.1 = batch ∧ below_bound up_to (ek_po row.1)) (entry_rows r).

Definition batch_size (batch : BatchId) (up_to : option Z) r : Z :=
  Z.of_nat (length (batch_rows batch up_to r)).

(** The group index lists them. *)
Lemma batch_scan_keys r batch up_to :
  reserve_ok r → is_b256 batch →
  target_entry <$> (group_target <$>
    take_while (λ row, bool_decide (gk_batch row.1 = batch) &&
                       negb (is_some_and (λ b, bool_decide (b <= gk_po row.1)) up_to)) (group_rows r batch))
  ≡ₚ (batch_rows batch up_to r).*1.
Proof.
  intros Hok Hb. rewrite batch_scan by done. set (l := filter _ (filter _ _)).
  assert (Hl : ∀ row, row ∈ l ↔ row ∈ rows group_encode (db_group (r_db r)) ∧ gk_batch row.1 = batch ∧
    below_bound up_to (gk_po row.1)).
  { intros row. unfold l. rewrite !list_elem_of_filter, negb_true_iff.
    destruct up_to as [m|]; simpl; rewrite ?bool_decide_eq_false; intuition lia. }
  assert (El : target_entry <$> (group_target <$> l) = entry_of_group <$> l.*1).
  { rewrite <-!list_fmap_compose. apply list_fmap_ext. intros i row Hi.
    assert (row ∈ l) as [Hrow _]%Hl by (by eapply list_elem_of_lookup_2).
    by destruct (group_row_key r row Hok Hrow) as (_&_&E&_). }
  rewrite El. apply NoDup_Permutation.
  - apply (NoDup_fmap_2 _). eapply sublist_NoDup; [apply (rows_NoDup group_encode (db_group (r_db r)))|].
    apply (fmap_sublist fst). unfold l. etrans; apply sublist_filter.
  - apply (NoDup_prefix_rows r), sublist_filter.
  - intros k. rewrite <-El. rewrite !list_elem_of_fmap. split.
    + intros (t&->&(row&->&Hin)%list_elem_of_fmap). apply Hl in Hin as (Hrow&Hbt&Hbd).
      destruct (group_row_key r row Hok Hrow) as (_&_&E&[v Hv]). exists (target_entry (group_target row), v).
      split; [done|]. apply list_elem_of_filter. rewrite E. split; [done|]. apply elem_of_rows. by rewrite <-E.
    + intros ([k' v]&->&[Hsel Hrow]%list_elem_of_filter). simpl in *. apply elem_of_rows in Hrow.
      pose proof (do_entry _ (ro_db _ Hok) _ _ Hrow) as Hent.
      assert (Hg : (group_of k', ()) ∈ rows group_encode (db_group (r_db r))) by (apply elem_of_rows, Hent).
      exists (group_target (group_of k', ())). split.
      * destruct (group_row_key r _ Hok Hg) as (_&_&->&_). by destruct k'.
      * apply list_elem_of_fmap. eexists. split; [done|]. by apply Hl.
Qed.

Lemma size_foldl_delete (ks : list EntryKey) (m : gmap EntryKey EntryValue) :
  NoDup ks → (∀ k, k ∈ ks → is_Some (m !! k)) →
  Z.of_nat (size (foldl (λ m k, delete k m) m ks)) = Z.of_nat (size m) - Z.of_nat (length ks).
Proof.
  intros Hnd. revert m. induction Hnd as [|k ks Hk Hnd IH]; intros m Hin; simpl; [lia|].
  rewrite IH.
  - destruct (Hin k ltac:(left)) as [v Hv]. rewrite map_size_delete_Some by eauto.
    assert (size m ≠ 0%nat) by (intros E%map_size_empty_inv; set_solver). lia.
  - intros k' Hk'. rewrite lookup_delete_ne by set_solver. apply Hin. by right.
Qed.

(** Evicting targets that name distinct stored entries. *)
Lemma evict_targets_count ts r :
  reserve_ok r → NoDup (target_entry <$> ts) →
  (∀ k, k ∈ target_entry <$> ts → is_Some (db_entry (r_db r) !! k)) →
  reserve_count (evict_entries ts r).2 = reserve_count r - Z.of_nat (length ts).
Proof.
  intros Hok Hnd Hin. pose proof (evict_entries_spec ts r Hok) as He.
  destruct (evict_entries ts r) as [n r']. destruct He as (_&_&He&_). unfold reserve_count. simpl. rewrite He.
  rewrite <-(length_fmap target_entry ts), <-size_foldl_delete by done.
  generalize (db_entry (r_db r)). clear. induction ts as [|t ts IH]; intros m; simpl; [done|]. apply IH.
Qed.

(** [evict_batch] removes up to [max] of the selected entries and no others. *)
Lemma evict_batch_spec r batch up_to max :
  reserve_ok r → is_b256 batch → 0 < max →
  let '(n, r') := evict_batch batch up_to max r in
  reserve_ok r' ∧ n = reserve_count r - reserve_count r' ∧
  n = Z.min max (batch_size batch up_to r) ∧
  (∀ k, ¬ (ek_batch k = batch ∧ below_bound up_to (ek_po k)) →
     db_entry (r_db r') !! k = db_entry (r_db r) !! k) ∧
  (batch_size batch up_to r <= max →
     ∀ k, ek_batch k = batch ∧ below_bound up_to (ek_po k) → db_entry (r_db r') !! k = None) ∧
  (max < batch_size batch up_to r → ∃ k, ek_batch k = batch ∧ is_Some (db_entry (r_db r') !! k)) ∧
  r_batches r' = r_batches r.
Proof.
  intros Hok Hb Hmax. unfold evict_batch. rewrite decide_False by lia.
  rewrite collect_up_to_spec by (simpl; lia). simpl app. rewrite Nat.sub_0_r, fmap_take.
  pose proof (batch_scan_keys r batch up_to Hok Hb) as Hperm.
  set (l := group_target <$> take_while _ (group_rows r batch)) in *. set (ts := take (Z.to_nat max) l).
  assert (Hlen : length l = length (batch_rows batch up_to r)).
  { apply Permutation_length in Hperm. by rewrite !length_fmap in Hperm. }
  assert (Hnd : NoDup (target_entry <$> l)).
  { rewrite Hperm. apply (NoDup_prefix_rows r), sublist_filter. }
  assert (Hel : ∀ k, k ∈ target_entry <$> l ↔
    (ek_batch k = batch ∧ below_bound up_to (ek_po k)) ∧ is_Some (db_entry (r_db r) !! k)).
  { intros k. rewrite Hperm, list_elem_of_fmap. split.
    - intros ([k' v]&->&[Hs Hr%elem_of_rows]%list_elem_of_filter). simpl. eauto.
    - intros [Hs [v Hv]]. exists (k, v). split; [done|]. apply list_elem_of_filter.
      split; [done|]. by apply elem_of_rows. }
  assert (Hts : ∀ k, k ∈ target_entry <$> ts → k ∈ target_entry <$> l).
  { intros k. unfold ts. rewrite fmap_take. intros Hk. eapply elem_of_sublist; [exact Hk|]. apply sublist_take. }
  pose proof (evict_entries_spec ts r Hok) as He.
  assert (Hcount : reserve_count (evict_entries ts r).2 = reserve_count r - Z.of_nat (length ts)).
  { apply evict_targets_count; [done| |intros k Hk; by apply Hel, Hts].
    eapply sublist_NoDup; [exact Hnd|]. apply fmap_sublist, sublist_take. }
  assert (Hb' : r_batches (evict_entries ts r).2 = r_batches r).
  { unfold evict_entries. destruct ts; [done|]. by destruct (delete_targets _ _). }
  destruct (evict_entries ts r) as [n r']. destruct He as (Hok'&Hn&He&_). simpl in *.
  assert (Hlt : Z.of_nat (length ts) = Z.min max (batch_size batch up_to r)).
  { unfold ts, batch_size. rewrite length_take. lia. }
  pose proof (ro_count _ Hok) as Hc. pose proof (ro_count _ Hok') as Hc'.
  change (r_count r = reserve_count r) in Hc. change (r_count r' = reserve_count r') in Hc'.
  split; [done|]. split; [lia|]. split; [lia|]. split; [|split; [|split; [|done]]].
  - intros k Hk. rewrite He, foldl_delete_lookup, decide_False; [done|]. intros [? _]%Hts%Hel. done.
  - intros Hfit k Hk. rewrite He, foldl_delete_lookup. case_decide as Hno; [done|].
    destruct (db_entry (r_db r) !! k) eqn:E; [|done]. exfalso. apply Hno. unfold ts. rewrite take_ge by (unfold batch_size in *; lia).
    apply Hel. rewrite E. eauto.
  - intros Hmore. destruct (lookup_lt_is_Some_2 l (Z.to_nat max)) as [t Ht]; [unfold batch_size in *; lia|].
    exists (target_entry t). assert (Hk : target_entry t ∈ target_entry <$> l)
      by (apply list_elem_of_fmap; exists t; split; [done|by eapply list_elem_of_lookup_2]).
    apply Hel in Hk as [[Hk _] Hk']. split; [done|]. rewrite He, foldl_delete_lookup, decide_False; [done|].
    unfold ts. rewrite fmap_take. intros [i Hi]%list_elem_of_lookup. apply lookup_take_Some in Hi as [Hi Hlt'].
    assert (i = Z.to_nat max); [|lia]. eapply (NoDup_lookup _ _ _ (target_entry t) Hnd); [done|].
    by rewrite list_lookup_fmap, Ht.
Qed.

(** Evicting a batch removes it and nothing else.  With room for all of
    it, [evict_batch] removes exactly the entries of the batch (in the bins
    shallower than the bound, when one is given), reports their number, and
    keeps every other entry; bodies shared with other batches survive because
    the tables stay consistent. *)
Theorem evict_batch_exact r batch up_to max :
  reserve_ok r → is_b256 batch → 0 < max → batch_size batch up_to r <= max →
  let '(n, r') := evict_batch batch up_to max r in
  reserve_ok r' ∧ n = batch_size batch up_to r ∧ reserve_count r' = reserve_count r - n ∧
  ∀ k, db_entry (r_db r') !! k =
    if decide (ek_batch k = batch ∧ below_bound up_to (ek_po k))
    then None else db_entry (r_db r) !! k.
Proof.
  intros Hok Hb Hmax Hroom. pose proof (evict_batch_spec r batch up_to max Hok Hb Hmax) as He.
  destruct (evict_batch batch up_to max r) as [n r']. destruct He as (Hok'&Hn&Hn'&Hkeep&Hgone&_).
  split; [done|]. split; [lia|]. split; [lia|]. intros k. case_decide; [by apply Hgone|by apply Hkeep].
Qed.
End spec.
