(* ===== verification/ReserveSync.v ===== *)
(** * What a syncing peer can rely on

    The bin cursors of [DbReserve] ([bin_cursor], [scan_bin_from] of
    [crates/swarm/storer/src/db_reserve/store.rs]) feed pull sync: a peer reads
    a cursor, comes back later, and asks for everything after it.  The theorems
    say that this finds every entry stored meanwhile, in order and once,
    whatever operations ran in between.  The file also states the consistency
    of the six tables over every trace, and what a second body for a stored
    address does. *)

From S2P Require Import Prelude.
From S2P Require Import Bytes.
From S2P Require Import Postage.
From S2P Require Import Cursor.
From S2P Require Import ReserveTx.
From S2P Require Import ReserveStore.
From S2P Require Import ReserveSpec.

Section sync.
Context `{RL : ReserveEnvLaws} {PE : PostageEnv}.
Implicit Types (r : DbReserve) (db : ReserveDb).

Definition cursor_of db (bin : Z) : Z := default 0 (db_counter db !! bin).

(** From [db] to [db']: cursors only advance, and what is new is numbered
    above the old cursor. *)
Definition grows db db' : Prop :=
  (∀ b, cursor_of db b <= cursor_of db' b) ∧
  (∀ k v, db_entry db' !! k = Some v →
     db_entry db !! k = Some v ∨ cursor_of db (ev_bin v) < ev_binid v).

#[local] Instance grows_preorder : PreOrder grows.
Proof.
  split.
  - intros db. split; [done|auto].
  - intros a b c [Hab Hab'] [Hbc Hbc']. split; [intros x; etrans; eauto|].
    intros k v [Hk|Hk]%Hbc'; [auto|]. right. specialize (Hab (ev_bin v)). lia.
Qed.

Lemma grows_evict ts r : reserve_ok r → grows (r_db r) (r_db (evict_entries ts r).2).
Proof.
  intros Hok. pose proof (evict_entries_subset ts r) as Hsub.
  pose proof (evict_entries_spec ts r Hok) as He. destruct (evict_entries ts r) as [n r'].
  destruct He as (_&_&_&Hc&_). split; simpl in *.
  - intros b. unfold cursor_of. by rewrite Hc.
  - intros k v Hk. left. by apply Hsub.
Qed.

(** A write numbered by the next value of its bin's counter. *)
Lemma grows_insert db db' k bin bytes m :
  (∀ k v, m !! k = Some v → db_entry db !! k = Some v) →
  db_entry db' = <[k := mkEntryValue bin (cursor_of db bin + 1) bytes]> m →
  db_counter db' = <[bin := cursor_of db bin + 1]> (db_counter db) →
  grows db db'.
Proof.
  intros Hm He Hc. split.
  - intros b. unfold cursor_of at 2. rewrite Hc. destruct (decide (bin = b)) as [->|].
    + rewrite lookup_insert_eq. simpl. lia.
    + rewrite lookup_insert_ne by done. done.
  - intros k' v. rewrite He. intros [[<- <-]|[_ Hk]]%lookup_insert_Some; [right; simpl; lia|auto].
Qed.

Lemma grows_put chunk r :
  reserve_ok r → op_ok (OpPut chunk) → grows (r_db r) (r_db (reserve_put chunk r).2).
Proof.
  intros [Hdb _] Hop. unfold reserve_put. destruct (cc_stamp chunk) as [s|] eqn:Hs; [|done].
  destruct (bs_get _ _); [|done]. destruct (validate _ _ _ _ _); [|done].
  destruct (put_tx (cc_any chunk) s (r_db r)) as [[out db]|] eqn:Hp; [|done].
  apply put_tx_spec in Hp as [_ Hp]; [|done|by apply Hop..].
  destruct out; simpl.
  - destruct Hp as (_&_&He&Hc). by eapply grows_insert; [| |exact Hc]; [|exact He].
  - destruct Hp as (k0&_&_&_&He&Hc). eapply grows_insert; [|exact He|exact Hc].
    intros k v Hk. by apply lookup_delete_Some in Hk as [_ Hk].
  - by subst.
Qed.

Lemma grows_step r op : reserve_ok r → op_ok op → grows (r_db r) (r_db (reserve_step r op)).
Proof.
  intros Hok Hop. destruct op as [c|a| | |b m|b u m|rad|e]; simpl; try done.
  - by apply grows_put.
  - by apply grows_evict.
  - unfold evict_to_capacity. destruct (u64_checked_sub _ _); [|done]. case_decide; [|done].
    destruct (_ <$> _); [done|]. by apply grows_evict.
  - unfold evict_furthest. destruct (entry_rows r); [done|]. by apply grows_evict.
  - unfold evict_from_bin. case_decide; [done|]. by apply grows_evict.
  - unfold evict_batch. case_decide; [done|]. by apply grows_evict.
Qed.

Lemma grows_run l : ∀ r, reserve_ok r → Forall op_ok l → grows (r_db r) (r_db (run reserve_step r l)).
Proof.
  induction l as [|op l IH]; intros r Hok Hl; [done|]. inv Hl. simpl.
  etrans; [by apply grows_step|]. apply IH; [|done]. by apply reserve_ok_step.
Qed.

(** ** The scan of one bin *)

Lemma replay_row_key r rk w :
  reserve_ok r → db_replay (r_db r) !! rk = Some w →
  ∃ k v, db_entry (r_db r) !! k = Some v ∧ rk = mkReplayKey (ev_bin v) (ev_binid v) ∧
    ek_addr k = rv_address w ∧ ek_batch k = rv_batch w ∧ ek_hash k = rv_hash w ∧
    0 <= rk_bin rk < 256 ^ Z.of_nat 1 ∧ 1 <= rk_binid rk <= cursor_of (r_db r) (rk_bin rk) ∧
    0 <= rk_binid rk < 256 ^ Z.of_nat 8.
Proof.
  intros Hok Hr. pose proof (ro_db _ Hok) as Hdb. destruct (do_replay _ Hdb _ _ Hr) as (v&Hv&E1&E2).
  destruct (do_entry _ Hdb _ _ Hv) as [_ Eb Hid _ _ _ _]. eexists _, v. rewrite <-E1, <-E2.
  pose proof (bin_range (rv_address w)) as Hb. simpl in Eb. rewrite <-Eb in Hb.
  assert (ev_binid v <= 2 ^ 64 - 1).
  { destruct (db_counter (r_db r) !! ev_bin v) as [c|] eqn:Ec; simpl in Hid; [|lia].
    apply (do_counter _ Hdb) in Ec. lia. }
  do 5 (split; [done || by destruct rk; simpl in *; subst|]). unfold cursor_of. lia.
Qed.

Lemma replay_row_range r row :
  reserve_ok r → row ∈ rows replay_encode (db_replay (r_db r)) →
  0 <= rk_bin row.1 < 256 ^ Z.of_nat 1 ∧ 0 <= rk_binid row.1 < 256 ^ Z.of_nat 8.
Proof.
  intros Hok. destruct row as [rk w]. intros Hr%elem_of_rows.
  by destruct (replay_row_key r rk w Hok Hr) as (?&?&_&_&_&_&_&?&_&?).
Qed.

Lemma scan_rows r bin start :
  reserve_ok r → 0 <= bin < 256 ^ Z.of_nat 1 → 0 <= start < 256 ^ Z.of_nat 8 →
  take_while (λ row, bool_decide (rk_bin row.1 = bin))
    (seek replay_encode (mkReplayKey bin start) (rows replay_encode (db_replay (r_db r)))) =
  filter (λ row, rk_bin row.1 = bin ∧ start <= rk_binid row.1) (rows replay_encode (db_replay (r_db r))).
Proof.
  intros Hok Hbin Hst. rewrite seek_filter by apply rows_sorted.
  set (l := rows replay_encode (db_replay (r_db r))).
  assert (Hlex : ∀ row, row ∈ l → lex (replay_encode row.1) (replay_encode (mkReplayKey bin start)) =
    then_cmp (rk_bin row.1 ?= bin) (rk_binid row.1 ?= start)).
  { intros row Hin. destruct (replay_row_range r row Hok Hin) as [Hb Hi].
    unfold replay_encode; cbn [rk_bin rk_binid]. rewrite (lex_leading 1) by done.
    by rewrite lex_be_bytes. }
  rewrite (take_while_sorted (row_le replay_encode)); [|apply StronglySorted_filter, rows_sorted|].
  - rewrite list_filter_filter. apply filter_ext_elem. intros row Hin. rewrite Hlex by done.
    rewrite bool_decide_eq_true.
    destruct (Z.compare_spec (rk_bin row.1) bin); simpl; [|lia..]. rewrite Z.compare_lt_iff. lia.
  - intros x y [Hx Hxin]%list_elem_of_filter [Hy Hyin]%list_elem_of_filter Hle.
    rewrite Hlex in Hx by done. rewrite !bool_decide_eq_true. intros Ey.
    apply (leading_mono 1) in Hle; [|by apply (replay_row_range r)..].
    destruct (Z.compare_spec (rk_bin x.1) bin); simpl in Hx; done || lia.
Qed.

Definition item_of (k : EntryKey) (v : EntryValue) : BinScanItem :=
  mkScanItem (ev_binid v) (ek_addr k) (ek_batch k) (ek_hash k).

Lemma scan_elem r bin start it :
  reserve_ok r → 0 <= bin < 256 → 0 <= start < 2 ^ 64 →
  it ∈ scan_bin_from bin start r ↔
  ∃ k v, db_entry (r_db r) !! k = Some v ∧ ev_bin v = bin ∧ start <= ev_binid v ∧ it = item_of k v.
Proof.
  intros Hok Hb Hs. unfold scan_bin_from. rewrite scan_rows by done. rewrite list_elem_of_fmap. split.
  - intros ([rk w]&->&[[Hbin Hst] Hin]%list_elem_of_filter). apply elem_of_rows in Hin.
    destruct (replay_row_key r rk w Hok Hin) as (k&v&Hk&->&E1&E2&E3&_). exists k, v.
    simpl in *. do 3 (split; [done|]). unfold scan_item, item_of; simpl. congruence.
  - intros (k&v&Hk&Hbin&Hst&->). destruct (do_entry _ (ro_db _ Hok) _ _ Hk) as [_ _ _ _ _ [ty Hr] _].
    eexists (_, _). split; [|apply list_elem_of_filter; split; [|by apply elem_of_rows]]; done.
Qed.

Lemma scan_sorted r bin start :
  reserve_ok r → 0 <= bin < 256 → 0 <= start < 2 ^ 64 →
  StronglySorted (λ a b, bi_seq a < bi_seq b) (scan_bin_from bin start r).
Proof.
  intros Hok Hb Hs. unfold scan_bin_from. rewrite scan_rows by done.
  pose proof (rows_sorted replay_encode (db_replay (r_db r))) as Hsort.
  pose proof (rows_NoDup replay_encode (db_replay (r_db r))) as Hnd.
  pose proof (λ row, replay_row_range r row Hok) as Hin.
  revert Hin Hnd. induction Hsort as [|x l _ IH Hx]; intros Hin Hnd; [constructor|]. inv Hnd.
  destruct (decide (rk_bin x.1 = bin ∧ start <= rk_binid x.1)) as [[Eb Est]|Hno].
  2:{ rewrite filter_cons_False by done. apply IH; [set_solver|done]. }
  rewrite filter_cons_True by (split; [done|lia]). rewrite fmap_cons. constructor; [apply IH; [set_solver|done]|].
  apply Forall_forall. intros it Hit. apply list_elem_of_fmap in Hit as (y&->&[[Eb' _] Hy]%list_elem_of_filter).
  destruct (Hin x ltac:(set_solver)) as [Hx1 Hx2], (Hin y ltac:(set_solver)) as [Hy1 Hy2].
  rewrite Forall_forall in Hx. specialize (Hx y Hy). unfold row_le, replay_encode in Hx.
  rewrite (lex_leading 1), lex_be_bytes, Eb, Eb', Z.compare_refl in Hx by done. simpl in *.
  assert (rk_binid x.1 ≠ rk_binid y.1); [|destruct (Z.compare_spec (rk_binid x.1) (rk_binid y.1)); done || lia].
  intros E. apply H1. apply list_elem_of_fmap. exists y. split; [|done].
  destruct x as [[]], y as [[]]; simpl in *. congruence.
Qed.

(** C24: a sync cursor misses nothing and repeats nothing.  Take a cursor of a
    bin, let any operations run, and scan the bin from the next sequence
    number: the scan yields, in strictly ascending order, exactly the entries
    of the bin the reserve holds now and did not hold (under that number) when
    the cursor was read, and every number it yields is covered by the new
    cursor. *)
Theorem scan_finds_exactly_the_new r ops bin :
  reserve_ok r → Forall op_ok ops → 0 <= bin < 256 → bin_cursor bin r < 2 ^ 64 - 1 →
  let r' := run reserve_step r ops in
  let news := scan_bin_from bin (bin_cursor bin r + 1) r' in
  StronglySorted (λ a b, bi_seq a < bi_seq b) news ∧
  (∀ it, it ∈ news ↔ ∃ k v, db_entry (r_db r') !! k = Some v ∧ ev_bin v = bin ∧
     db_entry (r_db r) !! k ≠ Some v ∧ it = mkScanItem (ev_binid v) (ek_addr k) (ek_batch k) (ek_hash k)) ∧
  (∀ it, it ∈ news → bi_seq it <= bin_cursor bin r').
Proof.
  intros Hok Hops Hbin Hcur r' news.
  assert (Hok' : reserve_ok r') by (apply (run_invariant reserve_step op_ok reserve_ok); auto using reserve_ok_step).
  destruct (grows_run ops r Hok Hops) as [_ Hgrow]. fold r' in Hgrow.
  assert (Hst : 0 <= bin_cursor bin r + 1 < 2 ^ 64).
  { split; [|lia]. unfold bin_cursor. destruct (db_counter (r_db r) !! bin) as [c|] eqn:Ec; simpl; [|lia].
    apply (do_counter _ (ro_db _ Hok)) in Ec. lia. }
  pose proof (λ it, scan_elem r' bin (bin_cursor bin r + 1) it Hok' Hbin Hst) as Hel.
  split; [by apply scan_sorted|]. split.
  - intros it. unfold news. rewrite Hel. split; intros (k&v&Hk&Hb&Hx&->); exists k, v.
    + do 2 (split; [done|]). split; [|done]. intros Hold.
      pose proof (eo_binid _ _ _ (do_entry _ (ro_db _ Hok) _ _ Hold)) as Hid.
      rewrite Hb in Hid. unfold bin_cursor in Hx. lia.
    + do 2 (split; [done|]). split; [|done]. destruct (Hgrow _ _ Hk) as [?|Hlt]; [done|].
      rewrite Hb in Hlt. unfold bin_cursor, cursor_of in *. lia.
  - intros it (k&v&Hk&Hb&_&->)%Hel. pose proof (eo_binid _ _ _ (do_entry _ (ro_db _ Hok') _ _ Hk)) as Hid.
    rewrite Hb in Hid. simpl. unfold bin_cursor. lia.
Qed.

(** ** The tables agree *)

Lemma payload_iff r a :
  reserve_ok r → is_Some (db_payload (r_db r) !! a) ↔ ∃ k v, db_entry (r_db r) !! k = Some v ∧ ek_addr k = a.
Proof.
  intros Hok. pose proof (do_payload _ (ro_db _ Hok) a) as Hp. split.
  - intros [p Ep]. rewrite Ep in Hp. destruct Hp as [E H1]. rewrite E in H1.
    destruct (decide (map_Exists (λ k _, ek_addr k = a) (db_entry (r_db r)))) as [(k&v&Hk&Ha)|Hno]; [eauto|].
    exfalso. unfold refs in H1. rewrite map_sumZ_zero in H1; [lia|].
    intros k v Hk. rewrite decide_False; [done|]. intros Ha. apply Hno. by exists k, v.
  - intros (k&v&Hk&Ha). destruct (db_payload (r_db r) !! a); [done|]. exfalso.
    unfold refs in Hp. rewrite (map_sumZ_delete _ _ _ _ Hk), decide_True in Hp by done.
    pose proof (refs_nonneg a (delete k (db_entry (r_db r)))). unfold refs in *. lia.
Qed.

Lemma slot_unique r k v s k' v' s' :
  reserve_ok r →
  db_entry (r_db r) !! k = Some v → decode_stamp (ev_stamp v) = Some s →
  db_entry (r_db r) !! k' = Some v' → decode_stamp (ev_stamp v') = Some s' →
  st_batch s = st_batch s' → st_index s = st_index s' → k = k'.
Proof.
  intros Hok Hk Hd Hk' Hd' Eb Ei.
  destruct (do_entry _ (ro_db _ Hok) _ _ Hk) as [Hp _ _ _ _ _ (t&Ht&_&Hb&_&Hs)].
  destruct (do_entry _ (ro_db _ Hok) _ _ Hk') as [Hp' _ _ _ _ _ (t'&Ht'&_&Hb'&_&Hs')].
  simplify_eq. rewrite Eb, Ei, Hs' in Hs. simplify_eq.
  destruct k, k'; simpl in *; congruence.
Qed.

Lemma refs_size a m : refs a m = Z.of_nat (size (filter (λ kv, ek_addr kv.1 = a) m)).
Proof.
  unfold refs. induction m as [|k v m Hk IH] using map_ind; [by rewrite map_sumZ_empty, map_filter_empty, map_size_empty|].
  rewrite map_sumZ_insert by done. case_decide as Ha.
  - rewrite map_filter_insert_True by done. rewrite map_size_insert_None, IH; [lia|].
    apply map_lookup_filter_None. by left.
  - rewrite map_filter_insert_not' by naive_solver. lia.
Qed.


(** A second body for a stored address is discarded.  When an address is
    already stored and a stamp of a free slot is put with any chunk of that
    address, the put succeeds and reads still return the first body.  For a
    content chunk the two bodies are equal; a single-owner chunk of the same
    address may carry another one. *)
Theorem second_body_discarded r any s p r' :
  reserve_ok r → stamp_ok s →
  db_payload (r_db r) !! any_address any = Some p →
  db_slots (r_db r) !! mkSlot (st_batch s) (st_index s) = None →
  reserve_put (mkCached any (Some s)) r = (Ok tt, r') →
  ∃ chunk, reserve_get (any_address any) r' = Ok (Some chunk) ∧ any_to_bytes (cc_any chunk) = pv_bytes p.
Proof.
  intros Hok Hs Hp Hslot Hput.
  assert (Hok' : reserve_ok r').
  { replace r' with (reserve_put (mkCached any (Some s)) r).2 by by rewrite Hput.
    apply reserve_ok_put; [done|]. by intros ? [= <-]. }
  assert (Hp' : db_payload (r_db r') !! any_address any = Some (mkPayload (pv_refcnt p + 1) (pv_bytes p))).
  { revert Hput. unfold reserve_put, put_tx; simpl. change (incoming_slot _) with (mkSlot (st_batch s) (st_index s)).
    rewrite Hslot. destruct (bs_get _ _); [|done]. destruct (validate _ _ _ _ _); [|done]. simpl.
    unfold write_entry. destruct (u64_checked_add _ _); [|done]. simpl. intros [= <-]. simpl.
    unfold bump_or_insert_payload. rewrite Hp. apply lookup_insert_eq. }
  pose proof (reserve_get_spec r' (any_address any) Hok') as Hget.
  destruct (reserve_get (any_address any) r') as [[chunk|]|]; [|exfalso|done].
  - exists chunk. split; [done|]. destruct Hget as (_&Hb&_). rewrite Hp' in Hb. simpl in Hb. congruence.
  - destruct (payload_iff r' (any_address any) Hok') as [(k&v&Hk&Ha) _]; [by rewrite Hp'|]. by eapply Hget.
Qed.

(** ** What a put promises *)

(** The entry whose stamp holds a postage slot. *)
Definition holds db (batch : BatchId) (index : Z) (k : EntryKey) (s : Stamp) : Prop :=
  ∃ v, db_entry db !! k = Some v ∧ decode_stamp (ev_stamp v) = Some s ∧
       st_batch s = batch ∧ st_index s = index.

(** A holder's stamp is the one its slot row was written from. *)
Lemma holder_slot db k s :
  db_ok db → holds db (st_batch s) (st_index s) k s →
  db_slots db !! mkSlot (st_batch s) (st_index s) =
    Some (mkIndexEntry (be_bytes 8 (st_timestamp s)) (ek_hash k) (ek_addr k)) ∧ stamp_ok s.
Proof.
  intros Hdb (v&Hv&Hd&_). destruct (eo_stamp _ _ _ (do_entry _ Hdb _ _ Hv)) as (s'&Hd'&_&_&[_ Hok]&Hs).
  by simplify_eq.
Qed.

Lemma put_tx_holder db any s out db' :
  db_ok db → stamp_ok s → put_tx any s db = Ok (out, db') →
  match out with
  | PutRejected => db' = db ∧ ∃ k s', holds db (st_batch s) (st_index s) k s' ∧ st_timestamp s <= st_timestamp s'
  | _ => holds db' (st_batch s) (st_index s) (put_key any s) s ∧
         ∀ k s', holds db (st_batch s) (st_index s) k s' → st_timestamp s' < st_timestamp s
  end.
Proof.
  intros Hdb Hs Hp. pose proof (put_tx_spec _ _ _ _ _ Hdb Hs Hp) as [_ Hspec].
  revert Hp. unfold put_tx, arb_decide. change (incoming_slot _) with (mkSlot (st_batch s) (st_index s)).
  assert (Hnew : ∀ m v, ev_stamp v = stamp_to_bytes s → db_entry db' = <[put_key any s := v]> m →
    holds db' (st_batch s) (st_index s) (put_key any s) s).
  { intros m v Ev He. exists v. rewrite He, lookup_insert_eq, Ev, decode_encode by done. done. }
  assert (Hts : ∀ k s' prev, db_slots db !! mkSlot (st_batch s) (st_index s) = Some prev →
    holds db (st_batch s) (st_index s) k s' →
    bytes_ge (se_timestamp prev) (be_bytes 8 (st_timestamp s)) = bool_decide (st_timestamp s <= st_timestamp s')).
  { intros k s' prev Hsl Hh. pose proof Hh as (_&_&_&E1&E2). rewrite <-E1, <-E2 in Hh, Hsl.
    apply holder_slot in Hh as [Hh Hok']; [|done]. rewrite Hsl in Hh. simplify_eq. simpl.
    by apply bytes_ge_spec; (split; [done|apply Hok' || apply Hs]). }
  destruct (db_slots db !! mkSlot (st_batch s) (st_index s)) as [prev|] eqn:Hsl; cbn [in_timestamp].
  - destruct (bytes_ge (se_timestamp prev) (be_bytes 8 (st_timestamp s))) eqn:Hge.
    + intros [= <- <-]. split; [done|]. destruct (do_slot _ Hdb _ _ Hsl) as (v&s'&Hv&Hd&E1&E2).
      eexists _, s'. assert (Hh : holds db (st_batch s) (st_index s) _ s') by (by exists v).
      split; [exact Hh|]. specialize (Hts _ _ _ eq_refl Hh). rewrite Hge in Hts.
      by apply symmetry, bool_decide_eq_true in Hts.
    + destruct (write_entry _ _ _ _ _) as [db2|]; [|done]. simpl. intros [= <- ->].
      destruct Hspec as (k0&_&_&_&He&_). split; [by eapply Hnew; [|exact He]|].
      intros k s' Hh. specialize (Hts _ _ _ eq_refl Hh). rewrite Hge in Hts.
      by apply symmetry, bool_decide_eq_false, Z.nle_gt in Hts.
  - destruct (write_entry _ _ _ _ _) as [db2|]; [|done]. simpl. intros [= <- ->].
    destruct Hspec as (_&_&He&_). split; [by eapply Hnew; [|exact He]|].
    intros k s' Hh. pose proof Hh as (_&_&_&E1&E2). rewrite <-E1, <-E2 in Hh, Hsl.
    apply holder_slot in Hh as [Hh _]; [|done]. congruence.
Qed.

(** C26: a put admits only stamps that pass every check, and leaves the newest
    stamp in the slot.  A refused put changes nothing.  A put that returns
    success had a stamp of a known batch that is usable, not expired, within
    its batch and bucket and signed by the batch's owner; and afterwards either
    the chunk's entry holds the stamp's slot, the stamp being strictly newer
    than what held it before, or nothing changed because the slot's holder is at
    least as new. *)
Theorem put_admits_newest chunk r :
  reserve_ok r → (∀ s, cc_stamp chunk = Some s → stamp_ok s) →
  let '(res, r') := reserve_put chunk r in
  match res with
  | Err _ => r' = r
  | Ok _ => ∃ s batch, cc_stamp chunk = Some s ∧ bs_get (r_batches r) (st_batch s) = Some batch ∧
      (is_usable batch (ctx_block (bs_get_context (r_batches r))) (r_threshold r) = true ∧
       is_expired batch (ctx_total (bs_get_context (r_batches r))) = false ∧
       validate_index batch (st_index s) = Ok tt ∧
       validate_bucket batch (st_index s) (any_address (cc_any chunk)) = Ok tt ∧
       verify s (any_address (cc_any chunk)) (owner batch) = Ok tt) ∧
      ((holds (r_db r') (st_batch s) (st_index s) (put_key (cc_any chunk) s) s ∧
        ∀ k s', holds (r_db r) (st_batch s) (st_index s) k s' → st_timestamp s' < st_timestamp s) ∨
       (r' = r ∧ ∃ k s', holds (r_db r) (st_batch s) (st_index s) k s' ∧ st_timestamp s <= st_timestamp s'))
  end.
Proof.
  intros Hok Hs. unfold reserve_put. destruct (cc_stamp chunk) as [s|]; [|done].
  destruct (bs_get (r_batches r) (st_batch s)) as [batch|] eqn:Hb; [|done].
  destruct (validate _ s _ batch _) as [[]|e] eqn:Hv; [|done].
  destruct (put_tx (cc_any chunk) s (r_db r)) as [[out db']|e] eqn:Hp; [|done].
  apply put_tx_holder in Hp; [|apply Hok|by apply Hs].
  apply validate_ok in Hv. destruct out; exists s, batch; (do 3 (split; [done|])); simpl; auto.
  right. destruct Hp as [-> Hp]. split; [by destruct r|done].
Qed.
End sync.
