(* ===== verification/ReserveDemo.v ===== *)
(** * A concrete reserve

    An instance of the chunk and postage libraries the reserve is stated over
    (32 proximity orders by residue, an injective encoding of byte lists in
    place of keccak, the fixed-width stamp layout), a trace of operations on it,
    and the reserve theorems applied there. *)

From S2P Require Import Prelude.
From S2P Require Import Bytes.
From S2P Require Import Postage.
From S2P Require Import Cursor.
From S2P Require Import ReserveTx.
From S2P Require Import ReserveStore.
From S2P Require Import ReserveSpec.
From S2P Require Import ReserveSync.

Definition demo_to_bytes (s : Stamp) : list Z :=
  be_bytes 32 (st_batch s) ++ be_bytes 8 (st_index s) ++ be_bytes 8 (st_timestamp s) ++ st_sig s.

Definition demo_decode (l : list Z) : option Stamp :=
  Some (mkStamp (of_be (take 32 l)) (of_be (take 8 (drop 32 l))) (of_be (take 8 (drop 40 l))) (drop 48 l)).

#[export] Instance demo_env : ReserveEnv := {|
  po_of a := a mod 32;
  bin_of a := a mod 32;
  keccak256 l := Zpos (encode l);
  stamp_to_bytes := demo_to_bytes;
  stamp_from_bytes := demo_decode;
  AnyChunk := Z * Z * list Z;
  any_address c := c.1.1;
  any_type c := c.1.2;
  any_to_bytes c := c.1.2 :: c.2;
  any_from_bytes a l := match l with t :: d => Some (a, t, d) | [] => None end;
|}.

Lemma demo_fields s :
  take 32 (demo_to_bytes s) = be_bytes 32 (st_batch s) ∧
  take 8 (drop 32 (demo_to_bytes s)) = be_bytes 8 (st_index s) ∧
  take 8 (drop 40 (demo_to_bytes s)) = be_bytes 8 (st_timestamp s) ∧
  drop 48 (demo_to_bytes s) = st_sig s.
Proof.
  unfold demo_to_bytes. pose proof (be_bytes_length 32 (st_batch s)). pose proof (be_bytes_length 8 (st_index s)).
  pose proof (be_bytes_length 8 (st_timestamp s)).
  replace 40%nat with (32 + 8)%nat by done. replace 48%nat with (32 + (8 + 8))%nat by done.
  rewrite <-!drop_drop, !drop_app_length', !take_app_length' by done.
  done.
Qed.

#[export] Instance demo_laws : ReserveEnvLaws.
Proof.
  split.
  - intros a. pose proof (Z.mod_pos_bound a 32). simpl. lia.
  - intros a. pose proof (Z.mod_pos_bound a 32). simpl. lia.
  - intros a. pose proof (Z.mod_pos_bound a 32). simpl. lia.
  - intros s t _ _ [= E%(inj encode)]. exact E.
  - intros s (Hb&Hi&Ht). simpl. destruct (demo_fields s) as (E1&E2&E3&E4).
    unfold demo_decode. rewrite E1, E2, E3, E4, !of_be_bytes_id by done. by destruct s.
  - intros s (Hb&Hi&Ht). destruct (demo_fields s) as (_&_&E3&_). unfold stamp_timestamp. simpl stamp_to_bytes.
    rewrite E3, decide_True by apply be_bytes_length. by rewrite of_be_bytes_id.
  - by intros [[]].
Qed.

#[export] Instance demo_postage : PostageEnv := {|
  Batch := Z * Z * Z;
  PostageContext := Z * Z;
  default_context := (0, 0);
  ctx_block := fst;
  ctx_total := snd;
  batch_id b := b.1.1;
  batch_value b := b.1.2;
  set_value v b := (b.1.1, v, b.2);
  set_depth d b := (b.1.1, b.1.2, d);
  is_usable _ _ _ := true;
  is_expired b total := bool_decide (b.1.2 <= total);
  validate_index b i := if decide (i mod 2 ^ 32 < 2 ^ b.2) then Ok tt else Err (StampOther "index");
  validate_bucket _ _ _ := Ok tt;
  owner b := b.1.1;
  verify s _ o := if decide (st_sig s = [o]) then Ok tt else Err (StampOwnerMismatch o 0);
|}.

(** Two batches; address 5 stamped by both, address 37 (the same bin) and
    address 6 by the first. *)
Definition demo_batches : DbBatchStore := bs_put (bs_put (mkBatchStore ∅ None) (1, 100, 4)) (2, 100, 4).

Definition demo_chunk (address ty : Z) (data : list Z) (batch index ts : Z) : CachedChunk :=
  mkCached (address, ty, data) (Some (mkStamp batch index ts [batch])).

Definition demo_ops : list ReserveOp :=
  [OpPut (demo_chunk 5 0 [7; 7] 1 0 10); OpPut (demo_chunk 5 0 [7; 7] 2 0 11);
   OpPut (demo_chunk 37 0 [8] 1 1 12); OpPut (demo_chunk 6 0 [9] 1 2 13)].

Definition demo_start : DbReserve := reserve_open db_empty demo_batches 0 2 0 0.
Definition demo_reserve : DbReserve := run reserve_step demo_start demo_ops.

Lemma demo_op_ok address ty data batch index ts :
  0 <= batch < 256 → 0 <= index < 256 → 0 <= ts < 256 →
  op_ok (OpPut (demo_chunk address ty data batch index ts)).
Proof. intros ??? s [= <-]. unfold stamp_ok, is_b256; simpl. lia. Qed.

Lemma demo_ops_ok : Forall op_ok demo_ops.
Proof. repeat (apply Forall_cons; split; [apply demo_op_ok; lia|]). by apply Forall_nil. Qed.

Lemma demo_ok : reserve_ok demo_reserve.
Proof. apply reserve_ok_run, demo_ops_ok. Qed.

#[local] Opaque demo_reserve.

Lemma get_returns_newest_witness :
  reserve_ok demo_reserve ∧
  match reserve_get 5 demo_reserve with
  | Ok (Some c) => any_address (cc_any c) = 5 ∧ st_timestamp <$> cc_stamp c = Some 11
  | _ => False
  end.
Proof.
  split; [apply demo_ok|]. pose proof (get_returns_newest demo_reserve 5 demo_ok) as H.
  assert (E : match reserve_get 5 demo_reserve with
    | Ok (Some c) => st_timestamp <$> cc_stamp c | _ => None end = Some 11) by (vm_compute; reflexivity).
  revert E H. generalize (reserve_get 5 demo_reserve). intros [[c|]|] E H; [|discriminate E|destruct H].
  split; [apply H|exact E].
Defined.

Lemma evict_to_capacity_spec_witness :
  reserve_ok demo_reserve ∧ 0 <= r_capacity demo_reserve ∧
  reserve_count (evict_to_capacity demo_reserve).2 = 2.
Proof.
  split; [apply demo_ok|]. split; [vm_compute; discriminate|].
  pose proof (evict_to_capacity_spec demo_reserve demo_ok ltac:(vm_compute; discriminate)) as H.
  destruct (evict_to_capacity demo_reserve) as [n r']. destruct H as (H&_). simpl. rewrite H.
  vm_compute. reflexivity.
Defined.

Lemma evict_batch_exact_witness :
  reserve_ok demo_reserve ∧ batch_size 1 None demo_reserve <= 10 ∧
  ∀ k, ek_batch k = 2 →
    db_entry (r_db (evict_batch 1 None 10 demo_reserve).2) !! k = db_entry (r_db demo_reserve) !! k.
Proof.
  split; [apply demo_ok|]. split; [vm_compute; discriminate|]. intros k Hk.
  pose proof (evict_batch_exact demo_reserve 1 None 10 demo_ok ltac:(by split) ltac:(lia)
    ltac:(vm_compute; discriminate)) as H.
  destruct (evict_batch 1 None 10 demo_reserve) as [n r']. destruct H as (_&_&_&H). simpl.
  rewrite H, decide_False; [done|]. intros [E _]. rewrite Hk in E. discriminate E.
Defined.

Lemma scan_finds_exactly_the_new_witness :
  let r := run reserve_step demo_start (take 1 demo_ops) in
  let r' := run reserve_step r (drop 1 demo_ops) in
  reserve_ok r ∧ bin_cursor 5 r = 1 ∧
  bi_address <$> scan_bin_from 5 2 r' = [5; 37] ∧
  StronglySorted (λ a b, bi_seq a < bi_seq b) (scan_bin_from 5 2 r').
Proof.
  intros r r'. assert (Hok : reserve_ok r).
  { apply reserve_ok_run. apply Forall_take, demo_ops_ok. }
  split; [exact Hok|]. split; [vm_compute; reflexivity|]. split; [vm_compute; reflexivity|].
  apply (scan_finds_exactly_the_new r (drop 1 demo_ops) 5 Hok).
  - apply Forall_drop, demo_ops_ok.
  - lia.
  - vm_compute. reflexivity.
Defined.


(** A single-owner chunk at address 5 with another body. *)
Lemma second_body_discarded_witness :
  let any : AnyChunk := (5, 1, [6]) in
  let r' := (reserve_put (mkCached any (Some (mkStamp 2 1 20 [2]))) demo_reserve).2 in
  ∃ chunk, reserve_get 5 r' = Ok (Some chunk) ∧ any_to_bytes (cc_any chunk) = [0; 7; 7].
Proof.
  intros any r'.
  apply (second_body_discarded demo_reserve any (mkStamp 2 1 20 [2]) (mkPayload 2 [0; 7; 7]) r' demo_ok).
  - unfold stamp_ok, is_b256; simpl; lia.
  - vm_compute. reflexivity.
  - vm_compute. reflexivity.
  - apply injective_projections; [vm_compute; reflexivity|reflexivity].
Defined.

Lemma put_admits_newest_witness :
  let chunk := demo_chunk 5 0 [7; 7] 1 0 30 in
  let '(res, r') := reserve_put chunk demo_reserve in
  res = Ok tt ∧ ∃ k s', holds (r_db r') 1 0 k s' ∧ 30 <= st_timestamp s'.
Proof.
  intros chunk. pose proof (put_admits_newest chunk demo_reserve demo_ok
    (demo_op_ok 5 0 [7; 7] 1 0 30 ltac:(lia) ltac:(lia) ltac:(lia))) as H.
  assert (E : (reserve_put chunk demo_reserve).1 = Ok tt) by (vm_compute; reflexivity).
  destruct (reserve_put chunk demo_reserve) as [res r']. simpl in E. subst res. split; [reflexivity|].
  destruct H as (s&b&[= <-]&_&_&[[H _]|(->&k&s'&H&Hle)]).
  - eexists _, _. split; [exact H|]. simpl. lia.
  - exists k, s'. split; [exact H|exact Hle].
Defined.
