(* ===== verification/Radius.v ===== *)
(** * The storage radius

    Models [crates/swarm/storer/src/radius.rs]: the pure decision
    [derive_radius], the occupancy snapshot, the grow loop and the controller
    that sheds bins of the reserve and commits the new radius.  A radius is a
    bin, a number from 0 to [MAX_PO]; the shed closure of [grow_to_capacity]
    threads the reserve it mutates. *)

From S2P Require Import Prelude.
From S2P Require Import Postage.
From S2P Require Import Cursor.
From S2P Require Import ReserveTx.
From S2P Require Import ReserveStore.
From S2P Require Import ReserveSpec.

(** The deepest bin; [tests/interop.rs] of the pullsync crate states its value. *)
Definition MAX_PO : Z := 31.

(** Entries one shed may remove from a bin. *)
Definition BIN_EVICT_MAX : Z := 10000.

Inductive RadiusDecision :=
| Hold
| Shrink (radius : Z)
| Grow (radius : Z).

Inductive RadiusOutcome :=
| WithinCapacity (radius : Z)
| AtCeiling (radius : Z).

Record ReserveOccupancy := mkOccupancy {
  oc_within : Z;
  oc_total : Z;
  oc_capacity : Z;
  oc_radius : Z;
}.

Definition shrink_threshold (capacity : Z) : Z := u64_saturating_mul capacity 5 `div` 10.

Definition step_up (radius : Z) : option Z :=
  if decide (MAX_PO <= radius) then None else Some (radius + 1).

Definition step_down (radius : Z) : option Z :=
  if decide (radius = 0) then None else Some (radius - 1).

Definition derive_radius (occ : ReserveOccupancy) (minimum_radius : Z) (syncing_idle : bool) :
    RadiusDecision :=
  if decide (oc_capacity occ < oc_total occ) then
    match step_up (oc_radius occ) with
    | Some next => Grow next
    | None => Hold
    end
  else if syncing_idle && bool_decide (oc_within occ < shrink_threshold (oc_capacity occ))
          && bool_decide (minimum_radius < oc_radius occ) then
    match step_down (oc_radius occ) with
    | Some next => Shrink next
    | None => Hold
    end
  else Hold.

(** The grow loop, [fuel] bounding its iterations; [None] is running out. *)
Fixpoint grow_loop {S} (fuel : nat) (capacity : Z) (shed : Z → S → Z * S)
    (radius total : Z) (s : S) : option (RadiusOutcome * S) :=
  match fuel with
  | O => None
  | S fuel =>
      if decide (capacity < total) then
        match step_up radius with
        | Some next =>
            let '(total, s) := shed radius s in
            if decide (total <= capacity) then Some (WithinCapacity next, s)
            else grow_loop fuel capacity shed next total s
        | None => Some (AtCeiling radius, s)
        end
      else Some (WithinCapacity radius, s)
  end.

(** Each iteration but the last raises the radius, which starts at 0 or above
    and stops at [MAX_PO]. *)
Definition grow_to_capacity {S} (start capacity total : Z) (shed : Z → S → Z * S) (s : S) :
    option (RadiusOutcome * S) :=
  grow_loop (Z.to_nat (MAX_PO + 1)) capacity shed start total s.

Definition outcome_radius (o : RadiusOutcome) : Z :=
  match o with WithinCapacity n | AtCeiling n => n end.

Section controller.
Context {RE : ReserveEnv} {PE : PostageEnv}.
Implicit Types r : DbReserve.

Definition occupancy_of r : ReserveOccupancy :=
  let radius := storage_radius r in
  mkOccupancy
    (foldl (λ within po, u64_saturating_add within (count_in po r)) 0
       (seqZ radius (MAX_PO + 1 - radius)))
    (reserve_count r) (r_capacity r) radius.

Record RadiusController := mkController { minimum_radius : Z }.

Definition decide_radius (c : RadiusController) (occ : ReserveOccupancy) (idle : bool) : RadiusDecision :=
  derive_radius occ (minimum_radius c) idle.

Definition decide_for (c : RadiusController) r (idle : bool) : RadiusDecision :=
  decide_radius c (occupancy_of r) idle.

(** The shed closure of [apply]. *)
Definition shed_bin (radius : Z) r : Z * DbReserve :=
  let r := (evict_from_bin radius BIN_EVICT_MAX r).2 in (reserve_count r, r).

Definition radius_apply (c : RadiusController) (idle : bool) r : option (Z * DbReserve) :=
  let occ := occupancy_of r in
  match decide_radius c occ idle with
  | Hold => Some (oc_radius occ, r)
  | Shrink next => Some (next, set_storage_radius next r)
  | Grow _ =>
      '(outcome, r) ← grow_to_capacity (oc_radius occ) (oc_capacity occ) (oc_total occ) shed_bin r;
      let next := outcome_radius outcome in
      Some (next, set_storage_radius next r)
  end.
End controller.

(** ** The loop *)

(** The loop returns, and what every shed maintains holds at the end: the total
    fits, or the radius is as deep as it goes. *)
Lemma grow_loop_spec {S} (shed : Z → S → Z * S) (tot : S → Z) (I : Z → S → Prop) capacity fuel :
  (∀ radius s, I radius s → capacity < tot s → radius < MAX_PO →
     (shed radius s).1 = tot (shed radius s).2 ∧ I (radius + 1) (shed radius s).2) →
  ∀ radius s, radius <= MAX_PO → MAX_PO - radius < Z.of_nat fuel → I radius s →
  ∃ o s', grow_loop fuel capacity shed radius (tot s) s = Some (o, s') ∧
    I (outcome_radius o) s' ∧ radius <= outcome_radius o <= MAX_PO ∧
    (capacity < tot s → radius < MAX_PO → radius < outcome_radius o) ∧
    match o with
    | WithinCapacity _ => tot s' <= capacity
    | AtCeiling n => n = MAX_PO ∧ capacity < tot s'
    end.
Proof.
  intros Hshed. induction fuel as [|fuel IH]; intros radius s Hr Hf HI; simpl; [lia|].
  case_decide as Hc; [|eexists _, s; split; [done|]; simpl; split; [done|]; lia].
  unfold step_up. case_decide as Hm; [eexists _, s; split; [done|]; simpl; split; [done|]; lia|].
  destruct (Hshed radius s HI Hc ltac:(lia)) as [Ht HI']. destruct (shed radius s) as [t s1]. simpl in *. subst t.
  case_decide as Hfit; [eexists _, s1; split; [done|]; simpl; split; [done|]; lia|].
  destruct (IH (radius + 1) s1) as (o&s'&E&HI2&Hle&_&Ho); [lia..|done|].
  exists o, s'. split; [done|]. split; [done|]. split; [lia|]. split; [lia|done].
Qed.

(** ** Shedding a bin *)

Section shed.
Context `{RL : ReserveEnvLaws} {PE : PostageEnv}.
Implicit Types r : DbReserve.

Lemma evict_entries_fields ts r :
  let r' := (evict_entries ts r).2 in
  r_radius r' = r_radius r ∧ r_capacity r' = r_capacity r ∧ r_batches r' = r_batches r.
Proof. unfold evict_entries. destruct ts; [done|]. by destruct (delete_targets _ _). Qed.

Lemma count_in_rows r po :
  reserve_ok r → 0 <= po < 256 →
  count_in po r = Z.of_nat (length (filter (λ row, ek_po row.1 = po) (entry_rows r))).
Proof. intros Hok Hpo. unfold count_in. by rewrite po_scan. Qed.

(** Evicting from a bin removes up to [max] of its entries and no others. *)
Lemma evict_from_bin_spec r bin max :
  reserve_ok r → 0 <= bin < 256 → 0 < max →
  let r' := (evict_from_bin bin max r).2 in
  reserve_ok r' ∧ r_radius r' = r_radius r ∧ r_capacity r' = r_capacity r ∧ r_batches r' = r_batches r ∧
  reserve_count r' = reserve_count r - Z.min max (count_in bin r) ∧
  (∀ k, ek_po k ≠ bin → db_entry (r_db r') !! k = db_entry (r_db r) !! k) ∧
  (count_in bin r <= max → ∀ k, ek_po k = bin → db_entry (r_db r') !! k = None) ∧
  (max < count_in bin r → ∃ k, ek_po k = bin ∧ is_Some (db_entry (r_db r') !! k)).
Proof.
  intros Hok Hbin Hmax. unfold evict_from_bin. rewrite decide_False by lia.
  rewrite collect_up_to_spec by (simpl; lia). simpl app. rewrite Nat.sub_0_r, po_scan by done.
  rewrite (count_in_rows r bin Hok Hbin). set (all := filter _ (entry_rows r)). set (l := take _ all).
  assert (Hsub : sublist l (entry_rows r)).
  { etrans; [apply sublist_take|]. apply sublist_filter. }
  assert (Hin : ∀ row, row ∈ l → row ∈ entry_rows r) by eauto using elem_of_sublist.
  pose proof (evict_rows r l) as Hrows. pose proof (evict_rows_count r l Hok Hin (NoDup_prefix_rows r l Hsub)) as Hcount.
  pose proof (reserve_ok_evict (target_of <$> l) r Hok) as Hok'.
  destruct (evict_entries_fields (target_of <$> l) r) as (F1&F2&F3).
  destruct (evict_entries (target_of <$> l) r) as [n r']. simpl in *.
  do 4 (split; [done|]). split; [|split; [|split]].
  - rewrite (ro_count _ Hok'), (ro_count _ Hok) in Hcount. unfold reserve_count. rewrite Hcount.
    unfold l. rewrite length_take. lia.
  - intros k Hk. rewrite Hrows by done. rewrite decide_False; [done|].
    intros Hel. apply list_elem_of_fmap in Hel as (row&->&Hrow). apply Hk.
    assert (row ∈ all) as Hall by (by eapply elem_of_sublist, sublist_take).
    by apply list_elem_of_filter in Hall as [? _].
  - intros Hfit k Hk. rewrite Hrows by done. case_decide as Hel; [done|].
    destruct (db_entry (r_db r) !! k) as [v|] eqn:Ev; [|done]. exfalso. apply Hel.
    apply list_elem_of_fmap. exists (k, v). split; [done|]. unfold l. rewrite take_ge by lia.
    apply list_elem_of_filter. split; [done|]. by apply elem_of_rows.
  - intros Hmore. destruct (lookup_lt_is_Some_2 all (Z.to_nat max)) as [[k v] Hrow]; [lia|].
    pose proof (list_elem_of_lookup_2 _ _ _ Hrow) as [Hpo Hel]%list_elem_of_filter. exists k. split; [done|].
    rewrite Hrows by done. rewrite decide_False; [by apply elem_of_rows in Hel as ->|].
    intros (row&Ek&Hl)%list_elem_of_fmap. apply list_elem_of_lookup in Hl as [i Hi].
    apply lookup_take_Some in Hi as [Hi Hlt].
    assert (Hnd : NoDup all.*1) by (apply (NoDup_prefix_rows r), sublist_filter).
    assert (i = Z.to_nat max); [|lia]. eapply (NoDup_lookup _ _ _ k Hnd); rewrite list_lookup_fmap.
    + by rewrite Hi, Ek.
    + by rewrite Hrow.
Qed.

(** ** Occupancy *)

Definition within (radius : Z) r : Z :=
  Z.of_nat (length (filter (λ row, radius <= ek_po row.1) (entry_rows r))).

Lemma sumZ_plus {A} (f g : A → Z) l : sumZ (λ x, f x + g x) l = sumZ f l + sumZ g l.
Proof. induction l; simpl; lia. Qed.

Lemma sumZ_hit x a n :
  sumZ (λ y, if decide (x = y) then 1 else 0) (seqZ a (Z.of_nat n)) =
  if decide (a <= x < a + Z.of_nat n) then 1 else 0.
Proof.
  revert a. induction n as [|n IH]; intros a; [rewrite decide_False by lia; done|].
  rewrite seqZ_cons by lia. replace (Z.pred (Z.of_nat (S n))) with (Z.of_nat n) by lia.
  simpl. rewrite IH. repeat case_decide; lia.
Qed.

(** Counting bin by bin counts the range. *)
Lemma count_bins (l : list (EntryKey * EntryValue)) a n :
  sumZ (λ po, Z.of_nat (length (filter (λ row, ek_po row.1 = po) l))) (seqZ a (Z.of_nat n)) =
  Z.of_nat (length (filter (λ row, a <= ek_po row.1 < a + Z.of_nat n) l)).
Proof.
  induction l as [|row l IH]; simpl.
  { induction (seqZ a (Z.of_nat n)); simpl; lia. }
  transitivity (sumZ (λ po, (if decide (ek_po row.1 = po) then 1 else 0) +
    Z.of_nat (length (filter (λ row, ek_po row.1 = po) l))) (seqZ a (Z.of_nat n))).
  { apply sumZ_ext. intros po _. case_decide; [rewrite filter_cons_True by done|rewrite filter_cons_False by done];
      simpl; lia. }
  rewrite sumZ_plus, IH. clear IH. rewrite sumZ_hit.
  case_decide; [rewrite filter_cons_True by done|rewrite filter_cons_False by done]; simpl; lia.
Qed.

Lemma foldl_saturating (f : Z → Z) l acc :
  (∀ x, x ∈ l → 0 <= f x) → 0 <= acc → acc + sumZ f l <= u64_max →
  foldl (λ a x, u64_saturating_add a (f x)) acc l = acc + sumZ f l.
Proof.
  revert acc. induction l as [|x l IH]; intros acc Hf Ha Hs; simpl in *; [lia|].
  assert (0 <= sumZ f l) by (apply sumZ_nonneg, Forall_forall; set_solver).
  assert (0 <= f x) by set_solver. unfold u64_saturating_add at 2. rewrite Z.min_r by lia.
  rewrite IH; [lia|set_solver|lia|lia].
Qed.

Lemma occupancy_within r :
  reserve_ok r → 0 <= storage_radius r <= MAX_PO → reserve_count r <= u64_max →
  oc_within (occupancy_of r) = within (storage_radius r) r.
Proof.
  intros Hok Hr Hc. simpl.
  assert (Hlen : within (storage_radius r) r <= reserve_count r).
  { unfold within, reserve_count. rewrite <-(rows_length entry_encode). apply inj_le, length_filter. }
  assert (Hsum : sumZ (λ po, count_in po r) (seqZ (storage_radius r) (MAX_PO + 1 - storage_radius r)) =
    within (storage_radius r) r).
  { transitivity (sumZ (λ po, Z.of_nat (length (filter (λ row, ek_po row.1 = po) (entry_rows r))))
      (seqZ (storage_radius r) (Z.of_nat (Z.to_nat (MAX_PO + 1 - storage_radius r))))).
    - rewrite Z2Nat.id by (unfold MAX_PO in *; lia). apply sumZ_ext. intros po Hpo%elem_of_seqZ.
      apply count_in_rows; [done|]. unfold MAX_PO in *. lia.
    - rewrite count_bins. unfold within. f_equal. f_equal. apply filter_ext_elem. intros row Hrow.
      destruct (entry_row_po r row Hok Hrow) as [_ E]. pose proof (po_max (ek_addr row.1)). unfold MAX_PO in *. lia. }
  rewrite foldl_saturating; [lia| |lia|lia]. intros po _. unfold count_in. lia.
Qed.

(** ** Applying a decision *)

(** What holds while the grow loop has raised the radius from [rad0] to
    [radius], the reserve having started as [r0]. *)
Record shed_ok (r0 : DbReserve) (rad0 radius : Z) r : Prop := {
  sh_ok : reserve_ok r;
  sh_radius : r_radius r = r_radius r0;
  sh_entries : ∀ k, db_entry (r_db r) !! k =
    if decide (rad0 <= ek_po k < radius) then None else db_entry (r_db r0) !! k;
  sh_needed : rad0 < radius → r_capacity r0 < reserve_count r + count_in (radius - 1) r0;
}.

Lemma count_in_same r r' po :
  reserve_ok r → reserve_ok r' → 0 <= po < 256 →
  (∀ k, ek_po k = po → db_entry (r_db r') !! k = db_entry (r_db r) !! k) → count_in po r' = count_in po r.
Proof.
  intros Hok Hok' Hpo Hk. rewrite !count_in_rows by done. f_equal. apply Permutation_length.
  apply NoDup_Permutation.
  1,2: apply NoDup_filter, (NoDup_fmap_1 fst), rows_NoDup.
  intros [k v]. rewrite !list_elem_of_filter. unfold entry_rows. rewrite !elem_of_rows. simpl.
  split; intros [E Hlk]; (split; [done|]); [rewrite <-Hk|rewrite Hk]; done.
Qed.

Lemma shed_bin_ok r0 rad0 radius r :
  shed_ok r0 rad0 radius r → 0 <= rad0 <= radius → radius < MAX_PO →
  r_capacity r0 < reserve_count r → reserve_ok r0 → count_in radius r0 <= BIN_EVICT_MAX →
  shed_ok r0 rad0 (radius + 1) (shed_bin radius r).2.
Proof.
  intros [Hok Hrad He _] Hle Hmax Hover Hok0 Hbin. unfold MAX_PO in *.
  assert (Hsame : count_in radius r = count_in radius r0).
  { apply count_in_same; [done|done|lia|]. intros k Hk. rewrite He, decide_False by lia. done. }
  destruct (evict_from_bin_spec r radius BIN_EVICT_MAX) as (Hok'&F1&_&_&Hc&Hkeep&Hgone&_); [done|lia|done|].
  unfold shed_bin. simpl. split.
  - done.
  - congruence.
  - intros k. destruct (decide (ek_po k = radius)) as [E|E].
    + rewrite Hgone by (done || lia). by rewrite decide_True by lia.
    + rewrite Hkeep, He by done. by repeat case_decide; try lia.
  - intros _. replace (radius + 1 - 1) with radius by lia. rewrite Hc. lia.
Qed.

(** One control step does what the radius rule says, and terminates.  With
    no bin fuller than one shed can empty: within capacity it evicts nothing
    and steps down exactly when the node is idle, under-filled and above its
    floor; over capacity it empties bins from the boundary inwards, keeping
    everything else, until the reserve fits or the radius is at its deepest, and
    never sheds a bin it did not need to. *)
Theorem radius_apply_spec c idle r :
  reserve_ok r → 0 <= r_radius r <= MAX_PO → 0 <= minimum_radius c → reserve_count r <= u64_max →
  (∀ po, r_radius r <= po <= MAX_PO → count_in po r <= BIN_EVICT_MAX) →
  let rad := storage_radius r in
  ∃ rad' r', radius_apply c idle r = Some (rad', r') ∧ reserve_ok r' ∧ storage_radius r' = rad' ∧
  if decide (r_capacity r < reserve_count r) then
    rad <= rad' <= MAX_PO ∧
    (∀ k, db_entry (r_db r') !! k =
       if decide (rad <= ek_po k < rad') then None else db_entry (r_db r) !! k) ∧
    (reserve_count r' <= r_capacity r ∨ rad' = MAX_PO) ∧
    (rad < rad' → r_capacity r < reserve_count r' + count_in (rad' - 1) r)
  else
    r_db r' = r_db r ∧
    rad' = if idle && bool_decide (within rad r < shrink_threshold (r_capacity r)) &&
              bool_decide (minimum_radius c < rad)
           then rad - 1 else rad.
Proof.
  intros Hok Hrad Hmin Hu64 Hbins rad.
  assert (Erad : rad = r_radius r) by (unfold rad, storage_radius; rewrite decide_True by (unfold MAX_PO in *; lia); done).
  assert (Hset : ∀ n r', 0 <= n <= MAX_PO → storage_radius (set_storage_radius n r') = n).
  { intros n r' Hn. unfold storage_radius, set_storage_radius. simpl. rewrite decide_True; [done|]. unfold MAX_PO in *. lia. }
  assert (Hset_ok : ∀ n r', reserve_ok r' → reserve_ok (set_storage_radius n r')) by (intros n r' []; by split).
  unfold radius_apply, decide_radius, derive_radius. rewrite (occupancy_within r) by (done || fold rad; lia).
  simpl oc_capacity. simpl oc_total. simpl oc_radius. fold rad. case_decide as Hover.
  - unfold step_up. case_decide as Hm.
    { exists rad, r. do 3 (split; [done|]). split; [lia|]. split; [|lia].
      intros k. by rewrite decide_False by lia. }
    destruct (grow_loop_spec shed_bin reserve_count (λ radius r', rad <= radius ∧ shed_ok r rad radius r')
      (r_capacity r) (Z.to_nat (MAX_PO + 1))) with (radius := rad) (s := r) as (o&r'&E&[_ Hsh]&Hle&_&Ho).
    + intros radius r1 [Hle Hsh] Hc Hlt. split; [done|]. split; [lia|].
      apply shed_bin_ok; try done; [lia|]. apply Hbins. lia.
    + lia.
    + unfold MAX_PO. lia.
    + split; [done|]. split; [done|done| |lia]. intros k. by rewrite decide_False by lia.
    + unfold grow_to_capacity. rewrite E. simpl. eexists _, _. split; [done|].
      destruct Hsh as [Hok' Hr' He Hn]. split; [by apply Hset_ok|]. split; [apply Hset; lia|].
      do 2 (split; [done || lia|]). split; [|done]. destruct o; cbn [outcome_radius]; [by left|right; lia].
  - destruct (idle && _ && _) eqn:Eb; [|by exists rad, r].
    apply andb_true_iff in Eb as [_ Eb%bool_decide_eq_true]. unfold step_down. rewrite decide_False by lia.
    eexists _, _. split; [done|]. split; [by apply Hset_ok|]. split; [apply Hset; lia|done].
Qed.

(** A control step never touches the bins below the radius. *)
Lemma apply_keeps_shallow c idle r rad' r' k :
  reserve_ok r → 0 <= r_radius r <= MAX_PO → radius_apply c idle r = Some (rad', r') →
  ek_po k < r_radius r → db_entry (r_db r') !! k = db_entry (r_db r) !! k.
Proof.
  intros Hok Hrad Happ Hk. revert Happ. unfold radius_apply. assert (Erad : storage_radius r = r_radius r).
  { unfold storage_radius. rewrite decide_True; [done|]. unfold MAX_PO in *. lia. }
  destruct (decide_radius _ _ _); [by intros [= <- <-]..|].
  unfold occupancy_of. cbn [oc_radius oc_capacity oc_total]. rewrite Erad.
  destruct (grow_loop_spec shed_bin reserve_count
    (λ radius r1, r_radius r <= radius ∧ reserve_ok r1 ∧ db_entry (r_db r1) !! k = db_entry (r_db r) !! k)
    (r_capacity r) (Z.to_nat (MAX_PO + 1))) with (radius := r_radius r) (s := r) as (o&r1&E&(_&_&Hsame)&_);
    [|lia|unfold MAX_PO; lia|done|].
  - intros rd r1 (Hle&Hok1&Hsame) _ Hlt. split; [done|]. split; [lia|]. unfold MAX_PO in *.
    destruct (evict_from_bin_spec r1 rd BIN_EVICT_MAX) as (Hok'&_&_&_&_&Hkeep&_); [done|lia|done|].
    split; [done|]. rewrite <-Hsame. apply Hkeep. lia.
  - unfold grow_to_capacity. rewrite E. intros [= <- <-]. done.
Qed.

(** A bin too full for one shed is left behind.  When the boundary bin of
    an over-full reserve holds more than [BIN_EVICT_MAX] entries, the control
    step moves the radius past it although entries of it remain, and the next
    control step, whatever it decides, leaves them there. *)
Theorem oversized_bin_stranded c idle r :
  reserve_ok r → 0 <= r_radius r < MAX_PO → r_capacity r < reserve_count r →
  BIN_EVICT_MAX < count_in (r_radius r) r →
  ∃ rad' r' k, radius_apply c idle r = Some (rad', r') ∧ reserve_ok r' ∧
    r_radius r < rad' ∧ storage_radius r' = rad' ∧
    ek_po k = r_radius r ∧ is_Some (db_entry (r_db r') !! k) ∧
    ∀ c2 idle2 rad2 r2, radius_apply c2 idle2 r' = Some (rad2, r2) →
      db_entry (r_db r2) !! k = db_entry (r_db r') !! k.
Proof.
  intros Hok Hrad Hover Hbig. unfold radius_apply at 1.
  assert (Erad : storage_radius r = r_radius r).
  { unfold storage_radius. rewrite decide_True; [done|]. unfold MAX_PO in *. lia. }
  unfold decide_radius, derive_radius. simpl oc_capacity. simpl oc_total. simpl oc_radius.
  rewrite Erad, decide_True by done. unfold step_up. rewrite decide_False by lia.
  destruct (grow_loop_spec shed_bin reserve_count
    (λ radius r1, r_radius r <= radius ∧ reserve_ok r1 ∧ (radius = r_radius r → r1 = r) ∧
       (r_radius r < radius → ∃ k, ek_po k = r_radius r ∧ is_Some (db_entry (r_db r1) !! k)))
    (r_capacity r) (Z.to_nat (MAX_PO + 1))) with (radius := r_radius r) (s := r)
    as (o&r1&E&(_&Hok1&_&Hleft)&Hle&Hlt&_); [|lia|unfold MAX_PO; lia|split_and!; done || lia|].
  - intros rd r1 (Hle&Hok1&Hsame&Hleft) _ Hlt. split; [done|]. split; [lia|]. unfold MAX_PO in *.
    destruct (evict_from_bin_spec r1 rd BIN_EVICT_MAX) as (Hok'&_&_&_&_&Hkeep&_&Hmore); [done|lia|done|].
    split; [done|]. split; [lia|]. intros _. destruct (decide (rd = r_radius r)) as [->|Hne].
    + apply Hmore. by rewrite Hsame.
    + destruct Hleft as (k&Hk&Hin); [lia|]. exists k. split; [done|]. unfold shed_bin; simpl. rewrite Hkeep by lia. done.
  - unfold grow_to_capacity. rewrite E. specialize (Hlt Hover). destruct Hleft as (k&Hk&Hin); [lia|].
    exists (outcome_radius o), (set_storage_radius (outcome_radius o) r1), k.
    assert (Hok2 : reserve_ok (set_storage_radius (outcome_radius o) r1)) by (by destruct Hok1).
    split; [done|]. split; [done|]. split; [lia|]. split.
    { unfold storage_radius, set_storage_radius; simpl. rewrite decide_True; [done|]. unfold MAX_PO in *. lia. }
    do 2 (split; [done|]). intros c2 idle2 rad2 r2 H2. eapply apply_keeps_shallow; [exact Hok2| |exact H2|]; simpl; lia.
Qed.
End shed.
