(* ===== verification/Expiry.v ===== *)
(** * Batch expiry

    Models [crates/swarm/storer/src/expiry.rs]: the pure rule
    [expired_batches], the reconciliation sweep, and the evict-then-acknowledge
    handling of an [Expired] event, over the reserve and the batch store it
    shares.  An entry whose batch has left the store is an orphan: no sweep can
    find it again.  Evictions cannot fail here (backend errors are not
    modelled), so acknowledgement is the one fallible step. *)

From S2P Require Import Prelude.
From S2P Require Import Bytes.
From S2P Require Import Cursor.
From S2P Require Import Postage.
From S2P Require Import ReserveTx.
From S2P Require Import ReserveStore.
From S2P Require Import ReserveSpec.

Definition EVICT_BATCH_MAX : Z := 10000.

Definition expired_batches (batches : list (BatchId * Z)) (total_amount : Z) : list BatchId :=
  (filter (λ p, p.2 <= total_amount) batches).*1.

Record SweepReport := mkReport { evicted_batches : list BatchId; evicted_entries : Z }.

Section expiry.
Context {RE : ReserveEnv} {PE : PostageEnv}.
Implicit Types r : DbReserve.

Definition evict_expired_batch (batch : BatchId) r : Z * DbReserve :=
  evict_batch batch None EVICT_BATCH_MAX r.

(** The [(id, value)] pairs of the batches still in the store. *)
Definition batch_pairs (b : DbBatchStore) : list (BatchId * Z) :=
  omap (λ id, batch ← bs_get b id; Some (id, batch_value batch)) (bs_batch_ids b).

Fixpoint sweep_loop (ids : list BatchId) (report : SweepReport) r : SweepReport * DbReserve :=
  match ids with
  | [] => (report, r)
  | id :: ids =>
      let '(removed, r) := evict_batch id None EVICT_BATCH_MAX r in
      let report :=
        if decide (0 < removed) then
          mkReport (evicted_batches report ++ [id]) (u64_saturating_add (evicted_entries report) removed)
        else report in
      sweep_loop ids report r
  end.

(** [ExpirySweep::run]. *)
Definition sweep_run r : SweepReport * DbReserve :=
  let b := r_batches r in
  sweep_loop (expired_batches (batch_pairs b) (ctx_total (bs_get_context b))) (mkReport [] 0) r.

Definition with_batches (b : DbBatchStore) r : DbReserve :=
  mkReserve (r_db r) b (r_threshold r) (r_count r) (r_capacity r) (r_radius r) (r_epoch r).

Definition on_expired_event {E} (batch : BatchId) (acknowledge : DbBatchStore → result E DbBatchStore) r :
    result E Z * DbReserve :=
  let '(removed, r) := evict_expired_batch batch r in
  match acknowledge (r_batches r) with
  | Ok b => (Ok removed, with_batches b r)
  | Err e => (Err e, r)
  end.

(** The acknowledgement the docs prescribe. *)
Definition acknowledge (batch : BatchId) (b : DbBatchStore) : result Empty_set DbBatchStore :=
  Ok (acknowledge_expired b batch).2.

(** ** The node's operations on reserve and batches *)

Inductive NodeOp :=
| NReserve (op : ReserveOp)
| NExpired (batch : BatchId)
| NSweep.

Definition node_step r (op : NodeOp) : DbReserve :=
  match op with
  | NReserve op => reserve_step r op
  | NExpired batch => (on_expired_event batch (acknowledge batch) r).2
  | NSweep => (sweep_run r).2
  end.

(** Expiry events are routed through [on_expired_event], and each finds the
    batch small enough for one eviction. *)
Definition node_ok r (op : NodeOp) : Prop :=
  match op with
  | NReserve (OpBatchEvent (BatchExpiredEv _)) => False
  | NReserve op => op_ok op
  | NExpired batch => is_b256 batch ∧ batch_size batch None r <= EVICT_BATCH_MAX
  | NSweep => True
  end.

Inductive node_reach (r0 : DbReserve) : DbReserve → Prop :=
| reach_start : node_reach r0 r0
| reach_step r op : node_reach r0 r → node_ok r op → node_reach r0 (node_step r op).

Definition no_orphans r : Prop :=
  ∀ k v, db_entry (r_db r) !! k = Some v → is_Some (bs_get (r_batches r) (ek_batch k)).
End expiry.

Lemma elem_of_expired_batches id l total :
  id ∈ expired_batches l total ↔ ∃ value, (id, value) ∈ l ∧ value <= total.
Proof.
  unfold expired_batches. rewrite list_elem_of_fmap. split.
  - intros ([i v]&->&[Hle Hin]%list_elem_of_filter). eauto.
  - intros (v&Hin&Hle). exists (id, v). split; [done|]. by apply list_elem_of_filter.
Qed.

Section proofs.
Context `{RL : ReserveEnvLaws} {PE : PostageEnv}.
Implicit Types r : DbReserve.

(** [r'] has the batches of [r] and at most its entries. *)
Definition shrinks r r' : Prop :=
  r_batches r' = r_batches r ∧ ∀ k v, db_entry (r_db r') !! k = Some v → db_entry (r_db r) !! k = Some v.

#[local] Instance shrinks_preorder : PreOrder shrinks.
Proof.
  split; [done|]. intros a b c [E1 H1] [E2 H2]. split; [congruence|]. eauto.
Qed.

Lemma shrinks_evict ts r : reserve_ok r → shrinks r (evict_entries ts r).2.
Proof.
  intros Hok. split; [|intros k v; by apply evict_entries_subset].
  unfold evict_entries. destruct ts; [done|]. by destruct (delete_targets _ _).
Qed.

Lemma shrinks_evict_batch id up_to max r :
  reserve_ok r → reserve_ok (evict_batch id up_to max r).2 ∧ shrinks r (evict_batch id up_to max r).2.
Proof.
  intros Hok. split; [by apply (reserve_ok_step r (OpEvictBatch id up_to max))|].
  unfold evict_batch. case_decide; [done|]. by apply shrinks_evict.
Qed.

Lemma shrinks_sweep ids : ∀ report r, reserve_ok r →
  reserve_ok (sweep_loop ids report r).2 ∧ shrinks r (sweep_loop ids report r).2.
Proof.
  induction ids as [|id ids IH]; intros report r Hok; simpl; [done|].
  destruct (shrinks_evict_batch id None EVICT_BATCH_MAX r Hok) as [Hok' Hs].
  destruct (evict_batch id None EVICT_BATCH_MAX r) as [n r']. simpl in *.
  destruct (IH (if decide (0 < n) then
    mkReport (evicted_batches report ++ [id]) (u64_saturating_add (evicted_entries report) n) else report) r' Hok')
    as [Hok2 Hs2]. split; [done|]. by etrans.
Qed.

Lemma shrinks_orphans r r' : shrinks r r' → no_orphans r → no_orphans r'.
Proof. intros [E H] Hno k v Hk. rewrite E. eauto. Qed.

Lemma shrinks_step r op :
  reserve_ok r → match op with OpPut _ | OpBatchEvent _ => False | _ => True end →
  shrinks r (reserve_step r op).
Proof.
  intros Hok Hop. destruct op as [c|a| | |b m|b u m|rad|e]; simpl; try done.
  - by apply shrinks_evict.
  - unfold evict_to_capacity. destruct (u64_checked_sub _ _); [|done]. case_decide; [|done].
    destruct (_ <$> _); [done|]. by apply shrinks_evict.
  - unfold evict_furthest. destruct (entry_rows r); [done|]. by apply shrinks_evict.
  - unfold evict_from_bin. case_decide; [done|]. by apply shrinks_evict.
  - by apply shrinks_evict_batch.
Qed.

(** A put stores entries of known batches only. *)
Lemma put_orphans chunk r :
  reserve_ok r → op_ok (OpPut chunk) → no_orphans r → no_orphans (reserve_put chunk r).2.
Proof.
  intros [Hdb _] Hop Hno. unfold reserve_put. destruct (cc_stamp chunk) as [s|] eqn:Hs; [|done].
  destruct (bs_get (r_batches r) (st_batch s)) as [batch|] eqn:Hb; [|done].
  destruct (validate _ _ _ _ _); [|done].
  destruct (put_tx (cc_any chunk) s (r_db r)) as [[out db]|] eqn:Hp; [|done].
  apply put_tx_spec in Hp as [_ Hp]; [|done|by apply Hop..].
  assert (Hnew : ∀ m v, (∀ k v, m !! k = Some v → db_entry (r_db r) !! k = Some v) →
    ∀ k v', (<[put_key (cc_any chunk) s := v]> m : gmap EntryKey EntryValue) !! k = Some v' →
    is_Some (bs_get (r_batches r) (ek_batch k))).
  { intros m v Hm k v' [[<- _]|[_ Hk]]%lookup_insert_Some; [simpl; by rewrite Hb|]. eauto. }
  destruct out; simpl; intros k v; simpl.
  - destruct Hp as (_&_&->&_). by apply Hnew.
  - destruct Hp as (k0&_&_&_&->&_). apply Hnew. by intros k' v' [_ ?]%lookup_delete_Some.
  - subst. apply Hno.
Qed.

(** The events other than expiry lose no batch. *)
Lemma event_keeps_batches b e id :
  match e with BatchExpiredEv _ => False | _ => True end →
  is_Some (bs_get b id) → is_Some (bs_get (bs_handle_event b e) id).
Proof.
  unfold bs_get. destruct e as [x|i v|i v|i]; simpl; intros He Hid; [|unfold mutate_sync|unfold mutate_sync|done].
  - apply lookup_insert_is_Some'. by right.
  - destruct (bs_batches b !! i); simpl; [|done]. apply lookup_insert_is_Some'. by right.
  - destruct (bs_batches b !! i); simpl; [|done]. apply lookup_insert_is_Some'. by right.
Qed.

Lemma expired_orphans id r :
  reserve_ok r → is_b256 id → batch_size id None r <= EVICT_BATCH_MAX → no_orphans r →
  let r' := (on_expired_event id (acknowledge id) r).2 in
  reserve_ok r' ∧ no_orphans r' ∧ bs_get (r_batches r') id = None ∧
  ∀ k, db_entry (r_db r') !! k = if decide (ek_batch k = id) then None else db_entry (r_db r) !! k.
Proof.
  intros Hok Hid Hsize Hno. unfold on_expired_event, evict_expired_batch, acknowledge, acknowledge_expired.
  pose proof (evict_batch_spec r id None EVICT_BATCH_MAX Hok Hid ltac:(done)) as He.
  destruct (evict_batch id None EVICT_BATCH_MAX r) as [n r']. destruct He as (Hok'&_&_&Hkeep&Hgone&_&Eb). simpl.
  assert (Hk : ∀ k, db_entry (r_db r') !! k = if decide (ek_batch k = id) then None else db_entry (r_db r) !! k).
  { intros k. case_decide; [by apply Hgone|]. apply Hkeep. tauto. }
  split; [by destruct Hok'|]. split; [|split; [apply lookup_delete_eq|done]].
  intros k v Hv. simpl in *. rewrite Hk in Hv. case_decide as Hne; [done|].
  unfold bs_get. simpl. rewrite lookup_delete_ne by done. rewrite Eb. by eapply Hno.
Qed.

Lemma node_step_ok r op :
  reserve_ok r → no_orphans r → node_ok r op → reserve_ok (node_step r op) ∧ no_orphans (node_step r op).
Proof.
  intros Hok Hno Hop. destruct op as [op|id|]; simpl.
  - assert (op_ok op) as Hop' by (by destruct op as [| | | | | | |[]]).
    split; [by apply reserve_ok_step|]. destruct op as [c|a| | |b m|b u m|rad|e] eqn:E.
    1: by apply put_orphans.
    7: { intros k v Hk. apply event_keeps_batches; [by destruct e|]. by apply (Hno k v). }
    all: eapply shrinks_orphans; [by apply shrinks_step|done].
  - destruct Hop as [Hid Hsize]. by destruct (expired_orphans id r) as (?&?&_).
  - unfold sweep_run. destruct (shrinks_sweep (expired_batches (batch_pairs (r_batches r))
      (ctx_total (bs_get_context (r_batches r)))) (mkReport [] 0) r Hok) as [? Hs].
    split; [done|]. by eapply shrinks_orphans.
Qed.

(** C40: no entry ever outlives its batch.  In every state the node reaches
    from one without orphans, through puts, evictions, batch events, expiry
    sweeps and expiry events that find at most [EVICT_BATCH_MAX] entries, each
    stored entry's batch is still in the batch store. *)
Theorem expiry_leaves_no_orphans r0 r :
  reserve_ok r0 → no_orphans r0 → node_reach r0 r → reserve_ok r ∧ no_orphans r.
Proof.
  intros Hok Hno. induction 1 as [|r op _ [IH1 IH2] Hop]; [done|]. by apply node_step_ok.
Qed.

(** A sweep only touches batches the store still has. *)
Lemma sweep_keeps ids : ∀ report r k,
  reserve_ok r → Forall is_b256 ids → ek_batch k ∉ ids →
  db_entry (r_db (sweep_loop ids report r).2) !! k = db_entry (r_db r) !! k.
Proof.
  induction ids as [|id ids IH]; intros report r k Hok Hids Hk; simpl; [done|]. inv Hids.
  pose proof (evict_batch_spec r id None EVICT_BATCH_MAX Hok ltac:(done) ltac:(done)) as He.
  destruct (evict_batch id None EVICT_BATCH_MAX r) as [n r']. destruct He as (Hok'&_&_&Hkeep&_).
  rewrite IH; [|done|done|set_solver]. apply Hkeep. set_solver.
Qed.

(** An expired batch larger than one eviction leaves orphans.  When an
    [Expired] event finds more than [EVICT_BATCH_MAX] entries, handling it
    reports success and removes the batch from the store while entries of it
    remain, and no later sweep ever removes them. *)
Theorem large_expired_batch_orphaned id r :
  reserve_ok r → is_b256 id → EVICT_BATCH_MAX < batch_size id None r →
  map_Forall (λ i _, is_b256 i) (bs_batches (r_batches r)) →
  let '(res, r') := on_expired_event id (acknowledge id) r in
  res = Ok EVICT_BATCH_MAX ∧ bs_get (r_batches r') id = None ∧
  ∃ k, ek_batch k = id ∧ is_Some (db_entry (r_db r') !! k) ∧
    ∀ n, db_entry (r_db (Nat.iter n (λ r, (sweep_run r).2) r')) !! k = db_entry (r_db r') !! k.
Proof.
  intros Hok Hid Hbig Hb. unfold on_expired_event, evict_expired_batch, acknowledge, acknowledge_expired.
  pose proof (evict_batch_spec r id None EVICT_BATCH_MAX Hok Hid ltac:(done)) as He.
  destruct (evict_batch id None EVICT_BATCH_MAX r) as [n r']. destruct He as (Hok'&_&Hn&_&_&Hleft&Eb). simpl.
  destruct Hleft as (k&Hk&Hin); [done|]. split; [f_equal; lia|]. split; [apply lookup_delete_eq|].
  exists k. split; [done|]. split; [done|]. set (r1 := with_batches _ r'). intros m.
  enough (reserve_ok (Nat.iter m (λ r, (sweep_run r).2) r1) ∧
    r_batches (Nat.iter m (λ r, (sweep_run r).2) r1) = r_batches r1 ∧
    db_entry (r_db (Nat.iter m (λ r, (sweep_run r).2) r1)) !! k = db_entry (r_db r1) !! k) by tauto.
  induction m as [|m (IH1&IH2&IH3)]; simpl; [by destruct Hok'|].
  set (r2 := Nat.iter m _ r1) in *. unfold sweep_run. rewrite IH2.
  assert (Hids : ∀ i, i ∈ expired_batches (batch_pairs (r_batches r1)) (ctx_total (bs_get_context (r_batches r1))) →
    is_b256 i ∧ i ≠ id).
  { intros i (v&Hv&_)%elem_of_expired_batches. apply list_elem_of_omap in Hv as (j&_&Hj).
    destruct (bs_get (r_batches r1) j) as [b|] eqn:Ej; [|done]. simpl in Hj. simplify_eq.
    unfold bs_get in Ej. simpl in Ej. apply lookup_delete_Some in Ej as [Hne Ej]. rewrite Eb in Ej.
    split; [by apply (Hb i b)|done]. }
  destruct (shrinks_sweep (expired_batches (batch_pairs (r_batches r1)) (ctx_total (bs_get_context (r_batches r1))))
    (mkReport [] 0) r2 IH1) as [Hok3 [Eb3 _]].
  split; [done|]. split; [by rewrite Eb3|]. rewrite sweep_keeps; [done|done| |].
  - apply Forall_forall. intros i Hi. by apply Hids.
  - rewrite Hk. intros Hi. by apply Hids in Hi as [_ ?].
Qed.
End proofs.
