(* ===== verification/StorerDemo.v ===== *)
(** * A reserve filled in bulk

    A trace that stamps one address [n] times under one batch, whose bins and
    batch are therefore as large as wanted, and the radius and expiry theorems
    applied to it and to the small trace of [ReserveDemo]. *)

From S2P Require Import Prelude.
From S2P Require Import Bytes.
From S2P Require Import Cursor.
From S2P Require Import Postage.
From S2P Require Import ReserveTx.
From S2P Require Import ReserveStore.
From S2P Require Import ReserveSpec.
From S2P Require Import ReserveSync.
From S2P Require Import ReserveDemo.
From S2P Require Import Radius.
From S2P Require Import Expiry.

Definition bulk_batches : DbBatchStore := bs_put (mkBatchStore ∅ None) (3, 100, 16).

Definition bulk_op (i : nat) : ReserveOp := OpPut (demo_chunk 5 0 [7] 3 (Z.of_nat i) 10).

(** Capacity 2, radius 5: the one bin in use is the boundary bin. *)
Definition bulk_start : DbReserve := reserve_open db_empty bulk_batches 0 2 5 0.

Definition bulk (n : nat) : DbReserve := run reserve_step bulk_start (bulk_op <$> seq 0 n).

Record bulk_ok (n : nat) (r : DbReserve) : Prop := {
  bk_ok : reserve_ok r;
  bk_batches : r_batches r = bulk_batches;
  bk_fields : r_threshold r = 0 ∧ r_capacity r = 2 ∧ r_radius r = 5;
  bk_count : r_count r = Z.of_nat n;
  bk_free : ∀ i, Z.of_nat n <= i → db_slots (r_db r) !! mkSlot 3 i = None;
  bk_entries : ∀ k v, db_entry (r_db r) !! k = Some v → ek_batch k = 3 ∧ ek_po k = 5;
  bk_counter : 0 <= default 0 (db_counter (r_db r) !! 5) <= Z.of_nat n;
}.

Lemma bulk_step n r : Z.of_nat n < 65536 → bulk_ok n r → bulk_ok (S n) (reserve_step r (bulk_op n)).
Proof.
  intros Hn [Hok Hb (F1&F2&F3) Hc Hfree He Hcnt].
  assert (Hop : op_ok (bulk_op n)).
  { intros s [= <-]. unfold stamp_ok, is_b256; simpl. lia. }
  pose proof (reserve_ok_step r (bulk_op n) Hok Hop) as Hok'. revert Hok'.
  unfold bulk_op, reserve_step, reserve_put. cbn [cc_stamp demo_chunk st_batch]. rewrite Hb, F1.
  change (bs_get bulk_batches 3) with (Some ((3, 100, 16) : Batch)). cbv iota.
  assert (validate 0 (mkStamp 3 (Z.of_nat n) 10 [3]) 5 ((3, 100, 16) : Batch) (bs_get_context bulk_batches) = Ok tt) as Hv.
  { unfold validate. simpl. rewrite Z.mod_small by lia. rewrite decide_True by lia. reflexivity. }
  change (any_address (cc_any (demo_chunk 5 0 [7] 3 (Z.of_nat n) 10))) with 5. rewrite Hv. cbv iota.
  unfold put_tx. change (incoming_slot _) with (mkSlot 3 (Z.of_nat n)). rewrite Hfree by lia.
  unfold arb_decide, write_entry. change (bin_of _) with 5. unfold u64_checked_add.
  rewrite decide_True by mlia. intros Hok'. simpl in Hok'. split; simpl; try done.
  - lia.
  - intros i Hi. rewrite lookup_insert_ne by (intros [= E]; lia). apply Hfree. lia.
  - intros k v [[<- _]|[_ Hk]]%lookup_insert_Some; [done|]. by apply (He k v).
  - rewrite lookup_insert_eq. simpl. lia.
Qed.

Lemma bulk_spec n : Z.of_nat n <= 65536 → bulk_ok n (bulk n).
Proof.
  unfold bulk. induction n as [|n IH]; intros Hn.
  - split; done || apply reserve_ok_open.
  - rewrite seq_S, fmap_app. unfold run. rewrite foldl_app. simpl. apply bulk_step; [lia|]. apply IH. lia.
Qed.

Lemma bulk_all (P : EntryKey * EntryValue → Prop) `{!∀ x, Decision (P x)} n :
  Z.of_nat n <= 65536 → (∀ row, ek_batch row.1 = 3 → ek_po row.1 = 5 → P row) →
  Z.of_nat (length (filter P (entry_rows (bulk n)))) = Z.of_nat n.
Proof.
  intros Hn HP. destruct (bulk_spec n Hn) as [Hok _ _ Hc _ He _].
  rewrite filter_all.
  - unfold entry_rows. rewrite rows_length. rewrite <-(ro_count _ Hok). exact Hc.
  - intros [k v] Hin%elem_of_rows. apply He in Hin as [??]. by apply HP.
Qed.

#[local] Opaque demo_reserve bulk.

Lemma radius_apply_spec_witness :
  let c := mkController 0 in
  reserve_ok demo_reserve ∧ r_capacity demo_reserve < reserve_count demo_reserve ∧
  ∃ rad' r', radius_apply c true demo_reserve = Some (rad', r') ∧ reserve_count r' <= 2 ∨ rad' = MAX_PO.
Proof.
  intros c. split; [apply demo_ok|]. split; [vm_compute; reflexivity|].
  destruct (radius_apply_spec c true demo_reserve) as (rad'&r'&E&_&_&H).
  - apply demo_ok.
  - vm_compute. split; discriminate.
  - vm_compute. discriminate.
  - vm_compute. discriminate.
  - intros po Hpo. assert (Hlt : count_in po demo_reserve <= reserve_count demo_reserve).
    { rewrite count_in_rows; [|apply demo_ok|].
      - unfold reserve_count. rewrite <-(rows_length entry_encode). apply inj_le, length_filter.
      - assert (E : r_radius demo_reserve = 0) by (vm_compute; reflexivity). rewrite E in Hpo.
        unfold MAX_PO in Hpo. lia. }
    assert (E : reserve_count demo_reserve = 4) by (vm_compute; reflexivity). unfold BIN_EVICT_MAX. lia.
  - exists rad', r'. rewrite decide_True in H by (vm_compute; reflexivity).
    destruct H as (_&_&[H|H]&_); [left|right]; [split; [exact E|]|exact H].
    etrans; [exact H|]. vm_compute. discriminate.
Defined.

Lemma oversized_bin_stranded_witness :
  let r := bulk (Z.to_nat 10001) in
  ∃ rad' r' k, radius_apply (mkController 0) true r = Some (rad', r') ∧
    5 < rad' ∧ ek_po k = 5 ∧ is_Some (db_entry (r_db r') !! k).
Proof.
  intros r. pose proof (bulk_spec (Z.to_nat 10001) ltac:(lia)) as Hb. fold r in Hb.
  destruct (oversized_bin_stranded (mkController 0) true r) as (rad'&r'&k&E&_&Hlt&_&Hk&Hin&_).
  - apply Hb.
  - destruct (bk_fields _ _ Hb) as (_&_&->). unfold MAX_PO. lia.
  - destruct (bk_fields _ _ Hb) as (_&->&_). pose proof (ro_count _ (bk_ok _ _ Hb)) as Hc.
    change (r_count r = reserve_count r) in Hc. rewrite <-Hc, (bk_count _ _ Hb). lia.
  - destruct (bk_fields _ _ Hb) as (_&_&->). rewrite count_in_rows; [|apply Hb|lia].
    unfold r. rewrite bulk_all; [|lia|by intros row _]. unfold BIN_EVICT_MAX. lia.
  - exists rad', r', k. destruct (bk_fields _ _ Hb) as (_&_&F). rewrite F in Hlt, Hk.
    split; [exact E|]. split; [exact Hlt|]. split; [exact Hk|exact Hin].
Defined.

Lemma large_expired_batch_orphaned_witness :
  let '(res, r') := on_expired_event 3 (acknowledge 3) (bulk (Z.to_nat 10001)) in
  res = Ok EVICT_BATCH_MAX ∧ ∃ k, ek_batch k = 3 ∧ is_Some (db_entry (r_db r') !! k).
Proof.
  pose proof (bulk_spec (Z.to_nat 10001) ltac:(lia)) as Hb.
  pose proof (large_expired_batch_orphaned 3 (bulk (Z.to_nat 10001)) (bk_ok _ _ Hb) ltac:(by split)) as H.
  destruct (on_expired_event 3 (acknowledge 3) (bulk (Z.to_nat 10001))) as [res r'].
  destruct H as (Hr&_&k&Hk&Hin&_).
  - unfold batch_size, batch_rows. rewrite bulk_all; [|lia|by intros row Hrow _]. unfold EVICT_BATCH_MAX. lia.
  - rewrite (bk_batches _ _ Hb). intros i b. simpl. intros [[<- _]|[_ Hi]]%lookup_insert_Some; [by split|done].
  - split; [exact Hr|]. exists k. split; [exact Hk|exact Hin].
Defined.

(** Two puts, then the batch of the first expires. *)
Lemma expiry_leaves_no_orphans_witness :
  let r1 := node_step (node_step demo_start (NReserve (OpPut (demo_chunk 5 0 [7; 7] 1 0 10))))
              (NReserve (OpPut (demo_chunk 6 0 [7; 7] 2 0 11))) in
  let r2 := node_step r1 (NExpired 1) in
  node_reach demo_start r2 ∧ no_orphans r2 ∧ reserve_count r1 = 2 ∧ reserve_count r2 = 1.
Proof.
  intros r1 r2. assert (Hreach : node_reach demo_start r2).
  { repeat (apply reach_step || apply reach_start).
    - by apply demo_op_ok.
    - by apply demo_op_ok.
    - split; [by split|]. vm_compute. discriminate. }
  split; [exact Hreach|]. split; [|split; vm_compute; reflexivity].
  apply (expiry_leaves_no_orphans demo_start r2).
  - apply reserve_ok_open.
  - intros k v Hk. discriminate Hk.
  - exact Hreach.
Defined.
