(* ===== verification/Lru.v ===== *)
(** * The byte-bounded LRU store

    Models [BoundedLruStore] of [crates/store/src/bounded_lru.rs]: a hash map
    with a logical clock, whose eviction loop removes the entry with the least
    tick until the budget fits.  The reference is [lru_spec], a list of values
    from most to least recently used; the theorems say that the store computes
    it and never exceeds its budget. *)

From S2P Require Import Prelude.

Record LruEntry (V : Type) := mkLruEntry { le_value : V; le_last : Z; le_bytes : Z }.
Arguments mkLruEntry {_} _ _ _.
Arguments le_value {_} _.
Arguments le_last {_} _.
Arguments le_bytes {_} _.

Record Inner (K V : Type) `{Countable K} := mkInner {
  lr_entries : gmap K (LruEntry V);
  lr_bytes : Z;
  lr_max : Z;
  lr_clock : Z;
}.
Arguments mkInner {_ _ _ _} _ _ _ _.
Arguments lr_entries {_ _ _ _} _.
Arguments lr_bytes {_ _ _ _} _.
Arguments lr_max {_ _ _ _} _.
Arguments lr_clock {_ _ _ _} _.

(** Drop from the front until the rest weighs at most [target]. *)
Fixpoint trim {A} (f : A → Z) (target : Z) (l : list A) : list A :=
  match l with
  | [] => []
  | x :: l' => if decide (sumZ f l <= target) then l else trim f target l'
  end.

Section lru.
Context {K V : Type} `{Countable K} (byte_size : V → Z).
Implicit Types s : Inner K V.

Definition with_budget (max_bytes : Z) : Inner K V := mkInner ∅ 0 max_bytes 0.

Definition next_tick s : Z * Inner K V :=
  (lr_clock s, mkInner (lr_entries s) (lr_bytes s) (lr_max s) (u64_wrapping_add (lr_clock s) 1)).

(** [entries.remove(key)] with its byte accounting. *)
Definition drop_key (k : K) s : Inner K V :=
  match lr_entries s !! k with
  | Some old =>
      mkInner (delete k (lr_entries s)) (u64_saturating_sub (lr_bytes s) (le_bytes old)) (lr_max s) (lr_clock s)
  | None => s
  end.

(** [iter().min_by_key(last_used)]: the first of the least in iteration order. *)
Definition victim_of (best : option (K * LruEntry V)) (row : K * LruEntry V) : option (K * LruEntry V) :=
  match best with
  | Some b => if decide (le_last row.2 < le_last b.2) then Some row else best
  | None => Some row
  end.

Definition lru_victim s : option K :=
  fst <$> foldl victim_of None (map_to_list (lr_entries s)).

(** The eviction loop; each round removes an entry, so their number bounds it. *)
Fixpoint evict_loop (fuel : nat) (target : Z) s : Inner K V :=
  match fuel with
  | O => s
  | S fuel =>
      if decide (target < lr_bytes s) then
        match lru_victim s with
        | Some k => evict_loop fuel target (drop_key k s)
        | None => s
        end
      else s
  end.

Definition evict_until_fits (target : Z) s : Inner K V :=
  evict_loop (S (size (lr_entries s))) target s.

Definition lru_get (k : K) s : option V * Inner K V :=
  let '(tick, s) := next_tick s in
  match lr_entries s !! k with
  | Some e =>
      (Some (le_value e),
       mkInner (<[k := mkLruEntry (le_value e) tick (le_bytes e)]> (lr_entries s))
         (lr_bytes s) (lr_max s) (lr_clock s))
  | None => (None, s)
  end.

Definition lru_insert (k : K) (v : V) s : Inner K V :=
  let bytes := byte_size v in
  let '(tick, s) := next_tick s in
  let s := drop_key k s in
  if decide (lr_max s < bytes) then evict_until_fits 0 s
  else
    let s := evict_until_fits (lr_max s - bytes) s in
    mkInner (<[k := mkLruEntry v tick bytes]> (lr_entries s)) (lr_bytes s + bytes) (lr_max s) (lr_clock s).

Definition lru_contains (k : K) s : bool := bool_decide (is_Some (lr_entries s !! k)).

Definition lru_remove (k : K) s : Inner K V := drop_key k s.

Definition lru_len s : Z := Z.of_nat (size (lr_entries s)).

Inductive LruOp :=
| LruGet (k : K)
| LruInsert (k : K) (v : V)
| LruRemove (k : K).

Definition lru_step s (op : LruOp) : Inner K V :=
  match op with
  | LruGet k => (lru_get k s).2
  | LruInsert k v => lru_insert k v s
  | LruRemove k => lru_remove k s
  end.

(** ** The reference: values from least to most recently used *)

Definition spec_bytes (l : list (K * V)) : Z := sumZ (λ kv, byte_size kv.2) l.

Definition forget (k : K) (l : list (K * V)) : list (K * V) := filter (λ kv, kv.1 ≠ k) l.

Definition spec_insert (max : Z) (k : K) (v : V) (l : list (K * V)) : list (K * V) :=
  if decide (max < byte_size v) then trim (λ kv, byte_size kv.2) 0 (forget k l)
  else trim (λ kv, byte_size kv.2) (max - byte_size v) (forget k l) ++ [(k, v)].

Definition spec_lookup (k : K) (l : list (K * V)) : option V := snd <$> head (filter (λ kv, kv.1 = k) l).

Definition spec_step (max : Z) (l : list (K * V)) (op : LruOp) : list (K * V) :=
  match op with
  | LruGet k => match spec_lookup k l with Some v => forget k l ++ [(k, v)] | None => l end
  | LruInsert k v => spec_insert max k v l
  | LruRemove k => forget k l
  end.

(** ** The store computes it *)

Abbreviation Row := (K * LruEntry V)%type.
Definition tick_lt (a b : Row) : Prop := le_last a.2 < le_last b.2.
Definition row_ok (c : Z) (row : Row) : Prop :=
  le_bytes row.2 = byte_size (le_value row.2) ∧ 0 <= le_bytes row.2 ∧ le_last row.2 < c.

(** [ls] lists the entries of [s] by recency, all touched before tick [c]. *)
Record by_recency (c : Z) s (ls : list Row) : Prop := {
  br_perm : ls ≡ₚ map_to_list (lr_entries s);
  br_sorted : StronglySorted tick_lt ls;
  br_bytes : lr_bytes s = sumZ (λ row, le_bytes row.2) ls;
  br_rows : Forall (row_ok c) ls;
}.

Definition kv_of (row : Row) : K * V := (row.1, le_value row.2).

Lemma br_elem c s ls k e : by_recency c s ls → (k, e) ∈ ls ↔ lr_entries s !! k = Some e.
Proof. intros Hr. rewrite (br_perm _ _ _ Hr). apply elem_of_map_to_list. Qed.

Lemma foldl_victim l : ∀ best m,
  foldl victim_of best l = Some m →
  (best = Some m ∨ m ∈ l) ∧ (∀ b, best = Some b → le_last m.2 <= le_last b.2) ∧
  (∀ x, x ∈ l → le_last m.2 <= le_last x.2).
Proof.
  induction l as [|x l IH]; intros best m Hm; simpl in *.
  { subst. split_and!; [by left|intros b [= ->]; lia|]. intros y Hy. by apply not_elem_of_nil in Hy. }
  apply IH in Hm as (Hin&Hb&Hl). unfold victim_of in Hin, Hb. destruct best as [b|].
  - case_decide as Hlt.
    + specialize (Hb _ eq_refl). split_and!.
      * destruct Hin as [[= ->]|?]; right; [left|by right].
      * intros b' [= <-]. lia.
      * intros y [->|?]%elem_of_cons; [lia|auto].
    + specialize (Hb _ eq_refl). split_and!.
      * destruct Hin as [?|?]; [by left|right; by right].
      * intros b' [= <-]. lia.
      * intros y [->|?]%elem_of_cons; [lia|auto].
  - specialize (Hb _ eq_refl). split_and!; [|done|].
    + destruct Hin as [[= ->]|?]; right; [left|by right].
    + intros y [->|?]%elem_of_cons; [lia|auto].
Qed.

Lemma foldl_victim_some l best : is_Some best → is_Some (foldl victim_of best l).
Proof.
  revert best. induction l as [|x l IH]; intros best Hb; simpl; [done|]. apply IH.
  destruct Hb as [b ->]. simpl. by case_decide.
Qed.

Lemma victim_head c s ls : by_recency c s ls → lru_victim s = fst <$> head ls.
Proof.
  intros Hr. unfold lru_victim. destruct (foldl victim_of None (map_to_list (lr_entries s))) as [m|] eqn:E.
  - apply foldl_victim in E as ([?|Hin]&_&Hmin); [done|]. rewrite <-(br_perm _ _ _ Hr) in Hin.
    assert (Hmin' : ∀ x, x ∈ ls → le_last m.2 <= le_last x.2) by (intros x; rewrite (br_perm _ _ _ Hr); apply Hmin).
    destruct ls as [|x ls]; [by apply not_elem_of_nil in Hin|]. simpl. apply elem_of_cons in Hin as [->|Hin]; [done|].
    pose proof (br_sorted _ _ _ Hr) as Hs. apply StronglySorted_inv in Hs as [_ Hs].
    rewrite Forall_forall in Hs. specialize (Hs _ Hin).
    specialize (Hmin' x ltac:(left)). unfold tick_lt in Hs. lia.
  - destruct (map_to_list (lr_entries s)) as [|x l] eqn:Em.
    + pose proof (br_perm _ _ _ Hr) as Hp. rewrite Em in Hp. by apply Permutation_nil_r in Hp as ->.
    + simpl in E. destruct (foldl_victim_some l (Some x)) as [m Hm]; [done|]. simpl in *. congruence.
Qed.

Lemma sorted_sublist (l k : list Row) : sublist l k → StronglySorted tick_lt k → StronglySorted tick_lt l.
Proof.
  induction 1 as [|x l k Hlk IH|x l k Hlk IH]; intros Hs; [done| |].
  - apply StronglySorted_inv in Hs as [Hs Hx]. constructor; [auto|].
    apply Forall_forall. intros y Hy. rewrite Forall_forall in Hx. apply Hx. by eapply elem_of_sublist.
  - apply StronglySorted_inv in Hs as [Hs _]. auto.
Qed.

(** Removing a key removes its row and its bytes. *)
Lemma br_drop c s ls k :
  by_recency c s ls → by_recency c (drop_key k s) (filter (λ row, row.1 ≠ k) ls) ∧
  lr_max (drop_key k s) = lr_max s ∧ lr_clock (drop_key k s) = lr_clock s.
Proof.
  intros Hr. pose proof (br_elem c s ls) as Hel. destruct Hr as [Hp Hs Hb Hrows]. unfold drop_key.
  assert (Hnd : NoDup ls) by (rewrite Hp; apply NoDup_map_to_list).
  destruct (lr_entries s !! k) as [old|] eqn:Ek.
  2:{ rewrite filter_all; [done|]. intros [k' e] Hin E. rewrite Hp in Hin. apply elem_of_map_to_list in Hin.
      simpl in *. congruence. }
  split; [|done]. split; simpl.
  - apply NoDup_Permutation; [by apply NoDup_filter|apply NoDup_map_to_list|]. intros [k' e].
    rewrite list_elem_of_filter, elem_of_map_to_list, lookup_delete_Some, Hp, elem_of_map_to_list. simpl. naive_solver.
  - by eapply sorted_sublist; [apply sublist_filter|].
  - assert (Hin : (k, old) ∈ ls) by (rewrite Hp; by apply elem_of_map_to_list).
    assert (Hbs : lr_bytes s = le_bytes old + sumZ (λ row, le_bytes row.2) (filter (λ row, row.1 ≠ k) ls)).
    { rewrite Hb. rewrite <-(sumZ_split (λ row, le_bytes row.2) (λ row, row.1 = k) ls). f_equal.
      assert (filter (λ row, row.1 = k) ls = [(k, old)]) as ->; [|simpl; lia].
      apply Permutation_singleton_r. apply NoDup_Permutation; [by apply NoDup_filter|apply NoDup_singleton|].
      intros [k' e]. rewrite list_elem_of_filter, list_elem_of_singleton, Hp, elem_of_map_to_list. naive_solver. }
    assert (0 <= sumZ (λ row, le_bytes row.2) (filter (λ row, row.1 ≠ k) ls)).
    { apply sumZ_nonneg, Forall_forall. intros row [_ Hrow]%list_elem_of_filter.
      rewrite Forall_forall in Hrows. by apply Hrows. }
    unfold u64_saturating_sub. lia.
  - apply Forall_forall. intros row [_ Hrow]%list_elem_of_filter. rewrite Forall_forall in Hrows. by apply Hrows.
Qed.

Lemma filter_head_ne (x : Row) ls : NoDup (x :: ls).*1 → filter (λ row, row.1 ≠ x.1) (x :: ls) = ls.
Proof.
  intros Hnd. rewrite fmap_cons in Hnd. apply NoDup_cons in Hnd as [Hx _].
  rewrite filter_cons_False by tauto. apply filter_all. intros y Hy E. apply Hx. rewrite <-E.
  by apply list_elem_of_fmap_2.
Qed.

Lemma br_keys c s ls : by_recency c s ls → NoDup ls.*1.
Proof. intros Hr. rewrite (br_perm _ _ _ Hr). apply NoDup_fst_map_to_list. Qed.

(** The eviction loop trims the recency list, whatever fuel above its length. *)
Lemma br_evict c fuel target : ∀ s ls,
  by_recency c s ls → (length ls < fuel)%nat →
  by_recency c (evict_loop fuel target s) (trim (λ row, le_bytes row.2) target ls) ∧
  lr_max (evict_loop fuel target s) = lr_max s ∧ lr_clock (evict_loop fuel target s) = lr_clock s.
Proof.
  induction fuel as [|fuel IH]; intros s ls Hr Hf; [lia|]. cbn [evict_loop].
  rewrite (victim_head _ _ _ Hr). pose proof (br_bytes _ _ _ Hr) as Hb. case_decide as Ht.
  - destruct ls as [|x ls]; cbn [head fmap option_fmap option_map trim]; [done|].
    rewrite decide_False by lia. destruct (br_drop c s (x :: ls) x.1 Hr) as (Hr'&E1&E2).
    rewrite filter_head_ne in Hr' by (by apply (br_keys c s)).
    destruct (IH (drop_key x.1 s) ls Hr') as (Hr2&E3&E4); [simpl in Hf; lia|].
    split; [done|]. split; congruence.
  - destruct ls as [|x ls]; cbn [trim]; [done|]. by rewrite decide_True by lia.
Qed.

Lemma br_fits c target s ls :
  by_recency c s ls →
  by_recency c (evict_until_fits target s) (trim (λ row, le_bytes row.2) target ls) ∧
  lr_max (evict_until_fits target s) = lr_max s ∧ lr_clock (evict_until_fits target s) = lr_clock s.
Proof.
  intros Hr. apply br_evict; [done|]. rewrite (br_perm _ _ _ Hr), length_map_to_list. lia.
Qed.

Lemma trim_kv c target ls :
  Forall (row_ok c) ls →
  kv_of <$> trim (λ row, le_bytes row.2) target ls = trim (λ kv, byte_size kv.2) target (kv_of <$> ls).
Proof.
  induction 1 as [|x ls Hx Hls IH]; [done|]. cbn [trim]. rewrite fmap_cons. cbn [trim]. rewrite <-fmap_cons.
  assert (Es : sumZ (λ row : Row, le_bytes row.2) (x :: ls) = sumZ (λ kv, byte_size kv.2) (kv_of <$> x :: ls)).
  { clear IH. assert (Hall : Forall (row_ok c) (x :: ls)) by by constructor. clear Hx Hls.
    induction Hall as [|y l (Hy&_) _ IHl]; simpl; [done|]. rewrite IHl, Hy. done. }
  rewrite Es. case_decide; [done|]. exact IH.
Qed.

Lemma forget_kv k ls : kv_of <$> filter (λ row : Row, row.1 ≠ k) ls = forget k (kv_of <$> ls).
Proof.
  unfold forget. induction ls as [|x ls IH]; [done|]. rewrite fmap_cons. destruct (decide (x.1 ≠ k)).
  - rewrite !filter_cons_True by done. by rewrite fmap_cons, IH.
  - rewrite !filter_cons_False by done. done.
Qed.

Lemma trim_suffix {A} (f : A → Z) target l : sublist (trim f target l) l.
Proof.
  induction l as [|x l IH]; cbn [trim]; [done|]. case_decide; [done|]. by constructor.
Qed.

Lemma br_weaken c c' s ls s' :
  by_recency c s ls → c <= c' → lr_entries s' = lr_entries s → lr_bytes s' = lr_bytes s → by_recency c' s' ls.
Proof.
  intros [Hp Hs Hb Hr] Hle E1 E2. split; [by rewrite E1|done|by rewrite E2|].
  eapply Forall_impl; [exact Hr|]. intros row (?&?&?). unfold row_ok. split_and!; [done|done|lia].
Qed.

(** Writing a key that is not there, at tick [c]. *)
Lemma br_push c s ls k v b mx cl :
  by_recency c s ls → lr_entries s !! k = None → b = byte_size v → 0 <= b →
  by_recency (c + 1) (mkInner (<[k := mkLruEntry v c b]> (lr_entries s)) (lr_bytes s + b) mx cl)
    (ls ++ [(k, mkLruEntry v c b)]).
Proof.
  intros [Hp Hs Hb Hr] Hk Eb Hb0. split; simpl.
  - rewrite map_to_list_insert by done. rewrite <-Hp. by rewrite Permutation_app_comm.
  - apply StronglySorted_app_2; [|done|constructor; constructor].
    intros x y Hx Hy%list_elem_of_singleton. subst. rewrite Forall_forall in Hr.
    destruct (Hr x Hx) as (_&_&?). done.
  - rewrite sumZ_app. simpl. lia.
  - apply Forall_app. split; [|constructor; [|constructor]].
    + eapply Forall_impl; [exact Hr|]. intros row (?&?&?). split_and!; [done|done|lia].
    + split_and!; [done|done|simpl; lia].
Qed.

Lemma lookup_kv c s ls k : by_recency c s ls → spec_lookup k (kv_of <$> ls) = le_value <$> lr_entries s !! k.
Proof.
  intros Hr. unfold spec_lookup. pose proof (br_elem c s ls) as Hel.
  destruct (filter (λ kv : K * V, kv.1 = k) (kv_of <$> ls)) as [|kv l] eqn:E; simpl.
  - destruct (lr_entries s !! k) as [e|] eqn:Ek; [|done]. apply (Hel k e Hr) in Ek.
    assert (Hin : (k, le_value e) ∈ filter (λ kv : K * V, kv.1 = k) (kv_of <$> ls)).
    { apply list_elem_of_filter. split; [done|]. apply (list_elem_of_fmap_2 kv_of _ (k, e) Ek). }
    rewrite E in Hin. by apply not_elem_of_nil in Hin.
  - assert (Hin : kv ∈ filter (λ kv : K * V, kv.1 = k) (kv_of <$> ls)) by (rewrite E; left).
    apply list_elem_of_filter in Hin as [Hk Hin]. apply list_elem_of_fmap in Hin as ([k' e]&->&Hin).
    simpl in *. subst k'. apply (Hel k e Hr) in Hin. by rewrite Hin.
Qed.

Lemma drop_lookup k s : lr_entries (drop_key k s) !! k = None.
Proof. unfold drop_key. destruct (lr_entries s !! k) eqn:E; [apply lookup_delete_eq|done]. Qed.

Lemma evict_lookup k fuel target s : lr_entries s !! k = None → lr_entries (evict_loop fuel target s) !! k = None.
Proof.
  revert s. induction fuel as [|fuel IH]; intros s Hk; simpl; [done|]. case_decide; [|done].
  destruct (lru_victim s) as [k'|]; [|done]. apply IH. unfold drop_key.
  destruct (lr_entries s !! k'); [|done]. simpl. apply lookup_delete_None. by right.
Qed.

(** One operation of the store is one operation of the reference. *)
Lemma br_step s ls op :
  (∀ v, 0 <= byte_size v) → by_recency (lr_clock s) s ls → 0 <= lr_clock s < u64_max →
  ∃ ls', by_recency (lr_clock (lru_step s op)) (lru_step s op) ls' ∧
    kv_of <$> ls' = spec_step (lr_max s) (kv_of <$> ls) op ∧
    lr_max (lru_step s op) = lr_max s ∧ 0 <= lr_clock (lru_step s op) <= lr_clock s + 1.
Proof.
  intros Hsize Hr Hc. set (c := lr_clock s).
  assert (Hw : u64_wrapping_add c 1 = c + 1) by (unfold u64_wrapping_add; rewrite Z.mod_small; unfold c, u64_max in *; lia).
  pose proof (br_weaken c c s ls (next_tick s).2 Hr ltac:(lia) eq_refl eq_refl) as Hr1.
  destruct op as [k|k v|k]; cbn [lru_step spec_step].
  - rewrite (lookup_kv c s ls) by done. unfold lru_get. simpl. fold c. rewrite Hw.
    destruct (lr_entries s !! k) as [e|] eqn:Ek; simpl.
    2:{ exists ls. split; [by eapply br_weaken; [exact Hr| |done..]; lia|]. split; [done|]. split; [done|lia]. }
    destruct (br_drop c s ls k Hr) as (Hd&_). pose proof (br_elem c s ls k e Hr) as [_ Hin].
    specialize (Hin Ek). pose proof (br_rows _ _ _ Hr) as Hrows. rewrite Forall_forall in Hrows.
    destruct (Hrows _ Hin) as (Hb&Hb0&_). simpl in Hb, Hb0.
    pose proof (br_push c (drop_key k s) _ k (le_value e) (le_bytes e) (lr_max s) (c + 1) Hd (drop_lookup k s) Hb Hb0) as Hp.
    unfold drop_key in Hp. rewrite Ek in Hp. simpl in Hp. rewrite insert_delete_eq in Hp.
    eexists. split; [eapply br_weaken; [exact Hp|lia|done|]|].
    + simpl. pose proof (br_bytes _ _ _ Hr) as Hs.
      assert (le_bytes e <= sumZ (λ row : Row, le_bytes row.2) ls).
      { apply (sumZ_elem_le (λ row : Row, le_bytes row.2) ls (k, e)); [|done].
        apply Forall_forall. intros row Hrow. by apply Hrows. }
      unfold u64_saturating_sub. lia.
    + rewrite fmap_app, forget_kv. split; [done|]. split; [done|lia].
  - unfold lru_insert. cbn [next_tick]. fold c. rewrite Hw. set (s1 := mkInner _ _ _ (c + 1)).
    destruct (br_drop c s1 ls k) as (Hd&E1&E2); [by eapply br_weaken; [exact Hr| |done..]; lia|].
    rewrite E1. unfold spec_insert. change (lr_max s1) with (lr_max s). case_decide as Hbig.
    + destruct (br_fits c 0 _ _ Hd) as (Hf&E3&E4). eexists. rewrite E3, E4, E2. simpl.
      split; [by eapply br_weaken; [exact Hf| |done..]; lia|]. split; [|split; [done|lia]].
      by rewrite (trim_kv c), forget_kv by apply Hd.
    + destruct (br_fits c (lr_max s - byte_size v) _ _ Hd) as (Hf&E3&E4). rewrite E3, E4, E1, E2. simpl.
      eexists. split; [|split; [|split; [done|lia]]].
      * apply br_push; [exact Hf|apply evict_lookup, drop_lookup|done|done].
      * rewrite fmap_app. by rewrite (trim_kv c), forget_kv by apply Hd.
  - unfold lru_remove. destruct (br_drop c s ls k Hr) as (Hd&E1&E2). rewrite E1, E2. fold c.
    eexists. split; [exact Hd|]. split; [by rewrite forget_kv|]. split; [done|lia].
Qed.

(** The contents by recency, read off the ticks. *)
Definition tick_le (a b : Row) : Prop := le_last a.2 <= le_last b.2.

#[local] Instance tick_le_dec : RelDecision tick_le.
Proof. intros a b. unfold tick_le. apply _. Defined.

#[local] Instance tick_le_total : Total tick_le.
Proof. intros a b. unfold tick_le. lia. Qed.

#[local] Instance tick_le_trans : Transitive tick_le.
Proof. intros a b c. unfold tick_le. lia. Qed.

Definition recency s : list (K * V) := kv_of <$> merge_sort tick_le (map_to_list (lr_entries s)).

Lemma tick_sorted (l : list Row) : StronglySorted tick_lt l → StronglySorted tick_le l.
Proof.
  induction 1 as [|x l _ IH Hx]; constructor; [done|]. eapply Forall_impl; [exact Hx|].
  unfold tick_lt, tick_le. intros y. lia.
Qed.

Lemma sorted_tick_inj (l : list Row) x y :
  StronglySorted tick_lt l → x ∈ l → y ∈ l → le_last x.2 = le_last y.2 → x = y.
Proof.
  induction 1 as [|z l _ IH Hz]; [by intros ?%not_elem_of_nil|]. rewrite Forall_forall in Hz. unfold tick_lt in Hz.
  intros [->|Hx]%elem_of_cons [->|Hy]%elem_of_cons E; [done| | |auto]; exfalso.
  - specialize (Hz _ Hy). lia.
  - specialize (Hz _ Hx). lia.
Qed.

Lemma recency_eq c s ls : by_recency c s ls → recency s = kv_of <$> ls.
Proof.
  intros Hr. unfold recency. f_equal. apply (StronglySorted_unique_strong tick_le).
  - intros x y Hx Hy H1 H2. rewrite merge_sort_Permutation, <-(br_perm _ _ _ Hr) in Hx.
    apply (sorted_tick_inj ls); [apply Hr|done|done|]. unfold tick_le in *. lia.
  - apply StronglySorted_merge_sort; apply _.
  - apply tick_sorted, Hr.
  - by rewrite merge_sort_Permutation, (br_perm _ _ _ Hr).
Qed.

Lemma run_by_recency max ops : ∀ s ls,
  (∀ v, 0 <= byte_size v) → by_recency (lr_clock s) s ls → lr_max s = max →
  0 <= lr_clock s → lr_clock s + Z.of_nat (length ops) < u64_max →
  ∃ c ls', by_recency c (run lru_step s ops) ls' ∧
    kv_of <$> ls' = run (spec_step max) (kv_of <$> ls) ops.
Proof.
  induction ops as [|op ops IH]; intros s ls Hsize Hr Hm Hc Hlen; [by exists (lr_clock s), ls|].
  simpl in Hlen. destruct (br_step s ls op Hsize Hr) as (ls1&Hr1&E1&Em&Hc1); [lia|].
  destruct (IH (lru_step s op) ls1 Hsize Hr1) as (c&ls2&Hr2&E2); [congruence|lia|lia|].
  exists c, ls2. split; [done|]. rewrite E2, E1, Hm. done.
Qed.

(** ** The budget *)

Lemma trim_bounded {A} (f : A → Z) target l : 0 <= target → sumZ f (trim f target l) <= target.
Proof. intros Ht. induction l as [|x l IH]; cbn [trim]; [done|]. by case_decide. Qed.

Lemma forget_bytes k l : (∀ v, 0 <= byte_size v) →
  spec_bytes (forget k l) + sumZ (λ kv, byte_size kv.2) (filter (λ kv, kv.1 = k) l) = spec_bytes l.
Proof.
  intros _. unfold spec_bytes, forget. rewrite <-(sumZ_split (λ kv, byte_size kv.2) (λ kv, kv.1 = k) l). lia.
Qed.

Lemma spec_step_bounded max l op :
  (∀ v, 0 <= byte_size v) → 0 <= max → spec_bytes l <= max → spec_bytes (spec_step max l op) <= max.
Proof.
  intros Hs Hmax Hl.
  assert (Hnn : ∀ l : list (K * V), 0 <= sumZ (λ kv, byte_size kv.2) l).
  { intros l'. apply sumZ_nonneg, Forall_forall. auto. }
  destruct op as [k|k v|k]; cbn [spec_step].
  - unfold spec_lookup. pose proof (forget_bytes k l Hs) as Hf.
    destruct (filter (λ kv : K * V, kv.1 = k) l) as [|kv f]; simpl in *; [done|].
    unfold spec_bytes in *. rewrite sumZ_app. simpl. specialize (Hnn f). lia.
  - unfold spec_insert, spec_bytes. case_decide.
    + pose proof (trim_bounded (λ kv : K * V, byte_size kv.2) 0 (forget k l)). lia.
    + rewrite sumZ_app. simpl. pose proof (trim_bounded (λ kv : K * V, byte_size kv.2) (max - byte_size v) (forget k l)). lia.
  - pose proof (forget_bytes k l Hs). specialize (Hnn (filter (λ kv : K * V, kv.1 = k) l)). lia.
Qed.

(** C39: the store is a least-recently-used cache within its byte budget.  After
    any sequence of reads, inserts and removals (fewer than the clock has ticks)
    its contents in recency order are those of the reference recency list, which
    evicts from the least recent end only as far as the budget needs; lookups
    agree with it; and the bytes accounted are the bytes held, never above the
    budget. *)
Theorem lru_refines_recency_list max ops :
  (∀ v, 0 <= byte_size v) → 0 <= max → Z.of_nat (length ops) < u64_max →
  let s := run lru_step (with_budget max) ops in
  let l := run (spec_step max) [] ops in
  recency s = l ∧ (∀ k, (lru_get k s).1 = spec_lookup k l) ∧
  lr_bytes s = spec_bytes l ∧ lr_bytes s <= max.
Proof.
  intros Hs Hmax Hlen s l.
  destruct (run_by_recency max ops (with_budget max) [] Hs) as (c&ls&Hr&E);
    [split; simpl; [by rewrite map_to_list_empty|constructor|done|constructor]|done|done|simpl; lia|].
  fold s in Hr. change (run (spec_step max) (kv_of <$> []) ops) with l in E.
  assert (Eb : lr_bytes s = spec_bytes l).
  { rewrite (br_bytes _ _ _ Hr), <-E. unfold spec_bytes. pose proof (br_rows _ _ _ Hr) as Hrows.
    clear E Hr. induction Hrows as [|x ls' (Hx&_) _ IH]; simpl; [done|]. by rewrite IH, Hx. }
  split; [by rewrite (recency_eq c s ls Hr)|]. split.
  - intros k. rewrite <-E, (lookup_kv c s ls k Hr). unfold lru_get. simpl. by destruct (lr_entries s !! k).
  - split; [done|]. rewrite Eb. unfold l. clear -Hs Hmax. assert (H0 : spec_bytes [] <= max) by done.
    revert H0. generalize (@nil (K * V)). induction ops as [|op ops IH]; intros l Hl; [done|]. simpl.
    apply IH. by apply spec_step_bounded.
Qed.
End lru.

Lemma lru_refines_recency_list_witness :
  let ops := [LruInsert 1 40; LruInsert 2 40; LruGet 1; LruInsert 3 40] in
  let s := run (lru_step Z.abs) (with_budget (K := Z) 100) ops in
  recency s = [(1, 40); (3, 40)] ∧ lr_bytes s <= 100.
Proof.
  intros ops s. destruct (lru_refines_recency_list (K := Z) Z.abs 100 ops) as (E&_&_&H).
  - intros v. apply Z.abs_nonneg.
  - lia.
  - vm_compute. reflexivity.
  - split; [|exact H]. etrans; [exact E|]. vm_compute. reflexivity.
Defined.
