(* ===== verification/LocalStore.v ===== *)
(** * The client chunk cache

    Models [ChunkStore] of [crates/swarm/localstore/src/chunk_store.rs] over the
    [CacheBackend] seam of [backend.rs].  The policy (content chunks are served
    for ever, single-owner chunks while their stamp is fresh, last write wins by
    stamp timestamp) is proved against the interface; the byte-bounded LRU is
    its instance.  Chunks, their size and kind belong to [nectar_primitives] and
    come with the reserve's parameters. *)

From S2P Require Import Prelude.
From S2P Require Import Postage.
From S2P Require Import ReserveTx.
From S2P Require Import ReserveStore.
From S2P Require Import Lru.
From S2P Require Import ReserveDemo.

(** What the policy needs of a byte store: it may forget, but never invents. *)
Class CacheBackend (B V : Type) := {
  cb_peek : ChunkAddress → B → option V;
  cb_insert : ChunkAddress → V → B → B;
  cb_get : ChunkAddress → B → option V * B;
  cb_remove : ChunkAddress → B → B;
  cb_get_value a b : (cb_get a b).1 = cb_peek a b;
  cb_get_keeps a a' b : cb_peek a' (cb_get a b).2 = cb_peek a' b;
  cb_insert_own a v b : cb_peek a (cb_insert a v b) = Some v ∨ cb_peek a (cb_insert a v b) = None;
  cb_insert_other a a' v b : a' ≠ a →
    cb_peek a' (cb_insert a v b) = cb_peek a' b ∨ cb_peek a' (cb_insert a v b) = None;
  cb_remove_own a b : cb_peek a (cb_remove a b) = None;
  cb_remove_other a a' b : a' ≠ a → cb_peek a' (cb_remove a b) = cb_peek a' b;
}.

(** ** The LRU backend *)

Section lru_backend.
Context {V : Type} (byte_size : V → Z).

Definition lru_peek (a : ChunkAddress) (s : Inner Z V) : option V := le_value <$> lr_entries s !! a.

Lemma evict_peek fuel target a : ∀ s,
  lru_peek a (evict_loop fuel target s) = lru_peek a s ∨ lru_peek a (evict_loop fuel target s) = None.
Proof.
  induction fuel as [|fuel IH]; intros s; simpl; [by left|]. case_decide; [|by left].
  destruct (lru_victim s) as [k|]; [|by left].
  assert (Hd : lru_peek a (drop_key k s) = lru_peek a s ∨ lru_peek a (drop_key k s) = None).
  { unfold lru_peek, drop_key. destruct (lr_entries s !! k); simpl; [|by left].
    destruct (decide (k = a)) as [->|]; [rewrite lookup_delete_eq|rewrite lookup_delete_ne by done]; auto. }
  destruct (IH (drop_key k s)) as [->|]; auto.
Qed.

#[refine, global] Instance lru_backend : CacheBackend (Inner Z V) V := {|
  cb_peek := lru_peek;
  cb_insert := lru_insert byte_size;
  cb_get := lru_get;
  cb_remove := lru_remove;
|}.
Proof.
  - intros a s. unfold lru_get, lru_peek. simpl. by destruct (lr_entries s !! a).
  - intros a a' s. unfold lru_get, lru_peek. simpl. destruct (lr_entries s !! a) as [e|] eqn:E; simpl; [|done].
    destruct (decide (a = a')) as [->|]; [by rewrite lookup_insert_eq, E|by rewrite lookup_insert_ne].
  - intros a v s. unfold lru_insert, evict_until_fits. cbn [next_tick]. case_decide.
    + right. unfold lru_peek. by rewrite evict_lookup; [|apply drop_lookup].
    + left. unfold lru_peek. simpl. by rewrite lookup_insert_eq.
  - intros a a' v s Hne. unfold lru_insert, evict_until_fits. cbn [next_tick].
    set (s1 := drop_key a _). assert (Hs1 : lru_peek a' s1 = lru_peek a' s).
    { unfold s1, lru_peek, drop_key. simpl. destruct (lr_entries s !! a); simpl; [|done].
      by rewrite lookup_delete_ne. }
    case_decide.
    + rewrite <-Hs1. apply evict_peek.
    + unfold lru_peek at 1 3. cbn [lr_entries]. rewrite lookup_insert_ne by done. rewrite <-Hs1. apply evict_peek.
  - intros a s. unfold lru_remove, lru_peek. by rewrite drop_lookup.
  - intros a a' s Hne. unfold lru_remove, drop_key, lru_peek. destruct (lr_entries s !! a); simpl; [|done].
    by rewrite lookup_delete_ne.
Defined.
End lru_backend.

(** Bytes of a stamp in its canonical encoding. *)
Definition STAMP_SIZE : Z := 113.

Section policy.
Context {RE : ReserveEnv} {PE : PostageEnv}.
Context (is_single_owner : AnyChunk → bool) (chunk_size : AnyChunk → Z).

(** [CacheValue::byte_size]. *)
Definition cache_byte_size (c : CachedChunk) : Z :=
  chunk_size (cc_any c) + match cc_stamp c with Some _ => STAMP_SIZE | None => 0 end.

Record ChunkStore (B : Type) := mkChunkStore { cs_inner : B; cs_ttl : Z }.
Arguments mkChunkStore {_} _ _.
Arguments cs_inner {_} _.
Arguments cs_ttl {_} _.

Context {B : Type} `{!CacheBackend B CachedChunk}.
Implicit Types s : ChunkStore B.

(** The age is computed in [i64]; the subtraction wraps in release builds. *)
Definition soc_is_fresh (now : Z) s (stamp_ns : Z) : bool :=
  bool_decide (Z.max 0 (i64_wrap (now - Z.min stamp_ns i64_max)) < cs_ttl s).

(** The chain of conditions under which a put is skipped, the backend read in
    it touching recency. *)
Definition cs_put (chunk : CachedChunk) s : ChunkStore B :=
  let address := any_address (cc_any chunk) in
  let insert b := mkChunkStore (cb_insert address chunk b) (cs_ttl s) in
  if is_single_owner (cc_any chunk) then
    match cc_stamp chunk with
    | Some incoming =>
        let '(existing, b) := cb_get address (cs_inner s) in
        match existing with
        | Some e =>
            if is_single_owner (cc_any e) then
              match cc_stamp e with
              | Some cached =>
                  if decide (st_timestamp incoming <= st_timestamp cached) then mkChunkStore b (cs_ttl s)
                  else insert b
              | None => insert b
              end
            else insert b
        | None => insert b
        end
    | None => insert (cs_inner s)
    end
  else insert (cs_inner s).

Definition cs_get (now : Z) (address : ChunkAddress) s : option CachedChunk * ChunkStore B :=
  let '(value, b) := cb_get address (cs_inner s) in
  let s' := mkChunkStore b (cs_ttl s) in
  match value with
  | None => (None, s')
  | Some cached =>
      if is_single_owner (cc_any cached) then
        match cc_stamp cached with
        | Some stamp => if soc_is_fresh now s (st_timestamp stamp) then (Some cached, s') else (None, s')
        | None => (None, s')
        end
      else (Some cached, s')
  end.

Definition cs_contains (address : ChunkAddress) s : bool :=
  bool_decide (is_Some (cb_peek address (cs_inner s))).

Definition cs_remove (address : ChunkAddress) s : ChunkStore B :=
  mkChunkStore (cb_remove address (cs_inner s)) (cs_ttl s).

Inductive CacheOp :=
| CachePut (chunk : CachedChunk)
| CacheGet (now : Z) (address : ChunkAddress)
| CacheRemove (address : ChunkAddress).

Definition cs_step s (op : CacheOp) : ChunkStore B :=
  match op with
  | CachePut chunk => cs_put chunk s
  | CacheGet now address => (cs_get now address s).2
  | CacheRemove address => cs_remove address s
  end.

(** ** What a reader can rely on *)

Definition soc_time (c : CachedChunk) : option Z :=
  if is_single_owner (cc_any c) then st_timestamp <$> cc_stamp c else None.

Definition puts_in (ops : list CacheOp) : list CachedChunk :=
  omap (λ op, match op with CachePut c => Some c | _ => None end) ops.

(** What one operation can leave at an address: what was there, or the chunk
    it put there, or nothing. *)
Lemma cs_step_peek s op a c :
  cb_peek a (cs_inner (cs_step s op)) = Some c →
  cb_peek a (cs_inner s) = Some c ∨ (op = CachePut c ∧ any_address (cc_any c) = a).
Proof.
  assert (Hins : ∀ b chunk, (∀ a', cb_peek a' b = cb_peek a' (cs_inner s)) →
    cb_peek a (cb_insert (any_address (cc_any chunk)) chunk b) = Some c →
    cb_peek a (cs_inner s) = Some c ∨ (CachePut chunk = CachePut c ∧ any_address (cc_any c) = a)).
  { intros b chunk Hb Hc. destruct (decide (a = any_address (cc_any chunk))) as [->|Hne].
    - destruct (cb_insert_own (any_address (cc_any chunk)) chunk b) as [E|E]; rewrite E in Hc; [|done].
      simplify_eq. by right.
    - destruct (cb_insert_other (any_address (cc_any chunk)) a chunk b Hne) as [E|E]; rewrite E in Hc; [|done].
      left. by rewrite <-Hb. }
  pose proof (cb_get_keeps (B := B)) as Hkeep.
  destruct op as [chunk|now a'|a']; cbn [cs_step].
  - unfold cs_put. destruct (is_single_owner _); [|by apply Hins]. destruct (cc_stamp chunk); [|by apply Hins].
    specialize (Hkeep (any_address (cc_any chunk))). destruct (cb_get _ (cs_inner s)) as [e b] eqn:E.
    assert (Hb : ∀ a', cb_peek a' b = cb_peek a' (cs_inner s)).
    { intros a'. specialize (Hkeep a' (cs_inner s)). by rewrite E in Hkeep. }
    destruct e as [e|]; [|by apply Hins]. destruct (is_single_owner _); [|by apply Hins].
    destruct (cc_stamp e); [|by apply Hins]. case_decide; [|by apply Hins]. simpl. rewrite Hb. by left.
  - unfold cs_get. specialize (Hkeep a' a (cs_inner s)). destruct (cb_get a' (cs_inner s)) as [e b].
    simpl in Hkeep. intros Hc. left. rewrite <-Hkeep, <-Hc. destruct e as [e|]; [|done].
    destruct (is_single_owner _); [|done]. destruct (cc_stamp e); [|done]. by destruct (soc_is_fresh _ _ _).
  - simpl. destruct (decide (a = a')) as [->|Hne]; [by rewrite cb_remove_own|].
    rewrite cb_remove_other by done. by left.
Qed.

Lemma cs_step_ttl s op : cs_ttl (cs_step s op) = cs_ttl s.
Proof.
  destruct op as [chunk|now a|a]; simpl; [|unfold cs_get|done].
  - unfold cs_put. destruct (is_single_owner _); [|done]. destruct (cc_stamp chunk); [|done].
    destruct (cb_get _ (cs_inner s)) as [[e|] b]; [|done]. destruct (is_single_owner _); [|done].
    destruct (cc_stamp e); [|done]. by case_decide.
  - destruct (cb_get a (cs_inner s)) as [[e|] b]; [|done]. destruct (is_single_owner _); [|done].
    destruct (cc_stamp e); [|done]. by destruct (soc_is_fresh _ _ _).
Qed.

Lemma cs_run_peek ops : ∀ s a c,
  cb_peek a (cs_inner (run cs_step s ops)) = Some c →
  cb_peek a (cs_inner s) = Some c ∨ (c ∈ puts_in ops ∧ any_address (cc_any c) = a).
Proof.
  induction ops as [|op ops IH]; intros s a c Hc; [by left|]. simpl in Hc.
  apply IH in Hc as [Hc|[Hin Ha]].
  - apply cs_step_peek in Hc as [?|[-> Ha]]; [by left|]. right. split; [left|done].
  - right. split; [|done]. unfold puts_in. simpl. case_match; [by right|done].
Qed.

Lemma cs_run_ttl ops s : cs_ttl (run cs_step s ops) = cs_ttl s.
Proof. revert s. induction ops as [|op ops IH]; intros s; [done|]. simpl. rewrite IH. apply cs_step_ttl. Qed.

(** The cache serves only what was put, and single-owner chunks only while
    fresh.  Over any history of an initially empty cache on any backend, a hit
    is a chunk that was put under that address, and if it is a single-owner
    chunk it carries a stamp younger than the configured lifetime. *)
Theorem cache_serves_fresh s ops now a c :
  (∀ a, cb_peek a (cs_inner s) = None) → 0 <= now <= i64_max →
  (cs_get now a (run cs_step s ops)).1 = Some c →
  c ∈ puts_in ops ∧ any_address (cc_any c) = a ∧
  (is_single_owner (cc_any c) = true → ∃ st, cc_stamp c = Some st ∧
     (0 <= st_timestamp st → now - st_timestamp st < cs_ttl s)).
Proof.
  intros Hempty Hnow. unfold cs_get. pose proof (cb_get_value a (cs_inner (run cs_step s ops))) as Hv.
  destruct (cb_get a (cs_inner (run cs_step s ops))) as [v b]. simpl in Hv. subst v.
  destruct (cb_peek a (cs_inner (run cs_step s ops))) as [c'|] eqn:E; [|done].
  apply cs_run_peek in E as [E|[Hin Ha]]; [by rewrite Hempty in E|].
  destruct (is_single_owner (cc_any c')) eqn:Hs; [|intros [= <-]; split_and!; [done|done|congruence]].
  destruct (cc_stamp c') as [st|] eqn:Est; [|done].
  destruct (soc_is_fresh now _ _) eqn:Hf; [|done]. intros [= <-]. split_and!; [done|done|]. intros _.
  exists st. split; [done|]. intros Hst. unfold soc_is_fresh in Hf. apply bool_decide_eq_true in Hf.
  rewrite cs_run_ttl, i64_wrap_id in Hf by (unfold is_i64, i64_min, i64_max in *; lia). lia.
Qed.

(** Last write wins by stamp time.  No operation replaces a resident
    single-owner chunk by one that is not strictly newer. *)
Theorem cache_last_write_wins s op a c c' t t' :
  cb_peek a (cs_inner s) = Some c → soc_time c = Some t →
  cb_peek a (cs_inner (cs_step s op)) = Some c' → soc_time c' = Some t' →
  c' = c ∨ t < t'.
Proof.
  intros Hc Ht Hc' Ht'. apply cs_step_peek in Hc' as Hx.
  destruct Hx as [?|[-> Ha]]; [left; congruence|]. subst a.
  unfold soc_time in *. destruct (is_single_owner (cc_any c)) eqn:Hs; [|done].
  destruct (is_single_owner (cc_any c')) eqn:Hs'; [|done].
  destruct (cc_stamp c) as [st|] eqn:Est; [|done]. destruct (cc_stamp c') as [st'|] eqn:Est'; [|done].
  simpl in *. simplify_eq. destruct (decide (st_timestamp st < st_timestamp st')) as [?|Hle]; [by right|left].
  cbn [cs_step] in Hc'. unfold cs_put in Hc'. rewrite Hs', Est' in Hc'.
  pose proof (cb_get_value (any_address (cc_any c')) (cs_inner s)) as Hv.
  pose proof (cb_get_keeps (any_address (cc_any c')) (any_address (cc_any c')) (cs_inner s)) as Hk.
  destruct (cb_get _ (cs_inner s)) as [v b]. simpl in Hv, Hk. subst v. rewrite Hc, Hs, Est in Hc'.
  rewrite decide_True in Hc' by lia. simpl in Hc'. congruence.
Qed.
End policy.

(** ** A concrete cache *)

Definition demo_soc (c : AnyChunk) : bool := bool_decide (any_type c = 1).
Definition demo_size (c : AnyChunk) : Z := Z.of_nat (length (any_to_bytes c)).

#[local] Instance demo_backend : CacheBackend (Inner Z CachedChunk) CachedChunk :=
  lru_backend (cache_byte_size demo_size).

Definition demo_cache : ChunkStore (Inner Z CachedChunk) := mkChunkStore _ (with_budget 1000) 50.

Definition demo_puts : list CacheOp :=
  [CachePut (demo_chunk 9 1 [1] 1 0 100); CachePut (demo_chunk 9 1 [2] 1 0 120); CachePut (demo_chunk 9 1 [3] 1 0 110)].

Lemma cache_serves_fresh_witness :
  ∃ c, (cs_get demo_soc 160 9 (run (cs_step demo_soc) demo_cache demo_puts)).1 = Some c ∧
    c ∈ puts_in demo_puts.
Proof.
  exists (demo_chunk 9 1 [2] 1 0 120). assert (E : (cs_get demo_soc 160 9
    (run (cs_step demo_soc) demo_cache demo_puts)).1 = Some (demo_chunk 9 1 [2] 1 0 120)) by reflexivity.
  split; [exact E|].
  apply (cache_serves_fresh demo_soc demo_cache demo_puts 160 9 (demo_chunk 9 1 [2] 1 0 120)).
  - intros a. reflexivity.
  - unfold i64_max. lia.
  - exact E.
Defined.

Lemma cache_last_write_wins_witness :
  let s := run (cs_step demo_soc) demo_cache (take 1 demo_puts) in
  let c := demo_chunk 9 1 [1] 1 0 100 in
  let c' := demo_chunk 9 1 [2] 1 0 120 in
  cb_peek 9 (cs_inner _ s) = Some c ∧ (c' = c ∨ 100 < 120).
Proof.
  intros s c c'. split; [reflexivity|].
  apply (cache_last_write_wins demo_soc s (CachePut c') 9 c c' 100 120); reflexivity.
Defined.
