(* ===== verification/PullSync.v ===== *)
(** * Pull sync

    Models the exchange by which a storer fills its reserve from a neighbour:
    the interval store ([crates/swarm/storer/src/db_intervals.rs]), the want
    bit vector ([crates/swarm/net/pullsync/src/bitvector.rs]), the serving and
    driving futures ([crates/swarm/storer-behaviour/src/handler.rs]), the
    verifiers and the puller ([crates/swarm/puller/src/]).

    A connection is the list of messages that arrive on it; a timeout and a
    closed channel are both the end of that list.  The rate limiter is the
    number of chunks it grants before the first refusal. *)

From S2P Require Import Prelude.
From S2P Require Import Bytes.
From S2P Require Import Cursor.
From S2P Require Import Postage.
From S2P Require Import ReserveTx.
From S2P Require Import ReserveStore.
From S2P Require Import ReserveSpec.
From S2P Require Import ReserveSync.

(** ** The interval store *)

Record PeerBinKey := mkPeerBin { pb_peer : Z; pb_bin : Z }.

#[global] Instance PeerBinKey_eq_dec : EqDecision PeerBinKey.
Proof. solve_decision. Defined.
#[global] Instance PeerBinKey_countable : Countable PeerBinKey.
Proof. refine (inj_countable' (λ k, (pb_peer k, pb_bin k)) (λ '(p, b), mkPeerBin p b) _). by intros []. Defined.

Definition peer_bin_encode (k : PeerBinKey) : list Z := be_bytes 32 (pb_peer k) ++ be_bytes 1 (pb_bin k).

Definition peer_bin_decode (value : list Z) : option PeerBinKey :=
  if decide (length value = 33%nat) then
    Some (mkPeerBin (of_be (take 32 value)) (of_be (drop 32 value)))
  else None.

Record IntervalStore := mkIntervals {
  iv_intervals : gmap PeerBinKey Z;
  iv_epochs : gmap Z Z;
}.

Definition interval (peer bin : Z) (s : IntervalStore) : Z :=
  default 0 (iv_intervals s !! mkPeerBin peer bin).

Definition set_interval (peer bin binid : Z) (s : IntervalStore) : IntervalStore :=
  mkIntervals (<[mkPeerBin peer bin := binid]> (iv_intervals s)) (iv_epochs s).

Definition peer_epoch (peer : Z) (s : IntervalStore) : option Z := iv_epochs s !! peer.

Definition set_peer_epoch (peer epoch : Z) (s : IntervalStore) : IntervalStore :=
  mkIntervals (iv_intervals s) (<[peer := epoch]> (iv_epochs s)).

(** One transaction: delete the keys of the bins [0..=255], then the epoch. *)
Definition reset_peer (peer epoch : Z) (s : IntervalStore) : IntervalStore :=
  mkIntervals (foldl (λ m bin, delete (mkPeerBin peer bin) m) (iv_intervals s) (seqZ 0 256))
    (<[peer := epoch]> (iv_epochs s)).

(** ** The want bit vector *)

Record BitVector := mkBits { bv_bytes : list Z; bv_len : Z }.

Record BitVectorError := mkBitError { bve_expected : Z; bve_got : Z }.

Definition byte_len (len : Z) : Z := len `div` 8 + 1.

Definition bv_new (len : Z) : BitVector := mkBits (replicate (Z.to_nat (byte_len len)) 0) len.

Definition from_wire_bytes (bytes : list Z) : BitVector := mkBits bytes (Z.of_nat (length bytes) * 8).

Definition from_bytes (bytes : list Z) (len : Z) : result BitVectorError BitVector :=
  if decide (Z.of_nat (length bytes) = byte_len len) then Ok (mkBits bytes len)
  else Err (mkBitError (byte_len len) (Z.of_nat (length bytes))).

Definition bv_get (i : Z) (v : BitVector) : bool :=
  if decide (bv_len v <= i) then false
  else
    is_some_and (λ byte, bool_decide (Z.land byte (Z.shiftl 1 (i mod 8)) ≠ 0))
      (bv_bytes v !! Z.to_nat (i `div` 8)).

Definition bv_set (i : Z) (v : BitVector) : BitVector :=
  if decide (i < bv_len v) then
    mkBits (alter (λ byte, Z.lor byte (Z.shiftl 1 (i mod 8))) (Z.to_nat (i `div` 8)) (bv_bytes v)) (bv_len v)
  else v.

Definition count_ones (v : BitVector) : Z :=
  Z.of_nat (length (filter (λ i, bv_get i v = true) (seqZ 0 (bv_len v)))).

(** ** Serving *)

Definition DEFAULT_MAX_PAGE : Z := 250.

Record ChunkDescriptor := mkDescriptor {
  cd_address : ChunkAddress;
  cd_batch : BatchId;
  cd_hash : B256;
}.

Record Offer := mkOffer { of_topmost : Z; of_chunks : list ChunkDescriptor }.

Record Ack := mkAck { ack_cursors : list Z; ack_epoch : Z }.

Inductive VerifyError := InvalidSignature | UnknownBatchV | InsufficientFunding | Malformed.

Definition is_peer_blameworthy (e : VerifyError) : bool :=
  match e with UnknownBatchV => false | _ => true end.

Section pullsync.
Context {RE : ReserveEnv} {PE : PostageEnv}.
Implicit Types r : DbReserve.

Record StampedChunk := mkStamped { sp_any : AnyChunk; sp_stamp : Stamp }.

(** [serve_cursors]: one cursor per bin, and the epoch. *)
Definition serve_cursors r : Ack :=
  mkAck ((λ bin, bin_cursor bin r) <$> seqZ 0 32) (r_epoch r).

Definition descriptor_of (item : BinScanItem) : ChunkAddress * ChunkDescriptor :=
  (bi_address item, mkDescriptor (bi_address item) (bi_batch item) (bi_hash item)).

(** The loop of [page_bin] over the scan: [acc] is what it has collected. *)
Fixpoint page_loop (acc : list (ChunkAddress * ChunkDescriptor)) (topmost : Z) (items : list BinScanItem) :
    list (ChunkAddress * ChunkDescriptor) * Z :=
  match items with
  | [] => (acc, topmost)
  | item :: items =>
      let topmost := Z.max topmost (bi_seq item) in
      let acc := acc ++ [descriptor_of item] in
      if decide (DEFAULT_MAX_PAGE <= Z.of_nat (length acc)) then (acc, topmost)
      else page_loop acc topmost items
  end.

Definition page_bin (bin start : Z) r : list (ChunkAddress * ChunkDescriptor) * Z :=
  page_loop [] 0 (scan_bin_from bin start r).

(** The delivery loop: descriptor [i] of the page, if wanted, granted and
    still stored, is sent as [get] returns it.  [None] is a failed serve. *)
Fixpoint deliver_loop (i : Z) (want : BitVector) (grants : nat) r
    (descriptors : list (ChunkAddress * ChunkDescriptor)) : option (list StampedChunk) :=
  match descriptors with
  | [] => Some []
  | (address, _) :: descriptors =>
      if bv_get i want then
        match grants with
        | O => Some []
        | S grants =>
            match reserve_get address r with
            | Err _ => None
            | Ok None => deliver_loop (i + 1) want grants r descriptors
            | Ok (Some cached) =>
                match cc_stamp cached with
                | None => deliver_loop (i + 1) want grants r descriptors
                | Some stamp =>
                    rest ← deliver_loop (i + 1) want grants r descriptors;
                    Some (mkStamped (cc_any cached) stamp :: rest)
                end
            end
        end
      else deliver_loop (i + 1) want grants r descriptors
  end.

(** [serve_range_inner]: the offer, and the deliveries answering a want. *)
Definition serve_offer (bin start : Z) r : Offer :=
  let '(descriptors, topmost) := page_bin bin start r in mkOffer topmost (snd <$> descriptors).

Definition serve_deliveries (bin start : Z) (want : BitVector) (grants : nat) r : option (list StampedChunk) :=
  deliver_loop 0 want grants r (page_bin bin start r).1.

(** ** Driving *)

(** The want of [drive_range_inner]: every bit of the offer. *)
Definition want_all (expected : Z) : BitVector :=
  foldl (λ want i, bv_set i want) (bv_new expected) (seqZ 0 expected).

(** [drive_range_inner] against a stream: the deliveries up to its close are
    collected, whatever their number; [None] is a stream error or timeout. *)
Definition drive_range (offer : Offer) (stream : BitVector → option (list StampedChunk)) :
    option (Z * list StampedChunk) :=
  let expected := Z.of_nat (length (of_chunks offer)) in
  if decide (expected = 0) then Some (of_topmost offer, [])
  else
    chunks ← stream (want_all expected);
    Some (of_topmost offer, chunks).

(** One range exchange with a live server. *)
Definition range_exchange (bin start : Z) (grants : nat) r : option (Z * list StampedChunk) :=
  drive_range (serve_offer bin start r) (λ want, serve_deliveries bin start want grants r).

(** ** Verifying *)

Definition map_admission_error (err : AdmissionError) : VerifyError :=
  match err with
  | UnknownBatch _ | BatchNotUsable | BatchExpired => UnknownBatchV
  | OwnerMismatch => InvalidSignature
  | AdmStamp (StampInvalidIndex | StampBucketFull) => InsufficientFunding
  | AdmStamp StampInvalidSignature => InvalidSignature
  | AdmStamp _ => Malformed
  end.

(** [FundingVerifier::verify]. *)
Definition funding_verify (threshold : Z) (batches : DbBatchStore) (chunk : StampedChunk) : result VerifyError unit :=
  match bs_get batches (st_batch (sp_stamp chunk)) with
  | None => Err UnknownBatchV
  | Some batch =>
      map_err map_admission_error
        (validate threshold (sp_stamp chunk) (any_address (sp_any chunk)) batch (bs_get_context batches))
  end.

(** ** The puller *)

Inductive PullsyncEvent :=
| CursorsReceived (request_id : Z) (cursors : list Z) (epoch : Z)
| RangeDelivered (request_id bin topmost : Z) (chunks : list StampedChunk)
| PullFailed (request_id : Z).

Inductive PullerEffect :=
| FetchCursors (peer request_id : Z)
| SyncRange (peer request_id bin start : Z)
| ReportInvalidData (overlay : Z).

Record SyncTarget := mkSyncTarget {
  sy_peer : Z;
  sy_overlay : Z;
  sy_bins : list Z;
}.

(** The puller with the stores it drives and what it has sent. *)
Record Puller := mkPuller {
  pu_events : list PullsyncEvent;
  pu_intervals : IntervalStore;
  pu_reserve : DbReserve;
  pu_next : Z;
  pu_sent : list PullerEffect;
}.

Definition send (fx : PullerEffect) (p : Puller) : Puller :=
  mkPuller (pu_events p) (pu_intervals p) (pu_reserve p) (pu_next p) (pu_sent p ++ [fx]).

Definition with_events (l : list PullsyncEvent) (p : Puller) : Puller :=
  mkPuller l (pu_intervals p) (pu_reserve p) (pu_next p) (pu_sent p).

Definition with_intervals (s : IntervalStore) (p : Puller) : Puller :=
  mkPuller (pu_events p) s (pu_reserve p) (pu_next p) (pu_sent p).

Definition with_reserve (r : DbReserve) (p : Puller) : Puller :=
  mkPuller (pu_events p) (pu_intervals p) r (pu_next p) (pu_sent p).

Definition next_request_id (p : Puller) : Z * Puller :=
  (pu_next p,
   mkPuller (pu_events p) (pu_intervals p) (pu_reserve p) (u64_wrapping_add (pu_next p) 1) (pu_sent p)).

Fixpoint await_cursors (id : Z) (events : list PullsyncEvent) : option Z * list PullsyncEvent :=
  match events with
  | [] => (None, [])
  | CursorsReceived i _ epoch :: rest => if decide (i = id) then (Some epoch, rest) else await_cursors id rest
  | PullFailed i :: rest => if decide (i = id) then (None, rest) else await_cursors id rest
  | RangeDelivered _ _ _ _ :: rest => await_cursors id rest
  end.

Fixpoint await_range (id : Z) (events : list PullsyncEvent) :
    option (Z * list StampedChunk) * list PullsyncEvent :=
  match events with
  | [] => (None, [])
  | RangeDelivered i _ topmost chunks :: rest =>
      if decide (i = id) then (Some (topmost, chunks), rest) else await_range id rest
  | PullFailed i :: rest => if decide (i = id) then (None, rest) else await_range id rest
  | CursorsReceived _ _ _ :: rest => await_range id rest
  end.

Definition reconcile_epoch (overlay epoch : Z) (s : IntervalStore) : IntervalStore :=
  if decide (peer_epoch overlay s = Some epoch) then s else reset_peer overlay epoch s.

(** The verifier, reading the batch store the reserve shares. *)
Context (verify_chunk : DbBatchStore → StampedChunk → result VerifyError unit).

(** [ReserveAdmit::admit] through the reserve's put; a refusal is only logged. *)
Definition admit_chunk (chunk : StampedChunk) r : DbReserve :=
  (reserve_put (mkCached (sp_any chunk) (Some (sp_stamp chunk))) r).2.

(** The verification loop: whether any chunk was rejected, and blamably. *)
Fixpoint admit_page (rejected blameworthy : bool) r (chunks : list StampedChunk) : bool * bool * DbReserve :=
  match chunks with
  | [] => (rejected, blameworthy, r)
  | chunk :: chunks =>
      match verify_chunk (r_batches r) chunk with
      | Ok _ => admit_page rejected blameworthy (admit_chunk chunk r) chunks
      | Err e => admit_page true (blameworthy || is_peer_blameworthy e) r chunks
      end
  end.

(** One round of [sync_bin]'s loop: [inl p] goes round again, [inr (b, p)]
    leaves the loop with result [b]. *)
Definition sync_round (target : SyncTarget) (bin : Z) (p : Puller) : Puller + (bool * Puller) :=
  let start := interval (sy_overlay target) bin (pu_intervals p) in
  let '(id, p) := next_request_id p in
  let p := send (SyncRange (sy_peer target) id bin start) p in
  let '(page, rest) := await_range id (pu_events p) in
  let p := with_events rest p in
  match page with
  | None => inr (false, p)
  | Some (topmost, chunks) =>
      let '(rejected, blameworthy, r) := admit_page false false (pu_reserve p) chunks in
      let p := with_reserve r p in
      if rejected then
        inr (blameworthy, if blameworthy then send (ReportInvalidData (sy_overlay target)) p else p)
      else if decide (topmost <= start) then inr (false, p)
      else inl (with_intervals (set_interval (sy_overlay target) bin topmost (pu_intervals p)) p)
  end.

(** The loop of [sync_bin]; every round that goes on consumed an event. *)
Fixpoint sync_bin_loop (fuel : nat) (target : SyncTarget) (bin : Z) (p : Puller) : option (bool * Puller) :=
  match fuel with
  | O => None
  | S fuel =>
      match sync_round target bin p with
      | inl p => sync_bin_loop fuel target bin p
      | inr out => Some out
      end
  end.

Definition sync_bin (target : SyncTarget) (bin : Z) (p : Puller) : option (bool * Puller) :=
  sync_bin_loop (S (length (pu_events p))) target bin p.

Fixpoint sync_bins (target : SyncTarget) (bins : list Z) (p : Puller) : option (bool * Puller) :=
  match bins with
  | [] => Some (false, p)
  | bin :: bins =>
      '(bad, p) ← sync_bin target bin p;
      if bad : bool then Some (true, p) else sync_bins target bins p
  end.

Definition sync_peer (target : SyncTarget) (p : Puller) : option (bool * Puller) :=
  let '(id, p) := next_request_id p in
  let p := send (FetchCursors (sy_peer target) id) p in
  let '(epoch, rest) := await_cursors id (pu_events p) in
  let p := with_events rest p in
  match epoch with
  | None => Some (false, p)
  | Some epoch =>
      let p := with_intervals (reconcile_epoch (sy_overlay target) epoch (pu_intervals p)) p in
      sync_bins target (sy_bins target) p
  end.

Fixpoint pass_loop (rejected : gset Z) (targets : list SyncTarget) (p : Puller) : option Puller :=
  match targets with
  | [] => Some p
  | target :: targets =>
      if decide (sy_peer target ∈ rejected) then pass_loop rejected targets p
      else
        '(bad, p) ← sync_peer target p;
        pass_loop (if bad : bool then {[sy_peer target]} ∪ rejected else rejected) targets p
  end.

Definition sync_pass (targets : list SyncTarget) (p : Puller) : option Puller := pass_loop ∅ targets p.
End pullsync.

(** ** Bit vectors *)

Lemma land_bit b k : 0 <= k → Z.land b (Z.shiftl 1 k) ≠ 0 ↔ Z.testbit b k = true.
Proof.
  intros Hk. rewrite Z.shiftl_1_l. split.
  - intros Hne. destruct (Z.testbit b k) eqn:E; [done|]. exfalso. apply Hne. apply Z.bits_inj_0. intros n.
    rewrite Z.land_spec. destruct (decide (n = k)) as [->|]; [by rewrite E|].
    rewrite Z.pow2_bits_false by done. apply andb_false_r.
  - intros Ht E. apply (f_equal (λ z, Z.testbit z k)) in E.
    rewrite Z.land_spec, Ht, Z.pow2_bits_true, Z.bits_0 in E by done. done.
Qed.

Definition bv_wf (v : BitVector) : Prop := 0 <= bv_len v ∧ Z.of_nat (length (bv_bytes v)) = byte_len (bv_len v).

Lemma bv_get_testbit i v :
  bv_wf v → 0 <= i < bv_len v →
  bv_get i v = Z.testbit (default 0 (bv_bytes v !! Z.to_nat (i `div` 8))) (i mod 8).
Proof.
  intros [Hl Hlen] Hi. unfold bv_get. rewrite decide_False by lia.
  destruct (lookup_lt_is_Some_2 (bv_bytes v) (Z.to_nat (i `div` 8))) as [b Hb].
  { unfold byte_len in Hlen. pose proof (Z.div_le_mono i (bv_len v) 8). pose proof (Z.div_pos i 8). lia. }
  rewrite Hb. simpl. pose proof (land_bit b (i mod 8) ltac:(apply Z.mod_pos_bound; lia)) as Hbit.
  destruct (Z.testbit b (i mod 8)); [apply bool_decide_eq_true|apply bool_decide_eq_false]; rewrite Hbit; done.
Qed.

Lemma bv_set_wf i v : bv_wf v → bv_wf (bv_set i v).
Proof. intros [Hl Hlen]. unfold bv_set. case_decide; [|done]. split; simpl; [done|]. by rewrite length_alter. Qed.

Lemma bv_set_len i v : bv_len (bv_set i v) = bv_len v.
Proof. unfold bv_set. by case_decide. Qed.

Lemma bv_get_set i j v :
  bv_wf v → 0 <= i < bv_len v → 0 <= j < bv_len v →
  bv_get j (bv_set i v) = bool_decide (i = j) || bv_get j v.
Proof.
  intros Hwf Hi Hj. rewrite !bv_get_testbit by (by rewrite ?bv_set_len; auto using bv_set_wf).
  unfold bv_set. rewrite decide_True by lia. cbn [bv_bytes].
  destruct (lookup_lt_is_Some_2 (bv_bytes v) (Z.to_nat (i `div` 8))) as [b Hb].
  { destruct Hwf as [Hl Hlen]. unfold byte_len in Hlen.
    pose proof (Z.div_le_mono i (bv_len v) 8). pose proof (Z.div_pos i 8). lia. }
  pose proof (Z.mod_pos_bound i 8). pose proof (Z.mod_pos_bound j 8).
  pose proof (Z.div_mod i 8). pose proof (Z.div_mod j 8). pose proof (Z.div_pos i 8). pose proof (Z.div_pos j 8).
  destruct (decide (i `div` 8 = j `div` 8)) as [Eq|Ne].
  - rewrite <-Eq, list_lookup_alter_eq, Hb. simpl. rewrite Z.lor_spec, Z.shiftl_1_l.
    destruct (decide (i = j)) as [->|Hij].
    + rewrite bool_decide_eq_true_2 by done. rewrite Z.pow2_bits_true by lia. apply orb_true_r.
    + rewrite bool_decide_eq_false_2 by done. rewrite Z.pow2_bits_false by lia. by rewrite orb_false_r.
  - rewrite list_lookup_alter_ne by lia. rewrite bool_decide_eq_false_2 by congruence. done.
Qed.

Lemma bv_new_wf n : 0 <= n → bv_wf (bv_new n).
Proof.
  intros Hn. split; simpl; [done|]. rewrite length_replicate. unfold byte_len.
  pose proof (Z.div_pos n 8). lia.
Qed.

Lemma want_loop n (l : list Z) v :
  bv_wf v → bv_len v = n → Forall (λ i, 0 <= i < n) l →
  let v' := foldl (λ want i, bv_set i want) v l in
  bv_wf v' ∧ bv_len v' = n ∧ ∀ j, 0 <= j < n → bv_get j v' = bool_decide (j ∈ l) || bv_get j v.
Proof.
  intros Hwf Hlen Hl. revert v Hwf Hlen. induction Hl as [|i l Hi Hl IH]; intros v Hwf Hlen; cbn [foldl].
  { split_and!; [done|done|]. intros j Hj. rewrite bool_decide_eq_false_2; [done|]. apply not_elem_of_nil. }
  destruct (IH (bv_set i v)) as (Hwf'&Hlen'&Hget); [by apply bv_set_wf|by rewrite bv_set_len|].
  split_and!; [done|done|]. intros j Hj. rewrite Hget by done. rewrite bv_get_set by (done || lia).
  destruct (decide (i = j)) as [->|Hne].
  - rewrite (bool_decide_eq_true_2 (j = j)) by done. rewrite (bool_decide_eq_true_2 (j ∈ j :: l)) by left.
    by rewrite orb_true_r.
  - rewrite (bool_decide_eq_false_2 (i = j)) by done. simpl. f_equal.
    apply bool_decide_ext. rewrite elem_of_cons. naive_solver.
Qed.

(** Every bit of the client's want is set. *)
Lemma want_all_get n i : 0 <= i < n → bv_get i (want_all n) = true.
Proof.
  intros Hi. destruct (want_loop n (seqZ 0 n) (bv_new n)) as (_&_&Hget).
  - apply bv_new_wf. lia.
  - done.
  - apply Forall_forall. intros j Hj%elem_of_seqZ. lia.
  - unfold want_all. rewrite Hget by done. by rewrite bool_decide_eq_true_2 by (apply elem_of_seqZ; lia).
Qed.
