(* ===== verification/PullSyncSpec.v ===== *)
(** * What pull sync guarantees, and what it does not

    Theorems over [PullSync]: an exchange with an honest server brings a bin up
    to date and terminates; whatever a peer sends, progress is recorded only
    over verified pages; and two ways the exchange loses data. *)

From S2P Require Import Prelude.
From S2P Require Import Bytes.
From S2P Require Import Cursor.
From S2P Require Import Postage.
From S2P Require Import ReserveTx.
From S2P Require Import ReserveStore.
From S2P Require Import ReserveSpec.
From S2P Require Import ReserveSync.
From S2P Require Import PullSync.

Section spec.
Context `{RL : ReserveEnvLaws} {PE : PostageEnv}.
Implicit Types (r s : DbReserve) (p : Puller).

(** ** The server's page *)

Definition max_seq (t : Z) (items : list BinScanItem) : Z := foldl (λ t it, Z.max t (bi_seq it)) t items.

Lemma page_loop_spec items : ∀ acc top,
  (length acc < 250)%nat →
  page_loop acc top items =
  (acc ++ (descriptor_of <$> take (250 - length acc) items), max_seq top (take (250 - length acc) items)).
Proof.
  induction items as [|it items IH]; intros acc top Hacc; cbn [page_loop].
  { by rewrite take_nil, app_nil_r. }
  replace (250 - length acc)%nat with (S (249 - length acc)) by lia. rewrite firstn_cons, fmap_cons.
  case_decide as Hfull; rewrite length_app in Hfull; simpl length in Hfull; unfold DEFAULT_MAX_PAGE in Hfull.
  - replace (249 - length acc)%nat with 0%nat by lia. done.
  - rewrite IH by (rewrite length_app; simpl; lia). rewrite length_app. simpl length.
    replace (250 - (length acc + 1))%nat with (249 - length acc)%nat by lia. by rewrite <-app_assoc.
Qed.

(** The items of a page, and what is delivered for one of them. *)
Definition page_items (bin start : Z) s : list BinScanItem := take 250 (scan_bin_from bin start s).

Definition delivery_of s (it : BinScanItem) : option StampedChunk :=
  match reserve_get (bi_address it) s with
  | Ok (Some c) => mkStamped (cc_any c) <$> cc_stamp c
  | _ => None
  end.

Lemma page_bin_spec bin start s :
  page_bin bin start s = (descriptor_of <$> page_items bin start s, max_seq 0 (page_items bin start s)).
Proof. unfold page_bin. by rewrite page_loop_spec by (simpl; lia). Qed.

Lemma deliver_loop_spec s want items : ∀ i grants,
  reserve_ok s → (∀ j, i <= j < i + Z.of_nat (length items) → bv_get j want = true) →
  deliver_loop i want grants s (descriptor_of <$> items) = Some (omap (delivery_of s) (take grants items)).
Proof.
  induction items as [|it items IH]; intros i grants Hok Hw; [by rewrite take_nil|].
  rewrite fmap_cons. unfold descriptor_of at 1. cbn [deliver_loop]. simpl length in Hw. rewrite Hw by lia.
  destruct grants as [|grants]; [done|]. rewrite firstn_cons. cbn [omap list_omap].
  assert (IH' : deliver_loop (i + 1) want grants s (descriptor_of <$> items) =
    Some (omap (delivery_of s) (take grants items))) by (apply IH; [done|intros j Hj; apply Hw; lia]).
  unfold delivery_of at 1. pose proof (reserve_get_spec s (bi_address it) Hok) as Hget.
  destruct (reserve_get (bi_address it) s) as [[c|]|]; [|exact IH'|done].
  destruct (cc_stamp c) as [st|]; simpl; [by rewrite IH'|exact IH'].
Qed.

(** One exchange, in one equation: the offer's topmost, and the deliveries the
    limiter granted. *)
Lemma range_exchange_spec bin start grants s :
  reserve_ok s →
  range_exchange bin start grants s =
  Some (max_seq 0 (page_items bin start s), omap (delivery_of s) (take grants (page_items bin start s))).
Proof.
  intros Hok. unfold range_exchange, drive_range, serve_offer, serve_deliveries. rewrite page_bin_spec. simpl.
  rewrite !length_fmap. case_decide as He.
  - destruct (page_items bin start s); [by rewrite take_nil|simpl in He; lia].
  - rewrite deliver_loop_spec; [done|done|]. intros j Hj. apply want_all_get. lia.
Qed.

(** ** Pages of a well-formed reserve *)

Lemma max_seq_sorted items t :
  StronglySorted (λ a b, bi_seq a < bi_seq b) items → Forall (λ it, t <= bi_seq it) items →
  max_seq t items = default t (bi_seq <$> last items).
Proof.
  revert t. induction items as [|it items IH]; intros t Hs Ht; [done|].
  apply StronglySorted_inv in Hs as [Hs Hit]. inv Ht. unfold max_seq in *. simpl.
  rewrite Z.max_r by done. rewrite IH; [|done|].
  - rewrite last_cons. by destruct (last items).
  - eapply Forall_impl; [exact Hit|]. simpl. lia.
Qed.

Lemma page_sorted bin start s :
  reserve_ok s → 0 <= bin < 256 → 0 <= start < 2 ^ 64 →
  StronglySorted (λ a b, bi_seq a < bi_seq b) (page_items bin start s) ∧
  Forall (λ it, start <= bi_seq it ∧ 1 <= bi_seq it) (page_items bin start s).
Proof.
  intros Hok Hb Hs. pose proof (scan_sorted s bin start Hok Hb Hs) as Hsort. split.
  - unfold page_items. rewrite <-(take_drop 250 (scan_bin_from bin start s)) in Hsort.
    by apply StronglySorted_app_1_l in Hsort.
  - apply Forall_forall. intros it Hit. unfold page_items in Hit.
    assert (it ∈ scan_bin_from bin start s) as Hin by (eapply elem_of_sublist; [exact Hit|apply sublist_take]).
    apply scan_elem in Hin as (k&v&Hk&_&Hle&->); [|done..].
    pose proof (eo_binid _ _ _ (do_entry _ (ro_db _ Hok) _ _ Hk)). simpl. lia.
Qed.

(** Every scanned item has a body and a stamp to deliver, the newest one of its
    address. *)
Lemma delivery_newest s it bin start :
  reserve_ok s → 0 <= bin < 256 → 0 <= start < 2 ^ 64 → it ∈ scan_bin_from bin start s →
  ∃ c, delivery_of s it = Some c ∧ any_address (sp_any c) = bi_address it ∧
    ∀ k v st, db_entry (r_db s) !! k = Some v → ek_addr k = bi_address it →
      decode_stamp (ev_stamp v) = Some st → st_timestamp st <= st_timestamp (sp_stamp c).
Proof.
  intros Hok Hb Hs Hit. apply scan_elem in Hit as (k&v&Hk&_&_&->); [|done..]. simpl.
  pose proof (reserve_get_spec s (ek_addr k) Hok) as Hget. unfold delivery_of. simpl.
  destruct (reserve_get (ek_addr k) s) as [[c|]|]; [|by destruct (Hget k v Hk)|done].
  destruct Hget as (Ha&_&st&k'&v'&Est&_&_&_&Hmax). rewrite Est. simpl. eexists. split; [done|].
  split; [done|]. simpl. intros k2 v2 st2 Hk2 Ha2 Hd2. by eapply Hmax.
Qed.

(** A delivery carries the newest stamp of its address.  When an address
    is stored under two stamps and the page of the older entry covers its bin,
    the offer lists the older entry, but no delivery for that address carries
    its stamp: the entry never reaches the peer. *)
Theorem older_stamp_never_delivered s bin start grants topmost chunks k v st k' v' st' :
  reserve_ok s → 0 <= bin < 256 → 0 <= start < 2 ^ 64 →
  range_exchange bin start grants s = Some (topmost, chunks) →
  (length (scan_bin_from bin start s) <= 250)%nat →
  db_entry (r_db s) !! k = Some v → ev_bin v = bin → start <= ev_binid v → decode_stamp (ev_stamp v) = Some st →
  db_entry (r_db s) !! k' = Some v' → decode_stamp (ev_stamp v') = Some st' →
  ek_addr k = ek_addr k' → st_timestamp st < st_timestamp st' →
  mkDescriptor (ek_addr k) (ek_batch k) (ek_hash k) ∈ of_chunks (serve_offer bin start s) ∧
  ∀ c, c ∈ chunks → any_address (sp_any c) = ek_addr k → sp_stamp c ≠ st.
Proof.
  intros Hok Hb Hs Hex Hlen Hk Hbin Hle Hd Hk' Hd' Ha Hlt. split.
  - unfold serve_offer. rewrite page_bin_spec. simpl. unfold page_items. rewrite take_ge by done.
    apply list_elem_of_fmap. exists (descriptor_of (item_of k v)). split; [done|].
    apply list_elem_of_fmap_2. apply scan_elem; [done..|]. by exists k, v.
  - intros c Hc Hac Est. rewrite range_exchange_spec in Hex by done. simplify_eq.
    apply list_elem_of_omap in Hc as (it&Hit&Hdel).
    assert (Hscan : it ∈ scan_bin_from (ev_bin v) start s).
    { eapply elem_of_sublist; [exact Hit|]. unfold page_items. etrans; apply sublist_take. }
    destruct (delivery_newest s it (ev_bin v) start Hok Hb Hs Hscan) as (c'&Hdel'&Hac'&Hmax). simplify_eq.
    specialize (Hmax k' v' st' Hk' ltac:(congruence) Hd'). lia.
Qed.

(** ** The puller *)

Lemma reserve_put_batches chunk r : r_batches (reserve_put chunk r).2 = r_batches r.
Proof.
  unfold reserve_put. destruct (cc_stamp chunk); [|done]. destruct (bs_get _ _); [|done].
  destruct (validate _ _ _ _ _); [|done]. destruct (put_tx _ _ _) as [[[] db]|]; done.
Qed.

Context (verify_chunk : DbBatchStore → StampedChunk → result VerifyError unit).
Abbreviation verified b c := (verify_chunk b c = Ok tt).

Lemma admit_page_batches chunks : ∀ rej bl r,
  r_batches (admit_page verify_chunk rej bl r chunks).2 = r_batches r.
Proof.
  induction chunks as [|c chunks IH]; intros rej bl r; simpl; [done|].
  destruct (verify_chunk (r_batches r) c); rewrite IH; [apply reserve_put_batches|done].
Qed.

(** A clean page is one whose chunks all verify; they are then all put. *)
Lemma admit_page_spec chunks : ∀ rej bl r rej' bl' r',
  admit_page verify_chunk rej bl r chunks = (rej', bl', r') →
  (rej' = false → rej = false ∧ Forall (λ c, verified (r_batches r) c) chunks ∧
     r' = foldl (λ r c, admit_chunk c r) r chunks).
Proof.
  induction chunks as [|c chunks IH]; intros rej bl r rej' bl' r' H Hrej; simpl in *.
  { by simplify_eq. }
  destruct (verify_chunk (r_batches r) c) as [[]|e] eqn:Ev.
  - apply IH in H as (H1&H2&H3); [|done]. split; [done|]. split; [constructor; [done|]|done].
    unfold admit_chunk in H2. by rewrite reserve_put_batches in H2.
  - apply IH in H as (?&_); done.
Qed.

Lemma admit_page_clean chunks : ∀ rej bl r,
  Forall (λ c, verified (r_batches r) c) chunks →
  admit_page verify_chunk rej bl r chunks = (rej, bl, foldl (λ r c, admit_chunk c r) r chunks).
Proof.
  induction chunks as [|c chunks IH]; intros rej bl r Hc; simpl; [done|]. inv Hc. rewrite H1.
  apply IH. unfold admit_chunk. by rewrite reserve_put_batches.
Qed.

Lemma await_range_spec id events page rest :
  await_range id events = (page, rest) →
  (length rest <= length events)%nat ∧
  (∀ t c, page = Some (t, c) → (length rest < length events)%nat ∧ ∃ b, RangeDelivered id b t c ∈ events) ∧
  (∀ e, e ∈ rest → e ∈ events).
Proof.
  revert page rest. induction events as [|e events IH]; intros page rest; simpl.
  { intros [= <- <-]. split_and!; [done|done|done]. }
  assert (Hrec : await_range id events = (page, rest) →
    (length rest <= S (length events))%nat ∧
    (∀ t c, page = Some (t, c) → (length rest < S (length events))%nat ∧ ∃ b, RangeDelivered id b t c ∈ e :: events) ∧
    (∀ e', e' ∈ rest → e' ∈ e :: events)).
  { intros H. apply IH in H as (H1&H2&H3). split_and!; [lia| |intros e' ?; right; auto].
    intros t c E. destruct (H2 t c E) as [? [b ?]]. split; [lia|]. exists b. by right. }
  assert (Hstop : (length events <= S (length events))%nat ∧ ∀ e', e' ∈ events → e' ∈ e :: events)
    by (split; [lia|intros; by right]).
  destruct e as [i cs ep|i b t c|i]; [done| |].
  - case_decide as Hi; [|done]. intros [= <- <-]. subst i. destruct Hstop as [Hst1 Hst2].
    split_and!; [done| |done]. intros t' c' [= <- <-]. split; [lia|]. exists b. by left.
  - case_decide as Hi; [|done]. intros [= <- <-]. destruct Hstop as [Hst1 Hst2]. split_and!; done.
Qed.

Lemma interval_set peer bin n iv peer' bin' :
  interval peer' bin' (set_interval peer bin n iv) =
  if decide (peer' = peer ∧ bin' = bin) then n else interval peer' bin' iv.
Proof.
  unfold interval, set_interval. simpl. case_decide as H.
  - destruct H as [-> ->]. by rewrite lookup_insert_eq.
  - rewrite lookup_insert_ne; [done|]. intros [= -> ->]. tauto.
Qed.

(** What one round does, on each of its ends. *)
Lemma sync_round_spec target bin p :
  let start := interval (sy_overlay target) bin (pu_intervals p) in
  match sync_round verify_chunk target bin p with
  | inl p' => ∃ b topmost chunks,
      RangeDelivered (pu_next p) b topmost chunks ∈ pu_events p ∧ start < topmost ∧
      Forall (λ c, verified (r_batches (pu_reserve p)) c) chunks ∧
      pu_intervals p' = set_interval (sy_overlay target) bin topmost (pu_intervals p) ∧
      pu_reserve p' = foldl (λ r c, admit_chunk c r) (pu_reserve p) chunks ∧
      (length (pu_events p') < length (pu_events p))%nat ∧ (∀ e, e ∈ pu_events p' → e ∈ pu_events p) ∧
      pu_sent p' = pu_sent p ++ [SyncRange (sy_peer target) (pu_next p) bin start]
  | inr (bad, p') => pu_intervals p' = pu_intervals p ∧
      pu_sent p' = pu_sent p ++ SyncRange (sy_peer target) (pu_next p) bin start ::
        (if bad then [ReportInvalidData (sy_overlay target)] else [])
  end.
Proof.
  unfold sync_round. simpl. destruct (await_range (pu_next p) (pu_events p)) as [page rest] eqn:Ew.
  apply await_range_spec in Ew as (_&Hpage&Hrest). destruct page as [[topmost chunks]|]; simpl; [|done].
  destruct (Hpage topmost chunks eq_refl) as [Hlen [b Hin]].
  destruct (admit_page verify_chunk false false (pu_reserve p) chunks) as [[rej bl] r'] eqn:Ea.
  destruct rej; [destruct bl; simpl; rewrite <-?app_assoc; done|].
  apply admit_page_spec in Ea; [|done]. destruct Ea as (_&Hv&->). case_decide as Ht; simpl; [done|].
  exists b, topmost, chunks. split; [done|]. split; [lia|]. by rewrite ?app_nil_r.
Qed.

Lemma r_batches_foldl chunks r : r_batches (foldl (λ r c, admit_chunk c r) r chunks) = r_batches r.
Proof.
  revert r. induction chunks as [|c chunks IH]; intros r; simpl; [done|]. rewrite IH. apply reserve_put_batches.
Qed.

Lemma sync_bin_loop_total fuel target bin : ∀ p,
  (length (pu_events p) < fuel)%nat → is_Some (sync_bin_loop verify_chunk fuel target bin p).
Proof.
  induction fuel as [|fuel IH]; intros p Hf; [lia|]. simpl.
  pose proof (sync_round_spec target bin p) as Hr. destruct (sync_round verify_chunk target bin p) as [p'|out]; [|done].
  destruct Hr as (_&_&_&_&_&_&_&_&Hlen&_). apply IH. lia.
Qed.

Lemma sync_bin_loop_safe fuel target bin : ∀ p bad p',
  sync_bin_loop verify_chunk fuel target bin p = Some (bad, p') →
  let was := interval (sy_overlay target) bin (pu_intervals p) in
  let now := interval (sy_overlay target) bin (pu_intervals p') in
  was <= now ∧
  (∀ peer' bin', ¬ (peer' = sy_overlay target ∧ bin' = bin) →
     interval peer' bin' (pu_intervals p') = interval peer' bin' (pu_intervals p)) ∧
  (was < now → ∃ id b chunks, RangeDelivered id b now chunks ∈ pu_events p ∧
     Forall (λ c, verified (r_batches (pu_reserve p)) c) chunks) ∧
  (∃ fx, pu_sent p' = pu_sent p ++ fx ∧ (ReportInvalidData (sy_overlay target) ∈ fx ↔ bad = true)).
Proof.
  induction fuel as [|fuel IH]; intros p bad p' H; [done|]. simpl in H.
  pose proof (sync_round_spec target bin p) as Hr. destruct (sync_round verify_chunk target bin p) as [p1|[b1 p1]].
  - destruct Hr as (b&topmost&chunks&Hin&Hlt&Hv&Hiv&Hres&_&Hsub&Hsent).
    apply IH in H as (H1&H2&H3&fx&H4&H5). rewrite Hiv, interval_set, decide_True in H1, H3 by done.
    rewrite Hres, r_batches_foldl in H3. split_and!.
    + lia.
    + intros peer' bin' Hne. rewrite H2, Hiv, interval_set, decide_False by done. done.
    + intros _. destruct (decide (topmost < interval (sy_overlay target) bin (pu_intervals p'))) as [Hx|Hx].
      * destruct (H3 Hx) as (id&b'&cs&Hin'&Hv'). exists id, b', cs. auto.
      * assert (interval (sy_overlay target) bin (pu_intervals p') = topmost) as -> by lia. eauto.
    + eexists. split; [rewrite H4, Hsent, <-app_assoc; done|]. simpl. rewrite elem_of_cons. naive_solver.
  - simplify_eq. destruct Hr as [Hiv Hsent]. rewrite Hiv. split_and!; [done|done|lia|].
    eexists. split; [exact Hsent|]. rewrite elem_of_cons. destruct bad.
    + rewrite list_elem_of_singleton. naive_solver.
    + split; [intros [?|?%not_elem_of_nil]; done|done].
Qed.

(** Whatever a peer sends, progress is only recorded over verified pages.
    Driving a bin always ends; it moves no other interval and never moves its
    own back; if it moved, the new value is the topmost of a page in which every
    chunk verified; and the peer is reported exactly when the call says it
    served a blameworthy chunk. *)
Theorem sync_bin_advances_on_verified target bin p :
  ∃ bad p', sync_bin verify_chunk target bin p = Some (bad, p') ∧
  let was := interval (sy_overlay target) bin (pu_intervals p) in
  let now := interval (sy_overlay target) bin (pu_intervals p') in
  was <= now ∧
  (∀ peer' bin', ¬ (peer' = sy_overlay target ∧ bin' = bin) →
     interval peer' bin' (pu_intervals p') = interval peer' bin' (pu_intervals p)) ∧
  (was < now → ∃ id b chunks, RangeDelivered id b now chunks ∈ pu_events p ∧
     Forall (λ c, verify_chunk (r_batches (pu_reserve p)) c = Ok tt) chunks) ∧
  (∃ fx, pu_sent p' = pu_sent p ++ fx ∧ (ReportInvalidData (sy_overlay target) ∈ fx ↔ bad = true)).
Proof.
  destruct (sync_bin_loop_total (S (length (pu_events p))) target bin p) as [[bad p'] E]; [lia|].
  exists bad, p'. split; [exact E|]. by apply sync_bin_loop_safe in E.
Qed.

(** ** Against an honest server *)

(** A round answered by its own page. *)
Lemma sync_round_answered target bin p rest topmost chunks b :
  let start := interval (sy_overlay target) bin (pu_intervals p) in
  pu_events p = RangeDelivered (pu_next p) b topmost chunks :: rest →
  Forall (λ c, verified (r_batches (pu_reserve p)) c) chunks →
  sync_round verify_chunk target bin p =
  let r := foldl (λ r c, admit_chunk c r) (pu_reserve p) chunks in
  let sent := pu_sent p ++ [SyncRange (sy_peer target) (pu_next p) bin start] in
  let next := u64_wrapping_add (pu_next p) 1 in
  if decide (topmost <= start) then inr (false, mkPuller rest (pu_intervals p) r next sent)
  else inl (mkPuller rest (set_interval (sy_overlay target) bin topmost (pu_intervals p)) r next sent).
Proof.
  intros start He Hv. unfold sync_round. simpl. rewrite He. simpl. rewrite decide_True by done.
  rewrite admit_page_clean by done. simpl. fold start. by case_decide.
Qed.

Lemma sorted_lookup_lt items i j a b :
  StronglySorted (λ a b, bi_seq a < bi_seq b) items → items !! i = Some a → items !! j = Some b → (i < j)%nat →
  bi_seq a < bi_seq b.
Proof.
  intros Hs. revert i j. induction Hs as [|x items _ IH Hx]; intros [|i] [|j] Hi Hj Hlt; simplify_eq/=; try lia.
  - rewrite Forall_forall in Hx. apply Hx. by eapply list_elem_of_lookup_2.
  - eapply IH; [done|done|lia].
Qed.

Lemma omap_all_length {A B} (f : A → option B) l : Forall (λ x, is_Some (f x)) l → length (omap f l) = length l.
Proof. induction 1 as [|x l [y Hy] _ IH]; [done|]. cbn [omap list_omap]. rewrite Hy. simpl. by rewrite IH. Qed.

(** A page cut short by the rate limiter is recorded as if it were whole.
    When the limiter grants fewer chunks than the page offers (by two or more),
    and what arrives verifies, the puller's interval moves to the page's topmost
    although an offered entry below it was not delivered, and a request from the
    new interval no longer offers that entry. *)
Theorem truncated_page_skipped s bin start grants target p rest topmost chunks b :
  reserve_ok s → 0 <= bin < 256 → 0 <= start < 2 ^ 64 →
  (grants + 1 < length (page_items bin start s))%nat →
  range_exchange bin start grants s = Some (topmost, chunks) →
  interval (sy_overlay target) bin (pu_intervals p) = start →
  pu_events p = RangeDelivered (pu_next p) b topmost chunks :: rest →
  Forall (λ c, verify_chunk (r_batches (pu_reserve p)) c = Ok tt) chunks →
  ∃ p' it, sync_round verify_chunk target bin p = inl p' ∧
    interval (sy_overlay target) bin (pu_intervals p') = topmost ∧
    it ∈ page_items bin start s ∧ it ∉ take grants (page_items bin start s) ∧
    length chunks = grants ∧
    it ∉ scan_bin_from bin topmost s.
Proof.
  intros Hok Hb Hs Hgr Hex Hiv He Hv. rewrite range_exchange_spec in Hex by done.
  destruct (page_sorted bin start s Hok Hb Hs) as [Hsort Hge]. set (page := page_items bin start s) in *.
  injection Hex as Etop Ech.
  destruct (lookup_lt_is_Some_2 page grants) as [it Hit]; [lia|].
  destruct (last page) as [z|] eqn:Ez; [|apply last_None in Ez; rewrite Ez in Hgr; simpl in Hgr; lia].
  assert (Ht : topmost = bi_seq z).
  { rewrite <-Etop, (max_seq_sorted page 0), Ez; [done|done|]. eapply Forall_impl; [exact Hge|]. simpl. lia. }
  rewrite last_lookup in Ez.
  assert (Hlt : bi_seq it < topmost) by (rewrite Ht; eapply (sorted_lookup_lt page); [done|exact Hit|exact Ez|lia]).
  assert (start <= bi_seq it) by (rewrite Forall_forall in Hge; apply Hge; by eapply list_elem_of_lookup_2).
  rewrite (sync_round_answered target bin p rest topmost chunks b He Hv). simpl. rewrite Hiv, decide_False by lia.
  eexists _, it. split; [done|]. simpl. rewrite interval_set, decide_True by done. split; [done|].
  split; [by eapply list_elem_of_lookup_2|]. split; [|split].
  - intros [j Hj]%list_elem_of_lookup. apply lookup_take_Some in Hj as [Hj Hlt'].
    pose proof (sorted_lookup_lt page j grants it it Hsort Hj Hit Hlt'). lia.
  - assert (Hall : Forall (λ it, is_Some (delivery_of s it)) (take grants page)).
    { apply Forall_forall. intros x Hx. destruct (delivery_newest s x bin start) as (c&->&_); [done..| |done].
      eapply elem_of_sublist; [exact Hx|]. unfold page, page_items. etrans; apply sublist_take. }
    rewrite <-Ech, omap_all_length by done. rewrite length_take. lia.
  - intros Hin. apply scan_elem in Hin as (k&v&_&_&Hle&->); [simpl in *; lia|done|done|].
    rewrite Forall_forall in Hge. assert (z ∈ page) as Hz by (by eapply list_elem_of_lookup_2). split; [lia|].
    assert (z ∈ scan_bin_from bin start s) as Hzs by (eapply elem_of_sublist; [exact Hz|apply sublist_take]).
    apply scan_elem in Hzs as (k&v&Hk&Hbin&_&->); [|done..]. rewrite Ht. simpl.
    pose proof (eo_binid _ _ _ (do_entry _ (ro_db _ Hok) _ _ Hk)) as Hid.
    destruct (db_counter (r_db s) !! ev_bin v) as [cc|] eqn:Ec; simpl in Hid; [|lia].
    apply (do_counter _ (ro_db _ Hok)) in Ec. lia.
Qed.

(** What an honest server answers, request by request, until the puller has
    caught up: a full page each time. *)
Fixpoint server_replies (fuel : nat) (bin id start : Z) s : list PullsyncEvent :=
  match fuel with
  | O => []
  | S fuel =>
      match range_exchange bin start 250 s with
      | Some (topmost, chunks) =>
          RangeDelivered id bin topmost chunks ::
          (if decide (topmost <= start) then [] else server_replies fuel bin (u64_wrapping_add id 1) topmost s)
      | None => []
      end
  end.

(** The entries of a bin a puller at [start] has not passed. *)
Definition ahead (bin start : Z) s : nat :=
  length (filter (λ it, start < bi_seq it) (scan_bin_from bin 0 s)).

Lemma max_seq_ge items : ∀ t, t <= max_seq t items ∧ ∀ it, it ∈ items → bi_seq it <= max_seq t items.
Proof.
  induction items as [|x items IH]; intros t; [split; [done|by intros it ?%not_elem_of_nil]|].
  unfold max_seq in *. simpl. destruct (IH (Z.max t (bi_seq x))) as [H1 H2]. split; [lia|].
  intros it [->|Hin]%elem_of_cons; [lia|auto].
Qed.

Lemma max_seq_in items t : max_seq t items = t ∨ ∃ it, it ∈ items ∧ bi_seq it = max_seq t items.
Proof.
  revert t. induction items as [|x items IH]; intros t; [by left|]. unfold max_seq in *. simpl.
  destruct (IH (Z.max t (bi_seq x))) as [E|(it&Hin&E)].
  - rewrite E. destruct (decide (bi_seq x <= t)); [left; lia|right]. exists x. split; [left|lia].
  - right. exists it. split; [by right|done].
Qed.

Lemma scan_range s bin start it :
  reserve_ok s → 0 <= bin < 256 → 0 <= start < 2 ^ 64 →
  it ∈ scan_bin_from bin start s ↔ it ∈ scan_bin_from bin 0 s ∧ start <= bi_seq it.
Proof.
  intros Hok Hb Hs. rewrite !scan_elem by (done || lia). split.
  - intros (k&v&Hk&Hbin&Hle&->). simpl. split; [|done]. exists k, v.
    pose proof (eo_binid _ _ _ (do_entry _ (ro_db _ Hok) _ _ Hk)). split_and!; [done|done|lia|done].
  - intros [(k&v&Hk&Hbin&_&->) Hle]. by exists k, v.
Qed.

Lemma scan_bound s bin it :
  reserve_ok s → 0 <= bin < 256 → it ∈ scan_bin_from bin 0 s → 1 <= bi_seq it < 2 ^ 64.
Proof.
  intros Hok Hb Hit. apply scan_elem in Hit as (k&v&Hk&_&_&->); [|done|done|lia]. simpl.
  pose proof (eo_binid _ _ _ (do_entry _ (ro_db _ Hok) _ _ Hk)) as Hid.
  destruct (db_counter (r_db s) !! ev_bin v) as [cc|] eqn:Ec; simpl in Hid; [|lia].
  apply (do_counter _ (ro_db _ Hok)) in Ec. lia.
Qed.

(** The page covers the bin up to its topmost. *)
Lemma page_covers s bin start it :
  reserve_ok s → 0 <= bin < 256 → 0 <= start < 2 ^ 64 →
  let topmost := max_seq 0 (page_items bin start s) in
  it ∈ scan_bin_from bin start s → bi_seq it <= topmost → it ∈ page_items bin start s.
Proof.
  intros Hok Hb Hs topmost Hit Hle. pose proof (scan_sorted s bin start Hok Hb Hs) as Hsort.
  unfold page_items in *. rewrite <-(take_drop 250 (scan_bin_from bin start s)) in Hit, Hsort.
  apply elem_of_app in Hit as [?|Hit]; [done|exfalso].
  pose proof (λ x, StronglySorted_app_1_elem_of _ _ _ x it Hsort) as Hx.
  destruct (max_seq_in (take 250 (scan_bin_from bin start s)) 0) as [E|(x&Hin&E)].
  - assert (Hne : take 250 (scan_bin_from bin start s) = []).
    { destruct (take 250 (scan_bin_from bin start s)) as [|x l] eqn:El; [done|].
      destruct (page_sorted bin start s Hok Hb Hs) as [_ Hge]. unfold page_items in Hge. rewrite El in Hge. inv Hge.
      pose proof (max_seq_ge (x :: l) 0) as [_ Hm]. specialize (Hm x ltac:(left)). lia. }
    destruct (scan_bin_from bin start s) as [|y l]; [by rewrite drop_nil in Hit; apply not_elem_of_nil in Hit|discriminate Hne].
  - specialize (Hx x Hin Hit). cbn beta in Hx. unfold topmost, page_items in Hle. lia.
Qed.

(** A page that does not get past [start] is the end of the bin. *)
Lemma page_end s bin start it :
  reserve_ok s → 0 <= bin < 256 → 0 <= start < 2 ^ 64 →
  max_seq 0 (page_items bin start s) <= start → it ∈ scan_bin_from bin start s →
  it ∈ page_items bin start s ∧ bi_seq it = start.
Proof.
  intros Hok Hb Hs Htop Hit. destruct (page_sorted bin start s Hok Hb Hs) as [Hsort Hge].
  assert (Hlen : (length (page_items bin start s) <= 1)%nat).
  { destruct (page_items bin start s) as [|x [|y l]] eqn:E; simpl; [lia|lia|].
    apply StronglySorted_inv in Hsort as [_ Hx]. inv Hx. inv Hge. destruct (max_seq_ge (x :: y :: l) 0) as [_ Hm].
    specialize (Hm y ltac:(right; left)). lia. }
  assert (Hpage : it ∈ page_items bin start s).
  { unfold page_items in *. rewrite length_take in Hlen. rewrite take_ge by lia. done. }
  split; [done|]. destruct (max_seq_ge (page_items bin start s) 0) as [_ Hm]. specialize (Hm it Hpage).
  rewrite Forall_forall in Hge. destruct (Hge it Hpage). lia.
Qed.

Lemma ahead_lt s bin start it :
  it ∈ scan_bin_from bin 0 s → start < bi_seq it → (ahead bin (bi_seq it) s < ahead bin start s)%nat.
Proof.
  unfold ahead. generalize (scan_bin_from bin 0 s). intros l Hin Hlt.
  assert (Hle : ∀ l, (length (filter (λ x, (bi_seq it < bi_seq x)%Z) l) <= length (filter (λ x, (start < bi_seq x)%Z) l))%nat).
  { clear l Hin. induction l as [|x l IH]; [done|].
    destruct (decide (bi_seq it < bi_seq x)) as [H1|H1].
    - rewrite !filter_cons_True by (done || lia). simpl. lia.
    - rewrite (filter_cons_False (λ x, bi_seq it < bi_seq x)) by done.
      destruct (decide (start < bi_seq x)); [rewrite filter_cons_True by done; simpl; lia|by rewrite filter_cons_False]. }
  apply list_elem_of_split in Hin as (l1&l2&->). rewrite !filter_app, !length_app.
  rewrite (filter_cons_False (λ x, bi_seq it < bi_seq x)) by lia. rewrite (filter_cons_True (λ x, start < bi_seq x)) by done.
  pose proof (Hle l1). pose proof (Hle l2). simpl. lia.
Qed.

Section complete.
Context (s : DbReserve) (bin : Z) (target : SyncTarget) (rest : list PullsyncEvent).
Hypothesis Hok : reserve_ok s.
Hypothesis Hbin : 0 <= bin < 256.

(** Everything the server delivers passes the puller's verifier. *)
Definition deliveries_verify (b : DbBatchStore) : Prop :=
  ∀ it c, it ∈ scan_bin_from bin 0 s → delivery_of s it = Some c → verified b c.

Lemma page_delivered start it :
  0 <= start < 2 ^ 64 → it ∈ page_items bin start s →
  ∃ c, c ∈ omap (delivery_of s) (page_items bin start s) ∧ delivery_of s it = Some c.
Proof using All.
  intros Hs Hit. destruct (delivery_newest s it bin start) as (c&Hc&_); [done..|by eapply elem_of_sublist, sublist_take|].
  exists c. split; [|done]. apply list_elem_of_omap. by exists it.
Qed.

Lemma page_verified b start :
  0 <= start < 2 ^ 64 → deliveries_verify b →
  Forall (λ c, verified b c) (omap (delivery_of s) (page_items bin start s)).
Proof using All.
  intros Hs Hv. apply Forall_forall. intros c (it&Hit&Hc)%list_elem_of_omap. eapply Hv; [|done].
  eapply (proj1 (proj1 (scan_range s bin start it Hok Hbin Hs) _)). Unshelve. by eapply elem_of_sublist, sublist_take.
Qed.

Lemma topmost_in start :
  0 <= start < 2 ^ 64 → start < max_seq 0 (page_items bin start s) →
  ∃ it, it ∈ scan_bin_from bin 0 s ∧ bi_seq it = max_seq 0 (page_items bin start s).
Proof using All.
  intros Hs Hlt. destruct (max_seq_in (page_items bin start s) 0) as [E|(it&Hin&E)]; [lia|].
  exists it. split; [|done]. apply (scan_range s bin start it Hok Hbin Hs). by eapply elem_of_sublist, sublist_take.
Qed.

Lemma sync_loop_complete fuel : ∀ fuel' start p,
  0 <= start < 2 ^ 64 → (ahead bin start s < fuel)%nat →
  (length (server_replies fuel bin (pu_next p) start s) <= fuel')%nat →
  interval (sy_overlay target) bin (pu_intervals p) = start →
  pu_events p = server_replies fuel bin (pu_next p) start s ++ rest →
  deliveries_verify (r_batches (pu_reserve p)) →
  ∃ p' cs, sync_bin_loop verify_chunk fuel' target bin p = Some (false, p') ∧ pu_events p' = rest ∧
    interval (sy_overlay target) bin (pu_intervals p') = Z.max start (max_seq 0 (scan_bin_from bin 0 s)) ∧
    pu_reserve p' = foldl (λ r c, admit_chunk c r) (pu_reserve p) cs ∧
    ∀ it, it ∈ scan_bin_from bin start s → ∃ c, c ∈ cs ∧ delivery_of s it = Some c.
Proof using All.
  induction fuel as [|fuel IH]; intros fuel' start p Hs Hf Hf' Hiv He Hv; [lia|].
  cbn [server_replies] in *. rewrite range_exchange_spec in He, Hf' by done.
  rewrite take_ge in He, Hf' by (unfold page_items; rewrite length_take; lia). cbn [length] in Hf'.
  destruct fuel' as [|fuel']; [lia|]. cbn [sync_bin_loop].
  set (top := max_seq 0 (page_items bin start s)) in *. set (cs := omap _ _) in He.
  rewrite <-app_comm_cons in He.
  erewrite sync_round_answered; [|exact He|by apply page_verified]. rewrite Hiv. cbv zeta.
  case_decide as Ht.
  - eexists _, cs. split; [done|]. simpl. split_and!; [done| |done|].
    + rewrite Hiv, Z.max_l; [done|]. destruct (max_seq_in (scan_bin_from bin 0 s) 0) as [->|(it&Hin&<-)]; [lia|].
      destruct (decide (bi_seq it < start)); [lia|].
      destruct (page_end s bin start it) as [_ ->]; [done..| |done]. apply scan_range; [done..|]. split; [done|lia].
    + intros it Hit. apply page_delivered; [done|]. by apply (page_end s bin start it).
  - destruct (topmost_in start) as (x&Hx&Ex); [done|lia|]. fold top in Ex.
    pose proof (scan_bound s bin x Hok Hbin Hx). rewrite <-Ex in *.
    pose proof (ahead_lt s bin start x Hx ltac:(lia)).
    edestruct (IH fuel' (bi_seq x)) as (p'&cs'&E&Hr&Hi&Hres&Hall); [lia|lia| | | | |].
    5: { exists p', (cs ++ cs'). split; [exact E|]. split; [done|]. rewrite Hi, Hres, foldl_app. simpl.
      destruct (max_seq_ge (scan_bin_from bin 0 s) 0) as [_ Hm]. specialize (Hm x Hx). split; [lia|]. split; [done|].
      intros it Hit. setoid_rewrite elem_of_app. destruct (decide (bi_seq it <= top)) as [Hle|Hgt].
      - destruct (page_delivered start it) as (c&?&?); [done|by apply page_covers|]. exists c. auto.
      - destruct (Hall it) as (c&?&?); [|exists c; auto]. apply scan_range; [done|done|lia|].
        apply scan_range in Hit as [? _]; [|done..]. split; [done|lia]. }
    + cbn [pu_next]. lia.
    + cbn [pu_intervals]. by rewrite interval_set, decide_True by done.
    + done.
    + cbn [pu_reserve]. by rewrite r_batches_foldl.
Qed.
End complete.

End spec.
