(* ===== verification/PullSyncDemo.v ===== *)
(** * Pull sync on the concrete reserve

    The pull-sync theorems applied to a puller with an empty reserve and a
    server holding the trace of ReserveDemo: three entries in bin 5, two of them
    the same address under two batches. *)

From S2P Require Import Prelude.
From S2P Require Import Postage.
From S2P Require Import ReserveTx.
From S2P Require Import ReserveStore.
From S2P Require Import ReserveSpec.
From S2P Require Import ReserveSync.
From S2P Require Import ReserveDemo.
From S2P Require Import PullSync.
From S2P Require Import PullSyncSpec.

Definition demo_verify : DbBatchStore → StampedChunk → result VerifyError unit := funding_verify 0.

Definition passes (c : StampedChunk) : bool :=
  match demo_verify demo_batches c with Ok _ => true | Err _ => false end.

Definition demo_target : SyncTarget := mkSyncTarget 1 9 [5].

Definition demo_puller (events : list PullsyncEvent) : Puller :=
  mkPuller events (mkIntervals ∅ ∅) demo_start 0 [].

Lemma passes_ok c : passes c = true → demo_verify demo_batches c = Ok tt.
Proof. unfold passes. destruct (demo_verify demo_batches c) as [[]|]; done. Qed.

Lemma forallb_passes chunks : forallb passes chunks = true → Forall (λ c, demo_verify demo_batches c = Ok tt) chunks.
Proof. intros H. apply Forall_forall. intros c Hc. apply passes_ok. rewrite forallb_forall in H. apply H. by apply list_elem_of_In. Qed.

#[local] Opaque demo_reserve.

Lemma truncated_page_skipped_witness :
  ∃ topmost chunks p' it,
    range_exchange 5 0 1 demo_reserve = Some (topmost, chunks) ∧
    sync_round demo_verify demo_target 5 (demo_puller [RangeDelivered 0 5 topmost chunks]) = inl p' ∧
    length chunks = 1%nat ∧
    it ∈ scan_bin_from 5 0 demo_reserve ∧
    it ∉ scan_bin_from 5 (interval 9 5 (pu_intervals p')) demo_reserve.
Proof.
  pose proof (range_exchange_spec 5 0 1 demo_reserve demo_ok) as Hex.
  set (topmost := max_seq 0 _) in Hex. set (chunks := omap _ _) in Hex.
  destruct (truncated_page_skipped demo_verify demo_reserve 5 0 1 demo_target
    (demo_puller [RangeDelivered 0 5 topmost chunks]) [] topmost chunks 5) as (p'&it&E&Hi&Hin&_&Hl&Hnot).
  - exact demo_ok.
  - lia.
  - lia.
  - vm_compute. lia.
  - exact Hex.
  - reflexivity.
  - reflexivity.
  - apply forallb_passes. vm_compute. reflexivity.
  - exists topmost, chunks, p', it. split; [exact Hex|]. split; [exact E|]. split; [exact Hl|].
    split; [eapply elem_of_sublist; [exact Hin|apply sublist_take]|]. simpl in Hi. rewrite Hi. exact Hnot.
Defined.


(** Address 5 under batch 1 (timestamp 10) and batch 2 (timestamp 11). *)
Definition demo_stamp (batch ts : Z) : Stamp := mkStamp batch 0 ts [batch].

Definition demo_key (batch ts : Z) : EntryKey := mkEntryKey 5 batch (stamp_hash (demo_stamp batch ts)) 5.

Definition demo_value (batch ts seq : Z) : EntryValue :=
  mkEntryValue 5 seq (stamp_to_bytes (demo_stamp batch ts)).

Lemma older_stamp_never_delivered_witness :
  ∃ topmost chunks, range_exchange 5 0 250 demo_reserve = Some (topmost, chunks) ∧ length chunks = 3%nat ∧
    ∀ c, c ∈ chunks → any_address (sp_any c) = 5 → sp_stamp c ≠ demo_stamp 1 10.
Proof.
  pose proof (range_exchange_spec 5 0 250 demo_reserve demo_ok) as Hex.
  set (topmost := max_seq 0 _) in Hex. set (chunks := omap _ _) in Hex.
  exists topmost, chunks. split; [exact Hex|]. split; [vm_compute; reflexivity|].
  apply (older_stamp_never_delivered demo_reserve 5 0 250 topmost chunks
    (demo_key 1 10) (demo_value 1 10 1) (demo_stamp 1 10) (demo_key 2 11) (demo_value 2 11 2) (demo_stamp 2 11)).
  - exact demo_ok.
  - lia.
  - lia.
  - exact Hex.
  - vm_compute. lia.
  - vm_compute. reflexivity.
  - reflexivity.
  - simpl. lia.
  - vm_compute. reflexivity.
  - vm_compute. reflexivity.
  - vm_compute. reflexivity.
  - reflexivity.
  - simpl. lia.
Defined.
