(* ===== verification/Redistribution.v ===== *)
(** * Redistribution: the reserve sample and the proof of entitlement

    Models [crates/swarm/redistribution/src/]: the round anchors, the committed
    depth and its neighbourhood, the candidate filter, the bounded sample with its
    reserve commitment, witness selection, and the inclusion proofs.

    Chunks and the binary Merkle tree are types of [nectar_primitives]: the classes
    [ChunkEnv] and [BmtEnv] are what the sources use of them.  Addresses and anchors are
    32-byte big-endian numbers. *)

From S2P Require Import Prelude.
From S2P Require Import Bytes.
From S2P Require Import Postage.

(** [nectar_primitives::AnyChunk]. *)
Class ChunkEnv := {
  AnyChunk : Type;
  chunk_addr : AnyChunk → ChunkAddress;
  chunk_is_content : AnyChunk → bool;
  chunk_is_single_owner : AnyChunk → bool;
  chunk_data : AnyChunk → list Z;
  chunk_span : AnyChunk → Z;
  transformed_address : AnyChunk → list Z → ChunkAddress;
  (** An address is 32 bytes and a body at most 4096. *)
  transformed_b256 c a : is_b256 (transformed_address c a);
  chunk_data_len c : (length (chunk_data c) <= 4096)%nat;
}.

(** The BMT hasher and its prover; a proof exists for every segment of a body. *)
Class BmtEnv := {
  Hasher : Type;
  BmtProof : Type;
  PrimitivesError : Type;
  hasher_new : Hasher;
  with_prefix : list Z → Hasher;
  set_span : Hasher → Z → Hasher;
  hasher_update : Hasher → list Z → Hasher;
  generate_proof : Hasher → list Z → Z → result PrimitivesError BmtProof;
  generate_proof_in_range h data i :
    (length data <= 4096)%nat → 0 <= i < 128 → ∃ p, generate_proof h data i = Ok p;
}.

Definition SAMPLE_SIZE : nat := 16.

(** ** Anchors *)

Record SampleAnchor := mkSampleAnchor { sa_get : B256 }.
Record ClaimAnchor := mkClaimAnchor { ca_get : B256 }.
Definition sample_bytes (a : SampleAnchor) : list Z := be_bytes 32 (sa_get a).
Definition claim_bytes (a : ClaimAnchor) : list Z := be_bytes 32 (ca_get a).

(** ** Committed depth *)

Section depth.
(** [Bin::MAX] of [nectar_primitives], and the proximity of two addresses. *)
Context (bin_max : Z) (proximity : Z → Z → Z).

Record CapacityDoubling := mkDoubling { doubling_get : Z }.
Record CommittedDepth := mkDepth { depth_bin : Z }.
Record CapacityDoublingError := mkDoublingError { de_value : Z; de_max : Z }.

Definition DOUBLING_MAX : CapacityDoubling := mkDoubling 1.

Definition doubling_try_from (value : Z) : result CapacityDoublingError CapacityDoubling :=
  if decide (doubling_get DOUBLING_MAX < value) then
    Err (mkDoublingError value (doubling_get DOUBLING_MAX))
  else Ok (mkDoubling value).

(** [Bin::try_from]. *)
Definition bin_try_from (raw : Z) : option Z := if decide (raw <= bin_max) then Some raw else None.

Definition from_radius (radius : Z) (doubling : CapacityDoubling) : CommittedDepth :=
  let raw := Z.min u8_max (radius + doubling_get doubling) in
  mkDepth (default bin_max (bin_try_from raw)).

Definition depth_contains (d : CommittedDepth) (bin : Z) : bool := bool_decide (depth_bin d <= bin).

Definition canonical_neighbourhood (anchor : Z) (depth : CommittedDepth) (addrs : list ChunkAddress) :
    list ChunkAddress :=
  filter (λ addr, depth_contains depth (proximity anchor addr)) addrs.
End depth.

(** ** Witness selection *)

(** The accumulator is a [u128]. *)
Definition mod_be (bytes : list Z) (m : Z) : Z :=
  foldl (λ acc b, Z.lor (Z.shiftl acc 8 mod 2 ^ 128) b mod m) 0 bytes.

Record WitnessIndices := mkWitness {
  wi_challenged : nat * nat;
  wi_last : nat;
  wi_segment_index : Z;
}.

Definition witness_indices (claim : ClaimAnchor) : WitnessIndices :=
  let bytes := claim_bytes claim in
  let last := (SAMPLE_SIZE - 1)%nat in
  let first := Z.to_nat (mod_be bytes (Z.of_nat last)) in
  let second := Z.to_nat (mod_be bytes (Z.of_nat (last - 1))) in
  let second := if decide (first <= second)%nat then S second else second in
  mkWitness (first, second) last (mod_be bytes 128).

(** ** The sample *)

Section sample.
Context {CE : ChunkEnv}.

Record SampleItem := mkItem {
  si_transformed_address : ChunkAddress;
  si_chunk : AnyChunk;
  si_stamp : option Stamp;
}.

Definition item_new (sample : SampleAnchor) (chunk : AnyChunk) : SampleItem :=
  mkItem (transformed_address chunk (sample_bytes sample)) chunk None.

Definition item_with_stamp (sample : SampleAnchor) (chunk : AnyChunk) (stamp : Stamp) : SampleItem :=
  mkItem (transformed_address chunk (sample_bytes sample)) chunk (Some stamp).

Definition chunk_address (i : SampleItem) : ChunkAddress := chunk_addr (si_chunk i).

(** The slot at [pos] holds the first key that is not smaller. *)
Definition insert_sample_item (sample : list SampleItem) (item : SampleItem) : list SampleItem :=
  let key := si_transformed_address item in
  match list_find (λ s, bytes_ge (be_bytes 32 (si_transformed_address s)) (be_bytes 32 key)) sample with
  | None => if decide (length sample < SAMPLE_SIZE)%nat then sample ++ [item] else sample
  | Some (pos, incumbent) =>
      if decide (si_transformed_address incumbent = key) then
        if chunk_is_content (si_chunk item) then <[pos:=item]> sample else sample
      else
        let sample := take pos sample ++ item :: drop pos sample in
        if decide (SAMPLE_SIZE < length sample)%nat then take SAMPLE_SIZE sample else sample
  end.

Definition reserve_sample (candidates : list SampleItem) : list SampleItem :=
  foldl insert_sample_item [] candidates.

Definition reserve_commitment_content (items : list SampleItem) : list Z :=
  foldl (λ content it,
    content ++ be_bytes 32 (chunk_address it) ++ be_bytes 32 (si_transformed_address it)) [] items.

(** ** The candidate filter *)

Inductive FilterRejection :=
| FutureTimestamp
| BelowMinimumBalance
| RogueChunk
| InvalidStamp.

(** The trait [RoundBatches]. *)
Class RoundBatches := {
  consensus_time : Z;
  is_below_minimum_balance : BatchId → bool;
  is_admissible : BatchId → bool;
}.

Definition filter_check {RB : RoundBatches} (chunk : AnyChunk) (stamp : Stamp) :
    result FilterRejection unit :=
  if decide (consensus_time < st_timestamp stamp) then Err FutureTimestamp
  else
    let batch := st_batch stamp in
    if is_below_minimum_balance batch then Err BelowMinimumBalance
    else if negb (chunk_is_content chunk || chunk_is_single_owner chunk) then Err RogueChunk
    else if negb (is_admissible batch) then Err InvalidStamp
    else Ok tt.

Definition candidate {RB : RoundBatches} (sample : SampleAnchor) (chunk : AnyChunk) (stamp : Stamp) :
    option SampleItem :=
  match filter_check chunk stamp with
  | Ok _ => Some (item_with_stamp sample chunk stamp)
  | Err _ => None
  end.

(** ** Inclusion proofs *)

Context {BE : BmtEnv}.

Record ChunkInclusionProof := mkInclusion {
  rc_proof : BmtProof;
  og_proof : BmtProof;
  tr_proof : BmtProof;
  proof_span : Z;
  postage_proof : Stamp;
}.

Record Body := mkBody { body_span : Z; body_payload : list Z }.

Definition body_of (chunk : AnyChunk) : Body := mkBody (chunk_span chunk) (chunk_data chunk).

Definition body_hasher (b : Body) (prefix : option (list Z)) : Hasher :=
  let hasher := match prefix with Some p => with_prefix p | None => hasher_new end in
  hasher_update (set_span hasher (body_span b)) (body_payload b).

Inductive ProofError :=
| ErrSampleSize (n : nat)
| MissingStamp (slot : nat)
| ErrBmt (e : PrimitivesError).

Definition make_witness (items : list SampleItem) (sample : SampleAnchor) (rc_content : list Z)
    (rc_hash : Hasher) (segment_index : Z) (slot : nat) : result ProofError ChunkInclusionProof :=
  item ← ok_or (ErrSampleSize (length items)) (items !! slot);
  postage ← ok_or (MissingStamp slot) (si_stamp item);
  rc ← map_err ErrBmt (generate_proof rc_hash rc_content (Z.of_nat slot * 2));
  let body := body_of (si_chunk item) in
  og ← map_err ErrBmt (generate_proof (body_hasher body None) (body_payload body) segment_index);
  tr ← map_err ErrBmt (generate_proof (body_hasher body (Some (sample_bytes sample))) (body_payload body)
                         segment_index);
  Ok (mkInclusion rc og tr (body_span body) postage).

(** The three proofs in submission order. *)
Definition make_inclusion_proofs (items : list SampleItem) (sample : SampleAnchor) (claim : ClaimAnchor) :
    result ProofError (ChunkInclusionProof * ChunkInclusionProof * ChunkInclusionProof) :=
  if decide (length items ≠ SAMPLE_SIZE) then Err (ErrSampleSize (length items))
  else
    let idx := witness_indices claim in
    let rc_content := reserve_commitment_content items in
    let rc_hash := body_hasher (mkBody (Z.of_nat (length rc_content)) rc_content) None in
    let witness := make_witness items sample rc_content rc_hash (wi_segment_index idx) in
    w0 ← witness (wi_challenged idx).1;
    w1 ← witness (wi_challenged idx).2;
    w2 ← witness (wi_last idx);
    Ok (w0, w1, w2).
End sample.

(** ** Witness selection: lemmas *)

Lemma lor_shift_byte acc b : 0 <= acc → 0 <= b < 256 → Z.lor (Z.shiftl acc 8) b = acc * 256 + b.
Proof.
  intros Ha Hb. rewrite Z.shiftl_mul_pow2 by lia. change (2 ^ 8) with 256.
  assert (Z.land (acc * 256) b = 0) as Hl.
  { apply Z.bits_inj'. intros i Hi. rewrite Z.land_spec, Z.bits_0.
    destruct (decide (i < 8)) as [Hlt|Hge].
    - replace (acc * 256) with (Z.shiftl acc 8) by (rewrite Z.shiftl_mul_pow2; lia).
      rewrite Z.shiftl_spec_low by lia. done.
    - replace (Z.testbit b i) with false; [by rewrite andb_false_r|]. symmetry.
      apply Z.testbit_false; [lia|]. rewrite Z.div_small; [done|]. split; [lia|].
      apply Z.lt_le_trans with (2 ^ 8); [lia|]. apply Z.pow_le_mono_r; lia. }
  rewrite <-Z.lxor_lor by done. by rewrite <-Z.add_nocarry_lxor.
Qed.

(** The folded remainder is the remainder of the whole number. *)
Lemma mod_be_spec bytes m :
  0 < m <= u64_max → Forall (λ b, 0 <= b < 256) bytes → mod_be bytes m = of_be bytes mod m.
Proof.
  intros Hm Hb. unfold mod_be, of_be.
  assert (∀ acc acc', 0 <= acc < m → 0 <= acc' → acc = acc' mod m →
    foldl (λ acc b, Z.lor (Z.shiftl acc 8 mod 2 ^ 128) b mod m) acc bytes =
    foldl (λ acc b, acc * 256 + b) acc' bytes mod m) as H.
  { induction Hb as [|b bytes Hb _ IH]; intros acc acc' Ha Ha' Heq; [done|]. cbn [foldl].
    apply IH; [apply Z.mod_pos_bound; lia|lia|].
    assert (Z.shiftl acc 8 = acc * 256) as Hs by (rewrite Z.shiftl_mul_pow2; lia).
    rewrite (Z.mod_small (Z.shiftl acc 8)) by (rewrite Hs; mach; lia).
    rewrite lor_shift_byte by lia. rewrite Heq.
    rewrite <-(Z.add_mod_idemp_l (acc' mod m * 256)), Z.mul_mod_idemp_l by lia.
    by rewrite Z.add_mod_idemp_l by lia. }
  apply H; [lia|lia|]. symmetry. apply Z.mod_0_l. lia.
Qed.

Lemma mod_be_claim claim m :
  is_b256 (ca_get claim) → 0 < m <= u64_max → mod_be (claim_bytes claim) m = ca_get claim mod m.
Proof.
  intros Hc Hm. rewrite mod_be_spec; [|done|apply be_bytes_range].
  unfold claim_bytes. by rewrite of_be_bytes_id.
Qed.

(** The slots and the segment are in range for every anchor. *)
Lemma witness_indices_range claim : is_b256 (ca_get claim) →
  let w := witness_indices claim in
  ((wi_challenged w).1 < 15)%nat ∧ ((wi_challenged w).2 < 15)%nat ∧
  (wi_challenged w).1 ≠ (wi_challenged w).2 ∧ wi_last w = 15%nat ∧ 0 <= wi_segment_index w < 128.
Proof.
  intros Hc. unfold witness_indices, SAMPLE_SIZE. cbn [wi_challenged wi_last wi_segment_index fst snd].
  rewrite !mod_be_claim by (done || (mach; lia)).
  pose proof (Z.mod_pos_bound (ca_get claim) 15). pose proof (Z.mod_pos_bound (ca_get claim) 14).
  pose proof (Z.mod_pos_bound (ca_get claim) 128).
  change (Z.of_nat (16 - 1)) with 15. change (Z.of_nat (16 - 1 - 1)) with 14.
  case_decide; repeat split; lia.
Qed.

(** ** The sample: a reference selection

    Of the candidates with one transformed address the last content chunk wins,
    else the first; the sample is the winners of the 16 smallest addresses. *)

Section reference.
Context {CE : ChunkEnv}.
Implicit Types (x y : SampleItem) (s cands : list SampleItem) (k : Z).

Abbreviation key := si_transformed_address.
Abbreviation is_cac x := (chunk_is_content (si_chunk x)).

Definition tied (k : Z) (cands : list SampleItem) : list SampleItem := filter (λ x, key x = k) cands.

Definition winner (cands : list SampleItem) (k : Z) : option SampleItem :=
  match last (filter (λ x, is_cac x) (tied k cands)) with
  | Some x => Some x
  | None => head (tied k cands)
  end.

Definition sorted_keys (cands : list SampleItem) : list Z := merge_sort Z.le (remove_dups (key <$> cands)).

Definition sample_reference (cands : list SampleItem) : list SampleItem :=
  take SAMPLE_SIZE (omap (winner cands) (sorted_keys cands)).

(** Sorted insertion with no bound. *)
Fixpoint ins (x : SampleItem) (s : list SampleItem) : list SampleItem :=
  match s with
  | [] => [x]
  | y :: s =>
      if decide (key y < key x) then y :: ins x s
      else if decide (key y = key x) then (if is_cac x then x else y) :: s
      else x :: y :: s
  end.

Definition wf_item x : Prop := is_b256 (key x).

Lemma key_ge_spec x y : wf_item x → wf_item y →
  bytes_ge (be_bytes 32 (key y)) (be_bytes 32 (key x)) = bool_decide (key x <= key y).
Proof.
  intros Hx Hy. unfold bytes_ge. rewrite lex_be_bytes by done.
  case_bool_decide; destruct (Z.compare_spec (key y) (key x)); done || lia.
Qed.

(** Truncating before or after the insertion is the same. *)
Lemma take_ins n x s : take n (ins x (take n s)) = take n (ins x s).
Proof.
  revert n. induction s as [|y s IH]; intros [|n]; [done..|]. simpl.
  repeat case_decide; simpl; f_equal; [apply IH|by rewrite take_take, Nat.min_id|].
  destruct n as [|n]; [done|]. simpl. f_equal. rewrite take_take. f_equal. lia.
Qed.

(** The slot found decides what an insertion does. *)
Lemma ins_find x s : wf_item x → Forall wf_item s →
  ins x s =
  match list_find (λ y, bytes_ge (be_bytes 32 (key y)) (be_bytes 32 (key x))) s with
  | None => s ++ [x]
  | Some (pos, y) =>
      if decide (key y = key x) then if is_cac x then <[pos:=x]> s else s
      else take pos s ++ x :: drop pos s
  end.
Proof.
  intros Hx. induction 1 as [|y s Hy Hs IH]; [done|]. cbn [ins list_find]. rewrite key_ge_spec by done.
  destruct (decide (key y < key x)) as [Hlt|Hge].
  - rewrite bool_decide_eq_false_2 by lia. rewrite decide_False by (intros []). rewrite IH.
    destruct (list_find _ s) as [[pos z]|]; simpl; [|done]. repeat case_decide; [|done].
    by destruct (is_cac x).
  - rewrite bool_decide_eq_true_2 by lia. rewrite (decide_True (P:=true)) by done.
    simpl. case_decide; [|done]. by destruct (is_cac x).
Qed.

Lemma insert_is_ins x s : wf_item x → Forall wf_item s → (length s <= SAMPLE_SIZE)%nat →
  insert_sample_item s x = take SAMPLE_SIZE (ins x s).
Proof.
  intros Hx Hs Hl. rewrite ins_find by done. unfold insert_sample_item.
  destruct (list_find _ s) as [[pos y]|].
  - case_decide; [|cbv zeta; case_decide; [done|symmetry; apply take_ge; lia]].
    destruct (is_cac x); rewrite take_ge; try done; rewrite ?length_insert; done.
  - case_decide; [by rewrite take_ge by (rewrite length_app; simpl; lia)|].
    by rewrite take_app_le, take_ge by lia.
Qed.

Lemma ins_subset x y s : y ∈ ins x s → y = x ∨ y ∈ s.
Proof.
  induction s as [|z s IH]; simpl; [set_solver|]. repeat case_decide; [set_solver| |set_solver].
  destruct (is_cac x); set_solver.
Qed.

Lemma ins_wf x s : wf_item x → Forall wf_item s → Forall wf_item (ins x s).
Proof. rewrite !Forall_forall. intros Hx Hs y [->|?]%ins_subset; auto. Qed.

(** Bounded insertion keeps the smallest keys of the unbounded one. *)
Lemma sample_unbounded cands : Forall wf_item cands →
  reserve_sample cands = take SAMPLE_SIZE (foldl (flip ins) [] cands) ∧ Forall wf_item (foldl (flip ins) [] cands).
Proof.
  induction cands as [|x cands IH] using rev_ind; [done|]. rewrite Forall_app, Forall_singleton.
  intros [Hc Hx]. destruct (IH Hc) as [E Hw]. unfold reserve_sample in *. rewrite !foldl_app. simpl.
  split; [|by apply ins_wf]. rewrite E, insert_is_ins; [apply take_ins|done|by apply Forall_take|].
  rewrite length_take. lia.
Qed.

(** *** The unbounded list holds the winners *)

Abbreviation key_lt := (λ x y, key x < key y).

Lemma ins_sorted x s : StronglySorted key_lt s → StronglySorted key_lt (ins x s).
Proof.
  induction 1 as [|y s Hs IH Hy]; simpl; [by repeat constructor|].
  rewrite Forall_forall in Hy. repeat case_decide.
  - constructor; [done|]. apply Forall_forall. intros z [->|Hz]%ins_subset; auto.
  - destruct (is_cac x); constructor; try done; apply Forall_forall; [|done].
    intros z Hz. rewrite <-H0. auto.
  - constructor; [by constructor; [|apply Forall_forall]|]. constructor; [lia|].
    apply Forall_forall. intros z Hz%Hy. lia.
Qed.

Lemma unbounded_sorted cands : StronglySorted key_lt (foldl (flip ins) [] cands).
Proof.
  induction cands as [|x cands IH] using rev_ind; [constructor|]. rewrite foldl_app. by apply ins_sorted.
Qed.

Lemma tied_cons k y s : tied k (y :: s) = if decide (key y = k) then y :: tied k s else tied k s.
Proof. done. Qed.

Lemma tied_above k s : Forall (λ y, k < key y) s → tied k s = [].
Proof. rewrite Forall_forall. intros H. apply filter_none. intros y Hy%H. lia. Qed.

(** What is kept under a key after an insertion. *)
Lemma tied_ins k x s : StronglySorted key_lt s →
  head (tied k (ins x s)) =
  if decide (key x = k) then if is_cac x then Some x else Some (default x (head (tied k s)))
  else head (tied k s).
Proof.
  induction 1 as [|y s Hs IH Hy]; simpl.
  - rewrite tied_cons. case_decide; [|done]. by destruct (is_cac x).
  - destruct (decide (key y < key x)); [|destruct (decide (key y = key x)) as [Hk|Hk]]; rewrite !tied_cons.
    + destruct (decide (key y = k)); [by rewrite decide_False by lia|]. by rewrite IH.
    + replace (key (if is_cac x then x else y)) with (key x) by (by destruct (is_cac x)). rewrite Hk.
      destruct (decide (key x = k)); [|done]. by destruct (is_cac x).
    + destruct (decide (key x = k)); [|done]. rewrite decide_False by lia.
      rewrite tied_above; [by destruct (is_cac x)|]. eapply Forall_impl; [done|]. simpl. lia.
Qed.

Lemma tied_snoc k x cands : tied k (cands ++ [x]) = tied k cands ++ if decide (key x = k) then [x] else [].
Proof. unfold tied. rewrite filter_app. done. Qed.

Lemma winner_snoc k x cands :
  winner (cands ++ [x]) k =
  if decide (key x = k) then if is_cac x then Some x else Some (default x (winner cands k))
  else winner cands k.
Proof.
  unfold winner. rewrite tied_snoc. case_decide; [|by rewrite app_nil_r].
  rewrite filter_app. destruct (is_cac x) eqn:Ex.
  - rewrite filter_cons_True by (by rewrite Ex). by rewrite filter_nil, last_snoc.
  - rewrite filter_cons_False by (rewrite Ex; intros []). rewrite filter_nil, app_nil_r.
    destruct (last _); [done|]. by destruct (tied k cands).
Qed.

Lemma unbounded_winner cands k : head (tied k (foldl (flip ins) [] cands)) = winner cands k.
Proof.
  induction cands as [|x cands IH] using rev_ind; [done|]. rewrite foldl_app. cbn [foldl flip].
  rewrite tied_ins by apply unbounded_sorted. by rewrite winner_snoc, IH.
Qed.

(** *** A sorted list is the kept items of its keys *)

Lemma sorted_keys_nodup s : StronglySorted key_lt s → NoDup (key <$> s).
Proof.
  induction 1 as [|y s _ IH Hy]; simpl; constructor; [|done]. rewrite Forall_forall in Hy.
  intros (z & E & Hz)%list_elem_of_fmap. specialize (Hy z Hz). lia.
Qed.

Lemma sorted_keys_le s : StronglySorted key_lt s → StronglySorted Z.le (key <$> s).
Proof.
  induction 1 as [|y s _ IH Hy]; simpl; constructor; [done|]. rewrite Forall_fmap.
  eapply Forall_impl; [done|]. simpl. lia.
Qed.

Lemma tied_sorted x s : StronglySorted key_lt s → x ∈ s → head (tied (key x) s) = Some x.
Proof.
  induction 1 as [|y s Hs IH Hy]; [by intros ?%not_elem_of_nil|]. rewrite tied_cons.
  intros [->|Hx]%elem_of_cons; [by rewrite decide_True|].
  rewrite Forall_forall in Hy. specialize (Hy x Hx). rewrite decide_False by lia. auto.
Qed.

Lemma omap_keys (f : Z → option SampleItem) s :
  (∀ x, x ∈ s → f (key x) = Some x) → omap f (key <$> s) = s.
Proof.
  induction s as [|x s IH]; intros Hf; [done|]. simpl. rewrite (Hf x) by left. f_equal. apply IH.
  intros y Hy. apply Hf. by right.
Qed.

Lemma tied_key k x cands : x ∈ tied k cands ↔ key x = k ∧ x ∈ cands.
Proof. unfold tied. by rewrite list_elem_of_filter. Qed.

Lemma winner_elem cands k x : winner cands k = Some x → key x = k ∧ x ∈ cands.
Proof.
  unfold winner. rewrite <-tied_key. destruct (last _) as [y|] eqn:E.
  - intros [= <-]. apply last_Some_elem_of in E. by apply list_elem_of_filter in E as [_ ?].
  - apply head_Some_elem_of.
Qed.

Lemma winner_exists cands k : k ∈ key <$> cands → is_Some (winner cands k).
Proof.
  intros (x & -> & Hx)%list_elem_of_fmap. unfold winner. destruct (last _); [by eexists|].
  assert (x ∈ tied (key x) cands) as Ht by (by apply tied_key).
  destruct (tied (key x) cands); [by apply not_elem_of_nil in Ht|by eexists].
Qed.

(** A content chunk wins whenever one is tied. *)
Lemma winner_content cands k x y :
  winner cands k = Some x → y ∈ cands → key y = k → is_cac y → is_cac x.
Proof.
  unfold winner. intros Hw Hy Hk Hc. destruct (last _) as [z|] eqn:E.
  - simplify_eq. apply last_Some_elem_of in E. by apply list_elem_of_filter in E as [? _].
  - apply last_None in E. assert (y ∈ filter (λ x, is_cac x) (tied k cands)) as Hf.
    { apply list_elem_of_filter. split; [done|]. by apply tied_key. }
    rewrite E in Hf. by apply not_elem_of_nil in Hf.
Qed.

Lemma sorted_keys_unique (ks : list Z) cands :
  StronglySorted Z.le ks → NoDup ks → (∀ k, k ∈ ks ↔ k ∈ key <$> cands) → ks = sorted_keys cands.
Proof.
  intros Hs Hn He. apply (StronglySorted_unique Z.le); [done|apply StronglySorted_merge_sort; apply _|].
  unfold sorted_keys. rewrite merge_sort_Permutation. apply NoDup_Permutation; [done|apply NoDup_remove_dups|].
  intros k. by rewrite elem_of_remove_dups.
Qed.

(** The sample computed is the reference selection. *)
Lemma sample_is_reference cands : Forall wf_item cands → reserve_sample cands = sample_reference cands.
Proof.
  intros Hw. rewrite (proj1 (sample_unbounded cands Hw)). unfold sample_reference. f_equal.
  pose proof (unbounded_sorted cands) as Hs. set (u := foldl (flip ins) [] cands) in *.
  assert (key <$> u = sorted_keys cands) as <-.
  { apply sorted_keys_unique; [by apply sorted_keys_le|by apply sorted_keys_nodup|]. intros k. split.
    - intros (x & -> & Hx)%list_elem_of_fmap. pose proof (tied_sorted x u Hs Hx) as Ht.
      unfold u in Ht. rewrite unbounded_winner in Ht. apply winner_elem in Ht as [_ Hc].
      by apply list_elem_of_fmap_2.
    - intros [x Hx]%winner_exists. rewrite <-unbounded_winner in Hx. fold u in Hx.
      apply head_Some_elem_of, tied_key in Hx as [<- Hx]. by apply list_elem_of_fmap_2. }
  symmetry. apply omap_keys. intros x Hx. rewrite <-unbounded_winner. by apply tied_sorted.
Qed.

Lemma sorted_keys_elem cands k : k ∈ sorted_keys cands ↔ k ∈ key <$> cands.
Proof. unfold sorted_keys. by rewrite merge_sort_Permutation, elem_of_remove_dups. Qed.

Lemma sorted_keys_perm cands cands' : cands ≡ₚ cands' → sorted_keys cands = sorted_keys cands'.
Proof.
  intros Hp. apply sorted_keys_unique.
  - apply StronglySorted_merge_sort; apply _.
  - unfold sorted_keys. rewrite merge_sort_Permutation. apply NoDup_remove_dups.
  - intros k. by rewrite sorted_keys_elem, Hp.
Qed.

Lemma omap_winner_keys cands (ks : list Z) :
  (∀ k, k ∈ ks → k ∈ key <$> cands) → key <$> omap (winner cands) ks = ks.
Proof.
  induction ks as [|k ks IH]; intros Hk; [done|]. simpl.
  destruct (winner_exists cands k) as [x Hx]; [by apply Hk; left|].
  rewrite Hx. simpl. f_equal; [by apply winner_elem in Hx as [? _]|]. apply IH. intros k' ?. apply Hk. by right.
Qed.

(** One slot per distinct transformed address, up to the sample size. *)
Lemma reserve_sample_length cands : Forall wf_item cands →
  length (reserve_sample cands) = (SAMPLE_SIZE `min` length (remove_dups (key <$> cands)))%nat.
Proof.
  intros Hw. rewrite sample_is_reference by done. unfold sample_reference. rewrite length_take. f_equal.
  rewrite <-(length_fmap key), omap_winner_keys by (intros k; by rewrite sorted_keys_elem).
  unfold sorted_keys. by rewrite merge_sort_Permutation.
Qed.

Lemma reserve_sample_elem cands x : Forall wf_item cands → x ∈ reserve_sample cands → x ∈ cands.
Proof.
  intros Hw. rewrite sample_is_reference by done. unfold sample_reference.
  intros (i & Hi & _)%elem_of_take. apply list_elem_of_lookup_2, list_elem_of_omap in Hi as (k & _ & Hk).
  by apply winner_elem in Hk as [_ ?].
Qed.
End reference.

(** ** The commitment *)

Section commitment.
Context {CE : ChunkEnv}.
Implicit Types (x y : SampleItem) (cands : list SampleItem).

Abbreviation key := si_transformed_address.

(** No two chunks of one shape collide under the transform. *)
Definition collision_free (cands : list SampleItem) : Prop :=
  ∀ x y, x ∈ cands → y ∈ cands → key x = key y →
    chunk_is_content (si_chunk x) = chunk_is_content (si_chunk y) → chunk_address x = chunk_address y.

Definition committed (x : SampleItem) : ChunkAddress * ChunkAddress := (chunk_address x, key x).

Lemma commitment_committed items :
  reserve_commitment_content items =
  foldl (λ content '(a, k), content ++ be_bytes 32 a ++ be_bytes 32 k) [] (committed <$> items).
Proof.
  unfold reserve_commitment_content. generalize (@nil Z).
  induction items as [|it items IH]; intros c; [done|]. simpl foldl. apply IH.
Qed.

Lemma commitment_length items : length (reserve_commitment_content items) = (64 * length items)%nat.
Proof.
  unfold reserve_commitment_content. assert (∀ c : list Z,
    length (foldl (λ content it, content ++ be_bytes 32 (chunk_address it) ++ be_bytes 32 (key it)) c items) =
    (length c + 64 * length items)%nat) as H; [|by rewrite H].
  induction items as [|it items IH]; intros c; cbn [foldl length]; [lia|].
  rewrite IH, !length_app, !be_bytes_length. lia.
Qed.

(** Tied candidates commit the same bytes whichever order they came in. *)
Lemma winner_perm cands cands' k :
  cands ≡ₚ cands' → collision_free cands → committed <$> winner cands k = committed <$> winner cands' k.
Proof.
  intros Hp Hc. destruct (decide (k ∈ key <$> cands)) as [Hk|Hk].
  - destruct (winner_exists _ _ Hk) as [x Hx]. rewrite Hp in Hk. destruct (winner_exists _ _ Hk) as [y Hy].
    rewrite Hx, Hy. simpl. f_equal.
    destruct (winner_elem _ _ _ Hx) as [Kx Ex]. destruct (winner_elem _ _ _ Hy) as [Ky Ey].
    assert (y ∈ cands) as Ey' by (by rewrite Hp). assert (x ∈ cands') as Ex' by (by rewrite <-Hp).
    unfold committed. f_equal; [|congruence]. apply Hc; [done..|congruence|].
    apply eq_bool_prop_intro. split; intros Hs.
    + by apply (winner_content _ _ _ x Hy).
    + by apply (winner_content _ _ _ y Hx).
  - destruct (winner cands k) as [x|] eqn:Hx.
    { apply winner_elem in Hx as [<- Hx]. by destruct Hk; apply list_elem_of_fmap_2. }
    destruct (winner cands' k) as [y|] eqn:Hy; [|done].
    apply winner_elem in Hy as [<- Hy]. destruct Hk. rewrite Hp. by apply list_elem_of_fmap_2.
Qed.

Lemma committed_sample_perm cands cands' :
  Forall wf_item cands → cands ≡ₚ cands' → collision_free cands →
  committed <$> reserve_sample cands = committed <$> reserve_sample cands'.
Proof.
  intros Hw Hp Hc. rewrite !sample_is_reference by (by rewrite <-?Hp). unfold sample_reference.
  rewrite !fmap_take. f_equal. rewrite (sorted_keys_perm _ _ Hp).
  induction (sorted_keys cands') as [|k ks IH]; [done|]. simpl. pose proof (winner_perm _ _ k Hp Hc) as Hk.
  destruct (winner cands k), (winner cands' k); [|done..]. rewrite !fmap_cons. f_equal; [by apply (inj Some) in Hk|apply IH].
Qed.
End commitment.

(** ** Proofs *)

Section proofs.
Context {CE : ChunkEnv} {BE : BmtEnv}.
Implicit Types (items : list SampleItem).

Lemma make_witness_stamped items sample rc_hash segment_index slot item stamp :
  length items = SAMPLE_SIZE → items !! slot = Some item → si_stamp item = Some stamp →
  0 <= segment_index < 128 →
  ∃ w, make_witness items sample (reserve_commitment_content items) rc_hash segment_index slot = Ok w ∧
    postage_proof w = stamp ∧ proof_span w = chunk_span (si_chunk item).
Proof.
  intros Hl Hi Hs Hg. unfold make_witness. rewrite Hi. simpl. rewrite Hs. simpl.
  apply lookup_lt_Some in Hi. unfold SAMPLE_SIZE in Hl.
  destruct (generate_proof_in_range rc_hash (reserve_commitment_content items) (Z.of_nat slot * 2)) as [p ->];
    [rewrite commitment_length; lia|lia|]. simpl.
  edestruct generate_proof_in_range as [q ->]; [apply chunk_data_len|done|]. simpl.
  edestruct generate_proof_in_range as [r ->]; [apply chunk_data_len|done|]. simpl. eauto.
Qed.

Lemma make_witness_unstamped items sample rc_content rc_hash segment_index slot item :
  items !! slot = Some item → si_stamp item = None →
  make_witness items sample rc_content rc_hash segment_index slot = Err (MissingStamp slot).
Proof. intros Hi Hs. unfold make_witness. rewrite Hi. simpl. by rewrite Hs. Qed.

Definition opened (claim : ClaimAnchor) : list nat :=
  let w := witness_indices claim in [(wi_challenged w).1; (wi_challenged w).2; wi_last w].

Lemma opened_bound claim slot : is_b256 (ca_get claim) → slot ∈ opened claim → (slot < SAMPLE_SIZE)%nat.
Proof.
  intros (? & ? & _ & Hl & _)%witness_indices_range. unfold opened, SAMPLE_SIZE. rewrite Hl, !elem_of_cons, elem_of_nil. lia.
Qed.

(** A full sample that is stamped in the opened slots is proved. *)
Lemma make_inclusion_proofs_ok items sample claim :
  is_b256 (ca_get claim) → length items = SAMPLE_SIZE →
  (∀ x, x ∈ items → is_Some (si_stamp x)) →
  ∃ w0 w1 w2, make_inclusion_proofs items sample claim = Ok (w0, w1, w2) ∧
    Forall2 (λ slot w, ∃ x, items !! slot = Some x ∧ si_stamp x = Some (postage_proof w) ∧
                            proof_span w = chunk_span (si_chunk x)) (opened claim) [w0; w1; w2].
Proof.
  intros Hc Hl Hs. unfold make_inclusion_proofs. rewrite decide_False by auto. cbv zeta.
  assert (0 <= wi_segment_index (witness_indices claim) < 128) as Hg by (by apply witness_indices_range).
  assert (∀ slot rc_hash, slot ∈ opened claim → ∃ w x,
    make_witness items sample (reserve_commitment_content items) rc_hash
      (wi_segment_index (witness_indices claim)) slot = Ok w ∧ items !! slot = Some x ∧
    si_stamp x = Some (postage_proof w) ∧ proof_span w = chunk_span (si_chunk x)) as Hw.
  { intros slot rc_hash Ho. pose proof (opened_bound claim slot Hc Ho). rewrite <-Hl in *.
    destruct (lookup_lt_is_Some_2 items slot) as [x Hx]; [done|].
    destruct (Hs x) as [st Hst]; [by eapply list_elem_of_lookup_2|].
    edestruct (make_witness_stamped items sample rc_hash) as (w & Ew & ? & ?); [done..|].
    exists w, x. rewrite Ew. naive_solver. }
  edestruct (Hw (wi_challenged (witness_indices claim)).1) as (w0 & x0 & -> & H0); [left|]. cbn [mbind result_bind].
  edestruct (Hw (wi_challenged (witness_indices claim)).2) as (w1 & x1 & -> & H1); [right; left|]. cbn [mbind result_bind].
  edestruct (Hw (wi_last (witness_indices claim))) as (w2 & x2 & -> & H2); [do 2 right; left|]. cbn [mbind result_bind].
  exists w0, w1, w2. split; [done|]. repeat (constructor; [by eexists|]). constructor.
Qed.
End proofs.

(** ** Properties *)

Section properties.
Context {CE : ChunkEnv} {BE : BmtEnv}.

(** C23: Sampling is insertion-order based but equals a reference selection.
    Whatever the order and number of candidates, the bounded insertion ends with
    the winners of the 16 smallest distinct transformed addresses, in ascending
    order, where of tied candidates the last content chunk wins and otherwise the
    first one. *)
Theorem reserve_sample_reference (cands : list SampleItem) :
  Forall wf_item cands → reserve_sample cands = sample_reference cands.
Proof. apply sample_is_reference. Qed.

(** The commitment is a function of the candidate set.  Two nodes that feed
    the same candidates in any order commit the same bytes and agree on every slot's
    chunk, provided no two chunks of one shape collide under the transform; stamps
    play no part. *)
Theorem commitment_order_independent (cands cands' : list SampleItem) :
  Forall wf_item cands → cands ≡ₚ cands' → collision_free cands →
  reserve_commitment_content (reserve_sample cands) = reserve_commitment_content (reserve_sample cands') ∧
  committed <$> reserve_sample cands = committed <$> reserve_sample cands'.
Proof.
  intros Hw Hp Hc. pose proof (committed_sample_perm _ _ Hw Hp Hc) as E.
  by rewrite !commitment_committed, E.
Qed.

(** The challenge is exact and every slot pair can be drawn.  The byte-wise [u128]
    remainder equals the remainder of the 256-bit anchor, the two challenged slots
    are distinct and below the last one, the segment exists, and each of the 210
    ordered pairs of slots is challenged by some anchor. *)
Theorem witness_slots_exact :
  (∀ claim, is_b256 (ca_get claim) →
    let w := witness_indices claim in
    Z.of_nat (wi_challenged w).1 = ca_get claim mod 15 ∧
    Z.of_nat (wi_challenged w).2 =
      ca_get claim mod 14 + (if decide (ca_get claim mod 15 <= ca_get claim mod 14) then 1 else 0) ∧
    wi_segment_index w = ca_get claim mod 128 ∧
    (wi_challenged w).1 ≠ (wi_challenged w).2 ∧
    ((wi_challenged w).1 < wi_last w)%nat ∧ ((wi_challenged w).2 < wi_last w)%nat) ∧
  (∀ i j : nat, (i < 15)%nat → (j < 15)%nat → i ≠ j →
    ∃ claim, is_b256 (ca_get claim) ∧ wi_challenged (witness_indices claim) = (i, j)).
Proof.
  assert (∀ claim, is_b256 (ca_get claim) →
    let w := witness_indices claim in
    Z.of_nat (wi_challenged w).1 = ca_get claim mod 15 ∧
    Z.of_nat (wi_challenged w).2 =
      ca_get claim mod 14 + (if decide (ca_get claim mod 15 <= ca_get claim mod 14) then 1 else 0) ∧
    wi_segment_index w = ca_get claim mod 128) as Hx.
  { intros claim Hc. unfold witness_indices, SAMPLE_SIZE. cbn [wi_challenged wi_segment_index fst snd].
    rewrite !mod_be_claim by (done || (mach; lia)).
    change (Z.of_nat (16 - 1)) with 15. change (Z.of_nat (16 - 1 - 1)) with 14.
    pose proof (Z.mod_pos_bound (ca_get claim) 15). pose proof (Z.mod_pos_bound (ca_get claim) 14).
    repeat case_decide; lia. }
  split.
  - intros claim Hc. pose proof (Hx claim Hc) as (H1 & H2 & H3).
    pose proof (witness_indices_range claim Hc) as (? & ? & ? & Hl & ?). cbv zeta. rewrite Hl. by split_and!.
  - intros i j Hi Hj Hij.
    set (k := if decide (i < j)%nat then Z.of_nat j - 1 else Z.of_nat j).
    assert (0 <= k < 14) as Hk by (unfold k; case_decide; lia).
    set (c := 196 * Z.of_nat i + 15 * k). exists (mkClaimAnchor c).
    assert (is_b256 c) as Hc by (unfold is_b256, c; assert (10000 < 256 ^ 32) by done; lia).
    split; [done|]. destruct (Hx (mkClaimAnchor c) Hc) as (H1 & H2 & _). cbn [ca_get] in *.
    assert (c mod 15 = Z.of_nat i) as E1.
    { unfold c. replace (196 * Z.of_nat i + 15 * k) with (Z.of_nat i + (13 * Z.of_nat i + k) * 15) by lia.
      rewrite Z.mod_add by lia. apply Z.mod_small. lia. }
    assert (c mod 14 = k) as E2.
    { unfold c. replace (196 * Z.of_nat i + 15 * k) with (k + (14 * Z.of_nat i + k) * 14) by lia.
      rewrite Z.mod_add by lia. by apply Z.mod_small. }
    rewrite E1, E2 in *. apply injective_projections; cbn [fst snd]; [lia|].
    unfold k in *. repeat case_decide; lia.
Qed.

(** The candidates a node feeds: its stored chunks that pass the round's gates. *)
Definition round_candidates {RB : RoundBatches} (sample : SampleAnchor) (entries : list (AnyChunk * Stamp)) :
    list SampleItem :=
  omap (λ '(c, st), candidate sample c st) entries.

Lemma candidate_spec {RB : RoundBatches} sample c st x :
  candidate sample c st = Some x ↔ filter_check c st = Ok tt ∧ x = item_with_stamp sample c st.
Proof. unfold candidate. destruct (filter_check c st) as [[]|]; naive_solver. Qed.

Lemma round_candidates_elem {RB : RoundBatches} sample entries x :
  x ∈ round_candidates sample entries ↔
  ∃ c st, (c, st) ∈ entries ∧ filter_check c st = Ok tt ∧ x = item_with_stamp sample c st.
Proof.
  unfold round_candidates. rewrite list_elem_of_omap. split.
  - intros ([c st] & Hin & [? ->]%candidate_spec). eauto.
  - intros (c & st & Hin & Hf & ->). exists (c, st). split; [done|]. by apply candidate_spec.
Qed.

Lemma round_candidates_wf {RB : RoundBatches} sample entries : Forall wf_item (round_candidates sample entries).
Proof.
  apply Forall_forall. intros x (c & st & _ & _ & ->)%round_candidates_elem. apply transformed_b256.
Qed.


(** An opened slot without a stamp is refused by name. *)
Theorem unstamped_slot_refused (items : list SampleItem) sample claim w x :
  is_b256 (ca_get claim) → length items = SAMPLE_SIZE → w = (wi_challenged (witness_indices claim)).1 →
  items !! w = Some x → si_stamp x = None → make_inclusion_proofs items sample claim = Err (MissingStamp w).
Proof.
  intros Hc Hl -> Hx Hs. unfold make_inclusion_proofs. rewrite decide_False by auto. cbv zeta.
  by rewrite (make_witness_unstamped _ _ _ _ _ _ _ Hx Hs).
Qed.
End properties.

(** ** A round on concrete chunks

    A chunk is its address and shape; the transform reverses the order of small
    addresses, and every proof records what was asked. *)

Module RoundDemo.

Definition reverse_transform (a : Z) : Z := Z.max 0 (1000 - a).

Lemma reverse_transform_b256 a : is_b256 (Z.min 1000 (reverse_transform a)).
Proof. unfold is_b256, reverse_transform. assert (1000 < 256 ^ 32) by done. lia. Qed.

#[export] Instance demo_chunks : ChunkEnv := {
  AnyChunk := Z * bool;
  chunk_addr := fst;
  chunk_is_content := snd;
  chunk_is_single_owner c := negb c.2;
  chunk_data c := [c.1];
  chunk_span c := c.1;
  transformed_address c _ := Z.min 1000 (reverse_transform c.1);
  transformed_b256 c _ := reverse_transform_b256 c.1;
  chunk_data_len c := ltac:(simpl; lia);
}.

Definition demo_prove (h : Z) (d : list Z) (i : Z) : result unit (Z * list Z * Z) :=
  if decide (0 <= i < 128) then Ok (h, d, i) else Err tt.

Lemma demo_prove_in_range h d i : 0 <= i < 128 → ∃ p, demo_prove h d i = Ok p.
Proof. intros Hi. unfold demo_prove. rewrite decide_True by done. by eexists. Qed.

#[export] Instance demo_bmt : BmtEnv := {
  Hasher := Z;
  BmtProof := Z * list Z * Z;
  PrimitivesError := unit;
  hasher_new := 0;
  with_prefix p := of_be p;
  set_span h s := h + s;
  hasher_update h d := h + of_be d;
  generate_proof := demo_prove;
  generate_proof_in_range h d i _ Hi := demo_prove_in_range h d i Hi;
}.

Definition anchor : SampleAnchor := mkSampleAnchor 7.
Definition claim : ClaimAnchor := mkClaimAnchor 31.
Definition stamp_of (batch time : Z) : Stamp := mkStamp batch 0 time [].

(** Twenty content chunks, and one that ties with the smallest as a single-owner chunk. *)
Definition cands : list SampleItem :=
  item_new anchor (20, false) :: ((λ a, item_new anchor (Z.of_nat a, true)) <$> seq 1 20).

Lemma cands_wf : Forall wf_item cands.
Proof.
  apply Forall_forall. intros x Hx. assert (∃ c, x = item_new anchor c) as [c ->].
  { apply elem_of_cons in Hx as [->|Hx]; [by eexists|].
    apply list_elem_of_fmap in Hx as (a & -> & _). by eexists. }
  apply transformed_b256.
Qed.

Lemma reserve_sample_reference_witness :
  reserve_sample cands = sample_reference cands ∧
  chunk_address <$> reserve_sample cands = Z.of_nat <$> reverse (seq 5 16) ∧
  (chunk_is_content ∘ si_chunk <$> head (reserve_sample cands)) = Some true.
Proof. split; [apply reserve_sample_reference, cands_wf|]. split; vm_compute; reflexivity. Defined.

Lemma cands_collision_free : collision_free cands.
Proof.
  assert (∀ x, x ∈ cands → ∃ a f, x = item_new anchor (a, f) ∧ 1 <= a <= 20) as H.
  { intros x [->|Hx]%elem_of_cons; [exists 20, false; split; [done|lia]|].
    apply list_elem_of_fmap in Hx as (a & -> & Ha%elem_of_seq).
    exists (Z.of_nat a), true. split; [done|lia]. }
  intros x y (a & f & -> & Ha)%H (b & g & -> & Hb)%H. simpl. unfold reverse_transform, chunk_address. simpl. lia.
Qed.

Lemma commitment_order_independent_witness :
  reserve_commitment_content (reserve_sample cands) =
  reserve_commitment_content (reserve_sample (reverse cands)) ∧
  length (reserve_commitment_content (reserve_sample cands)) = 1024%nat.
Proof.
  split; [|vm_compute; reflexivity].
  apply (commitment_order_independent cands (reverse cands));
    [apply cands_wf|symmetry; apply reverse_Permutation|apply cands_collision_free].
Defined.

(** Batch 3 is below the minimum balance, batch 4 has expired. *)
#[export] Instance demo_round : RoundBatches := {
  consensus_time := 100;
  is_below_minimum_balance b := bool_decide (b = 3);
  is_admissible b := bool_decide (b ≠ 4);
}.

Definition entries : list (AnyChunk * Stamp) :=
  ((30, true), stamp_of 1 101) :: ((31, true), stamp_of 3 50) :: ((32, true), stamp_of 4 50) ::
  ((λ a, ((Z.of_nat a, true), stamp_of 1 50)) <$> seq 1 18).


End RoundDemo.
