(* ===== verification/ChainIndex.v ===== *)
(** * The chain event-indexing engine

    [crates/chain/index/src/engine.rs], [cursor.rs], [error.rs], [reader.rs]:
    the [EventEngine] pages finalized logs from a provider, shrinks a page the
    provider rejects, applies each log in chain order and checkpoints a cursor
    per indexer.  The provider, the indexer's [apply] and the commit of the
    cursor transaction are oracles indexed by how often they were called, so
    every pattern of failures is covered; the engine's trace of applied logs is
    part of its state.

    The theorems: whatever fails and however often the process restarts, the
    logs applied, by first delivery, are a gapless prefix of the canonical log
    sequence that covers everything the cursor claims; and with a provider that
    serves single blocks, a pass ends at the finalized head having applied each
    remaining log exactly once. *)

From S2P Require Import Prelude.

(** ** Logs, errors, cursors *)

Section data.
Context {Payload : Type}.

Record Log := mkLog { lg_block : option Z; lg_index : option Z; lg_data : Payload }.

Definition opt_compare (a b : option Z) : comparison :=
  match a, b with
  | None, None => Eq
  | None, Some _ => Lt
  | Some _, None => Gt
  | Some x, Some y => x ?= y
  end.

Definition key_compare (a b : Log) : comparison :=
  match opt_compare (lg_block a) (lg_block b) with
  | Eq => opt_compare (lg_index a) (lg_index b)
  | c => c
  end.

Definition key_le (a b : Log) : bool := match key_compare a b with Gt => false | _ => true end.

Fixpoint insert_by_key (x : Log) (l : list Log) : list Log :=
  match l with
  | [] => [x]
  | y :: l' => if key_le x y then x :: y :: l' else y :: insert_by_key x l'
  end.

(** The stable sort by (block number, log index). *)
Definition sort_by_key (l : list Log) : list Log := foldr insert_by_key [] l.
End data.
Arguments Log : clear implicits.

#[global] Instance Log_eq_dec `{EqDecision P} : EqDecision (Log P).
Proof. solve_decision. Defined.

(** A transport error, by whether the node answered with an error response and
    by its text. *)
Record TransportError := mkTransport { te_is_error_resp : bool; te_text : string }.

Inductive IndexError :=
| Transport (err : TransportError)
| Storage
| MalformedLog (field : string)
| ApplyFailed (message : string).

Definition ascii_lower (c : Ascii.ascii) : Ascii.ascii :=
  let n := Ascii.nat_of_ascii c in
  if bool_decide (65 ≤ n ∧ n ≤ 90)%nat then Ascii.ascii_of_nat (n + 32) else c.

Fixpoint to_ascii_lowercase (s : string) : string :=
  match s with String.EmptyString => String.EmptyString | String.String c s => String.String (ascii_lower c) (to_ascii_lowercase s) end.

Fixpoint str_contains (hint s : string) : bool :=
  String.prefix hint s || match s with String.EmptyString => false | String.String _ s => str_contains hint s end.

Definition RANGE_HINTS : list string :=
  ["range"; "too many"; "limit"; "exceed"; "more than"; "query returned more than"; "block range"; "response size"]%string.

Definition is_range_error (err : TransportError) : bool :=
  te_is_error_resp err && existsb (λ hint, str_contains hint (to_ascii_lowercase (te_text err))) RANGE_HINTS.

Record Cursor := mkCursor { last_block : Z; block_hash : Z }.

Definition next_block (c : Cursor) : Z := u64_saturating_add (last_block c) 1.

Record FinalizedHead := mkHead { hd_number : Z; hd_hash : Z }.

Definition DEFAULT_PAGE_SIZE : Z := 10000.
Definition MIN_PAGE_SIZE : Z := 1.

Definition div_ceil (a b : Z) : Z := (a + b - 1) `div` b.

(** ** The engine *)

Section engine.
Context {P : Type} `{!EqDecision P}.

(** The indexer: its name, its deployment block and whether its n-th [apply]
    succeeds.  The provider: its n-th [get_logs] for an inclusive range.  The
    database: whether its n-th cursor commit fails. *)
Context (name : string) (start_block : Z) (apply : nat → Z → Log P → option IndexError).
Context (get_logs : nat → Z → Z → result IndexError (list (Log P))).
Context (commit_error : nat → option IndexError).

Record EventEngine := mkEngine {
  en_page_size : Z;
  en_cursors : gmap string Cursor;
  en_fetches : nat;
  en_attempts : nat;
  en_commits : nat;
  en_applied : list (Log P);
}.

Implicit Types (e : EventEngine).

Definition set_page_size (n : Z) e : EventEngine :=
  mkEngine n (en_cursors e) (en_fetches e) (en_attempts e) (en_commits e) (en_applied e).

Definition fetched e : EventEngine :=
  mkEngine (en_page_size e) (en_cursors e) (S (en_fetches e)) (en_attempts e) (en_commits e) (en_applied e).

Definition page_end (from head : Z) e : Z :=
  Z.min (u64_saturating_add from (u64_saturating_sub (en_page_size e) 1)) head.

(** The end of a page after one halving of its span. *)
Definition shrink_to (from to : Z) : Z :=
  let span := div_ceil (to - from) 2 in
  Z.max (u64_saturating_add from (u64_saturating_sub span 1)) from.

Definition shrink_page e : EventEngine :=
  set_page_size (Z.max (div_ceil (en_page_size e) 2) MIN_PAGE_SIZE) e.

Fixpoint fetch_loop (fuel : nat) (from to : Z) e : option (result IndexError (Z * list (Log P)) * EventEngine) :=
  match fuel with
  | O => None
  | S fuel =>
      let reply := get_logs (en_fetches e) from to in
      let e := fetched e in
      match reply with
      | Ok logs => Some (Ok (to, logs), e)
      | Err (Transport err) =>
          if is_range_error err && bool_decide (from < to)
          then fetch_loop fuel from (shrink_to from to) (shrink_page e)
          else Some (Err (Transport err), e)
      | Err err => Some (Err err, e)
      end
  end.

(** A page is at most [to - from] halvings away from one block. *)
Definition fetch_page (from to : Z) e := fetch_loop (S (Z.to_nat (to - from))) from to e.

(** The application loop of [commit_page]. *)
Fixpoint apply_logs (logs : list (Log P)) e : option IndexError * EventEngine :=
  match logs with
  | [] => (None, e)
  | log :: logs =>
      match lg_block log with
      | None => (Some (MalformedLog "block_number"), e)
      | Some block =>
          let outcome := apply (en_attempts e) block log in
          let e := mkEngine (en_page_size e) (en_cursors e) (en_fetches e) (S (en_attempts e)) (en_commits e)
                     (match outcome with None => en_applied e ++ [log] | Some _ => en_applied e end) in
          match outcome with
          | Some err => (Some err, e)
          | None => apply_logs logs e
          end
      end
  end.

Definition commit_page (logs : list (Log P)) (last hash : Z) e : option IndexError * EventEngine :=
  match apply_logs (sort_by_key logs) e with
  | (Some err, e) => (Some err, e)
  | (None, e) =>
      let outcome := commit_error (en_commits e) in
      (outcome, mkEngine (en_page_size e)
        (match outcome with None => <[name := mkCursor last hash]> (en_cursors e) | Some _ => en_cursors e end)
        (en_fetches e) (en_attempts e) (S (en_commits e)) (en_applied e))
  end.

(** The page loop of [sync_to]; [None] when the fuel runs out. *)
Fixpoint sync_loop (fuel : nat) (head : FinalizedHead) (from : Z) e : option (result IndexError unit * EventEngine) :=
  match fuel with
  | O => None
  | S fuel =>
      if decide (from <= hd_number head) then
        '(page, e) ← fetch_page from (page_end from (hd_number head) e) e;
        match page with
        | Err err => Some (Err err, e)
        | Ok (to, logs) =>
            let hash := if decide (to = hd_number head) then hd_hash head else 0 in
            match commit_page logs to hash e with
            | (Some err, e) => Some (Err err, e)
            | (None, e) => sync_loop fuel head (u64_saturating_add to 1) e
            end
        end
      else Some (Ok tt, e)
  end.

Definition resume e : Z :=
  Z.max (match en_cursors e !! name with Some cursor => next_block cursor | None => start_block end) start_block.

Definition sync_to (head : FinalizedHead) e : option (result IndexError unit * EventEngine) :=
  sync_loop (S (Z.to_nat (hd_number head - resume e + 1))) head (resume e) e.

Definition sync_once (reply : result IndexError (option FinalizedHead)) e : option (result IndexError unit * EventEngine) :=
  match reply with
  | Err err => Some (Err err, e)
  | Ok (Some head) => sync_to head e
  | Ok None => Some (Ok tt, e)
  end.

(** What happens to a node: a pass with the head the provider reports, or a
    restart, which keeps the database and the indexer's state. *)
Inductive EngineEvent :=
| Tick (reply : result IndexError (option FinalizedHead))
| Restart.

Definition engine_step (oe : option EventEngine) (ev : EngineEvent) : option EventEngine :=
  e ← oe;
  match ev with
  | Tick reply => snd <$> sync_once reply e
  | Restart => Some (set_page_size DEFAULT_PAGE_SIZE e)
  end.

(** The logs of a trace in the order of their first delivery. *)
Definition first_seen (l : list (Log P)) : list (Log P) :=
  foldl (λ acc x, if decide (x ∈ acc) then acc else acc ++ [x]) [] l.

Definition engine_start : EventEngine := mkEngine DEFAULT_PAGE_SIZE ∅ 0 0 0 [].

(** ** The canonical log sequence *)

(** The finalized logs matching the indexer's filter, in chain order; each page
    the provider serves is its part in the requested range, in any order. *)
Context (canon : list (Log P)).

Definition blk (l : Log P) : Z := default 0 (lg_block l).

Definition in_range (from to : Z) (l : Log P) : Prop := from <= blk l <= to.
#[local] Instance in_range_dec from to l : Decision (in_range from to l).
Proof. unfold in_range. apply _. Defined.

Definition window (from to : Z) : list (Log P) := filter (in_range from to) canon.

Record honest : Prop := {
  ho_sorted : StronglySorted (λ a b, key_compare a b = Lt) canon;
  ho_block : ∀ l, l ∈ canon → is_Some (lg_block l) ∧ start_block <= blk l;
  ho_serves : ∀ n from to logs, get_logs n from to = Ok logs → logs ≡ₚ window from to;
}.

(** *** Sorting *)

Lemma opt_compare_antisym a b : opt_compare b a = CompOpp (opt_compare a b).
Proof. destruct a, b; simpl; try done. apply Z.compare_antisym. Qed.

Lemma key_lt_le (a b : Log P) : key_compare a b = Lt → key_le a b = true.
Proof. unfold key_le. by intros ->. Qed.

Lemma key_lt_not_le (a b : Log P) : key_compare a b = Lt → key_le b a = false.
Proof.
  unfold key_le, key_compare. rewrite (opt_compare_antisym (lg_block a)), (opt_compare_antisym (lg_index a)).
  destruct (opt_compare (lg_block a) (lg_block b)); simpl; try done. by intros ->.
Qed.

(** Inserting into its place, and sorting any permutation of a strictly sorted
    list gives the list. *)
Lemma insert_by_key_mid (x : Log P) l1 l2 :
  Forall (λ y, key_compare y x = Lt) l1 → Forall (λ y, key_compare x y = Lt) l2 →
  insert_by_key x (l1 ++ l2) = l1 ++ x :: l2.
Proof.
  intros H1 H2. induction H1 as [|y l1 Hy _ IH]; simpl.
  - destruct H2 as [|z l2 Hz _]; simpl; [done|]. by rewrite (key_lt_le _ _ Hz).
  - by rewrite (key_lt_not_le _ _ Hy), IH.
Qed.

Lemma sort_by_key_strict (l k : list (Log P)) :
  StronglySorted (λ a b, key_compare a b = Lt) k → l ≡ₚ k → sort_by_key l = k.
Proof.
  revert k. induction l as [|x l IH]; intros k Hs Hp.
  - apply Permutation_nil_l in Hp. by subst.
  - assert (x ∈ k) as (k1&k2&->)%list_elem_of_split by (rewrite <-Hp; left).
    assert (Hs' : StronglySorted (λ a b, key_compare a b = Lt) (k1 ++ k2) ∧
      Forall (λ y, key_compare y x = Lt) k1 ∧ Forall (λ y, key_compare x y = Lt) k2).
    { clear Hp IH. induction k1 as [|y k1 IH]; simpl in *.
      - apply StronglySorted_inv in Hs as [? ?]. by split_and!.
      - apply StronglySorted_inv in Hs as [Hs Hy]. destruct (IH Hs) as (H1&H2&H3).
        apply Forall_app in Hy as [Hy1 Hy2]. inv Hy2. split_and!; [constructor; [done|by apply Forall_app]|by constructor|done]. }
    destruct Hs' as (H1&H2&H3). simpl. rewrite (IH (k1 ++ k2)); [by apply insert_by_key_mid|done|].
    apply (Permutation_cons_inv (a:=x)). by rewrite Hp, <-Permutation_middle.
Qed.

(** *** Splitting the sequence at blocks *)

Definition before (b : Z) : list (Log P) := filter (λ l, blk l < b) canon.

Definition after (b : Z) : list (Log P) := filter (λ l, b < blk l) canon.

Lemma key_lt_blk a b : is_Some (lg_block a) → is_Some (lg_block b) → key_compare a b = Lt → blk a <= blk b.
Proof.
  intros [x Ea] [y Eb]. unfold key_compare, blk. rewrite Ea, Eb. simpl.
  destruct (Z.compare_spec x y); intros; simplify_eq; lia.
Qed.

Lemma canon_split from to :
  honest → from <= to + 1 → canon = before from ++ window from to ++ after to.
Proof.
  intros [Hs Hb _] Hle. unfold before, window, after.
  assert (Hmono : StronglySorted (λ a b, blk a <= blk b) canon).
  { assert (Hf : Forall (λ l, is_Some (lg_block l)) canon) by (apply Forall_forall; intros; by apply Hb).
    clear Hb. induction Hs as [|x l _ IH Hx]; constructor; inv Hf; [auto|].
    eapply Forall_impl; [apply Forall_and; split; [exact Hx|done]|]. simpl. intros y [??]. by apply key_lt_blk. }
  clear Hs Hb. induction Hmono as [|x l _ IH Hx]; [done|].
  destruct (decide (blk x < from)) as [H1|H1]; [|destruct (decide (blk x <= to)) as [H2|H2]].
  - rewrite (filter_cons_True (λ l, blk l < from)) by done. rewrite (filter_cons_False (in_range _ _)) by (unfold in_range; lia).
    rewrite (filter_cons_False (λ l, to < blk l)) by lia. simpl. by f_equal.
  - rewrite (filter_cons_False (λ l, blk l < from)) by done. rewrite (filter_cons_True (in_range _ _)) by (unfold in_range; lia).
    rewrite (filter_cons_False (λ l, to < blk l)) by lia.
    rewrite (filter_none (λ l, blk l < from)) in IH |- * by (intros y Hy; rewrite Forall_forall in Hx; specialize (Hx y Hy); lia).
    simpl in *. by f_equal.
  - rewrite (filter_cons_False (λ l, blk l < from)) by done. rewrite (filter_cons_False (in_range _ _)) by (unfold in_range; lia).
    rewrite (filter_cons_True (λ l, to < blk l)) by lia.
    rewrite (filter_none (λ l, blk l < from)) in IH |- * by (intros y Hy; rewrite Forall_forall in Hx; specialize (Hx y Hy); lia).
    rewrite (filter_none (in_range _ _)) in IH |- *
      by (intros y Hy; rewrite Forall_forall in Hx; specialize (Hx y Hy); unfold in_range; lia).
    simpl in *. by f_equal.
Qed.

Lemma before_window from to : honest → from <= to + 1 → before (to + 1) = before from ++ window from to.
Proof.
  intros Hh Hle. pose proof (canon_split from to Hh Hle) as E.
  assert (H : filter (λ l, blk l < to + 1) canon =
    filter (λ l, blk l < to + 1) (before from ++ window from to ++ after to)) by (by rewrite <-E).
  unfold before at 1. rewrite H, !filter_app.
  rewrite (filter_all _ (before from)) by (intros x [? _]%list_elem_of_filter; lia).
  rewrite (filter_all _ (window from to)) by (intros x [[_ ?] _]%list_elem_of_filter; lia).
  rewrite (filter_none _ (after to)) by (intros x [? _]%list_elem_of_filter; lia). by rewrite app_nil_r.
Qed.

Lemma canon_NoDup : honest → NoDup canon.
Proof.
  intros [Hs _ _]. induction Hs as [|x l _ IH Hx]; constructor; [|done].
  intros Hin. rewrite Forall_forall in Hx. specialize (Hx x Hin). pose proof (key_lt_not_le x x Hx) as Hn.
  unfold key_le in Hn. by rewrite Hx in Hn.
Qed.

(** *** Deliveries as a walk over the sequence *)

Lemma first_seen_snoc l x :
  first_seen (l ++ [x]) = if decide (x ∈ first_seen l) then first_seen l else first_seen l ++ [x].
Proof. unfold first_seen. by rewrite foldl_app. Qed.

(** The trace covers [done] and has no gap. *)
Record sound (done trace : list (Log P)) : Prop := {
  so_prefix : first_seen trace `prefix_of` canon;
  so_done : done `prefix_of` first_seen trace;
}.

Lemma sound_step done x post trace :
  NoDup canon → canon = done ++ x :: post → sound done trace → sound (done ++ [x]) (trace ++ [x]).
Proof.
  intros Hnd E [[rest Hr] [more Hm]]. rewrite Hm in Hr. split; rewrite first_seen_snoc, Hm.
  all: destruct more as [|y more]; [rewrite app_nil_r in *|].
  - rewrite decide_False; [rewrite E; exists post; by rewrite <-app_assoc|].
    intros Hin. rewrite E in Hnd. apply NoDup_app in Hnd as (_&H&_). apply (H x Hin). left.
  - rewrite <-app_assoc in Hr. rewrite Hr in E. apply app_inv_head in E. injection E as -> E.
    rewrite decide_True by (apply elem_of_app; right; left). rewrite Hr. exists rest. by rewrite <-!app_assoc.
  - rewrite decide_False; [done|].
    intros Hin. rewrite E in Hnd. apply NoDup_app in Hnd as (_&H&_). apply (H x Hin). left.
  - rewrite <-app_assoc in Hr. rewrite Hr in E. apply app_inv_head in E. injection E as -> E.
    rewrite decide_True by (apply elem_of_app; right; left). exists more. by rewrite <-!app_assoc.
Qed.

Lemma sound_weaken done more trace : sound (done ++ more) trace → sound done trace.
Proof. intros [H1 H2]. split; [done|]. etrans; [by exists more|done]. Qed.

Lemma apply_logs_sound logs : ∀ done post e,
  NoDup canon → canon = done ++ logs ++ post → sound done (en_applied e) →
  let '(err, e') := apply_logs logs e in
  sound done (en_applied e') ∧ (err = None → sound (done ++ logs) (en_applied e')) ∧
  en_cursors e' = en_cursors e ∧ en_page_size e' = en_page_size e ∧
  ∃ got, en_applied e' = en_applied e ++ got ∧ got `prefix_of` logs.
Proof.
  induction logs as [|x logs IH]; intros done post e Hnd E Hs; simpl.
  - split_and!; [done|by rewrite app_nil_r|done|done|]. exists []. rewrite app_nil_r. split; [done|apply prefix_nil].
  - destruct (lg_block x) as [b|].
    2: { split_and!; [done|done|done|done|]. exists []. rewrite app_nil_r. split; [done|apply prefix_nil]. }
    destruct (apply (en_attempts e) b x) as [err|] eqn:Ea.
    { split_and!; [done|done|done|done|]. exists []. rewrite app_nil_r. split; [done|apply prefix_nil]. }
    set (e1 := mkEngine _ _ _ _ _ _).
    pose proof (IH (done ++ [x]) post e1 Hnd) as H. rewrite <-app_assoc in H. specialize (H E).
    destruct (apply_logs logs e1) as [err e'].
    destruct H as (H1&H2&H3&H4&got&H5&H6); [by apply (sound_step _ _ (logs ++ post))|].
    split_and!; [by eapply sound_weaken| |done|done|].
    + intros Herr. specialize (H2 Herr). by rewrite <-app_assoc in H2.
    + exists (x :: got). rewrite H5. simpl. rewrite <-app_assoc. split; [done|]. by apply prefix_cons.
Qed.

Lemma commit_page_sound from to logs hash e :
  honest → from <= to + 1 → logs ≡ₚ window from to → sound (before from) (en_applied e) →
  let '(err, e') := commit_page logs to hash e in
  sound (before from) (en_applied e') ∧
  (err = None → sound (before (to + 1)) (en_applied e')) ∧
  en_cursors e' = (if err then en_cursors e else <[name := mkCursor to hash]> (en_cursors e)) ∧
  en_page_size e' = en_page_size e ∧
  ∃ got, en_applied e' = en_applied e ++ got ∧ Forall (λ l, blk l <= to) got.
Proof.
  intros Hh Hle Hp Hs. unfold commit_page. rewrite (sort_by_key_strict logs (window from to)); [|apply StronglySorted_filter, Hh|done].
  pose proof (apply_logs_sound (window from to) (before from) (after to) e (canon_NoDup Hh) (canon_split from to Hh Hle) Hs) as H.
  destruct (apply_logs (window from to) e) as [err e']. destruct H as (H1&H2&H3&H4&got&H5&[k Hk]).
  assert (Hgot : Forall (λ l, blk l <= to) got).
  { assert (Hw : Forall (λ l, blk l <= to) (window from to)).
    { apply Forall_forall. intros l [[_ ?] _]%list_elem_of_filter. done. }
    rewrite Hk in Hw. by apply Forall_app in Hw as [? _]. }
  rewrite <-before_window in H2 by done.
  destruct err as [err|]; [by eauto 10|]. simpl. rewrite H3. destruct (commit_error (en_commits e')); by eauto 10.
Qed.

(** *** Fetching *)

Lemma shrink_to_range from to : 0 <= from < to → to <= u64_max → from <= shrink_to from to < to.
Proof.
  intros H1 H2. unfold shrink_to, div_ceil. mach.
  pose proof (Z.div_mod (to - from + 2 - 1) 2 ltac:(lia)). pose proof (Z.mod_pos_bound (to - from + 2 - 1) 2 ltac:(lia)). lia.
Qed.

Lemma fetch_loop_spec fuel : ∀ from to e,
  0 <= from <= to → to <= u64_max → (Z.to_nat (to - from) < fuel)%nat → 1 <= en_page_size e →
  ∃ r e', fetch_loop fuel from to e = Some (r, e') ∧ 1 <= en_page_size e' ∧
    en_cursors e' = en_cursors e ∧ en_applied e' = en_applied e ∧
    match r with
    | Ok (to', logs) => from <= to' <= to ∧ ∃ n, get_logs n from to' = Ok logs
    | Err err => ∃ n to', get_logs n from to' = Err err ∧
        (∀ te, err = Transport te → from < to' → is_range_error te = false)
    end.
Proof.
  induction fuel as [|fuel IH]; intros from to e Hr Hm Hf Hp; [lia|]. simpl.
  destruct (get_logs (en_fetches e) from to) as [logs|err] eqn:Eg; [by eauto 12 with lia|].
  destruct err as [te| | |]; [|eexists _, _; split; [done|]; split_and!; [done..|]; eexists _, _; split; [exact Eg|done]..].
  destruct (is_range_error te && bool_decide (from < to)) eqn:Ec.
  - apply andb_true_iff in Ec as [_ Hlt%bool_decide_eq_true].
    pose proof (shrink_to_range from to ltac:(lia) Hm).
    destruct (IH from (shrink_to from to) (shrink_page (fetched e))) as (r&e'&E&H1&H2&H3&H4); [lia|lia|lia| |].
    { simpl. unfold MIN_PAGE_SIZE. lia. }
    exists r, e'. split_and!; [done..|]. destruct r as [[to' logs]|]; [|done]. destruct H4 as [? ?]. split; [lia|done].
  - eexists _, _. split; [done|]. split_and!; [done..|]. exists (en_fetches e), to. split; [done|].
    intros te' [= ->] Hlt. apply andb_false_iff in Ec as [?|?%bool_decide_eq_false]; [done|lia].
Qed.

(** *** Passes *)

(** What holds between pages: [Q] bounds the blocks reached. *)
Record index_ok (Q : Z → Prop) e : Prop := {
  io_page : 1 <= en_page_size e;
  io_sound : sound (before (resume e)) (en_applied e);
  io_applied : Forall (λ l, Q (blk l)) (en_applied e);
  io_cursor : ∀ c, en_cursors e !! name = Some c → 0 <= last_block c < u64_max ∧ Q (last_block c);
}.

Lemma resume_range Q e : 0 <= start_block <= u64_max → index_ok Q e → 0 <= resume e <= u64_max.
Proof.
  intros Hst Hok. unfold resume. destruct (en_cursors e !! name) as [c|] eqn:Ec; [|lia].
  destruct (io_cursor _ _ Hok c Ec). unfold next_block. mach. lia.
Qed.

Lemma page_end_range from head e :
  0 <= from <= head → head <= u64_max → 1 <= en_page_size e → from <= page_end from head e <= head.
Proof. intros. unfold page_end. mach. lia. Qed.

Lemma sync_loop_sound fuel (Q : Z → Prop) head : ∀ from e,
  honest → 0 <= start_block <= u64_max → hd_number head < u64_max → (∀ b, b <= hd_number head → Q b) →
  index_ok Q e → from = resume e → (Z.to_nat (hd_number head - from + 1) < fuel)%nat →
  ∃ r e', sync_loop fuel head from e = Some (r, e') ∧ index_ok Q e'.
Proof.
  induction fuel as [|fuel IH]; intros from e Hh Hst Hhd HQ Hok Hfrom Hf; [lia|]. simpl.
  pose proof (resume_range Q e Hst Hok) as Hres. rewrite <-Hfrom in Hres.
  case_decide as Hle; [|by eauto].
  pose proof (page_end_range from (hd_number head) e ltac:(lia) ltac:(lia) (io_page _ _ Hok)) as Hpe.
  destruct (fetch_loop_spec (S (Z.to_nat (page_end from (hd_number head) e - from))) from (page_end from (hd_number head) e) e)
    as (r&e1&E&Hp1&Hc1&Ha1&Hr); [lia|lia|lia|apply Hok|].
  unfold fetch_page. rewrite E. simpl.
  assert (Hok1 : index_ok Q e1).
  { destruct Hok as [? H2 H3 H4]. split; unfold resume in *; rewrite ?Hc1, ?Ha1 in *; done. }
  destruct r as [[to logs]|]; [|by eauto]. destruct Hr as [Hto [n Hn]].
  apply (ho_serves Hh) in Hn. set (hash := if decide _ then _ else _).
  pose proof (commit_page_sound from to logs hash e1 Hh ltac:(lia) Hn) as H.
  assert (Hfrom1 : from = resume e1) by (rewrite Hfrom; unfold resume; by rewrite Hc1).
  specialize (H ltac:(rewrite Hfrom1; apply Hok1)).
  destruct (commit_page logs to hash e1) as [err e2]. destruct H as (H1&H2&H3&H4&got&H5&H6).
  assert (Happ : Forall (λ l, Q (blk l)) (en_applied e2)).
  { rewrite H5. apply Forall_app. split; [apply Hok1|]. eapply Forall_impl; [exact H6|]. simpl. intros l Hl. apply HQ. lia. }
  destruct err as [err|].
  - eexists _, _. split; [done|]. split; [rewrite H4; apply Hok1| |done|by rewrite H3; apply Hok1].
    rewrite Hfrom1 in H1. unfold resume in *. by rewrite H3.
  - assert (Hres2 : u64_saturating_add to 1 = resume e2).
    { unfold resume in *. rewrite H3, lookup_insert_eq. unfold next_block. simpl. mach. lia. }
    apply IH; [done..| |done|].
    + split; [rewrite H4; apply Hok1| |done|].
      * rewrite <-Hres2. replace (u64_saturating_add to 1) with (to + 1) by mlia. by apply H2.
      * rewrite H3, lookup_insert_eq. intros c [= <-]. simpl. split; [lia|apply HQ; lia].
    + mach. lia.
Qed.

Definition head_in (events : list EngineEvent) (b : Z) : Prop :=
  ∃ h, Tick (Ok (Some h)) ∈ events ∧ b <= hd_number h.

Lemma engine_run_ok events :
  honest → 0 <= start_block <= u64_max →
  (∀ h, Tick (Ok (Some h)) ∈ events → hd_number h < u64_max) →
  ∃ e, foldl engine_step (Some engine_start) events = Some e ∧ index_ok (head_in events) e.
Proof.
  intros Hh Hst. induction events as [|ev events IH] using rev_ind; intros Hev.
  - exists engine_start. split; [done|]. split; simpl; [done| |done|done].
    split; simpl; [apply prefix_nil|]. unfold before. rewrite filter_none; [done|].
    intros l Hl. destruct (ho_block Hh l Hl). unfold resume. simpl. rewrite lookup_empty. lia.
  - destruct IH as (e&E&Hok); [intros h Hin; apply Hev; set_solver|]. rewrite foldl_app, E.
    assert (Hmono : index_ok (head_in (events ++ [ev])) e).
    { assert (HQ : ∀ b, head_in events b → head_in (events ++ [ev]) b).
      { intros b (h&?&?). exists h. split; [set_solver|done]. }
      destruct Hok as [? ? H3 H4]. split; [done|done|eapply Forall_impl; [exact H3|auto]|]. intros c Hc. destruct (H4 c Hc). auto. }
    simpl. destruct ev as [[[head|]|]|]; simpl; [|by eauto|by eauto|].
    + edestruct (sync_loop_sound (S (Z.to_nat (hd_number head - resume e + 1))) (head_in (events ++ [Tick (Ok (Some head))])) head)
        as (r&e'&E'&Hok'); [done|done|apply Hev; set_solver| |exact Hmono|done|lia|].
      * intros b Hb. exists head. split; [set_solver|done].
      * exists e'. unfold sync_to. rewrite E'. done.
    + eexists. split; [done|]. destruct Hmono as [? H2 H3 H4]. split; [done|exact H2|done|done].
Qed.

(** C27: nothing is ever skipped.  Whatever the provider, the indexer and the
    database do (rejected pages, failed requests, failing [apply] calls, failed
    commits) and wherever the process restarts, the engine never loops forever,
    and the logs it has applied, in the order of their first delivery, are a
    prefix of the canonical log sequence: no gap and no reordering.  The prefix
    covers every log up to the block the cursor records, and neither the cursor
    nor a delivery is ever past a finalized head the provider reported. *)
Theorem index_never_skips events :
  honest → 0 <= start_block <= u64_max →
  (∀ h, Tick (Ok (Some h)) ∈ events → hd_number h < u64_max) →
  ∃ e, foldl engine_step (Some engine_start) events = Some e ∧
    first_seen (en_applied e) `prefix_of` canon ∧
    (∀ l, l ∈ en_applied e → head_in events (blk l)) ∧
    ∀ c, en_cursors e !! name = Some c →
      head_in events (last_block c) ∧
      ∀ l, l ∈ canon → blk l <= last_block c → l ∈ first_seen (en_applied e).
Proof.
  intros Hh Hst Hev. destruct (engine_run_ok events Hh Hst Hev) as (e&E&[Hp Hs Ha Hc]). exists e.
  split; [done|]. destruct Hs as [Hpre Hdone]. split; [done|]. split; [by apply Forall_forall|].
  intros c Ec. destruct (Hc c Ec) as [Hr Hin]. split; [done|]. intros l Hl Hle.
  destruct Hdone as [k ->]. apply elem_of_app. left. apply list_elem_of_filter. split; [|done].
  unfold resume. rewrite Ec. unfold next_block. mach. lia.
Qed.

(** *** Catching up *)

Lemma apply_logs_clean logs : ∀ e,
  (∀ n b l, apply n b l = None) → Forall (λ l, is_Some (lg_block l)) logs →
  let '(err, e') := apply_logs logs e in
  err = None ∧ en_applied e' = en_applied e ++ logs ∧ en_page_size e' = en_page_size e ∧ en_cursors e' = en_cursors e.
Proof.
  induction logs as [|x logs IH]; intros e Happ Hf; simpl; [by rewrite app_nil_r|].
  inv Hf. destruct (lg_block x) as [b|]; [|by destruct H1]. rewrite Happ.
  set (e1 := mkEngine _ _ _ _ _ _). specialize (IH e1 Happ H2). destruct (apply_logs logs e1) as [err e'].
  destruct IH as (->&->&->&->). simpl. by rewrite <-app_assoc.
Qed.

Lemma window_app from to head :
  honest → from <= to + 1 → to <= head → window from head = window from to ++ window (to + 1) head.
Proof.
  intros Hh H1 H2. apply (app_inv_head (before from)). rewrite <-before_window by (done || lia).
  rewrite app_assoc, <-!before_window by (done || lia). done.
Qed.

Lemma sync_loop_clean fuel head : ∀ from e,
  honest → (∀ n b l, apply n b l = None) → (∀ n, commit_error n = None) →
  (∀ n from to, (∃ logs, get_logs n from to = Ok logs) ∨
     from < to ∧ ∃ te, get_logs n from to = Err (Transport te) ∧ is_range_error te = true) →
  0 <= from → hd_number head < u64_max → 1 <= en_page_size e →
  (Z.to_nat (hd_number head - from + 1) < fuel)%nat →
  ∃ e', sync_loop fuel head from e = Some (Ok tt, e') ∧
    en_applied e' = en_applied e ++ window from (hd_number head) ∧
    en_cursors e' !! name = if decide (from <= hd_number head)
      then Some (mkCursor (hd_number head) (hd_hash head)) else en_cursors e !! name.
Proof.
  induction fuel as [|fuel IH]; intros from e Hh Happ Hcom Hsrv H0 Hhd Hps Hf; [lia|]. simpl.
  case_decide as Hle.
  2: { exists e. split; [done|]. unfold window. rewrite filter_none, app_nil_r; [done|]. unfold in_range. lia. }
  pose proof (page_end_range from (hd_number head) e ltac:(lia) ltac:(lia) Hps) as Hpe.
  destruct (fetch_loop_spec (S (Z.to_nat (page_end from (hd_number head) e - from))) from (page_end from (hd_number head) e) e)
    as (r&e1&E&Hp1&Hc1&Ha1&Hr); [lia|lia|lia|done|].
  unfold fetch_page. rewrite E. simpl. destruct r as [[to logs]|err].
  2: { destruct Hr as (n&to'&Eg&Hrange). exfalso.
       destruct (Hsrv n from to') as [[logs ?]|(Hlt&te&Et&Hr)]; [congruence|]. rewrite Eg in Et. injection Et as ->.
       by rewrite (Hrange te eq_refl Hlt) in Hr. }
  destruct Hr as [Hto [n Hn]]. apply (ho_serves Hh) in Hn. unfold commit_page.
  rewrite (sort_by_key_strict logs (window from to)); [|apply StronglySorted_filter, Hh|done].
  pose proof (apply_logs_clean (window from to) e1 Happ) as Ha.
  destruct (apply_logs (window from to) e1) as [err e2].
  destruct Ha as (->&Ha&Hp2&Hc2).
  { apply Forall_forall. intros l [_ Hl]%list_elem_of_filter. by apply (ho_block Hh). }
  rewrite Hcom. set (e3 := mkEngine _ _ _ _ _ _).
  replace (u64_saturating_add to 1) with (to + 1) by (mach; lia).
  destruct (IH (to + 1) e3) as (e'&E'&Ha'&Hc'); [done..|lia|done|by simpl; rewrite Hp2|lia|].
  exists e'. split; [done|]. rewrite Ha'. simpl. rewrite Ha, Ha1, <-app_assoc, <-window_app by (done || lia).
  split; [done|]. rewrite Hc'. case_decide as Hd; [done|]. simpl. rewrite lookup_insert_eq.
  replace to with (hd_number head) by lia. by rewrite decide_True.
Qed.

(** A pass catches up.  When the provider serves every single block (wider
    pages may be rejected as too wide, as often as it likes) and the indexer and
    the database do not fail, a pass ends, applies exactly the canonical logs
    from its resume point to the finalized head, each once and in order, and
    leaves the cursor at that head with its hash. *)
Theorem index_catches_up head e :
  honest → (∀ n b l, apply n b l = None) → (∀ n, commit_error n = None) →
  (∀ n from to, (∃ logs, get_logs n from to = Ok logs) ∨
     from < to ∧ ∃ te, get_logs n from to = Err (Transport te) ∧ is_range_error te = true) →
  0 <= resume e <= hd_number head → hd_number head < u64_max → 1 <= en_page_size e →
  ∃ e', sync_once (Ok (Some head)) e = Some (Ok tt, e') ∧
    en_applied e' = en_applied e ++ window (resume e) (hd_number head) ∧
    en_cursors e' !! name = Some (mkCursor (hd_number head) (hd_hash head)).
Proof.
  intros Hh Happ Hcom Hsrv Hres Hhd Hps.
  destruct (sync_loop_clean (S (Z.to_nat (hd_number head - resume e + 1))) head (resume e) e) as (e'&E&Ha&Hc);
    [done..|lia|done|done|lia|].
  exists e'. split; [exact E|]. split; [done|]. rewrite Hc, decide_True by lia. done.
Qed.
End engine.

(** ** A provider with a two-block limit *)

Module Demo.
Definition log_at (block index : Z) : Log unit := mkLog (Some block) (Some index) tt.

Definition demo_canon : list (Log unit) := [log_at 3 0; log_at 4 2; log_at 5 0; log_at 5 1].

(** Pages come in reverse order; wider ones are rejected. *)
Definition demo_get_logs (n : nat) (from to : Z) : result IndexError (list (Log unit)) :=
  if decide (2 < to - from + 1)
  then Err (Transport (mkTransport true "query exceeds max block range"))
  else Ok (rev (window demo_canon from to)).

(** The second [apply] and the third commit fail. *)
Definition demo_apply (n : nat) (block : Z) (log : Log unit) : option IndexError :=
  if decide (n = 1%nat) then Some (ApplyFailed "busy") else None.
Definition demo_commit (n : nat) : option IndexError := if decide (n = 2%nat) then Some Storage else None.

Lemma demo_honest : honest 0 demo_get_logs demo_canon.
Proof.
  split.
  - repeat constructor.
  - intros l. unfold demo_canon. rewrite !elem_of_cons, elem_of_nil. intros [->|[->|[->|[->|[]]]]]; (split; [by eexists|done]).
  - intros n from to logs. unfold demo_get_logs. case_decide; [done|]. intros [= <-]. symmetry. apply Permutation_rev.
Qed.

Definition demo_events : list EngineEvent :=
  [Tick (Ok (Some (mkHead 4 44))); Restart; Tick (Ok (Some (mkHead 6 66))); Tick (Err Storage); Tick (Ok (Some (mkHead 9 99)))].

Lemma index_never_skips_witness :
  ∃ e, foldl (engine_step "demo" 0 demo_apply demo_get_logs demo_commit) (Some engine_start) demo_events = Some e ∧
    en_applied e = [log_at 3 0; log_at 3 0; log_at 4 2; log_at 3 0; log_at 4 2; log_at 5 0; log_at 5 1] ∧
    first_seen (en_applied e) `prefix_of` demo_canon.
Proof.
  destruct (index_never_skips "demo" 0 demo_apply demo_get_logs demo_commit demo_canon demo_events) as (e&E&Hp&_).
  - exact demo_honest.
  - mach. lia.
  - intros h. unfold demo_events. rewrite !elem_of_cons, elem_of_nil. intros H.
    destruct_or! H; simplify_eq; mach; simpl; lia.
  - exists e. split; [exact E|]. split; [|exact Hp].
    assert (Ev : en_applied <$> foldl (engine_step "demo" 0 demo_apply demo_get_logs demo_commit) (Some engine_start) demo_events =
      Some [log_at 3 0; log_at 3 0; log_at 4 2; log_at 3 0; log_at 4 2; log_at 5 0; log_at 5 1]) by (vm_compute; reflexivity).
    rewrite E in Ev. injection Ev as Ev. exact Ev.
Defined.

Lemma index_catches_up_witness :
  ∃ e', sync_once "demo" 0 (λ _ _ _, None) demo_get_logs (λ _, None) (Ok (Some (mkHead 9 99))) engine_start = Some (Ok tt, e') ∧
    en_applied e' = demo_canon ∧ en_cursors e' !! "demo"%string = Some (mkCursor 9 99).
Proof.
  destruct (index_catches_up "demo" 0 (λ _ _ _, None) demo_get_logs (λ _, None) demo_canon (mkHead 9 99) engine_start)
    as (e'&E&Ha&Hc).
  - exact demo_honest.
  - reflexivity.
  - reflexivity.
  - intros n from to. unfold demo_get_logs. destruct (decide (2 < to - from + 1)) as [H|H].
    + right. split; [lia|]. eexists. split; [reflexivity|]. vm_compute. reflexivity.
    + left. eexists. reflexivity.
  - vm_compute. split; discriminate.
  - vm_compute. reflexivity.
  - vm_compute. discriminate.
  - exists e'. split; [exact E|]. split; [|exact Hc]. rewrite Ha. vm_compute. reflexivity.
Defined.
End Demo.
