(* ===== verification/RateLimiter.v ===== *)
(** * Rate limiting

    [crates/net/ratelimiter/src]: the GCRA check, the keyed limiter
    ([lib.rs]) and the outbound self-limiter with its parking queues
    ([self_limiter.rs]).  Times are nanoseconds since the limiter was built and
    are an input of each operation; a [Delay] is the instant it completes at; the
    order in which a hash map is iterated is an input of the poll.

    The theorems: tokens granted to a key over any window are bounded by the
    window and the burst, whatever else runs; and the self-limiter surfaces each
    key's requests in the order they were handed in, none lost, each of them
    once its bucket has refilled. *)

From S2P Require Import Prelude.

Inductive RateLimitedErr := TooLarge | TooSoon (wait : Z).

Record Quota := mkQuota { max_tokens : Z; replenish_all_every : Z }.

Definition n_every (n every : Z) : Quota := mkQuota n every.
Definition one_every (seconds : Z) : Quota := mkQuota 1 (seconds * 1000000000).

Record Cell := mkCell { tau_nanos : Z; t_nanos : Z }.

#[global] Instance Cell_eq_dec : EqDecision Cell.
Proof. solve_decision. Defined.

Definition from_quota (q : Quota) : Cell :=
  let tau := replenish_all_every q in
  let t := tau `div` max_tokens q in
  mkCell (Z.min tau u64_max) (Z.min t u64_max).

(** The new TAT on success. *)
Definition check (cell : Cell) (tat now n : Z) : result RateLimitedErr Z :=
  let cost := u64_saturating_mul (t_nanos cell) n in
  if decide (tau_nanos cell < cost) then Err TooLarge
  else
    let earliest_admit := u64_saturating_sub (u64_saturating_add tat cost) (tau_nanos cell) in
    if decide (now < earliest_admit) then Err (TooSoon (u64_saturating_sub earliest_admit now))
    else Ok (u64_saturating_add (Z.max now tat) cost).

(** [RateLimiter]: one bucket. *)
Record RateLimiter := mkLimiter { rl_cell : Cell; rl_tat : Z }.

Definition rl_new (q : Quota) : RateLimiter := mkLimiter (from_quota q) 0.

Definition rl_try_consume_n (n now : Z) (l : RateLimiter) : result RateLimitedErr unit * RateLimiter :=
  match check (rl_cell l) (rl_tat l) now n with
  | Ok new_tat => (Ok tt, mkLimiter (rl_cell l) new_tat)
  | Err e => (Err e, l)
  end.

(** ** The keyed limiter *)

Record KeyState := mkKeyState { ks_tat : Z; ks_cell : Cell }.

Section keyed.
Context {K : Type} `{Countable K}.

Record KeyedRateLimiter := mkKeyed { kl_cell : Cell; kl_state : gmap K KeyState }.

Implicit Types (l : KeyedRateLimiter) (k : K).

Definition kl_new (q : Quota) : KeyedRateLimiter := mkKeyed (from_quota q) ∅.

(** The state a charge finds, inserting the default. *)
Definition key_state k l : KeyState := default (mkKeyState 0 (kl_cell l)) (kl_state l !! k).

Definition with_state k (ks : KeyState) l : KeyedRateLimiter := mkKeyed (kl_cell l) (<[k := ks]> (kl_state l)).

Definition try_consume_n k (n now : Z) l : result RateLimitedErr unit * KeyedRateLimiter :=
  let ks := key_state k l in
  match check (ks_cell ks) (ks_tat ks) now n with
  | Ok new_tat => (Ok tt, with_state k (mkKeyState new_tat (ks_cell ks)) l)
  | Err e => (Err e, with_state k ks l)
  end.

Definition try_consume k (now : Z) l := try_consume_n k 1 now l.

Definition try_peek k (n now : Z) l : result RateLimitedErr unit :=
  let ks := key_state k l in
  match check (ks_cell ks) (ks_tat ks) now n with Ok _ => Ok tt | Err e => Err e end.

Definition set_key_quota k (q : Quota) (now : Z) l : KeyedRateLimiter :=
  let new_cell := from_quota q in
  match kl_state l !! k with
  | Some ks =>
      if decide (tau_nanos (ks_cell ks) = tau_nanos new_cell ∧ t_nanos (ks_cell ks) = t_nanos new_cell) then l
      else with_state k (mkKeyState (Z.min (ks_tat ks) (u64_saturating_add now (tau_nanos new_cell))) new_cell) l
  | None => with_state k (mkKeyState 0 new_cell) l
  end.

Definition replenish_all_every_for k l : Z := tau_nanos (ks_cell (key_state k l)).

Definition kl_clear k l : KeyedRateLimiter := mkKeyed (kl_cell l) (delete k (kl_state l)).

Definition retain_recent (now : Z) l : KeyedRateLimiter :=
  mkKeyed (kl_cell l) (filter (λ row, now < ks_tat row.2) (kl_state l)).

(** ** The self-limiter *)

Context {T : Type}.

Record Item := mkItem { it_cost : Z; it_value : T }.

Record Parked := mkParked { pk_queue : list Item; pk_timer : Z }.

Record SelfRateLimiter := mkSelf { sl_limiter : KeyedRateLimiter; sl_parked : gmap K Parked }.

Implicit Types (s : SelfRateLimiter).

Definition sl_new (q : Quota) : SelfRateLimiter := mkSelf (kl_new q) ∅.

Definition with_limiter l s : SelfRateLimiter := mkSelf l (sl_parked s).
Definition with_parked (m : gmap K Parked) s : SelfRateLimiter := mkSelf (sl_limiter s) m.

(** [Err] carries the wait hint. *)
Definition try_send k (cost now : Z) s : result Z unit * SelfRateLimiter :=
  let '(r, l) := try_consume_n k cost now (sl_limiter s) in
  let s := with_limiter l s in
  match r with
  | Ok _ => (Ok tt, s)
  | Err (TooSoon d) => (Err d, s)
  | Err TooLarge => (Err (replenish_all_every_for k l), s)
  end.

Definition cost_exceeds_capacity k (cost now : Z) s : bool :=
  match try_peek k cost now (sl_limiter s) with Err TooLarge => true | _ => false end.

(** [Ok (Some v)]: admitted now; [Ok None]: parked; [Err v]: handed back. *)
Definition enqueue k (cost : Z) (value : T) (now : Z) s : result T (option T) * SelfRateLimiter :=
  if cost_exceeds_capacity k cost now s then (Err value, s)
  else
    match sl_parked s !! k with
    | Some p =>
        (Ok None, with_parked (<[k := mkParked (pk_queue p ++ [mkItem cost value]) (pk_timer p)]> (sl_parked s)) s)
    | None =>
        let '(r, l) := try_consume_n k cost now (sl_limiter s) in
        let s := with_limiter l s in
        match r with
        | Ok _ => (Ok (Some value), s)
        | Err (TooSoon d) => (Ok None, with_parked (<[k := mkParked [mkItem cost value] (now + d)]> (sl_parked s)) s)
        | Err TooLarge => (Err value, s)
        end
    end.

Definition set_quota k (q : Quota) (now : Z) s : SelfRateLimiter :=
  with_limiter (set_key_quota k q now (sl_limiter s)) s.

Definition sl_clear k s : SelfRateLimiter :=
  mkSelf (kl_clear k (sl_limiter s)) (delete k (sl_parked s)).

Definition rearm_or_remove k (now : Z) s : SelfRateLimiter :=
  match sl_parked s !! k with
  | None => s
  | Some p =>
      match pk_queue p with
      | [] => with_parked (delete k (sl_parked s)) s
      | item :: _ =>
          let wait := match try_peek k (it_cost item) now (sl_limiter s) with Err (TooSoon d) => d | _ => 0 end in
          with_parked (<[k := mkParked (pk_queue p) (now + wait)]> (sl_parked s)) s
      end
  end.

Definition timer_done (now : Z) s k : bool :=
  match sl_parked s !! k with Some p => bool_decide (pk_timer p <= now) | None => false end.

(** The first key of the iteration whose timer has completed, and the drain of
    its head; [None] is [Poll::Pending]. *)
Definition poll_ready (order : list K) (now : Z) s : option (K * T) * SelfRateLimiter :=
  match List.find (timer_done now s) order with
  | None => (None, s)
  | Some k =>
      match sl_parked s !! k ≫= (λ p, head (pk_queue p)) with
      | None => (None, with_parked (delete k (sl_parked s)) s)
      | Some item =>
          let '(r, l) := try_consume_n k (it_cost item) now (sl_limiter s) in
          let s := with_limiter l s in
          let pop p := mkParked (tail (pk_queue p)) (pk_timer p) in
          match r with
          | Ok _ => (Some (k, it_value item), rearm_or_remove k now (with_parked (alter pop k (sl_parked s)) s))
          | Err (TooSoon d) => (None, with_parked (alter (λ p, mkParked (pk_queue p) (now + d)) k (sl_parked s)) s)
          | Err TooLarge => (None, rearm_or_remove k now (with_parked (alter pop k (sl_parked s)) s))
          end
      end
  end.

(** ** Granted tokens over a window *)

(** Operations on a keyed limiter that leave a key's quota alone. *)
Inductive KeyedOp :=
| Consume (k : K) (n : Z)
| Peek (k : K) (n : Z)
| Retain.

Definition keyed_step (now : Z) (op : KeyedOp) l : KeyedRateLimiter :=
  match op with
  | Consume k n => (try_consume_n k n now l).2
  | Peek _ _ => l
  | Retain => retain_recent now l
  end.

(** Tokens an operation grants to [k]. *)
Definition granted k (now : Z) (op : KeyedOp) l : Z :=
  match op with
  | Consume k' n => if decide (k' = k) then match (try_consume_n k n now l).1 with Ok _ => n | Err _ => 0 end else 0
  | _ => 0
  end.

Fixpoint granted_run k (ops : list (Z * KeyedOp)) l : Z :=
  match ops with
  | [] => 0
  | (now, op) :: ops => granted k now op l + granted_run k ops (keyed_step now op l)
  end.

(** Clock readings that never go back, within [[a, b]]. *)
Fixpoint clock_ok {O} (a b : Z) (ops : list (Z * O)) : Prop :=
  match ops with
  | [] => a <= b
  | (now, _) :: ops => a <= now ∧ clock_ok now b ops
  end.

Lemma clock_le {O} (ops : list (Z * O)) : ∀ a b, clock_ok a b ops → a <= b.
Proof. induction ops as [|[now o] ops IH]; intros a b; simpl; [done|]. intros [? ?%IH]. lia. Qed.

Definition op_tokens (op : KeyedOp) : Prop := match op with Consume _ n => 0 <= n | _ => True end.

Lemma check_ok cell tat now n tat' :
  0 <= t_nanos cell → 0 <= n → 0 <= now → 0 <= tat → now + tau_nanos cell < u64_max →
  check cell tat now n = Ok tat' →
  tat' = Z.max now tat + t_nanos cell * n ∧ tat' <= now + tau_nanos cell.
Proof.
  intros Ht Hn Hnow Htat Hlt. unfold check. mach. case_decide as H1; [done|]. case_decide as H2; [done|].
  intros [= <-]. assert (0 <= t_nanos cell * n) by nia. lia.
Qed.

(** The bucket of [k] follows the limiter's default quota. *)
Definition default_bucket k l : Prop := ks_cell (key_state k l) = kl_cell l ∧ 0 <= ks_tat (key_state k l).

Lemma key_state_with k ks l : key_state k (with_state k ks l) = ks.
Proof. unfold key_state. simpl. by rewrite lookup_insert_eq. Qed.

(** A step keeps the bucket's quota, and what it grants moves the arrival time. *)
Lemma granted_step k now op l :
  0 <= now → now + tau_nanos (kl_cell l) < u64_max → 0 <= t_nanos (kl_cell l) → op_tokens op → default_bucket k l →
  let l' := keyed_step now op l in
  kl_cell l' = kl_cell l ∧ default_bucket k l' ∧
  Z.max now (ks_tat (key_state k l')) = Z.max now (ks_tat (key_state k l)) + t_nanos (kl_cell l) * granted k now op l ∧
  (granted k now op l = 0 ∨ ks_tat (key_state k l') <= now + tau_nanos (kl_cell l)).
Proof.
  intros Hnow Hb Ht Hop [Hd Htat]. destruct op as [k' n|k' n|]; simpl; [|split_and!; [done|done|lia|by left]|].
  - unfold try_consume_n. case_decide as Hk; [subst k'|].
    + rewrite Hd. destruct (check (kl_cell l) (ks_tat (key_state k l)) now n) as [tat'|] eqn:E; simpl.
      * apply check_ok in E as [-> Hle]; [|done..]. unfold default_bucket. rewrite key_state_with. simpl.
        assert (0 <= t_nanos (kl_cell l) * n) by (by apply Z.mul_nonneg_nonneg). split_and!; [done|done|lia|lia|by right].
      * unfold default_bucket. rewrite key_state_with. split_and!; [done|done|done|lia|by left].
    + assert (E : ∀ ks, key_state k (with_state k' ks l) = key_state k l).
      { intros ks. unfold key_state. simpl. by rewrite lookup_insert_ne. }
      destruct (check _ _ _ _); simpl; unfold default_bucket; rewrite E; split_and!; (done || lia || by left).
  - assert (Hret : key_state k (retain_recent now l) = key_state k l ∨
      ks_tat (key_state k l) <= now ∧ key_state k (retain_recent now l) = mkKeyState 0 (kl_cell l)).
    { unfold key_state. simpl. destruct (kl_state l !! k) as [ks|] eqn:E.
      - destruct (decide (now < ks_tat ks)) as [Hlt|Hlt].
        + left. by rewrite (map_lookup_filter_Some_2 _ _ _ _ E Hlt).
        + right. simpl. rewrite map_lookup_filter_None_2; [split; [lia|done]|]. right. intros ks' ? ?. simplify_eq/=. lia.
      - left. by rewrite map_lookup_filter_None_2; [|left]. }
    unfold default_bucket. destruct Hret as [->|[Hle ->]]; simpl; split_and!; (done || lia || by left).
Qed.

Lemma granted_run_paid k ops : ∀ l a b,
  clock_ok a b ops → 0 <= a → b + tau_nanos (kl_cell l) < u64_max → 0 <= tau_nanos (kl_cell l) → 0 <= t_nanos (kl_cell l) →
  Forall (λ o, op_tokens o.2) ops → default_bucket k l →
  granted_run k ops l = 0 ∨
  t_nanos (kl_cell l) * granted_run k ops l <= b + tau_nanos (kl_cell l) - Z.max a (ks_tat (key_state k l)).
Proof.
  induction ops as [|[now op] ops IH]; intros l a b Hc Ha Hb Htau Ht Hn Hd; simpl; [by left|].
  destruct Hc as [H1 Hc]. pose proof (clock_le _ _ _ Hc). apply Forall_cons in Hn as [Hop Hn]. simpl in Hop.
  destruct (granted_step k now op l) as (Hcell&Hd'&Htat&Hg); [lia|lia|done..|].
  destruct (IH (keyed_step now op l) now b) as [E|E]; rewrite ?Hcell in *; [done|lia|done..| |].
  - rewrite E, Z.add_0_r. destruct Hg as [->|Hg]; [by left|right; lia].
  - right. lia.
Qed.

(** The rate limit.  Over any window [[a, b]], whatever keys are charged,
    peeked at or swept by [retain_recent] in it, the tokens granted to a key cost
    at most the window plus one full burst: [t * tokens <= (b - a) + tau], where
    [t] is the replenish time of one token and [tau] that of the whole bucket.
    The state at the start of the window is arbitrary. *)
Theorem granted_window_bound k ops l a b :
  clock_ok a b ops → 0 <= a → b + tau_nanos (kl_cell l) < u64_max → 0 <= tau_nanos (kl_cell l) → 0 <= t_nanos (kl_cell l) →
  Forall (λ o, op_tokens o.2) ops → default_bucket k l →
  t_nanos (kl_cell l) * granted_run k ops l <= (b - a) + tau_nanos (kl_cell l).
Proof.
  intros Hc Ha Hb Htau Ht Hn Hd. pose proof (clock_le _ _ _ Hc).
  destruct (granted_run_paid k ops l a b) as [->|E]; [done..| |]; lia.
Qed.

(** ** Parking in order *)

Inductive SelfOp :=
| Enqueue (k : K) (cost : Z) (value : T)
| TrySend (k : K) (cost : Z)
| Poll (order : list K).

(** The limiter with what it accepted and what it surfaced. *)
Record SelfTrace := mkTrace { tr_state : SelfRateLimiter; tr_in : list (K * T); tr_out : list (K * T) }.

Definition self_step (tr : SelfTrace) (o : Z * SelfOp) : SelfTrace :=
  match o with
  | (now, Enqueue k cost value) =>
      match enqueue k cost value now (tr_state tr) with
      | (Ok (Some v), s) => mkTrace s (tr_in tr ++ [(k, value)]) (tr_out tr ++ [(k, v)])
      | (Ok None, s) => mkTrace s (tr_in tr ++ [(k, value)]) (tr_out tr)
      | (Err _, s) => mkTrace s (tr_in tr) (tr_out tr)
      end
  | (now, TrySend k cost) => mkTrace (try_send k cost now (tr_state tr)).2 (tr_in tr) (tr_out tr)
  | (now, Poll order) =>
      let '(r, s) := poll_ready order now (tr_state tr) in
      mkTrace s (tr_in tr) (tr_out tr ++ option_list r)
  end.

Definition values_of k (l : list (K * T)) : list T := snd <$> filter (λ kv, kv.1 = k) l.

Definition parked_values k s : list T :=
  match sl_parked s !! k with Some p => it_value <$> pk_queue p | None => [] end.

Definition self_cost (op : SelfOp) : Prop := match op with Enqueue _ c _ | TrySend _ c => 0 <= c | Poll _ => True end.

(** The bucket can hold the cost. *)
Definition fits (cell : Cell) (n : Z) : Prop := u64_saturating_mul (t_nanos cell) n <= tau_nanos cell.

Record limiter_ok l : Prop := {
  lo_t : 0 <= t_nanos (kl_cell l);
  lo_cell : ∀ k, ks_cell (key_state k l) = kl_cell l;
  lo_tat : ∀ k, 0 <= ks_tat (key_state k l) <= u64_max;
}.

Lemma check_spec cell tat now n :
  0 <= t_nanos cell → 0 <= n → 0 <= tat <= u64_max → 0 <= now <= u64_max →
  match check cell tat now n with
  | Ok tat' => fits cell n ∧ tat <= tat' <= u64_max
  | Err TooLarge => ¬ fits cell n
  | Err (TooSoon d) => fits cell n ∧ now < now + d <= tat
  end.
Proof.
  intros Ht Hn Htat Hnow. pose proof (Z.mul_nonneg_nonneg _ _ Ht Hn). unfold check, fits. mach.
  case_decide; [lia|]. case_decide; lia.
Qed.

Lemma consume_spec k n now l :
  limiter_ok l → 0 <= n → 0 <= now <= u64_max →
  let '(r, l') := try_consume_n k n now l in
  limiter_ok l' ∧ kl_cell l' = kl_cell l ∧ (∀ k', ks_tat (key_state k' l) <= ks_tat (key_state k' l')) ∧
  match r with
  | Ok _ => fits (kl_cell l) n
  | Err TooLarge => ¬ fits (kl_cell l) n
  | Err (TooSoon d) => fits (kl_cell l) n ∧ now < now + d <= ks_tat (key_state k l)
  end.
Proof.
  intros Hl Hn Hnow. unfold try_consume_n. pose proof (check_spec (kl_cell l) (ks_tat (key_state k l)) now n (lo_t _ Hl) Hn (lo_tat _ Hl k) Hnow) as Hc.
  assert (Hw : ∀ tat', ks_tat (key_state k l) <= tat' <= u64_max → let l' := with_state k (mkKeyState tat' (kl_cell l)) l in
    limiter_ok l' ∧ kl_cell l' = kl_cell l ∧ ∀ k', ks_tat (key_state k' l) <= ks_tat (key_state k' l')).
  { intros tat' Ht' l'. assert (Hk' : ∀ k', key_state k' l' = if decide (k = k') then mkKeyState tat' (kl_cell l) else key_state k' l).
    { intros k'. case_decide; [subst k'; apply key_state_with|]. unfold key_state. simpl. by rewrite lookup_insert_ne. }
    pose proof (lo_tat _ Hl k). split; [split; [apply Hl|..]|split; [done|]]; intros k'; rewrite Hk'; case_decide; subst; simpl; try done;
      try apply Hl; lia. }
  assert (Hks : key_state k l = mkKeyState (ks_tat (key_state k l)) (kl_cell l)).
  { rewrite <-(lo_cell _ Hl k). by destruct (key_state k l). }
  pose proof (Hw (ks_tat (key_state k l)) ltac:(split; [done|apply Hl])) as Hs. cbv zeta in Hs. rewrite <-Hks in Hs.
  rewrite (lo_cell _ Hl k). destruct (check _ _ _ _) as [tat'|[|d]]; [|naive_solver..].
  destruct Hc as [Hf Ht']. destruct (Hw tat' Ht') as (?&?&?). done.
Qed.

(** Peeking leaves the wait hint of a charge. *)
Lemma peek_spec k n now l :
  limiter_ok l → 0 <= n → 0 <= now <= u64_max →
  match try_peek k n now l with
  | Ok _ => fits (kl_cell l) n
  | Err TooLarge => ¬ fits (kl_cell l) n
  | Err (TooSoon d) => fits (kl_cell l) n ∧ now < now + d <= ks_tat (key_state k l)
  end.
Proof.
  intros Hl Hn Hnow. unfold try_peek. rewrite (lo_cell _ Hl k).
  pose proof (check_spec (kl_cell l) (ks_tat (key_state k l)) now n (lo_t _ Hl) Hn (lo_tat _ Hl k) Hnow) as Hc.
  destruct (check _ _ _ _) as [tat'|[|d]]; naive_solver.
Qed.

Record parked_ok (cell : Cell) (bound : Z) (p : Parked) : Prop := {
  po_some : pk_queue p ≠ [];
  po_fits : Forall (λ i, 0 <= it_cost i ∧ fits cell (it_cost i)) (pk_queue p);
  po_timer : pk_timer p <= bound;
}.

(** [last] is the latest clock reading. *)
Record self_ok (last : Z) s : Prop := {
  so_limiter : limiter_ok (sl_limiter s);
  so_parked : ∀ k p, sl_parked s !! k = Some p →
    parked_ok (kl_cell (sl_limiter s)) (Z.max last (ks_tat (key_state k (sl_limiter s)))) p;
}.

Lemma self_ok_limiter last now k n s :
  self_ok last s → 0 <= n → last <= now → 0 <= now <= u64_max →
  self_ok now (with_limiter (try_consume_n k n now (sl_limiter s)).2 s) ∧
  kl_cell (try_consume_n k n now (sl_limiter s)).2 = kl_cell (sl_limiter s).
Proof.
  intros [Hl Hp] Hn Hlast Hnow. pose proof (consume_spec k n now (sl_limiter s) Hl Hn Hnow) as Hcs.
  destruct (try_consume_n k n now (sl_limiter s)) as [r l']. destruct Hcs as (Hl'&Hc&Hm&_). simpl.
  split; [|done]. split; [done|]. intros k' p Hk'. simpl in *. destruct (Hp k' p Hk') as [? ? ?].
  rewrite Hc. specialize (Hm k'). split; [done|done|lia].
Qed.

Lemma self_ok_insert last k p s :
  self_ok last s → parked_ok (kl_cell (sl_limiter s)) (Z.max last (ks_tat (key_state k (sl_limiter s)))) p →
  self_ok last (with_parked (<[k := p]> (sl_parked s)) s).
Proof.
  intros [Hl Hp] Hok. split; [done|]. simpl. intros k' p' [[<- <-]|[_ H']]%lookup_insert_Some; [done|]. by apply Hp.
Qed.

Lemma self_ok_delete last k s : self_ok last s → self_ok last (with_parked (delete k (sl_parked s)) s).
Proof. intros [Hl Hp]. split; [done|]. simpl. intros k' p' [_ H']%lookup_delete_Some. by apply Hp. Qed.

Lemma parked_values_insert k k' p s :
  parked_values k' (with_parked (<[k := p]> (sl_parked s)) s) =
  if decide (k = k') then it_value <$> pk_queue p else parked_values k' s.
Proof.
  unfold parked_values. simpl. case_decide; [subst; by rewrite lookup_insert_eq|by rewrite lookup_insert_ne].
Qed.

Lemma parked_values_delete k k' s :
  parked_values k' (with_parked (delete k (sl_parked s)) s) = if decide (k = k') then [] else parked_values k' s.
Proof.
  unfold parked_values. simpl. case_decide; [subst; by rewrite lookup_delete_eq|by rewrite lookup_delete_ne].
Qed.

(** Re-arming after the head of [k] was taken off. *)
Lemma rearm_spec last k now rest timer s :
  self_ok last (with_parked (delete k (sl_parked s)) s) → limiter_ok (sl_limiter s) → last <= now → 0 <= now <= u64_max →
  sl_parked s !! k = Some (mkParked rest timer) →
  Forall (λ i, 0 <= it_cost i ∧ fits (kl_cell (sl_limiter s)) (it_cost i)) rest →
  let s' := rearm_or_remove k now s in
  self_ok now s' ∧ sl_limiter s' = sl_limiter s ∧
  ∀ k', parked_values k' s' = if decide (k = k') then it_value <$> rest else parked_values k' s.
Proof.
  intros [_ Hp] Hl Hlast Hnow Hk Hf s'. unfold s', rearm_or_remove. rewrite Hk. simpl.
  assert (Hp' : ∀ k' p, sl_parked s !! k' = Some p → k' ≠ k →
    parked_ok (kl_cell (sl_limiter s)) (Z.max now (ks_tat (key_state k' (sl_limiter s)))) p).
  { intros k' p Hk' Hne. destruct (Hp k' p) as [? ? ?]; [by apply lookup_delete_Some|]. simpl in *. split; [done|done|lia]. }
  destruct rest as [|item rest].
  - split; [|split; [done|by intros; rewrite parked_values_delete]]. split; [done|]. simpl.
    intros k' p [Hne Hk']%lookup_delete_Some. by apply Hp'.
  - split; [|split; [done|by intros; rewrite parked_values_insert]]. split; [done|]. simpl.
    intros k' p [[<- <-]|[Hne Hk']]%lookup_insert_Some; [|by apply Hp']. split; [done|done|]. simpl.
    apply Forall_cons in Hf as [[Hc _] _]. pose proof (peek_spec k (it_cost item) now (sl_limiter s) Hl Hc Hnow) as Hpk.
    destruct (try_peek k (it_cost item) now (sl_limiter s)) as [|[|d]]; lia.
Qed.

Lemma values_of_app k xs ys : values_of k (xs ++ ys) = values_of k xs ++ values_of k ys.
Proof. unfold values_of. by rewrite filter_app, fmap_app. Qed.

Lemma values_of_one k k' v : values_of k [(k', v)] = if decide (k' = k) then [v] else [].
Proof. unfold values_of. rewrite filter_cons, filter_nil. simpl. by case_decide. Qed.

(** What one poll does to the parked queues: a surfaced value was its queue's
    head, and nothing is dropped. *)
Lemma poll_spec last order now s :
  self_ok last s → last <= now → 0 <= now <= u64_max →
  let '(r, s') := poll_ready order now s in
  self_ok now s' ∧ kl_cell (sl_limiter s') = kl_cell (sl_limiter s) ∧
  ∀ k, values_of k (option_list r) ++ parked_values k s' = parked_values k s.
Proof.
  intros Hs Hlast Hnow. assert (Hs' : self_ok now s).
  { destruct Hs as [Hl Hp]. split; [done|]. intros k p Hk. destruct (Hp k p Hk). split; [done|done|lia]. }
  unfold poll_ready. destruct (List.find _ order) as [k|]; [|done].
  destruct (sl_parked s !! k) as [p|] eqn:Ek; simpl.
  2: { split; [by apply self_ok_delete|]. split; [done|]. intros k'. simpl. rewrite parked_values_delete. case_decide; [|done].
       subst k'. unfold parked_values. by rewrite Ek. }
  destruct (so_parked _ _ Hs k p Ek) as [Hne Hf Ht]. destruct p as [[|item rest] timer]; [done|]. simpl in *.
  apply Forall_cons in Hf as [[Hc0 Hc] Hf].
  destruct (self_ok_limiter last now k (it_cost item) s Hs Hc0 Hlast Hnow) as [Hok Hcell].
  pose proof (consume_spec k (it_cost item) now (sl_limiter s) (so_limiter _ _ Hs) Hc0 Hnow) as Hcs.
  destruct (try_consume_n k (it_cost item) now (sl_limiter s)) as [r l']. simpl in *.
  destruct Hcs as (Hl'&_&Hm&Hr). destruct r as [u|[|d]]; [|done|].
  - set (s1 := with_parked _ (with_limiter l' s)).
    assert (Ek1 : sl_parked s1 !! k = Some (mkParked rest timer)).
    { unfold s1. simpl. by rewrite lookup_alter_eq, Ek. }
    destruct (rearm_spec now k now rest timer s1) as (H1&H2&H3); [|done|lia|done|done|simpl; by rewrite Hcell|].
    { split; [done|]. simpl. intros k' p' [Hne' Hk']%lookup_delete_Some. rewrite lookup_alter_ne in Hk' by done.
      by apply (so_parked _ _ Hok). }
    split; [done|]. rewrite H2. split; [done|]. intros k'. rewrite H3. simpl option_list. rewrite values_of_one.
    case_decide; subst.
    + simpl. unfold parked_values. by rewrite Ek.
    + simpl. unfold parked_values, s1. simpl. by rewrite lookup_alter_ne.
  - split; [|split; [done|]].
    + split; [done|]. simpl. intros k' p' Hk'. destruct (decide (k = k')) as [<-|Hne'].
      * rewrite lookup_alter_eq, Ek in Hk'. simplify_eq/=. split; [done|by constructor; rewrite ?Hcell; [split|]|].
        simpl. specialize (Hm k). lia.
      * rewrite lookup_alter_ne in Hk' by done. by apply (so_parked _ _ Hok).
    + intros k'. unfold parked_values. simpl. destruct (decide (k = k')) as [<-|Hne'].
      * by rewrite lookup_alter_eq, Ek.
      * by rewrite lookup_alter_ne.
Qed.

Record trace_ok (last : Z) (tr : SelfTrace) : Prop := {
  tk_self : self_ok last (tr_state tr);
  tk_fifo : ∀ k, values_of k (tr_out tr) ++ parked_values k (tr_state tr) = values_of k (tr_in tr);
}.

Lemma self_ok_later last now s : self_ok last s → last <= now → self_ok now s.
Proof.
  intros [Hl Hp] Hle. split; [done|]. intros k p Hk. destruct (Hp k p Hk). split; [done|done|lia].
Qed.

Lemma enqueue_spec last k cost v now s :
  self_ok last s → 0 <= cost → last <= now → 0 <= now <= u64_max →
  let '(r, s') := enqueue k cost v now s in
  self_ok now s' ∧
  ∀ k', match r with
  | Ok (Some v') => v' = v ∧ parked_values k s = [] ∧ parked_values k' s' = parked_values k' s
  | Ok None => parked_values k' s' = parked_values k' s ++ (if decide (k = k') then [v] else [])
  | Err _ => parked_values k' s' = parked_values k' s
  end.
Proof.
  intros Hs Hc Hlast Hnow. pose proof (self_ok_later _ _ _ Hs Hlast) as Hs'. unfold enqueue, cost_exceeds_capacity.
  assert (Hfit : (match try_peek k cost now (sl_limiter s) with Err TooLarge => true | _ => false end) = false →
    fits (kl_cell (sl_limiter s)) cost).
  { pose proof (peek_spec k cost now _ (so_limiter _ _ Hs) Hc Hnow) as Hpk.
    destruct (try_peek k cost now (sl_limiter s)) as [|[|]]; [done|done|by intros _; apply Hpk]. }
  destruct (match try_peek k cost now (sl_limiter s) with Err TooLarge => true | _ => false end); [done|].
  specialize (Hfit eq_refl). destruct (sl_parked s !! k) as [p|] eqn:Ek.
  - destruct (so_parked _ _ Hs' k p Ek) as [Hne Hf Ht]. split.
    + apply self_ok_insert; [done|]. split; simpl; [by destruct (pk_queue p)|apply Forall_app; split; [done|by repeat constructor]|done].
    + intros k'. rewrite parked_values_insert. case_decide; [subst k'|by rewrite app_nil_r].
      simpl. unfold parked_values. by rewrite Ek, fmap_app.
  - destruct (self_ok_limiter last now k cost s Hs Hc Hlast Hnow) as [Hok Hcell].
    pose proof (consume_spec k cost now (sl_limiter s) (so_limiter _ _ Hs) Hc Hnow) as Hcs.
    destruct (try_consume_n k cost now (sl_limiter s)) as [r l']. simpl in *. destruct Hcs as (_&_&Hm&Hr).
    assert (Hpk : parked_values k s = []) by (unfold parked_values; by rewrite Ek).
    destruct r as [|[|d]]; [done|done|]. split.
    + apply (self_ok_insert now k _ (with_limiter l' s)); [done|]. simpl. rewrite Hcell. specialize (Hm k).
      split; simpl; [done|by repeat constructor|lia].
    + intros k'. rewrite (parked_values_insert k k' _ (with_limiter l' s)). case_decide; [subst k'|by rewrite app_nil_r].
      by rewrite Hpk.
Qed.

Lemma self_step_ok last now op tr :
  trace_ok last tr → self_cost op → last <= now → 0 <= now <= u64_max → trace_ok now (self_step tr (now, op)).
Proof.
  intros [Hs Hf] Hc Hlast Hnow. destruct op as [k cost v|k cost|order]; simpl in *.
  - pose proof (enqueue_spec last k cost v now (tr_state tr) Hs Hc Hlast Hnow) as He.
    destruct (enqueue k cost v now (tr_state tr)) as [[[v'|]|] s']; destruct He as [H1 H2]; split; simpl; try done; intros k'.
    + destruct (H2 k') as (->&Hnil&->). rewrite !values_of_app, <-Hf, !values_of_one, <-!app_assoc. f_equal.
      case_decide; [subst k'; by rewrite Hnil|by rewrite app_nil_r].
    + by rewrite H2, values_of_app, <-Hf, values_of_one, <-app_assoc.
    + by rewrite H2.
  - destruct (self_ok_limiter last now k cost (tr_state tr) Hs Hc Hlast Hnow) as [Hok _].
    unfold try_send. destruct (try_consume_n k cost now (sl_limiter (tr_state tr))) as [r l']. simpl in Hok.
    destruct r as [|[]]; split; done.
  - pose proof (poll_spec last order now (tr_state tr) Hs Hlast Hnow) as Hp.
    destruct (poll_ready order now (tr_state tr)) as [r s']. destruct Hp as (H1&_&H3). split; [done|]. simpl.
    intros k. by rewrite values_of_app, <-app_assoc, H3.
Qed.

Lemma self_run_ok ops : ∀ tr a b,
  trace_ok a tr → clock_ok a b ops → 0 <= a → b <= u64_max → Forall (λ o, self_cost o.2) ops →
  trace_ok b (run self_step tr ops).
Proof.
  induction ops as [|[now op] ops IH]; intros tr a b Htr Hck Ha Hb Hc; simpl in *.
  - destruct Htr as [Hs Hf]. split; [by eapply self_ok_later|done].
  - destruct Hck as [H1 H2]. pose proof (clock_le _ _ _ H2). apply Forall_cons in Hc as [Hc1 Hc2].
    apply (IH _ now); [|done|lia|done|done]. apply (self_step_ok a); [done|done|done|lia].
Qed.

(** The self-limiter neither loses nor reorders requests.  After any run of
    [enqueue], [try_send] and [poll_ready] on a fresh limiter, what was surfaced
    for a key followed by what is parked for it is exactly what was accepted for
    it, in order; and once the bucket of a parked key has refilled, a poll that
    reaches the key surfaces the head of its queue. *)
Theorem self_limiter_fifo q ops a b k :
  clock_ok a b ops → 0 <= a → b <= u64_max → 0 <= replenish_all_every q → 0 < max_tokens q →
  Forall (λ o, self_cost o.2) ops →
  let tr := run self_step (mkTrace (sl_new q) [] []) ops in
  values_of k (tr_out tr) ++ parked_values k (tr_state tr) = values_of k (tr_in tr) ∧
  ∀ item rest timer now order,
    sl_parked (tr_state tr) !! k = Some (mkParked (item :: rest) timer) →
    b <= now <= u64_max → ks_tat (key_state k (sl_limiter (tr_state tr))) <= now →
    (poll_ready (k :: order) now (tr_state tr)).1 = Some (k, it_value item).
Proof.
  intros Hck Ha Hb Hq Hm Hc tr. assert (Htr : trace_ok b tr).
  { apply (self_run_ok ops _ a); [|done..]. split; [|done]. split; [|done]. split; simpl.
    - pose proof (Z.div_pos (replenish_all_every q) (max_tokens q)). mach. lia.
    - intros k'. unfold key_state. simpl. by rewrite lookup_empty.
    - intros k'. unfold key_state. simpl. rewrite lookup_empty. simpl. mach. lia. }
  destruct Htr as [Hs Hf]. split; [apply Hf|]. intros item rest timer now order Hk Hnow Htat.
  destruct (so_parked _ _ Hs k _ Hk) as [_ Hfit Ht]. simpl in *. apply Forall_cons in Hfit as [[Hc0 Hfit] _].
  unfold poll_ready. simpl. unfold timer_done at 1. rewrite Hk, bool_decide_true by (simpl; lia). rewrite Hk. simpl.
  pose proof (clock_le _ _ _ Hck).
  pose proof (consume_spec k (it_cost item) now _ (so_limiter _ _ Hs) Hc0 ltac:(lia)) as Hcs.
  destruct (try_consume_n k (it_cost item) now _) as [[u|[|d]] l']; [done|naive_solver|]. destruct Hcs as (_&_&_&_&?). lia.
Qed.
End keyed.

(** ** Four tokens every two seconds *)

Definition demo_quota : Quota := n_every 4 2000000000.

(** The burst and one token each half second: seven tokens in 1.5 seconds. *)
Definition demo_burst : list (Z * KeyedOp) :=
  [(0, Consume 1 4); (500000000, Consume 1 1); (500000000, Retain); (1000000000, Consume 2 3);
   (1000000000, Consume 1 1); (1500000000, Consume 1 1); (1500000000, Consume 1 1)].

Lemma granted_window_bound_witness :
  granted_run 1 demo_burst (kl_new demo_quota) = 7 ∧
  500000000 * granted_run 1 demo_burst (kl_new demo_quota) <= (1500000000 - 0) + 2000000000.
Proof.
  split; [vm_compute; reflexivity|].
  apply (granted_window_bound 1 demo_burst (kl_new demo_quota) 0 1500000000).
  - simpl. lia.
  - lia.
  - vm_compute. reflexivity.
  - vm_compute. discriminate.
  - vm_compute. discriminate.
  - repeat constructor; simpl; lia.
  - split; vm_compute; [reflexivity|discriminate].
Defined.

Definition demo_requests : list (Z * SelfOp) :=
  [(0, Enqueue 1 4 10); (0, Enqueue 1 1 20); (10, Enqueue 1 1 30); (20, Poll [1]); (500000000, Poll [2; 1])].

Lemma self_limiter_fifo_witness :
  let tr := run self_step (mkTrace (sl_new demo_quota) [] []) demo_requests in
  tr_out tr = [(1, 10); (1, 20)] ∧ parked_values 1 (tr_state tr) = [30] ∧
  values_of 1 (tr_out tr) ++ parked_values 1 (tr_state tr) = [10; 20; 30].
Proof.
  intros tr. split; [vm_compute; reflexivity|]. split; [vm_compute; reflexivity|].
  assert (E : values_of 1 (tr_in tr) = [10; 20; 30]) by (vm_compute; reflexivity). rewrite <-E.
  apply (self_limiter_fifo demo_quota demo_requests 0 500000000 1).
  - simpl. lia.
  - lia.
  - vm_compute. discriminate.
  - vm_compute. discriminate.
  - vm_compute. reflexivity.
  - repeat constructor; simpl; lia.
Defined.

(** A request parked before its quota shrinks below its cost is neither surfaced
    nor kept by the next poll. *)
Example shrunk_quota_drops_parked :
  let tr := run self_step (mkTrace (sl_new demo_quota) [] []) (take 2 demo_requests) in
  let s := set_quota 1 (n_every 1 2000000000) 0 (tr_state (run self_step tr [(0, Enqueue 1 2 40)])) in
  let '(r1, s1) := poll_ready [1] 2000000000 s in
  let '(r2, s2) := poll_ready [1] 4000000000 s1 in
  r1 = Some (1, 20) ∧ r2 = None ∧ parked_values 1 s2 = [].
Proof. vm_compute. done. Qed.
