(* ===== verification/ProximityIndex.v ===== *)
(** * The proximity index

    [crates/swarm/peers/peer-manager/src/proximity_index.rs]: overlay addresses
    by proximity-order bin with per-bin counters, a generation counter and a
    cached flat list.  The insertion-ordered set of each bin is the [hashlink]
    crate's and is an interface here; the proximity of an address to the local
    overlay is a parameter.

    The theorems: used from one thread, counters, membership and the cached list
    always agree; and under a concurrent insert [get_sorted] can cache a list
    that misses a member under the current generation. *)

From S2P Require Import Prelude.

(** ** The bins' sets *)

(** [hashlink::LinkedHashSet]: a set that iterates in insertion order. *)
Class LinkedHashSet (B : Type) := {
  lhs_empty : B;
  lhs_insert : Z → B → B;
  lhs_remove : Z → B → B;
  lhs_iter : B → list Z;
  lhs_iter_empty : lhs_iter lhs_empty = [];
  lhs_iter_insert a s : a ∉ lhs_iter s → lhs_iter (lhs_insert a s) = lhs_iter s ++ [a];
  lhs_iter_remove a s : lhs_iter (lhs_remove a s) = filter (λ b, b ≠ a) (lhs_iter s);
}.

Definition lhs_contains `{LinkedHashSet B} (a : Z) (s : B) : bool := bool_decide (a ∈ lhs_iter s).

Inductive AddError := AlreadyPresent | BinFull.

Section index.
Context `{LH : LinkedHashSet B} (proximity : Z → Z) (max_po : Z).

Record ProximityIndex := mkIndex {
  pi_max_per_bin : Z;
  pi_bins : list B;
  pi_counts : list Z;
  pi_total : Z;
  pi_generation : Z;
  pi_cache : option Z * list (Z * Z);
}.

Implicit Types (i : ProximityIndex).

Definition num_bins : nat := Z.to_nat (max_po + 1).

Definition pi_new (max_per_bin : Z) : ProximityIndex :=
  mkIndex max_per_bin (replicate num_bins lhs_empty) (replicate num_bins 0) 0 0 (None, []).

Definition bin_size (bin : Z) i : Z := default 0 (pi_counts i !! Z.to_nat bin).
Definition bin_sizes i : list Z := pi_counts i.
Definition pi_len i : Z := pi_total i.

Definition bin_for (addr : Z) : Z := Z.min (proximity addr) max_po.

(** The bin of an address; indexing cannot fail since [bin_for] is at most
    [max_po]. *)
Definition bucket (addr : Z) i : B := default lhs_empty (pi_bins i !! Z.to_nat (bin_for addr)).

Definition add (addr : Z) i : result AddError unit * ProximityIndex :=
  let n := Z.to_nat (bin_for addr) in
  let b := bucket addr i in
  if lhs_contains addr b then (Err AlreadyPresent, i)
  else if decide (0 < pi_max_per_bin i ∧ pi_max_per_bin i <= Z.of_nat (length (lhs_iter b))) then (Err BinFull, i)
  else
    (Ok tt, mkIndex (pi_max_per_bin i) (<[n := lhs_insert addr b]> (pi_bins i))
      (alter (λ c, c + 1) n (pi_counts i)) (pi_total i + 1) (u64_wrapping_add (pi_generation i) 1) (pi_cache i)).

Definition remove (addr : Z) i : bool * ProximityIndex :=
  let n := Z.to_nat (bin_for addr) in
  let b := bucket addr i in
  if lhs_contains addr b then
    (true, mkIndex (pi_max_per_bin i) (<[n := lhs_remove addr b]> (pi_bins i))
      (alter (λ c, c - 1) n (pi_counts i)) (pi_total i - 1) (u64_wrapping_add (pi_generation i) 1) (pi_cache i))
  else (false, i).

Definition exists_in (addr : Z) i : bool := lhs_contains addr (bucket addr i).

Definition peers_in_bin (bin : Z) i : list Z :=
  match pi_bins i !! Z.to_nat bin with Some b => lhs_iter b | None => [] end.

Definition all_peers i : list Z := concat (lhs_iter <$> pi_bins i).

(** The list [get_sorted] collects, bin after bin. *)
Definition collect_bin (n : nat) (b : B) : list (Z * Z) := (λ a, (Z.of_nat n, a)) <$> lhs_iter b.
Fixpoint collect_from (n : nat) (bins : list B) : list (Z * Z) :=
  match bins with
  | [] => []
  | b :: bins => collect_bin n b ++ collect_from (S n) bins
  end.
Definition collect i : list (Z * Z) := collect_from 0 (pi_bins i).

Definition with_cache (c : option Z * list (Z * Z)) i : ProximityIndex :=
  mkIndex (pi_max_per_bin i) (pi_bins i) (pi_counts i) (pi_total i) (pi_generation i) c.

(** The last part of [get_sorted]: store under the generation read now, or take
    what another thread stored. *)
Definition store_items (items : list (Z * Z)) i : list (Z * Z) * ProximityIndex :=
  if decide ((pi_cache i).1 = Some (pi_generation i)) then ((pi_cache i).2, i)
  else (items, with_cache (Some (pi_generation i), items) i).

(** [get_sorted] without interruption. *)
Definition get_sorted i : list (Z * Z) * ProximityIndex :=
  if decide ((pi_cache i).1 = Some (pi_generation i)) then ((pi_cache i).2, i)
  else store_items (collect i) i.

Definition iter_by_proximity i : list (Z * Z) := (get_sorted i).1.
Definition iter_by_proximity_desc i : list (Z * Z) := rev (get_sorted i).1.

(** ** One thread *)

Inductive IndexOp := Add (addr : Z) | Remove (addr : Z) | Sorted.

Definition index_step i (op : IndexOp) : ProximityIndex :=
  match op with
  | Add a => (add a i).2
  | Remove a => (remove a i).2
  | Sorted => (get_sorted i).2
  end.

(** ** Two threads: a reader in [get_sorted] and writers *)

(** Where the reader stands; [Collecting n items] has read the bins below [n]. *)
Inductive ReaderPc := Idle | Collecting (n : nat) (items : list (Z * Z)) | Returned (items : list (Z * Z)).

Inductive reader_step : ProximityIndex * ReaderPc → ProximityIndex * ReaderPc → Prop :=
| rd_hit i : (pi_cache i).1 = Some (pi_generation i) → reader_step (i, Idle) (i, Returned (pi_cache i).2)
| rd_miss i : (pi_cache i).1 ≠ Some (pi_generation i) → reader_step (i, Idle) (i, Collecting 0 [])
| rd_bin i n items b : pi_bins i !! n = Some b →
    reader_step (i, Collecting n items) (i, Collecting (S n) (items ++ collect_bin n b))
| rd_store i n items : n = length (pi_bins i) →
    reader_step (i, Collecting n items) ((store_items items i).2, Returned (store_items items i).1)
| rd_add i pc a : reader_step (i, pc) ((add a i).2, pc)
| rd_remove i pc a : reader_step (i, pc) ((remove a i).2, pc).

(** ** Well-formedness *)

Record index_ok i : Prop := {
  ix_bins : length (pi_bins i) = num_bins;
  ix_counts : pi_counts i = (λ b, Z.of_nat (length (lhs_iter b))) <$> pi_bins i;
  ix_total : pi_total i = sumZ (λ b, Z.of_nat (length (lhs_iter b))) (pi_bins i);
  ix_member : ∀ n b a, pi_bins i !! n = Some b → a ∈ lhs_iter b → n = Z.to_nat (bin_for a);
  ix_nodup : ∀ n b, pi_bins i !! n = Some b → NoDup (lhs_iter b);
}.

(** The cache is of this generation or an earlier one, and exact if current. *)
Definition cache_ok i : Prop :=
  match (pi_cache i).1 with
  | Some g => g <= pi_generation i ∧ (g = pi_generation i → (pi_cache i).2 = collect i)
  | None => True
  end.

(** An update of one bin, as [add] and [remove] make it. *)
Definition set_bin (n : nat) (b : B) (d : Z) i : ProximityIndex :=
  mkIndex (pi_max_per_bin i) (<[n := b]> (pi_bins i)) (alter (λ c, c + d) n (pi_counts i)) (pi_total i + d)
    (u64_wrapping_add (pi_generation i) 1) (pi_cache i).

Hypothesis Hmax : 0 <= max_po.
Hypothesis Hprox : ∀ a, 0 <= proximity a.

Lemma bin_for_lt a i : index_ok i → (Z.to_nat (bin_for a) < length (pi_bins i))%nat.
Proof. intros Hi. rewrite (ix_bins _ Hi). unfold num_bins, bin_for. specialize (Hprox a). lia. Qed.

Lemma bucket_lookup a i : index_ok i → pi_bins i !! Z.to_nat (bin_for a) = Some (bucket a i).
Proof.
  intros Hi. destruct (lookup_lt_is_Some_2 _ _ (bin_for_lt a i Hi)) as [b Hb]. unfold bucket. by rewrite Hb.
Qed.

Lemma set_bin_ok n b d i old :
  index_ok i → pi_bins i !! n = Some old → NoDup (lhs_iter b) →
  (∀ a, a ∈ lhs_iter b → n = Z.to_nat (bin_for a)) →
  Z.of_nat (length (lhs_iter b)) = Z.of_nat (length (lhs_iter old)) + d →
  index_ok (set_bin n b d i).
Proof.
  intros [H1 H2 H3 H4 H5] Hn Hnd Hmem Hlen. pose proof (lookup_lt_Some _ _ _ Hn). split; simpl.
  - by rewrite length_insert.
  - rewrite H2. apply list_eq. intros m. rewrite list_lookup_fmap.
    destruct (decide (n = m)) as [<-|Hne].
    + rewrite list_lookup_alter_eq, list_lookup_fmap, Hn, list_lookup_insert_eq by done. simpl. by rewrite Hlen.
    + rewrite list_lookup_alter_ne, list_lookup_insert_ne, list_lookup_fmap by done. done.
  - rewrite H3, insert_take_drop by done. rewrite <-(take_drop_middle _ _ _ Hn) at 1. rewrite !sumZ_app. simpl. lia.
  - intros m b' a Hm Ha. apply list_lookup_insert_Some in Hm as [(->&->&_)|[_ Hm]]; [by apply Hmem|by eapply H4].
  - intros m b' Hm. apply list_lookup_insert_Some in Hm as [(->&->&_)|[_ Hm]]; [done|by eapply H5].
Qed.

Lemma index_ok_new m : index_ok (pi_new m).
Proof.
  split; simpl.
  - apply length_replicate.
  - rewrite fmap_replicate, lhs_iter_empty. done.
  - induction num_bins as [|n IH]; simpl; [done|]. rewrite <-IH, lhs_iter_empty. done.
  - intros n b a [-> _]%lookup_replicate. rewrite lhs_iter_empty. by intros ?%not_elem_of_nil.
  - intros n b [-> _]%lookup_replicate. rewrite lhs_iter_empty. constructor.
Qed.

Lemma add_cases a i :
  index_ok i →
  let '(r, i') := add a i in
  index_ok i' ∧ pi_max_per_bin i' = pi_max_per_bin i ∧ pi_cache i' = pi_cache i ∧
  match r with
  | Ok _ => exists_in a i = false ∧ pi_generation i' = u64_wrapping_add (pi_generation i) 1 ∧
      ∃ b, pi_bins i' = <[Z.to_nat (bin_for a) := b]> (pi_bins i) ∧ lhs_iter b = lhs_iter (bucket a i) ++ [a]
  | Err _ => i' = i
  end.
Proof.
  intros Hi. unfold add, exists_in, lhs_contains. case_bool_decide as Hin; [done|]. case_decide as Hfull; [done|].
  pose proof (bucket_lookup a i Hi) as Hb. split; [|split; [done|split; [done|split; [done|split; [done|]]]]].
  - apply (set_bin_ok _ (lhs_insert a (bucket a i)) 1 i (bucket a i) Hi Hb); rewrite lhs_iter_insert by done.
    + apply NoDup_app. split; [by eapply ix_nodup|]. split; [|apply NoDup_singleton].
      intros x Hx ->%list_elem_of_singleton. done.
    + intros x [Hx| ->%list_elem_of_singleton]%elem_of_app; [by eapply ix_member|done].
    + rewrite length_app. simpl. lia.
  - exists (lhs_insert a (bucket a i)). split; [done|]. by apply lhs_iter_insert.
Qed.

Lemma remove_cases a i :
  index_ok i →
  let '(r, i') := remove a i in
  index_ok i' ∧ pi_max_per_bin i' = pi_max_per_bin i ∧ pi_cache i' = pi_cache i ∧ r = exists_in a i ∧
  if r then pi_generation i' = u64_wrapping_add (pi_generation i) 1 ∧
      ∃ b, pi_bins i' = <[Z.to_nat (bin_for a) := b]> (pi_bins i) ∧ lhs_iter b = filter (λ x, x ≠ a) (lhs_iter (bucket a i))
  else i' = i.
Proof.
  intros Hi. unfold remove, exists_in, lhs_contains. case_bool_decide as Hin; [|done].
  pose proof (bucket_lookup a i Hi) as Hb. split; [|split; [done|split; [done|split; [done|split; [done|]]]]].
  - apply (set_bin_ok _ (lhs_remove a (bucket a i)) (-1) i (bucket a i) Hi Hb); rewrite lhs_iter_remove.
    + apply NoDup_filter. by eapply ix_nodup.
    + intros x [_ Hx]%list_elem_of_filter. by eapply ix_member.
    + assert (Hnd : NoDup (lhs_iter (bucket a i))) by (by eapply ix_nodup).
      apply list_elem_of_split in Hin as (l1&l2&E). rewrite E in Hnd |- *. apply NoDup_app in Hnd as (_&H1&H2).
      apply NoDup_cons in H2 as [H2 _]. rewrite filter_app, filter_cons_False by naive_solver.
      rewrite !filter_all, !length_app; [simpl; lia|intros x Hx; set_solver|intros x Hx ->; apply (H1 a Hx); left].
  - exists (lhs_remove a (bucket a i)). split; [done|]. apply lhs_iter_remove.
Qed.

(** Membership after an update of one bin. *)
Lemma exists_in_set a x b i i' :
  index_ok i → pi_bins i' = <[Z.to_nat (bin_for a) := b]> (pi_bins i) →
  exists_in x i' = true ↔
  (if decide (Z.to_nat (bin_for x) = Z.to_nat (bin_for a)) then x ∈ lhs_iter b else exists_in x i = true).
Proof.
  intros Hi E. unfold exists_in, lhs_contains, bucket. rewrite E, bool_decide_eq_true.
  case_decide as Hx; [by rewrite Hx, list_lookup_insert_eq by (by apply bin_for_lt)|].
  by rewrite list_lookup_insert_ne, bool_decide_eq_true.
Qed.

Lemma exists_in_iff x i : exists_in x i = true ↔ x ∈ lhs_iter (bucket x i).
Proof. apply bool_decide_eq_true. Qed.

Lemma exists_in_add a x i :
  index_ok i → exists_in x (add a i).2 = true ↔
  match (add a i).1 with Ok _ => x = a ∨ exists_in x i = true | Err _ => exists_in x i = true end.
Proof.
  intros Hi. pose proof (add_cases a i Hi) as H. destruct (add a i) as [[u|e] i']; simpl; [|by destruct H as (_&_&_&->)].
  destruct H as (_&_&_&_&_&b&E&Hb). rewrite (exists_in_set a x b i i' Hi E). rewrite Hb.
  rewrite exists_in_iff. case_decide as Hx.
  - unfold bucket. rewrite Hx, elem_of_app, list_elem_of_singleton. naive_solver.
  - rewrite exists_in_iff. split; [by right|]. intros [->|?]; done.
Qed.

Lemma exists_in_remove a x i :
  index_ok i → exists_in x (remove a i).2 = true ↔ x ≠ a ∧ exists_in x i = true.
Proof.
  intros Hi. pose proof (remove_cases a i Hi) as H. destruct (remove a i) as [[|] i']; simpl.
  - destruct H as (_&_&_&Ha&_&b&E&Hb). rewrite (exists_in_set a x b i i' Hi E), Hb.
    rewrite exists_in_iff. case_decide as Hx.
    + unfold bucket. rewrite Hx, list_elem_of_filter. done.
    + rewrite exists_in_iff. split; [|by intros [_ ?]]. intros ?. split; [congruence|done].
  - destruct H as (_&_&_&Ha&->). split; [|by intros [_ ?]]. intros Hx. split; [|done]. intros ->. congruence.
Qed.

(** ** The collected list *)

Lemma cf_elem bins : ∀ k z a,
  (z, a) ∈ collect_from k bins ↔ ∃ n b, bins !! n = Some b ∧ a ∈ lhs_iter b ∧ z = Z.of_nat (k + n).
Proof.
  induction bins as [|b bins IH]; intros k z a; simpl.
  - split; [by intros ?%not_elem_of_nil|by intros (n&b&?&_)].
  - rewrite elem_of_app, IH. unfold collect_bin. rewrite list_elem_of_fmap. split.
    + intros [(x&[= -> ->]&Hx)|(n&b'&Hn&Ha&->)]; [exists 0%nat, b|exists (S n), b']; (split; [done|]; split; [done|f_equal; lia]).
    + intros ([|n]&b'&Hn&Ha&->); simpl in Hn; [left|right].
      * injection Hn as ->. exists a. split; [f_equal; lia|done].
      * exists n, b'. split; [done|]. split; [done|f_equal; lia].
Qed.

Lemma cf_length bins : ∀ k, Z.of_nat (length (collect_from k bins)) = sumZ (λ b, Z.of_nat (length (lhs_iter b))) bins.
Proof.
  induction bins as [|b bins IH]; intros k; simpl; [done|]. unfold collect_bin. rewrite length_app, length_fmap, Nat2Z.inj_add, IH. done.
Qed.

Lemma cf_sorted bins : ∀ k, StronglySorted Z.le (collect_from k bins).*1.
Proof.
  induction bins as [|b bins IH]; intros k; simpl; [constructor|]. rewrite fmap_app.
  assert (Hge : Forall (λ z, Z.of_nat k <= z) (collect_from (S k) bins).*1).
  { apply Forall_forall. intros z ((z'&a)&->&(n&b'&_&_&->)%cf_elem)%list_elem_of_fmap. simpl. lia. }
  unfold collect_bin. rewrite <-list_fmap_compose. induction (lhs_iter b) as [|a l IHl]; simpl; [apply IH|].
  constructor; [done|]. apply Forall_app. split; [|done]. apply Forall_forall. intros z (x&->&_)%list_elem_of_fmap. simpl. lia.
Qed.

Lemma cf_nodup bins : ∀ k, (∀ n b, bins !! n = Some b → NoDup (lhs_iter b)) → NoDup (collect_from k bins).
Proof.
  induction bins as [|b bins IH]; intros k Hb; simpl; [constructor|]. apply NoDup_app. split_and!.
  - apply NoDup_fmap_2; [by intros x y [= ->]|by apply (Hb 0%nat)].
  - intros [z a] (x&[= -> ->]&_)%list_elem_of_fmap (n&b'&_&_&Hz)%cf_elem. lia.
  - apply IH. intros n b' Hn. by apply (Hb (S n)).
Qed.

Lemma cf_filter bins : ∀ k n b,
  bins !! n = Some b → filter (λ p, p.1 = Z.of_nat (k + n)) (collect_from k bins) = collect_bin (k + n) b.
Proof.
  induction bins as [|b' bins IH]; intros k n b Hn; [done|]. simpl. rewrite filter_app. destruct n as [|n]; simpl in Hn.
  - injection Hn as ->. rewrite Nat.add_0_r. rewrite filter_all; [|by intros [z a] (x&[= -> ->]&_)%list_elem_of_fmap].
    rewrite filter_none, app_nil_r; [done|]. intros [z a] (n&b'&_&_&->)%cf_elem. simpl. lia.
  - rewrite filter_none; [|intros [z a] (x&[= -> ->]&_)%list_elem_of_fmap; simpl; lia]. simpl.
    replace (k + S n)%nat with (S k + n)%nat by lia. by apply IH.
Qed.

Lemma collect_spec i :
  index_ok i →
  let l := collect i in
  NoDup l.*2 ∧ StronglySorted Z.le l.*1 ∧ Z.of_nat (length l) = pi_len i ∧
  (∀ z a, (z, a) ∈ l ↔ exists_in a i = true ∧ z = bin_for a) ∧
  ∀ bin, 0 <= bin <= max_po → bin_size bin i = Z.of_nat (length (filter (λ p, p.1 = bin) l)).
Proof.
  intros Hi l. assert (Hel : ∀ z a, (z, a) ∈ l ↔ exists_in a i = true ∧ z = bin_for a).
  { intros z a. unfold l, collect. rewrite cf_elem. unfold exists_in, lhs_contains. rewrite bool_decide_eq_true. split.
    - intros (n&b&Hn&Ha&->). pose proof (ix_member _ Hi n b a Hn Ha) as ->. rewrite bucket_lookup in Hn by done.
      injection Hn as ->. split; [done|]. unfold bin_for. specialize (Hprox a). lia.
    - intros [Ha ->]. exists (Z.to_nat (bin_for a)), (bucket a i). split; [by apply bucket_lookup|]. split; [done|].
      unfold bin_for. specialize (Hprox a). lia. }
  split; [|split; [apply cf_sorted|split; [|split; [done|]]]].
  - apply NoDup_fmap_2_strong; [|apply cf_nodup; intros; by eapply ix_nodup].
    intros [z a] [z' a'] [_ ->]%Hel [_ ->]%Hel [= ->]. done.
  - unfold l, collect. rewrite cf_length. symmetry. apply Hi.
  - intros bin Hbin. unfold bin_size. rewrite (ix_counts _ Hi), list_lookup_fmap.
    destruct (lookup_lt_is_Some_2 (pi_bins i) (Z.to_nat bin)) as [b Hb]; [rewrite (ix_bins _ Hi); unfold num_bins; lia|].
    rewrite Hb. simpl. pose proof (cf_filter (pi_bins i) 0 _ b Hb) as Hf. simpl in Hf. rewrite Z2Nat.id in Hf by lia.
    unfold l, collect. rewrite Hf. unfold collect_bin. by rewrite length_fmap.
Qed.

(** The set of members, by the operations. *)
Definition member_step (ms : gset Z) (op : IndexOp) : gset Z :=
  match op with
  | Add a => {[a]} ∪ ms
  | Remove a => ms ∖ {[a]}
  | Sorted => ms
  end.

Definition bins_bounded i : Prop :=
  ∀ n b, pi_bins i !! n = Some b → 0 < pi_max_per_bin i → Z.of_nat (length (lhs_iter b)) <= pi_max_per_bin i.

Record run_ok (m : Z) (n : nat) (ms : gset Z) i : Prop := {
  rk_index : index_ok i;
  rk_cache : cache_ok i;
  rk_gen : 0 <= pi_generation i <= Z.of_nat n;
  rk_max : pi_max_per_bin i = m;
  rk_bound : bins_bounded i;
  rk_members : m = 0 → ∀ a, exists_in a i = true ↔ a ∈ ms;
}.

Lemma cache_ok_bump i i' :
  cache_ok i → 0 <= pi_generation i < u64_max → pi_cache i' = pi_cache i →
  pi_generation i' = u64_wrapping_add (pi_generation i) 1 → cache_ok i'.
Proof.
  unfold cache_ok. intros Hc Hg -> ->. destruct (pi_cache i).1 as [g|]; [|done]. destruct Hc as [Hle _].
  assert (E : u64_wrapping_add (pi_generation i) 1 = pi_generation i + 1).
  { unfold u64_wrapping_add. rewrite Z.mod_small by (mach; lia). done. }
  rewrite E. split; lia.
Qed.

Lemma wrapping_bump g : 0 <= g < u64_max → u64_wrapping_add g 1 = g + 1.
Proof. intros Hg. unfold u64_wrapping_add. rewrite Z.mod_small by (mach; lia). done. Qed.

Lemma index_step_ok m n ms i op :
  run_ok m n ms i → Z.of_nat n < u64_max → run_ok m (S n) (member_step ms op) (index_step i op).
Proof.
  intros [Hi Hc Hg Hm Hb Hmem] Hn. destruct op as [a|a|]; simpl.
  - pose proof (add_cases a i Hi) as H. pose proof (λ x, exists_in_add a x i Hi) as Hx.
    assert (Hfull : match (add a i).1 with Ok _ => 0 < m → Z.of_nat (length (lhs_iter (bucket a i))) < m
      | Err AlreadyPresent => exists_in a i = true | Err BinFull => 0 < m end).
    { unfold add, exists_in. destruct (lhs_contains a (bucket a i)); [done|]. case_decide; simpl; lia. }
    destruct (add a i) as [r i']. simpl in *. destruct H as (H1&H2&H3&H4). destruct r as [u|e].
    + destruct H4 as (_&Hgen&b&Eb&Hbi). split; [done|by eapply cache_ok_bump; try done; lia| |congruence| |].
      * rewrite Hgen, wrapping_bump by lia. lia.
      * intros k b' Hk Hpos. rewrite H2 in *. rewrite Eb in Hk. apply list_lookup_insert_Some in Hk as [(_&->&_)|[_ Hk]]; [|by eapply Hb].
        rewrite Hbi, length_app. simpl. rewrite Hm in *. specialize (Hfull Hpos). lia.
      * intros H0 x. rewrite Hx, Hmem by done. set_solver.
    + subst i'. split; [done|done|lia|done|done|]. intros H0 x. rewrite Hmem by done.
      destruct e; [|lia]. apply Hmem in Hfull; [|done]. set_solver.
  - pose proof (remove_cases a i Hi) as H. pose proof (λ x, exists_in_remove a x i Hi) as Hx.
    destruct (remove a i) as [r i']. simpl in *. destruct H as (H1&H2&H3&_&H4).
    assert (Hms : m = 0 → ∀ x, exists_in x i' = true ↔ x ∈ ms ∖ {[a]}).
    { intros H0 x. rewrite Hx, Hmem by done. set_solver. }
    destruct r; [|subst i'; split; [done|done|lia|done|done|done]].
    destruct H4 as (Hgen&b&Eb&Hbi). split; [done|by eapply cache_ok_bump; try done; lia| |congruence| |done].
    + rewrite Hgen, wrapping_bump by lia. lia.
    + intros k b' Hk Hpos. rewrite H2 in *. rewrite Eb in Hk. apply list_lookup_insert_Some in Hk as [(_&->&_)|[_ Hk]]; [|by eapply Hb].
      rewrite Hbi. pose proof (Hb _ _ (bucket_lookup a i Hi) Hpos). pose proof (length_filter (λ x, x ≠ a) (lhs_iter (bucket a i))). lia.
  - unfold get_sorted, store_items. case_decide as Hcur; [simpl; split; [done|done|lia|done|done|done]|].
    simpl. split; simpl; [by destruct Hi; split|by unfold cache_ok|lia|done|done|done].
Qed.

Lemma index_run_ok m ops : ∀ n ms i,
  run_ok m n ms i → Z.of_nat (n + length ops) <= u64_max → run_ok m (n + length ops) (foldl member_step ms ops) (run index_step i ops).
Proof.
  induction ops as [|op ops IH]; intros n ms i Hi Hn; simpl in *; [by rewrite Nat.add_0_r|].
  replace (n + S (length ops))%nat with (S n + length ops)%nat by lia. apply IH; [|lia]. apply index_step_ok; [done|lia].
Qed.

(** The index is exact.  After any run of fewer than 2^64 operations from
    an empty index, the flat list a read returns (cached or not) lists exactly
    the members, each once, with its bin, in bin order; the total and the per-bin
    counters are the numbers of listed members; bins never exceed their bound;
    and an unbounded index holds exactly what was added and not removed. *)
Theorem proximity_index_exact m ops :
  Z.of_nat (length ops) <= u64_max →
  let i := run index_step (pi_new m) ops in
  let l := iter_by_proximity i in
  NoDup l.*2 ∧ StronglySorted Z.le l.*1 ∧ Z.of_nat (length l) = pi_len i ∧
  (∀ z a, (z, a) ∈ l ↔ exists_in a i = true ∧ z = bin_for a) ∧
  (∀ bin, 0 <= bin <= max_po → bin_size bin i = Z.of_nat (length (filter (λ p, p.1 = bin) l)) ∧ (0 < m → bin_size bin i <= m)) ∧
  (m = 0 → ∀ a, exists_in a i = true ↔ a ∈ foldl member_step ∅ ops).
Proof.
  intros Hn i l. assert (Hrun : run_ok m (length ops) (foldl member_step ∅ ops) i).
  { apply (index_run_ok m ops 0 ∅); [|done]. split; [apply index_ok_new|done|done|done| |].
    - intros k b [-> _]%lookup_replicate Hpos. rewrite lhs_iter_empty. simpl in *. lia.
    - intros _ a. rewrite exists_in_iff. pose proof (bucket_lookup a (pi_new m) (index_ok_new m)) as Ha.
      apply lookup_replicate in Ha as [-> _]. rewrite lhs_iter_empty. set_solver. }
  destruct Hrun as [Hi Hc _ Hm Hb Hmem].
  assert (El : l = collect i).
  { unfold l, iter_by_proximity, get_sorted, store_items. unfold cache_ok in Hc.
    case_decide as Hcur; [rewrite Hcur in Hc; by apply Hc|done]. }
  rewrite El. destruct (collect_spec i Hi) as (H1&H2&H3&H4&H5). split_and!; [done..| |done].
  intros bin Hbin. split; [by apply H5|]. intros Hpos. unfold bin_size. rewrite (ix_counts _ Hi), list_lookup_fmap.
  destruct (pi_bins i !! Z.to_nat bin) as [b|] eqn:Eb; simpl; [|lia]. rewrite <-Hm. apply (Hb _ _ Eb). lia.
Qed.

(** ** The cache under concurrency *)

Lemma reader_collects i : ∀ rest n items,
  drop n (pi_bins i) = rest → (n <= length (pi_bins i))%nat →
  rtc (reader_step) (i, Collecting n items) (i, Collecting (length (pi_bins i)) (items ++ collect_from n rest)).
Proof.
  induction rest as [|b rest IH]; intros n items Hd Hn.
  - assert (n = length (pi_bins i)) as ->.
    { apply (f_equal length) in Hd. rewrite length_drop in Hd. simpl in Hd. lia. }
    simpl. rewrite app_nil_r. apply rtc_refl.
  - assert (Hb : pi_bins i !! n = Some b) by (by rewrite <-(Nat.add_0_r n), <-lookup_drop, Hd).
    eapply rtc_l; [by apply rd_bin|]. simpl. rewrite app_assoc. apply IH.
    + rewrite <-(take_drop_middle _ _ _ Hb) in Hd at 1. rewrite drop_app_length' in Hd; [by injection Hd|].
      rewrite length_take. apply lookup_lt_Some in Hb. lia.
    + apply lookup_lt_Some in Hb. lia.
Qed.

(** A concurrent insert can be lost from the cached list.  From any
    well-formed index whose cache is not current, a reader in [get_sorted] whose
    collection of the bins is followed by an insert before it takes the cache
    lock stores the list it collected under the generation of the insert.  The
    cache then counts as current, and every read until the next change returns a
    list without the new member. *)
Theorem stale_cache_reachable i a :
  index_ok i → cache_ok i → 0 <= pi_generation i < u64_max →
  (pi_cache i).1 ≠ Some (pi_generation i) → (add a i).1 = Ok tt →
  ∃ i' items, rtc reader_step (i, Idle) (i', Returned items) ∧
    exists_in a i' = true ∧ (pi_cache i').1 = Some (pi_generation i') ∧ a ∉ (iter_by_proximity i').*2.
Proof.
  intros Hi Hc Hg Hcur Hadd. pose proof (add_cases a i Hi) as H. pose proof (exists_in_add a a i Hi) as Hex.
  destruct (add a i) as [r i1] eqn:E. simpl in *. subst r. destruct H as (Hi1&_&Hc1&Hnot&Hgen&b&Eb&_).
  rewrite wrapping_bump in Hgen by done.
  assert (Hlen : length (pi_bins i1) = length (pi_bins i)) by (by rewrite Eb, length_insert).
  assert (Hold : (pi_cache i1).1 ≠ Some (pi_generation i1)).
  { rewrite Hc1, Hgen. unfold cache_ok in Hc. destruct (pi_cache i).1 as [g|]; [|done]. destruct Hc. intros [= ->]. lia. }
  exists (with_cache (Some (pi_generation i1), collect i) i1), (collect i). split.
  - eapply rtc_l; [by apply rd_miss|].
    etrans; [apply (reader_collects i (pi_bins i) 0 []); [done|lia]|]. simpl.
    eapply rtc_l; [apply (rd_add i _ a)|]. rewrite E. simpl.
    eapply rtc_l; [apply rd_store; by rewrite Hlen|]. unfold store_items. rewrite decide_False by done. apply rtc_refl.
  - split; [apply Hex; by left|]. split; [done|].
    unfold iter_by_proximity, get_sorted. simpl. rewrite decide_True by done. simpl.
    intros ((z&x)&->&Hin)%list_elem_of_fmap. simpl in *.
    destruct (collect_spec i Hi) as (_&_&_&H4&_). apply H4 in Hin as [? _]. congruence.
Qed.
End index.

(** ** Lists as insertion-ordered sets *)

#[refine, export] Instance list_linked : LinkedHashSet (list Z) := {|
  lhs_empty := [];
  lhs_insert a l := l ++ [a];
  lhs_remove a l := filter (λ b, b ≠ a) l;
  lhs_iter l := l;
|}.
Proof. all: done. Defined.

Definition demo_index_ops : list IndexOp := [Add 5; Add 2; Sorted; Add 7; Add 2; Remove 5; Sorted; Add 12].

Lemma proximity_index_exact_witness :
  let i := run (index_step (λ a, a mod 8) 3) (pi_new 3 0) demo_index_ops in
  iter_by_proximity i = [(2, 2); (3, 7); (3, 12)] ∧ NoDup (iter_by_proximity i).*2 ∧ pi_len i = 3.
Proof.
  intros i. split; [vm_compute; reflexivity|]. split; [|vm_compute; reflexivity].
  apply (proximity_index_exact (λ a, a mod 8) 3 ltac:(lia) ltac:(intros a; apply Z.mod_pos_bound; lia) 0 demo_index_ops).
  vm_compute. discriminate.
Defined.

Lemma stale_cache_reachable_witness :
  ∃ i' items, rtc (reader_step (λ a, a mod 8) 3) (pi_new 3 0, Idle) (i', Returned items) ∧
    exists_in (λ a, a mod 8) 3 5 i' = true ∧ 5 ∉ (iter_by_proximity i').*2.
Proof.
  destruct (stale_cache_reachable (λ a, a mod 8) 3 ltac:(lia) ltac:(intros a; apply Z.mod_pos_bound; lia) (pi_new 3 0) 5)
    as (i'&items&H1&H2&_&H4).
  - apply index_ok_new.
  - exact I.
  - vm_compute. split; [discriminate|reflexivity].
  - discriminate.
  - vm_compute. reflexivity.
  - exists i', items. split; [exact H1|]. split; [exact H2|exact H4].
Defined.
