(* ===== verification/Kademlia.v ===== *)
(** * Kademlia routing

    [crates/swarm/topology/src/kademlia]: the depth-aware limits ([limits.rs]),
    the phase machine ([phase.rs]), and the routing table ([routing.rs]) with its
    per-bin capacity counters, published depth and bin trimming, over the
    proximity index of connected peers.  The depth computation
    ([recompute_neighborhood_depth]), proximity, the peer ranks and scores come
    from other crates and are parameters; clock readings are inputs.

    The theorems: the capacity counters are the tracked connections plus the
    slots leaked by releases that find another phase; the published depth is the
    recomputed one, or is held while a single peer is missing, for less than the
    window; and trimming a bin leaves at least the saturation level. *)

From S2P Require Import Prelude.
From S2P Require Import ProximityIndex.

(** ** Limits *)

Definition usize_max : Z := u64_max.

Record DepthAwareLimits := mkLimits {
  dl_total_target : Z;
  dl_nominal : Z;
  dl_inbound_headroom : Z;
  dl_bootstrap_target : Z;
  dl_oversaturation_peers : Z;
  dl_saturation : Z;
}.

Definition DEFAULT_INBOUND_HEADROOM : Z := 4.
Definition DEFAULT_BOOTSTRAP_TARGET : Z := 18.
Definition DEFAULT_OVERSATURATION_PEERS : Z := 18.
Definition DEFAULT_SATURATION_PEERS : Z := 8.

Definition limits_new (total_target nominal : Z) : DepthAwareLimits :=
  mkLimits total_target nominal DEFAULT_INBOUND_HEADROOM DEFAULT_BOOTSTRAP_TARGET DEFAULT_OVERSATURATION_PEERS
    DEFAULT_SATURATION_PEERS.

Definition limits_default : DepthAwareLimits := limits_new 160 3.

Definition oversaturation (l : DepthAwareLimits) : Z :=
  Z.max (Z.max (dl_oversaturation_peers l) (dl_bootstrap_target l)) (dl_saturation l).

(** [NeighborhoodDepth::contains]. *)
Definition depth_contains (depth bin : Z) : bool := bool_decide (depth <= bin).

Definition target (bin depth : Z) (l : DepthAwareLimits) : Z :=
  if decide (depth = 0) then Z.max (dl_bootstrap_target l) (dl_saturation l)
  else if depth_contains depth bin then usize_max
  else
    let weight := bin + 1 in
    let weight_sum := (depth * (depth + 1)) `div` 2 in
    let allocated := u64_saturating_mul (dl_total_target l) weight `div` weight_sum in
    Z.max (Z.max allocated (dl_nominal l)) (dl_saturation l).

Definition needs_more (bin depth connected : Z) (l : DepthAwareLimits) : bool :=
  if decide (target bin depth l = usize_max) then true else bool_decide (connected < target bin depth l).

Definition deficit (bin depth connected : Z) (l : DepthAwareLimits) : Z :=
  if decide (target bin depth l = usize_max) then u64_saturating_sub 1000 connected
  else u64_saturating_sub (target bin depth l) connected.

Definition surplus (bin depth connected : Z) (l : DepthAwareLimits) : Z :=
  if decide (target bin depth l = usize_max) then 0
  else u64_saturating_sub connected (Z.max (target bin depth l) (oversaturation l)).

Definition ceiling (bin depth : Z) (l : DepthAwareLimits) : Z :=
  if decide (target bin depth l = usize_max) then usize_max
  else Z.max (target bin depth l + dl_inbound_headroom l) (oversaturation l).

Definition limits_accept_inbound (bin depth connected : Z) (l : DepthAwareLimits) : bool :=
  bool_decide (connected < ceiling bin depth l).

Definition balanced_bins (depth : Z) : list Z := seqZ 0 depth.
Definition all_bins (max : Z) : list Z := seqZ 0 (max + 1).
Definition neighborhood_bins (depth max : Z) : list Z := seqZ depth (max - depth + 1).

(** ** The phase machine *)

Inductive TopologyPhase := Bootstrap | Converging | Stable.

#[global] Instance TopologyPhase_eq_dec : EqDecision TopologyPhase.
Proof. solve_decision. Defined.

Record PhaseTransition := mkTransition { pt_from : TopologyPhase; pt_to : TopologyPhase; pt_depth : Z; pt_time : Z }.

Record PhaseTracker := mkTracker {
  ph_phase : TopologyPhase;
  ph_entered_at : Z;
  ph_window : Z;
  ph_last_depth : Z;
  ph_last_change : Z;
}.

Definition tracker_new (window now : Z) : PhaseTracker := mkTracker Bootstrap now window 0 now.

Definition evaluate (depth : Z) (saturated : bool) (now : Z) (t : PhaseTracker) : option PhaseTransition * PhaseTracker :=
  let last_change := if decide (depth = ph_last_depth t) then ph_last_change t else now in
  let next :=
    if decide (depth = 0) then Bootstrap
    else if negb saturated || bool_decide (now - last_change < ph_window t) then Converging
    else Stable in
  if decide (next = ph_phase t) then (None, mkTracker (ph_phase t) (ph_entered_at t) (ph_window t) depth last_change)
  else (Some (mkTransition (ph_phase t) next depth (now - ph_entered_at t)),
        mkTracker next now (ph_window t) depth last_change).

(** ** The routing table *)

Inductive ConnectionPhase := Dialing | Handshaking | Active.

#[global] Instance ConnectionPhase_eq_dec : EqDecision ConnectionPhase.
Proof. solve_decision. Defined.

Definition DEPTH_LOWER_DEFICIT_TOLERANCE : Z := 1.

Section routing.
Context `{LH : LinkedHashSet B}.

(** Proximity of a peer to the local overlay, of two peers to each other, and
    the depth computed from capped bin counts, the saturation threshold and the
    low watermark. *)
Context (proximity : Z → Z) (max_po : Z) (peer_proximity : Z → Z → Z).
Context (recompute_neighborhood_depth : list Z → Z → Z → Z) (low_watermark : Z).

Record KademliaRouting := mkRouting {
  kd_limits : DepthAwareLimits;
  kd_lower_window : Z;
  kd_connected : ProximityIndex (B:=B);
  kd_depth : Z;
  kd_pending_lower : option Z;
  kd_dialing : list Z;
  kd_handshaking : list Z;
  kd_active : list Z;
  kd_phases : gmap Z ConnectionPhase;
  kd_stable : option (Z * Z);
  kd_tracker : PhaseTracker;
}.

Implicit Types (r : KademliaRouting).

Definition routing_new (l : DepthAwareLimits) (lower_window phase_window now : Z) : KademliaRouting :=
  let zero := replicate (num_bins max_po) 0 in
  mkRouting l lower_window (pi_new max_po 0) 0 None zero zero zero ∅ None (tracker_new phase_window now).

Abbreviation binof := (bin_for proximity max_po).

(** Counters of [usize]; an index past the end is ignored. *)
Definition atomic_inc (v : list Z) (bin : Z) : list Z := alter (λ c, u64_wrapping_add c 1) (Z.to_nat bin) v.
Definition atomic_dec (v : list Z) (bin : Z) : list Z := alter (λ c, (c - 1) mod (u64_max + 1)) (Z.to_nat bin) v.
Definition atomic_load (v : list Z) (bin : Z) : Z := default 0 (v !! Z.to_nat bin).

Definition effective_count (bin : Z) r : Z :=
  atomic_load (kd_dialing r) bin + atomic_load (kd_handshaking r) bin + atomic_load (kd_active r) bin.

Definition evictable_count (bin : Z) r : Z := atomic_load (kd_handshaking r) bin + atomic_load (kd_active r) bin.

(** The counters and the phase of one peer, as the capacity operations set them. *)
Definition set_capacity (d h a : list Z) (m : gmap Z ConnectionPhase) r : KademliaRouting :=
  mkRouting (kd_limits r) (kd_lower_window r) (kd_connected r) (kd_depth r) (kd_pending_lower r) d h a m
    (kd_stable r) (kd_tracker r).

Definition admission_within_capacity (peer extra : Z) r : bool :=
  let c := ceiling (binof peer) (kd_depth r) (kd_limits r) in
  if decide (c = usize_max) then true
  else bool_decide (u64_saturating_add (effective_count (binof peer) r) extra <= c).

(** [KademliaAdmissionControl::evaluate]: an inbound peer is not counted yet. *)
Definition admission_evaluate (peer : Z) (inbound : bool) r : bool :=
  admission_within_capacity peer (if inbound then 1 else 0) r.

Definition try_reserve_dial (peer : Z) r : bool * KademliaRouting :=
  match kd_phases r !! peer with
  | Some _ => (false, r)
  | None =>
      if needs_more (binof peer) (kd_depth r) (effective_count (binof peer) r) (kd_limits r) then
        (true, set_capacity (atomic_inc (kd_dialing r) (binof peer)) (kd_handshaking r) (kd_active r)
                 (<[peer := Dialing]> (kd_phases r)) r)
      else (false, r)
  end.

Definition release_dial (peer : Z) r : KademliaRouting :=
  set_capacity
    (if decide (kd_phases r !! peer = Some Dialing) then atomic_dec (kd_dialing r) (binof peer) else kd_dialing r)
    (kd_handshaking r) (kd_active r) (delete peer (kd_phases r)) r.

Definition dial_connected (peer : Z) r : KademliaRouting :=
  if decide (kd_phases r !! peer = Some Dialing) then
    set_capacity (atomic_dec (kd_dialing r) (binof peer)) (atomic_inc (kd_handshaking r) (binof peer)) (kd_active r)
      (<[peer := Handshaking]> (kd_phases r)) r
  else r.

Definition handshake_completed (peer : Z) r : KademliaRouting :=
  if decide (kd_phases r !! peer = Some Handshaking) then
    set_capacity (kd_dialing r) (atomic_dec (kd_handshaking r) (binof peer)) (atomic_inc (kd_active r) (binof peer))
      (<[peer := Active]> (kd_phases r)) r
  else r.

Definition release_handshake (peer : Z) r : KademliaRouting :=
  set_capacity (kd_dialing r)
    (if decide (kd_phases r !! peer = Some Handshaking) then atomic_dec (kd_handshaking r) (binof peer) else kd_handshaking r)
    (kd_active r) (delete peer (kd_phases r)) r.

Definition disconnected (peer : Z) r : KademliaRouting :=
  match kd_phases r !! peer with
  | None => r
  | Some Dialing => set_capacity (atomic_dec (kd_dialing r) (binof peer)) (kd_handshaking r) (kd_active r)
                      (delete peer (kd_phases r)) r
  | Some Handshaking => set_capacity (kd_dialing r) (atomic_dec (kd_handshaking r) (binof peer)) (kd_active r)
                          (delete peer (kd_phases r)) r
  | Some Active => set_capacity (kd_dialing r) (kd_handshaking r) (atomic_dec (kd_active r) (binof peer))
                     (delete peer (kd_phases r)) r
  end.

Definition should_accept_inbound (peer : Z) r : bool :=
  bool_decide (kd_phases r !! peer = None) &&
  limits_accept_inbound (binof peer) (kd_depth r) (effective_count (binof peer) r) (kd_limits r).

Definition reserve_inbound (peer : Z) r : KademliaRouting :=
  match kd_phases r !! peer with
  | Some _ => r
  | None => set_capacity (kd_dialing r) (atomic_inc (kd_handshaking r) (binof peer)) (kd_active r)
              (<[peer := Handshaking]> (kd_phases r)) r
  end.

(** *** Depth *)

Definition cap_u8 (n : Z) : Z := if decide (n <= 255) then n else 255.

(** The first 32 bin sizes, capped to a byte, missing ones zero. *)
Definition depth_counts (sizes : list Z) : list Z := (λ n, cap_u8 (default 0 (sizes !! n))) <$> seq 0 32.

Definition recalc_depth (sizes : list Z) r : Z :=
  Z.min (recompute_neighborhood_depth (depth_counts sizes) (cap_u8 (dl_saturation (kd_limits r))) low_watermark) max_po.

Definition saturation_deficit_below (depth : Z) (sizes : list Z) r : Z :=
  sumZ (λ bin, u64_saturating_sub (dl_saturation (kd_limits r)) (default 0 (sizes !! Z.to_nat bin)))
    (filter (λ bin, ¬ depth <= bin) (all_bins max_po)).

Definition set_depth (depth : Z) (pending : option Z) r : KademliaRouting :=
  mkRouting (kd_limits r) (kd_lower_window r) (kd_connected r) depth pending (kd_dialing r) (kd_handshaking r) (kd_active r)
    (kd_phases r) (kd_stable r) (kd_tracker r).

Definition publish_depth_at (now : Z) r : bool * KademliaRouting :=
  let sizes := bin_sizes (kd_connected r) in
  let raw := recalc_depth sizes r in
  let published := kd_depth r in
  if decide (published <= raw) then (bool_decide (raw ≠ published), set_depth raw None r)
  else if decide (DEPTH_LOWER_DEFICIT_TOLERANCE < saturation_deficit_below published sizes r) then (true, set_depth raw None r)
  else
    match kd_pending_lower r with
    | None => (false, set_depth published (Some now) r)
    | Some since =>
        if decide (kd_lower_window r <= now - since) then (true, set_depth raw None r) else (false, r)
    end.

Definition neighborhood_connected (depth : Z) r : Z :=
  sumZ (λ bin, bin_size bin (kd_connected r)) (neighborhood_bins depth max_po).

Definition neighborhood_saturated (depth : Z) r : bool :=
  if decide (depth = 0) then false else bool_decide (dl_saturation (kd_limits r) <= neighborhood_connected depth r).

Definition set_stable (st : option (Z * Z)) r : KademliaRouting :=
  mkRouting (kd_limits r) (kd_lower_window r) (kd_connected r) (kd_depth r) (kd_pending_lower r) (kd_dialing r) (kd_handshaking r)
    (kd_active r) (kd_phases r) st (kd_tracker r).

Definition update_neighborhood_stability (now : Z) r : KademliaRouting :=
  let depth := kd_depth r in
  if bool_decide (0 < depth) && bool_decide (dl_saturation (kd_limits r) <= neighborhood_connected depth r) then
    match kd_stable r with
    | Some (d, _) => if decide (d = depth) then r else set_stable (Some (depth, now)) r
    | None => set_stable (Some (depth, now)) r
    end
  else set_stable None r.

Definition refresh_depth_at (now : Z) r : KademliaRouting :=
  let '(changed, r) := publish_depth_at now r in
  if changed : bool then update_neighborhood_stability now r else r.

Definition set_connected (i : ProximityIndex) r : KademliaRouting :=
  mkRouting (kd_limits r) (kd_lower_window r) i (kd_depth r) (kd_pending_lower r) (kd_dialing r) (kd_handshaking r)
    (kd_active r) (kd_phases r) (kd_stable r) (kd_tracker r).

Definition peer_connected (peer now : Z) r : KademliaRouting :=
  match add proximity max_po peer (kd_connected r) with
  | (Ok _, i) => update_neighborhood_stability now (publish_depth_at now (set_connected i r)).2
  | (Err _, _) => r
  end.

Definition peer_disconnected (peer now : Z) r : KademliaRouting :=
  match remove proximity max_po peer (kd_connected r) with
  | (true, i) => update_neighborhood_stability now (publish_depth_at now (set_connected i r)).2
  | (false, _) => r
  end.

Definition remove_peer (peer now : Z) r : KademliaRouting :=
  update_neighborhood_stability now (set_connected (remove proximity max_po peer (kd_connected r)).2 r).

Definition evaluate_phase (now : Z) r : option PhaseTransition * KademliaRouting :=
  let '(t, tracker) := evaluate (kd_depth r) (neighborhood_saturated (kd_depth r) r) now (kd_tracker r) in
  (t, mkRouting (kd_limits r) (kd_lower_window r) (kd_connected r) (kd_depth r) (kd_pending_lower r) (kd_dialing r)
        (kd_handshaking r) (kd_active r) (kd_phases r) (kd_stable r) tracker).

(** *** Trimming *)

(** The caller's rank order and the scores of the peers ([None] for an
    incomparable pair). *)
Context (rank_cmp : Z → Z → comparison) (score_cmp : Z → Z → option comparison).

Definition then_with (c : comparison) (d : comparison) : comparison := match c with Eq => d | _ => c end.

Definition by_rank_then_score (a b : Z) : comparison := then_with (rank_cmp a b) (default Eq (score_cmp a b)).

(** [max] of an iterator of proximities. *)
Definition redundancy (pool : list Z) (a : Z) : option Z :=
  foldl (λ best x, Some (match best with Some m => Z.max m x | None => x end)) None
    ((λ other, peer_proximity a other) <$> filter (λ other, other ≠ a) pool).

Definition opt_cmp (a b : option Z) : comparison :=
  match a, b with None, None => Eq | None, Some _ => Lt | Some _, None => Gt | Some x, Some y => x ?= y end.

Definition victim_cmp (pool : list Z) (a b : Z) : comparison :=
  then_with (then_with (by_rank_then_score a b) (opt_cmp (redundancy pool b) (redundancy pool a))) (a ?= b).

(** [enumerate().min_by(..)]: the index of the first minimum. *)
Definition min_index (pool : list Z) : option nat :=
  fst <$> foldl (λ best x, match best with
                           | Some b => match victim_cmp pool b.2 x.2 with Gt => Some x | _ => best end
                           | None => Some x
                           end) None (imap pair pool).

Definition swap_remove (n : nat) (l : list Z) : list Z :=
  match last l with
  | Some z => take (length l - 1) (<[n := z]> l)
  | None => l
  end.

Fixpoint trim_loop (count : nat) (pool : list Z) : list Z :=
  match count with
  | O => []
  | S count =>
      match min_index pool with
      | None => []
      | Some n => match pool !! n with
                  | Some v => v :: trim_loop count (swap_remove n pool)
                  | None => []
                  end
      end
  end.

Definition select_trim_victims (pool : list Z) (count : Z) : list Z :=
  if decide (Z.of_nat (length pool) <= count) then pool else trim_loop (Z.to_nat count) pool.

Record EvictionCandidate := mkCandidate { ec_overlay : Z; ec_bin : Z; ec_phase : ConnectionPhase }.

(** [order] is the order in which the phase map is iterated. *)
Definition handshaking_in (order : list Z) (bin : Z) r : list Z :=
  filter (λ p, kd_phases r !! p = Some Handshaking ∧ binof p = bin) order.

Definition bin_candidates (order : list Z) (bin : Z) r : list EvictionCandidate :=
  let extra := surplus bin (kd_depth r) (evictable_count bin r) (kd_limits r) in
  if decide (extra = 0) then []
  else
    let hs := take (Z.to_nat extra) (handshaking_in order bin r) in
    let remaining := extra - Z.of_nat (length hs) in
    ((λ p, mkCandidate p bin Handshaking) <$> hs) ++
    (if decide (0 < remaining) then
       (λ p, mkCandidate p bin Active) <$> select_trim_victims (peers_in_bin bin (kd_connected r)) remaining
     else []).

Definition eviction_candidates (order : list Z) r : list EvictionCandidate :=
  concat ((λ bin, bin_candidates order bin r) <$> balanced_bins (kd_depth r)).

(** ** Capacity accounting *)

Inductive RoutingOp :=
| ReserveDial (peer : Z)
| ReleaseDial (peer : Z)
| DialConnected (peer : Z)
| HandshakeCompleted (peer : Z)
| ReleaseHandshake (peer : Z)
| Disconnected (peer : Z)
| ReserveInbound (peer : Z)
| Connected (peer now : Z)
| PeerGone (peer now : Z)
| RemovePeer (peer now : Z)
| RefreshDepth (now : Z).

Definition routing_step r (op : RoutingOp) : KademliaRouting :=
  match op with
  | ReserveDial p => (try_reserve_dial p r).2
  | ReleaseDial p => release_dial p r
  | DialConnected p => dial_connected p r
  | HandshakeCompleted p => handshake_completed p r
  | ReleaseHandshake p => release_handshake p r
  | Disconnected p => disconnected p r
  | ReserveInbound p => reserve_inbound p r
  | Connected p now => peer_connected p now r
  | PeerGone p now => peer_disconnected p now r
  | RemovePeer p now => remove_peer p now r
  | RefreshDepth now => refresh_depth_at now r
  end.

(** The slot a release leaks: it forgets a peer it finds in another phase
    without giving back the slot of that phase. *)
Definition leak_of r (op : RoutingOp) : option (Z * ConnectionPhase) :=
  match op with
  | ReleaseDial p => match kd_phases r !! p with Some Dialing | None => None | Some ph => Some (binof p, ph) end
  | ReleaseHandshake p => match kd_phases r !! p with Some Handshaking | None => None | Some ph => Some (binof p, ph) end
  | _ => None
  end.

Fixpoint leaks r (ops : list RoutingOp) : list (Z * ConnectionPhase) :=
  match ops with
  | [] => []
  | op :: ops => option_list (leak_of r op) ++ leaks (routing_step r op) ops
  end.

Definition counter (ph : ConnectionPhase) r : list Z :=
  match ph with Dialing => kd_dialing r | Handshaking => kd_handshaking r | Active => kd_active r end.

(** Peers of a bin tracked in a phase. *)
Definition slot (bin : Z) (ph : ConnectionPhase) (p : Z) (ph' : ConnectionPhase) : Z :=
  if decide (ph' = ph ∧ binof p = bin) then 1 else 0.
Definition tracked (bin : Z) (ph : ConnectionPhase) (m : gmap Z ConnectionPhase) : Z := map_sumZ (slot bin ph) m.

Lemma tracked_insert bin ph p ph' m : m !! p = None → tracked bin ph (<[p := ph']> m) = tracked bin ph m + slot bin ph p ph'.
Proof. intros Hp. unfold tracked. rewrite map_sumZ_insert by done. lia. Qed.

Lemma tracked_delete bin ph p m :
  tracked bin ph (delete p m) = tracked bin ph m - match m !! p with Some ph' => slot bin ph p ph' | None => 0 end.
Proof.
  unfold tracked. destruct (m !! p) as [ph'|] eqn:E.
  - rewrite (map_sumZ_delete _ _ _ _ E). lia.
  - rewrite delete_id by done. lia.
Qed.

Lemma tracked_nonneg bin ph m : 0 <= tracked bin ph m.
Proof. apply map_sumZ_nonneg. intros k a _. unfold slot. by case_decide. Qed.

Section capacity.
Hypothesis Hmax : 0 <= max_po.
Hypothesis Hprox : ∀ a, 0 <= proximity a.

Lemma binof_range p : 0 <= binof p <= max_po.
Proof. unfold bin_for. specialize (Hprox p). lia. Qed.

(** The accounting invariant, with [n] operations done and [lk] slots leaked. *)
Record cap_ok (n : nat) (lk : list (Z * ConnectionPhase)) r : Prop := {
  co_len : ∀ ph, length (counter ph r) = num_bins max_po;
  co_count : ∀ bin ph, 0 <= bin <= max_po → atomic_load (counter ph r) bin =
    tracked bin ph (kd_phases r) + Z.of_nat (length (filter (λ x, x = (bin, ph)) lk));
  co_bound : ∀ bin ph, 0 <= bin <= max_po → atomic_load (counter ph r) bin <= Z.of_nat n;
}.

Lemma load_inc v b bin : 0 <= b → 0 <= bin → 
  0 <= atomic_load v b < u64_max → (Z.to_nat b < length v)%nat →
  atomic_load (atomic_inc v b) bin = atomic_load v bin + (if decide (b = bin) then 1 else 0).
Proof.
  intros Hb Hbin Hr Hlt. unfold atomic_load, atomic_inc in *. case_decide as E.
  - subst. rewrite list_lookup_alter_eq. destruct (lookup_lt_is_Some_2 _ _ Hlt) as [c Hc]. rewrite Hc in *. simpl in *.
    unfold u64_wrapping_add. rewrite Z.mod_small by (mach; lia). done.
  - rewrite list_lookup_alter_ne by lia. lia.
Qed.

Lemma load_dec v b bin : 0 <= b → 0 <= bin → 
  1 <= atomic_load v b <= u64_max → (Z.to_nat b < length v)%nat →
  atomic_load (atomic_dec v b) bin = atomic_load v bin - (if decide (b = bin) then 1 else 0).
Proof.
  intros Hb Hbin Hr Hlt. unfold atomic_load, atomic_dec in *. case_decide as E.
  - subst. rewrite list_lookup_alter_eq. destruct (lookup_lt_is_Some_2 _ _ Hlt) as [c Hc]. rewrite Hc in *. simpl in *.
    rewrite Z.mod_small by (mach; lia). done.
  - rewrite list_lookup_alter_ne by lia. lia.
Qed.

Definition opt_slot (bin : Z) (ph : ConnectionPhase) (p : Z) (o : option ConnectionPhase) : Z :=
  match o with Some ph' => slot bin ph p ph' | None => 0 end.

Lemma tracked_move bin ph p new m :
  tracked bin ph (match new with Some ph' => <[p := ph']> m | None => delete p m end) =
  tracked bin ph m - opt_slot bin ph p (m !! p) + opt_slot bin ph p new.
Proof.
  destruct new as [ph'|]; simpl.
  - rewrite <-insert_delete_eq, tracked_insert, tracked_delete by apply lookup_delete_eq. done.
  - rewrite tracked_delete. unfold opt_slot. lia.
Qed.

Lemma opt_slot_diff bin ph p o : o ≠ Some ph → opt_slot bin ph p o = 0.
Proof. intros Ho. destruct o as [ph'|]; [|done]. simpl. unfold slot. rewrite decide_False; [done|]. naive_solver. Qed.

Lemma opt_slot_same bin ph p : opt_slot bin ph p (Some ph) = if decide (binof p = bin) then 1 else 0.
Proof. simpl. unfold slot. by repeat case_decide; naive_solver. Qed.

(** A peer moves from the phase it is tracked in to another (or to none); the
    slot of the old phase is given back, or leaks. *)
Lemma cap_move n lk r r' p old new (leak : bool) :
  cap_ok n lk r → Z.of_nat n < u64_max → kd_phases r !! p = old → (∀ ph, old = Some ph → new ≠ Some ph) →
  kd_phases r' = match new with Some ph => <[p := ph]> (kd_phases r) | None => delete p (kd_phases r) end →
  (∀ ph, counter ph r' =
     if decide (new = Some ph) then atomic_inc (counter ph r) (binof p)
     else if decide (old = Some ph ∧ leak = false) then atomic_dec (counter ph r) (binof p) else counter ph r) →
  cap_ok (S n) (lk ++ match old with Some ph => if leak then [(binof p, ph)] else [] | None => [] end) r'.
Proof.
  intros [Hl Hc Hb] Hn Hold Hne Hph Hcnt. pose proof (binof_range p) as Hp.
  assert (Hlt : ∀ ph, (Z.to_nat (binof p) < length (counter ph r))%nat) by (intros ph; rewrite Hl; unfold num_bins; lia).
  assert (Hlk : ∀ bin ph, Z.of_nat (length (filter (λ x, x = (bin, ph))
    (lk ++ match old with Some ph => if leak then [(binof p, ph)] else [] | None => [] end))) =
    Z.of_nat (length (filter (λ x, x = (bin, ph)) lk)) + (if leak then opt_slot bin ph p old else 0)).
  { intros bin ph. rewrite filter_app, length_app. destruct old as [ph'|], leak; simpl; rewrite ?Nat.add_0_r; try lia.
    unfold slot. rewrite filter_cons, filter_nil. repeat case_decide; simpl; try lia; exfalso; naive_solver. }
  assert (Hload : ∀ bin ph, 0 <= bin <= max_po → atomic_load (counter ph r') bin =
    atomic_load (counter ph r) bin + opt_slot bin ph p new - (if leak then 0 else opt_slot bin ph p old)).
  { intros bin ph Hbin. rewrite Hcnt. pose proof (Hc (binof p) ph Hp) as Hcp. pose proof (Hb (binof p) ph Hp).
    pose proof (tracked_nonneg (binof p) ph (kd_phases r)).
    destruct (decide (new = Some ph)) as [Hnew|Hnew].
    - rewrite load_inc by (done || lia). rewrite Hnew, opt_slot_same.
      rewrite (opt_slot_diff bin ph p old) by naive_solver. destruct leak; lia.
    - rewrite (opt_slot_diff bin ph p new) by done.
      destruct (decide (old = Some ph ∧ leak = false)) as [Ho|Ho].
      + destruct Ho as [Ho ->]. rewrite load_dec; [rewrite Ho, opt_slot_same; lia|lia|lia| |done].
        pose proof (tracked_delete (binof p) ph p (kd_phases r)) as Hd. rewrite Hold, Ho in Hd.
        pose proof (opt_slot_same (binof p) ph p) as Hs. simpl in Hs. rewrite Hs, decide_True in Hd by done.
        pose proof (tracked_nonneg (binof p) ph (delete p (kd_phases r))). lia.
      + destruct leak; [lia|]. rewrite (opt_slot_diff bin ph p old) by naive_solver. lia. }
  split.
  - intros ph. rewrite Hcnt. repeat case_decide; unfold atomic_inc, atomic_dec; rewrite ?length_alter; apply Hl.
  - intros bin ph Hbin. rewrite Hload, Hc, Hlk, Hph, tracked_move, Hold by done. destruct leak; lia.
  - intros bin ph Hbin. rewrite Hload by done. specialize (Hb bin ph Hbin).
    assert (0 <= opt_slot bin ph p old ∧ opt_slot bin ph p new <= 1).
    { unfold opt_slot, slot. destruct old, new; repeat case_decide; lia. }
    destruct leak; lia.
Qed.

(** An operation that leaves counters and phases alone. *)
Lemma cap_same n lk r r' :
  cap_ok n lk r → kd_phases r' = kd_phases r → (∀ ph, counter ph r' = counter ph r) → cap_ok (S n) lk r'.
Proof.
  intros [Hl Hc Hb] Hph Hcnt. split; intros; rewrite ?Hcnt, ?Hph; [apply Hl|by apply Hc|]. specialize (Hb bin ph H). lia.
Qed.

Lemma publish_capacity now r :
  kd_phases (publish_depth_at now r).2 = kd_phases r ∧ ∀ ph, counter ph (publish_depth_at now r).2 = counter ph r.
Proof.
  unfold publish_depth_at. case_decide; [by split; [|intros []]|]. case_decide; [by split; [|intros []]|].
  destruct (kd_pending_lower r); [case_decide|]; by split; [|intros []].
Qed.

Lemma stability_capacity now r :
  kd_phases (update_neighborhood_stability now r) = kd_phases r ∧
  ∀ ph, counter ph (update_neighborhood_stability now r) = counter ph r.
Proof.
  unfold update_neighborhood_stability. destruct (_ && _); [|by split; [|intros []]].
  destruct (kd_stable r) as [[d since]|]; [case_decide|]; by split; [|intros []].
Qed.

(** A forgetting release: the slot goes back when the phase is the expected
    one and leaks otherwise. *)
Lemma cap_release n lk r r' p ph0 :
  cap_ok n lk r → Z.of_nat n < u64_max → kd_phases r' = delete p (kd_phases r) →
  (∀ ph, counter ph r' =
     if decide (ph = ph0 ∧ kd_phases r !! p = Some ph0) then atomic_dec (counter ph r) (binof p) else counter ph r) →
  cap_ok (S n) (lk ++ option_list (match kd_phases r !! p with
                                   | Some ph => if decide (ph = ph0) then None else Some (binof p, ph)
                                   | None => None end)) r'.
Proof.
  intros Hok Hn Hph Hcnt.
  pose proof (cap_move n lk r r' p _ None (bool_decide (kd_phases r !! p ≠ Some ph0)) Hok Hn eq_refl
    (λ _ _, ltac:(done)) Hph) as Hm. ospecialize* Hm.
  { intros ph. rewrite Hcnt, (decide_False (P:=None = Some ph)) by done.
    destruct (decide (kd_phases r !! p = Some ph0)) as [E|E].
    - rewrite bool_decide_eq_false_2 by naive_solver. apply decide_ext. rewrite E. naive_solver.
    - rewrite decide_False by naive_solver. rewrite decide_False; [done|]. rewrite bool_decide_eq_false. naive_solver. }
  destruct (kd_phases r !! p) as [ph|]; [|done]. destruct (decide (ph = ph0)) as [E|E].
  - subst. by rewrite bool_decide_eq_false_2 in Hm by naive_solver.
  - by rewrite bool_decide_eq_true_2 in Hm by naive_solver.
Qed.

Lemma connected_capacity now i r :
  let r' := update_neighborhood_stability now (publish_depth_at now (set_connected i r)).2 in
  kd_phases r' = kd_phases r ∧ ∀ ph, counter ph r' = counter ph r.
Proof.
  simpl. destruct (stability_capacity now (publish_depth_at now (set_connected i r)).2) as [-> H1].
  destruct (publish_capacity now (set_connected i r)) as [-> H2]. split; [done|]. intros ph. rewrite H1, H2. by destruct ph.
Qed.

Lemma depth_op_cap n lk r op :
  match op with Connected _ _ | PeerGone _ _ | RemovePeer _ _ | RefreshDepth _ => True | _ => False end →
  cap_ok n lk r → cap_ok (S n) lk (routing_step r op).
Proof.
  intros Hop Hok. destruct op as [| | | | | | |p now|p now|p now|now]; simpl; try done.
  - unfold peer_connected. destruct (add _ _ _ _) as [[] i]; [|by eapply cap_same].
    by eapply cap_same; [|apply connected_capacity..].
  - unfold peer_disconnected. destruct (remove _ _ _ _) as [[] i]; [|by eapply cap_same].
    by eapply cap_same; [|apply connected_capacity..].
  - unfold remove_peer. eapply cap_same; [done|by rewrite (proj1 (stability_capacity _ _))|].
    intros ph. rewrite (proj2 (stability_capacity _ _)). by destruct ph.
  - unfold refresh_depth_at. pose proof (publish_capacity now r) as [Hp Hc].
    destruct (publish_depth_at now r) as [[] r']; simpl in *; [|by eapply cap_same].
    eapply cap_same; [done|by rewrite (proj1 (stability_capacity _ _))|].
    intros ph. by rewrite (proj2 (stability_capacity _ _)).
Qed.

Lemma routing_step_cap n lk r op :
  cap_ok n lk r → Z.of_nat n < u64_max → cap_ok (S n) (lk ++ option_list (leak_of r op)) (routing_step r op).
Proof.
  intros Hok Hn. destruct op as [p|p|p|p|p|p|p|p now|p now|p now|now];
    try (rewrite app_nil_r; by apply depth_op_cap).
  all: cbn [leak_of routing_step option_list].
  - unfold try_reserve_dial. destruct (kd_phases r !! p) eqn:E; [rewrite app_nil_r; by eapply cap_same|].
    destruct (needs_more _ _ _ _); [|rewrite app_nil_r; by eapply cap_same].
    by eapply (cap_move n lk r _ p None (Some Dialing) false); try done; intros [].
  - pose proof (cap_release n lk r (release_dial p r) p Dialing Hok Hn eq_refl) as Hm. ospecialize* Hm.
    { intros []; unfold release_dial; simpl; repeat case_decide; naive_solver. }
    by destruct (kd_phases r !! p) as [[]|].
  - unfold dial_connected. case_decide; [|rewrite app_nil_r; by eapply cap_same].
    eapply (cap_move n lk r _ p (Some Dialing) (Some Handshaking) false); try done; [congruence|by intros []].
  - unfold handshake_completed. case_decide; [|rewrite app_nil_r; by eapply cap_same].
    eapply (cap_move n lk r _ p (Some Handshaking) (Some Active) false); try done; [congruence|by intros []].
  - pose proof (cap_release n lk r (release_handshake p r) p Handshaking Hok Hn eq_refl) as Hm. ospecialize* Hm.
    { intros []; unfold release_handshake; simpl; repeat case_decide; naive_solver. }
    by destruct (kd_phases r !! p) as [[]|].
  - unfold disconnected. destruct (kd_phases r !! p) as [ph|] eqn:E; [|rewrite app_nil_r; by eapply cap_same].
    pose proof (cap_move n lk r) as Hm. specialize (Hm (disconnected p r) p (Some ph) None false Hok Hn E ltac:(done)).
    unfold disconnected in Hm. rewrite E in Hm. destruct ph; apply Hm; try done; by intros [].
  - unfold reserve_inbound. destruct (kd_phases r !! p) eqn:E; [rewrite app_nil_r; by eapply cap_same|].
    by eapply (cap_move n lk r _ p None (Some Handshaking) false); try done; intros [].
Qed.

Lemma routing_run_cap ops : ∀ n lk r, cap_ok n lk r → Z.of_nat n + Z.of_nat (length ops) <= u64_max →
  cap_ok (n + length ops) (lk ++ leaks r ops) (foldl routing_step r ops).
Proof.
  induction ops as [|op ops IH]; intros n lk r Hok Hn; simpl in *; [by rewrite Nat.add_0_r, app_nil_r|].
  replace (n + S (length ops))%nat with (S n + length ops)%nat by lia. rewrite app_assoc.
  apply IH; [|lia]. apply routing_step_cap; [done|lia].
Qed.

Lemma cap_new l w pw now : cap_ok 0 [] (routing_new l w pw now).
Proof.
  assert (Hc : ∀ ph, counter ph (routing_new l w pw now) = replicate (num_bins max_po) 0) by (by intros []).
  split; intros; rewrite Hc.
  - by rewrite length_replicate.
  - unfold atomic_load. rewrite filter_nil. unfold tracked. simpl. rewrite map_sumZ_empty.
    destruct (_ !! _) eqn:E; [|done]. by apply lookup_replicate in E as [-> _].
  - unfold atomic_load. destruct (_ !! _) eqn:E; [|done]. by apply lookup_replicate in E as [-> _].
Qed.

(** C30: The slot counters of the routing table are exact up to the slots
    that a release leaks: after any sequence of reservations, phase changes,
    releases, disconnections and depth updates from a new table, the dialing,
    handshaking and active counters of every bin equal the number of peers of
    that bin tracked in that phase plus the slots leaked by a [release_dial] or
    [release_handshake] that found the peer in another phase.  In particular
    they are exact, and never wrap, when releases find the phase they expect. *)
Theorem capacity_counts_exact l w pw now ops bin ph :
  Z.of_nat (length ops) <= u64_max → 0 <= bin <= max_po →
  let r := routing_new l w pw now in
  let r' := foldl routing_step r ops in
  atomic_load (counter ph r') bin =
    tracked bin ph (kd_phases r') + Z.of_nat (length (filter (λ x, x = (bin, ph)) (leaks r ops))).
Proof.
  intros Hlen Hbin r r'. pose proof (routing_run_cap ops 0 [] r (cap_new _ _ _ _) ltac:(lia)) as [_ Hc _]. by apply Hc.
Qed.

End capacity.

(** ** Depth hysteresis *)

Definition raw_depth r : Z := recalc_depth (bin_sizes (kd_connected r)) r.
Definition missing_below (depth : Z) r : Z := saturation_deficit_below depth (bin_sizes (kd_connected r)) r.

(** The clock reading and the table with which an operation publishes the depth. *)
Definition publish_point r (op : RoutingOp) : option (Z * KademliaRouting) :=
  match op with
  | Connected p now =>
      match add proximity max_po p (kd_connected r) with (Ok _, i) => Some (now, set_connected i r) | (Err _, _) => None end
  | PeerGone p now =>
      match remove proximity max_po p (kd_connected r) with (true, i) => Some (now, set_connected i r) | (false, _) => None end
  | RefreshDepth now => Some (now, r)
  | _ => None
  end.

(** The depths the publications saw, with their times. *)
Fixpoint depth_log r (ops : list RoutingOp) : list (Z * Z) :=
  match ops with
  | [] => []
  | op :: ops =>
      option_list ((λ x, (x.1, raw_depth x.2)) <$> publish_point r op) ++ depth_log (routing_step r op) ops
  end.

Lemma stability_depth now r :
  let r' := update_neighborhood_stability now r in
  kd_depth r' = kd_depth r ∧ kd_pending_lower r' = kd_pending_lower r ∧ kd_lower_window r' = kd_lower_window r.
Proof.
  simpl. unfold update_neighborhood_stability. destruct (_ && _); [|done].
  destruct (kd_stable r) as [[d since]|]; [case_decide|]; done.
Qed.

(** What an operation does to the depth is what its publication does. *)
Lemma routing_step_depth r op :
  let r' := routing_step r op in
  match publish_point r op with
  | Some (now, rp) =>
      kd_depth rp = kd_depth r ∧ kd_pending_lower rp = kd_pending_lower r ∧ kd_lower_window rp = kd_lower_window r ∧
      kd_depth r' = kd_depth (publish_depth_at now rp).2 ∧ kd_pending_lower r' = kd_pending_lower (publish_depth_at now rp).2
  | None => kd_depth r' = kd_depth r ∧ kd_pending_lower r' = kd_pending_lower r
  end.
Proof.
  destruct op as [p|p|p|p|p|p|p|p now|p now|p now|now]; simpl.
  - unfold try_reserve_dial. destruct (_ !! _); [done|]. by destruct (needs_more _ _ _ _).
  - done.
  - unfold dial_connected. by case_decide.
  - unfold handshake_completed. by case_decide.
  - done.
  - unfold disconnected. by destruct (_ !! _) as [[]|].
  - unfold reserve_inbound. by destruct (_ !! _).
  - unfold peer_connected. destruct (add _ _ _ _) as [[] i]; [|done].
    destruct (stability_depth now (publish_depth_at now (set_connected i r)).2) as (H1&H2&_). done.
  - unfold peer_disconnected. destruct (remove _ _ _ _) as [[] i]; [|done].
    destruct (stability_depth now (publish_depth_at now (set_connected i r)).2) as (H1&H2&_). done.
  - unfold remove_peer. destruct (stability_depth now (set_connected (remove proximity max_po p (kd_connected r)).2 r)) as (H1&H2&_). done.
  - unfold refresh_depth_at. destruct (publish_depth_at now r) as [[] r'] eqn:E; [|done].
    destruct (stability_depth now r') as (H1&H2&_). done.
Qed.

(** A pending lowering dates from a publication, and every publication since
    then saw a depth below the published one. *)
Definition pending_inv (log : list (Z * Z)) r : Prop :=
  ∀ since, kd_pending_lower r = Some since →
    ∃ l1 raw l2, log = l1 ++ (since, raw) :: l2 ∧ Forall (λ o, o.2 < kd_depth r) ((since, raw) :: l2).

Lemma pending_inv_step log r op :
  pending_inv log r →
  pending_inv (log ++ option_list ((λ x, (x.1, raw_depth x.2)) <$> publish_point r op)) (routing_step r op).
Proof.
  intros Hinv since Hs. pose proof (routing_step_depth r op) as Hd. simpl in Hd.
  destruct (publish_point r op) as [[now rp]|]; simpl in *.
  2: { destruct Hd as [Hd Hp]. rewrite Hp in Hs. destruct (Hinv _ Hs) as (l1&raw&l2&->&Hf).
       exists l1, raw, l2. by rewrite app_nil_r, Hd. }
  destruct Hd as (Hrp&Hpend&_&Hd&Hp). rewrite Hp in Hs. rewrite Hd. clear Hd Hp. unfold publish_depth_at in *.
  fold (raw_depth rp) in *. case_decide; [done|]. case_decide; [done|]. rewrite Hpend in *.
  destruct (kd_pending_lower r) as [s|] eqn:E; [case_decide; [done|]|].
  - simpl in *. rewrite Hpend in Hs. injection Hs as <-. destruct (Hinv _ E) as (l1&raw&l2&->&Hf).
    exists l1, raw, (l2 ++ [(now, raw_depth rp)]). rewrite <-app_assoc. split; [done|].
    rewrite app_comm_cons. apply Forall_app. rewrite Hrp in *. split; [done|]. constructor; [simpl; lia|done].
  - simpl in *. injection Hs as <-. exists log, (raw_depth rp), []. split; [done|]. constructor; [simpl; lia|done].
Qed.

Lemma pending_inv_run ops : ∀ log r, pending_inv log r → pending_inv (log ++ depth_log r ops) (foldl routing_step r ops).
Proof.
  induction ops as [|op ops IH]; intros log r Hinv; simpl; [by rewrite app_nil_r|].
  rewrite app_assoc. by apply IH, pending_inv_step.
Qed.

(** The published depth follows the recomputed one with a one-sided
    hysteresis.  After any history, an operation that does not publish leaves
    the depth alone.  One that publishes raises the depth at once.  It lowers the
    depth only to the recomputed value, and only when more than one peer is
    missing below the published depth, or when a run of publications, the first
    at least the window ago, all saw a lower depth; otherwise the depth is held
    and the lowering stays pending. *)
Theorem depth_hysteresis l w pw t0 ops op :
  let r0 := routing_new l w pw t0 in
  let r := foldl routing_step r0 ops in
  let r' := routing_step r op in
  match publish_point r op with
  | None => kd_depth r' = kd_depth r
  | Some (now, rp) =>
      (kd_depth r <= raw_depth rp → kd_depth r' = raw_depth rp) ∧
      (raw_depth rp < kd_depth r →
         (kd_depth r' = raw_depth rp ∧
            (DEPTH_LOWER_DEFICIT_TOLERANCE < missing_below (kd_depth r) rp ∨
             ∃ l1 since raw l2, depth_log r0 ops = l1 ++ (since, raw) :: l2 ∧ kd_lower_window r <= now - since ∧
               Forall (λ o, o.2 < kd_depth r) ((since, raw) :: l2))) ∨
         (kd_depth r' = kd_depth r ∧ missing_below (kd_depth r) rp <= DEPTH_LOWER_DEFICIT_TOLERANCE ∧
            ∃ since, kd_pending_lower r' = Some since ∧ (since = now ∨ now - since < kd_lower_window r)))
  end.
Proof.
  intros r0 r r'. pose proof (pending_inv_run ops [] r0 ltac:(done)) as Hinv. fold r in Hinv.
  pose proof (routing_step_depth r op) as Hd. simpl in Hd. destruct (publish_point r op) as [[now rp]|]; [|by destruct Hd].
  destruct Hd as (Hrp&Hpend&Hw&Hd&Hp). subst r'. rewrite Hd, Hp. clear Hd Hp. unfold publish_depth_at.
  fold (raw_depth rp) (missing_below (kd_depth rp) rp). rewrite Hrp, Hw, Hpend in *.
  case_decide; [split; [done|lia]|]. split; [lia|]. intros Hlow. case_decide; [by left; split; [|left]|].
  destruct (kd_pending_lower r) as [s|] eqn:E; [case_decide|].
  - left. split; [done|]. right. destruct (Hinv _ E) as (l1&raw&l2&Hl&Hf). by exists l1, s, raw, l2.
  - right. simpl. split; [done|]. split; [lia|]. exists s. split; [done|]. right. lia.
  - right. simpl. split; [done|]. split; [lia|]. exists now. auto.
Qed.

(** ** Trimming *)

(** The contract of [Ord]: a total preorder. *)
Definition comparator (cmp : Z → Z → comparison) : Prop :=
  (∀ a b, cmp b a = CompOpp (cmp a b)) ∧ (∀ a b c, cmp a b ≠ Gt → cmp b c ≠ Gt → cmp a c ≠ Gt).

Lemma comparator_lex c1 c2 : comparator c1 → comparator c2 → comparator (λ a b, then_with (c1 a b) (c2 a b)).
Proof.
  intros [A1 T1] [A2 T2]. split.
  - intros a b. rewrite (A1 a b), (A2 a b). by destruct (c1 a b).
  - intros a b c Hab Hbc.
    pose proof (T1 a b c) as H1. pose proof (T1 c b a) as H2. pose proof (T1 b c a) as H3. pose proof (T1 c a b) as H4.
    pose proof (T2 a b c) as H5. rewrite (A1 a b), (A1 b c), (A1 a c) in *.
    destruct (c1 a b), (c1 b c), (c1 a c); simpl in *; try done; try (by apply H5);
      exfalso; first [by apply H1|by apply H2|by apply H3|by apply H4].
Qed.

Lemma swap_remove_perm n v l : l !! n = Some v → l ≡ₚ v :: swap_remove n l.
Proof.
  intros Hn. unfold swap_remove. destruct (last l) as [z|] eqn:Hz.
  2: { apply last_None in Hz. by subst. }
  apply last_Some in Hz as [l' ->]. rewrite length_app. simpl. replace (length l' + 1 - 1)%nat with (length l') by lia.
  apply lookup_app_Some in Hn as [Hn|[Hle Hn]].
  - pose proof (lookup_lt_Some _ _ _ Hn). rewrite insert_app_l, take_app_length' by (rewrite ?length_insert; lia).
    rewrite insert_take_drop by done. rewrite <-(take_drop_middle _ _ _ Hn) at 1. solve_Permutation.
  - apply list_lookup_singleton_Some in Hn as [Hn ->]. replace n with (length l' + 0)%nat by lia.
    rewrite insert_app_r. simpl. rewrite take_app_length. by rewrite Permutation_app_comm.
Qed.

(** The fold behind [min_index] keeps a minimum of what it has seen. *)
Lemma min_fold pool : comparator by_rank_then_score → ∀ (l : list (nat * Z)) best,
  let pick := foldl (λ best x, match best with
                               | Some b => match victim_cmp pool b.2 x.2 with Gt => Some x | _ => best end
                               | None => Some x
                               end) best l in
  match pick with
  | None => best = None ∧ l = []
  | Some m => (Some m = best ∨ m ∈ l) ∧ (∀ x, Some x = best ∨ x ∈ l → by_rank_then_score m.2 x.2 ≠ Gt)
  end.
Proof.
  intros [Ha Ht]. assert (Hr : ∀ a, by_rank_then_score a a ≠ Gt).
  { intros a E. pose proof (Ha a a) as H. by rewrite E in H. }
  induction l as [|y l IH]; intros best; simpl.
  - destruct best as [m|]; [|done]. split; [by left|]. intros x [[= ->]|[]%not_elem_of_nil]. apply Hr.
  - set (best' := match best with Some b => _ | None => _ end). specialize (IH best'). simpl in IH.
    destruct (foldl _ best' l) as [m|].
    2: { destruct IH as [IH _]. unfold best' in IH. destruct best as [b|]; [|done]. by destruct (victim_cmp pool b.2 y.2). }
    destruct IH as [Hm Hle].
    assert (Hb : ∃ b, best' = Some b ∧ (best' = best ∨ b = y) ∧ by_rank_then_score b.2 y.2 ≠ Gt ∧
      ∀ x, Some x = best → by_rank_then_score b.2 x.2 ≠ Gt).
    { unfold best'. destruct best as [b|]; [|exists y; split; [done|]; split; [by right|]; by split].
      destruct (victim_cmp pool b.2 y.2) eqn:E.
      1,2: exists b; split; [done|]; split; [by left|]; split; [|by intros x [= ->]];
        intros E'; unfold victim_cmp in E; by rewrite E' in E.
      exists y. split; [done|]. split; [by right|]. split; [done|]. intros x [= ->]. rewrite (Ha b.2 y.2).
      unfold victim_cmp in E. by destruct (by_rank_then_score b.2 y.2). }
    destruct Hb as (b&Hb&Hor&Hby&Hbx). split.
    + destruct Hm as [Hm|Hm]; [|right; by right]. destruct Hor as [Hbb| ->]; [left; by rewrite <-Hbb|]. right. rewrite Hb in Hm.
      injection Hm as ->. by left.
    + intros x [Hx|[->|Hx]%elem_of_cons]; [| |by apply Hle; right];
        (eapply Ht; [apply Hle; left; symmetry; exact Hb|auto]).
Qed.

Lemma min_index_spec pool : comparator by_rank_then_score → pool ≠ [] →
  ∃ n v, min_index pool = Some n ∧ pool !! n = Some v ∧ ∀ x, x ∈ pool → by_rank_then_score v x ≠ Gt.
Proof.
  intros Hc Hne. unfold min_index. pose proof (min_fold pool Hc (imap pair pool) None) as H. simpl in H.
  destruct (foldl _ None _) as [[n v]|].
  - destruct H as [[?|Hm] Hle]; [done|]. exists n, v. split; [done|].
    apply elem_of_lookup_imap in Hm as (i&x&[= -> ->]&Hi). split; [done|].
    intros y [j Hj]%list_elem_of_lookup. apply (Hle (j, y)). right. apply elem_of_lookup_imap. eauto.
  - destruct H as [_ H]. destruct pool; [done|]. by rewrite imap_cons in H.
Qed.

Lemma trim_loop_spec count : comparator by_rank_then_score → ∀ pool, (count <= length pool)%nat →
  ∃ rest, pool ≡ₚ trim_loop count pool ++ rest ∧ length (trim_loop count pool) = count ∧
    ∀ v s, v ∈ trim_loop count pool → s ∈ rest → by_rank_then_score v s ≠ Gt.
Proof.
  intros Hc. induction count as [|count IH]; intros pool Hlen; simpl.
  - exists pool. split; [done|]. split; [done|]. by intros v s ?%not_elem_of_nil.
  - destruct (min_index_spec pool Hc) as (n&v&->&Hn&Hle); [by intros ->; simpl in Hlen; lia|]. rewrite Hn.
    pose proof (swap_remove_perm n v pool Hn) as Hp. pose proof (Permutation_length Hp) as Hl. simpl in Hl.
    destruct (IH (swap_remove n pool)) as (rest&Hr&Hlr&Hs); [lia|]. exists rest. split; [by rewrite Hp, Hr at 1|].
    split; [simpl; lia|]. intros a s [->|Ha]%elem_of_cons Hin; [|by eapply Hs].
    apply Hle. rewrite Hp, Hr. set_solver.
Qed.

Lemma select_trim_spec pool count : comparator by_rank_then_score → 0 <= count →
  ∃ rest, pool ≡ₚ select_trim_victims pool count ++ rest ∧
    Z.of_nat (length (select_trim_victims pool count)) = Z.min count (Z.of_nat (length pool)) ∧
    ∀ v s, v ∈ select_trim_victims pool count → s ∈ rest → by_rank_then_score v s ≠ Gt.
Proof.
  intros Hc H0. unfold select_trim_victims. case_decide.
  - exists []. rewrite app_nil_r. split; [done|]. split; [lia|]. by intros v s _ ?%not_elem_of_nil.
  - destruct (trim_loop_spec (Z.to_nat count) Hc pool) as (rest&Hp&Hl&Hs); [lia|]. exists rest. split; [done|].
    split; [lia|done].
Qed.

Lemma tracked_length bin ph m : ∀ l, NoDup l → (∀ p, p ∈ l ↔ m !! p = Some ph ∧ binof p = bin) →
  tracked bin ph m = Z.of_nat (length l).
Proof.
  induction m as [|p ph' m Hp IH] using map_ind; intros l Hnd Hl.
  - unfold tracked. rewrite map_sumZ_empty. destruct l as [|p l]; [done|]. exfalso.
    destruct (proj1 (Hl p) ltac:(by left)) as [H _]. by rewrite lookup_empty in H.
  - rewrite tracked_insert by done. unfold slot. case_decide as E.
    + destruct E as [-> E]. assert (p ∈ l) as Hin by (apply Hl; by rewrite lookup_insert_eq).
      apply elem_of_Permutation in Hin as [l' Hp']. rewrite Hp' in Hnd. apply NoDup_cons in Hnd as [Hni Hnd].
      rewrite (IH l' Hnd), (Permutation_length Hp'); [simpl; lia|]. intros q. specialize (Hl q). rewrite Hp' in Hl.
      destruct (decide (q = p)) as [->|Hne]; [rewrite Hp; naive_solver|].
      rewrite lookup_insert_ne in Hl by done. rewrite <-Hl. set_solver.
    + rewrite (IH l Hnd); [lia|]. intros q. rewrite Hl. destruct (decide (q = p)) as [->|Hne].
      * rewrite lookup_insert_eq, Hp. naive_solver.
      * by rewrite lookup_insert_ne.
Qed.

(** A table whose counters are exact for a bin, and whose connected peers are
    the active ones. *)
Record bin_exact (order : list Z) (bin : Z) r : Prop := {
  be_order : NoDup order;
  be_tracked : ∀ p ph, kd_phases r !! p = Some ph → p ∈ order;
  be_counts : ∀ ph, atomic_load (counter ph r) bin = tracked bin ph (kd_phases r);
  be_nodup : NoDup (peers_in_bin bin (kd_connected r));
  be_active : ∀ p, p ∈ peers_in_bin bin (kd_connected r) ↔ kd_phases r !! p = Some Active ∧ binof p = bin;
}.

Lemma evictable_exact order bin r : bin_exact order bin r →
  evictable_count bin r =
    Z.of_nat (length (handshaking_in order bin r)) + Z.of_nat (length (peers_in_bin bin (kd_connected r))).
Proof.
  intros [Ho Ht Hc Hn Ha]. unfold evictable_count. rewrite (Hc Handshaking : atomic_load (kd_handshaking r) bin = _).
  rewrite (Hc Active : atomic_load (kd_active r) bin = _), (tracked_length _ _ _ _ Hn Ha). f_equal.
  apply tracked_length; [by apply NoDup_filter|]. intros p. unfold handshaking_in. rewrite list_elem_of_filter. naive_solver.
Qed.

(** The two parts of a bin's candidates: handshaking peers, then connected ones. *)
Lemma bin_candidates_split order bin r :
  comparator by_rank_then_score → bin_exact order bin r → 0 <= dl_saturation (kd_limits r) → bin_candidates order bin r ≠ [] →
  let kept := Z.max (target bin (kd_depth r) (kd_limits r)) (oversaturation (kd_limits r)) in
  let hs := handshaking_in order bin r in
  ∃ hs' av rest, bin_candidates order bin r = ((λ p, mkCandidate p bin Handshaking) <$> hs') ++ ((λ p, mkCandidate p bin Active) <$> av) ∧
    hs' `sublist_of` hs ∧ peers_in_bin bin (kd_connected r) ≡ₚ av ++ rest ∧ (av = [] ∨ hs' = hs) ∧
    (∀ v s, v ∈ av → s ∈ rest → by_rank_then_score v s ≠ Gt) ∧
    evictable_count bin r - Z.of_nat (length (bin_candidates order bin r)) = kept.
Proof.
  intros Hc He Hsat Hne kept hs. pose proof (evictable_exact _ _ _ He) as Hev. unfold bin_candidates in *.
  set (extra := surplus _ _ _ _) in *. case_decide as E0; [done|].
  assert (Hx : extra = evictable_count bin r - kept ∧ 0 < extra).
  { unfold extra, surplus in *. case_decide; [done|]. unfold kept. mach. lia. }
  assert (Hk : 0 <= kept) by (unfold kept, oversaturation; lia). fold hs in Hev |- *. clear Hne.
  set (act := peers_in_bin bin (kd_connected r)) in *.
  destruct (decide (length hs <= Z.to_nat extra)%nat) as [Hle|Hgt].
  - rewrite take_ge by done. case_decide as E1; rewrite length_app, length_fmap.
    + destruct (select_trim_spec act (extra - Z.of_nat (length hs)) Hc) as (rest&Hp&Hl&Hs); [lia|].
      exists hs, (select_trim_victims act (extra - Z.of_nat (length hs))), rest. split_and!; [done|reflexivity|done|by right|done|].
      rewrite length_fmap. lia.
    + exists hs, [], act. split_and!; [done|reflexivity|done|by left|by intros v s ?%not_elem_of_nil|]. simpl. lia.
  - rewrite length_take, decide_False by lia. rewrite length_app, length_fmap, length_take. exists (take (Z.to_nat extra) hs), [], act.
    split_and!; [done|apply sublist_take|done|by left|by intros v s ?%not_elem_of_nil|]. simpl. lia.
Qed.

(** Trimming an oversaturated bin evicts exactly its surplus and no more:
    with exact counters, the candidates chosen for a bin are distinct
    connections of that bin, as many as the surplus over the larger of the
    target and the oversaturation level (none in a neighbourhood bin), so at
    least the saturation level stays; connected peers are evicted only once every
    handshaking peer of the bin is, and then no connected peer is evicted
    while one of lower rank, or equal rank and lower score, is kept. *)
Theorem trim_evicts_surplus order bin r :
  comparator rank_cmp → comparator (λ a b, default Eq (score_cmp a b)) →
  bin_exact order bin r → 0 <= dl_saturation (kd_limits r) →
  let cs := bin_candidates order bin r in
  let kept := Z.max (target bin (kd_depth r) (kd_limits r)) (oversaturation (kd_limits r)) in
  NoDup (ec_overlay <$> cs) ∧
  (∀ c, c ∈ cs → ec_bin c = bin ∧ kd_phases r !! ec_overlay c = Some (ec_phase c) ∧ binof (ec_overlay c) = bin) ∧
  (cs = [] ∨ (evictable_count bin r - Z.of_nat (length cs) = kept ∧ dl_saturation (kd_limits r) <= kept)) ∧
  (∀ c, c ∈ cs → ec_phase c = Active →
     (∀ p, kd_phases r !! p = Some Handshaking → binof p = bin → p ∈ ec_overlay <$> cs) ∧
     (∀ p, kd_phases r !! p = Some Active → binof p = bin → p ∉ ec_overlay <$> cs → by_rank_then_score (ec_overlay c) p ≠ Gt)).
Proof.
  intros Hr Hs He Hsat cs kept. pose proof (comparator_lex _ _ Hr Hs) as Hc.
  destruct (decide (cs = [])) as [E0|Hne].
  { rewrite E0. split; [constructor|]. split; [by intros c ?%not_elem_of_nil|].
    split; [by left|by intros c ?%not_elem_of_nil]. }
  destruct (bin_candidates_split order bin r Hc He Hsat Hne) as (hs'&av&rest&Hcs&Hsub&Hp&Hor&Hlow&Hlen).
  fold cs in Hcs, Hlen. destruct He as [Ho Ht _ Hn Ha].
  assert (Hhs : ∀ p, p ∈ handshaking_in order bin r ↔ kd_phases r !! p = Some Handshaking ∧ binof p = bin).
  { intros p. unfold handshaking_in. rewrite list_elem_of_filter. naive_solver. }
  assert (Hov : ec_overlay <$> cs = hs' ++ av).
  { rewrite Hcs, fmap_app, <-!list_fmap_compose. by rewrite !list_fmap_id. }
  assert (Hh' : ∀ p, p ∈ hs' → kd_phases r !! p = Some Handshaking ∧ binof p = bin).
  { intros p Hin. apply Hhs. by eapply elem_of_sublist. }
  assert (Hav : ∀ p, p ∈ av → kd_phases r !! p = Some Active ∧ binof p = bin).
  { intros p Hin. apply Ha. rewrite Hp. set_solver. }
  split; [|split; [|split]].
  - rewrite Hov. apply NoDup_app. split; [eapply sublist_NoDup; [|done]; by apply NoDup_filter|].
    split; [|by rewrite Hp in Hn; apply NoDup_app in Hn as [? _]].
    intros p [H1 _]%Hh' [H2 _]%Hav. congruence.
  - intros c. rewrite Hcs. intros [(p&->&Hin)%list_elem_of_fmap|(p&->&Hin)%list_elem_of_fmap]%elem_of_app; split; auto.
  - right. split; [done|]. unfold kept, oversaturation. lia.
  - intros c Hin Hact. rewrite Hcs in Hin. apply elem_of_app in Hin as [(p&->&Hin)%list_elem_of_fmap|(v&->&Hin)%list_elem_of_fmap]; [done|].
    rewrite Hov. destruct Hor as [->|Hor]; [by apply not_elem_of_nil in Hin|]. split.
    + intros p H1 H2. apply elem_of_app. left. rewrite Hor. by apply Hhs.
    + intros p H1 H2 Hni. apply (Hlow v p Hin). assert (p ∈ av ++ rest) as Hin' by (rewrite <-Hp; by apply Ha). set_solver.
Qed.

End routing.

(** ** Concrete tables *)

Module Demo.

Definition limits : DepthAwareLimits := mkLimits 1 1 1 1 1 1.
Definition prox (p : Z) : Z := 0.

Abbreviation step := (routing_step (B:=list Z) prox 3 (λ _ _ _, 2) 2).

Definition arrive (p : Z) : list RoutingOp := [ReserveInbound p; HandshakeCompleted p; Connected p 0].

(** Three connected peers and one in its handshake, in a bin meant for one. *)
Definition crowded : KademliaRouting :=
  foldl step (routing_new 3 limits 10 10 0) (arrive 1 ++ arrive 2 ++ arrive 3 ++ [ReserveInbound 4]).

Lemma crowded_exact : bin_exact (B:=list Z) prox 3 [1; 2; 3; 4] 0 crowded.
Proof.
  assert (Hph : kd_phases crowded = <[1 := Active]> (<[2 := Active]> (<[3 := Active]> (<[4 := Handshaking]> ∅))))
    by (vm_compute; reflexivity).
  assert (Hpe : peers_in_bin 0 (kd_connected crowded) = [1; 2; 3]) by (vm_compute; reflexivity).
  split.
  - apply (bool_decide_unpack _). vm_compute. done.
  - intros p ph Hl. rewrite Hph in Hl.
    do 4 (apply lookup_insert_Some in Hl as [[<- _]|[_ Hl]]; [apply (bool_decide_unpack _); done|]). done.
  - intros []; vm_compute; done.
  - rewrite Hpe. apply (bool_decide_unpack _). vm_compute. done.
  - intros p. rewrite Hpe, Hph. split.
    + intros Hp. repeat (apply elem_of_cons in Hp as [->|Hp]; [vm_compute; split; reflexivity|]). destruct (not_elem_of_nil _ Hp).
    + intros [Hl _]. clear Hph Hpe.
      do 4 (apply lookup_insert_Some in Hl as [[<- Hx]|[_ Hl]]; [discriminate Hx || (apply (bool_decide_unpack _); vm_compute; done)|]). discriminate Hl.
Qed.

Definition by_address : Z → Z → comparison := Z.compare.

Lemma by_address_comparator : comparator by_address.
Proof.
  split; [intros a b; apply Z.compare_antisym|]. intros a b c. unfold by_address. rewrite !Z.compare_le_iff. lia.
Qed.

(** A release of a dial that finds the peer active leaks its slot: the counter
    stays at one with no peer tracked. *)
Lemma capacity_counts_exact_witness :
  let ops := [ReserveInbound 1; HandshakeCompleted 1; ReleaseDial 1] in
  let r := routing_new (B:=list Z) 3 limits 10 10 0 in
  atomic_load (counter Active (foldl step r ops)) 0 = 1 ∧ tracked prox 3 0 Active (kd_phases (foldl step r ops)) = 0 ∧
  atomic_load (counter Active (foldl step r ops)) 0 =
    tracked prox 3 0 Active (kd_phases (foldl step r ops)) +
    Z.of_nat (length (filter (λ x, x = (0, Active)) (leaks prox 3 (λ _ _ _, 2) 2 r ops))).
Proof.
  split; [vm_compute; reflexivity|]. split; [vm_compute; reflexivity|].
  apply (capacity_counts_exact prox 3 (λ _ _, 0) (λ _ _ _, 2) 2 (λ _ _, Eq) (λ _ _, None) ltac:(lia) ltac:(intros; unfold prox; lia) limits 10 10 0
    [ReserveInbound 1; HandshakeCompleted 1; ReleaseDial 1] 0 Active); simpl; mach; lia.
Defined.

Lemma trim_evicts_surplus_witness :
  ec_overlay <$> bin_candidates prox 3 (λ _ _, 0) by_address (λ _ _, None) [1; 2; 3; 4] 0 crowded = [4; 1; 2] ∧
  evictable_count 0 crowded - 3 = 1.
Proof.
  split; [vm_compute; reflexivity|].
  destruct (trim_evicts_surplus prox 3 (λ _ _, 0) (λ _ _ _, 2) by_address (λ _ _, None) [1; 2; 3; 4] 0 crowded) as (_&_&H&_).
  - exact by_address_comparator.
  - split; [done|]. intros; done.
  - exact crowded_exact.
  - vm_compute. done.
  - destruct H as [H|[H _]]; [vm_compute in H; discriminate H|exact H].
Defined.

End Demo.
