(* ===== verification/Dialer.v ===== *)
(** * The dial tracker

    [crates/net/dialer/src]: the bounded queue of pending dials and the set of
    in-flight dials ([tracker.rs]) with the short-lived backoff and the ban cache
    ([backoff.rs]), and the address preparation ([prepare.rs]).  The
    insertion-ordered map and the LRU caches are the [hashlink] crate's and are
    interfaces here; the hash that seeds the jitter, the IP version of a
    multiaddress and the caller's address filter are parameters.  An operation
    takes the clock reading it makes (in nanoseconds) and, where it walks a hash
    map, the order of the walk.

    The theorems: every peer and every identifier is tracked at most once and
    the identifier index is exact; a batch dispatches the oldest live requests
    in order and never exceeds the in-flight limit; a backoff lies within an
    eighth of its exponential value. *)

From S2P Require Import Prelude.

(** ** Third-party containers *)

(** [hashlink::LinkedHashMap]: a map that iterates in insertion order. *)
Class LinkedHashMap (V M : Type) := {
  lhm_empty : M;
  lhm_insert : Z → V → M → M;
  lhm_remove : Z → M → M;
  lhm_iter : M → list (Z * V);
  lhm_iter_empty : lhm_iter lhm_empty = [];
  lhm_iter_insert k v m : k ∉ (lhm_iter m).*1 → lhm_iter (lhm_insert k v m) = lhm_iter m ++ [(k, v)];
  lhm_iter_remove k m : lhm_iter (lhm_remove k m) = filter (λ x, x.1 ≠ k) (lhm_iter m);
}.

Definition lhm_get `{LinkedHashMap V M} (k : Z) (m : M) : option V := (list_to_map (lhm_iter m) : gmap Z V) !! k.
Definition lhm_len `{LinkedHashMap V M} (m : M) : Z := Z.of_nat (length (lhm_iter m)).

(** [hashlink::LruCache]: reads refresh an entry, an insertion may evict others. *)
Class LruCache (V C : Type) := {
  lc_new : Z → C;
  lc_get : Z → C → option V * C;
  lc_insert : Z → V → C → C;
  lc_remove : Z → C → C;
  lc_view : C → gmap Z V;
  lc_view_new n : lc_view (lc_new n) = ∅;
  lc_view_get k c : lc_get k c = (lc_view c !! k, (lc_get k c).2) ∧ lc_view (lc_get k c).2 = lc_view c;
  lc_view_insert k v c : lc_view (lc_insert k v c) ⊆ <[k := v]> (lc_view c);
  lc_view_remove k c : lc_view (lc_remove k c) = delete k (lc_view c);
}.

(** ** Backoff *)

Record BackoffEntry := mkBackoff { be_last_failure_secs : Z; be_consecutive_failures : Z }.

(** [as i64] of an unsigned value. *)
Definition as_i64 (x : Z) : Z := i64_wrap x.

Definition backoff_raw (failures base_secs max_secs : Z) : Z :=
  Z.min (u64_saturating_mul base_secs (2 ^ Z.min (failures - 1) 10)) max_secs.

(** Signed division truncates. *)
Definition backoff_secs (raw jitter_seed : Z) : Z :=
  let jitter_frac := as_i64 (jitter_seed mod 256) - 128 in
  let jitter := i64_wrap (as_i64 raw * jitter_frac) `quot` 1024 in
  Z.max (i64_wrap (as_i64 raw + jitter)) 1.

Definition backoff_remaining (e : BackoffEntry) (now_secs base_secs max_secs jitter_seed : Z) : option Z :=
  if decide (be_consecutive_failures e = 0) then None
  else
    let backoff := backoff_secs (backoff_raw (be_consecutive_failures e) base_secs max_secs) jitter_seed in
    let elapsed := u64_saturating_sub now_secs (be_last_failure_secs e) in
    if decide (backoff <= elapsed) then None else Some (backoff - elapsed).

(** ** The tracker *)

Inductive EnqueueError := AlreadyPending | AlreadyInFlight | QueueFull | InBackoff | Banned.
Inductive PrepareError := NoReachableAddresses | AlreadyTracked | PrepareInBackoff | PrepareBanned.
Inductive IpVersion := V4 | V6.

#[global] Instance IpVersion_eq_dec : EqDecision IpVersion.
Proof. solve_decision. Defined.

(** Durations are in nanoseconds, the [secs] fields in seconds. *)
Record DialTrackerConfig := mkDialConfig {
  dc_max_pending : Z;
  dc_max_in_flight : Z;
  dc_pending_ttl : Z;
  dc_in_flight_timeout : Z;
  dc_cleanup_interval : Z;
  dc_backoff_capacity : Z;
  dc_backoff_base_secs : Z;
  dc_backoff_max_secs : Z;
  dc_ban_capacity : Z;
  dc_ban_after_failures : Z;
  dc_ban_ttl_secs : Z;
}.

Section tracker.
(** Multiaddresses, the caller's data, and the containers. *)
Context {A D : Type}.

Record DialRequest := mkRequest {
  rq_id : option Z;
  rq_peer_id : Z;
  rq_addrs : list A;
  rq_data : D;
  rq_queued_at : Z;
  rq_started_at : option Z;
}.

Record DialDispatch := mkDispatch { dd_id : option Z; dd_peer_id : Z; dd_addrs : list A }.

Context `{LM : LinkedHashMap DialRequest M} `{LB : LruCache BackoffEntry CB} `{LN : LruCache Z CN}.
Context (jitter_seed_for : Z → Z) (ip_version : A → option IpVersion).

Record DialTracker := mkDialTracker {
  dt_config : DialTrackerConfig;
  dt_pending : M;
  dt_in_flight : gmap Z DialRequest;
  dt_id_index : gmap Z Z;
  dt_last_cleanup : Z;
  dt_epoch : Z;
  dt_backoff : option CB;
  dt_banned : option CN;
}.

Implicit Types (t : DialTracker) (r : DialRequest).

Definition tracker_start (c : DialTrackerConfig) (now : Z) : DialTracker :=
  mkDialTracker c lhm_empty ∅ ∅ now now
    (if decide (0 < dc_backoff_capacity c) then Some (lc_new (dc_backoff_capacity c)) else None)
    (if decide (0 < dc_ban_capacity c) then Some (lc_new (dc_ban_capacity c)) else None).

Definition with_queues (p : M) (f : gmap Z DialRequest) (i : gmap Z Z) t : DialTracker :=
  mkDialTracker (dt_config t) p f i (dt_last_cleanup t) (dt_epoch t) (dt_backoff t) (dt_banned t).

Definition with_caches (b : option CB) (n : option CN) t : DialTracker :=
  mkDialTracker (dt_config t) (dt_pending t) (dt_in_flight t) (dt_id_index t) (dt_last_cleanup t) (dt_epoch t) b n.

Definition with_last_cleanup (now : Z) t : DialTracker :=
  mkDialTracker (dt_config t) (dt_pending t) (dt_in_flight t) (dt_id_index t) now (dt_epoch t) (dt_backoff t) (dt_banned t).

(** [Instant::elapsed] saturates. *)
Definition elapsed (now since : Z) : Z := Z.max 0 (now - since).
Definition now_secs (now : Z) t : Z := elapsed now (dt_epoch t) `div` 1000000000.

Definition is_tracked (peer : Z) (id : option Z) t : bool :=
  bool_decide (is_Some (lhm_get peer (dt_pending t))) || bool_decide (is_Some (dt_in_flight t !! peer)) ||
  is_some_and (λ i, bool_decide (is_Some (dt_id_index t !! i))) id.

Definition track_id r (i : gmap Z Z) : gmap Z Z :=
  match rq_id r with Some id => <[id := rq_peer_id r]> i | None => i end.
Definition untrack_id r (i : gmap Z Z) : gmap Z Z :=
  match rq_id r with Some id => delete id i | None => i end.

Definition is_banned (id now : Z) t : bool * DialTracker :=
  match dt_banned t with
  | None => (false, t)
  | Some c =>
      match lc_get id c with
      | (None, c) => (false, with_caches (dt_backoff t) (Some c) t)
      | (Some ban_time, c) =>
          if decide (0 < dc_ban_ttl_secs (dt_config t) ∧
                     dc_ban_ttl_secs (dt_config t) <= u64_saturating_sub (now_secs now t) ban_time) then
            (false, with_caches (dt_backoff t) (Some (lc_remove id c)) t)
          else (true, with_caches (dt_backoff t) (Some c) t)
      end
  end.

Definition is_in_backoff (id now : Z) t : bool * DialTracker :=
  match dt_backoff t with
  | None => (false, t)
  | Some c =>
      match lc_get id c with
      | (None, c) => (false, with_caches (Some c) (dt_banned t) t)
      | (Some e, c) =>
          (bool_decide (is_Some (backoff_remaining e (now_secs now t) (dc_backoff_base_secs (dt_config t))
             (dc_backoff_max_secs (dt_config t)) (jitter_seed_for id))),
           with_caches (Some c) (dt_banned t) t)
      end
  end.

(** The ban check, then the backoff check, of a request with an identifier. *)
Definition check_id (id : option Z) (now : Z) t : result bool unit * DialTracker :=
  match id with
  | None => (Ok tt, t)
  | Some i =>
      let '(banned, t) := is_banned i now t in
      if banned : bool then (Err true, t)
      else let '(waiting, t) := is_in_backoff i now t in
           if waiting : bool then (Err false, t) else (Ok tt, t)
  end.

Definition enqueue r (now : Z) t : result EnqueueError unit * DialTracker :=
  match check_id (rq_id r) now t with
  | (Err true, t) => (Err Banned, t)
  | (Err false, t) => (Err InBackoff, t)
  | (Ok _, t) =>
      if is_tracked (rq_peer_id r) (rq_id r) t then
        if decide (is_Some (dt_in_flight t !! rq_peer_id r)) then (Err AlreadyInFlight, t) else (Err AlreadyPending, t)
      else if decide (dc_max_pending (dt_config t) <= lhm_len (dt_pending t)) then (Err QueueFull, t)
      else (Ok tt, with_queues (lhm_insert (rq_peer_id r) r (dt_pending t)) (dt_in_flight t) (track_id r (dt_id_index t)) t)
  end.

(** [pending.remove] with [untrack_id]. *)
Definition drop_pending (peer : Z) t : option DialRequest * DialTracker :=
  match lhm_get peer (dt_pending t) with
  | None => (None, t)
  | Some r => (Some r, with_queues (lhm_remove peer (dt_pending t)) (dt_in_flight t) (untrack_id r (dt_id_index t)) t)
  end.

(** [in_flight.remove] with [untrack_id]. *)
Definition drop_in_flight (peer : Z) t : option DialRequest * DialTracker :=
  match dt_in_flight t !! peer with
  | None => (None, t)
  | Some r => (Some r, with_queues (dt_pending t) (delete peer (dt_in_flight t)) (untrack_id r (dt_id_index t)) t)
  end.

Definition resolve (peer : Z) t : option DialRequest * DialTracker := drop_in_flight peer t.

(** A loop of removals collecting what they returned. *)
Fixpoint drop_all (drop : Z → DialTracker → option DialRequest * DialTracker) (peers : list Z) t :
    list DialRequest * DialTracker :=
  match peers with
  | [] => ([], t)
  | p :: peers =>
      let '(o, t) := drop p t in
      let '(rs, t) := drop_all drop peers t in
      (option_list o ++ rs, t)
  end.

Definition pending_expired (now : Z) (c : DialTrackerConfig) r : bool :=
  bool_decide (dc_pending_ttl c < elapsed now (rq_queued_at r)).
Definition in_flight_timed_out (now : Z) (c : DialTrackerConfig) r : bool :=
  is_some_and (λ s, bool_decide (dc_in_flight_timeout c < elapsed now s)) (rq_started_at r).

(** [order] is the order in which the in-flight map is walked. *)
Definition cleanup_expired (order : list Z) (now : Z) t : (list DialRequest * list DialRequest) * DialTracker :=
  let expired := (filter (λ x, pending_expired now (dt_config t) x.2) (lhm_iter (dt_pending t))).*1 in
  let '(expired_pending, t) := drop_all drop_pending expired t in
  let timed_out := filter (λ p, is_some_and (in_flight_timed_out now (dt_config t)) (dt_in_flight t !! p)) order in
  let '(timed_out_in_flight, t) := drop_all drop_in_flight timed_out t in
  ((expired_pending, timed_out_in_flight), with_last_cleanup now t).

(** The walk of the queue in [next_batch]: dispatched and expired requests. *)
Fixpoint batch_scan (now : Z) (c : DialTrackerConfig) (left : nat) (l : list (Z * DialRequest)) :
    list DialDispatch * list Z :=
  match left, l with
  | O, _ | _, [] => ([], [])
  | S left', (p, r) :: l =>
      if pending_expired now c r then
        let '(res, ex) := batch_scan now c left l in (res, p :: ex)
      else
        let '(res, ex) := batch_scan now c left' l in (mkDispatch (rq_id r) p (rq_addrs r) :: res, ex)
  end.

Definition start_request (now : Z) r : DialRequest :=
  mkRequest (rq_id r) (rq_peer_id r) (rq_addrs r) (rq_data r) (rq_queued_at r) (Some now).

Definition move_in_flight (now : Z) t (d : DialDispatch) : DialTracker :=
  match lhm_get (dd_peer_id d) (dt_pending t) with
  | None => t
  | Some r => with_queues (lhm_remove (dd_peer_id d) (dt_pending t))
                (<[dd_peer_id d := start_request now r]> (dt_in_flight t)) (dt_id_index t) t
  end.

Definition maybe_cleanup (order : list Z) (now : Z) t : DialTracker :=
  if decide (dc_cleanup_interval (dt_config t) < elapsed now (dt_last_cleanup t)) then
    with_last_cleanup now (cleanup_expired order now t).2
  else t.

Definition batch_size (max : Z) t : Z :=
  Z.min max (u64_saturating_sub (dc_max_in_flight (dt_config t)) (Z.of_nat (size (dt_in_flight t)))).

Definition next_batch (order : list Z) (max now : Z) t : list DialDispatch * DialTracker :=
  let t := maybe_cleanup order now t in
  if decide (batch_size max t = 0) then ([], t)
  else
    let '(res, expired) := batch_scan now (dt_config t) (Z.to_nat (batch_size max t)) (lhm_iter (dt_pending t)) in
    let t := (drop_all drop_pending expired t).2 in
    (res, foldl (move_in_flight now) t res).

(** ** Preparing a dial *)

(** The addresses that pass the filter, IPv6 first, then IPv4, then the rest,
    and the number dialled at once; [None] when nothing passes. *)
Definition prepare_filtered (addrs : list A) (keep : A → bool) : option (list A * Z) :=
  let ok := filter (λ a, keep a) addrs in
  let v6 := filter (λ a, ip_version a = Some V6) ok in
  let v4 := filter (λ a, ip_version a = Some V4) ok in
  let other := filter (λ a, ip_version a = None) ok in
  let sorted := v6 ++ v4 ++ other in
  match sorted with
  | [] => None
  | _ =>
      let n6 := Z.of_nat (length v6) in
      let n4 := Z.of_nat (length v4) in
      Some (sorted, if decide (0 < n6) then Z.min n6 8 else Z.max 1 (Z.min n4 4))
  end.

Definition insert_in_flight r (now : Z) t : DialTracker :=
  with_queues (dt_pending t) (<[rq_peer_id r := start_request now r]> (dt_in_flight t)) (track_id r (dt_id_index t)) t.

(** [prepare_and_start] with [try_start] inlined: the dial options are the peer,
    the sorted addresses and the concurrency factor. *)
Definition prepare_and_start (id : option Z) (peer : Z) (addrs : list A) (data : D) (keep : A → bool) (now : Z) t :
    result PrepareError (Z * list A * Z) * DialTracker :=
  match check_id id now t with
  | (Err true, t) => (Err PrepareBanned, t)
  | (Err false, t) => (Err PrepareInBackoff, t)
  | (Ok _, t) =>
      if is_tracked peer id t then (Err AlreadyTracked, t)
      else
        match prepare_filtered addrs keep with
        | None => (Err NoReachableAddresses, t)
        | Some (sorted, factor) => (Ok (peer, sorted, factor), insert_in_flight (mkRequest id peer [] data now None) now t)
        end
  end.

(** ** Recording failures *)

Definition backoff_default : BackoffEntry := mkBackoff 0 0.

Definition record_backoff (id now : Z) t : DialTracker :=
  match dt_backoff t with
  | None => t
  | Some c =>
      let '(o, c) := lc_get id c in
      let new_failures := (be_consecutive_failures (default backoff_default o) + 1) mod (u32_max + 1) in
      if decide (0 < dc_ban_after_failures (dt_config t) ∧ dc_ban_after_failures (dt_config t) <= new_failures) then
        with_caches (Some (lc_remove id c)) (lc_insert id (now_secs now t) <$> dt_banned t) t
      else with_caches (Some (lc_insert id (mkBackoff (now_secs now t) new_failures) c)) (dt_banned t) t
  end.

Definition clear_backoff (id : Z) t : DialTracker :=
  with_caches (lc_remove id <$> dt_backoff t) (lc_remove id <$> dt_banned t) t.

Definition contains_peer (peer : Z) t : bool :=
  bool_decide (is_Some (lhm_get peer (dt_pending t))) || bool_decide (is_Some (dt_in_flight t !! peer)).
Definition contains_id (id : Z) t : bool := bool_decide (is_Some (dt_id_index t !! id)).
Definition is_in_flight (peer : Z) t : bool := bool_decide (is_Some (dt_in_flight t !! peer)).
Definition pending_count t : Z := lhm_len (dt_pending t).
Definition in_flight_count t : Z := Z.of_nat (size (dt_in_flight t)).

(** ** Histories *)

Inductive DialOp :=
| Enqueue (r : DialRequest) (now : Z)
| NextBatch (order : list Z) (max now : Z)
| PrepareAndStart (id : option Z) (peer : Z) (addrs : list A) (data : D) (keep : A → bool) (now : Z)
| Resolve (peer : Z)
| CleanupExpired (order : list Z) (now : Z)
| RecordBackoff (id now : Z)
| ClearBackoff (id : Z).

Definition dial_step t (op : DialOp) : DialTracker :=
  match op with
  | Enqueue r now => (enqueue r now t).2
  | NextBatch order max now => (next_batch order max now t).2
  | PrepareAndStart id peer addrs data keep now => (prepare_and_start id peer addrs data keep now t).2
  | Resolve peer => (resolve peer t).2
  | CleanupExpired order now => (cleanup_expired order now t).2
  | RecordBackoff id now => record_backoff id now t
  | ClearBackoff id => clear_backoff id t
  end.

(** ** Well-formedness *)

(** Every tracked request, pending or in flight. *)
Definition requests t : gmap Z DialRequest := dt_in_flight t ∪ list_to_map (lhm_iter (dt_pending t)).

(** The identifier index of a set of requests. *)
Definition indexes (i : gmap Z Z) (m : gmap Z DialRequest) : Prop :=
  ∀ id p, i !! id = Some p ↔ ∃ r, m !! p = Some r ∧ rq_id r = Some id.

Record tracker_ok t : Prop := {
  tk_nodup : NoDup (lhm_iter (dt_pending t)).*1;
  tk_pending : ∀ p r, (p, r) ∈ lhm_iter (dt_pending t) → rq_peer_id r = p ∧ dt_in_flight t !! p = None;
  tk_in_flight : ∀ p r, dt_in_flight t !! p = Some r → rq_peer_id r = p ∧ is_Some (rq_started_at r);
  tk_index : indexes (dt_id_index t) (requests t);
  tk_bound : lhm_len (dt_pending t) <= Z.max 0 (dc_max_pending (dt_config t));
}.

Lemma lhm_get_elem (m : M) p r : NoDup (lhm_iter m).*1 → lhm_get p m = Some r ↔ (p, r) ∈ lhm_iter m.
Proof. intros Hnd. unfold lhm_get. symmetry. by apply elem_of_list_to_map. Qed.

Lemma lhm_get_None (m : M) p : lhm_get p m = None ↔ p ∉ (lhm_iter m).*1.
Proof. unfold lhm_get. symmetry. apply not_elem_of_list_to_map. Qed.

Lemma lhm_view_remove (m : M) k : NoDup (lhm_iter m).*1 →
  NoDup (lhm_iter (lhm_remove k m)).*1 ∧
  (list_to_map (lhm_iter (lhm_remove k m)) : gmap Z DialRequest) = delete k (list_to_map (lhm_iter m)).
Proof.
  intros Hnd. rewrite lhm_iter_remove. assert (Hnd' : NoDup (filter (λ x, x.1 ≠ k) (lhm_iter m)).*1).
  { eapply sublist_NoDup; [exact Hnd|]. apply fmap_sublist, sublist_filter. }
  split; [done|]. apply map_eq. intros p. apply option_eq. intros r.
  rewrite <-elem_of_list_to_map, list_elem_of_filter, lookup_delete_Some, <-elem_of_list_to_map by done. simpl. naive_solver.
Qed.

Lemma lhm_view_insert (m : M) k r : k ∉ (lhm_iter m).*1 → NoDup (lhm_iter m).*1 →
  NoDup (lhm_iter (lhm_insert k r m)).*1 ∧
  (list_to_map (lhm_iter (lhm_insert k r m)) : gmap Z DialRequest) = <[k := r]> (list_to_map (lhm_iter m)).
Proof.
  intros Hk Hnd. rewrite lhm_iter_insert, fmap_app by done. split.
  - apply NoDup_app. split; [done|]. split; [|apply NoDup_singleton]. intros x Hx ->%list_elem_of_singleton. done.
  - rewrite list_to_map_app. simpl. rewrite insert_empty. apply map_eq. intros p.
    destruct (decide (p = k)) as [->|Hne].
    + rewrite lookup_insert_eq, lookup_union_r by (by apply not_elem_of_list_to_map). by rewrite lookup_singleton_eq.
    + rewrite lookup_insert_ne by done. rewrite lookup_union_l; [done|]. by rewrite lookup_singleton_ne.
Qed.

(** The index under the three changes of the set of requests. *)

Lemma indexes_insert i m p r : indexes i m → m !! p = None → rq_peer_id r = p →
  (∀ id, rq_id r = Some id → i !! id = None) → indexes (track_id r i) (<[p := r]> m).
Proof.
  intros Hi Hp Hr Hid id q. unfold track_id. destruct (rq_id r) as [id'|] eqn:E.
  - specialize (Hid _ eq_refl). destruct (decide (id = id')) as [->|Hne].
    + rewrite lookup_insert_eq, Hr. split; [intros [= <-]; exists r; by rewrite lookup_insert_eq|].
      intros (r'&Hr'&Hid'). apply lookup_insert_Some in Hr' as [[-> _]|[_ Hr']]; [done|].
      assert (i !! id' = Some q) by (apply Hi; eauto). congruence.
    + rewrite lookup_insert_ne, (Hi id q) by done. split.
      * intros (r'&Hr'&Hid'). exists r'. rewrite lookup_insert_ne by (by intros ->; rewrite Hp in Hr'). done.
      * intros (r'&Hr'&Hid'). apply lookup_insert_Some in Hr' as [[-> ->]|[_ Hr']]; [congruence|eauto].
  - rewrite (Hi id q). split; intros (r'&Hr'&Hid').
    + exists r'. rewrite lookup_insert_ne by (by intros ->; rewrite Hp in Hr'). done.
    + apply lookup_insert_Some in Hr' as [[-> ->]|[_ Hr']]; [congruence|eauto].
Qed.

Lemma indexes_delete i m p r : indexes i m → m !! p = Some r → indexes (untrack_id r i) (delete p m).
Proof.
  intros Hi Hp id q. unfold untrack_id. destruct (rq_id r) as [id'|] eqn:E.
  - assert (i !! id' = Some p) as Hid by (apply Hi; eauto). rewrite lookup_delete_Some, (Hi id q).
    setoid_rewrite lookup_delete_Some. split.
    + intros [Hne (r'&Hr'&Hid')]. exists r'. split; [|done]. split; [|done]. intros ->. congruence.
    + intros (r'&[Hne Hr']&Hid'). split; [|eauto]. intros ->. assert (i !! id = Some q) by (apply Hi; eauto). congruence.
  - rewrite (Hi id q). setoid_rewrite lookup_delete_Some. split; [|naive_solver].
    intros (r'&Hr'&Hid'). exists r'. split; [|done]. split; [|done]. intros ->. congruence.
Qed.

Lemma indexes_update i m p r r' : indexes i m → m !! p = Some r → rq_id r' = rq_id r → indexes i (<[p := r']> m).
Proof.
  intros Hi Hp Hr id q. rewrite (Hi id q). destruct (decide (q = p)) as [->|Hne].
  - rewrite lookup_insert_eq, Hp. split; intros (r0&[= <-]&Hid); [exists r'|exists r]; split; congruence.
  - by rewrite lookup_insert_ne.
Qed.

(** What each change of the queues does to the set of requests. *)

Lemma pending_lookup t p r : tracker_ok t → lhm_get p (dt_pending t) = Some r →
  rq_peer_id r = p ∧ dt_in_flight t !! p = None ∧ requests t !! p = Some r.
Proof.
  intros Hok Hg. pose proof Hg as Hin. apply lhm_get_elem in Hin; [|apply Hok]. destruct (tk_pending _ Hok _ _ Hin) as [? Hf].
  split; [done|]. split; [done|]. unfold requests. by rewrite lookup_union_r.
Qed.

Lemma in_flight_lookup t p r : tracker_ok t → dt_in_flight t !! p = Some r →
  lhm_get p (dt_pending t) = None ∧ requests t !! p = Some r.
Proof.
  intros Hok Hf. split; [|unfold requests; by apply lookup_union_Some_l].
  destruct (lhm_get p (dt_pending t)) as [r'|] eqn:E; [|done]. apply (pending_lookup t p r' Hok) in E as (_&E&_). congruence.
Qed.

Lemma requests_None t p : requests t !! p = None ↔ dt_in_flight t !! p = None ∧ lhm_get p (dt_pending t) = None.
Proof. unfold requests. by rewrite lookup_union_None. Qed.

Lemma untracked_fresh peer id t : tracker_ok t → is_tracked peer id t = false →
  requests t !! peer = None ∧ ∀ i, id = Some i → dt_id_index t !! i = None.
Proof.
  intros Hok H. unfold is_tracked in H. apply orb_false_iff in H as [[H1 H2]%orb_false_iff H3].
  apply bool_decide_eq_false in H1, H2. split.
  - apply requests_None. split; [by apply eq_None_not_Some|by apply eq_None_not_Some].
  - intros i ->. simpl in H3. apply bool_decide_eq_false in H3. by apply eq_None_not_Some.
Qed.

Lemma remove_length k m : Z.of_nat (length (lhm_iter (lhm_remove k m))) <= Z.of_nat (length (lhm_iter m)).
Proof. rewrite lhm_iter_remove. pose proof (length_filter (λ x : Z * DialRequest, x.1 ≠ k) (lhm_iter m)). lia. Qed.

Lemma pending_remove_elem k m p r : (p, r) ∈ lhm_iter (lhm_remove k m) → p ≠ k ∧ (p, r) ∈ lhm_iter m.
Proof. rewrite lhm_iter_remove, list_elem_of_filter. done. Qed.

Lemma drop_pending_ok p t : tracker_ok t → tracker_ok (drop_pending p t).2.
Proof.
  intros Hok. unfold drop_pending. destruct (lhm_get p (dt_pending t)) as [r|] eqn:E; [|done]. simpl.
  destruct (pending_lookup t p r Hok E) as (Hr&Hf&Hm). destruct (lhm_view_remove (dt_pending t) p (tk_nodup _ Hok)) as [Hnd Hv].
  split; simpl; [done| |apply Hok| |].
  - intros q r' [_ Hin]%pending_remove_elem. by apply Hok.
  - unfold requests. simpl. rewrite Hv. replace (dt_in_flight t ∪ _) with (delete p (requests t)).
    + apply indexes_delete; [apply Hok|done].
    + unfold requests. rewrite delete_union, (delete_id (dt_in_flight t)) by done. done.
  - pose proof (remove_length p (dt_pending t)). pose proof (tk_bound _ Hok). unfold lhm_len in *. lia.
Qed.

Lemma drop_in_flight_ok p t : tracker_ok t → tracker_ok (drop_in_flight p t).2.
Proof.
  intros Hok. unfold drop_in_flight. destruct (dt_in_flight t !! p) as [r|] eqn:E; [|done]. simpl.
  destruct (in_flight_lookup t p r Hok E) as [Hp Hm]. split; simpl; [apply Hok| | | |apply Hok].
  - intros q r' Hin. destruct (tk_pending _ Hok _ _ Hin) as [? Hf]. split; [done|]. by rewrite lookup_delete_None; right.
  - intros q r' [_ Hq]%lookup_delete_Some. by apply Hok.
  - unfold requests. simpl. replace (delete p (dt_in_flight t) ∪ _) with (delete p (requests t)).
    + apply indexes_delete; [apply Hok|done].
    + unfold requests. rewrite delete_union, (delete_id (list_to_map _)) by done. done.
Qed.

Lemma move_in_flight_ok now t d : tracker_ok t → tracker_ok (move_in_flight now t d).
Proof.
  intros Hok. unfold move_in_flight. set (p := dd_peer_id d). destruct (lhm_get p (dt_pending t)) as [r|] eqn:E; [|done].
  destruct (pending_lookup t p r Hok E) as (Hr&Hf&Hm). destruct (lhm_view_remove (dt_pending t) p (tk_nodup _ Hok)) as [Hnd Hv].
  split; simpl; [done| | | |].
  - intros q r' [Hne Hin]%pending_remove_elem. rewrite lookup_insert_ne by done. by apply Hok.
  - intros q r' [[<- <-]|[_ Hq]]%lookup_insert_Some; [by split|by apply Hok].
  - unfold requests. simpl. rewrite Hv, <-insert_union_l. replace (<[p := _]> _) with (<[p := start_request now r]> (requests t)).
    + apply (indexes_update _ _ _ r); [apply Hok|done|done].
    + unfold requests. rewrite <-(insert_delete_eq (dt_in_flight t ∪ _)), delete_union, (delete_id (dt_in_flight t)) by done. done.
  - pose proof (remove_length p (dt_pending t)). pose proof (tk_bound _ Hok). unfold lhm_len in *. lia.
Qed.

Lemma insert_in_flight_ok r now t : tracker_ok t → requests t !! rq_peer_id r = None →
  (∀ i, rq_id r = Some i → dt_id_index t !! i = None) → tracker_ok (insert_in_flight r now t).
Proof.
  intros Hok Hp Hid. apply requests_None in Hp as Hp2. destruct Hp2 as [Hf Hpe]. split; simpl; [apply Hok| | | |apply Hok].
  - intros q r' Hin. rewrite lookup_insert_ne; [by apply Hok|]. intros <-. apply lhm_get_None in Hpe. apply Hpe.
    apply list_elem_of_fmap. by exists (rq_peer_id r, r').
  - intros q r' [[<- <-]|[_ Hq]]%lookup_insert_Some; [by split|by apply Hok].
  - unfold requests. simpl. rewrite <-insert_union_l.
    apply (indexes_insert _ _ _ (start_request now r)); [apply Hok|done|done|done].
Qed.

Lemma enqueue_insert_ok r t : tracker_ok t → requests t !! rq_peer_id r = None →
  (∀ i, rq_id r = Some i → dt_id_index t !! i = None) → lhm_len (dt_pending t) < dc_max_pending (dt_config t) →
  tracker_ok (with_queues (lhm_insert (rq_peer_id r) r (dt_pending t)) (dt_in_flight t) (track_id r (dt_id_index t)) t).
Proof.
  intros Hok Hp Hid Hlen. apply requests_None in Hp as Hp2. destruct Hp2 as [Hf Hpe]. apply lhm_get_None in Hpe.
  destruct (lhm_view_insert (dt_pending t) _ r Hpe (tk_nodup _ Hok)) as [Hnd Hv]. split; simpl; [done| |apply Hok| |].
  - intros q r'. rewrite lhm_iter_insert by done. intros [Hin|[= -> ->]%list_elem_of_singleton]%elem_of_app; [by apply Hok|done].
  - unfold requests. simpl. rewrite Hv, <-insert_union_r by done. apply indexes_insert; [apply Hok|done|done|done].
  - unfold lhm_len in *. rewrite lhm_iter_insert, length_app by done. simpl. lia.
Qed.

(** Reading or recording a failure touches the caches only. *)
Lemma tracker_ok_caches b n t : tracker_ok t → tracker_ok (with_caches b n t).
Proof. intros []. by split. Qed.

Lemma tracker_ok_last now t : tracker_ok t → tracker_ok (with_last_cleanup now t).
Proof. intros []. by split. Qed.

Lemma check_id_caches id now t : ∃ b n, (check_id id now t).2 = with_caches b n t.
Proof.
  assert (H0 : t = with_caches (dt_backoff t) (dt_banned t) t) by (by destruct t).
  destruct id as [id|]; simpl; [|eauto]. unfold is_banned, is_in_backoff.
  repeat (first [case_match | case_decide]; simplify_eq/=); eauto.
Qed.

Lemma drop_all_ok drop l : (∀ p t, tracker_ok t → tracker_ok (drop p t).2) → ∀ t, tracker_ok t → tracker_ok (drop_all drop l t).2.
Proof.
  intros Hd. induction l as [|p l IH]; intros t Hok; simpl; [done|].
  specialize (Hd p t Hok). destruct (drop p t) as [o t']. specialize (IH t' Hd). by destruct (drop_all drop l t').
Qed.

Lemma cleanup_ok order now t : tracker_ok t → tracker_ok (cleanup_expired order now t).2.
Proof.
  intros Hok. unfold cleanup_expired. set (l := (filter _ _).*1).
  pose proof (drop_all_ok drop_pending l drop_pending_ok t Hok) as H1. destruct (drop_all drop_pending l t) as [e t1]. simpl in H1.
  set (l' := filter _ order). pose proof (drop_all_ok drop_in_flight l' drop_in_flight_ok t1 H1) as H2.
  destruct (drop_all drop_in_flight l' t1) as [f t2]. by apply tracker_ok_last.
Qed.

Lemma maybe_cleanup_ok order now t : tracker_ok t → tracker_ok (maybe_cleanup order now t).
Proof. intros Hok. unfold maybe_cleanup. case_decide; [|done]. by apply tracker_ok_last, cleanup_ok. Qed.

Lemma dial_step_ok t op : tracker_ok t → tracker_ok (dial_step t op).
Proof.
  intros Hok. destruct op as [r now|order max now|id peer addrs data keep now|peer|order now|id now|id]; simpl.
  - unfold enqueue. destruct (check_id_caches (rq_id r) now t) as (b&n&Hc).
    destruct (check_id (rq_id r) now t) as [res t'] eqn:E. simpl in Hc. subst t'.
    pose proof (tracker_ok_caches b n t Hok) as Hok'. destruct res as [u|[]]; [|done..].
    destruct (is_tracked _ _ _) eqn:Ht; [by case_decide|]. case_decide; [done|].
    destruct (untracked_fresh _ _ _ Hok' Ht). apply enqueue_insert_ok; [done|done|done|lia].
  - unfold next_batch. pose proof (maybe_cleanup_ok order now t Hok) as H1. case_decide; [done|].
    destruct (batch_scan _ _ _ _) as [res ex]. simpl.
    pose proof (drop_all_ok drop_pending ex drop_pending_ok _ H1) as H2. revert H2.
    generalize (drop_all drop_pending ex (maybe_cleanup order now t)).2.
    induction res as [|d res IH]; intros t' H2; simpl; [done|]. by apply IH, move_in_flight_ok.
  - unfold prepare_and_start. destruct (check_id_caches id now t) as (b&n&Hc).
    destruct (check_id id now t) as [res t'] eqn:E. simpl in Hc. subst t'.
    pose proof (tracker_ok_caches b n t Hok) as Hok'. destruct res as [u|[]]; [|done..].
    destruct (is_tracked _ _ _) eqn:Ht; [done|]. destruct (prepare_filtered addrs keep) as [[sorted f]|]; [|done].
    destruct (untracked_fresh _ _ _ Hok' Ht). by apply insert_in_flight_ok.
  - by apply drop_in_flight_ok.
  - by apply cleanup_ok.
  - unfold record_backoff. destruct (dt_backoff t) as [c|]; [|done]. destruct (lc_get id c) as [o c'].
    case_decide; by apply tracker_ok_caches.
  - by apply tracker_ok_caches.
Qed.

Lemma tracker_start_ok c now : tracker_ok (tracker_start c now).
Proof.
  split; simpl; rewrite ?lhm_iter_empty; [constructor|by intros ? ? ?%not_elem_of_nil|done| |].
  - intros id p. unfold requests. simpl. rewrite lhm_iter_empty, lookup_empty. split; [done|]. intros (r&Hr&_).
    simpl in Hr. by rewrite lookup_union_Some_raw, !lookup_empty in Hr; destruct Hr as [?|[_ ?]].
  - unfold lhm_len. rewrite lhm_iter_empty. simpl. lia.
Qed.

(** No peer and no identifier is dialled twice: after any history of
    enqueues, batches, direct starts, resolutions, cleanups and failure records
    (whatever the clock and the walk orders), a peer is pending or in flight but
    never both and never twice; the identifier index maps an identifier exactly
    to the one tracked request that carries it; in-flight requests have a start
    time; and the queue never exceeds its bound. *)
Theorem dials_tracked_once c now ops :
  let t := foldl dial_step (tracker_start c now) ops in
  NoDup ((lhm_iter (dt_pending t)).*1 ++ (map_to_list (dt_in_flight t)).*1) ∧
  (∀ id p, dt_id_index t !! id = Some p ↔ ∃ r, requests t !! p = Some r ∧ rq_id r = Some id ∧ rq_peer_id r = p) ∧
  (∀ p r, dt_in_flight t !! p = Some r → is_Some (rq_started_at r)) ∧
  pending_count t <= Z.max 0 (dc_max_pending (dt_config t)).
Proof.
  intros t. assert (Hok : tracker_ok t).
  { unfold t. generalize (tracker_start_ok c now). generalize (tracker_start c now).
    induction ops as [|op ops IH]; intros t0 H0; simpl; [done|]. by apply IH, dial_step_ok. }
  split; [|split; [|split; [by intros p r Hp; apply Hok in Hp as [_ ?]|apply Hok]]].
  - apply NoDup_app. split; [apply Hok|]. split; [|apply NoDup_fst_map_to_list].
    intros p [[q r] [-> Hin]]%list_elem_of_fmap [[q' r'] [Hq Hin']]%list_elem_of_fmap. simpl in *. subst q'.
    apply elem_of_map_to_list in Hin'. destruct (tk_pending _ Hok _ _ Hin) as [_ ?]. congruence.
  - intros id p. rewrite (tk_index _ Hok id p). split; intros (r&Hr&Hid); [|naive_solver]. exists r. split; [done|]. split; [done|].
    unfold requests in Hr. apply lookup_union_Some_raw in Hr as [Hr|[_ Hr]]; [by apply Hok in Hr as [? _]|].
    apply (pending_lookup t p r Hok) in Hr as [? _]. done.
Qed.

(** ** The tracked identifiers *)

Definition rq_ids r : gset Z := match rq_id r with Some i => {[i]} | None => ∅ end.
Definition without (rs : list DialRequest) (d : gset Z) : gset Z := foldl (λ d r, d ∖ rq_ids r) d rs.

Lemma drop_in_flight_ids p t : tracker_ok t →
  match drop_in_flight p t with
  | (None, t') => t' = t
  | (Some r, t') => dt_pending t' = dt_pending t ∧ dom (dt_id_index t') = dom (dt_id_index t) ∖ rq_ids r ∧
                    ∀ i, rq_id r = Some i → i ∈ dom (dt_id_index t)
  end.
Proof.
  intros Hok. unfold drop_in_flight. destruct (dt_in_flight t !! p) as [r|] eqn:E; [|done].
  destruct (in_flight_lookup t p r Hok E) as [_ Hm]. split; [done|]. split.
  - simpl. unfold untrack_id, rq_ids. destruct (rq_id r); [by rewrite dom_delete_L|set_solver].
  - intros i Hi. apply elem_of_dom. exists p. apply (tk_index _ Hok). eauto.
Qed.

Lemma drop_all_ids l : ∀ t, tracker_ok t →
  let '(rs, t') := drop_all drop_in_flight l t in
  tracker_ok t' ∧ dt_pending t' = dt_pending t ∧ dom (dt_id_index t') = without rs (dom (dt_id_index t)) ∧
  ∀ r i, r ∈ rs → rq_id r = Some i → i ∈ dom (dt_id_index t).
Proof.
  induction l as [|p l IH]; intros t Hok; simpl; [split_and!; [done|done|done|by intros ? ? ?%not_elem_of_nil]|].
  pose proof (drop_in_flight_ids p t Hok) as Hd. pose proof (drop_in_flight_ok p t Hok) as Hok1.
  destruct (drop_in_flight p t) as [o t1]. specialize (IH t1 Hok1). destruct (drop_all drop_in_flight l t1) as [rs t2].
  destruct IH as (H1&H2&H3&H4). destruct o as [r|]; simpl in *; [|by subst t1].
  destruct Hd as (Hp&Hdom&Hid). split_and!; [done|congruence|by rewrite H3, Hdom|].
  intros r' i [->|Hr]%elem_of_cons Hi; [by apply Hid|]. specialize (H4 _ _ Hr Hi). rewrite Hdom in H4. set_solver.
Qed.

Lemma cleanup_ids order now t : tracker_ok t → lhm_iter (dt_pending t) = [] →
  let '((_, out), t') := cleanup_expired order now t in
  tracker_ok t' ∧ lhm_iter (dt_pending t') = [] ∧ dom (dt_id_index t') = without out (dom (dt_id_index t)) ∧
  ∀ r i, r ∈ out → rq_id r = Some i → i ∈ dom (dt_id_index t).
Proof.
  intros Hok Hp. pose proof (cleanup_ok order now t Hok) as Hc. unfold cleanup_expired in *. rewrite Hp in *. simpl in *.
  set (l := filter _ order) in *. pose proof (drop_all_ids l t Hok) as H. destruct (drop_all drop_in_flight l t) as [out t'].
  destruct H as (_&H2&H3&H4). simpl. rewrite H2. done.
Qed.

Lemma prepare_ids id peer addrs data keep now t : tracker_ok t →
  let '(res, t') := prepare_and_start id peer addrs data keep now t in
  tracker_ok t' ∧ dt_pending t' = dt_pending t ∧
  match res with
  | Ok _ => dom (dt_id_index t') = dom (dt_id_index t) ∪ match id with Some i => {[i]} | None => ∅ end
  | Err _ => dt_id_index t' = dt_id_index t
  end.
Proof.
  intros Hok. pose proof (dial_step_ok t (PrepareAndStart id peer addrs data keep now) Hok) as Hok'. simpl in Hok'.
  unfold prepare_and_start in *. destruct (check_id_caches id now t) as (b&n&Hc).
  destruct (check_id id now t) as [res t'] eqn:E. simpl in Hc. subst t'. destruct res as [u|[]]; [|done..].
  destruct (is_tracked _ _ _) eqn:Ht; [done|]. destruct (prepare_filtered addrs keep) as [[sorted f]|]; [|done].
  split; [done|]. split; [done|]. simpl. unfold track_id. simpl. destruct id; [rewrite dom_insert_L|]; set_solver.
Qed.

(** ** Dispatch *)

Definition live (now : Z) (c : DialTrackerConfig) (l : list (Z * DialRequest)) : list (Z * DialRequest) :=
  filter (λ x, pending_expired now c x.2 = false) l.

Definition dispatch_of (x : Z * DialRequest) : DialDispatch := mkDispatch (rq_id x.2) x.1 (rq_addrs x.2).

Lemma batch_scan_spec now c l : ∀ n, let '(res, ex) := batch_scan now c n l in
  res = dispatch_of <$> take n (live now c l) ∧
  (∀ p, p ∈ ex → ∃ r, (p, r) ∈ l ∧ pending_expired now c r = true).
Proof.
  induction l as [|[p r] l IH]; intros n.
  { destruct n; simpl; (split; [done|by intros ? ?%not_elem_of_nil]). }
  destruct n as [|n]; [simpl; split; [done|by intros ? ?%not_elem_of_nil]|].
  cbn [batch_scan]. destruct (pending_expired now c r) eqn:E.
  - specialize (IH (S n)). destruct (batch_scan now c (S n) l) as [res ex]. destruct IH as [-> Hex]. split.
    + unfold live. rewrite (filter_cons_False _ (p, r)) by (simpl; congruence). done.
    + intros q [->|Hq]%elem_of_cons; [exists r; split; [by left|done]|].
      destruct (Hex _ Hq) as (r'&?&?). exists r'. split; [by right|done].
  - specialize (IH n). destruct (batch_scan now c n l) as [res ex]. destruct IH as [-> Hex]. split.
    + unfold live. rewrite (filter_cons_True _ (p, r)) by done. done.
    + intros q Hq. destruct (Hex _ Hq) as (r'&?&?). exists r'. split; [by right|done].
Qed.

(** Removing expired requests leaves the live ones. *)
Lemma drop_pending_live now c p r t : tracker_ok t → lhm_get p (dt_pending t) = Some r → pending_expired now c r = true →
  live now c (lhm_iter (dt_pending (drop_pending p t).2)) = live now c (lhm_iter (dt_pending t)).
Proof.
  intros Hok Hg He. unfold drop_pending. rewrite Hg. simpl. rewrite lhm_iter_remove. unfold live.
  rewrite list_filter_filter. apply filter_ext_elem. intros [q r'] Hin. simpl. split; [naive_solver|].
  intros Hl. split; [done|]. intros ->. apply (lhm_get_elem _ _ _ (tk_nodup _ Hok)) in Hin. congruence.
Qed.

Lemma drop_expired_live now c l : ∀ t, tracker_ok t →
  (∀ p r, p ∈ l → lhm_get p (dt_pending t) = Some r → pending_expired now c r = true) →
  let t' := (drop_all drop_pending l t).2 in
  tracker_ok t' ∧ live now c (lhm_iter (dt_pending t')) = live now c (lhm_iter (dt_pending t)) ∧
  dt_in_flight t' = dt_in_flight t ∧ dt_config t' = dt_config t.
Proof.
  induction l as [|p l IH]; intros t Hok Hl; simpl; [done|].
  pose proof (drop_pending_ok p t Hok) as Hok'.
  assert (Hp : live now c (lhm_iter (dt_pending (drop_pending p t).2)) = live now c (lhm_iter (dt_pending t)) ∧
    dt_in_flight (drop_pending p t).2 = dt_in_flight t ∧ dt_config (drop_pending p t).2 = dt_config t ∧
    ∀ q r, lhm_get q (dt_pending (drop_pending p t).2) = Some r → lhm_get q (dt_pending t) = Some r).
  { destruct (lhm_get p (dt_pending t)) as [r|] eqn:E.
    - split; [eapply drop_pending_live; [done|done|]; eapply Hl; [by left|done]|]. unfold drop_pending. rewrite E. simpl.
      split_and!; [done|done|]. intros q r' Hq. apply lhm_get_elem in Hq; [|by apply lhm_view_remove; apply Hok].
      apply pending_remove_elem in Hq as [_ Hq]. apply lhm_get_elem; [apply Hok|done].
    - unfold drop_pending. rewrite E. by split_and!. }
  destruct (drop_pending p t) as [o t1]. simpl in *. destruct Hp as (Hp1&Hp2&Hp3&Hp4).
  specialize (IH t1 Hok'). destruct (drop_all drop_pending l t1) as [rs t2]. simpl in *.
  destruct IH as (?&?&?&?); [intros q r Hq Hg; eapply Hl; [by right|by apply Hp4]|]. split_and!; [done|congruence|congruence|congruence].
Qed.

(** Moving the dispatched requests takes them off the front of the live queue. *)
Lemma move_all_live now c : ∀ (xs : list (Z * DialRequest)) t, tracker_ok t →
  (∀ x, x ∈ xs → x ∈ lhm_iter (dt_pending t)) → NoDup xs.*1 →
  let t' := foldl (move_in_flight now) t (dispatch_of <$> xs) in
  live now c (lhm_iter (dt_pending t')) = filter (λ x, x.1 ∉ xs.*1) (live now c (lhm_iter (dt_pending t))) ∧
  size (dt_in_flight t') = (size (dt_in_flight t) + length xs)%nat ∧
  (∀ p r, (p, r) ∈ xs → dt_in_flight t' !! p = Some (start_request now r)) ∧
  (∀ p, p ∉ xs.*1 → dt_in_flight t' !! p = dt_in_flight t !! p).
Proof.
  induction xs as [|[p r] xs IH]; intros t Hok Hin Hnd; cbv zeta; rewrite ?fmap_cons; cbn [foldl length].
  - simpl. split_and!; [by rewrite filter_all by (intros; apply not_elem_of_nil)|lia|by intros ? ? ?%not_elem_of_nil|done].
  - apply NoDup_cons in Hnd as [Hni Hnd]. simpl in Hni.
    assert (Hg : lhm_get p (dt_pending t) = Some r) by (apply lhm_get_elem; [apply Hok|apply Hin; by left]).
    destruct (pending_lookup t p r Hok Hg) as (Hr&Hf&_).
    pose proof (move_in_flight_ok now t (dispatch_of (p, r)) Hok) as Hok'.
    set (t1 := move_in_flight now t (dispatch_of (p, r))) in *.
    assert (Ht1 : t1 = with_queues (lhm_remove p (dt_pending t)) (<[p := start_request now r]> (dt_in_flight t)) (dt_id_index t) t)
      by (unfold t1, move_in_flight; simpl; by rewrite Hg).
    destruct (IH t1 Hok') as (H1&H2&H3&H4); [|done|].
    { intros [q r'] Hq. rewrite Ht1. simpl. rewrite lhm_iter_remove, list_elem_of_filter. split; [|apply Hin; by right].
      simpl. intros ->. apply Hni. apply list_elem_of_fmap. by exists (p, r'). }
    rewrite Ht1 in H1, H2, H4. simpl in H1, H2, H4. rewrite lhm_iter_remove in H1. split_and!.
    + rewrite Ht1, H1. unfold live. rewrite !list_filter_filter. apply list_filter_iff. intros [q r']. simpl. rewrite not_elem_of_cons. naive_solver.
    + rewrite Ht1, H2, map_size_insert_None by done. lia.
    + intros q r' [[= -> ->]|Hq]%elem_of_cons; [|by apply H3]. rewrite Ht1, H4 by done. by rewrite lookup_insert_eq.
    + intros q [Hq Hq']%not_elem_of_cons. rewrite Ht1, H4 by done. by rewrite lookup_insert_ne.
Qed.

Lemma live_suffix now c (l : list (Z * DialRequest)) n : NoDup l.*1 →
  filter (λ x, x.1 ∉ (take n (live now c l)).*1) (live now c l) = drop n (live now c l).
Proof.
  intros Hnd. assert (Hnd' : NoDup (live now c l).*1).
  { eapply sublist_NoDup; [exact Hnd|]. apply fmap_sublist, sublist_filter. }
  revert Hnd'. generalize (live now c l) as k. clear. intros k Hnd.
  transitivity (filter (λ x, x.1 ∉ (take n k).*1) (take n k ++ drop n k)); [by rewrite take_drop|].
  rewrite <-(take_drop n k), fmap_app in Hnd. apply NoDup_app in Hnd as (_&Hdis&_). rewrite filter_app, filter_none, filter_all; [done|..].
  - intros x Hx Hin. apply (Hdis _ Hin). apply list_elem_of_fmap. eauto.
  - intros x Hx Hni. apply Hni. apply list_elem_of_fmap. eauto.
Qed.

(** A batch is first-in, first-out and bounded: from any reachable
    tracker, once overdue entries are cleaned up, [next_batch] dispatches the
    oldest live requests in queue order, as many as the caller asked for or the
    in-flight limit leaves room for; exactly those move in flight with their
    start time, the other live requests keep their place, and the number in
    flight never grows past the limit. *)
Theorem next_batch_fifo c start ops order max now :
  0 <= max →
  let t := foldl dial_step (tracker_start c start) ops in
  let t1 := maybe_cleanup order now t in
  let queue := live now (dt_config t1) (lhm_iter (dt_pending t1)) in
  let n := Z.to_nat (batch_size max t1) in
  let '(res, t') := next_batch order max now t in
  res = dispatch_of <$> take n queue ∧
  live now (dt_config t1) (lhm_iter (dt_pending t')) = drop n queue ∧
  (∀ p r, (p, r) ∈ take n queue → dt_in_flight t' !! p = Some (start_request now r)) ∧
  (∀ p, p ∉ (take n queue).*1 → dt_in_flight t' !! p = dt_in_flight t1 !! p) ∧
  in_flight_count t' <= Z.max (in_flight_count t1) (dc_max_in_flight (dt_config t1)).
Proof.
  intros Hmax t t1 queue n. assert (Hok : tracker_ok t1).
  { apply maybe_cleanup_ok. unfold t. generalize (tracker_start_ok c start). generalize (tracker_start c start).
    induction ops as [|op ops IH]; intros t' H'; simpl; [done|]. by apply IH, dial_step_ok. }
  unfold next_batch. fold t1. case_decide as E0.
  { subst n. rewrite E0. simpl. split_and!; [done|done|by intros ? ? ?%not_elem_of_nil|done|lia]. }
  pose proof (batch_scan_spec now (dt_config t1) (lhm_iter (dt_pending t1)) n) as Hscan. fold n.
  destruct (batch_scan now (dt_config t1) n (lhm_iter (dt_pending t1))) as [res ex]. destruct Hscan as [Hres Hex].
  fold queue in Hres.
  destruct (drop_expired_live now (dt_config t1) ex t1 Hok) as (Hok2&Hl2&Hf2&Hc2).
  { intros p r Hp Hg. destruct (Hex _ Hp) as (r'&Hr'&He). apply (lhm_get_elem _ _ _ (tk_nodup _ Hok)) in Hr'. congruence. }
  set (t2 := (drop_all drop_pending ex t1).2) in *.
  destruct (move_all_live now (dt_config t1) (take n queue) t2 Hok2) as (H1&H2&H3&H4).
  { intros x Hx. apply (elem_of_sublist _ queue) in Hx; [|apply sublist_take]. unfold queue in Hx. rewrite <-Hl2 in Hx.
    by apply list_elem_of_filter in Hx as [_ ?]. }
  { eapply sublist_NoDup; [apply (tk_nodup _ Hok)|]. apply fmap_sublist. etrans; [apply sublist_take|apply sublist_filter]. }
  rewrite Hres. split_and!; [done| |done|by rewrite <-Hf2|].
  - rewrite H1, Hl2. apply live_suffix, Hok.
  - unfold in_flight_count. rewrite H2, Hf2, length_take. unfold n, batch_size in *. mach. lia.
Qed.
End tracker.

(** ** Backoff window *)

Lemma quot_1024_bound x m : 0 <= m → Z.abs x <= 128 * m → Z.abs (x `quot` 1024) <= m `div` 8.
Proof.
  intros Hm Hx. rewrite Z.quot_div by lia. rewrite Z.abs_mul.
  assert (0 <= Z.abs x `div` 1024 <= m `div` 8).
  { split; [apply Z.div_pos; lia|]. replace (m `div` 8) with ((128 * m) `div` 1024).
    - apply Z.div_le_mono; lia.
    - replace (128 * m) with (m * 128) by lia. replace 1024 with (8 * 128) by lia. apply Z.div_mul_cancel_r; lia. }
  change (Z.abs 1024) with 1024. change (Z.sgn 1024) with 1.
  destruct (Z.sgn_spec x) as [[? ->]|[[? ->]|[? ->]]]; simpl; lia.
Qed.

Lemma backoff_secs_bounds raw seed : 0 <= raw <= 2 ^ 55 → 0 <= seed →
  Z.max 1 (raw - raw `div` 8) <= backoff_secs raw seed <= Z.max 1 (raw + raw `div` 8).
Proof.
  intros Hraw Hseed. unfold backoff_secs, as_i64. pose proof (Z.mod_pos_bound seed 256).
  rewrite (i64_wrap_id (seed mod 256)), (i64_wrap_id raw) by (mach; lia). set (f := seed mod 256 - 128).
  assert (Hf : Z.abs (raw * f) <= 128 * raw) by (rewrite Z.abs_mul; nia).
  rewrite (i64_wrap_id (raw * f)) by (mach; lia). pose proof (quot_1024_bound (raw * f) raw ltac:(lia) Hf) as Hq.
  assert (raw `div` 8 <= raw) by (apply Z.div_le_upper_bound; lia).
  rewrite i64_wrap_id by (mach; lia). lia.
Qed.

(** A failed dial waits out an exponential backoff within an eighth of
    its nominal value: after [f] consecutive failures the nominal wait is the
    base doubled [f - 1] times (at most ten) and capped at the maximum; the peer
    is held back while less than seven eighths of it have passed, it is released
    once nine eighths have passed, and it never waits longer than that. *)
Theorem backoff_window e now_secs base max seed :
  1 <= be_consecutive_failures e → 0 <= base → 0 <= max <= 2 ^ 55 → 0 <= seed → be_last_failure_secs e <= now_secs →
  let nominal := Z.min (base * 2 ^ Z.min (be_consecutive_failures e - 1) 10) max in
  let waited := now_secs - be_last_failure_secs e in
  (waited < Z.max 1 (nominal - nominal `div` 8) → is_Some (backoff_remaining e now_secs base max seed)) ∧
  (Z.max 1 (nominal + nominal `div` 8) <= waited → backoff_remaining e now_secs base max seed = None) ∧
  (∀ d, backoff_remaining e now_secs base max seed = Some d → 0 < d <= Z.max 1 (nominal + nominal `div` 8) - waited).
Proof.
  intros Hf Hb Hm Hs Hl nominal waited.
  assert (Hp : 1 <= 2 ^ Z.min (be_consecutive_failures e - 1) 10 <= 2 ^ 10).
  { split; [|apply Z.pow_le_mono_r; lia]. pose proof (Z.pow_pos_nonneg 2 (Z.min (be_consecutive_failures e - 1) 10)). lia. }
  assert (Hn : backoff_raw (be_consecutive_failures e) base max = nominal).
  { unfold backoff_raw, nominal. mach. lia. }
  pose proof (backoff_secs_bounds nominal seed ltac:(unfold nominal; nia) Hs) as Hbb.
  unfold backoff_remaining. rewrite decide_False by lia. rewrite Hn.
  replace (u64_saturating_sub now_secs (be_last_failure_secs e)) with waited by (unfold waited; mach; lia).
  split_and!; case_decide; try done; try lia; intros; simplify_eq; lia.
Qed.

(** ** Concrete trackers *)

#[refine, export] Instance list_linked_map V : LinkedHashMap V (list (Z * V)) := {|
  lhm_empty := [];
  lhm_insert k v m := m ++ [(k, v)];
  lhm_remove k m := filter (λ x, x.1 ≠ k) m;
  lhm_iter m := m;
|}.
Proof. all: done. Defined.

(** A cache that never evicts. *)
#[refine, export] Instance map_lru V : LruCache V (gmap Z V) := {|
  lc_new _ := ∅;
  lc_get k c := (c !! k, c);
  lc_insert k v c := <[k := v]> c;
  lc_remove k c := delete k c;
  lc_view c := c;
|}.
Proof. all: done. Defined.

Module DialDemo.

Definition config : DialTrackerConfig := mkDialConfig 3 2 60 15 10 8 5 20 8 3 100.
Definition request (id peer now : Z) : DialRequest (A:=Z) (D:=unit) := mkRequest (Some id) peer [peer] () now None.

Abbreviation start := (tracker_start (A:=Z) (D:=unit) (M:=list (Z * DialRequest)) (CB:=gmap Z BackoffEntry) (CN:=gmap Z Z)).
Abbreviation batch := (next_batch (A:=Z) (D:=unit) (M:=list (Z * DialRequest)) (CB:=gmap Z BackoffEntry) (CN:=gmap Z Z)).

(** The first request has expired when the batch is taken, so the other two go. *)
Definition ops : list (DialOp (A:=Z) (D:=unit)) :=
  [Enqueue (request 10 1 0) 0; Enqueue (request 20 2 50) 50; Enqueue (request 20 3 50) 50; Enqueue (request 30 3 55) 55].

Lemma next_batch_fifo_witness :
  (batch [] 5 65 (foldl (dial_step (λ _, 0) (λ _, Some V4)) (start config 60) ops)).1 =
    [mkDispatch (Some 20) 2 [2]; mkDispatch (Some 30) 3 [3]] ∧
  ∀ p r, (p, r) ∈ [(2, request 20 2 50); (3, request 30 3 55)] →
    dt_in_flight (batch [] 5 65 (foldl (dial_step (λ _, 0) (λ _, Some V4)) (start config 60) ops)).2 !! p =
      Some (start_request 65 r).
Proof.
  split; [vm_compute; reflexivity|].
  pose proof (next_batch_fifo (λ _ : Z, 0) (λ _ : Z, Some V4) config 60 ops [] 5 65 ltac:(lia)) as H. cbv zeta in H.
  destruct (next_batch [] 5 65 _) as [res t'] eqn:E. destruct H as (_&_&H&_). exact H.
Defined.

Lemma backoff_window_witness :
  is_Some (backoff_remaining (mkBackoff 100 2) 105 5 20 128) ∧ backoff_remaining (mkBackoff 100 2) 112 5 20 128 = None.
Proof.
  split.
  - apply (backoff_window (mkBackoff 100 2) 105 5 20 128); vm_compute; done.
  - apply (backoff_window (mkBackoff 100 2) 112 5 20 128); vm_compute; done.
Defined.

End DialDemo.
