(* ===== verification/Registry.v ===== *)
(** * The connection registry

    [crates/net/peer/registry/src]: which peer has which connection, in which
    state, under which application-level identifier ([registry.rs], [state.rs],
    [lib.rs]).  Peer, connection and application identifiers are numbers; an
    operation takes the clock reading it makes.

    The theorems: while a peer registers once and is activated under the
    identifier it was dialled for, the indices form a bijection between peers
    and keys and the counters are exact; and a peer dialled for one identifier
    that is activated under another leaves an entry behind, for which the stale
    sweep later removes the peer's active connection. *)

From S2P Require Import Prelude.

Inductive ConnectionDirection := Inbound | Outbound.

Inductive RegistryKey := Known (id : Z) | Pending (peer : Z).

#[global] Instance RegistryKey_eq_dec : EqDecision RegistryKey.
Proof. solve_decision. Defined.
#[global] Instance RegistryKey_countable : Countable RegistryKey.
Proof.
  apply (inj_countable' (λ k, match k with Known i => inl i | Pending p => inr p end)
    (λ x, match x with inl i => Known i | inr p => Pending p end)). by intros [].
Defined.

Section registry.
(** The reason carried by a connection, with its default. *)
Context {R : Type} (default_reason : R).

Inductive ConnectionState :=
| Connected (peer conn : Z) (id : option Z) (direction : ConnectionDirection) (started_at : Z) (reason : R)
| Active (peer id conn connected_at : Z) (reason : R).

Implicit Types (s : ConnectionState) (k : RegistryKey).

Definition st_reason s : R := match s with Connected _ _ _ _ _ r | Active _ _ _ _ r => r end.
Definition st_direction s : option ConnectionDirection := match s with Connected _ _ _ d _ _ => Some d | _ => None end.
Definition st_id s : option Z := match s with Connected _ _ i _ _ _ => i | Active _ i _ _ _ => Some i end.
Definition st_started_at s : option Z := match s with Connected _ _ _ _ t _ => Some t | _ => None end.
Definition st_connected_at s : option Z := match s with Active _ _ _ t _ => Some t | _ => None end.
Definition st_peer s : Z := match s with Connected p _ _ _ _ _ | Active p _ _ _ _ => p end.
Definition st_conn s : Z := match s with Connected _ c _ _ _ _ | Active _ _ c _ _ => c end.
Definition is_active s : bool := match s with Active _ _ _ _ _ => true | _ => false end.
Definition is_pending s : bool := match s with Connected _ _ _ _ _ _ => true | _ => false end.

Inductive ActivateResult := Accepted | Replaced (old_peer old_conn : Z) (old_id : option Z).

(** ** The maps behind the lock *)

Record Maps := mkMaps {
  mp_by_key : gmap RegistryKey ConnectionState;
  mp_peer_to_key : gmap Z RegistryKey;
  mp_conn_to_key : gmap Z RegistryKey;
  mp_pending_by_time : gmap Z (gset RegistryKey);
}.

Implicit Types (m : Maps).

Definition maps_default : Maps := mkMaps ∅ ∅ ∅ ∅.

Definition add_pending (t : Z) k (p : gmap Z (gset RegistryKey)) : gmap Z (gset RegistryKey) :=
  <[t := {[k]} ∪ default ∅ (p !! t)]> p.

Definition remove_pending (t : Z) k (p : gmap Z (gset RegistryKey)) : gmap Z (gset RegistryKey) :=
  match p !! t with
  | None => p
  | Some ks => if decide (ks ∖ {[k]} = ∅) then delete t p else <[t := ks ∖ {[k]}]> p
  end.

Definition maps_insert k s m : Maps :=
  mkMaps (<[k := s]> (mp_by_key m)) (<[st_peer s := k]> (mp_peer_to_key m)) (<[st_conn s := k]> (mp_conn_to_key m))
    (match st_started_at s with Some t => add_pending t k (mp_pending_by_time m) | None => mp_pending_by_time m end).

(** [remove] of a secondary index that still points to this key. *)
Definition unpoint (x : Z) k (i : gmap Z RegistryKey) : gmap Z RegistryKey :=
  if decide (i !! x = Some k) then delete x i else i.

Definition remove_by_key k m : option ConnectionState * Maps :=
  match mp_by_key m !! k with
  | None => (None, m)
  | Some s =>
      (Some s, mkMaps (delete k (mp_by_key m)) (unpoint (st_peer s) k (mp_peer_to_key m)) (unpoint (st_conn s) k (mp_conn_to_key m))
         (match st_started_at s with Some t => remove_pending t k (mp_pending_by_time m) | None => mp_pending_by_time m end))
  end.

(** The early return between the two removals leaves the first one done. *)
Definition remove_by_peer (p : Z) m : option ConnectionState * Maps :=
  match mp_peer_to_key m !! p with
  | None => (None, m)
  | Some k =>
      let m := mkMaps (mp_by_key m) (delete p (mp_peer_to_key m)) (mp_conn_to_key m) (mp_pending_by_time m) in
      match mp_by_key m !! k with
      | None => (None, m)
      | Some s =>
          (Some s, mkMaps (delete k (mp_by_key m)) (mp_peer_to_key m) (delete (st_conn s) (mp_conn_to_key m))
             (match st_started_at s with Some t => remove_pending t k (mp_pending_by_time m) | None => mp_pending_by_time m end))
      end
  end.

(** ** The registry *)

Record PeerRegistry := mkRegistry { rg_maps : Maps; rg_active : Z; rg_pending : Z }.

Implicit Types (r : PeerRegistry).

Definition registry_new : PeerRegistry := mkRegistry maps_default 0 0.

(** [fetch_add] and [fetch_sub] of a [usize]. *)
Definition fetch_add (c n : Z) : Z := (c + n) mod (u64_max + 1).
Definition fetch_sub (c n : Z) : Z := (c - n) mod (u64_max + 1).

Definition get (id : Z) r : option ConnectionState := mp_by_key (rg_maps r) !! Known id.
Definition active_connection_id (id : Z) r : option Z :=
  match get id r with Some (Active _ _ c _ _) => Some c | _ => None end.
Definition resolve_id (p : Z) r : option Z :=
  match mp_peer_to_key (rg_maps r) !! p with Some (Known i) => Some i | _ => None end.
Definition contains_peer (p : Z) r : bool := bool_decide (is_Some (mp_peer_to_key (rg_maps r) !! p)).
Definition resolve_peer_id (id : Z) r : option Z := st_peer <$> get id r.
Definition get_by_peer_id (p : Z) r : option ConnectionState :=
  mp_peer_to_key (rg_maps r) !! p ≫= λ k, mp_by_key (rg_maps r) !! k.
Definition active_ids r : list Z :=
  omap (λ x, match x with (Known i, Active _ _ _ _ _) => Some i | _ => None end) (map_to_list (mp_by_key (rg_maps r))).

Definition connected_outbound (p c : Z) (id : option Z) (started_at : Z) (reason : R) r :
    option ConnectionState * PeerRegistry :=
  let m := rg_maps r in
  if decide (is_Some (mp_peer_to_key m !! p)) then (None, r)
  else
    let k := match id with Some i => Known i | None => Pending p end in
    if decide (is_Some id ∧ is_Some (mp_by_key m !! k)) then (None, r)
    else
      let s := Connected p c id Outbound started_at reason in
      (Some s, mkRegistry (maps_insert k s m) (rg_active r) (fetch_add (rg_pending r) 1)).

Definition connected_inbound (p c now : Z) r : ConnectionState * PeerRegistry :=
  let s := Connected p c None Inbound now default_reason in
  (s, mkRegistry (maps_insert (Pending p) s (rg_maps r)) (rg_active r) (fetch_add (rg_pending r) 1)).

Inductive Replacement :=
| ById (old_peer old_conn : Z) (pending_key : option RegistryKey)
| ByPeerId (existing_id old_conn : Z)
| NoReplacement (pending_key : option RegistryKey).

Definition is_pending_key m k : option RegistryKey :=
  if is_some_and is_pending (mp_by_key m !! k) then Some k else None.

Definition find_replacement m (id p : Z) : Replacement :=
  match mp_by_key m !! Known id with
  | Some (Active ap _ ac _ _) =>
      ById ap ac (match mp_peer_to_key m !! p with
                  | Some k => if decide (k = Known id) then None else is_pending_key m k
                  | None => None
                  end)
  | _ =>
      let normal := NoReplacement (is_pending_key m (Pending p)) in
      match mp_peer_to_key m !! p with
      | Some (Known existing) =>
          if decide (existing = id) then normal
          else match mp_by_key m !! Known existing with
               | Some (Active _ _ c _ _) => ByPeerId existing c
               | _ => normal
               end
      | _ => normal
      end
  end.

(** Removing an optional key, counting the removal. *)
Definition remove_opt (o : option RegistryKey) m : Z * Maps :=
  match o with
  | None => (0, m)
  | Some k => let '(s, m) := remove_by_key k m in (if decide (is_Some s) then 1 else 0, m)
  end.

Definition activate (p c id now : Z) r : ActivateResult * PeerRegistry :=
  let m := rg_maps r in
  let reason := default default_reason (st_reason <$> (mp_peer_to_key m !! p ≫= λ k, mp_by_key m !! k)) in
  let replacement := find_replacement m id p in
  let '(old, m) := remove_by_key (Known id) m in
  let '(pending0, active0) := match old with Some s => if is_active s then (0, 1) else (1, 0) | None => (0, 0) end in
  let '(res, m, pending1, active1) :=
    match replacement with
    | ById op oc pk => let '(n, m) := remove_opt pk m in (Replaced op oc None, m, n, 0)
    | ByPeerId ei oc => let '(n, m) := remove_opt (Some (Known ei)) m in (Replaced p oc (Some ei), m, 0, n)
    | NoReplacement pk => let '(n, m) := remove_opt pk m in (Accepted, m, n, 0)
    end in
  let m := maps_insert (Known id) (Active p id c now reason) m in
  (res, mkRegistry m (fetch_sub (fetch_add (rg_active r) 1) (active0 + active1)) (fetch_sub (rg_pending r) (pending0 + pending1))).

Definition disconnected (p : Z) r : option ConnectionState * PeerRegistry :=
  let '(s, m) := remove_by_peer p (rg_maps r) in
  (s, match s with
      | Some s => if is_active s then mkRegistry m (fetch_sub (rg_active r) 1) (rg_pending r)
                  else mkRegistry m (rg_active r) (fetch_sub (rg_pending r) 1)
      | None => mkRegistry m (rg_active r) (rg_pending r)
      end).

(** Entries of the time index, by time. *)
Definition earlier (x y : Z * gset RegistryKey) : Prop := x.1 <= y.1.
#[local] Instance earlier_dec x y : Decision (earlier x y).
Proof. unfold earlier. apply _. Defined.

(** The peers of pending entries that started at or before the cutoff; the
    walk visits times in order and the keys of one time in some order. *)
Definition stale_pending (timeout now : Z) r : list Z :=
  if decide (now < timeout) then []
  else
    let cutoff := now - timeout in
    let times := filter (λ x : Z * gset RegistryKey, x.1 <= cutoff) (map_to_list (mp_pending_by_time (rg_maps r))) in
    let keys := concat ((λ x, elements x.2) <$> merge_sort earlier times) in
    omap (λ k, st_peer <$> mp_by_key (rg_maps r) !! k) keys.

(** ** Histories *)

Inductive RegistryOp :=
| OpOutbound (p c : Z) (id : option Z) (started_at : Z) (reason : R)
| OpInbound (p c now : Z)
| OpActivate (p c id now : Z)
| OpDisconnected (p : Z).

Definition registry_step r (op : RegistryOp) : PeerRegistry :=
  match op with
  | OpOutbound p c id t reason => (connected_outbound p c id t reason r).2
  | OpInbound p c now => (connected_inbound p c now r).2
  | OpActivate p c id now => (activate p c id now r).2
  | OpDisconnected p => (disconnected p r).2
  end.

(** ** Consistency *)

Definition counts (b : bool) s : Z := if Bool.eqb (is_active s) b then 1 else 0.
Definition total (b : bool) (x : gmap RegistryKey ConnectionState) : Z := map_sumZ (λ _, counts b) x.

Record maps_ok m : Prop := {
  mo_peer : ∀ k s, mp_by_key m !! k = Some s → mp_peer_to_key m !! st_peer s = Some k;
  mo_key : ∀ p k, mp_peer_to_key m !! p = Some k → ∃ s, mp_by_key m !! k = Some s ∧ st_peer s = p;
  mo_shape : ∀ k s, mp_by_key m !! k = Some s →
    match k with Known i => st_id s = Some i | Pending p => is_active s = false ∧ st_peer s = p ∧ st_id s = None end;
  mo_times : ∀ t k, k ∈ default ∅ (mp_pending_by_time m !! t) ↔ ∃ s, mp_by_key m !! k = Some s ∧ st_started_at s = Some t;
}.

Record registry_ok (n : nat) r : Prop := {
  ro_maps : maps_ok (rg_maps r);
  ro_active : rg_active r = total true (mp_by_key (rg_maps r));
  ro_pending : rg_pending r = total false (mp_by_key (rg_maps r));
  ro_bound : Z.of_nat (size (mp_by_key (rg_maps r))) <= Z.of_nat n;
}.

(** ** Removals and insertions *)

Lemma elem_add_pending t k p t' k' :
  k' ∈ default ∅ (add_pending t k p !! t') ↔ (t' = t ∧ k' = k) ∨ k' ∈ default ∅ (p !! t').
Proof.
  unfold add_pending. destruct (decide (t = t')) as [->|Hne].
  - rewrite lookup_insert_eq. simpl. set_solver.
  - rewrite lookup_insert_ne by done. naive_solver.
Qed.

Lemma elem_remove_pending t k p t' k' :
  k' ∈ default ∅ (remove_pending t k p !! t') ↔ k' ∈ default ∅ (p !! t') ∧ ¬ (t' = t ∧ k' = k).
Proof.
  unfold remove_pending. destruct (p !! t) as [ks|] eqn:E.
  - destruct (decide (t = t')) as [->|Hne].
    + rewrite E. simpl. case_decide as Hks.
      * rewrite lookup_delete_eq. simpl. set_solver.
      * rewrite lookup_insert_eq. simpl. set_solver.
    + case_decide; [rewrite lookup_delete_ne by done|rewrite lookup_insert_ne by done]; naive_solver.
  - destruct (decide (t = t')) as [->|Hne]; [rewrite E; simpl; set_solver|naive_solver].
Qed.

(** Both removals change the three maps in this way. *)
Lemma removal_ok m k s conns : maps_ok m → mp_by_key m !! k = Some s →
  maps_ok (mkMaps (delete k (mp_by_key m)) (delete (st_peer s) (mp_peer_to_key m)) conns
    (match st_started_at s with Some t => remove_pending t k (mp_pending_by_time m) | None => mp_pending_by_time m end)).
Proof.
  intros [H1 H2 H3 H4] Hk. split; simpl.
  - intros k' s' [Hne Hs']%lookup_delete_Some. rewrite lookup_delete_ne; [by apply H1|].
    intros E. apply H1 in Hs', Hk. congruence.
  - intros p' k' [Hne Hp]%lookup_delete_Some. destruct (H2 _ _ Hp) as (s'&Hs'&<-). exists s'. split; [|done].
    rewrite lookup_delete_ne; [done|]. intros ->. congruence.
  - intros k' s' [_ Hs']%lookup_delete_Some. by apply H3.
  - intros t k'. setoid_rewrite lookup_delete_Some.
    assert (Hp : k' ∈ default ∅ ((match st_started_at s with Some t => remove_pending t k (mp_pending_by_time m)
      | None => mp_pending_by_time m end) !! t) ↔ k' ∈ default ∅ (mp_pending_by_time m !! t) ∧ ¬ (st_started_at s = Some t ∧ k' = k)).
    { destruct (st_started_at s) as [t0|]; [rewrite elem_remove_pending; naive_solver|naive_solver]. }
    rewrite Hp, H4. split.
    + intros [(s'&Hs'&Ht) Hn]. exists s'. split; [|done]. split; [|done]. intros <-. apply Hn. split; congruence.
    + intros (s'&[Hne Hs']&Ht). split; [by exists s'|]. intros [_ ->]. done.
Qed.

Lemma remove_by_key_spec k m : maps_ok m →
  let m' := (remove_by_key k m).2 in
  maps_ok m' ∧ (remove_by_key k m).1 = mp_by_key m !! k ∧ mp_by_key m' = delete k (mp_by_key m) ∧
  mp_peer_to_key m' = match mp_by_key m !! k with Some s => delete (st_peer s) (mp_peer_to_key m) | None => mp_peer_to_key m end.
Proof.
  intros Hm. unfold remove_by_key. destruct (mp_by_key m !! k) as [s|] eqn:E; simpl.
  - unfold unpoint. rewrite (decide_True (P:=mp_peer_to_key m !! st_peer s = Some k)) by (by apply Hm).
    split; [by apply removal_ok|done].
  - by rewrite delete_id.
Qed.

Lemma remove_opt_spec o m : maps_ok m →
  let '(n, m') := remove_opt o m in
  let found := o ≫= λ k, mp_by_key m !! k in
  maps_ok m' ∧ n = (if decide (is_Some found) then 1 else 0) ∧
  mp_by_key m' = match o with Some k => delete k (mp_by_key m) | None => mp_by_key m end ∧
  mp_peer_to_key m' = match found with Some s => delete (st_peer s) (mp_peer_to_key m) | None => mp_peer_to_key m end.
Proof.
  intros Hm. destruct o as [k|]; simpl; [|done]. destruct (remove_by_key_spec k m Hm) as (H1&H2&H3&H4).
  destruct (remove_by_key k m) as [s m']. simpl in *. by subst s.
Qed.

Lemma maps_insert_ok k s m : maps_ok m → mp_by_key m !! k = None → mp_peer_to_key m !! st_peer s = None →
  match k with Known i => st_id s = Some i | Pending p => is_active s = false ∧ st_peer s = p ∧ st_id s = None end →
  maps_ok (maps_insert k s m).
Proof.
  intros [H1 H2 H3 H4] Hk Hp Hs. split; simpl.
  - intros k' s' [[<- <-]|[Hne Hs']]%lookup_insert_Some; [by rewrite lookup_insert_eq|].
    rewrite lookup_insert_ne; [by apply H1|]. intros E. apply H1 in Hs'. congruence.
  - intros p' k' [[<- <-]|[Hne Hp']]%lookup_insert_Some; [exists s; by rewrite lookup_insert_eq|].
    destruct (H2 _ _ Hp') as (s'&Hs'&<-). exists s'. rewrite lookup_insert_ne by congruence. done.
  - intros k' s' [[<- <-]|[Hne Hs']]%lookup_insert_Some; [done|by apply H3].
  - intros t k'.
    assert (Ht : k' ∈ default ∅ ((match st_started_at s with Some t => add_pending t k (mp_pending_by_time m)
      | None => mp_pending_by_time m end) !! t) ↔ (st_started_at s = Some t ∧ k' = k) ∨ k' ∈ default ∅ (mp_pending_by_time m !! t)).
    { destruct (st_started_at s) as [t0|]; [rewrite elem_add_pending; naive_solver|naive_solver]. }
    rewrite Ht, H4. split.
    + intros [[? ->]|(s'&Hs'&?)]; [exists s; by rewrite lookup_insert_eq|]. exists s'. rewrite lookup_insert_ne by congruence. done.
    + intros (s'&[[<- <-]|[Hne Hs']]%lookup_insert_Some&?); [by left|right; eauto].
Qed.

(** ** Counting *)

Definition opt_count (b : bool) (o : option ConnectionState) : Z := match o with Some s => counts b s | None => 0 end.

Implicit Types (x : gmap RegistryKey ConnectionState).

Lemma total_delete b k x : total b (delete k x) = total b x - opt_count b (x !! k).
Proof.
  unfold total. destruct (x !! k) as [s|] eqn:E; simpl; [rewrite (map_sumZ_delete _ x k s E); lia|].
  rewrite delete_id by done. lia.
Qed.

Lemma total_insert b k s x : x !! k = None → total b (<[k := s]> x) = total b x + counts b s.
Proof. intros Hk. unfold total. rewrite map_sumZ_insert by done. lia. Qed.

Lemma total_range b x : 0 <= total b x <= Z.of_nat (size x).
Proof.
  unfold total. induction x as [|k s x Hk IH] using map_ind; [rewrite map_sumZ_empty, map_size_empty; lia|].
  rewrite map_sumZ_insert, map_size_insert_None by done.
  assert (0 <= counts b s <= 1) by (unfold counts; destruct (Bool.eqb _ _); lia). lia.
Qed.

Lemma size_delete_le k x : (size (delete k x) <= size x)%nat.
Proof. apply map_subseteq_size, delete_subseteq. Qed.

Lemma fetch_exact c n : 0 <= c + n <= u64_max → fetch_add c n = c + n.
Proof. intros ?. unfold fetch_add. apply Z.mod_small. mach. lia. Qed.
Lemma fetch_sub_exact c n : 0 <= c - n <= u64_max → fetch_sub c n = c - n.
Proof. intros ?. unfold fetch_sub. apply Z.mod_small. mach. lia. Qed.

(** ** Well-behaved calls *)

(** An inbound connection is the peer's first; a peer is activated under the
    identifier it was dialled for, or changes it while the new one is free. *)
Definition well_called r (op : RegistryOp) : Prop :=
  let m := rg_maps r in
  match op with
  | OpInbound p _ _ => mp_peer_to_key m !! p = None
  | OpActivate p _ id _ =>
      match mp_peer_to_key m !! p with
      | Some (Known j) => j = id ∨ (is_some_and is_active (get j r) = true ∧ is_some_and is_active (get id r) = false)
      | _ => True
      end
  | _ => True
  end.

Fixpoint all_well_called r (ops : list RegistryOp) : Prop :=
  match ops with
  | [] => True
  | op :: ops => well_called r op ∧ all_well_called (registry_step r op) ops
  end.

Lemma counts_eq s : counts true s = (if is_active s then 1 else 0) ∧ counts false s = (if is_active s then 0 else 1).
Proof. unfold counts. by destruct (is_active s). Qed.

(** Inserting a connected entry. *)
Lemma insert_connected_ok n r k s : registry_ok n r → Z.of_nat n < u64_max →
  mp_by_key (rg_maps r) !! k = None → mp_peer_to_key (rg_maps r) !! st_peer s = None → is_active s = false →
  match k with Known i => st_id s = Some i | Pending p => st_peer s = p ∧ st_id s = None end →
  registry_ok (S n) (mkRegistry (maps_insert k s (rg_maps r)) (rg_active r) (fetch_add (rg_pending r) 1)).
Proof.
  intros [Hm Ha Hp Hb] Hn Hk Hpk Hs Hshape. pose proof (total_range false (mp_by_key (rg_maps r))) as Hr.
  destruct (counts_eq s) as [Ct Cf]. rewrite Hs in Ct, Cf. split; simpl.
  - apply maps_insert_ok; [done|done|done|]. destruct k; [done|]. naive_solver.
  - rewrite total_insert by done. lia.
  - rewrite fetch_exact, total_insert by (done || lia). lia.
  - rewrite map_size_insert_None by done. lia.
Qed.

Lemma disconnected_ok n r p : registry_ok n r → Z.of_nat n <= u64_max → registry_ok n (disconnected p r).2.
Proof.
  intros [Hm Ha Hp Hb] Hn. unfold disconnected, remove_by_peer.
  destruct (mp_peer_to_key (rg_maps r) !! p) as [k|] eqn:E; [|split; simpl; [done|done|done|lia]].
  destruct (mo_key _ Hm _ _ E) as (s&Hs&<-). simpl. rewrite Hs. simpl. set (x := mp_by_key (rg_maps r)) in *.
  pose proof (removal_ok (rg_maps r) k s (delete (st_conn s) (mp_conn_to_key (rg_maps r))) Hm Hs) as Hm'.
  pose proof (total_delete true k x) as Hta. pose proof (total_delete false k x) as Htp.
  pose proof (total_range true (delete k x)). pose proof (total_range false (delete k x)). pose proof (size_delete_le k x).
  rewrite Hs in Hta, Htp. destruct (counts_eq s) as [Ct Cf]. simpl in Hta, Htp.
  destruct (is_active s); (split; simpl; fold x; [exact Hm'|..|lia]); rewrite ?fetch_sub_exact; lia.
Qed.

(** After the removals of an activation the identifier and the peer are free. *)
Lemma activate_frees r p c id now :
  maps_ok (rg_maps r) → well_called r (OpActivate p c id now) →
  let m := rg_maps r in
  let second := match find_replacement m id p with
                | ById _ _ pk | NoReplacement pk => pk | ByPeerId ei _ => Some (Known ei) end in
  let m1 := (remove_by_key (Known id) m).2 in
  second ≠ Some (Known id) ∧
  (∀ k s, second = Some k → mp_by_key m !! k = Some s →
     is_active s = match find_replacement m id p with ByPeerId _ _ => true | _ => false end) ∧
  mp_peer_to_key (remove_opt second m1).2 !! p = None.
Proof.
  intros Hm Hw. unfold well_called, get in Hw. cbv zeta in *. revert Hm Hw. generalize (rg_maps r) as m. clear r. intros m Hm Hw.
  set (second := match find_replacement m id p with ById _ _ pk => pk | _ => _ end).
  destruct (remove_by_key_spec (Known id) m Hm) as (Hm1&_&Hb1&Hp1). set (m1 := (remove_by_key (Known id) m).2) in *.
  pose proof (remove_opt_spec second m1 Hm1) as Hr. destruct (remove_opt second m1) as [n2 m2]. destruct Hr as (_&_&_&Hp2).
  simpl. rewrite Hp2. clear Hp2 n2 m2. rewrite Hp1.
  assert (Hpp : ∀ s, mp_by_key m !! Pending p = Some s → mp_peer_to_key m !! p = Some (Pending p) ∧ is_active s = false).
  { intros s Hs. destruct (mo_shape _ Hm _ _ Hs) as (?&E&_). pose proof (mo_peer _ Hm _ _ Hs) as Hx. by rewrite E in Hx. }
  assert (Hnp : mp_peer_to_key m !! p ≠ Some (Pending p) → is_pending_key m (Pending p) = None).
  { intros Hne. unfold is_pending_key. destruct (mp_by_key m !! Pending p) as [s|] eqn:E; [|done].
    by destruct (Hpp s eq_refl). }
  unfold second, find_replacement. destruct (mp_peer_to_key m !! p) as [[j|q]|] eqn:Ep.
  - destruct (mo_key _ Hm _ _ Ep) as (sj&Hsj&Hpj). rewrite Hnp by done. destruct (decide (j = id)) as [->|Hne].
    + rewrite Hsj. assert (Hd : delete (st_peer sj) (mp_peer_to_key m) !! p = None) by (rewrite Hpj; apply lookup_delete_eq).
      destruct sj; simpl; rewrite ?decide_True by done; split_and!; done.
    + destruct Hw as [->|[Hact Hnot]]; [done|]. rewrite Hsj in Hact.
      destruct sj as [|pj ij cj tj rj]; [done|]. rewrite Hsj.
      destruct (mp_by_key m !! Known id) as [[]|] eqn:Eid; [|done|]; simpl; rewrite Hb1, lookup_delete_ne, Hsj by congruence; simpl;
        (split_and!; [congruence|by intros k s [= <-]; rewrite Hsj; intros [= <-]|]); simpl in Hpj; rewrite Hpj; apply lookup_delete_eq.
  - destruct (mo_key _ Hm _ _ Ep) as (sq&Hsq&Hpq). destruct (mo_shape _ Hm _ _ Hsq) as (Hna&Hq&_). rewrite Hpq in Hq. subst q.
    assert (Hpk : is_pending_key m (Pending p) = Some (Pending p)).
    { unfold is_pending_key. rewrite Hsq. by destruct sq. }
    assert (Hd : ∀ x : gmap Z RegistryKey, delete (st_peer sq) x !! p = None) by (intros x; rewrite Hpq; apply lookup_delete_eq).
    assert (Hb : mp_by_key m1 !! Pending p = Some sq) by (by rewrite Hb1, lookup_delete_ne).
    destruct (mp_by_key m !! Known id) as [[]|] eqn:Eid; simpl; rewrite ?decide_False, Hpk by done; simpl; rewrite Hb;
      (split_and!; [done|intros k s [= <-]; rewrite Hsq; by intros [= <-]|apply Hd]).
  - rewrite Hnp by done. destruct (mp_by_key m !! Known id) as [[]|] eqn:Eid; simpl;
      (split_and!; [done|done|]); rewrite ?lookup_delete_None; auto.
Qed.

Lemma remove_opt_total b o m : maps_ok m →
  total b (mp_by_key (remove_opt o m).2) = total b (mp_by_key m) - opt_count b (o ≫= λ k, mp_by_key m !! k) ∧
  (size (mp_by_key (remove_opt o m).2) <= size (mp_by_key m))%nat.
Proof.
  intros Hm. pose proof (remove_opt_spec o m Hm) as Hr. destruct (remove_opt o m) as [n m']. destruct Hr as (_&_&Hr&_). simpl. rewrite Hr.
  destruct o as [k|]; simpl; [rewrite total_delete; split; [done|apply size_delete_le]|lia].
Qed.

Lemma activate_ok n r p c id now : registry_ok n r → Z.of_nat n < u64_max → well_called r (OpActivate p c id now) →
  registry_ok (S n) (activate p c id now r).2.
Proof.
  intros [Hm Ha Hp Hb] Hn Hw. pose proof (activate_frees r p c id now Hm Hw) as Hf. cbv zeta in Hf. unfold activate.
  destruct (remove_by_key_spec (Known id) (rg_maps r) Hm) as (Hm1&Hold&Hb1&Hp1).
  destruct (remove_by_key (Known id) (rg_maps r)) as [old m1]. cbn [fst snd] in *.
  set (reason := default default_reason _). clearbody reason.
  set (second := match find_replacement (rg_maps r) id p with ById _ _ pk => pk | ByPeerId ei _ => Some (Known ei) | NoReplacement pk => pk end) in *.
  destruct Hf as (Hne&Hact&Hfree).
  pose proof (remove_opt_spec second m1 Hm1) as Hspec. pose proof (remove_opt_total true second m1 Hm1) as [Hta Hsz].
  pose proof (remove_opt_total false second m1 Hm1) as [Htf _].
  assert (Hfound : (second ≫= λ k, mp_by_key m1 !! k) = second ≫= λ k, mp_by_key (rg_maps r) !! k).
  { destruct second as [k|]; [|done]. simpl. rewrite Hb1, lookup_delete_ne; [done|]. congruence. }
  rewrite Hfound in Hspec, Hta, Htf. set (found := second ≫= λ k, mp_by_key (rg_maps r) !! k) in *.
  assert (Hfk : ∀ s, found = Some s → is_active s = match find_replacement (rg_maps r) id p with ByPeerId _ _ => true | _ => false end).
  { intros s Hs. unfold found in Hs. apply bind_Some in Hs as (k&?&?). eauto. }
  rewrite Hb1, total_delete, <-Hold in Hta, Htf. pose proof (size_delete_le (Known id) (mp_by_key (rg_maps r))) as Hsz1. rewrite <-Hb1 in Hsz1.
  destruct (remove_opt second m1) as [n2 m2] eqn:E2. destruct Hspec as (Hm2&Hn2&Hb2&_). cbn [fst snd] in *.
  assert (Hnone : mp_by_key m2 !! Known id = None).
  { rewrite Hb2, Hb1. destruct second; [rewrite lookup_delete_None; right|]; apply lookup_delete_eq. }
  pose proof (total_range true (mp_by_key m2)). pose proof (total_range false (mp_by_key m2)).
  assert (Hgen : ∀ a1 p1, a1 = opt_count true found → p1 = opt_count false found →
    registry_ok (S n) (mkRegistry (maps_insert (Known id) (Active p id c now reason) m2)
      (fetch_sub (fetch_add (rg_active r) 1) (opt_count true old + a1)) (fetch_sub (rg_pending r) (opt_count false old + p1)))).
  { intros a1 p1 -> ->. split; simpl.
    - by apply maps_insert_ok.
    - rewrite total_insert by done. pose proof (counts_eq (Active p id c now reason)) as [-> _]. simpl.
      pose proof (total_range true (mp_by_key (rg_maps r))). rewrite fetch_exact by lia. rewrite fetch_sub_exact by lia. lia.
    - rewrite total_insert by done. pose proof (counts_eq (Active p id c now reason)) as [_ ->]. simpl. rewrite fetch_sub_exact by lia. lia.
    - rewrite map_size_insert_None by done. lia. }
  assert (Hcnt : match find_replacement (rg_maps r) id p with ByPeerId _ _ => opt_count true found = n2 ∧ opt_count false found = 0
    | _ => opt_count true found = 0 ∧ opt_count false found = n2 end).
  { destruct found as [s|]; simpl in *; [|rewrite Hn2; by destruct (find_replacement _ _ _)].
    specialize (Hfk s eq_refl). destruct (counts_eq s) as [-> ->]. rewrite Hfk, Hn2. by destruct (find_replacement _ _ _). }
  assert (Hold' : ∃ p0 a0, (match old with Some s => if is_active s then (0, 1) else (1, 0) | None => (0, 0) end) = (p0, a0) ∧
    opt_count true old = a0 ∧ opt_count false old = p0).
  { destruct old as [s|]; [|by exists 0, 0]. simpl. destruct (counts_eq s) as [-> ->]. destruct (is_active s); eauto. }
  destruct Hold' as (p0&a0&->&<-&<-). unfold second in E2.
  destruct (find_replacement (rg_maps r) id p); rewrite E2; simpl; apply Hgen; by destruct Hcnt.
Qed.

Lemma registry_step_ok n r op : registry_ok n r → Z.of_nat n < u64_max → well_called r op → registry_ok (S n) (registry_step r op).
Proof.
  intros Hok Hn Hw. destruct op as [p c id t reason|p c now|p c id now|p]; simpl.
  - unfold connected_outbound.
    assert (Hsame : registry_ok (S n) r) by (destruct Hok; split; [done|done|done|lia]).
    case_decide as Hp; [done|]. apply eq_None_not_Some in Hp. case_decide as Hk; [done|]. simpl.
    apply insert_connected_ok; [done|done| |done|done|by destruct id].
    destruct id as [i|]; [apply eq_None_not_Some; naive_solver|].
    destruct (mp_by_key (rg_maps r) !! Pending p) as [s|] eqn:E; [|done]. destruct (ro_maps _ _ Hok) as [H1 _ H3 _].
    destruct (H3 _ _ E) as (_&Hs&_). apply H1 in E. congruence.
  - apply insert_connected_ok; [done|done| |done|done|done].
    destruct (mp_by_key (rg_maps r) !! Pending p) as [s|] eqn:E; [|done]. destruct (ro_maps _ _ Hok) as [H1 _ H3 _].
    destruct (H3 _ _ E) as (_&Hs&_). apply H1 in E. simpl in Hw. congruence.
  - by apply activate_ok.
  - destruct (disconnected_ok n r p Hok) as [H1 H2 H3 H4]; [lia|]. split; [done|done|done|lia].
Qed.

Lemma registry_run_ok ops : ∀ n r, registry_ok n r → Z.of_nat n + Z.of_nat (length ops) <= u64_max → all_well_called r ops →
  registry_ok (n + length ops) (foldl registry_step r ops).
Proof.
  induction ops as [|op ops IH]; intros n r Hok Hn Hw; simpl in *; [by rewrite Nat.add_0_r|].
  destruct Hw as [Hw Hws]. replace (n + S (length ops))%nat with (S n + length ops)%nat by lia.
  apply IH; [|lia|done]. apply registry_step_ok; [done|lia|done].
Qed.

Lemma registry_new_ok : registry_ok 0 registry_new.
Proof.
  split; simpl; [split; simpl| | |done].
  - intros k s. by rewrite lookup_empty.
  - intros p k. by rewrite lookup_empty.
  - intros k s. by rewrite lookup_empty.
  - intros t k. setoid_rewrite lookup_empty. simpl. set_solver.
  - unfold total. by rewrite map_sumZ_empty.
  - unfold total. by rewrite map_sumZ_empty.
Qed.

Lemma stale_pending_iff r timeout now p : maps_ok (rg_maps r) → timeout <= now →
  p ∈ stale_pending timeout now r ↔ ∃ s t, get_by_peer_id p r = Some s ∧ st_started_at s = Some t ∧ t <= now - timeout.
Proof.
  intros [H1 H2 H3 H4] Hto. unfold stale_pending. rewrite decide_False by lia. rewrite list_elem_of_omap. split.
  - intros (k&Hk&Hs). apply fmap_Some in Hs as (s&Hs&->). apply list_elem_of_In, in_concat in Hk as (ks&Hks%list_elem_of_In&Hk%list_elem_of_In).
    apply list_elem_of_fmap in Hks as ([t kset]&->&Hin). rewrite merge_sort_Permutation, list_elem_of_filter in Hin.
    destruct Hin as [Hle Hin%elem_of_map_to_list]. simpl in *. apply elem_of_elements in Hk.
    destruct (proj1 (H4 t k)) as (s'&Hs'&Ht); [by rewrite Hin|]. assert (s' = s) as -> by congruence.
    exists s, t. unfold get_by_peer_id. by rewrite (H1 _ _ Hs).
  - intros (s&t&Hg&Ht&Hle). unfold get_by_peer_id in Hg. apply bind_Some in Hg as (k&Hpk&Hs).
    destruct (H2 _ _ Hpk) as (s'&Hs'&<-). assert (s' = s) as -> by congruence. exists k. split; [|by rewrite Hs].
    assert (Hin : k ∈ default ∅ (mp_pending_by_time (rg_maps r) !! t)) by (apply H4; eauto).
    destruct (mp_pending_by_time (rg_maps r) !! t) as [ks|] eqn:E; [|set_solver]. apply list_elem_of_In, in_concat.
    exists (elements ks). rewrite <-!list_elem_of_In. split; [|by apply elem_of_elements]. apply list_elem_of_fmap. exists (t, ks). split; [done|].
    rewrite merge_sort_Permutation, list_elem_of_filter. split; [done|by apply elem_of_map_to_list].
Qed.

(** The registry keeps one connection per peer and one peer per
    identifier.  After any well-behaved history (an inbound connection is the
    peer's first, a peer is activated under the identifier it was dialled for or
    changes identifier while the new one is free), a peer resolves to a key
    exactly when an entry of that peer is stored under it, an active entry is
    found under its identifier and by its peer, the stale sweep lists exactly the
    peers whose connection has waited past the cutoff, and the two counters are
    the numbers of active and of waiting connections. *)
Theorem registry_one_to_one ops :
  Z.of_nat (length ops) <= u64_max → all_well_called registry_new ops →
  let r := foldl registry_step registry_new ops in
  (∀ p k, mp_peer_to_key (rg_maps r) !! p = Some k ↔ ∃ s, mp_by_key (rg_maps r) !! k = Some s ∧ st_peer s = p) ∧
  (∀ id p i c t reason, get id r = Some (Active p i c t reason) → i = id ∧ resolve_id p r = Some id ∧
     get_by_peer_id p r = get id r) ∧
  (∀ timeout now p, timeout <= now → p ∈ stale_pending timeout now r ↔
     ∃ s t, get_by_peer_id p r = Some s ∧ st_started_at s = Some t ∧ t <= now - timeout) ∧
  rg_active r = total true (mp_by_key (rg_maps r)) ∧ rg_pending r = total false (mp_by_key (rg_maps r)).
Proof.
  intros Hlen Hw r. pose proof (registry_run_ok ops 0 _ registry_new_ok ltac:(lia) Hw) as [Hm Ha Hp _]. fold r in Hm, Ha, Hp.
  destruct Hm as [H1 H2 H3 H4]. split_and!; [| | |done|done].
  - intros p k. split; [apply H2|]. intros (s&Hs&<-). by apply H1.
  - intros id p i c t reason Hg. pose proof (H3 _ _ Hg) as [= ->]. apply H1 in Hg as Hpk. simpl in Hpk.
    unfold resolve_id, get_by_peer_id. rewrite Hpk. done.
  - intros timeout now p Hto. by apply stale_pending_iff.
Qed.

(** ** What the operations do to the entry of an identifier *)

Lemma get_connected_outbound p c id t reason r : mp_peer_to_key (rg_maps r) !! p = None → (∀ i, id = Some i → get i r = None) →
  let s := Connected p c id Outbound t reason in
  let r' := (connected_outbound p c id t reason r).2 in
  (∀ i, get i r' = if decide (id = Some i) then Some s else get i r) ∧ mp_peer_to_key (rg_maps r') !! p = Some (match id with Some i => Known i | None => Pending p end).
Proof.
  intros Hp Hid s. unfold connected_outbound. rewrite decide_False by (rewrite Hp; by intros []).
  rewrite decide_False. 2: { intros [[i ->] [x Hx]]. specialize (Hid i eq_refl). unfold get in Hid. simpl in Hx. congruence. }
  simpl. split; [|by rewrite lookup_insert_eq]. intros i. unfold get. simpl. destruct id as [j|].
  - destruct (decide (j = i)) as [->|Hne]; [by rewrite lookup_insert_eq, decide_True|].
    rewrite lookup_insert_ne, decide_False by congruence. done.
  - by rewrite lookup_insert_ne, decide_False.
Qed.

Lemma get_connected_inbound p c now r i : get i (connected_inbound p c now r).2 = get i r.
Proof. unfold get. simpl. by rewrite lookup_insert_ne. Qed.

Lemma get_disconnected p r : maps_ok (rg_maps r) →
  (disconnected p r).1 = get_by_peer_id p r ∧
  ∀ i, get i (disconnected p r).2 = if decide (get_by_peer_id p r ≫= st_id = Some i) then None else get i r.
Proof.
  intros Hm. unfold disconnected, remove_by_peer, get_by_peer_id, get.
  destruct (mp_peer_to_key (rg_maps r) !! p) as [k|] eqn:E; simpl; [|done].
  destruct (mo_key _ Hm _ _ E) as (s&Hs&_). rewrite Hs. simpl. split; [done|]. intros i.
  pose proof (mo_shape _ Hm _ _ Hs) as Hsh. replace (rg_maps _) with (mkMaps (delete k (mp_by_key (rg_maps r)))
    (delete p (mp_peer_to_key (rg_maps r))) (delete (st_conn s) (mp_conn_to_key (rg_maps r)))
    (match st_started_at s with Some t => remove_pending t k (mp_pending_by_time (rg_maps r)) | None => mp_pending_by_time (rg_maps r) end))
    by (by destruct (is_active s)). simpl. destruct k as [j|q].
  - rewrite Hsh. destruct (decide (j = i)) as [->|Hne]; [by rewrite lookup_delete_eq, decide_True|].
    rewrite lookup_delete_ne, decide_False by congruence. done.
  - destruct Hsh as (_&_&->). by rewrite lookup_delete_ne, decide_False.
Qed.

Lemma get_by_peer_disconnected p q r : maps_ok (rg_maps r) →
  get_by_peer_id q (disconnected p r).2 = if decide (q = p) then None else get_by_peer_id q r.
Proof.
  intros Hm. unfold disconnected, remove_by_peer, get_by_peer_id.
  destruct (mp_peer_to_key (rg_maps r) !! p) as [k|] eqn:E; simpl.
  2: { case_decide; [subst; by rewrite E|done]. }
  destruct (mo_key _ Hm _ _ E) as (s&Hs&Hp). rewrite Hs. simpl.
  assert (Hgen : ∀ a b cs ts, let r' := mkRegistry (mkMaps (delete k (mp_by_key (rg_maps r))) (delete p (mp_peer_to_key (rg_maps r))) cs ts) a b in
    mp_peer_to_key (rg_maps r') !! q ≫= (λ k, mp_by_key (rg_maps r') !! k) =
    if decide (q = p) then None else mp_peer_to_key (rg_maps r) !! q ≫= λ k, mp_by_key (rg_maps r) !! k).
  { intros a b cs ts. simpl. case_decide as Hq; [subst; by rewrite lookup_delete_eq|]. rewrite lookup_delete_ne by done.
    destruct (mp_peer_to_key (rg_maps r) !! q) as [kq|] eqn:Eq; [|done]. simpl. rewrite lookup_delete_ne; [done|].
    intros ->. destruct (mo_key _ Hm _ _ Eq) as (s'&Hs'&?). congruence. }
  destruct (is_active s); apply Hgen.
Qed.

Lemma get_by_peer_known p r s i : maps_ok (rg_maps r) → get_by_peer_id p r = Some s → st_id s = Some i → get i r = Some s.
Proof.
  intros Hm Hg Hi. unfold get_by_peer_id in Hg. apply bind_Some in Hg as (k&Hk&Hs). pose proof (mo_shape _ Hm _ _ Hs) as Hsh.
  destruct k as [j|q]; [|by destruct Hsh as (_&_&?); congruence]. assert (j = i) as -> by congruence. done.
Qed.

(** An activation under the identifier the peer was dialled for, or of a peer
    without one, sets that identifier's entry and no other. *)
Lemma get_activate p c id now r : maps_ok (rg_maps r) →
  match mp_peer_to_key (rg_maps r) !! p with Some (Known j) => j = id | _ => True end →
  ∃ reason, ∀ i, get i (activate p c id now r).2 = if decide (i = id) then Some (Active p id c now reason) else get i r.
Proof.
  intros Hm Hk. unfold activate, get. destruct (remove_by_key_spec (Known id) (rg_maps r) Hm) as (Hm1&_&Hb1&_).
  destruct (remove_by_key (Known id) (rg_maps r)) as [old m1]. cbn [fst snd] in *. set (reason := default default_reason _).
  exists reason. intros i.
  assert (Hsec : match find_replacement (rg_maps r) id p with
    | ById _ _ pk | NoReplacement pk => ∀ k, pk = Some k → ∃ q, k = Pending q | ByPeerId _ _ => False end).
  { assert (Hpk : ∀ k k', is_pending_key (rg_maps r) k = Some k' → k' = k) by (unfold is_pending_key; intros k k'; destruct (is_some_and _ _); congruence).
    unfold find_replacement. destruct (mp_peer_to_key (rg_maps r) !! p) as [[j|q]|]; [subst j|..];
      destruct (mp_by_key (rg_maps r) !! Known id) as [[]|]; rewrite ?decide_True, ?decide_False by done; try done;
      intros k Hk'; try apply Hpk in Hk'; eauto. }
  assert (Hfin : ∀ pk a b, (∀ k, pk = Some k → ∃ q, k = Pending q) →
    mp_by_key (rg_maps (mkRegistry (maps_insert (Known id) (Active p id c now reason) (remove_opt pk m1).2) a b)) !! Known i =
    if decide (i = id) then Some (Active p id c now reason) else mp_by_key (rg_maps r) !! Known i).
  { intros pk a b Hpk. simpl. destruct (decide (i = id)) as [->|Hne]; [by rewrite lookup_insert_eq|].
    rewrite lookup_insert_ne by congruence. pose proof (remove_opt_spec pk m1 Hm1) as Hr. destruct (remove_opt pk m1) as [n2 m2].
    destruct Hr as (_&_&Hr&_). simpl. rewrite Hr, Hb1. destruct pk as [k|]; [destruct (Hpk k eq_refl) as [q ->]|];
    rewrite ?lookup_delete_ne by congruence; done. }
  destruct (match old with Some s => if is_active s then _ else _ | None => _ end) as [p0 a0].
  destruct (find_replacement (rg_maps r) id p) as [op oc pk|ei oc|pk]; [|done|]; specialize (Hfin pk);
    destruct (remove_opt pk m1) as [n2 m2]; by apply Hfin.
Qed.

(** ** A peer that asserts another identifier *)

(** A key in the time index at or before the cutoff puts its peer in the sweep. *)
Lemma stale_elem r k s t timeout now :
  k ∈ default ∅ (mp_pending_by_time (rg_maps r) !! t) → mp_by_key (rg_maps r) !! k = Some s → timeout <= now → t <= now - timeout →
  st_peer s ∈ stale_pending timeout now r.
Proof.
  intros Hin Hs Hto Hle. unfold stale_pending. rewrite decide_False by lia. apply list_elem_of_omap. exists k. split; [|by rewrite Hs].
  destruct (mp_pending_by_time (rg_maps r) !! t) as [ks|] eqn:E; [|set_solver]. apply list_elem_of_In, in_concat.
  exists (elements ks). rewrite <-!list_elem_of_In. split; [|by apply elem_of_elements]. apply list_elem_of_fmap.
  exists (t, ks). split; [done|]. rewrite merge_sort_Permutation, list_elem_of_filter. split; [done|by apply elem_of_map_to_list].
Qed.

(** A peer dialled for one identifier that asserts another loses its
    connection to the stale sweep: its activation is accepted, but the entry of
    the dialled identifier stays behind, so once the handshake timeout has
    passed the sweep lists the peer and the sweep's [disconnected] removes the
    active connection.  The leftover entry survives even that: the peer stays
    listed, and the dialled identifier can no longer be registered. *)
Theorem mismatched_identity_swept n r p c j id t now0 reason timeout now :
  registry_ok n r → mp_peer_to_key (rg_maps r) !! p = None → get j r = None → get id r = None → j ≠ id →
  timeout <= now → t <= now - timeout →
  let r1 := (connected_outbound p c (Some j) t reason r).2 in
  let '(res, r2) := activate p c id now0 r1 in
  let '(gone, r3) := disconnected p r2 in
  res = Accepted ∧ get_by_peer_id p r2 = Some (Active p id c now0 reason) ∧
  p ∈ stale_pending timeout now r2 ∧ gone = Some (Active p id c now0 reason) ∧
  p ∈ stale_pending timeout now r3 ∧ ∀ p' c' t', (connected_outbound p' c' (Some j) t' reason r3).1 = None.
Proof.
  intros [[H1 _ H3 _] _ _ _] Hp Hj Hid Hne Hto Hle r1. unfold get in *.
  assert (Hpend : mp_by_key (rg_maps r) !! Pending p = None).
  { destruct (mp_by_key (rg_maps r) !! Pending p) as [s|] eqn:E; [|done]. destruct (H3 _ _ E) as (_&Hs&_). apply H1 in E. congruence. }
  set (s := Connected p c (Some j) Outbound t reason).
  assert (Hr1 : r1 = mkRegistry (maps_insert (Known j) s (rg_maps r)) (rg_active r) (fetch_add (rg_pending r) 1)).
  { unfold r1, connected_outbound. rewrite decide_False by (rewrite Hp; by intros []).
    rewrite decide_False by (rewrite Hj; by intros [_ []]). done. }
  assert (Hr2 : ∃ a b, activate p c id now0 r1 =
    (Accepted, mkRegistry (maps_insert (Known id) (Active p id c now0 reason) (rg_maps r1)) a b)).
  { unfold activate, find_replacement, remove_by_key, is_pending_key. rewrite Hr1. cbn [rg_maps maps_insert mp_by_key mp_peer_to_key].
    cbn [st_peer s]. rewrite !lookup_insert_eq, !lookup_insert_ne, Hid, Hpend by congruence. rewrite decide_False by done. simpl.
    rewrite lookup_insert_eq. simpl. eauto. }
  destruct Hr2 as (a&b&->). set (r2 := mkRegistry _ a b).
  assert (Hb1 : mp_by_key (rg_maps r1) !! Known j = Some s) by (rewrite Hr1; simpl; by rewrite lookup_insert_eq).
  assert (Ht1 : Known j ∈ default ∅ (mp_pending_by_time (rg_maps r1) !! t)).
  { rewrite Hr1. simpl. apply elem_add_pending. by left. }
  assert (Hd : disconnected p r2 = (Some (Active p id c now0 reason), (disconnected p r2).2) ∧
    rg_maps (disconnected p r2).2 = mkMaps (delete (Known id) (mp_by_key (rg_maps r2))) (delete p (mp_peer_to_key (rg_maps r2)))
      (delete c (mp_conn_to_key (rg_maps r2))) (mp_pending_by_time (rg_maps r1))).
  { unfold disconnected, remove_by_peer, r2. simpl. rewrite lookup_insert_eq. simpl. by rewrite lookup_insert_eq. }
  destruct Hd as [Hd Hm3]. rewrite Hd. set (r3 := (disconnected p r2).2) in *.
  assert (Hb3 : mp_by_key (rg_maps r3) !! Known j = Some s).
  { rewrite Hm3. simpl. rewrite lookup_delete_ne, lookup_insert_ne by congruence. done. }
  split_and!; [done| | |done| |].
  - unfold get_by_peer_id. simpl. rewrite lookup_insert_eq. simpl. by rewrite lookup_insert_eq.
  - apply (stale_elem r2 (Known j) s t); [done| |done|done]. simpl. by rewrite lookup_insert_ne by congruence.
  - apply (stale_elem r3 (Known j) s t); [by rewrite Hm3|done|done|done].
  - intros p' c' t'. unfold connected_outbound. case_decide; [done|]. rewrite decide_True; [done|]. rewrite Hb3. by split.
Qed.
End registry.

(** ** Concrete registries *)

Module RegistryDemo.

Definition ops : list (RegistryOp (R:=unit)) :=
  [OpOutbound 1 11 (Some 7) 0 (); OpInbound 2 12 5; OpActivate 1 11 7 6; OpActivate 2 12 8 7; OpInbound 3 13 8; OpActivate 3 14 7 9;
   OpDisconnected 2].

(** Peer 3 took over identifier 7 from peer 1; peer 2 left. *)
Lemma registry_one_to_one_witness :
  let r := foldl (registry_step ()) registry_new ops in
  get 7 r = Some (Active 3 7 14 9 ()) ∧ resolve_id 3 r = Some 7 ∧ rg_active r = 1 ∧ rg_pending r = 0.
Proof.
  destruct (registry_one_to_one () ops) as (_&H2&_&H4&H5).
  - vm_compute. discriminate.
  - vm_compute. auto 20.
  - assert (Hg : get 7 (foldl (registry_step ()) registry_new ops) = Some (Active 3 7 14 9 ())) by (vm_compute; reflexivity).
    split; [exact Hg|]. destruct (H2 _ _ _ _ _ _ Hg) as (_&H&_). split; [exact H|].
    split; [rewrite H4|rewrite H5]; vm_compute; reflexivity.
Defined.

Lemma mismatched_identity_swept_witness :
  let r2 := (activate () 1 11 8 3 (connected_outbound 1 11 (Some 7) 0 () registry_new).2).2 in
  get_by_peer_id 1 r2 = Some (Active 1 8 11 3 ()) ∧ 1 ∈ stale_pending 10 20 r2 ∧
  1 ∈ stale_pending 10 20 (disconnected 1 r2).2.
Proof.
  pose proof (mismatched_identity_swept () 0 registry_new 1 11 7 8 0 3 () 10 20 registry_new_ok) as H.
  cbv zeta in H. destruct (activate () 1 11 8 3 _) as [res r2] eqn:E. destruct (disconnected 1 r2) as [gone r3] eqn:E3.
  destruct H as (_&H2&H3&_&H5&_); [reflexivity|reflexivity|reflexivity|discriminate|lia|lia|].
  simpl. rewrite E3. auto.
Defined.

End RegistryDemo.
