(* ===== verification/Connections.v ===== *)
(** * Connections: dial tracker, registry and routing table together

    [crates/swarm/topology/src]: the handlers that keep the dial tracker, the
    connection registry and the routing table in step, dialling
    ([dialing.rs]), connection established, closed, dial failed and the stale
    sweep ([connection_handlers.rs]), handshake completed and failed
    ([protocol_handlers.rs]).  The peer manager's ban test is an input of the
    handler that makes it; scores, reachability, gossip, metrics and emitted
    events do not feed back into the three components and are left out.

    The theorems: while connections of a peer do not overlap and a peer asserts
    the overlay it was dialled for, the three components agree overlay by overlay
    and no capacity slot leaks; and a simultaneous open locks the overlay out
    for good.  What a peer does that asserts another overlay than the dialled
    one is [Registry.mismatched_identity_swept]. *)

From S2P Require Import Prelude.
From S2P Require Import ProximityIndex.
From S2P Require Import Kademlia.
From S2P Require Import Dialer.
From S2P Require Import Registry.

(** [HANDSHAKE_TIMEOUT], in nanoseconds. *)
Definition HANDSHAKE_TIMEOUT : Z := 15000000000.

(** The dial tracker's configuration of the topology behaviour. *)
Definition topology_dial_config (dial_concurrency : Z) : DialTrackerConfig :=
  mkDialConfig 0 dial_concurrency HANDSHAKE_TIMEOUT HANDSHAKE_TIMEOUT 30000000000 0 0 0 0 0 0.

Section connections.
(** Multiaddresses and dial reasons. *)
Context {A D : Type}.
Context `{LH : LinkedHashSet B} `{LM : LinkedHashMap (DialRequest (A:=A) (D:=D)) M}
  `{LB : LruCache BackoffEntry CB} `{LN : LruCache Z CN}.
Context (proximity : Z → Z) (max_po : Z) (recompute_neighborhood_depth : list Z → Z → Z → Z) (low_watermark : Z).
Context (jitter_seed_for : Z → Z) (ip_version : A → option IpVersion).

Record Topology := mkTopology {
  tp_dials : DialTracker (A:=A) (D:=D) (M:=M) (CB:=CB) (CN:=CN);
  tp_registry : PeerRegistry (R:=option D);
  tp_routing : KademliaRouting (B:=B);
}.

Implicit Types (s : Topology).

Definition topology_new (l : DepthAwareLimits) (dial_concurrency lower_window phase_window now : Z) : Topology :=
  mkTopology (tracker_start (topology_dial_config dial_concurrency) now) registry_new
    (routing_new max_po l lower_window phase_window now).

Definition on_routing (f : KademliaRouting → KademliaRouting) s : Topology :=
  mkTopology (tp_dials s) (tp_registry s) (f (tp_routing s)).

(** An operation on the overlay, when there is one. *)
Definition for_overlay (o : option Z) (f : Z → KademliaRouting → KademliaRouting) s : Topology :=
  match o with Some overlay => on_routing (f overlay) s | None => s end.

Abbreviation release_dial := (Kademlia.release_dial proximity max_po).
Abbreviation release_handshake := (Kademlia.release_handshake proximity max_po).
Abbreviation reserve_inbound := (Kademlia.reserve_inbound proximity max_po).
Abbreviation dial_connected := (Kademlia.dial_connected proximity max_po).
Abbreviation capacity_disconnected := (Kademlia.disconnected proximity max_po).
Abbreviation routing_connected := (peer_connected proximity max_po recompute_neighborhood_depth low_watermark).
Abbreviation routing_disconnected := (peer_disconnected proximity max_po recompute_neighborhood_depth low_watermark).

(** ** Dialling *)

Definition is_peer_tracked (peer : Z) s : bool :=
  Registry.contains_peer peer (tp_registry s) || Dialer.contains_peer peer (tp_dials s).

Definition dial (overlay : option Z) (peer : Z) (addrs : list A) (reason : D) (can_dial : A → bool) (now : Z) s : Topology :=
  if is_peer_tracked peer s then s
  else
    let '(go, s) :=
      match overlay with
      | Some o => let '(ok, r) := try_reserve_dial proximity max_po o (tp_routing s) in (ok, on_routing (λ _, r) s)
      | None => (true, s)
      end in
    if go : bool then
      let '(res, d) := prepare_and_start jitter_seed_for ip_version overlay peer addrs reason can_dial now (tp_dials s) in
      let s := mkTopology d (tp_registry s) (tp_routing s) in
      match res with
      | Ok _ => s
      | Err _ => for_overlay overlay release_dial s
      end
    else s.

(** ** Connection events *)

Definition established_outbound (peer conn : Z) s : Topology :=
  match resolve peer (tp_dials s) with
  | (None, _) => s
  | (Some req, d) =>
      let reg := (connected_outbound peer conn (rq_id req) (rq_queued_at req) (Some (rq_data req)) (tp_registry s)).2 in
      for_overlay (rq_id req) dial_connected (mkTopology d reg (tp_routing s))
  end.

Definition established_inbound (peer conn now : Z) s : Topology :=
  mkTopology (tp_dials s) (connected_inbound None peer conn now (tp_registry s)).2 (tp_routing s).

Definition connection_closed (peer remaining now : Z) s : Topology :=
  if decide (0 < remaining) then s
  else
    let '(removed, reg) := Registry.disconnected peer (tp_registry s) in
    let s := mkTopology (tp_dials s) reg (tp_routing s) in
    for_overlay (removed ≫= st_id) (λ o r, routing_disconnected o now (capacity_disconnected o r)) s.

Definition dial_failure (peer : Z) s : Topology :=
  let '(req, d) := resolve peer (tp_dials s) in
  for_overlay (req ≫= rq_id) release_dial (mkTopology d (tp_registry s) (tp_routing s)).

(** ** Handshakes *)

Inductive HandshakeOutcome := RejectedBanned | RejectedSaturated | Ready.

Definition current_state (peer overlay : Z) s : option (ConnectionState (R:=option D)) :=
  match get overlay (tp_registry s) with
  | Some st => Some st
  | None => resolve_id peer (tp_registry s) ≫= λ o, get o (tp_registry s)
  end.

(** A handshake that asserts another overlay than the dialled one releases the
    dialled reservation and accounts for the asserted overlay as inbound. *)
Definition account_mismatch (st : option (ConnectionState (R:=option D))) (overlay : Z) s : Topology :=
  match st ≫= st_id with
  | Some dialed => if decide (dialed = overlay) then s
                   else on_routing (λ r, reserve_inbound overlay (release_handshake dialed r)) s
  | None => s
  end.

(** An inbound peer needs room in its bin and reserves it; an outbound one
    reserved when it was dialled. *)
Definition accept_handshake (direction : ConnectionDirection) (overlay : Z) s : option Topology :=
  match direction with
  | Inbound => if should_accept_inbound proximity max_po overlay (tp_routing s) then Some (on_routing (reserve_inbound overlay) s)
               else None
  | Outbound => Some s
  end.

Definition activate_overlay (peer conn overlay now : Z) s : Topology :=
  mkTopology (tp_dials s) (activate None peer conn overlay now (tp_registry s)).2
    (routing_connected overlay now (Kademlia.handshake_completed proximity max_po overlay (tp_routing s))).

Definition handshake_completed (peer conn overlay : Z) (banned : bool) (now : Z) s : HandshakeOutcome * Topology :=
  let st := current_state peer overlay s in
  let direction := default Inbound (st ≫= st_direction) in
  if banned then (RejectedBanned, s)
  else
    let s := account_mismatch st overlay s in
    match accept_handshake direction overlay s with
    | Some s => (Ready, activate_overlay peer conn overlay now s)
    | None => (RejectedSaturated, s)
    end.

Definition handshake_failed (peer : Z) s : Topology :=
  let '(st, reg) := Registry.disconnected peer (tp_registry s) in
  for_overlay (st ≫= st_id) release_handshake (mkTopology (tp_dials s) reg (tp_routing s)).

(** ** The stale sweep *)

Definition release_timed_out (rs : list (DialRequest (A:=A) (D:=D))) s : Topology :=
  foldl (λ s req, for_overlay (rq_id req) release_dial s) s rs.

Definition cleanup_stale_pending (order : list Z) (now : Z) s : Topology :=
  let '((_, timed_out), d) := cleanup_expired order now (tp_dials s) in
  let s := release_timed_out timed_out (mkTopology d (tp_registry s) (tp_routing s)) in
  foldl (λ s peer, handshake_failed peer s) s (stale_pending HANDSHAKE_TIMEOUT now (tp_registry s)).

(** ** Histories *)

Inductive TopologyEvent :=
| Dial (overlay : option Z) (peer : Z) (addrs : list A) (reason : D) (can_dial : A → bool) (now : Z)
| EstablishedOutbound (peer conn : Z)
| EstablishedInbound (peer conn now : Z)
| ConnectionClosed (peer remaining now : Z)
| DialFailure (peer : Z)
| HandshakeCompleted (peer conn overlay : Z) (banned : bool) (now : Z)
| HandshakeFailed (peer : Z)
| CleanupStale (order : list Z) (now : Z).

Definition topology_step s (e : TopologyEvent) : Topology :=
  match e with
  | Dial overlay peer addrs reason can_dial now => dial overlay peer addrs reason can_dial now s
  | EstablishedOutbound peer conn => established_outbound peer conn s
  | EstablishedInbound peer conn now => established_inbound peer conn now s
  | ConnectionClosed peer remaining now => connection_closed peer remaining now s
  | DialFailure peer => dial_failure peer s
  | HandshakeCompleted peer conn overlay banned now => (handshake_completed peer conn overlay banned now s).2
  | HandshakeFailed peer => handshake_failed peer s
  | CleanupStale order now => cleanup_stale_pending order now s
  end.

(** ** Agreement of the components *)

Hypothesis Hmax : 0 <= max_po.
Hypothesis Hprox : ∀ a, 0 <= proximity a.

Abbreviation kademlia_step := (routing_step (B:=B) proximity max_po recompute_neighborhood_depth low_watermark).

Implicit Types (r : KademliaRouting (B:=B)) (reg : PeerRegistry (R:=option D)).

(** Capacity counters that count exactly the tracked peers. *)
Definition cap_exact r : Prop := ∃ n, Z.of_nat n <= Z.of_nat (size (kd_phases r)) ∧ cap_ok proximity max_po n [] r.

Lemma tracked_size bin ph (m : gmap Z ConnectionPhase) : tracked proximity max_po bin ph m <= Z.of_nat (size m).
Proof.
  induction m as [|k p m Hk IH] using map_ind; [unfold tracked; rewrite map_sumZ_empty; lia|].
  rewrite tracked_insert, map_size_insert_None by done. unfold slot. case_decide; lia.
Qed.

Lemma cap_exact_of n r : cap_ok proximity max_po n [] r → cap_exact r.
Proof.
  intros [H1 H2 H3]. exists (size (kd_phases r)). split; [lia|]. split; [done|done|]. intros bin ph Hb. rewrite H2 by done.
  pose proof (tracked_size bin ph (kd_phases r)). simpl. lia.
Qed.

Lemma cap_exact_step r op : cap_exact r → Z.of_nat (size (kd_phases r)) < u64_max → leak_of proximity max_po r op = None →
  cap_exact (kademlia_step r op).
Proof.
  intros (n&Hn&Hc) Hs Hl. apply (cap_exact_of (S n)).
  pose proof (routing_step_cap proximity max_po (λ _ _, 0) recompute_neighborhood_depth low_watermark
    (λ _ _, Eq) (λ _ _, None) Hmax Hprox n [] r op Hc) as H. rewrite Hl in H. apply H. lia.
Qed.

(** The set of connected peers under the operations of the routing table. *)
Lemma publish_connected now r :
  kd_connected (publish_depth_at max_po recompute_neighborhood_depth low_watermark now r).2 = kd_connected r.
Proof.
  unfold publish_depth_at. case_decide; [done|]. case_decide; [done|]. destruct (kd_pending_lower r); [by case_decide|done].
Qed.

Lemma stability_connected now r : kd_connected (update_neighborhood_stability max_po now r) = kd_connected r.
Proof.
  unfold update_neighborhood_stability. destruct (_ && _); [|done]. destruct (kd_stable r) as [[d t]|]; [by case_decide|done].
Qed.

Lemma add_err o (i : ProximityIndex (B:=B)) e : (add proximity max_po o i).1 = Err e → (add proximity max_po o i).2 = i.
Proof. unfold add. destruct (lhs_contains _ _); [done|]. by case_decide. Qed.

Lemma routing_connected_spec o now r :
  kd_connected (routing_connected o now r) = (add proximity max_po o (kd_connected r)).2 ∧
  kd_phases (routing_connected o now r) = kd_phases r.
Proof.
  unfold peer_connected. pose proof (add_err o (kd_connected r)) as He.
  destruct (add proximity max_po o (kd_connected r)) as [[u|e] i]; simpl.
  - rewrite stability_connected, publish_connected. split; [done|].
    apply (connected_capacity max_po recompute_neighborhood_depth low_watermark now i r).
  - split; [symmetry; exact (He e eq_refl)|done].
Qed.

Lemma routing_disconnected_spec o now r :
  kd_connected (routing_disconnected o now r) = (remove proximity max_po o (kd_connected r)).2 ∧
  kd_phases (routing_disconnected o now r) = kd_phases r.
Proof.
  unfold peer_disconnected. assert (He : (remove proximity max_po o (kd_connected r)).1 = false →
    (remove proximity max_po o (kd_connected r)).2 = kd_connected r) by (unfold remove; by destruct (lhs_contains _ _)).
  destruct (remove proximity max_po o (kd_connected r)) as [[] i]; simpl.
  - rewrite stability_connected, publish_connected. split; [done|].
    apply (connected_capacity max_po recompute_neighborhood_depth low_watermark now i r).
  - split; [symmetry; by apply He|done].
Qed.

(** What the registry holds for an overlay: nothing, a connection in its
    handshake, or an active one. *)
Definition view reg (o : Z) : option bool := is_active <$> get o reg.
Definition upd (o : Z) (v : option bool) (g : Z → option bool) : Z → option bool := λ x, if decide (x = o) then v else g x.

Implicit Types (g : Z → option bool) (d : gset Z).

(** The phase an overlay should be in. *)
Definition expected_phase g d (o : Z) : option ConnectionPhase :=
  match g o with
  | Some true => Some Kademlia.Active
  | Some false => Some Handshaking
  | None => if decide (o ∈ d) then Some Dialing else None
  end.

(** The routing table agrees with what the registry holds and the overlays
    being dialled. *)
Record agrees (n : nat) g d r : Prop := {
  ag_phase : ∀ o, kd_phases r !! o = expected_phase g d o;
  ag_excl : ∀ o, o ∈ d → g o = None;
  ag_cap : cap_exact r;
  ag_size : Z.of_nat (size (kd_phases r)) <= Z.of_nat n;
  ag_index : index_ok proximity max_po (kd_connected r);
  ag_max : pi_max_per_bin (kd_connected r) = 0;
  ag_connected : ∀ o, exists_in proximity max_po o (kd_connected r) = true ↔ g o = Some true;
}.

Record topology_ok (n : nat) s : Prop := {
  tk_tracker : tracker_ok (tp_dials s);
  tk_empty : lhm_iter (dt_pending (tp_dials s)) = [];
  tk_registry : registry_ok n (tp_registry s);
  tk_agrees : agrees n (view (tp_registry s)) (dom (dt_id_index (tp_dials s))) (tp_routing s);
}.

(** Events that leave no second connection of a peer behind: a connection is
    registered for a peer without one, a peer asserts the overlay it was dialled
    for, and a failed handshake is not that of an active peer. *)
Definition well_timed s (e : TopologyEvent) : Prop :=
  let keys := mp_peer_to_key (rg_maps (tp_registry s)) in
  match e with
  | EstablishedOutbound peer _ | EstablishedInbound peer _ _ => keys !! peer = None
  | HandshakeCompleted peer _ overlay _ _ => match keys !! peer with Some (Known j) => j = overlay | _ => True end
  | HandshakeFailed peer => is_some_and is_active (get_by_peer_id peer (tp_registry s)) = false
  | _ => True
  end.

Fixpoint all_well_timed s (es : list TopologyEvent) : Prop :=
  match es with
  | [] => True
  | e :: es => well_timed s e ∧ all_well_timed (topology_step s e) es
  end.

Lemma agrees_ext n n' g g' d d' r : agrees n g d r → (n <= n')%nat → (∀ o, g' o = g o) → (∀ o, o ∈ d' ↔ o ∈ d) → agrees n' g' d' r.
Proof.
  intros [H1 H2 H3 H4 H5 H6 H7] Hn Hg Hd. split; [| |done|lia|done|done|].
  - intros o. rewrite H1. unfold expected_phase. rewrite Hg. destruct (g o) as [[]|]; [done|done|]. by apply decide_ext.
  - intros o Ho. rewrite Hg. by apply H2, Hd.
  - intros o. by rewrite Hg, H7.
Qed.

(** A capacity operation on one overlay leaves the connected peers alone. *)
Lemma agrees_capacity n n' g d g' d' r op o ph :
  agrees n g d r → Z.of_nat n < u64_max → leak_of proximity max_po r op = None →
  kd_connected (kademlia_step r op) = kd_connected r →
  kd_phases (kademlia_step r op) = match ph with Some x => <[o := x]> (kd_phases r) | None => delete o (kd_phases r) end →
  (∀ x, x ≠ o → g' x = g x ∧ (x ∈ d' ↔ x ∈ d)) → ph = expected_phase g' d' o → (o ∈ d' → g' o = None) →
  (g' o = Some true ↔ g o = Some true) → ((n <= n')%nat ∧ (is_Some (kd_phases r !! o) ∨ ph = None ∨ (S n <= n')%nat)) →
  agrees n' g' d' (kademlia_step r op).
Proof.
  intros [H1 H2 H3 H4 H5 H6 H7] Hn Hl Hc Hp Ho Hph He Ha [Hn' Hsz]. split; [| | | |by rewrite Hc|by rewrite Hc|].
  - intros x. rewrite Hp. destruct (decide (x = o)) as [->|Hne].
    + rewrite <-Hph. destruct ph; [by rewrite lookup_insert_eq|by rewrite lookup_delete_eq].
    + destruct (Ho x Hne) as [Hg Hd]. transitivity (kd_phases r !! x).
      * destruct ph; [by rewrite lookup_insert_ne|by rewrite lookup_delete_ne].
      * rewrite H1. unfold expected_phase. rewrite Hg. destruct (g x) as [[]|]; [done|done|]. by apply decide_ext.
  - intros x Hx. destruct (decide (x = o)) as [->|Hne]; [by apply He|]. destruct (Ho x Hne) as [-> Hd]. by apply H2, Hd.
  - apply cap_exact_step; [done|lia|done].
  - rewrite Hp. destruct ph as [x|].
    + destruct Hsz as [Hs|[?|?]]; [rewrite map_size_insert_Some by done; lia|done|].
      destruct (kd_phases r !! o) eqn:E; [rewrite map_size_insert_Some by done; lia|rewrite map_size_insert_None by done; lia].
    + pose proof (map_subseteq_size _ _ (delete_subseteq (kd_phases r) o)). lia.
  - intros x. rewrite Hc, H7. destruct (decide (x = o)) as [->|Hne]; [done|]. by destruct (Ho x Hne) as [-> _].
Qed.

Lemma phase_None n g d r o : agrees n g d r → kd_phases r !! o = None → g o = None ∧ o ∉ d.
Proof.
  intros Hag. rewrite (ag_phase _ _ _ _ Hag). unfold expected_phase. destruct (g o) as [[]|]; [done|done|]. by case_decide.
Qed.

Lemma agrees_reserve n g d r o : agrees n g d r → Z.of_nat n < u64_max → (try_reserve_dial proximity max_po o r).1 = true →
  o ∉ d ∧ g o = None ∧ agrees (S n) g (d ∪ {[o]}) (try_reserve_dial proximity max_po o r).2.
Proof.
  intros Hag Hn Hr. assert (Hp : kd_phases r !! o = None) by (unfold try_reserve_dial in Hr; by destruct (_ !! _)).
  destruct (phase_None _ _ _ _ _ Hag Hp) as [Hg Hd]. split; [done|]. split; [done|].
  assert (Hs : kademlia_step r (ReserveDial o) = (try_reserve_dial proximity max_po o r).2) by done. rewrite <-Hs.
  unfold try_reserve_dial in Hs, Hr. rewrite Hp in Hs, Hr. destruct (needs_more _ _ _ _); [|done]. cbn [snd] in Hs.
  apply (agrees_capacity n (S n) g d g (d ∪ {[o]}) r (ReserveDial o) o (Some Dialing)); [done|done|done|by rewrite Hs|by rewrite Hs| | |done|done|].
  - intros x Hx. set_solver.
  - unfold expected_phase. rewrite Hg, decide_True by set_solver. done.
  - split; [lia|]. right. right. lia.
Qed.

Lemma agrees_release_dial n g d r o : agrees n g d r → Z.of_nat n < u64_max → g o = None → agrees n g (d ∖ {[o]}) (release_dial o r).
Proof.
  intros Hag Hn Hg. pose proof (ag_phase _ _ _ _ Hag o) as Hp. unfold expected_phase in Hp. rewrite Hg in Hp.
  apply (agrees_capacity n n g d g (d ∖ {[o]}) r (ReleaseDial o) o None); [done|done| |done|done| | |done|done|].
  - simpl. rewrite Hp. by case_decide.
  - intros x Hx. set_solver.
  - unfold expected_phase. rewrite Hg, decide_False by set_solver. done.
  - split; [lia|]. right. by left.
Qed.

Lemma agrees_dial_connected n g d r o : agrees n g d r → Z.of_nat n < u64_max → o ∈ d →
  agrees n (upd o (Some false) g) (d ∖ {[o]}) (dial_connected o r).
Proof.
  intros Hag Hn Ho. pose proof (ag_excl _ _ _ _ Hag _ Ho) as Hg. pose proof (ag_phase _ _ _ _ Hag o) as Hp.
  unfold expected_phase in Hp. rewrite Hg, decide_True in Hp by done.
  assert (Hs : dial_connected o r = kademlia_step r (DialConnected o)) by done. unfold Kademlia.dial_connected in Hs.
  rewrite decide_True in Hs by done.
  apply (agrees_capacity n n g d _ _ r (DialConnected o) o (Some Handshaking)); [done|done|done|by rewrite <-Hs|by rewrite <-Hs| | | | |].
  - intros x Hx. unfold upd. rewrite decide_False by done. set_solver.
  - unfold expected_phase, upd. by rewrite decide_True.
  - set_solver.
  - unfold upd. rewrite decide_True, Hg by done. done.
  - split; [lia|]. left. by rewrite Hp.
Qed.

Lemma agrees_reserve_inbound n g d r o : agrees n g d r → Z.of_nat n < u64_max → kd_phases r !! o = None →
  agrees (S n) (upd o (Some false) g) d (reserve_inbound o r).
Proof.
  intros Hag Hn Hp. destruct (phase_None _ _ _ _ _ Hag Hp) as [Hg Hd].
  assert (Hs : reserve_inbound o r = kademlia_step r (ReserveInbound o)) by done. unfold Kademlia.reserve_inbound in Hs. rewrite Hp in Hs.
  apply (agrees_capacity n (S n) g d _ _ r (ReserveInbound o) o (Some Handshaking)); [done|done|done|by rewrite <-Hs|by rewrite <-Hs| | | | |].
  - intros x Hx. unfold upd. by rewrite decide_False.
  - unfold expected_phase, upd. by rewrite decide_True.
  - done.
  - unfold upd. rewrite decide_True, Hg by done. done.
  - split; [lia|]. right. right. lia.
Qed.

Lemma agrees_release_handshake n g d r o : agrees n g d r → Z.of_nat n < u64_max → g o = Some false →
  agrees n (upd o None g) d (release_handshake o r).
Proof.
  intros Hag Hn Hg. pose proof (ag_phase _ _ _ _ Hag o) as Hp. unfold expected_phase in Hp. rewrite Hg in Hp.
  assert (Hd : o ∉ d) by (intros Hd; apply (ag_excl _ _ _ _ Hag) in Hd; congruence).
  apply (agrees_capacity n n g d (upd o None g) d r (ReleaseHandshake o) o None); [done|done| |done|done| | | | |].
  - simpl. by rewrite Hp.
  - intros x Hx. unfold upd. by rewrite decide_False.
  - unfold expected_phase, upd. rewrite decide_True, decide_False by done. done.
  - done.
  - unfold upd. rewrite decide_True, Hg by done. done.
  - split; [lia|]. right. by left.
Qed.

Lemma agrees_complete n g d r o now : agrees n g d r → Z.of_nat n < u64_max → g o = Some false →
  agrees n (upd o (Some true) g) d (routing_connected o now (Kademlia.handshake_completed proximity max_po o r)).
Proof.
  intros Hag Hn Hg. destruct Hag as [H1 H2 H3 H4 H5 H6 H7]. pose proof (H1 o) as Hp. unfold expected_phase in Hp. rewrite Hg in Hp.
  set (r1 := Kademlia.handshake_completed proximity max_po o r).
  assert (Hr1 : kd_phases r1 = <[o := Kademlia.Active]> (kd_phases r) ∧ kd_connected r1 = kd_connected r).
  { unfold r1, Kademlia.handshake_completed. by rewrite decide_True. }
  destruct Hr1 as [Hp1 Hc1]. destruct (routing_connected_spec o now r1) as [Hc2 Hp2]. rewrite Hp1 in Hp2. rewrite Hc1 in Hc2.
  assert (Hs1 : cap_exact r1) by (apply (cap_exact_step r (Kademlia.HandshakeCompleted o)); [done|lia|done]).
  assert (Hsz : Z.of_nat (size (kd_phases r1)) <= Z.of_nat n) by (rewrite Hp1, map_size_insert_Some by (by rewrite Hp); done).
  assert (Hno : exists_in proximity max_po o (kd_connected r) = false).
  { apply not_true_iff_false. rewrite H7, Hg. done. }
  assert (Hadd : (add proximity max_po o (kd_connected r)).1 = Ok tt).
  { unfold add. unfold exists_in in Hno. rewrite Hno, decide_False by lia. done. }
  pose proof (add_cases proximity max_po Hmax Hprox o (kd_connected r) H5) as Hac.
  pose proof (λ x, exists_in_add proximity max_po Hmax Hprox o x (kd_connected r) H5) as Hex. rewrite Hadd in Hex.
  rewrite <-Hc2 in Hex. destruct (add proximity max_po o (kd_connected r)) as [res i]. simpl in *. subst i. destruct Hac as (Hi&Hm&_).
  split; [| | | |done|congruence|].
  - intros x. rewrite Hp2. unfold expected_phase, upd. destruct (decide (x = o)) as [->|Hne]; [by rewrite lookup_insert_eq|].
    rewrite lookup_insert_ne, H1 by done. done.
  - intros x Hx. unfold upd. rewrite decide_False; [by apply H2|]. intros ->. apply H2 in Hx. congruence.
  - apply (cap_exact_step r1 (Kademlia.Connected o now)); [done|lia|done].
  - rewrite Hp2, <-Hp1. done.
  - intros x. rewrite Hex. unfold upd. destruct (decide (x = o)) as [->|Hne]; [naive_solver|]. rewrite H7. naive_solver.
Qed.

Lemma agrees_disconnect n g d r o now : agrees n g d r → Z.of_nat n < u64_max → is_Some (g o) →
  agrees n (upd o None g) d (routing_disconnected o now (capacity_disconnected o r)).
Proof.
  intros Hag Hn [b Hg]. destruct Hag as [H1 H2 H3 H4 H5 H6 H7]. pose proof (H1 o) as Hp. unfold expected_phase in Hp. rewrite Hg in Hp.
  set (r1 := capacity_disconnected o r).
  assert (Hr1 : kd_phases r1 = delete o (kd_phases r) ∧ kd_connected r1 = kd_connected r).
  { unfold r1, Kademlia.disconnected. rewrite Hp. by destruct b. }
  destruct Hr1 as [Hp1 Hc1]. destruct (routing_disconnected_spec o now r1) as [Hc2 Hp2]. rewrite Hp1 in Hp2. rewrite Hc1 in Hc2.
  assert (Hs1 : cap_exact r1) by (apply (cap_exact_step r (Disconnected o)); [done|lia|done]).
  assert (Hsz : Z.of_nat (size (kd_phases r1)) <= Z.of_nat n).
  { rewrite Hp1. pose proof (map_subseteq_size _ _ (delete_subseteq (kd_phases r) o)). lia. }
  pose proof (remove_cases proximity max_po Hmax Hprox o (kd_connected r) H5) as Hrc.
  pose proof (λ x, exists_in_remove proximity max_po Hmax Hprox o x (kd_connected r) H5) as Hex. rewrite <-Hc2 in Hex.
  destruct (remove proximity max_po o (kd_connected r)) as [res i]. simpl in *. subst i. destruct Hrc as (Hi&Hm&_).
  assert (Hod : o ∉ d) by (intros Hod; apply H2 in Hod; congruence).
  split; [| | | |done|congruence|].
  - intros x. rewrite Hp2. unfold expected_phase, upd. destruct (decide (x = o)) as [->|Hne].
    + rewrite lookup_delete_eq, decide_False by done. done.
    + rewrite lookup_delete_ne, H1 by done. done.
  - intros x Hx. unfold upd. rewrite decide_False by (intros ->; done). by apply H2.
  - apply (cap_exact_step r1 (PeerGone o now)); [done|lia|done].
  - rewrite Hp2, <-Hp1. done.
  - intros x. rewrite Hex, H7. unfold upd. case_decide; naive_solver.
Qed.

(** ** Every well-timed event keeps the agreement *)

Lemma registry_ok_mono n n' reg : registry_ok n reg → (n <= n')%nat → registry_ok n' reg.
Proof. intros [] ?. split; [done|done|done|lia]. Qed.

Lemma view_upd_eq reg reg' o v : (∀ i, get i reg' = if decide (i = o) then v else get i reg) →
  ∀ x, view reg' x = upd o (is_active <$> v) (view reg) x.
Proof. intros H x. unfold view, upd. rewrite H. by case_decide. Qed.

Lemma dial_ok n s overlay peer addrs reason can_dial now : topology_ok n s → Z.of_nat (S n) < u64_max →
  topology_ok (S n) (dial overlay peer addrs reason can_dial now s).
Proof.
  intros [Ht He Hr Ha] Hn. assert (Hn1 : Z.of_nat n < u64_max) by lia. unfold dial. assert (Hsame : topology_ok (S n) s).
  { split; [done|done|by eapply registry_ok_mono; [done|lia]|]. by eapply agrees_ext; [done|lia|done|done]. }
  destruct (is_peer_tracked peer s); [done|].
  pose proof (prepare_ids jitter_seed_for ip_version overlay peer addrs reason can_dial now (tp_dials s) Ht) as Hpi.
  destruct overlay as [o|].
  - destruct (try_reserve_dial proximity max_po o (tp_routing s)) as [ok r] eqn:E. destruct ok; simpl.
    2: { unfold try_reserve_dial in E. destruct s as [sd sr srt]. simpl in *.
         destruct (kd_phases srt !! o); [by simplify_eq|]. destruct (needs_more _ _ _ _); by simplify_eq. }
    destruct (agrees_reserve n (view (tp_registry s)) _ (tp_routing s) o Ha Hn1) as (Hod&Hg&Hag); [by rewrite E|]. rewrite E in Hag. simpl in Hag.
    destruct (prepare_and_start _ _ _ _ _ _ _ _ _) as [[u|e] d]; destruct Hpi as (Ht'&Hp'&Hid).
    + split; simpl; [done|by rewrite Hp'|by eapply registry_ok_mono; [done|lia]|]. by rewrite Hid.
    + split; simpl; [done|by rewrite Hp'|by eapply registry_ok_mono; [done|lia]|]. rewrite Hid.
      eapply agrees_ext; [eapply (agrees_release_dial (S n)); [done|done|done]|lia|done|set_solver].
  - destruct (prepare_and_start _ _ _ _ _ _ _ _ _) as [[u|e] d]; destruct Hpi as (Ht'&Hp'&Hid); simpl.
    + split; simpl; [done|by rewrite Hp'|by eapply registry_ok_mono; [done|lia]|].
      eapply agrees_ext; [done|lia|done|]. rewrite Hid. set_solver.
    + split; simpl; [done|by rewrite Hp'|by eapply registry_ok_mono; [done|lia]|].
      eapply agrees_ext; [done|lia|done|]. by rewrite Hid.
Qed.

Lemma agrees_for_disconnect n s peer f :
  topology_ok n s → (∀ o, is_Some (view (tp_registry s) o) → get_by_peer_id peer (tp_registry s) ≫= st_id = Some o →
    agrees n (upd o None (view (tp_registry s))) (dom (dt_id_index (tp_dials s))) (f o (tp_routing s))) → Z.of_nat n <= u64_max →
  let '(st, reg) := Registry.disconnected peer (tp_registry s) in
  topology_ok n (for_overlay (st ≫= st_id) f (mkTopology (tp_dials s) reg (tp_routing s))).
Proof.
  intros [Ht He Hr Ha] Hf Hn. destruct (get_disconnected peer (tp_registry s) (ro_maps _ _ Hr)) as [Hst Hget].
  pose proof (disconnected_ok n (tp_registry s) peer Hr Hn) as Hr'.
  destruct (Registry.disconnected peer (tp_registry s)) as [st reg]. simpl in *. subst st.
  destruct (get_by_peer_id peer (tp_registry s) ≫= st_id) as [o|] eqn:E; split; simpl; try done.
  - eapply agrees_ext; [apply Hf; [|done]|lia| |done].
    + apply bind_Some in E as (st&Hg&Hi). unfold view. by rewrite (get_by_peer_known _ _ _ _ (ro_maps _ _ Hr) Hg Hi).
    + intros x. unfold view, upd. rewrite Hget. destruct (decide (x = o)) as [->|Hne]; [by rewrite decide_True|].
      by rewrite decide_False by congruence.
  - eapply agrees_ext; [done|lia| |done]. intros x. unfold view. rewrite Hget. by rewrite decide_False.
Qed.

Lemma topology_ok_mono n s : topology_ok n s → topology_ok (S n) s.
Proof.
  intros [Ht He Hr Ha]. split; [done|done|by eapply registry_ok_mono; [done|lia]|]. by eapply agrees_ext; [done|lia|done|done].
Qed.

Lemma connection_closed_ok n s peer remaining now : topology_ok n s → Z.of_nat n < u64_max →
  topology_ok n (connection_closed peer remaining now s).
Proof.
  intros Hok Hn. unfold connection_closed. case_decide; [done|].
  pose proof (agrees_for_disconnect n s peer (λ o r, routing_disconnected o now (capacity_disconnected o r)) Hok) as Hd.
  destruct (Registry.disconnected peer (tp_registry s)) as [st reg]. apply Hd; [|lia].
  intros o Ho _. apply agrees_disconnect; [apply Hok|done|done].
Qed.

Lemma handshake_failed_ok n s peer : topology_ok n s → Z.of_nat n < u64_max →
  is_some_and is_active (get_by_peer_id peer (tp_registry s)) = false → topology_ok n (handshake_failed peer s).
Proof.
  intros Hok Hn Hact. unfold handshake_failed.
  pose proof (agrees_for_disconnect n s peer release_handshake Hok) as Hd.
  destruct (Registry.disconnected peer (tp_registry s)) as [st0 reg]. apply Hd; [|lia].
  intros o _ Ho. apply agrees_release_handshake; [apply Hok|done|]. apply bind_Some in Ho as (st&Hg&Hi).
  unfold view. rewrite (get_by_peer_known _ _ _ _ (ro_maps _ _ (tk_registry _ _ Hok)) Hg Hi). rewrite Hg in Hact. simpl in *. by rewrite Hact.
Qed.

Lemma dial_failure_ok n s peer : topology_ok n s → Z.of_nat n < u64_max → topology_ok n (dial_failure peer s).
Proof.
  intros Hok Hn. pose proof Hok as [Ht He Hr Ha]. unfold dial_failure, resolve. pose proof (drop_in_flight_ids jitter_seed_for peer (tp_dials s) Ht) as Hd.
  pose proof (drop_in_flight_ok jitter_seed_for peer (tp_dials s) Ht) as Ht'. destruct (drop_in_flight peer (tp_dials s)) as [[req|] d]; simpl in *.
  2: { subst d. by destruct s. }
  destruct Hd as (Hp&Hdom&Hid). unfold rq_ids in Hdom. destruct (rq_id req) as [o|]; (split; simpl; [done|by rewrite Hp|done|]); rewrite Hdom.
  - apply agrees_release_dial; [done|done|]. by apply (ag_excl _ _ _ _ Ha), Hid.
  - eapply agrees_ext; [done|lia|done|set_solver].
Qed.

Lemma established_outbound_ok n s peer conn : topology_ok n s → Z.of_nat n < u64_max →
  mp_peer_to_key (rg_maps (tp_registry s)) !! peer = None → topology_ok (S n) (established_outbound peer conn s).
Proof.
  intros Hok Hn Hk. pose proof Hok as [Ht He Hr Ha]. unfold established_outbound, resolve.
  pose proof (drop_in_flight_ids jitter_seed_for peer (tp_dials s) Ht) as Hd. pose proof (drop_in_flight_ok jitter_seed_for peer (tp_dials s) Ht) as Ht'.
  destruct (drop_in_flight peer (tp_dials s)) as [[req|] d]; simpl in *; [|by apply topology_ok_mono].
  destruct Hd as (Hp&Hdom&Hid). unfold rq_ids in Hdom.
  destruct (get_connected_outbound peer conn (rq_id req) (rq_queued_at req) (Some (rq_data req)) (tp_registry s) Hk) as [Hget _].
  { intros i Hi. pose proof (ag_excl _ _ _ _ Ha i (Hid i Hi)) as Hv. unfold view in Hv. by apply fmap_None in Hv. }
  pose proof (registry_step_ok None n (tp_registry s) (OpOutbound peer conn (rq_id req) (rq_queued_at req) (Some (rq_data req))) Hr Hn I) as Hr'.
  simpl in Hr'. destruct (rq_id req) as [o|]; (split; simpl; [done|by rewrite Hp|done|]); rewrite Hdom.
  - eapply agrees_ext; [apply (agrees_dial_connected n); [done|done|by apply Hid]|lia| |done].
    intros x. unfold view, upd. rewrite Hget. destruct (decide (x = o)) as [->|Hne]; [by rewrite decide_True|].
    by rewrite decide_False by congruence.
  - eapply agrees_ext; [done|lia| |set_solver]. intros x. unfold view. rewrite Hget. by rewrite decide_False.
Qed.

Lemma established_inbound_ok n s peer conn now : topology_ok n s → Z.of_nat n < u64_max →
  mp_peer_to_key (rg_maps (tp_registry s)) !! peer = None → topology_ok (S n) (established_inbound peer conn now s).
Proof.
  intros [Ht He Hr Ha] Hn Hk. split; simpl; [done|done|by apply (registry_step_ok None n (tp_registry s) (OpInbound peer conn now))|].
  eapply agrees_ext; [done|lia| |done]. intros x. unfold view.
  by rewrite <-(get_connected_inbound None peer conn now (tp_registry s) x).
Qed.

Lemma current_state_known peer overlay s : maps_ok (rg_maps (tp_registry s)) →
  match mp_peer_to_key (rg_maps (tp_registry s)) !! peer with Some (Known j) => j = overlay | _ => True end →
  current_state peer overlay s = get overlay (tp_registry s) ∧ account_mismatch (current_state peer overlay s) overlay s = s.
Proof.
  intros Hm Hk. assert (Hc : current_state peer overlay s = get overlay (tp_registry s)).
  { unfold current_state, resolve_id. destruct (get overlay (tp_registry s)) as [st|] eqn:E; [done|].
    destruct (mp_peer_to_key _ !! peer) as [[j|]|]; [|done|done]. by subst j. }
  split; [done|]. unfold account_mismatch. rewrite Hc. destruct (get overlay (tp_registry s)) as [st|] eqn:E; [|done].
  simpl. pose proof (mo_shape _ Hm _ _ E) as Hs. simpl in Hs. rewrite Hs. by rewrite decide_True.
Qed.

Lemma should_accept_None o r : should_accept_inbound proximity max_po o r = true → kd_phases r !! o = None.
Proof. unfold should_accept_inbound. rewrite andb_true_iff, bool_decide_eq_true. by intros [? _]. Qed.

Lemma handshake_completed_ok n s peer conn overlay banned now : topology_ok n s → Z.of_nat (S n) < u64_max →
  match mp_peer_to_key (rg_maps (tp_registry s)) !! peer with Some (Known j) => j = overlay | _ => True end →
  topology_ok (S n) (handshake_completed peer conn overlay banned now s).2.
Proof.
  intros Hok Hn Hk. pose proof Hok as [Ht He Hr Ha]. assert (Hsame : topology_ok (S n) s) by (by apply topology_ok_mono).
  unfold handshake_completed. destruct banned; [done|].
  destruct (current_state_known peer overlay s (ro_maps _ _ Hr) Hk) as [Hc Hmis]. rewrite Hmis, Hc.
  assert (Hr' : registry_ok (S n) (activate None peer conn overlay now (tp_registry s)).2).
  { apply activate_ok; [done|lia|]. simpl. destruct (mp_peer_to_key _ !! peer) as [[]|]; [by left|done|done]. }
  destruct (get_activate None peer conn overlay now (tp_registry s) (ro_maps _ _ Hr) Hk) as [reason Hget].
  pose proof (view_upd_eq _ _ _ _ Hget) as Hview. simpl in Hview.
  assert (Hdone : ∀ m r1, (m <= S n)%nat → agrees m (upd overlay (Some false) (view (tp_registry s))) (dom (dt_id_index (tp_dials s))) r1 →
    topology_ok (S n) (activate_overlay peer conn overlay now (mkTopology (tp_dials s) (tp_registry s) r1))).
  { intros m r1 Hm Hag. split; simpl; [done|done|done|]. eapply agrees_ext; [eapply (agrees_complete m); [done|lia|]|done| |done].
    - unfold upd. by rewrite decide_True.
    - intros x. rewrite Hview. unfold upd. by case_decide. }
  assert (Hin : topology_ok (S n) (match accept_handshake Inbound overlay s with
    | Some s => (Ready, activate_overlay peer conn overlay now s) | None => (RejectedSaturated, s) end).2).
  { simpl. destruct (should_accept_inbound _ _ _ _) eqn:Ea; [|done]. apply should_accept_None in Ea. simpl.
    apply (Hdone (S n)); [lia|]. apply agrees_reserve_inbound; [done|lia|done]. }
  destruct (get overlay (tp_registry s)) as [[p c i dir t rs|p i c t rs]|] eqn:E; [|exact Hin..].
  destruct dir; [exact Hin|]. replace s with (mkTopology (tp_dials s) (tp_registry s) (tp_routing s)) at 1 by (by destruct s).
  apply (Hdone n); [lia|]. eapply agrees_ext; [done|lia| |done].
  intros x. unfold upd, view. case_decide; [subst; by rewrite E|done].
Qed.

Lemma release_timed_out_ok n g reg dials rs : ∀ d r, agrees n g d r → Z.of_nat n < u64_max →
  (∀ q i, q ∈ rs → rq_id q = Some i → g i = None) →
  let s' := release_timed_out rs (mkTopology dials reg r) in
  tp_dials s' = dials ∧ tp_registry s' = reg ∧ agrees n g (without rs d) (tp_routing s').
Proof.
  induction rs as [|q rs IH]; intros d r Hag Hn Hid; simpl; [done|].
  assert (Hag' : agrees n g (d ∖ rq_ids q) (tp_routing (for_overlay (rq_id q) release_dial (mkTopology dials reg r)))).
  { unfold rq_ids. destruct (rq_id q) as [i|] eqn:E; simpl; [apply agrees_release_dial; [done|done|eapply Hid; [by left|done]]|].
    eapply agrees_ext; [done|lia|done|set_solver]. }
  destruct (IH _ _ Hag' Hn) as (H1&H2&H3); [intros; eapply Hid; [by right|done]|].
  unfold release_timed_out in *. simpl. by destruct (rq_id q).
Qed.

Lemma sweep_ok n peers : ∀ s, topology_ok n s → Z.of_nat n < u64_max →
  (∀ p, p ∈ peers → is_some_and is_active (get_by_peer_id p (tp_registry s)) = false) →
  topology_ok n (foldl (λ s peer, handshake_failed peer s) s peers).
Proof.
  induction peers as [|p peers IH]; intros s Hok Hn Hp; simpl; [done|].
  apply IH; [apply handshake_failed_ok; [done|done|apply Hp; by left]|done|].
  intros q Hq. unfold handshake_failed.
  pose proof (get_by_peer_disconnected p q (tp_registry s) (ro_maps _ _ (tk_registry _ _ Hok))) as Hg.
  destruct (Registry.disconnected p (tp_registry s)) as [st reg]. simpl in Hg.
  replace (tp_registry (for_overlay _ _ _)) with reg by (by destruct (st ≫= st_id)). rewrite Hg. case_decide; [done|].
  apply Hp. by right.
Qed.

Lemma cleanup_stale_ok n s order now : topology_ok n s → Z.of_nat n < u64_max → topology_ok n (cleanup_stale_pending order now s).
Proof.
  intros [Ht He Hr Ha] Hn. unfold cleanup_stale_pending.
  pose proof (cleanup_ids jitter_seed_for order now (tp_dials s) Ht He) as Hc.
  destruct (cleanup_expired order now (tp_dials s)) as [[ex out] d]. destruct Hc as (Ht'&He'&Hdom&Hid).
  destruct (release_timed_out_ok n _ (tp_registry s) d out _ _ Ha Hn) as (H1&H2&H3).
  { intros q i Hq Hi. apply (ag_excl _ _ _ _ Ha). by eapply Hid. }
  set (s' := release_timed_out _ _) in *. apply sweep_ok; [|done|].
  - split; [by rewrite H1|by rewrite H1|by rewrite H2|]. by rewrite H1, H2, Hdom.
  - intros p Hp. rewrite H2 in *. destruct (decide (now < HANDSHAKE_TIMEOUT)) as [Hlt|Hge].
    { unfold stale_pending in Hp. rewrite decide_True in Hp by done. by apply not_elem_of_nil in Hp. }
    apply stale_pending_iff in Hp as (st&t&->&Hst&_); [|apply Hr|lia]. by destruct st.
Qed.

Lemma topology_step_ok n s e : topology_ok n s → Z.of_nat (S n) < u64_max → well_timed s e → topology_ok (S n) (topology_step s e).
Proof.
  intros Hok Hn Hw. assert (Hn' : Z.of_nat n < u64_max) by lia. destruct e; simpl in *.
  - by apply dial_ok.
  - by apply established_outbound_ok.
  - by apply established_inbound_ok.
  - by apply topology_ok_mono, connection_closed_ok.
  - by apply topology_ok_mono, dial_failure_ok.
  - by apply handshake_completed_ok.
  - by apply topology_ok_mono, handshake_failed_ok.
  - by apply topology_ok_mono, cleanup_stale_ok.
Qed.

Lemma topology_new_ok l dc lw pw now : topology_ok 0 (topology_new l dc lw pw now).
Proof.
  split; [apply tracker_start_ok|simpl; apply lhm_iter_empty|apply registry_new_ok|]. simpl. rewrite dom_empty_L.
  split; simpl.
  - intros o. unfold expected_phase, view, get. simpl. rewrite !lookup_empty. simpl. by rewrite decide_False by set_solver.
  - set_solver.
  - apply (cap_exact_of 0). apply cap_new.
  - by rewrite map_size_empty.
  - by apply index_ok_new.
  - done.
  - intros o. unfold view, get. simpl. rewrite lookup_empty. simpl. split; [|done]. unfold exists_in, lhs_contains, bucket, pi_new. simpl.
    rewrite bool_decide_eq_true. intros Hin. destruct (replicate _ _ !! _) eqn:E; simpl in Hin;
      [apply lookup_replicate in E as [-> _]|]; rewrite lhs_iter_empty in Hin; by apply not_elem_of_nil in Hin.
Qed.

Lemma topology_run_ok es : ∀ n s, topology_ok n s → Z.of_nat n + Z.of_nat (length es) + 1 < u64_max → all_well_timed s es →
  topology_ok (n + length es) (foldl topology_step s es).
Proof.
  induction es as [|e es IH]; intros n s Hok Hn Hw; simpl in *; [by rewrite Nat.add_0_r|].
  destruct Hw as [Hw Hws]. replace (n + S (length es))%nat with (S n + length es)%nat by lia.
  apply IH; [|lia|done]. apply topology_step_ok; [done|lia|done].
Qed.


(** ** Simultaneous open *)

(** Nothing in the registry or the dial tracker stands for the overlay any
    more, but its handshaking slot is held. *)
Record locked_out (o : Z) s : Prop := {
  lo_phase : kd_phases (tp_routing s) !! o = Some Handshaking;
  lo_known : get o (tp_registry s) = None;
  lo_registry : ∀ k st, mp_by_key (rg_maps (tp_registry s)) !! k = Some st → st_id st ≠ Some o;
  lo_dials : ∀ p q, dt_in_flight (tp_dials s) !! p = Some q → rq_id q ≠ Some o;
}.

(** The overlay is asserted only by peers that were not dialled for another one. *)
Definition asserts_own (o : Z) s (e : TopologyEvent) : Prop :=
  match e with HandshakeCompleted peer _ overlay _ _ => overlay = o → resolve_id peer (tp_registry s) = None | _ => True end.

Fixpoint all_assert_own (o : Z) s (es : list TopologyEvent) : Prop :=
  match es with
  | [] => True
  | e :: es => asserts_own o s e ∧ all_assert_own o (topology_step s e) es
  end.

(** Capacity operations on another overlay leave this one's phase alone. *)
Lemma phase_other o x f s : x ≠ Some o →
  (∀ i r, i ≠ o → kd_phases (f i r) !! o = kd_phases r !! o) → kd_phases (tp_routing (for_overlay x f s)) !! o = kd_phases (tp_routing s) !! o.
Proof. intros Hx Hf. destruct x as [i|]; simpl; [|done]. apply Hf. congruence. Qed.

Lemma for_overlay_rest x f s : tp_dials (for_overlay x f s) = tp_dials s ∧ tp_registry (for_overlay x f s) = tp_registry s.
Proof. by destruct x. Qed.

Lemma release_dial_other o i r : i ≠ o → kd_phases (release_dial i r) !! o = kd_phases r !! o.
Proof. intros. simpl. by rewrite lookup_delete_ne. Qed.
Lemma release_handshake_other o i r : i ≠ o → kd_phases (release_handshake i r) !! o = kd_phases r !! o.
Proof. intros. simpl. by rewrite lookup_delete_ne. Qed.
Lemma reserve_inbound_other o i r : i ≠ o → kd_phases (reserve_inbound i r) !! o = kd_phases r !! o.
Proof. intros. unfold Kademlia.reserve_inbound. destruct (_ !! i); [done|]. simpl. by rewrite lookup_insert_ne. Qed.
Lemma dial_connected_other o i r : i ≠ o → kd_phases (dial_connected i r) !! o = kd_phases r !! o.
Proof. intros. unfold Kademlia.dial_connected. case_decide; [|done]. simpl. by rewrite lookup_insert_ne. Qed.
Lemma handshake_completed_other o i r : i ≠ o →
  kd_phases (Kademlia.handshake_completed proximity max_po i r) !! o = kd_phases r !! o.
Proof. intros. unfold Kademlia.handshake_completed. case_decide; [|done]. simpl. by rewrite lookup_insert_ne. Qed.
Lemma capacity_disconnected_other o i r : i ≠ o → kd_phases (capacity_disconnected i r) !! o = kd_phases r !! o.
Proof. intros. unfold Kademlia.disconnected. destruct (_ !! i) as [[]|]; simpl; by rewrite ?lookup_delete_ne. Qed.

(** Removing connections never adds an entry. *)
Lemma disconnected_entries p reg :
  (∀ k st, mp_by_key (rg_maps (Registry.disconnected p reg).2) !! k = Some st → mp_by_key (rg_maps reg) !! k = Some st) ∧
  (∀ st, (Registry.disconnected p reg).1 = Some st → ∃ k, mp_by_key (rg_maps reg) !! k = Some st).
Proof.
  unfold Registry.disconnected, remove_by_peer. destruct (mp_peer_to_key (rg_maps reg) !! p) as [k|]; simpl; [|done].
  destruct (mp_by_key (rg_maps reg) !! k) as [st|] eqn:E; simpl; [|done]. split; [|naive_solver].
  intros k' st'. destruct (is_active st); simpl; rewrite lookup_delete_Some; naive_solver.
Qed.

Lemma locked_disconnect o s p f : locked_out o s → (∀ i r, i ≠ o → kd_phases (f i r) !! o = kd_phases r !! o) →
  locked_out o (let '(st, reg) := Registry.disconnected p (tp_registry s) in
                for_overlay (st ≫= st_id) f (mkTopology (tp_dials s) reg (tp_routing s))).
Proof.
  intros [H1 H2 H3 H4] Hf. destruct (disconnected_entries p (tp_registry s)) as [He Hs].
  destruct (Registry.disconnected p (tp_registry s)) as [st reg]. simpl in *.
  destruct (for_overlay_rest (st ≫= st_id) f (mkTopology (tp_dials s) reg (tp_routing s))) as [Hd Hr].
  split; rewrite ?Hd, ?Hr; simpl.
  - rewrite phase_other; [done| |done]. intros Hx. apply bind_Some in Hx as (x&->&Hx). destruct (Hs x eq_refl) as [k Hk]. by apply H3 in Hk.
  - unfold get in *. destruct (mp_by_key (rg_maps reg) !! Known o) eqn:E; [|done]. apply He in E. congruence.
  - intros k x Hk. eapply H3, He, Hk.
  - done.
Qed.

Lemma drop_in_flight_entries p (t : DialTracker (A:=A) (D:=D) (M:=M) (CB:=CB) (CN:=CN)) :
  (∀ q x, dt_in_flight (drop_in_flight p t).2 !! q = Some x → dt_in_flight t !! q = Some x) ∧
  (∀ x, (drop_in_flight p t).1 = Some x → dt_in_flight t !! p = Some x).
Proof.
  unfold drop_in_flight. destruct (dt_in_flight t !! p) eqn:E; simpl; [|done]. split; [|naive_solver].
  intros q x. rewrite lookup_delete_Some. naive_solver.
Qed.

Lemma drop_all_entries (P : DialRequest (A:=A) (D:=D) → Prop) drop l :
  (∀ p (t : DialTracker (A:=A) (D:=D) (M:=M) (CB:=CB) (CN:=CN)), (∀ q x, dt_in_flight t !! q = Some x → P x) →
     (∀ q x, dt_in_flight (drop p t).2 !! q = Some x → P x)) →
  ∀ t, (∀ q x, dt_in_flight t !! q = Some x → P x) → ∀ q x, dt_in_flight (drop_all drop l t).2 !! q = Some x → P x.
Proof.
  intros Hd. induction l as [|p l IH]; intros t Ht; simpl; [done|]. pose proof (Hd p t Ht) as H1.
  destruct (drop p t) as [o t1]. pose proof (IH t1 H1) as H2. by destruct (drop_all drop l t1).
Qed.

Lemma drop_all_returned (P : DialRequest (A:=A) (D:=D) → Prop) l :
  ∀ t : DialTracker (A:=A) (D:=D) (M:=M) (CB:=CB) (CN:=CN), (∀ q x, dt_in_flight t !! q = Some x → P x) →
  Forall P (drop_all drop_in_flight l t).1.
Proof.
  induction l as [|p l IH]; intros t Ht; simpl; [done|]. destruct (drop_in_flight_entries p t) as [H1 H2].
  destruct (drop_in_flight p t) as [o t1]. simpl in *. specialize (IH t1 ltac:(eauto)). destruct (drop_all drop_in_flight l t1) as [rs t2].
  simpl in *. destruct o as [x|]; simpl; [|done]. constructor; [|done]. eauto.
Qed.

Lemma cleanup_entries (P : DialRequest (A:=A) (D:=D) → Prop) order now (t : DialTracker (A:=A) (D:=D) (M:=M) (CB:=CB) (CN:=CN)) :
  (∀ q x, dt_in_flight t !! q = Some x → P x) →
  Forall P (cleanup_expired order now t).1.2 ∧ ∀ q x, dt_in_flight (cleanup_expired order now t).2 !! q = Some x → P x.
Proof.
  intros Ht. unfold cleanup_expired. set (l := (filter _ _).*1).
  assert (H1 : ∀ q x, dt_in_flight (drop_all drop_pending l t).2 !! q = Some x → P x).
  { apply drop_all_entries; [|done]. intros p t' Ht' q x. unfold drop_pending. destruct (lhm_get p _); simpl; apply Ht'. }
  destruct (drop_all drop_pending l t) as [e t1]. simpl in H1. set (l' := filter _ order).
  assert (H2 : ∀ q x, dt_in_flight (drop_all drop_in_flight l' t1).2 !! q = Some x → P x).
  { apply drop_all_entries; [|done]. intros p t' Ht' q x Hx. eapply Ht', (proj1 (drop_in_flight_entries p t')), Hx. }
  pose proof (drop_all_returned P l' t1 H1) as H3. destruct (drop_all drop_in_flight l' t1) as [f t2]. done.
Qed.

Lemma prepare_entries id peer addrs data keep now (t : DialTracker (A:=A) (D:=D) (M:=M) (CB:=CB) (CN:=CN)) q x :
  dt_in_flight (prepare_and_start jitter_seed_for ip_version id peer addrs data keep now t).2 !! q = Some x →
  dt_in_flight t !! q = Some x ∨ rq_id x = id.
Proof.
  unfold prepare_and_start. destruct (check_id_caches jitter_seed_for id now t) as (b&n&Hc).
  destruct (check_id jitter_seed_for id now t) as [res t'] eqn:E. simpl in Hc. subst t'. destruct res as [u|[]]; [|by left..].
  destruct (is_tracked _ _ _); [by left|]. destruct (prepare_filtered _ _ _) as [[sorted f]|]; [|by left].
  simpl. intros [[_ <-]|[_ ?]]%lookup_insert_Some; [by right|by left].
Qed.

Lemma remove_by_key_entries k (m : Maps (R:=option D)) k' st :
  mp_by_key (remove_by_key k m).2 !! k' = Some st → mp_by_key m !! k' = Some st.
Proof. unfold remove_by_key. destruct (mp_by_key m !! k) eqn:E; simpl; [|done]. rewrite lookup_delete_Some. naive_solver. Qed.

Lemma remove_opt_entries x (m : Maps (R:=option D)) k' st :
  mp_by_key (remove_opt x m).2 !! k' = Some st → mp_by_key m !! k' = Some st.
Proof.
  destruct x as [k|]; simpl; [|done]. pose proof (remove_by_key_entries k m k' st) as H.
  by destruct (remove_by_key k m) as [[] m'].
Qed.

Lemma activate_entries p c id now reg k st :
  mp_by_key (rg_maps (activate None p c id now reg).2) !! k = Some st →
  mp_by_key (rg_maps reg) !! k = Some st ∨ (k = Known id ∧ st_id st = Some id).
Proof.
  unfold activate. pose proof (remove_by_key_entries (Known id) (rg_maps reg) k st) as H1.
  destruct (remove_by_key (Known id) (rg_maps reg)) as [old m1]. simpl in H1.
  destruct (match old with Some s => if is_active s then _ else _ | None => _ end) as [p0 a0].
  assert (Hgen : ∀ x reason a b, mp_by_key (rg_maps (mkRegistry (maps_insert (Known id) (Registry.Active p id c now reason)
    (remove_opt x m1).2) a b)) !! k = Some st → mp_by_key (rg_maps reg) !! k = Some st ∨ (k = Known id ∧ st_id st = Some id)).
  { intros x reason a b. simpl. intros [[<- <-]|[_ Hk]]%lookup_insert_Some; [by right|left]. by eapply H1, remove_opt_entries. }
  destruct (find_replacement (rg_maps reg) id p) as [op oc pk|ei oc|pk].
  - specialize (Hgen pk). destruct (remove_opt pk m1) as [n2 m2]. apply Hgen.
  - specialize (Hgen (Some (Known ei))). destruct (remove_opt (Some (Known ei)) m1) as [n2 m2]. apply Hgen.
  - specialize (Hgen pk). destruct (remove_opt pk m1) as [n2 m2]. apply Hgen.
Qed.

Lemma locked_handshake o s peer conn overlay banned now : locked_out o s → (overlay = o → resolve_id peer (tp_registry s) = None) →
  locked_out o (handshake_completed peer conn overlay banned now s).2.
Proof.
  intros Hlo Hown. destruct Hlo as [H1 H2 H3 H4] eqn:EL. clear EL. unfold handshake_completed. destruct banned; [done|].
  destruct (decide (overlay = o)) as [->|Hne].
  - assert (Hc : current_state peer o s = None) by (unfold current_state; by rewrite H2, Hown). rewrite Hc. simpl.
    destruct (should_accept_inbound _ _ _ _) eqn:E; [|done]. apply should_accept_None in E. unfold account_mismatch in E. simpl in E. congruence.
  - set (st := current_state peer overlay s).
    assert (Hid : st ≫= st_id ≠ Some o).
    { unfold st, current_state, get. destruct (mp_by_key _ !! Known overlay) as [x|] eqn:E; [by apply H3 in E|].
      intros (x&Hx&Hi)%bind_Some. apply bind_Some in Hx as (j&_&Hx). by apply H3 in Hx. }
    set (s1 := account_mismatch st overlay s).
    assert (Hs1 : kd_phases (tp_routing s1) !! o = Some Handshaking ∧ tp_registry s1 = tp_registry s ∧ tp_dials s1 = tp_dials s).
    { unfold s1, account_mismatch. destruct (st ≫= st_id) as [j|]; [|done]. case_decide; [done|]. simpl. split; [|done].
      rewrite reserve_inbound_other by done. rewrite release_handshake_other by congruence. done. }
    destruct Hs1 as (Hp1&Hr1&Hd1).
    assert (Hl1 : locked_out o s1) by (split; [done|by rewrite Hr1|by rewrite Hr1|by rewrite Hd1]).
    destruct (accept_handshake (default Inbound (st ≫= st_direction)) overlay s1) as [s2|] eqn:E; [|done].
    assert (Hs2 : kd_phases (tp_routing s2) !! o = Some Handshaking ∧ tp_registry s2 = tp_registry s ∧ tp_dials s2 = tp_dials s).
    { unfold accept_handshake in E. destruct (default Inbound _); [|by simplify_eq].
      destruct (should_accept_inbound _ _ _ _); [|done]. injection E as <-. simpl. by rewrite reserve_inbound_other. }
    destruct Hs2 as (Hp2&Hr2&Hd2). split; simpl; rewrite ?Hr2, ?Hd2.
    + rewrite (proj2 (routing_connected_spec _ _ _)). by rewrite handshake_completed_other.
    + unfold get. destruct (mp_by_key _ !! Known o) as [x|] eqn:Ex; [|done]. exfalso.
      apply activate_entries in Ex as [Ex|[[= ->] _]]; [|done]. unfold get in H2. congruence.
    + intros k x Hk. apply activate_entries in Hk as [Hk|[_ ->]]; [by eapply H3|congruence].
    + done.
Qed.

Lemma locked_dial o s overlay peer addrs reason can_dial now : locked_out o s →
  locked_out o (dial overlay peer addrs reason can_dial now s).
Proof.
  intros Hlo. pose proof Hlo as [H1 H2 H3 H4]. unfold dial. destruct (is_peer_tracked peer s); [done|].
  pose proof (prepare_entries overlay peer addrs reason can_dial now (tp_dials s)) as Hpe.
  assert (Hfin : ∀ r, kd_phases r !! o = Some Handshaking → overlay ≠ Some o →
    locked_out o (let '(res, d) := prepare_and_start jitter_seed_for ip_version overlay peer addrs reason can_dial now (tp_dials s) in
      match res with Ok _ => mkTopology d (tp_registry s) r | Err _ => for_overlay overlay release_dial (mkTopology d (tp_registry s) r) end)).
  { intros r Hr Hov. destruct (prepare_and_start _ _ _ _ _ _ _ _ _) as [res d]. simpl in Hpe.
    assert (Hd : ∀ p q, dt_in_flight d !! p = Some q → rq_id q ≠ Some o) by (intros p q [Hq| ->]%Hpe; [by eapply H4|done]).
    destruct res; [by split|]. destruct (for_overlay_rest overlay release_dial (mkTopology d (tp_registry s) r)) as [E1 E2].
    split; rewrite ?E1, ?E2; simpl; [|done|done|done]. rewrite phase_other; [done|done|]. apply release_dial_other. }
  destruct overlay as [i|].
  - destruct (decide (i = o)) as [->|Hne].
    { unfold try_reserve_dial. rewrite H1. simpl. by destruct s. }
    assert (Ho : kd_phases (try_reserve_dial proximity max_po i (tp_routing s)).2 !! o = Some Handshaking).
    { unfold try_reserve_dial. destruct (_ !! i); [done|]. destruct (needs_more _ _ _ _); [|done]. simpl. by rewrite lookup_insert_ne. }
    destruct (try_reserve_dial proximity max_po i (tp_routing s)) as [[] r]; simpl in *; [|by split].
    specialize (Hfin r Ho ltac:(congruence)). by destruct (prepare_and_start _ _ _ _ _ _ _ _ _) as [[] d].
  - specialize (Hfin (tp_routing s) H1 ltac:(done)). by destruct (prepare_and_start _ _ _ _ _ _ _ _ _) as [[] d].
Qed.

Lemma locked_step o s e : locked_out o s → asserts_own o s e → locked_out o (topology_step s e).
Proof.
  intros Hlo Hown. destruct e as [overlay peer addrs reason can_dial now|peer conn|peer conn now|peer remaining now|peer
    |peer conn overlay banned now|peer|order now]; simpl in *.
  - by apply locked_dial.
  - pose proof Hlo as [H1 H2 H3 H4]. unfold established_outbound, resolve. destruct (drop_in_flight_entries peer (tp_dials s)) as [Ha Hb].
    destruct (drop_in_flight peer (tp_dials s)) as [[q|] d]; simpl in *; [|done]. specialize (Hb q eq_refl). apply H4 in Hb.
    match goal with |- locked_out o (for_overlay ?x ?f ?t) => destruct (for_overlay_rest x f t) as [E1 E2] end.
    assert (Hreg : ∀ k st, mp_by_key (rg_maps (connected_outbound peer conn (rq_id q) (rq_queued_at q) (Some (rq_data q)) (tp_registry s)).2) !! k = Some st →
      mp_by_key (rg_maps (tp_registry s)) !! k = Some st ∨ (st_id st = rq_id q ∧ k ≠ Known o)).
    { intros k st. unfold connected_outbound. case_decide; [by left|]. case_decide; [by left|]. simpl.
      intros [[<- <-]|[_ ?]]%lookup_insert_Some; [right|by left]. split; [done|]. destruct (rq_id q); congruence. }
    split; rewrite ?E1, ?E2; simpl.
    + rewrite phase_other; [done|done|]. apply dial_connected_other.
    + unfold get. destruct (mp_by_key _ !! Known o) as [x|] eqn:Ex; [|done]. apply Hreg in Ex as [Ex|[_ ?]]; [|done]. unfold get in H2. congruence.
    + intros k st Hk. apply Hreg in Hk as [Hk|[-> _]]; [by eapply H3|done].
    + eauto.
  - destruct Hlo as [H1 H2 H3 H4]. split; simpl; [done| | |done].
    + by rewrite <-(get_connected_inbound None peer conn now (tp_registry s) o) in H2.
    + intros k st [[<- <-]|[_ ?]]%lookup_insert_Some; [done|by eapply H3].
  - unfold connection_closed. case_decide; [done|].
    apply (locked_disconnect o s peer (λ o r, routing_disconnected o now (capacity_disconnected o r))); [done|].
    intros i r Hi. rewrite (proj2 (routing_disconnected_spec _ _ _)). by apply capacity_disconnected_other.
  - destruct Hlo as [H1 H2 H3 H4]. unfold dial_failure, resolve. destruct (drop_in_flight_entries peer (tp_dials s)) as [Ha Hb].
    destruct (drop_in_flight peer (tp_dials s)) as [q d]. simpl in *.
    match goal with |- locked_out o (for_overlay ?x ?f ?t) => destruct (for_overlay_rest x f t) as [E1 E2] end.
    split; rewrite ?E1, ?E2; simpl; [|done|done|eauto]. rewrite phase_other; [done| |apply release_dial_other].
    intros (x&->&Hx)%bind_Some. by eapply H4; [apply Hb|].
  - by apply locked_handshake.
  - apply (locked_disconnect o s peer release_handshake); [done|]. apply release_handshake_other.
  - unfold cleanup_stale_pending. destruct (cleanup_entries (λ q, rq_id q ≠ Some o) order now (tp_dials s)) as [Hf Hd]; [apply Hlo|].
    destruct (cleanup_expired order now (tp_dials s)) as [[ex out] d]. simpl in *.
    assert (Hl : locked_out o (release_timed_out out (mkTopology d (tp_registry s) (tp_routing s)))).
    { assert (Hl0 : locked_out o (mkTopology d (tp_registry s) (tp_routing s))) by (destruct Hlo; by split).
      unfold release_timed_out. revert Hl0. generalize (mkTopology d (tp_registry s) (tp_routing s)).
      induction Hf as [|q out Hq _ IH]; intros s0 Hl0; simpl; [done|]. apply IH.
      destruct (for_overlay_rest (rq_id q) release_dial s0) as [E1 E2]. destruct Hl0.
      split; rewrite ?E1, ?E2; [|done|done|done]. rewrite phase_other; [done|done|]. apply release_dial_other. }
    revert Hl. set (s1 := release_timed_out _ _). generalize (stale_pending HANDSHAKE_TIMEOUT now (tp_registry s1)) as peers.
    clearbody s1. intros peers. revert s1.
    induction peers as [|p peers IH]; intros s1 Hl; simpl; [done|]. apply IH.
    apply (locked_disconnect o s1 p release_handshake); [done|]. apply release_handshake_other.
Qed.

Lemma locked_run o es : ∀ s, locked_out o s → all_assert_own o s es → locked_out o (foldl topology_step s es).
Proof.
  induction es as [|e es IH]; intros s Hlo; simpl; [done|]. intros [He Hes]. apply IH; [|done]. by apply locked_step.
Qed.

(** Once the inbound connection is registered under the peer's id, the outbound
    one moves the slot to its handshake and registers nothing. *)
Lemma race_locks n s peer c1 c2 now req o : topology_ok n s →
  dt_in_flight (tp_dials s) !! peer = Some req → rq_id req = Some o →
  locked_out o (established_outbound peer c2 (established_inbound peer c1 now s)) ∧
  resolve_id peer (tp_registry (established_outbound peer c2 (established_inbound peer c1 now s))) = None.
Proof.
  intros [Ht He Hr Ha] Hf Hid. pose proof (in_flight_lookup (tp_dials s) peer req Ht Hf) as [_ Hq].
  assert (Hix : dt_id_index (tp_dials s) !! o = Some peer) by (apply (tk_index _ Ht); eauto).
  assert (Hod : o ∈ dom (dt_id_index (tp_dials s))) by (apply elem_of_dom; eauto).
  pose proof (ag_excl _ _ _ _ Ha o Hod) as Hv. pose proof (ag_phase _ _ _ _ Ha o) as Hp. unfold expected_phase in Hp.
  rewrite Hv, decide_True in Hp by done. unfold view in Hv. apply fmap_None in Hv.
  unfold established_outbound, resolve, drop_in_flight. simpl. rewrite Hf. rewrite Hid. simpl. unfold connected_outbound. simpl.
  rewrite lookup_insert_eq, decide_True by done. simpl. split; [|unfold resolve_id; simpl; by rewrite lookup_insert_eq].
  split; simpl.
  - unfold Kademlia.dial_connected. rewrite decide_True by done. simpl. by rewrite lookup_insert_eq.
  - by rewrite <-(get_connected_inbound None peer c1 now (tp_registry s) o) in Hv.
  - intros k st [[<- <-]|[_ Hk]]%lookup_insert_Some; [done|]. pose proof (mo_shape _ (ro_maps _ _ Hr) _ _ Hk) as Hs.
    destruct k as [i|q]; [|naive_solver congruence]. rewrite Hs. intros [= ->]. unfold get in Hv. congruence.
  - intros q r [Hne Hq']%lookup_delete_Some Hr'. pose proof (in_flight_lookup (tp_dials s) q r Ht Hq') as [_ Hm].
    assert (dt_id_index (tp_dials s) !! o = Some q) by (apply (tk_index _ Ht); eauto). congruence.
Qed.

(** A simultaneous open locks the overlay out.  Take any state the
    node reaches by well timed events in which a dial of an overlay is in flight,
    and let the same peer's own connection be established before the dialled one.
    Then the handshake on either connection is rejected as saturated, and after
    any further events, closes and sweeps included, in which the overlay is
    asserted only by peers not dialled for another one, its slot is still in the
    handshaking phase with no connection in the registry: the overlay can be
    neither dialled nor accepted again. *)
Theorem simultaneous_open_locks_out l dc lw pw t0 es0 peer c1 c2 now req o :
  Z.of_nat (length es0) + 1 < u64_max → all_well_timed (topology_new l dc lw pw t0) es0 →
  let s := foldl topology_step (topology_new l dc lw pw t0) es0 in
  dt_in_flight (tp_dials s) !! peer = Some req → rq_id req = Some o →
  let s2 := foldl topology_step s [EstablishedInbound peer c1 now; EstablishedOutbound peer c2] in
  (∀ c t, (handshake_completed peer c o false t s2).1 = RejectedSaturated) ∧
  ∀ es, all_assert_own o s2 es → let s' := foldl topology_step s2 es in
    kd_phases (tp_routing s') !! o = Some Handshaking ∧ get o (tp_registry s') = None ∧
    (try_reserve_dial proximity max_po o (tp_routing s')).1 = false ∧
    should_accept_inbound proximity max_po o (tp_routing s') = false.
Proof.
  intros Hlen Hw s Hf Hid s2.
  assert (Hok : topology_ok (0 + length es0) s) by (apply topology_run_ok; [apply topology_new_ok|simpl; lia|done]).
  destruct (race_locks _ s peer c1 c2 now req o Hok Hf Hid) as [Hlo Hres].
  change (locked_out o s2) in Hlo. change (resolve_id peer (tp_registry s2) = None) in Hres.
  assert (Hacc : ∀ t, locked_out o t → should_accept_inbound proximity max_po o (tp_routing t) = false).
  { intros t Ht. destruct (should_accept_inbound _ _ _ _) eqn:E; [|done]. apply should_accept_None in E.
    rewrite (lo_phase _ _ Ht) in E. done. }
  split.
  - intros c t. clearbody s2. unfold handshake_completed. assert (current_state peer o s2 = None) as ->.
    { unfold current_state. rewrite (lo_known _ _ Hlo). by rewrite Hres. }
    unfold accept_handshake, account_mismatch. simpl. by rewrite (Hacc _ Hlo).
  - intros es Hes s'. pose proof (locked_run o es s2 Hlo Hes) as Hl. split_and!; [apply Hl|apply Hl| |by apply Hacc].
    unfold try_reserve_dial. fold s' in Hl. by rewrite (lo_phase _ _ Hl).
Qed.

(** A second identity on an active connection reserves a slot that
    nothing releases. *)
Lemma second_identity_locks n s peer conn a o st now : topology_ok n s →
  resolve_id peer (tp_registry s) = Some a → get a (tp_registry s) = Some st → is_active st = true →
  kd_phases (tp_routing s) !! o = None →
  (handshake_completed peer conn o false now s).1 = RejectedSaturated ∧
  locked_out o (handshake_completed peer conn o false now s).2.
Proof.
  intros [Ht He Hr Ha] Hres Hget Hact Hno.
  pose proof (mo_shape _ (ro_maps _ _ Hr) (Known a) st Hget) as Hid. simpl in Hid.
  assert (Hdir : st_direction st = None) by (by destruct st).
  pose proof (ag_phase _ _ _ _ Ha o) as Hp. rewrite Hno in Hp. unfold expected_phase in Hp.
  destruct (view (tp_registry s) o) as [[]|] eqn:Hv; [done|done|]. unfold view in Hv. apply fmap_None in Hv.
  destruct (decide (o ∈ dom (dt_id_index (tp_dials s)))) as [|Hnd]; [done|].
  assert (Hne : a ≠ o) by (intros ->; congruence).
  unfold handshake_completed, current_state. rewrite Hv, Hres. cbn [mbind option_bind]. rewrite Hget. cbn [mbind option_bind]. rewrite Hdir.
  unfold account_mismatch. cbn [mbind option_bind default from_option]. rewrite Hid. rewrite decide_False by done.
  set (s1 := on_routing _ s).
  assert (Hph : kd_phases (tp_routing s1) !! o = Some Handshaking).
  { unfold s1. simpl. unfold Kademlia.reserve_inbound. rewrite release_handshake_other by done. rewrite Hno. simpl. by rewrite lookup_insert_eq. }
  unfold accept_handshake. destruct (should_accept_inbound _ _ _ _) eqn:E; [apply should_accept_None in E; congruence|].
  split; [done|]. split; [done|done| |].
  - intros k x Hk. change (mp_by_key (rg_maps (tp_registry s)) !! k = Some x) in Hk.
    pose proof (mo_shape _ (ro_maps _ _ Hr) _ _ Hk) as Hs. destruct k as [j|q]; [|naive_solver congruence].
    rewrite Hs. intros [= ->]. unfold get in Hv. congruence.
  - intros q r Hq' Hr'. pose proof (in_flight_lookup (tp_dials s) q r Ht Hq') as [_ Hm]. apply Hnd, elem_of_dom.
    exists q. apply (tk_index _ Ht). eauto.
Qed.

(** A second identity locks its overlay out.  In any state the node reaches by
    well timed events, let a peer that is active complete another handshake on its
    connection for an overlay that is not connected, dialled or in a
    handshake.  The completion is rejected, but the slot it reserved stays: after
    any further events, the close of that connection and sweeps included, in which
    the overlay is asserted only by peers not active as another one, the overlay
    can be neither dialled nor accepted. *)
Theorem second_identity_locks_out l dc lw pw t0 es0 peer conn a o st now :
  Z.of_nat (length es0) + 1 < u64_max → all_well_timed (topology_new l dc lw pw t0) es0 →
  let s := foldl topology_step (topology_new l dc lw pw t0) es0 in
  resolve_id peer (tp_registry s) = Some a → get a (tp_registry s) = Some st → is_active st = true →
  kd_phases (tp_routing s) !! o = None →
  (handshake_completed peer conn o false now s).1 = RejectedSaturated ∧
  let s2 := (handshake_completed peer conn o false now s).2 in
  ∀ es, all_assert_own o s2 es → let s' := foldl topology_step s2 es in
    kd_phases (tp_routing s') !! o = Some Handshaking ∧ get o (tp_registry s') = None ∧
    (try_reserve_dial proximity max_po o (tp_routing s')).1 = false ∧
    should_accept_inbound proximity max_po o (tp_routing s') = false.
Proof.
  intros Hlen Hw s Hres Hget Hact Hno.
  assert (Hok : topology_ok (0 + length es0) s) by (apply topology_run_ok; [apply topology_new_ok|simpl; lia|done]).
  destruct (second_identity_locks _ s peer conn a o st now Hok Hres Hget Hact Hno) as [H1 Hlo].
  split; [done|]. intros s2 es Hes s'. pose proof (locked_run o es s2 Hlo Hes) as Hl. fold s' in Hl. split_and!; [apply Hl|apply Hl| |].
  - unfold try_reserve_dial. by rewrite (lo_phase _ _ Hl).
  - destruct (should_accept_inbound _ _ _ _) eqn:E; [|done]. apply should_accept_None in E. by rewrite (lo_phase _ _ Hl) in E.
Qed.
End connections.

(** ** Concrete histories *)

Module ConnectionsDemo.

Definition limits : DepthAwareLimits := mkLimits 4 4 4 4 4 4.

Abbreviation start := (topology_new (A:=Z) (D:=unit) (B:=list Z) (M:=list (Z * DialRequest)) (CB:=gmap Z BackoffEntry)
  (CN:=gmap Z Z) 3 limits 4 10 10 0).
Abbreviation step := (topology_step (A:=Z) (D:=unit) (B:=list Z) (M:=list (Z * DialRequest)) (CB:=gmap Z BackoffEntry)
  (CN:=gmap Z Z) (λ _, 1) 3 (λ _ _ _, 2) 2 (λ _, 0) (λ _, Some V4)).

(** Overlay 5 is dialled and completes, overlay 6 comes in, overlay 9 is still
    being dialled. *)
Definition events : list (TopologyEvent (A:=Z) (D:=unit)) :=
  [Dial (Some 5) 50 [1] () (λ _, true) 0; EstablishedOutbound 50 1; HandshakeCompleted 50 1 5 false 1;
   EstablishedInbound 60 2 1; HandshakeCompleted 60 2 6 false 2; Dial (Some 9) 90 [1] () (λ _, true) 2; CleanupStale [90] 3].


Definition in_flight : DialRequest (A:=Z) (D:=unit) := mkRequest (Some 9) 90 [] () 2 (Some 2).

(** The peer dialled for overlay 9 opens its own connection first; both are
    rejected, close, and a minute later the overlay is still not dialable. *)
Lemma simultaneous_open_locks_out_witness :
  let s := foldl step (foldl step start events) [EstablishedInbound 90 3 4; EstablishedOutbound 90 4] in
  let s' := foldl step s [HandshakeCompleted 90 3 9 false 5; HandshakeCompleted 90 4 9 false 5; ConnectionClosed 90 1 6;
                          ConnectionClosed 90 0 6; CleanupStale [] 60000000000] in
  mp_by_key (rg_maps (tp_registry s')) !! Known 9 = None ∧ mp_by_key (rg_maps (tp_registry s')) !! Pending 90 = None ∧
  (try_reserve_dial (λ _, 1) 3 9 (tp_routing s')).1 = false ∧ should_accept_inbound (λ _, 1) 3 9 (tp_routing s') = false.
Proof.
  intros s s'. destruct (simultaneous_open_locks_out (A:=Z) (D:=unit) (B:=list Z) (M:=list (Z * DialRequest))
    (CB:=gmap Z BackoffEntry) (CN:=gmap Z Z) (λ _, 1) 3 (λ _ _ _, 2) 2 (λ _, 0) (λ _, Some V4) ltac:(lia) ltac:(lia)
    limits 4 10 10 0 events 90 3 4 4 in_flight 9) as [_ H].
  - vm_compute. reflexivity.
  - vm_compute. repeat split.
  - vm_compute. reflexivity.
  - reflexivity.
  - destruct (H [HandshakeCompleted 90 3 9 false 5; HandshakeCompleted 90 4 9 false 5; ConnectionClosed 90 1 6;
                 ConnectionClosed 90 0 6; CleanupStale [] 60000000000]) as (_&_&H3&H4).
    { vm_compute. repeat split. }
    split_and!; [vm_compute; reflexivity|vm_compute; reflexivity|exact H3|exact H4].
Defined.


(** The peer of overlay 6 handshakes again as overlay 7 and leaves; overlay 7 is
    locked out. *)
Lemma second_identity_locks_out_witness :
  let s := foldl step start events in
  let s2 := (handshake_completed (λ _, 1) 3 (λ _ _ _, 2) 2 60 2 7 false 5 s).2 in
  let s' := foldl step s2 [ConnectionClosed 60 0 6; CleanupStale [] 60000000000] in
  mp_by_key (rg_maps (tp_registry s')) !! Known 6 = None ∧
  (try_reserve_dial (λ _, 1) 3 7 (tp_routing s')).1 = false ∧ should_accept_inbound (λ _, 1) 3 7 (tp_routing s') = false.
Proof.
  intros s s2 s'.
  assert (∃ st, get 6 (tp_registry s) = Some st ∧ is_active st = true) as (st & E1 & E2)
    by (eexists; split; [vm_compute; reflexivity|reflexivity]).
  pose proof (second_identity_locks_out (A:=Z) (D:=unit) (B:=list Z) (M:=list (Z * DialRequest)) (CB:=gmap Z BackoffEntry)
    (CN:=gmap Z Z) (λ _, 1) 3 (λ _ _ _, 2) 2 (λ _, 0) (λ _, Some V4) ltac:(lia) ltac:(lia)
    limits 4 10 10 0 events 60 2 6 7 st 5 ltac:(vm_compute; reflexivity) ltac:(vm_compute; repeat split)
    ltac:(vm_compute; reflexivity) E1 E2 ltac:(vm_compute; reflexivity)) as [_ H'].
  split; [vm_compute; reflexivity|].
  destruct (H' [ConnectionClosed 60 0 6; CleanupStale [] 60000000000]) as (_ & _ & H3 & H4); [vm_compute; repeat split|].
  split; [exact H3|exact H4].
Defined.

End ConnectionsDemo.
