(* ===== verification/F64.v ===== *)
(** * Double-precision floats

    The [f64] operations the sources use, over the Standard Library's [SpecFloat]:
    comparisons, [clamp], addition and multiplication with rounding to nearest even,
    and conversions.  The order of two numbers that are not NaN is the
    lexicographic order of a key. *)

From Stdlib Require Import Floats.SpecFloat.
From S2P Require Import Prelude.

Abbreviation f64 := spec_float.

#[global] Instance f64_eq_dec : EqDecision f64.
Proof. solve_decision. Defined.

Definition f64_prec : Z := 53.
Definition f64_emax : Z := 1024.

Definition f64_add (x y : f64) : f64 := SFadd f64_prec f64_emax x y.
Definition f64_mul (x y : f64) : f64 := SFmul f64_prec f64_emax x y.
Definition f64_div (x y : f64) : f64 := SFdiv f64_prec f64_emax x y.

(** [as f64] of an integer. *)
Definition f64_of_Z (n : Z) : f64 := binary_normalize f64_prec f64_emax n 0 false.

(** [as u64]: truncation that saturates, NaN to zero. *)
Definition f64_to_u64 (x : f64) : Z :=
  match x with
  | S754_finite false m e => Z.min u64_max (Z.shiftl (Zpos m) e)
  | S754_infinity false => u64_max
  | _ => 0
  end.

Definition f64_lt (x y : f64) : bool := SFltb x y.
Definition f64_le (x y : f64) : bool := SFleb x y.
Definition f64_eq (x y : f64) : bool := SFeqb x y.

Definition f64_clamp (x lo hi : f64) : f64 :=
  let x := if f64_lt x lo then lo else x in
  if f64_lt hi x then hi else x.

Definition not_nan (x : f64) : Prop := x ≠ S754_nan.

Definition is_finite (x : f64) : Prop :=
  match x with S754_zero _ | S754_finite _ _ _ => True | _ => False end.

(** ** Order *)

(** Sign class, then exponent, then mantissa. *)
Definition f64_key (x : f64) : Z * Z * Z :=
  match x with
  | S754_infinity true => (-2, 0, 0)
  | S754_finite true m e => (-1, -e, Zneg m)
  | S754_zero _ | S754_nan => (0, 0, 0)
  | S754_finite false m e => (1, e, Zpos m)
  | S754_infinity false => (2, 0, 0)
  end.

Definition key_le (a b : Z * Z * Z) : Prop :=
  a.1.1 < b.1.1 ∨ (a.1.1 = b.1.1 ∧ (a.1.2 < b.1.2 ∨ (a.1.2 = b.1.2 ∧ a.2 <= b.2))).

Lemma f64_compare_key x y : not_nan x → not_nan y →
  match SFcompare x y with
  | Some Lt => ¬ key_le (f64_key y) (f64_key x)
  | Some Eq => f64_key x = f64_key y
  | Some Gt => ¬ key_le (f64_key x) (f64_key y)
  | None => False
  end.
Proof.
  unfold key_le. intros Hx Hy.
  destruct x as [sx|sx| |sx mx ex], y as [sy|sy| |sy my ey]; try done;
    try destruct sx; try destruct sy; simpl; try lia; try done;
    destruct (Z.compare_spec ex ey) as [->|?|?]; simpl; try lia;
    fold (Pos.compare mx my); destruct (Pos.compare_spec mx my) as [->|?|?]; simpl; done || lia.
Qed.

Lemma key_le_total a b : key_le a b ∨ key_le b a.
Proof. unfold key_le. lia. Qed.

Lemma key_le_trans a b c : key_le a b → key_le b c → key_le a c.
Proof. unfold key_le. lia. Qed.

Lemma f64_le_key x y : not_nan x → not_nan y → f64_le x y = true ↔ key_le (f64_key x) (f64_key y).
Proof.
  intros Hx Hy. unfold f64_le, SFleb. pose proof (f64_compare_key x y Hx Hy) as H.
  destruct (SFcompare x y) as [[]|]; [|split; [|done]|done|done].
  - rewrite H. split; [intros _|done]. unfold key_le. lia.
  - intros _. by destruct (key_le_total (f64_key x) (f64_key y)).
Qed.

Lemma f64_lt_le x y : not_nan x → not_nan y → f64_lt x y = negb (f64_le y x).
Proof.
  intros Hx Hy. unfold f64_lt, SFltb. pose proof (f64_compare_key x y Hx Hy) as H.
  destruct (f64_le y x) eqn:E; [apply f64_le_key in E; [|done..]|].
  - destruct (SFcompare x y) as [[]|]; done.
  - assert (¬ key_le (f64_key y) (f64_key x)) as Hn by (rewrite <-f64_le_key by done; by rewrite E).
    destruct (SFcompare x y) as [[]|]; [|done| |done].
    + rewrite H in Hn. destruct Hn. unfold key_le. lia.
    + destruct (key_le_total (f64_key x) (f64_key y)); done.
Qed.

Lemma f64_le_trans x y z : not_nan x → not_nan y → not_nan z →
  f64_le x y = true → f64_le y z = true → f64_le x z = true.
Proof. intros Hx Hy Hz. rewrite !f64_le_key by done. apply key_le_trans. Qed.

Lemma f64_le_total x y : not_nan x → not_nan y → f64_le x y = false → f64_le y x = true.
Proof.
  intros Hx Hy. rewrite <-not_true_iff_false, !f64_le_key by done.
  destruct (key_le_total (f64_key x) (f64_key y)); naive_solver.
Qed.

(** A clamped number is one of the three and lies between the bounds. *)
Lemma f64_clamp_range x lo hi : not_nan x → not_nan lo → not_nan hi → f64_le lo hi = true →
  let y := f64_clamp x lo hi in
  not_nan y ∧ f64_le lo y = true ∧ f64_le y hi = true.
Proof.
  intros Hx Hlo Hhi Hle. unfold f64_clamp.
  assert (∀ z, not_nan z → f64_le z z = true) as Hr.
  { intros z Hz. apply f64_le_key; [done..|]. unfold key_le. lia. }
  destruct (f64_lt x lo) eqn:E1.
  - destruct (f64_lt hi lo) eqn:E2; auto.
  - rewrite f64_lt_le in E1 by done. apply negb_false_iff in E1.
    destruct (f64_lt hi x) eqn:E2; auto. rewrite f64_lt_le in E2 by done. apply negb_false_iff in E2. auto.
Qed.

(** ** Rounding never makes a NaN of numbers *)

Lemma shr_1_nonneg r : 0 <= shr_m r → 0 <= shr_m (shr_1 r).
Proof. destruct r as [[|[]|[]] ? ?]; simpl; lia. Qed.

Lemma iter_shr_nonneg p : ∀ r, 0 <= shr_m r → 0 <= shr_m (SpecFloat.iter_pos shr_1 p r).
Proof.
  induction p as [p IH|p IH|]; intros r Hr; simpl; [do 2 apply IH; by apply shr_1_nonneg|by do 2 apply IH|].
  by apply shr_1_nonneg.
Qed.

Lemma shr_fexp_nonneg m e l : 0 <= m → 0 <= shr_m (shr_fexp f64_prec f64_emax m e l).1.
Proof.
  intros Hm. unfold shr_fexp, shr. assert (0 <= shr_m (shr_record_of_loc m l)) as H.
  { destruct l as [|[]]; done. }
  destruct (_ - e); simpl; [done|by apply iter_shr_nonneg|done].
Qed.

Lemma round_not_nan s m e l : 0 <= m → not_nan (binary_round_aux f64_prec f64_emax s m e l).
Proof.
  intros Hm. unfold binary_round_aux. pose proof (shr_fexp_nonneg m e l Hm) as H1.
  destruct (shr_fexp _ _ m e l) as [r1 e1]. simpl in H1.
  set (m' := round_nearest_even (shr_m r1) (loc_of_shr_record r1)).
  assert (0 <= m') as Hm'.
  { unfold m', round_nearest_even. destruct (loc_of_shr_record r1) as [|[]]; try case_match; lia. }
  pose proof (shr_fexp_nonneg m' e1 loc_Exact Hm') as H2.
  destruct (shr_fexp _ _ m' e1 loc_Exact) as [r2 e2]. simpl in H2.
  destruct (shr_m r2); [done|by case_match|lia].
Qed.

Lemma normalize_not_nan m e s : not_nan (binary_normalize f64_prec f64_emax m e s).
Proof.
  unfold binary_normalize, binary_round. destruct m as [|p|p]; [done|..];
    destruct (shl_align _ _ _) as [mz ez]; by apply round_not_nan.
Qed.

Lemma f64_add_not_nan x y : not_nan x → is_finite y → not_nan (f64_add x y).
Proof.
  intros Hx Hy. unfold f64_add, SFadd. destruct x as [sx|sx| |sx mx ex], y as [sy|sy| |sy my ey]; try done;
    [by destruct sx, sy|apply normalize_not_nan].
Qed.

Lemma f64_mul_not_nan x y : is_finite x → is_finite y → not_nan (f64_mul x y).
Proof.
  intros Hx Hy. unfold f64_mul, SFmul. destruct x as [sx|sx| |sx mx ex], y as [sy|sy| |sy my ey]; try done.
  by apply round_not_nan.
Qed.
