(* ===== verification/Primitives.v ===== *)
(** * Node types

    Models the node type of [crates/swarm/primitives/src/lib.rs] with its byte
    encoding. *)

From S2P Require Import Prelude.

Inductive SwarmNodeType := Bootnode | Client | Storer.

#[global] Instance SwarmNodeType_eq_dec : EqDecision SwarmNodeType.
Proof. solve_decision. Defined.

(** [as u8] and [from_repr]. *)
Definition node_type_repr (t : SwarmNodeType) : Z :=
  match t with Bootnode => 0 | Client => 1 | Storer => 2 end.

Definition node_type_from_repr (x : Z) : option SwarmNodeType :=
  if decide (x = 0) then Some Bootnode
  else if decide (x = 1) then Some Client
  else if decide (x = 2) then Some Storer
  else None.

Lemma node_type_round_trip t : node_type_from_repr (node_type_repr t) = Some t.
Proof. by destruct t. Qed.
