(* ===== verification/PeerScore.v ===== *)
(** * Peer scores and dial backoff

    Models [crates/net/peer/score/src/lib.rs] (the score with its clamp and latency
    average), [crates/swarm/peers/peer-score/src/] (weights, thresholds and the
    outcome of an event), the event weights of [crates/swarm/api/src/reporting.rs]
    and [crates/net/peer/backoff/src/lib.rs].

    Scores are [f64] numbers.  [powf] is the platform's power function and an argument.
    Durations are nanoseconds unless they are seconds by name. *)

From Stdlib Require Import Floats.SpecFloat.
From S2P Require Import Prelude.
From S2P Require Import F64.

(** ** The score *)

Definition MIN_SCORE : f64 := f64_of_Z (-100).
Definition MAX_SCORE : f64 := f64_of_Z 100.
Definition f64_zero : f64 := S754_zero false.

Record PeerScore := mkScore {
  sc_score : f64;
  sc_latency_sum_nanos : Z;
  sc_latency_samples : Z;
}.

Definition score_new : PeerScore := mkScore f64_zero 0 0.

Definition with_score (s : PeerScore) (x : f64) : PeerScore :=
  mkScore x (sc_latency_sum_nanos s) (sc_latency_samples s).

Definition add_score (s : PeerScore) (delta : f64) : (f64 * f64) * PeerScore :=
  let current := sc_score s in
  let new_val := f64_clamp (f64_add current delta) MIN_SCORE MAX_SCORE in
  ((current, new_val), with_score s new_val).

Definition set_score (s : PeerScore) (score : f64) : (f64 * f64) * PeerScore :=
  let clamped := f64_clamp score MIN_SCORE MAX_SCORE in
  ((sc_score s, clamped), with_score s clamped).

Definition decay (powf : f64 → f64 → f64) (s : PeerScore) (half_life_secs elapsed_secs : Z) :
    (f64 * f64) * PeerScore :=
  if decide (elapsed_secs = 0) then ((sc_score s, sc_score s), s)
  else if decide (half_life_secs = 0) then ((sc_score s, f64_zero), with_score s f64_zero)
  else
    let half := f64_div (f64_of_Z 1) (f64_of_Z 2) in
    let factor := powf half (f64_div (f64_of_Z elapsed_secs) (f64_of_Z half_life_secs)) in
    let new_val := f64_mul (sc_score s) factor in
    ((sc_score s, new_val), with_score s new_val).

(** Both counters wrap. *)
Definition score_record_latency (s : PeerScore) (latency_nanos : Z) : PeerScore :=
  mkScore (sc_score s) (u64_wrapping_add (sc_latency_sum_nanos s) latency_nanos)
    ((sc_latency_samples s + 1) mod (u32_max + 1)).

Definition avg_latency_nanos (s : PeerScore) : option Z :=
  if decide (sc_latency_samples s = 0) then None
  else Some (sc_latency_sum_nanos s / sc_latency_samples s).

(** ** Events and weights *)

Inductive SwarmScoringEvent :=
| ConnectionSuccess (latency : option Z)
| ConnectionTimeout
| ConnectionRefused
| HandshakeFailure
| ProtocolError
| EarlyDisconnect (duration : Z)
| RetrievalSuccess (latency : Z)
| RetrievalFailure
| PushSuccess (latency : Z)
| PushFailure
| InvalidData
| MaliciousBehavior
| AccountingViolation
| RateLimitExceeded
| PingSuccess (latency : Z)
| PingTimeout
| GossipUseful
| GossipStale.

(** A decimal literal: the nearest number to [n / d]. *)
Definition lit (n d : Z) : f64 := f64_div (f64_of_Z n) (f64_of_Z d).

Definition default_weight (e : SwarmScoringEvent) : f64 :=
  match e with
  | ConnectionSuccess _ => f64_of_Z 1
  | ConnectionTimeout => lit (-15) 10
  | ConnectionRefused => f64_of_Z (-1)
  | HandshakeFailure => f64_of_Z (-5)
  | ProtocolError => f64_of_Z (-3)
  | EarlyDisconnect _ => f64_of_Z (-3)
  | RetrievalSuccess _ => lit 5 10
  | RetrievalFailure => f64_of_Z (-2)
  | PushSuccess _ => lit 5 10
  | PushFailure => f64_of_Z (-2)
  | InvalidData => f64_of_Z (-10)
  | MaliciousBehavior => f64_of_Z (-50)
  | AccountingViolation => f64_of_Z (-20)
  | RateLimitExceeded => f64_of_Z (-5)
  | PingSuccess _ => lit 1 10
  | PingTimeout => lit (-5) 10
  | GossipUseful => lit 2 10
  | GossipStale => lit (-1) 10
  end.

Definition event_latency (e : SwarmScoringEvent) : option Z :=
  match e with
  | ConnectionSuccess latency => latency
  | RetrievalSuccess latency | PushSuccess latency | PingSuccess latency => Some latency
  | _ => None
  end.

Record SwarmScoringConfig := mkScoring {
  connection_success : f64; connection_timeout : f64; connection_refused : f64; handshake_failure : f64;
  protocol_error : f64; early_disconnect : f64; retrieval_success : f64; retrieval_failure : f64;
  push_success : f64; push_failure : f64; invalid_data : f64; malicious_behavior : f64;
  accounting_violation : f64; rate_limit_exceeded : f64; ping_success : f64; ping_timeout : f64;
  gossip_useful : f64; gossip_stale : f64;
  ban_threshold : f64; warn_threshold : f64; disconnect_threshold : f64;
}.

Definition scoring_default : SwarmScoringConfig :=
  mkScoring (default_weight (ConnectionSuccess None)) (default_weight ConnectionTimeout)
    (default_weight ConnectionRefused) (default_weight HandshakeFailure) (default_weight ProtocolError)
    (default_weight (EarlyDisconnect 0)) (default_weight (RetrievalSuccess 0)) (default_weight RetrievalFailure)
    (default_weight (PushSuccess 0)) (default_weight PushFailure) (default_weight InvalidData)
    (default_weight MaliciousBehavior) (default_weight AccountingViolation) (default_weight RateLimitExceeded)
    (default_weight (PingSuccess 0)) (default_weight PingTimeout) (default_weight GossipUseful)
    (default_weight GossipStale) (f64_of_Z (-100)) (f64_of_Z (-50)) (f64_of_Z (-75)).

Definition lenient : SwarmScoringConfig :=
  let d := scoring_default in
  mkScoring (connection_success d) (lit (-5) 10) (lit (-3) 10) (f64_of_Z (-2)) (f64_of_Z (-1)) (lit (-15) 10)
    (retrieval_success d) (lit (-5) 10) (push_success d) (lit (-5) 10) (invalid_data d) (malicious_behavior d)
    (accounting_violation d) (rate_limit_exceeded d) (ping_success d) (ping_timeout d) (gossip_useful d)
    (gossip_stale d) (f64_of_Z (-200)) (warn_threshold d) (disconnect_threshold d).

Definition strict : SwarmScoringConfig :=
  let d := scoring_default in
  mkScoring (connection_success d) (f64_of_Z (-3)) (f64_of_Z (-2)) (f64_of_Z (-10)) (f64_of_Z (-5)) (f64_of_Z (-5))
    (retrieval_success d) (retrieval_failure d) (push_success d) (push_failure d) (f64_of_Z (-25)) (f64_of_Z (-100))
    (accounting_violation d) (rate_limit_exceeded d) (ping_success d) (ping_timeout d) (gossip_useful d)
    (gossip_stale d) (f64_of_Z (-50)) (warn_threshold d) (disconnect_threshold d).

Definition weight_for (c : SwarmScoringConfig) (e : SwarmScoringEvent) : f64 :=
  match e with
  | ConnectionSuccess _ => connection_success c
  | ConnectionTimeout => connection_timeout c
  | ConnectionRefused => connection_refused c
  | HandshakeFailure => handshake_failure c
  | ProtocolError => protocol_error c
  | EarlyDisconnect _ => early_disconnect c
  | RetrievalSuccess _ => retrieval_success c
  | RetrievalFailure => retrieval_failure c
  | PushSuccess _ => push_success c
  | PushFailure => push_failure c
  | InvalidData => invalid_data c
  | MaliciousBehavior => malicious_behavior c
  | AccountingViolation => accounting_violation c
  | RateLimitExceeded => rate_limit_exceeded c
  | PingSuccess _ => ping_success c
  | PingTimeout => ping_timeout c
  | GossipUseful => gossip_useful c
  | GossipStale => gossip_stale c
  end.

Definition should_ban (c : SwarmScoringConfig) (score : f64) : bool := f64_le score (ban_threshold c).
Definition should_warn (c : SwarmScoringConfig) (score : f64) : bool :=
  f64_lt score (warn_threshold c) && negb (should_ban c score).

(** ** The score with its thresholds *)

Inductive ScoreOutcome := OutcomeOk | OutcomeWarn | OutcomeDisconnect | OutcomeBan.

Record ScoreChange := mkChange { ch_outcome : ScoreOutcome; ch_old_score : f64; ch_new_score : f64 }.

Record SwarmPeerScore := mkPeerScore {
  sp_score : PeerScore;
  sp_config : SwarmScoringConfig;
  sp_warned : bool;
}.

Definition peer_score_new (s : PeerScore) (c : SwarmScoringConfig) : SwarmPeerScore := mkPeerScore s c false.

(** The outcome and the warning flag left. *)
Definition check_thresholds (c : SwarmScoringConfig) (warned : bool) (old_score new_score : f64) :
    ScoreOutcome * bool :=
  if should_ban c new_score then (OutcomeBan, warned)
  else
    let '(warned_now, warned) :=
      if should_warn c new_score then (negb warned, true) else (false, false) in
    if f64_lt (disconnect_threshold c) old_score && f64_le new_score (disconnect_threshold c) then
      (OutcomeDisconnect, warned)
    else if warned_now : bool then (OutcomeWarn, warned)
    else (OutcomeOk, warned).

Definition record_event_change (p : SwarmPeerScore) (e : SwarmScoringEvent) : ScoreChange * SwarmPeerScore :=
  let weight := weight_for (sp_config p) e in
  let s := match event_latency e with
           | Some latency => score_record_latency (sp_score p) (Z.min latency u64_max)
           | None => sp_score p
           end in
  let '((old_score, new_score), s) := add_score s weight in
  let '(outcome, warned) := check_thresholds (sp_config p) (sp_warned p) old_score new_score in
  (mkChange outcome old_score new_score, mkPeerScore s (sp_config p) warned).

Definition peer_score_decay (powf : f64 → f64 → f64) (p : SwarmPeerScore) (half_life_secs elapsed_secs : Z) :
    (f64 * f64) * SwarmPeerScore :=
  let '((old_score, new_score), s) := decay powf (sp_score p) half_life_secs elapsed_secs in
  ((old_score, new_score),
   mkPeerScore s (sp_config p) (if negb (should_warn (sp_config p) new_score) then false else sp_warned p)).

Definition peer_score_reset (p : SwarmPeerScore) (score : f64) : (f64 * f64) * SwarmPeerScore :=
  let '((old_score, new_score), s) := set_score (sp_score p) score in
  ((old_score, new_score), mkPeerScore s (sp_config p) (should_warn (sp_config p) new_score)).

(** [as_nanos() as u64] wraps. *)
Definition peer_record_latency (p : SwarmPeerScore) (rtt_nanos : Z) : SwarmPeerScore :=
  mkPeerScore (score_record_latency (sp_score p) (rtt_nanos mod (u64_max + 1))) (sp_config p) (sp_warned p).

(** ** Backoff *)

Record PeerBackoff := mkBackoff { bk_last_attempt : Z; bk_consecutive_failures : Z }.

Definition backoff_new : PeerBackoff := mkBackoff 0 0.
Definition DEFAULT_BASE_SECS : Z := 30.
Definition DEFAULT_MAX_SECS : Z := 3600.

Definition record_failure (b : PeerBackoff) (now_secs : Z) : PeerBackoff :=
  mkBackoff now_secs ((bk_consecutive_failures b + 1) mod (u32_max + 1)).

Definition backoff_reset (b : PeerBackoff) : PeerBackoff := mkBackoff (bk_last_attempt b) 0.

(** The exponential part, capped. *)
Definition base_backoff (failures base_secs max_secs : Z) : Z :=
  Z.min max_secs (u64_saturating_mul base_secs (Z.shiftl 1 (Z.min 10 (failures - 1)))).

Definition jittered (failures base_backoff seed : Z) : Z :=
  let mixed := u64_wrapping_add ((seed * 5871781006564002453) mod (u64_max + 1)) failures in
  let frac := f64_div (f64_of_Z (Z.shiftr mixed 48)) (f64_of_Z 65536) in
  let factor := f64_add (lit 75 100) (f64_mul frac (lit 5 10)) in
  f64_to_u64 (f64_mul (f64_of_Z base_backoff) factor).

Definition remaining_inner (failures last_attempt now base_secs max_secs : Z) (jitter_seed : option Z) : option Z :=
  if decide (failures = 0) then None
  else
    let base := base_backoff failures base_secs max_secs in
    let backoff_secs := match jitter_seed with Some seed => jittered failures base seed | None => base end in
    let backoff_until := u64_saturating_add last_attempt backoff_secs in
    if decide (backoff_until <= now) then None else Some (backoff_until - now).

Definition remaining_jittered (b : PeerBackoff) (now jitter_seed : Z) : option Z :=
  remaining_inner (bk_consecutive_failures b) (bk_last_attempt b) now DEFAULT_BASE_SECS DEFAULT_MAX_SECS
    (Some jitter_seed).

(** ** Scores stay on the scale *)

Definition on_scale (x : f64) : Prop := not_nan x ∧ f64_le MIN_SCORE x = true ∧ f64_le x MAX_SCORE = true.

Lemma scale_bounds : not_nan MIN_SCORE ∧ not_nan MAX_SCORE ∧ f64_le MIN_SCORE MAX_SCORE = true.
Proof. by vm_compute. Qed.

Lemma clamp_on_scale x : not_nan x → on_scale (f64_clamp x MIN_SCORE MAX_SCORE).
Proof. destruct scale_bounds as (? & ? & ?). intros. by apply f64_clamp_range. Qed.

Lemma on_scale_zero : on_scale f64_zero.
Proof. by vm_compute. Qed.

(** A configuration with finite weights and ordered thresholds. *)
Record config_ok (c : SwarmScoringConfig) : Prop := {
  co_finite : ∀ e, is_finite (weight_for c e);
  co_ban : not_nan (ban_threshold c);
  co_warn : not_nan (warn_threshold c);
  co_disconnect : not_nan (disconnect_threshold c);
  co_ban_disconnect : f64_lt (ban_threshold c) (disconnect_threshold c) = true;
  co_disconnect_warn : f64_lt (disconnect_threshold c) (warn_threshold c) = true;
}.

Lemma scoring_default_ok : config_ok scoring_default.
Proof. split; try (by vm_compute). by intros []; vm_compute. Qed.

Lemma lenient_ok : config_ok lenient.
Proof. split; try (by vm_compute). by intros []; vm_compute. Qed.

Lemma add_score_spec s delta : not_nan (sc_score s) → is_finite delta →
  (add_score s delta).1.1 = sc_score s ∧ sc_score (add_score s delta).2 = (add_score s delta).1.2 ∧
  on_scale (add_score s delta).1.2.
Proof. intros Hs Hd. simpl. split_and!; [done..|]. by apply clamp_on_scale, f64_add_not_nan. Qed.

Lemma check_thresholds_ban c warned old new :
  (check_thresholds c warned old new).1 = OutcomeBan ↔ f64_le new (ban_threshold c) = true.
Proof.
  unfold check_thresholds, should_warn, should_ban. destruct (f64_le new (ban_threshold c)); simpl; [done|].
  rewrite andb_true_r. destruct (f64_lt new _), warned, (_ && _); simpl; done.
Qed.

Lemma record_event_fields p e :
  let '(ch, p') := record_event_change p e in
  sp_config p' = sp_config p ∧ ch_old_score ch = sc_score (sp_score p) ∧
  ch_new_score ch = f64_clamp (f64_add (sc_score (sp_score p)) (weight_for (sp_config p) e)) MIN_SCORE MAX_SCORE ∧
  sc_score (sp_score p') = ch_new_score ch ∧
  (ch_outcome ch, sp_warned p') = check_thresholds (sp_config p) (sp_warned p) (ch_old_score ch) (ch_new_score ch).
Proof.
  unfold record_event_change. destruct (event_latency e); simpl;
    destruct (check_thresholds _ _ _ _) as [o w] eqn:E; simpl; by rewrite E.
Qed.

(** What each outcome means for the score before and after an event, and what the
    event leaves of the one-shot warning. *)
Lemma outcome_cases c warned old new : config_ok c → not_nan old → not_nan new →
  match check_thresholds c warned old new with
  | (OutcomeBan, w) => f64_le new (ban_threshold c) = true ∧ w = warned
  | (OutcomeDisconnect, w) =>
      f64_le new (disconnect_threshold c) = true ∧ f64_lt (disconnect_threshold c) old = true ∧
      f64_le new (ban_threshold c) = false ∧ w = true
  | (OutcomeWarn, w) =>
      f64_lt new (warn_threshold c) = true ∧ warned = false ∧ f64_le new (ban_threshold c) = false ∧ w = true
  | (OutcomeOk, w) => f64_le new (ban_threshold c) = false ∧ w = f64_lt new (warn_threshold c) ∧ (w = true → warned = true)
  end.
Proof.
  intros Hc Ho Hn. unfold check_thresholds, should_warn, should_ban.
  destruct (f64_le new (ban_threshold c)) eqn:Eb; [done|]. simpl. rewrite andb_true_r.
  assert (f64_le new (disconnect_threshold c) = true → f64_lt new (warn_threshold c) = true) as Hdw.
  { pose proof (co_disconnect_warn c Hc) as Hw. destruct Hc. rewrite !f64_lt_le in * by done.
    rewrite !negb_true_iff in *. intros Hd. apply not_true_iff_false. intros Hx.
    apply not_true_iff_false in Hw. apply Hw. by apply (f64_le_trans _ new). }
  destruct (f64_lt new (warn_threshold c)) eqn:Ew.
  - destruct (f64_lt (disconnect_threshold c) old) eqn:E1, (f64_le new (disconnect_threshold c)) eqn:E2; simpl;
      [done|by destruct warned..].
  - destruct (f64_le new (disconnect_threshold c)) eqn:E2; [by specialize (Hdw eq_refl)|]. rewrite andb_false_r. done.
Qed.

(** *** Runs of events on one peer *)

Fixpoint record_events (p : SwarmPeerScore) (es : list SwarmScoringEvent) : list ScoreChange * SwarmPeerScore :=
  match es with
  | [] => ([], p)
  | e :: es =>
      let '(ch, p) := record_event_change p e in
      let '(chs, p) := record_events p es in (ch :: chs, p)
  end.

Lemma record_event_on_scale p e : config_ok (sp_config p) → not_nan (sc_score (sp_score p)) →
  on_scale (ch_new_score (record_event_change p e).1).
Proof.
  intros Hc Hn. pose proof (record_event_fields p e) as H. destruct (record_event_change p e) as [ch p'].
  destruct H as (_ & _ & E & _). simpl. rewrite E. apply clamp_on_scale, f64_add_not_nan; [done|by apply co_finite].
Qed.

(** After a warning there is no second one until the score has recovered. *)
Lemma warned_no_warning es : ∀ p, config_ok (sp_config p) → not_nan (sc_score (sp_score p)) →
  sp_warned p = true →
  Forall (λ ch, f64_lt (ch_new_score ch) (warn_threshold (sp_config p)) = true) (record_events p es).1 →
  Forall (λ ch, ch_outcome ch ≠ OutcomeWarn) (record_events p es).1.
Proof.
  induction es as [|e es IH]; intros p Hc Hn Hw; simpl; [done|].
  pose proof (record_event_fields p e) as H. pose proof (record_event_on_scale p e Hc Hn) as [Hn' _].
  destruct (record_event_change p e) as [ch p'] eqn:E. destruct H as (Hcfg & Hold & _ & Hnew & Hout). simpl in Hn'.
  specialize (IH p'). rewrite Hcfg, Hnew in IH. destruct (record_events p' es) as [chs p'']. simpl.
  rewrite !Forall_cons. intros [Hlt Hrest].
  pose proof (outcome_cases (sp_config p) (sp_warned p) (ch_old_score ch) (ch_new_score ch) Hc) as Hcase.
  rewrite <-Hout in Hcase. rewrite Hold in Hcase. specialize (Hcase Hn Hn'). split.
  - intros Ho. rewrite Ho in Hcase. destruct Hcase as (_ & ? & _). congruence.
  - apply IH; [done..| |done]. destruct (ch_outcome ch); naive_solver.
Qed.

(** Scores and their outcomes.  From a number, every event leaves a score in
    [[-100, 100]] whatever its rounding, a ban is signalled exactly at or below the
    ban threshold, a disconnect exactly on a downward crossing, and once a
    warning was given no event warns again until one brings the score back above
    the threshold. *)
Theorem score_outcomes_exact (p : SwarmPeerScore) (e : SwarmScoringEvent) (es : list SwarmScoringEvent) :
  config_ok (sp_config p) → not_nan (sc_score (sp_score p)) →
  let '(ch, p') := record_event_change p e in
  let c := sp_config p in
  on_scale (ch_new_score ch) ∧ sc_score (sp_score p') = ch_new_score ch ∧
  (ch_outcome ch = OutcomeBan ↔ f64_le (ch_new_score ch) (ban_threshold c) = true) ∧
  (ch_outcome ch = OutcomeDisconnect ↔
     f64_lt (disconnect_threshold c) (ch_old_score ch) = true ∧
     f64_le (ch_new_score ch) (disconnect_threshold c) = true ∧ f64_le (ch_new_score ch) (ban_threshold c) = false) ∧
  (ch_outcome ch = OutcomeWarn →
     Forall (λ ch, f64_lt (ch_new_score ch) (warn_threshold c) = true) (record_events p' es).1 →
     Forall (λ ch, ch_outcome ch ≠ OutcomeWarn) (record_events p' es).1).
Proof.
  intros Hc Hn. pose proof (record_event_fields p e) as H. pose proof (record_event_on_scale p e Hc Hn) as Hs.
  destruct (record_event_change p e) as [ch p']. destruct H as (Hcfg & Hold & _ & Hnew & Hout). simpl in Hs.
  pose proof Hs as [Hn' _]. rewrite Hold in *.
  pose proof (check_thresholds_ban (sp_config p) (sp_warned p) (sc_score (sp_score p)) (ch_new_score ch)) as Hban.
  pose proof (outcome_cases (sp_config p) (sp_warned p) (sc_score (sp_score p)) (ch_new_score ch) Hc Hn Hn') as Hcase.
  rewrite <-Hout in *. simpl in Hban. split_and!; [done..| |].
  - split; [intros Ho; rewrite Ho in Hcase; naive_solver|]. intros (H1 & H2 & H3).
    unfold check_thresholds, should_ban in Hout. rewrite H3, H1, H2 in Hout. simpl in Hout.
    destruct (should_warn _ _); congruence.
  - intros Ho. rewrite Ho in Hcase. destruct Hcase as (_ & _ & _ & Hw). rewrite <-Hcfg.
    apply warned_no_warning; [by rewrite Hcfg|by rewrite Hnew|done].
Qed.

Lemma score_outcomes_exact_witness :
  let p := peer_score_new (mkScore (f64_of_Z (-45)) 0 0) scoring_default in
  ch_outcome (record_event_change p InvalidData).1 = OutcomeWarn ∧
  ch_outcome <$> (record_events (record_event_change p InvalidData).2
    [PushFailure; AccountingViolation; MaliciousBehavior]).1 = [OutcomeOk; OutcomeDisconnect; OutcomeBan] ∧
  on_scale (ch_new_score (record_event_change p InvalidData).1).
Proof.
  intros p. split; [vm_compute; reflexivity|]. split; [vm_compute; reflexivity|].
  pose proof (score_outcomes_exact p InvalidData [] scoring_default_ok) as H.
  assert (not_nan (sc_score (sp_score p))) as Hn by (by vm_compute). specialize (H Hn).
  destruct (record_event_change p InvalidData) as [ch p']. apply H.
Defined.

(** With the lenient configuration no event ever bans: its threshold lies below the
    scale. *)
Theorem lenient_never_bans p e : sp_config p = lenient → not_nan (sc_score (sp_score p)) →
  ch_outcome (record_event_change p e).1 ≠ OutcomeBan.
Proof.
  intros Hc Hn. pose proof (record_event_on_scale p e) as Hs. rewrite Hc in Hs.
  specialize (Hs lenient_ok Hn) as (Hn' & Hmin & _).
  pose proof (record_event_fields p e) as H. destruct (record_event_change p e) as [ch p'].
  destruct H as (_ & _ & _ & _ & Hout). simpl in *. intros Ho.
  apply (f_equal fst) in Hout. simpl in Hout. rewrite Ho in Hout. symmetry in Hout.
  apply check_thresholds_ban in Hout. rewrite Hc in Hout.
  assert (f64_le MIN_SCORE (ban_threshold lenient) = true) as Hbad.
  { apply (f64_le_trans _ (ch_new_score ch)); [by vm_compute|done|by vm_compute|done|done]. }
  by vm_compute in Hbad.
Qed.

(** ** Backoff *)

(** The exponential part doubles from its base up to the cap. *)
Lemma base_backoff_range failures : 1 <= failures →
  DEFAULT_BASE_SECS <= base_backoff failures DEFAULT_BASE_SECS DEFAULT_MAX_SECS <= DEFAULT_MAX_SECS ∧
  base_backoff failures DEFAULT_BASE_SECS DEFAULT_MAX_SECS =
    Z.min DEFAULT_MAX_SECS (DEFAULT_BASE_SECS * 2 ^ Z.min 10 (failures - 1)).
Proof.
  intros Hf. unfold base_backoff, DEFAULT_BASE_SECS, DEFAULT_MAX_SECS, u64_saturating_mul.
  rewrite Z.shiftl_mul_pow2 by lia. rewrite Z.mul_1_l.
  assert (1 <= 2 ^ Z.min 10 (failures - 1) <= 1024) as H.
  { split; [pose proof (Z.pow_pos_nonneg 2 (Z.min 10 (failures - 1))); lia|].
    change 1024 with (2 ^ 10). apply Z.pow_le_mono_r; lia. }
  mach. lia.
Qed.

(** A peer without failures is never in backoff, and every backoff ends. *)
Lemma remaining_inner_ends failures last_attempt now base_secs max_secs seed r :
  remaining_inner failures last_attempt now base_secs max_secs seed = Some r →
  failures ≠ 0 ∧ 0 < r ∧ remaining_inner failures last_attempt (now + r) base_secs max_secs seed = None.
Proof.
  unfold remaining_inner. repeat case_decide; try done; intros [= <-]; split_and!; try lia; try done.
Qed.
