(* ===== verification/PeerManager.v ===== *)
(** * The peer manager

    Models [crates/swarm/peers/peer-manager/src/] ([entry.rs], [manager.rs],
    [scoring.rs], [maintenance.rs], [score_distribution.rs]) over the proximity index of
    [ProximityIndex] and the scores of [PeerScore], and the gossip timestamp policy of
    [crates/swarm/peers/peer/src/timestamp_policy.rs].

    Each method runs without interleaving and reads one clock value, its [now].
    The maps are [gmap]s; the order in which one is iterated is an argument.
    Lifecycle events are logged in the state in the order they are sent.  The gauges the
    manager keeps by increments are part of the state.  A signed record is an
    argument type of which the manager reads the overlay and the timestamp. *)

From Stdlib Require Import Floats.SpecFloat.
From S2P Require Import Prelude.
From S2P Require Import Bytes.
From S2P Require Import F64.
From S2P Require Import Primitives.
From S2P Require Import ProximityIndex.
From S2P Require Import Registry.
From S2P Require Import PeerScore.

(** ** Timestamps of gossiped records *)

Inductive TimestampRejection := TsInvalid | TsInFuture | TsStale | TsTooSoon.

Definition MAX_CLOCK_SKEW : Z := 60.
Definition MIN_UPDATE_INTERVAL : Z := 300.

Definition check_timestamp (candidate : Z) (existing : option Z) (now : Z) : result TimestampRejection unit :=
  if decide (candidate <= 0) then Err TsInvalid
  else if decide (i64_saturating_add now MAX_CLOCK_SKEW < candidate) then Err TsInFuture
  else
    match existing with
    | Some ts =>
        if decide (0 < ts) then
          if decide (candidate <= ts) then Err TsStale
          else if decide (candidate <= i64_saturating_add ts MIN_UPDATE_INTERVAL) then Err TsTooSoon
          else Ok tt
        else Ok tt
    | None => Ok tt
    end.

Lemma check_timestamp_ok candidate ts now : 0 < ts → is_i64 ts →
  check_timestamp candidate (Some ts) now = Ok tt ↔
  0 < candidate ∧ candidate <= i64_sat (now + 60) ∧ i64_sat (ts + 300) < candidate.
Proof.
  intros Hts Hi. unfold check_timestamp, MAX_CLOCK_SKEW, MIN_UPDATE_INTERVAL, i64_saturating_add.
  assert (ts <= i64_sat (ts + 300)) by (unfold i64_sat in *; mach; lia).
  repeat case_decide; (split; [done || lia|]); try done; lia.
Qed.

(** ** Entries *)

Inductive HealthState := Healthy | Failing | Stale | Banned.

#[global] Instance HealthState_eq_dec : EqDecision HealthState.
Proof. solve_decision. Defined.

Inductive TrustLevel := TrustNormal | TrustLocalSubnet | TrustTrusted.

Definition STALE_THRESHOLD_SECS : Z := 24 * 3600.
Definition STALE_FAILURE_THRESHOLD : Z := 48.
Definition UNVERIFIED_STALE_FAILURE_THRESHOLD : Z := 3.
Definition DISCONNECTED_SCORE_HALF_LIFE_SECS : Z := 600.
Definition CONNECTED_SCORE_HALF_LIFE_SECS : Z := 300.

(** The node type with a confirmed bit, in one byte. *)
Definition CONFIRMED_BIT : Z := 128.

Definition cell_provisional (t : SwarmNodeType) : Z := node_type_repr t.
Definition cell_get (c : Z) : SwarmNodeType :=
  default Client (node_type_from_repr (Z.land c (255 - CONFIRMED_BIT))).
Definition cell_set_provisional (c : Z) (t : SwarmNodeType) : Z :=
  if decide (Z.land c CONFIRMED_BIT = 0) then node_type_repr t else c.
Definition cell_confirm (t : SwarmNodeType) : Z := Z.lor (node_type_repr t) CONFIRMED_BIT.

(** The first eight bytes of the overlay, little-endian. *)
Definition jitter_seed_from_overlay (overlay : Z) : Z := of_be (rev (take 8 (be_bytes 32 overlay))).

Section manager.
Context {SwarmPeer : Type} (overlay_of timestamp_of : SwarmPeer → Z).
Context (powf : f64 → f64 → f64).
Context `{LH : LinkedHashSet B} (proximity : Z → Z) (max_po : Z).

Record PeerEntry := mkEntry {
  pe_peer : SwarmPeer;
  pe_node_type : Z;
  pe_scoring : SwarmPeerScore;
  pe_last_seen : Z;
  pe_backoff : PeerBackoff;
  pe_ban_info : option (Z * string);
  pe_last_decay : Z;
  pe_jitter_seed : Z;
  pe_connected_since : Z;
  pe_last_productive : Z;
  pe_direction : option ConnectionDirection;
  pe_trust : TrustLevel;
  pe_verified : bool;
}.

Record PeerSnapshot := mkSnapshot { ps_peer : SwarmPeer; ps_node_type : SwarmNodeType; ps_last_seen : Z }.

Definition with_config (now : Z) (peer : SwarmPeer) (t : SwarmNodeType) (overlay : Z) (c : SwarmScoringConfig) :
    PeerEntry :=
  mkEntry peer (cell_provisional t) (peer_score_new score_new c) now backoff_new None now
    (jitter_seed_from_overlay overlay) 0 0 None TrustNormal false.

Definition from_snapshot (now : Z) (s : PeerSnapshot) (c : SwarmScoringConfig) : PeerEntry :=
  mkEntry (ps_peer s) (cell_provisional (ps_node_type s)) (peer_score_new score_new c) (ps_last_seen s)
    backoff_new None now (jitter_seed_from_overlay (overlay_of (ps_peer s))) 0 0 None TrustNormal false.

Definition to_snapshot (e : PeerEntry) : PeerSnapshot :=
  mkSnapshot (pe_peer e) (cell_get (pe_node_type e)) (pe_last_seen e).

Definition pe_score (e : PeerEntry) : f64 := sc_score (sp_score (pe_scoring e)).
Definition consecutive_failures (e : PeerEntry) : Z := bk_consecutive_failures (pe_backoff e).
Definition pe_is_banned (e : PeerEntry) : bool := bool_decide (is_Some (pe_ban_info e)).
Definition pe_is_connected (e : PeerEntry) : bool := bool_decide (pe_connected_since e ≠ 0).

Definition is_in_backoff (now : Z) (e : PeerEntry) : bool :=
  bool_decide (is_Some (remaining_jittered (pe_backoff e) now (pe_jitter_seed e))).

Definition is_dialable (now : Z) (e : PeerEntry) : bool := negb (pe_is_banned e) && negb (is_in_backoff now e).

Definition is_stale (now : Z) (e : PeerEntry) : bool :=
  let failures := consecutive_failures e in
  if decide (failures = 0) then false
  else
    let failure_budget := if pe_verified e then STALE_FAILURE_THRESHOLD else UNVERIFIED_STALE_FAILURE_THRESHOLD in
    if decide (failure_budget <= failures) then true
    else bool_decide (STALE_THRESHOLD_SECS < u64_saturating_sub now (pe_last_seen e)).

Definition health_state (now : Z) (e : PeerEntry) : HealthState :=
  if pe_is_banned e then Banned
  else if is_stale now e then Stale
  else if decide (0 < consecutive_failures e) then Failing
  else Healthy.

(** Field updates. *)
Definition set_peer (p : SwarmPeer) (seen : Z) (e : PeerEntry) : PeerEntry :=
  mkEntry p (pe_node_type e) (pe_scoring e) seen (pe_backoff e) (pe_ban_info e) (pe_last_decay e)
    (pe_jitter_seed e) (pe_connected_since e) (pe_last_productive e) (pe_direction e) (pe_trust e) (pe_verified e).
Definition set_node_type (t : Z) (e : PeerEntry) : PeerEntry :=
  mkEntry (pe_peer e) t (pe_scoring e) (pe_last_seen e) (pe_backoff e) (pe_ban_info e) (pe_last_decay e)
    (pe_jitter_seed e) (pe_connected_since e) (pe_last_productive e) (pe_direction e) (pe_trust e) (pe_verified e).
Definition set_scoring (s : SwarmPeerScore) (decayed : Z) (e : PeerEntry) : PeerEntry :=
  mkEntry (pe_peer e) (pe_node_type e) s (pe_last_seen e) (pe_backoff e) (pe_ban_info e) decayed
    (pe_jitter_seed e) (pe_connected_since e) (pe_last_productive e) (pe_direction e) (pe_trust e) (pe_verified e).
Definition set_backoff (b : PeerBackoff) (e : PeerEntry) : PeerEntry :=
  mkEntry (pe_peer e) (pe_node_type e) (pe_scoring e) (pe_last_seen e) b (pe_ban_info e) (pe_last_decay e)
    (pe_jitter_seed e) (pe_connected_since e) (pe_last_productive e) (pe_direction e) (pe_trust e) (pe_verified e).
Definition set_ban_info (i : option (Z * string)) (e : PeerEntry) : PeerEntry :=
  mkEntry (pe_peer e) (pe_node_type e) (pe_scoring e) (pe_last_seen e) (pe_backoff e) i (pe_last_decay e)
    (pe_jitter_seed e) (pe_connected_since e) (pe_last_productive e) (pe_direction e) (pe_trust e) (pe_verified e).
Definition set_productive (t : Z) (e : PeerEntry) : PeerEntry :=
  mkEntry (pe_peer e) (pe_node_type e) (pe_scoring e) (pe_last_seen e) (pe_backoff e) (pe_ban_info e)
    (pe_last_decay e) (pe_jitter_seed e) (pe_connected_since e) t (pe_direction e) (pe_trust e) (pe_verified e).
Definition set_verified (e : PeerEntry) : PeerEntry :=
  mkEntry (pe_peer e) (pe_node_type e) (pe_scoring e) (pe_last_seen e) (pe_backoff e) (pe_ban_info e)
    (pe_last_decay e) (pe_jitter_seed e) (pe_connected_since e) (pe_last_productive e) (pe_direction e)
    (pe_trust e) true.

Definition update_addresses (now : Z) (p : SwarmPeer) (e : PeerEntry) : PeerEntry :=
  set_peer p (if decide (consecutive_failures e = 0) then now else pe_last_seen e) e.

Definition set_provisional_node_type (t : SwarmNodeType) (e : PeerEntry) : PeerEntry :=
  set_node_type (cell_set_provisional (pe_node_type e) t) e.
Definition confirm_node_type (t : SwarmNodeType) (e : PeerEntry) : PeerEntry := set_node_type (cell_confirm t) e.

Definition set_connected (now : Z) (d : ConnectionDirection) (trust : TrustLevel) (e : PeerEntry) : PeerEntry :=
  mkEntry (pe_peer e) (pe_node_type e) (pe_scoring e) now (backoff_reset (pe_backoff e)) (pe_ban_info e)
    (pe_last_decay e) (pe_jitter_seed e) now 0 (Some d) trust (pe_verified e).

Definition clear_connected (e : PeerEntry) : PeerEntry :=
  mkEntry (pe_peer e) (pe_node_type e) (pe_scoring e) (pe_last_seen e) (pe_backoff e) (pe_ban_info e)
    (pe_last_decay e) (pe_jitter_seed e) 0 (pe_last_productive e) None (pe_trust e) (pe_verified e).

Definition was_productive_since_connect (e : PeerEntry) : bool :=
  bool_decide (pe_connected_since e ≠ 0 ∧ pe_connected_since e <= pe_last_productive e).

Definition entry_record_event (ev : SwarmScoringEvent) (e : PeerEntry) : ScoreChange * PeerEntry :=
  let '(ch, s) := record_event_change (pe_scoring e) ev in (ch, set_scoring s (pe_last_decay e) e).

Definition entry_record_dial_failure (now : Z) (e : PeerEntry) : PeerEntry :=
  set_backoff (record_failure (pe_backoff e) now) e.

Definition decay_score (now : Z) (e : PeerEntry) : option (f64 * f64) * PeerEntry :=
  let elapsed := u64_saturating_sub now (pe_last_decay e) in
  if decide (elapsed = 0) then (None, set_scoring (pe_scoring e) now e)
  else if pe_is_banned e || f64_eq (pe_score e) f64_zero then (None, set_scoring (pe_scoring e) now e)
  else
    let half_life := if pe_is_connected e then CONNECTED_SCORE_HALF_LIFE_SECS else DISCONNECTED_SCORE_HALF_LIFE_SECS in
    let '(change, s) := peer_score_decay powf (pe_scoring e) half_life elapsed in
    (Some change, set_scoring s now e).

Definition entry_reset_score (score : f64) (e : PeerEntry) : (f64 * f64) * PeerEntry :=
  let '(change, s) := peer_score_reset (pe_scoring e) score in (change, set_scoring s (pe_last_decay e) e).

(** ** The score distribution *)

Definition BOUNDARIES : list f64 := f64_of_Z <$> [-100; -50; -10; -1; 0; 1; 5; 10; 25; 50; 75; 100].
Definition NUM_BUCKETS : nat := 13.

Definition bucket_index (score : f64) : nat :=
  match list_find (λ boundary, f64_lt score boundary) BOUNDARIES with
  | Some (i, _) => i
  | None => (NUM_BUCKETS - 1)%nat
  end.

Definition bump (i : nat) (d : Z) (buckets : list Z) : list Z := alter (λ c, c + d) i buckets.
Definition on_peer_added (score : f64) (b : list Z) : list Z := bump (bucket_index score) 1 b.
Definition on_peer_removed (score : f64) (b : list Z) : list Z := bump (bucket_index score) (-1) b.
Definition on_score_changed (old_score new_score : f64) (b : list Z) : list Z :=
  if decide (bucket_index old_score = bucket_index new_score) then b
  else bump (bucket_index new_score) 1 (bump (bucket_index old_score) (-1) b).

(** ** The manager *)

Inductive BanCause := CauseLowScore | CauseInvalidData | CauseMalicious | CauseRequested.

Inductive DisconnectReason :=
| BinTrimmed | BinSaturated | ReasonBanned | LowScore | ProtocolViolation | AllowanceExceeded | Requested
| DuplicateConnection | BootnodeRotation | ShuttingDown | IdleTimeout | LocalClose | RemoteClose.

Inductive PeerLifecycleEvent :=
| PlConnected (overlay : Z) (node_type : SwarmNodeType)
| PlDisconnected (overlay : Z) (reason : DisconnectReason)
| PlScoreWarning (overlay : Z) (score : f64)
| PlDisconnectRequested (overlay : Z) (reason : DisconnectReason)
| PlBanned (overlay : Z) (until : option Z) (reason : BanCause)
| PlUnbanned (overlay : Z).

Record Gauges := mkGauges {
  g_health : HealthState → Z;
  g_unverified : Z;
  g_banned : Z;
  g_total : Z;
}.

Record PeerManager := mkPm {
  pm_index : ProximityIndex (B:=B);
  pm_peers : gmap Z PeerEntry;
  pm_store : option (list PeerSnapshot);
  pm_banned_set : gmap Z (option Z);
  pm_scoring_config : SwarmScoringConfig;
  pm_snapshot_interval : Z;
  pm_ban_duration : Z;
  pm_last_snapshot : Z;
  pm_score_distribution : list Z;
  pm_lifecycle : list PeerLifecycleEvent;
  pm_gauges : Gauges;
}.

Implicit Types (s : PeerManager) (o : Z) (e : PeerEntry).

Definition with_index (i : ProximityIndex) s : PeerManager :=
  mkPm i (pm_peers s) (pm_store s) (pm_banned_set s) (pm_scoring_config s) (pm_snapshot_interval s)
    (pm_ban_duration s) (pm_last_snapshot s) (pm_score_distribution s) (pm_lifecycle s) (pm_gauges s).
Definition with_peers (m : gmap Z PeerEntry) s : PeerManager :=
  mkPm (pm_index s) m (pm_store s) (pm_banned_set s) (pm_scoring_config s) (pm_snapshot_interval s)
    (pm_ban_duration s) (pm_last_snapshot s) (pm_score_distribution s) (pm_lifecycle s) (pm_gauges s).
Definition with_banned (m : gmap Z (option Z)) s : PeerManager :=
  mkPm (pm_index s) (pm_peers s) (pm_store s) m (pm_scoring_config s) (pm_snapshot_interval s)
    (pm_ban_duration s) (pm_last_snapshot s) (pm_score_distribution s) (pm_lifecycle s) (pm_gauges s).
Definition with_distribution (b : list Z) s : PeerManager :=
  mkPm (pm_index s) (pm_peers s) (pm_store s) (pm_banned_set s) (pm_scoring_config s) (pm_snapshot_interval s)
    (pm_ban_duration s) (pm_last_snapshot s) b (pm_lifecycle s) (pm_gauges s).
Definition with_gauges (g : Gauges) s : PeerManager :=
  mkPm (pm_index s) (pm_peers s) (pm_store s) (pm_banned_set s) (pm_scoring_config s) (pm_snapshot_interval s)
    (pm_ban_duration s) (pm_last_snapshot s) (pm_score_distribution s) (pm_lifecycle s) g.
Definition with_store (st : option (list PeerSnapshot)) (last : Z) s : PeerManager :=
  mkPm (pm_index s) (pm_peers s) st (pm_banned_set s) (pm_scoring_config s) (pm_snapshot_interval s)
    (pm_ban_duration s) last (pm_score_distribution s) (pm_lifecycle s) (pm_gauges s).
Definition emit (ev : PeerLifecycleEvent) s : PeerManager :=
  mkPm (pm_index s) (pm_peers s) (pm_store s) (pm_banned_set s) (pm_scoring_config s) (pm_snapshot_interval s)
    (pm_ban_duration s) (pm_last_snapshot s) (pm_score_distribution s) (pm_lifecycle s ++ [ev]) (pm_gauges s).

Definition set_entry o e s : PeerManager := with_peers (<[o:=e]> (pm_peers s)) s.

(** Gauges. *)
Definition health_add (h : HealthState) (d : Z) (g : Gauges) : Gauges :=
  mkGauges (λ h', g_health g h' + if decide (h' = h) then d else 0) (g_unverified g) (g_banned g) (g_total g).
Definition on_health_added (h : HealthState) s : PeerManager := with_gauges (health_add h 1 (pm_gauges s)) s.
Definition on_health_removed (h : HealthState) s : PeerManager := with_gauges (health_add h (-1) (pm_gauges s)) s.
Definition on_health_changed (old new : HealthState) s : PeerManager :=
  if decide (old = new) then s
  else with_gauges (health_add new 1 (health_add old (-1) (pm_gauges s))) s.
Definition unverified_add (d : Z) s : PeerManager :=
  let g := pm_gauges s in with_gauges (mkGauges (g_health g) (g_unverified g + d) (g_banned g) (g_total g)) s.
Definition banned_add (d : Z) s : PeerManager :=
  let g := pm_gauges s in with_gauges (mkGauges (g_health g) (g_unverified g) (g_banned g + d) (g_total g)) s.
Definition set_total s : PeerManager :=
  let g := pm_gauges s in
  with_gauges (mkGauges (g_health g) (g_unverified g) (g_banned g) (pi_len (pm_index s))) s.

(** ** Removal and admission *)

Definition remove_peer (now : Z) o s : PeerManager :=
  let s :=
    match pm_peers s !! o with
    | Some e =>
        let s := with_peers (delete o (pm_peers s)) s in
        let s := with_distribution (on_peer_removed (pe_score e) (pm_score_distribution s)) s in
        let s := on_health_removed (health_state now e) s in
        if negb (pe_verified e) then unverified_add (-1) s else s
    | None => s
    end in
  let '(present, i) := remove proximity max_po o (pm_index s) in
  let s := with_index i s in
  let s := if present : bool then set_total s else s in
  match pm_banned_set s !! o with
  | Some _ => banned_add (-1) (with_banned (delete o (pm_banned_set s)) s)
  | None => s
  end.

Fixpoint find_replaceable_loop (now : Z) (peers : gmap Z PeerEntry) (overlays : list Z) (best : option (Z * bool * f64)) :
    option Z :=
  match overlays with
  | [] => (λ '(o, _, _), o) <$> best
  | o :: overlays =>
      match peers !! o with
      | None => Some o
      | Some e =>
          if pe_is_connected e then find_replaceable_loop now peers overlays best
          else
            let stale := is_stale now e in
            let score := pe_score e in
            let better :=
              match best with
              | None => true
              | Some (_, best_stale, best_score) =>
                  (stale && negb best_stale) || (Bool.eqb stale best_stale && f64_lt score best_score)
              end in
            find_replaceable_loop now peers overlays (if better then Some (o, stale, score) else best)
      end
  end.

Definition find_replaceable (now bin : Z) s : option Z :=
  find_replaceable_loop now (pm_peers s) (peers_in_bin bin (pm_index s)) None.

(** The method [admit]. *)
Definition pm_admit (now o : Z) s : bool * PeerManager :=
  match add proximity max_po o (pm_index s) with
  | (Ok _, i) => (true, with_index i s)
  | (Err AlreadyPresent, _) => (true, s)
  | (Err BinFull, _) =>
      match find_replaceable now (bin_for proximity max_po o) s with
      | None => (false, s)
      | Some victim =>
          let s := remove_peer now victim s in
          match add proximity max_po o (pm_index s) with
          | (Ok _, i) => (true, with_index i s)
          | (Err AlreadyPresent, _) => (true, s)
          | (Err BinFull, _) => (false, s)
          end
      end
  end.

(** The entry is in the map when it is returned. *)
Definition insert_peer (now o : Z) (peer : SwarmPeer) (t : SwarmNodeType) s : bool * PeerManager :=
  match pm_peers s !! o with
  | Some e => (true, set_entry o (update_addresses now peer e) s)
  | None =>
      match pm_admit now o s with
      | (false, s) => (false, s)
      | (true, s) =>
          match pm_peers s !! o with
          | Some e => (true, set_entry o (update_addresses now peer e) s)
          | None =>
              let e := with_config now peer t o (pm_scoring_config s) in
              let s := set_total (set_entry o e s) in
              let s := unverified_add 1 s in
              let s := with_distribution (on_peer_added (pe_score e) (pm_score_distribution s)) s in
              (true, on_health_added Healthy s)
          end
      end
  end.

(** ** Bans *)

Definition ban_with_expiry (now o : Z) (cause : BanCause) (reason : option string) (until : option Z) s : PeerManager :=
  match pm_banned_set s !! o with
  | Some _ => s
  | None =>
      let s := banned_add 1 (with_banned (<[o:=until]> (pm_banned_set s)) s) in
      let s :=
        match pm_peers s !! o with
        | Some e =>
            if pe_is_banned e then s
            else
              on_health_changed (health_state now e) Banned
                (set_entry o (set_ban_info (Some (now, default EmptyString reason)) e) s)
        | None => s
        end in
      emit (PlBanned o until cause) s
  end.

(** [until] is the checked sum of a [u64] clock and a duration. *)
Definition ban (now o : Z) (cause : BanCause) (reason : option string) s : PeerManager :=
  ban_with_expiry now o cause reason (Some (now + pm_ban_duration s)) s.

Definition ban_permanent (now o : Z) (cause : BanCause) (reason : option string) s : PeerManager :=
  ban_with_expiry now o cause reason None s.

Definition unban (now o : Z) s : PeerManager :=
  let s :=
    match pm_peers s !! o with
    | Some e =>
        let old_state := health_state now e in
        let '((old_score, new_score), e) :=
          entry_reset_score (disconnect_threshold (pm_scoring_config s)) (set_ban_info None e) in
        let s := set_entry o e s in
        let s := with_distribution (on_score_changed old_score new_score (pm_score_distribution s)) s in
        on_health_changed old_state (health_state now e) s
    | None => s
    end in
  match pm_banned_set s !! o with
  | Some _ => emit (PlUnbanned o) (banned_add (-1) (with_banned (delete o (pm_banned_set s)) s))
  | None => s
  end.

(** ** Reports *)

Definition is_useful (ev : SwarmScoringEvent) : bool :=
  match ev with RetrievalSuccess _ | PushSuccess _ => true | _ => false end.

Definition pm_record_dial_failure (now o : Z) s : PeerManager :=
  match pm_peers s !! o with
  | Some e =>
      let e' := entry_record_dial_failure now e in
      on_health_changed (health_state now e) (health_state now e') (set_entry o e' s)
  | None => s
  end.

(** The reason text of an automatic ban is an argument. *)
Definition report_peer (now o : Z) (ev : SwarmScoringEvent) (reason : string) s : PeerManager :=
  match pm_banned_set s !! o with
  | Some _ => s
  | None =>
      match pm_peers s !! o with
      | None => s
      | Some e =>
          let e := if is_useful ev then set_productive now e else e in
          let '(change, e) := entry_record_event ev e in
          let s := set_entry o e s in
          let s := with_distribution
                     (on_score_changed (ch_old_score change) (ch_new_score change) (pm_score_distribution s)) s in
          match ch_outcome change with
          | OutcomeOk => s
          | OutcomeWarn => emit (PlScoreWarning o (ch_new_score change)) s
          | OutcomeDisconnect => emit (PlDisconnectRequested o LowScore) (pm_record_dial_failure now o s)
          | OutcomeBan => ban now o CauseLowScore (Some reason) s
          end
      end
  end.

Definition record_latency (o rtt_nanos : Z) s : PeerManager :=
  match pm_peers s !! o with
  | Some e => set_entry o (set_scoring (peer_record_latency (pe_scoring e) rtt_nanos) (pe_last_decay e) e) s
  | None => s
  end.

Definition record_early_disconnect (now o duration : Z) (reason : string) s : PeerManager :=
  report_peer now o (EarlyDisconnect duration) reason (pm_record_dial_failure now o s).

(** ** Discovery and connections *)

Definition reject_stale_gossip (now candidate : Z) (existing : option Z) : bool :=
  match check_timestamp candidate existing now with Ok _ => false | Err _ => true end.

Definition store_discovered_peer (now : Z) (peer : SwarmPeer) s : PeerManager :=
  let o := overlay_of peer in
  match pm_peers s !! o with
  | Some e =>
      if reject_stale_gossip now (timestamp_of peer) (Some (timestamp_of (pe_peer e))) then s
      else set_entry o (update_addresses now peer e) s
  | None =>
      let '(stored, s) := insert_peer now o peer Client s in
      if stored : bool then
        match pm_peers s !! o with
        | Some e => set_entry o (set_provisional_node_type Client e) s
        | None => s
        end
      else s
  end.

Definition store_discovered_peers (now : Z) (peers : list SwarmPeer) s : PeerManager :=
  foldl (λ s p, store_discovered_peer now p s) s peers.

Definition on_peer_connected (now : Z) (peer : SwarmPeer) (t : SwarmNodeType) (d : ConnectionDirection)
    (trust : TrustLevel) (reason : string) s : PeerManager :=
  let o := overlay_of peer in
  let '(stored, s) := insert_peer now o peer t s in
  if negb stored then s
  else
    match pm_peers s !! o with
    | None => s
    | Some e =>
        let e := confirm_node_type t e in
        let s := if pe_verified e then s else unverified_add (-1) s in
        let e := set_verified e in
        let e' := set_connected now d trust e in
        let s := on_health_changed (health_state now e) (health_state now e') (set_entry o e' s) in
        report_peer now o (ConnectionSuccess None) reason (emit (PlConnected o t) s)
    end.

Definition on_peer_disconnected o (reason : DisconnectReason) s : PeerManager :=
  let s := match pm_peers s !! o with Some e => set_entry o (clear_connected e) s | None => s end in
  emit (PlDisconnected o reason) s.

Definition on_dialed_overlay_mismatch (now o : Z) s : PeerManager :=
  match pm_peers s !! o with
  | None => s
  | Some e => if pe_verified e then pm_record_dial_failure now o s else remove_peer now o s
  end.

(** ** Maintenance *)

Definition decay_one (now : Z) s (o : Z) : PeerManager :=
  match pm_peers s !! o with
  | None => s
  | Some e =>
      let '(change, e) := decay_score now e in
      let s := set_entry o e s in
      match change with
      | Some (old_score, new_score) =>
          with_distribution (on_score_changed old_score new_score (pm_score_distribution s)) s
      | None => s
      end
  end.

Definition decay_scores (now : Z) (order : list Z) s : PeerManager := foldl (decay_one now) s order.

Definition ban_expired (now : Z) s (o : Z) : bool :=
  match pm_banned_set s !! o with Some (Some until) => bool_decide (until <= now) | _ => false end.

Definition expire_bans (now : Z) (order : list Z) s : PeerManager :=
  foldl (λ s o, unban now o s) s (filter (λ o, ban_expired now s o) order).

Definition entry_is_stale (now : Z) s (o : Z) : bool :=
  match pm_peers s !! o with Some e => is_stale now e | None => false end.

Definition purge_stale (now : Z) (order : list Z) s : PeerManager :=
  foldl (λ s o, remove_peer now o s) s (filter (λ o, entry_is_stale now s o) order).

(** [written] is whether the store took the records. *)
Definition snapshot (order : list Z) (written : bool) s : PeerManager :=
  match pm_store s with
  | None => s
  | Some _ =>
      let records := omap (λ o, match pm_peers s !! o with
                                | Some e => if pe_verified e then Some (to_snapshot e) else None
                                | None => None
                                end) order in
      if written then with_store (Some records) (pm_last_snapshot s) s else s
  end.

Definition tick (now : Z) (peer_order ban_order : list Z) (written : bool) s : PeerManager :=
  let s := decay_scores now peer_order s in
  let s := expire_bans now ban_order s in
  let s := purge_stale now peer_order s in
  match pm_store s with
  | None => s
  | Some _ =>
      if decide (u64_saturating_sub now (pm_last_snapshot s) < pm_snapshot_interval s) then s
      else snapshot peer_order written (with_store (pm_store s) now s)
  end.

Definition load_one (now : Z) s (snap : PeerSnapshot) : PeerManager :=
  let o := overlay_of (ps_peer snap) in
  match add proximity max_po o (pm_index s) with
  | (Err _, _) => s
  | (Ok _, i) =>
      let e := from_snapshot now snap (pm_scoring_config s) in
      let s := with_index i s in
      let s := with_distribution (on_peer_added (pe_score e) (pm_score_distribution s)) s in
      let s := on_health_added (health_state now e) s in
      unverified_add 1 (set_entry o e s)
  end.

(** [loaded] is what the store's [load] gave. *)
Definition load_from_store (now : Z) (loaded : option (list PeerSnapshot)) s : PeerManager :=
  match pm_store s, loaded with
  | Some _, Some records => set_total (foldl (load_one now) s records)
  | _, _ => s
  end.

Definition no_gauges : Gauges := mkGauges (λ _, 0) 0 0 0.

Definition pm_new (now max_per_bin snapshot_interval ban_duration : Z) (c : SwarmScoringConfig)
    (store : option (list PeerSnapshot)) (loaded : option (list PeerSnapshot)) : PeerManager :=
  load_from_store now loaded
    (mkPm (pi_new max_po max_per_bin) ∅ store ∅ c snapshot_interval ban_duration now
       (replicate NUM_BUCKETS 0) [] no_gauges).

(** ** Queries *)

Definition eligible_peers (now : Z) (order : list Z) s : list Z :=
  filter (λ o, is_some_and (is_dialable now) (pm_peers s !! o)) order.

Definition eligible_count s : Z := u64_saturating_sub (pi_len (pm_index s)) (Z.of_nat (size (pm_banned_set s))).

Definition not_banned s (o : Z) : bool := bool_decide (pm_banned_set s !! o = None).

Definition is_storer (e : PeerEntry) : bool := bool_decide (cell_get (pe_node_type e) = Storer).

Definition known_storer_overlays s : list Z :=
  filter (λ o, not_banned s o && is_some_and is_storer (pm_peers s !! o)) (iter_by_proximity (pm_index s)).*2.

Definition storer_overlays_in_bin (bin : Z) s : list Z :=
  filter (λ o, not_banned s o && is_some_and is_storer (pm_peers s !! o)) (peers_in_bin bin (pm_index s)).

Definition get_dialable_peers (now : Z) (candidates : list Z) s : list SwarmPeer :=
  omap (λ o, if not_banned s o then
               match pm_peers s !! o with
               | Some e => if is_dialable now e then Some (pe_peer e) else None
               | None => None
               end
             else None) candidates.

Definition dialable_overlays_in_bin_excluding (now bin : Z) (exclude : Z → bool) s : list Z :=
  filter (λ o, not_banned s o && negb (exclude o) && is_some_and (is_dialable now) (pm_peers s !! o))
    (peers_in_bin bin (pm_index s)).

(** ** Runs *)

Inductive PmOp :=
| OpDiscovered (peers : list SwarmPeer)
| OpConnected (peer : SwarmPeer) (t : SwarmNodeType) (d : ConnectionDirection) (trust : TrustLevel)
| OpDisconnected (o : Z) (reason : DisconnectReason)
| OpMismatch (o : Z)
| OpReport (o : Z) (ev : SwarmScoringEvent)
| OpLatency (o rtt : Z)
| OpDialFailure (o : Z)
| OpEarlyDisconnect (o duration : Z)
| OpBan (o : Z) (cause : BanCause)
| OpBanPermanent (o : Z) (cause : BanCause)
| OpTick (peer_order ban_order : list Z) (written : bool).

(** One call at a clock reading; [text] is the reason of a ban it may cause. *)
Definition pm_step (text : string) s (op : Z * PmOp) : PeerManager :=
  let now := op.1 in
  match op.2 with
  | OpDiscovered peers => store_discovered_peers now peers s
  | OpConnected peer t d trust => on_peer_connected now peer t d trust text s
  | OpDisconnected o reason => on_peer_disconnected o reason s
  | OpMismatch o => on_dialed_overlay_mismatch now o s
  | OpReport o ev => report_peer now o ev text s
  | OpLatency o rtt => record_latency o rtt s
  | OpDialFailure o => pm_record_dial_failure now o s
  | OpEarlyDisconnect o duration => record_early_disconnect now o duration text s
  | OpBan o cause => ban now o cause (Some text) s
  | OpBanPermanent o cause => ban_permanent now o cause (Some text) s
  | OpTick peer_order ban_order written => tick now peer_order ban_order written s
  end.

(** ** The histogram *)

Lemma bucket_index_lt x : (bucket_index x < NUM_BUCKETS)%nat.
Proof.
  unfold bucket_index, NUM_BUCKETS. destruct (list_find _ BOUNDARIES) as [[i b]|] eqn:E; [|lia].
  apply list_find_Some in E as (E%lookup_lt_Some & _). change (length BOUNDARIES) with 12%nat in E. lia.
Qed.

Definition in_bucket (i : nat) (_ : Z) e : Z := if decide (bucket_index (pe_score e) = i) then 1 else 0.

(** How many peers have their score in each bucket. *)
Definition histogram (m : gmap Z PeerEntry) : list Z := (λ i, map_sumZ (in_bucket i) m) <$> seq 0 NUM_BUCKETS.

Lemma histogram_lookup m i : histogram m !! i =
  if decide (i < NUM_BUCKETS)%nat then Some (map_sumZ (in_bucket i) m) else None.
Proof.
  unfold histogram. rewrite list_lookup_fmap. case_decide.
  - by rewrite lookup_seq_lt.
  - by rewrite lookup_seq_ge by lia.
Qed.

Lemma bump_histogram m m' j d : (j < NUM_BUCKETS)%nat →
  (∀ i, map_sumZ (in_bucket i) m' = map_sumZ (in_bucket i) m + if decide (j = i) then d else 0) →
  histogram m' = bump j d (histogram m).
Proof.
  intros Hj Hm. apply list_eq. intros i. unfold bump. rewrite histogram_lookup, Hm.
  destruct (decide (j = i)) as [->|Hne].
  - rewrite list_lookup_alter_eq, histogram_lookup. by case_decide.
  - rewrite list_lookup_alter_ne, histogram_lookup by done. case_decide; [|done]. f_equal. lia.
Qed.

Lemma histogram_insert m o e : m !! o = None → histogram (<[o:=e]> m) = on_peer_added (pe_score e) (histogram m).
Proof.
  intros Ho. apply bump_histogram; [apply bucket_index_lt|]. intros i. rewrite map_sumZ_insert by done.
  unfold in_bucket at 1. lia.
Qed.

Lemma histogram_delete m o e : m !! o = Some e → histogram (delete o m) = on_peer_removed (pe_score e) (histogram m).
Proof.
  intros Ho. apply bump_histogram; [apply bucket_index_lt|]. intros i. rewrite (map_sumZ_delete _ m o e Ho).
  unfold in_bucket at 2. case_decide; lia.
Qed.

Lemma histogram_update m o e e' : m !! o = Some e →
  histogram (<[o:=e']> m) = on_score_changed (pe_score e) (pe_score e') (histogram m).
Proof.
  intros Ho. rewrite <-insert_delete_eq. rewrite histogram_insert by apply lookup_delete_eq.
  rewrite (histogram_delete _ _ _ Ho). unfold on_score_changed, on_peer_added, on_peer_removed, bump.
  case_decide as Hd; [|done]. rewrite Hd.
  apply list_eq. intros i. destruct (decide (bucket_index (pe_score e') = i)) as [->|Hne].
  - rewrite !list_lookup_alter_eq. destruct (histogram m !! i) as [x|]; [|done]. simpl. f_equal. lia.
  - by rewrite !list_lookup_alter_ne.
Qed.

(** ** The invariant *)

Definition unverified_of (_ : Z) e : Z := if pe_verified e then 0 else 1.

(** What the invariant reads: everything but health gauges, events and the store. *)
Definition core s :=
  (pm_index s, pm_peers s, pm_banned_set s, pm_score_distribution s, g_unverified (pm_gauges s),
   g_banned (pm_gauges s), g_total (pm_gauges s), pm_scoring_config s).

(** Entries, index, bans and gauges agree; [extra] may be in the index only. *)
Record pm_mid (extra : option Z) s : Prop := {
  po_index : index_ok proximity max_po (pm_index s);
  po_bounded : bins_bounded (pm_index s);
  po_members : ∀ o, exists_in proximity max_po o (pm_index s) = true ↔ is_Some (pm_peers s !! o) ∨ extra = Some o;
  po_overlay : ∀ o e, pm_peers s !! o = Some e → overlay_of (pe_peer e) = o;
  po_banned : ∀ o e, pm_peers s !! o = Some e → pe_is_banned e = true → is_Some (pm_banned_set s !! o);
  po_histogram : pm_score_distribution s = histogram (pm_peers s);
  po_unverified : g_unverified (pm_gauges s) = map_sumZ unverified_of (pm_peers s);
  po_banned_gauge : g_banned (pm_gauges s) = Z.of_nat (size (pm_banned_set s));
  po_total : extra = None → g_total (pm_gauges s) = pi_len (pm_index s);
}.

Abbreviation pm_ok := (pm_mid None).

Lemma pm_mid_core extra s s' : core s = core s' → pm_mid extra s → pm_mid extra s'.
Proof.
  unfold core. intros E [H1 H2 H3 H4 H5 H6 H7 H8 H9].
  injection E as E1 E2 E3 E4 E5 E6 E7 E8.
  split; rewrite <-?E1, <-?E2, <-?E3, <-?E4, <-?E5, <-?E6, <-?E7; done.
Qed.

Lemma pm_mid_emit extra ev s : pm_mid extra s → pm_mid extra (emit ev s).
Proof. by apply pm_mid_core. Qed.

Lemma core_health_changed h h' s : core (on_health_changed h h' s) = core s.
Proof. unfold on_health_changed. by case_decide. Qed.

(** An entry may change its record, score, ban and verification, if the gauges follow. *)
Lemma pm_mid_update extra s o e e' :
  pm_mid extra s → pm_peers s !! o = Some e → overlay_of (pe_peer e') = o →
  (pe_is_banned e' = true → is_Some (pm_banned_set s !! o)) →
  pm_mid extra (unverified_add (unverified_of o e' - unverified_of o e)
    (with_distribution (on_score_changed (pe_score e) (pe_score e') (pm_score_distribution s)) (set_entry o e' s))).
Proof.
  intros [H1 H2 H3 H4 H5 H6 H7 H8 H9] He Ho Hb. split; simpl; try done.
  - intros o'. rewrite H3. destruct (decide (o = o')) as [->|?].
    + rewrite lookup_insert_eq, He. split; intros _; left; by eexists.
    + by rewrite lookup_insert_ne.
  - intros o' e''. destruct (decide (o = o')) as [->|?]; [rewrite lookup_insert_eq|rewrite lookup_insert_ne by done; eauto].
    by intros [= <-].
  - intros o' e''. destruct (decide (o = o')) as [->|?]; [rewrite lookup_insert_eq|rewrite lookup_insert_ne by done; eauto].
    by intros [= <-].
  - by rewrite H6, (histogram_update _ _ _ _ He).
  - rewrite H7, <-insert_delete_eq, map_sumZ_insert by apply lookup_delete_eq.
    rewrite (map_sumZ_delete _ (pm_peers s) o e He). lia.
Qed.

Lemma on_score_same x b : on_score_changed x x b = b.
Proof. unfold on_score_changed. by rewrite decide_True. Qed.

(** An update that leaves score and verification. *)
Lemma pm_mid_touch extra s o e e' :
  pm_mid extra s → pm_peers s !! o = Some e → overlay_of (pe_peer e') = o → pe_score e' = pe_score e →
  pe_verified e' = pe_verified e → (pe_is_banned e' = true → is_Some (pm_banned_set s !! o)) →
  pm_mid extra (set_entry o e' s).
Proof.
  intros Hs He Ho Hsc Hv Hb. pose proof (pm_mid_update extra s o e e' Hs He Ho Hb) as H.
  eapply pm_mid_core; [|exact H]. unfold core. simpl. rewrite Hsc, on_score_same.
  unfold unverified_of. rewrite Hv. do 4 f_equal. lia.
Qed.

(** ** Every operation preserves it *)

Hypothesis Hmax : 0 <= max_po.
Hypothesis Hprox : ∀ a, 0 <= proximity a.

Abbreviation idx_add := (add proximity max_po).
Abbreviation idx_remove := (remove proximity max_po).
Abbreviation idx_has := (exists_in proximity max_po).

Lemma bounded_remove a (i : ProximityIndex) :
  index_ok proximity max_po i → bins_bounded i → bins_bounded (idx_remove a i).2.
Proof.
  intros Hi Hb. pose proof (remove_cases proximity max_po Hmax Hprox a i Hi) as H.
  destruct (idx_remove a i) as [r i']. simpl. destruct H as (_ & Hm & _ & _ & Hr). destruct r; [|by rewrite Hr].
  destruct Hr as (_ & b & Eb & Hbi). intros n b' Hn Hpos. rewrite Hm in *. rewrite Eb in Hn.
  apply list_lookup_insert_Some in Hn as [(_ & -> & _)|[_ Hn]]; [|by eapply Hb].
  rewrite Hbi. pose proof (Hb _ _ (bucket_lookup proximity max_po Hmax Hprox a i Hi) Hpos).
  pose proof (length_filter (λ x, x ≠ a) (lhs_iter (bucket proximity max_po a i))). lia.
Qed.

Lemma bounded_add a (i : ProximityIndex) :
  index_ok proximity max_po i → bins_bounded i → bins_bounded (idx_add a i).2.
Proof.
  intros Hi Hb. pose proof (add_cases proximity max_po Hmax Hprox a i Hi) as H. unfold add in *.
  destruct (lhs_contains a _); [done|]. case_decide as Hfull; [done|]. simpl in *.
  destruct H as (_ & _ & _ & _ & _ & b & Eb & Hbi). intros n b' Hn Hpos. simpl in *. rewrite Eb in Hn.
  apply list_lookup_insert_Some in Hn as [(_ & -> & _)|[_ Hn]]; [|by eapply Hb].
  rewrite Hbi, length_app. simpl. lia.
Qed.

(** The first part of [remove_peer]: the entry leaves the map. *)
Definition drop_entry (now o : Z) s : PeerManager :=
  match pm_peers s !! o with
  | Some e =>
      let s := with_peers (delete o (pm_peers s)) s in
      let s := with_distribution (on_peer_removed (pe_score e) (pm_score_distribution s)) s in
      let s := on_health_removed (health_state now e) s in
      if negb (pe_verified e) then unverified_add (-1) s else s
  | None => s
  end.

Lemma drop_entry_core now o s : pm_ok s →
  core (drop_entry now o s) =
  (pm_index s, delete o (pm_peers s), pm_banned_set s, histogram (delete o (pm_peers s)),
   map_sumZ unverified_of (delete o (pm_peers s)), g_banned (pm_gauges s), g_total (pm_gauges s), pm_scoring_config s).
Proof.
  intros Hs. unfold drop_entry, core. destruct (pm_peers s !! o) as [e|] eqn:Ee.
  - pose proof (map_sumZ_delete unverified_of _ _ _ Ee) as Hu. unfold unverified_of at 2 in Hu.
    rewrite (histogram_delete _ _ _ Ee), <-(po_histogram _ _ Hs). pose proof (po_unverified _ _ Hs).
    destruct (pe_verified e); simpl; do 4 f_equal; lia.
  - rewrite delete_id by done. by rewrite (po_histogram _ _ Hs), (po_unverified _ _ Hs).
Qed.

Lemma remove_peer_peers now o s : pm_peers (remove_peer now o s) = delete o (pm_peers s).
Proof.
  unfold remove_peer. fold (drop_entry now o s).
  assert (pm_peers (drop_entry now o s) = delete o (pm_peers s)) as E.
  { unfold drop_entry. destruct (pm_peers s !! o) as [e|] eqn:Ee; [by destruct (pe_verified e)|by rewrite delete_id]. }
  destruct (idx_remove _ _) as [[] i]; simpl; by case_match.
Qed.

Lemma remove_peer_lifecycle now o s : pm_lifecycle (remove_peer now o s) = pm_lifecycle s.
Proof.
  unfold remove_peer. fold (drop_entry now o s). assert (pm_lifecycle (drop_entry now o s) = pm_lifecycle s) as E.
  { unfold drop_entry. destruct (pm_peers s !! o) as [e|]; [by destruct (pe_verified e)|done]. }
  destruct (idx_remove _ _) as [[] i]; simpl; by case_match.
Qed.

Lemma remove_peer_banned now o s : pm_banned_set (remove_peer now o s) = delete o (pm_banned_set s).
Proof.
  unfold remove_peer. fold (drop_entry now o s). assert (pm_banned_set (drop_entry now o s) = pm_banned_set s) as E.
  { unfold drop_entry. destruct (pm_peers s !! o) as [e|]; [by destruct (pe_verified e)|done]. }
  destruct (idx_remove _ _) as [[] i]; simpl; (case_match; [by rewrite <-E|]); rewrite <-E; by rewrite delete_id.
Qed.

(** A ban of a peer with no entry can go. *)
Lemma forget_ban_ok o s : pm_ok s → pm_peers s !! o = None →
  pm_ok match pm_banned_set s !! o with
        | Some _ => banned_add (-1) (with_banned (delete o (pm_banned_set s)) s)
        | None => s
        end.
Proof.
  intros Hs Ho. destruct (pm_banned_set s !! o) as [u|] eqn:Eu; [|done].
  destruct Hs as [H1 H2 H3 H4 H5 H6 H7 H8 H9]. split; simpl; try done.
  - intros x e He Hb. rewrite lookup_delete_ne; [eauto|]. intros ->. congruence.
  - rewrite H8, map_size_delete, Eu. assert (size (pm_banned_set s) ≠ 0%nat) by (apply map_size_ne_0_lookup; eauto).
    simpl. lia.
Qed.

(** Index, entry and ban of a peer go together. *)
Lemma remove_peer_ok now o s : pm_ok s → pm_ok (remove_peer now o s).
Proof.
  intros Hs. unfold remove_peer. fold (drop_entry now o s). pose proof (drop_entry_core now o s Hs) as Hc.
  set (s1 := drop_entry now o s) in *. clearbody s1. unfold core in Hc. injection Hc as E1 E2 E3 E4 E5 E6 E7 E8.
  destruct Hs as [H1 H2 H3 H4 H5 H6 H7 H8 H9]. rewrite E1.
  pose proof (remove_cases proximity max_po Hmax Hprox o (pm_index s) H1) as Hr.
  pose proof (λ x, exists_in_remove proximity max_po Hmax Hprox o x (pm_index s) H1) as Hx.
  pose proof (bounded_remove o _ H1 H2) as Hb.
  destruct (idx_remove o (pm_index s)) as [present i]. destruct Hr as (Hi & _ & _ & Hp & Hsame). simpl in *.
  set (s2 := if present : bool then set_total (with_index i s1) else with_index i s1).
  assert (core s2 = (i, delete o (pm_peers s), pm_banned_set s, histogram (delete o (pm_peers s)),
    map_sumZ unverified_of (delete o (pm_peers s)), g_banned (pm_gauges s), pi_len i, pm_scoring_config s)) as Hc.
  { unfold s2, core. destruct present; simpl; rewrite E2, E3, E4, E5, E6, E8; [done|]. rewrite E7, Hsame.
    by rewrite H9. }
  clearbody s2. unfold core in Hc. injection Hc as F1 F2 F3 F4 F5 F6 F7 F8.
  apply (forget_ban_ok o s2); [|by rewrite F2, lookup_delete_eq].
  split; rewrite ?F1, ?F2, ?F3, ?F4, ?F5, ?F6, ?F7; try done.
  - intros x. rewrite Hx, H3. destruct (decide (o = x)) as [->|?].
    + rewrite lookup_delete_eq. split; [by intros [? _]|]. by intros [[??]|?].
    + rewrite lookup_delete_ne by done. naive_solver.
  - intros x e [Hne ?]%lookup_delete_Some. eauto.
  - intros x e [Hne ?]%lookup_delete_Some. eauto.
Qed.

(** Admission puts the overlay in the index, ahead of its entry. *)
Lemma pm_add_mid o s i : pm_ok s → pm_peers s !! o = None → idx_add o (pm_index s) = (Ok tt, i) →
  pm_mid (Some o) (with_index i s).
Proof.
  intros [H1 H2 H3 H4 H5 H6 H7 H8 H9] Ho Ha.
  pose proof (add_cases proximity max_po Hmax Hprox o (pm_index s) H1) as Hc.
  pose proof (λ x, exists_in_add proximity max_po Hmax Hprox o x (pm_index s) H1) as Hx.
  pose proof (bounded_add o _ H1 H2) as Hb. rewrite Ha in *. simpl in *. destruct Hc as (Hi & _).
  split; simpl; try done. intros x. rewrite Hx, H3. naive_solver.
Qed.

Lemma pm_admit_ok now o s : pm_ok s → pm_peers s !! o = None →
  let '(admitted, s') := pm_admit now o s in
  if admitted : bool then pm_mid (Some o) s' ∧ pm_peers s' !! o = None else pm_ok s'.
Proof.
  intros Hs Ho. unfold pm_admit. destruct (idx_add o (pm_index s)) as [[[]|[]] i] eqn:Ea.
  - split; [by apply pm_add_mid|done].
  - exfalso. unfold add in Ea. destruct (lhs_contains o _) eqn:Ec; [|case_decide; done].
    assert (idx_has o (pm_index s) = true) as Hx by done. apply (po_members _ _ Hs) in Hx as [[e He]|?]; congruence.
  - destruct (find_replaceable _ _ s) as [victim|]; [|done].
    pose proof (remove_peer_ok now victim s Hs) as Hs'.
    assert (pm_peers (remove_peer now victim s) !! o = None) as Ho'.
    { rewrite remove_peer_peers. apply lookup_delete_None. by right. }
    destruct (idx_add o (pm_index (remove_peer now victim s))) as [[[]|[]] i'] eqn:Ea'; [|exfalso|done].
    + split; [by apply pm_add_mid|done].
    + unfold add in Ea'. destruct (lhs_contains o _) eqn:Ec; [|case_decide; done].
      assert (idx_has o (pm_index (remove_peer now victim s)) = true) as Hx by done.
      apply (po_members _ _ Hs') in Hx as [[e He]|?]; congruence.
Qed.

Lemma insert_peer_ok now o peer t s : pm_ok s → overlay_of peer = o →
  let '(stored, s') := insert_peer now o peer t s in
  pm_ok s' ∧ (stored = true → ∃ e, pm_peers s' !! o = Some e).
Proof.
  intros Hs Ho. unfold insert_peer. destruct (pm_peers s !! o) as [e|] eqn:Ee.
  - split; [|intros _; simpl; rewrite lookup_insert_eq; by eexists].
    eapply pm_mid_touch; try done. intros Hb. eapply po_banned; [done|done|]. exact Hb.
  - pose proof (pm_admit_ok now o s Hs Ee) as Ha. destruct (pm_admit now o s) as [[] s']; [|by split].
    destruct Ha as [[H1 H2 H3 H4 H5 H6 H7 H8 H9] Hn]. rewrite Hn. simpl.
    split; [|intros _; rewrite lookup_insert_eq; by eexists]. split; simpl; try done.
    + intros x. rewrite H3. destruct (decide (o = x)) as [->|?].
      * rewrite lookup_insert_eq. split; intros _; [left; by eexists|by right].
      * rewrite lookup_insert_ne by done. naive_solver.
    + intros x e. destruct (decide (o = x)) as [->|?]; [rewrite lookup_insert_eq|rewrite lookup_insert_ne by done; eauto].
      by intros [= <-].
    + intros x e. destruct (decide (o = x)) as [->|?]; [rewrite lookup_insert_eq|rewrite lookup_insert_ne by done; eauto].
      by intros [= <-].
    + by rewrite H6, histogram_insert.
    + rewrite H7, map_sumZ_insert by done. unfold unverified_of at 2. simpl. lia.
Qed.

Lemma ban_with_expiry_ok now o cause reason until s : pm_ok s → pm_ok (ban_with_expiry now o cause reason until s).
Proof.
  intros Hs. unfold ban_with_expiry. destruct (pm_banned_set s !! o) as [u|] eqn:Eu; [done|].
  set (s1 := banned_add 1 _).
  assert (pm_ok s1) as Hs1.
  { destruct Hs as [H1 H2 H3 H4 H5 H6 H7 H8 H9]. split; simpl; try done.
    - intros x e He Hb. destruct (decide (o = x)) as [->|?]; [rewrite lookup_insert_eq; by eexists|].
      rewrite lookup_insert_ne by done. eauto.
    - rewrite H8, map_size_insert, Eu. lia. }
  apply pm_mid_emit. destruct (pm_peers s1 !! o) as [e|] eqn:Ee; [|exact Hs1].
  destruct (pe_is_banned e); [exact Hs1|].
  eapply pm_mid_core; [symmetry; apply core_health_changed|].
  eapply pm_mid_touch; try done; [exact (po_overlay _ _ Hs1 o e Ee)|]. intros _. simpl. rewrite lookup_insert_eq. by eexists.
Qed.

Lemma unban_ok now o s : pm_ok s → pm_ok (unban now o s).
Proof.
  intros Hs. unfold unban.
  set (s1 := match pm_peers s !! o with Some e => _ | None => s end).
  assert (pm_ok s1 ∧ pm_banned_set s1 = pm_banned_set s ∧
    (∀ e, pm_peers s1 !! o = Some e → pe_is_banned e = false)) as (Hs1 & Eb & Hn).
  { unfold s1. destruct (pm_peers s !! o) as [e|] eqn:Ee; [|split_and!; [done..|]; intros e; by rewrite Ee].
    unfold entry_reset_score, peer_score_reset, set_score.
    set (x := f64_clamp _ _ _). set (e' := set_scoring _ _ _).
    split_and!; [|unfold on_health_changed; by case_decide|].
    - eapply pm_mid_core; [symmetry; apply core_health_changed|].
      eapply pm_mid_core; [|apply (pm_mid_update None s o e e' Hs Ee); [exact (po_overlay _ _ Hs o e Ee)|done]].
      unfold core. simpl. do 4 f_equal. unfold unverified_of. simpl. lia.
    - intros e2. unfold on_health_changed. case_decide; simpl; rewrite lookup_insert_eq; by intros [= <-]. }
  clearbody s1. rewrite Eb. destruct (pm_banned_set s !! o) as [u|] eqn:Eu; [|done].
  apply pm_mid_emit. destruct Hs1 as [H1 H2 H3 H4 H5 H6 H7 H8 H9]. split; simpl; try done.
  - intros x e He Hb. rewrite lookup_delete_ne; [rewrite <-Eb; eauto|]. intros ->. specialize (Hn e He). congruence.
  - rewrite H8, Eb, map_size_delete, Eu.
    assert (size (pm_banned_set s) ≠ 0%nat) by (apply map_size_ne_0_lookup; eauto). simpl. lia.
Qed.

Lemma pm_dial_failure_ok now o s : pm_ok s → pm_ok (pm_record_dial_failure now o s).
Proof.
  intros Hs. unfold pm_record_dial_failure. destruct (pm_peers s !! o) as [e|] eqn:Ee; [|done].
  eapply pm_mid_core; [symmetry; apply core_health_changed|].
  eapply pm_mid_touch; try done; [exact (po_overlay _ _ Hs o e Ee)|exact (po_banned _ _ Hs o e Ee)].
Qed.

Lemma report_peer_ok now o ev text s : pm_ok s → pm_ok (report_peer now o ev text s).
Proof.
  intros Hs. unfold report_peer. destruct (pm_banned_set s !! o) as [u|] eqn:Eu; [done|].
  destruct (pm_peers s !! o) as [e|] eqn:Ee; [|done].
  set (e1 := if is_useful ev then set_productive now e else e).
  pose proof (record_event_fields (pe_scoring e1) ev) as Hf. unfold entry_record_event.
  destruct (record_event_change (pe_scoring e1) ev) as [ch sc]. destruct Hf as (_ & Hold & _ & Hnew & _).
  set (e2 := set_scoring sc _ e1). set (s1 := with_distribution _ (set_entry o e2 s)).
  assert (pm_ok s1) as Hs1.
  { assert (pe_verified e2 = pe_verified e ∧ pe_peer e2 = pe_peer e ∧ pe_is_banned e2 = pe_is_banned e ∧
      pe_score e1 = pe_score e ∧ pe_score e2 = ch_new_score ch) as (Ev & Ep & Eb & Es & En).
    { unfold e2, e1 in *. by destruct (is_useful ev). }
    eapply pm_mid_core; [|apply (pm_mid_update None s o e e2 Hs Ee)].
    - unfold core. simpl. unfold unverified_of. rewrite Ev, En, Hold. change (sc_score (sp_score (pe_scoring e1))) with (pe_score e1).
      rewrite Es. do 4 f_equal. lia.
    - rewrite Ep. exact (po_overlay _ _ Hs o e Ee).
    - rewrite Eb. exact (po_banned _ _ Hs o e Ee). }
  clearbody s1. destruct (ch_outcome ch); [done|by apply pm_mid_emit|..].
  - apply pm_mid_emit. by apply pm_dial_failure_ok.
  - by apply ban_with_expiry_ok.
Qed.

Lemma store_discovered_ok now peer s : pm_ok s → pm_ok (store_discovered_peer now peer s).
Proof.
  intros Hs. unfold store_discovered_peer. destruct (pm_peers s !! overlay_of peer) as [e|] eqn:Ee.
  - destruct (reject_stale_gossip _ _ _); [done|].
    eapply pm_mid_touch; try done. exact (po_banned _ _ Hs _ e Ee).
  - pose proof (insert_peer_ok now (overlay_of peer) peer Client s Hs eq_refl) as Hi.
    destruct (insert_peer _ _ _ _ s) as [[] s']; destruct Hi as [Hs' He]; [|done].
    destruct (He eq_refl) as [e E]. rewrite E. eapply pm_mid_touch; try done; [exact (po_overlay _ _ Hs' _ e E)|].
    exact (po_banned _ _ Hs' _ e E).
Qed.

Lemma on_peer_connected_ok now peer t d trust text s : pm_ok s → pm_ok (on_peer_connected now peer t d trust text s).
Proof.
  intros Hs. unfold on_peer_connected.
  pose proof (insert_peer_ok now (overlay_of peer) peer t s Hs eq_refl) as Hi.
  destruct (insert_peer _ _ _ _ s) as [[] s']; destruct Hi as [Hs' He]; [|done]. simpl.
  destruct (He eq_refl) as [e E]. rewrite E. apply report_peer_ok, pm_mid_emit.
  eapply pm_mid_core; [symmetry; apply core_health_changed|].
  set (e' := set_connected now d trust _).
  eapply pm_mid_core; [|apply (pm_mid_update None s' _ e e' Hs' E)].
  - unfold core. change (pe_score e') with (pe_score e). rewrite on_score_same. unfold unverified_of. simpl.
    destruct (pe_verified e); simpl; do 4 f_equal; lia.
  - exact (po_overlay _ _ Hs' _ e E).
  - exact (po_banned _ _ Hs' _ e E).
Qed.

Lemma decay_one_ok now s o : pm_ok s → pm_ok (decay_one now s o).
Proof.
  intros Hs. unfold decay_one. destruct (pm_peers s !! o) as [e|] eqn:Ee; [|done].
  assert (pm_ok (set_entry o (set_scoring (pe_scoring e) now e) s)) as Htouch.
  { eapply pm_mid_touch; try done; [exact (po_overlay _ _ Hs o e Ee)|exact (po_banned _ _ Hs o e Ee)]. }
  unfold decay_score. case_decide; [done|]. destruct (pe_is_banned e || _); [done|].
  unfold peer_score_decay, decay. rewrite decide_False by done. rewrite decide_False by (by case_match).
  set (x := f64_mul _ _). set (e' := set_scoring _ _ _).
  eapply pm_mid_core; [|apply (pm_mid_update None s o e e' Hs Ee)].
  - unfold core. simpl. unfold unverified_of. simpl. do 4 f_equal. lia.
  - exact (po_overlay _ _ Hs o e Ee).
  - exact (po_banned _ _ Hs o e Ee).
Qed.

Lemma fold_ok {A} (f : PeerManager → A → PeerManager) l s : (∀ s a, pm_ok s → pm_ok (f s a)) → pm_ok s → pm_ok (foldl f s l).
Proof. intros Hf. revert s. induction l; simpl; auto. Qed.

Lemma snapshot_core order written s : core (snapshot order written s) = core s.
Proof. unfold snapshot. destruct (pm_store s), written; done. Qed.

Lemma tick_ok now peer_order ban_order written s : pm_ok s → pm_ok (tick now peer_order ban_order written s).
Proof.
  intros Hs. unfold tick.
  assert (pm_ok (purge_stale now peer_order (expire_bans now ban_order (decay_scores now peer_order s)))) as Hp.
  { apply fold_ok; [intros; by apply remove_peer_ok|]. apply fold_ok; [intros; by apply unban_ok|].
    apply fold_ok; [intros; by apply decay_one_ok|done]. }
  set (s1 := purge_stale _ _ _) in *. clearbody s1. destruct (pm_store s1); [|done]. case_decide; [done|].
  eapply pm_mid_core; [symmetry; apply snapshot_core|]. by apply (pm_mid_core None s1).
Qed.

Lemma pm_step_ok text s op : pm_ok s → pm_ok (pm_step text s op).
Proof.
  intros Hs. destruct op as [now []]; unfold pm_step; cbn [fst snd].
  - apply fold_ok; [intros; by apply store_discovered_ok|done].
  - by apply on_peer_connected_ok.
  - unfold on_peer_disconnected. apply pm_mid_emit. destruct (pm_peers s !! o) as [e|] eqn:Ee; [|done].
    eapply pm_mid_touch; try done; [exact (po_overlay _ _ Hs o e Ee)|exact (po_banned _ _ Hs o e Ee)].
  - unfold on_dialed_overlay_mismatch. destruct (pm_peers s !! o) as [e|]; [|done].
    destruct (pe_verified e); [by apply pm_dial_failure_ok|by apply remove_peer_ok].
  - by apply report_peer_ok.
  - unfold record_latency. destruct (pm_peers s !! o) as [e|] eqn:Ee; [|done].
    eapply pm_mid_touch; try done; [exact (po_overlay _ _ Hs o e Ee)|exact (po_banned _ _ Hs o e Ee)].
  - by apply pm_dial_failure_ok.
  - by apply report_peer_ok, pm_dial_failure_ok.
  - by apply ban_with_expiry_ok.
  - by apply ban_with_expiry_ok.
  - by apply tick_ok.
Qed.

(** Loading fills the index and the entries together, up to the caps. *)
Lemma load_one_ok now s snap : pm_mid None (set_total s) → pm_mid None (set_total (load_one now s snap)).
Proof.
  intros Hs. unfold load_one. remember (overlay_of (ps_peer snap)) as o eqn:Eo.
  destruct (idx_add o (pm_index s)) as [[[]|err] i] eqn:Ea; [|done].
  assert (pm_peers s !! o = None) as Ho.
  { destruct (pm_peers s !! o) as [e|] eqn:Ee; [|done].
    assert (idx_has o (pm_index s) = true) as Hx by (apply (po_members _ _ Hs o); left; simpl; by eexists).
    unfold exists_in in Hx. unfold add in Ea. by rewrite Hx in Ea. }
  pose proof (pm_add_mid o (set_total s) i Hs Ho Ea) as [H1 H2 H3 H4 H5 H6 H7 H8 H9]. simpl in *.
  split; simpl; try done.
  - intros x. rewrite H3. destruct (decide (o = x)) as [->|?].
    + rewrite lookup_insert_eq. split; intros _; [left; by eexists|by right].
    + rewrite lookup_insert_ne by done. naive_solver.
  - intros x e. destruct (decide (o = x)) as [->|?]; [rewrite lookup_insert_eq|rewrite lookup_insert_ne by done; eauto].
    by intros [= <-].
  - intros x e. destruct (decide (o = x)) as [->|?]; [rewrite lookup_insert_eq|rewrite lookup_insert_ne by done; eauto].
    by intros [= <-].
  - by rewrite H6, histogram_insert.
  - rewrite H7, map_sumZ_insert by done. unfold unverified_of at 2. simpl. lia.
Qed.

Lemma pm_new_ok now max_per_bin interval ban_duration c store loaded :
  pm_ok (pm_new now max_per_bin interval ban_duration c store loaded).
Proof.
  unfold pm_new, load_from_store. set (s0 := mkPm _ _ _ _ _ _ _ _ _ _ _).
  assert (pm_ok s0) as H0.
  { split; simpl; try done.
    - by apply index_ok_new.
    - intros n b [-> _]%lookup_replicate Hpos. rewrite lhs_iter_empty. simpl in *. lia.
    - intros x. rewrite exists_in_iff. rewrite lookup_empty. unfold bucket. simpl.
      destruct (replicate _ _ !! _) as [b|] eqn:Eb; simpl; [apply lookup_replicate in Eb as [-> _]|];
        rewrite lhs_iter_empty; (split; [by intros ?%not_elem_of_nil|by intros [[??]|?]]). }
  destruct (pm_store s0) as [st|], loaded as [records|]; try done.
  assert (∀ s, pm_ok (set_total s) → pm_ok (set_total (foldl (load_one now) s records))) as H.
  { induction records as [|snap records IH]; intros s Hs; simpl; [done|]. apply IH. by apply load_one_ok. }
  apply H. by apply (pm_mid_core None s0).
Qed.

(** ** Properties *)

Lemma pm_len_size s : pm_ok s → pi_len (pm_index s) = Z.of_nat (size (pm_peers s)).
Proof.
  intros Hs. destruct (collect_spec proximity max_po Hmax Hprox (pm_index s) (po_index _ _ Hs)) as (Hn & _ & Hl & Hm & _).
  rewrite <-Hl, <-(length_fmap snd). rewrite <-size_dom. f_equal.
  replace (dom (pm_peers s)) with (list_to_set (collect (pm_index s)).*2 : gset Z); [by rewrite size_list_to_set|].
  apply set_eq. intros o. rewrite elem_of_list_to_set, elem_of_dom. split.
  - intros ([z x] & -> & Hx)%list_elem_of_fmap. apply Hm in Hx as [Hx _]. by apply (po_members _ _ Hs) in Hx as [?|?].
  - intros Ho. apply list_elem_of_fmap. exists (bin_for proximity max_po o, o). split; [done|]. apply Hm. split; [|done].
    apply (po_members _ _ Hs). by left.
Qed.


(** Gossip cannot override what a peer proved itself.  A gossiped record for a
    known peer changes nothing but the record and the time it was last seen, and
    replaces the record exactly when its timestamp is positive, at most a
    minute ahead, and more than five minutes newer than the stored one. *)
Theorem gossip_only_refreshes now peer s e :
  pm_peers s !! overlay_of peer = Some e →
  0 < timestamp_of (pe_peer e) → is_i64 (timestamp_of (pe_peer e)) →
  let s' := store_discovered_peer now peer s in
  let t := timestamp_of peer in
  ∃ e', pm_peers s' = <[overlay_of peer := e']> (pm_peers s) ∧
    core (set_entry (overlay_of peer) e s') = core s ∧ pm_lifecycle s' = pm_lifecycle s ∧
    set_peer (pe_peer e) (pe_last_seen e) e' = e ∧
    pe_peer e' = if decide (0 < t ∧ t <= i64_sat (now + 60) ∧ i64_sat (timestamp_of (pe_peer e) + 300) < t)
                 then peer else pe_peer e.
Proof.
  intros He Hpos Hx. unfold store_discovered_peer. rewrite He. cbv zeta. unfold reject_stale_gossip.
  pose proof (check_timestamp_ok (timestamp_of peer) (timestamp_of (pe_peer e)) now Hpos Hx) as Hc.
  destruct (check_timestamp _ _ _) as [[]|r].
  - rewrite decide_True by (by apply Hc).
    exists (update_addresses now peer e). split_and!; [done| |done|by destruct e|done].
    unfold core. simpl. rewrite insert_insert_eq, insert_id; done.
  - rewrite decide_False by (intros ?%Hc; done). exists e.
    split_and!; [by rewrite insert_id| |done|by destruct e|done]. unfold core. simpl. by rewrite insert_id.
Qed.

(** *** Replacement in a full bin *)

(** A stale record goes before one that is not, then the lower score. *)
Definition worse (now : Z) (e e' : PeerEntry) : bool :=
  (is_stale now e && negb (is_stale now e')) ||
  (Bool.eqb (is_stale now e) (is_stale now e') && f64_lt (pe_score e) (pe_score e')).

Definition scored e : Prop := not_nan (pe_score e).

Lemma worse_trans now e1 e2 e3 : scored e1 → scored e2 → scored e3 →
  worse now e1 e2 = true → worse now e2 e3 = true → worse now e1 e3 = true.
Proof.
  intros H1 H2 H3. unfold worse.
  assert (f64_lt (pe_score e1) (pe_score e2) = true → f64_lt (pe_score e2) (pe_score e3) = true →
          f64_lt (pe_score e1) (pe_score e3) = true) as Ht.
  { rewrite !f64_lt_le by done. rewrite !negb_true_iff. intros Ha Hb. apply not_true_iff_false. intros Hc.
    apply f64_le_total in Ha; [|done..]. apply not_true_iff_false in Hb. apply Hb. by apply (f64_le_trans _ (pe_score e1)). }
  destruct (is_stale now e1), (is_stale now e2), (is_stale now e3); simpl; (done || exact Ht).
Qed.

Lemma worse_irrefl now e : scored e → worse now e e = false.
Proof.
  intros He. unfold worse. rewrite f64_lt_le by done. replace (f64_le (pe_score e) (pe_score e)) with true.
  - destruct (is_stale now e); done.
  - symmetry. apply f64_le_key; [done..|]. unfold key_le. lia.
Qed.

Lemma worse_asym now e e' : scored e → scored e' → worse now e' e = true → worse now e e' = false.
Proof.
  intros H1 H2 Hw. apply not_true_iff_false. intros Hx.
  assert (worse now e e = true) as Hbad by (by apply (worse_trans _ _ e')). by rewrite worse_irrefl in Hbad.
Qed.

(** The candidates among [l]: disconnected members with a record. *)
Definition replaceable (peers : gmap Z PeerEntry) (o : Z) e : Prop := peers !! o = Some e ∧ pe_is_connected e = false.

Lemma find_replaceable_loop_spec now peers l : ∀ best bo be,
  (∀ o e, peers !! o = Some e → scored e) → (∀ o, o ∈ l → is_Some (peers !! o)) →
  best = Some (bo, is_stale now be, pe_score be) → peers !! bo = Some be → pe_is_connected be = false →
  ∃ v ve, find_replaceable_loop now peers l best = Some v ∧ (v = bo ∨ v ∈ l) ∧ replaceable peers v ve ∧
    (v = bo ∨ worse now ve be = true) ∧ ∀ o e, o ∈ l → replaceable peers o e → worse now e ve = false.
Proof.
  induction l as [|o l IH]; intros best bo be Hsc Hl -> Hbe Hbc; simpl.
  { exists bo, be. split_and!; try done; [by left|by left|]. by intros o e ?%not_elem_of_nil. }
  destruct (Hl o) as [e He]; [left|]. rewrite He. assert (∀ o, o ∈ l → is_Some (peers !! o)) as Hl' by (intros; apply Hl; by right).
  destruct (pe_is_connected e) eqn:Ec.
  { destruct (IH _ bo be Hsc Hl' eq_refl Hbe Hbc) as (v & ve & Hf & Hin & Hr & Hw & Hall).
    exists v, ve. split_and!; try done; [destruct Hin; [by left|right; by right]|].
    intros o' e' [->|Ho']%elem_of_cons [Hr1 Hr2]; [congruence|by eapply Hall]. }
  fold (worse now e be). destruct (worse now e be) eqn:Ew.
  - destruct (IH _ o e Hsc Hl' eq_refl He Ec) as (v & ve & Hf & Hin & Hr & Hw & Hall). exists v, ve.
    assert (worse now ve be = true) as Hvb.
    { destruct Hw as [->|Hw]; [destruct Hr as [Hr _]; congruence|]. destruct Hr as [Hr _].
      apply (worse_trans _ _ e); eauto. }
    split_and!; [done|right; destruct Hin as [->|?]; [left|by right]|done|by right|].
    intros o' e' [->|Ho']%elem_of_cons [Hr1 Hr2]; [|by eapply Hall; [|split]].
    rewrite He in Hr1. injection Hr1 as <-. destruct Hw as [->|Hw].
    + destruct Hr as [Hr _]. rewrite He in Hr. injection Hr as <-. apply worse_irrefl. eauto.
    + destruct Hr as [Hr _]. apply worse_asym; eauto.
  - destruct (IH _ bo be Hsc Hl' eq_refl Hbe Hbc) as (v & ve & Hf & Hin & Hr & Hw & Hall). exists v, ve.
    split_and!; [done|destruct Hin; [by left|right; by right]|done|done|].
    intros o' e' [->|Ho']%elem_of_cons [Hr1 Hr2]; [|by eapply Hall; [|split]].
    rewrite He in Hr1. injection Hr1 as <-. destruct Hw as [->|Hw].
    + destruct Hr as [Hr _]. congruence.
    + apply not_true_iff_false. intros Hx. destruct Hr as [Hr _]. apply not_true_iff_false in Ew. apply Ew.
      apply (worse_trans _ _ ve); eauto.
Qed.

Lemma find_replaceable_none now peers l :
  (∀ o, o ∈ l → is_Some (peers !! o)) → find_replaceable_loop now peers l None = None →
  ∀ o e, o ∈ l → peers !! o = Some e → pe_is_connected e = true.
Proof.
  induction l as [|o l IH]; intros Hl Hf; [by intros ???%not_elem_of_nil|]. simpl in Hf.
  destruct (Hl o) as [e He]; [left|]. rewrite He in Hf.
  assert (∀ o, o ∈ l → is_Some (peers !! o)) as Hl' by (intros; apply Hl; by right).
  destruct (pe_is_connected e) eqn:Ec.
  - intros o' e' [->|Ho']%elem_of_cons He'; [congruence|]. by eapply IH.
  - exfalso. revert Hf. clear IH Ec He Hl. generalize (o, is_stale now e, pe_score e).
    induction l as [|o' l IH]; intros best; simpl; [by destruct best as [[??]?]|].
    destruct (Hl' o') as [e' He']; [left|]. rewrite He'. assert (∀ o, o ∈ l → is_Some (peers !! o)) as Hl2 by (intros; apply Hl'; by right).
    destruct (pe_is_connected e'); [by apply IH|]. case_match; by apply IH.
Qed.

Lemma find_replaceable_some now peers l v :
  (∀ o e, peers !! o = Some e → scored e) → (∀ o, o ∈ l → is_Some (peers !! o)) →
  find_replaceable_loop now peers l None = Some v →
  v ∈ l ∧ ∃ ve, replaceable peers v ve ∧ ∀ o e, o ∈ l → replaceable peers o e → worse now e ve = false.
Proof.
  induction l as [|o l IH]; intros Hsc Hl Hf; [done|]. simpl in Hf.
  destruct (Hl o) as [e He]; [left|]. rewrite He in Hf.
  assert (∀ o, o ∈ l → is_Some (peers !! o)) as Hl' by (intros; apply Hl; by right).
  destruct (pe_is_connected e) eqn:Ec.
  - destruct (IH Hsc Hl' Hf) as (Hv & ve & Hr & Hall). split; [by right|]. exists ve. split; [done|].
    intros o' e' [->|Ho']%elem_of_cons [Hr1 Hr2]; [congruence|by eapply Hall].
  - destruct (find_replaceable_loop_spec now peers l _ o e Hsc Hl' eq_refl He Ec) as (v' & ve & Hf' & Hin & Hr & Hw & Hall).
    rewrite Hf' in Hf. injection Hf as ->. split; [destruct Hin as [->|?]; [left|by right]|]. exists ve. split; [done|].
    intros o' e' [->|Ho']%elem_of_cons Hr'; [|by eapply Hall]. destruct Hr' as [Hr1 _]. rewrite He in Hr1. injection Hr1 as <-.
    destruct Hw as [->|Hw].
    + destruct Hr as [Hr _]. rewrite He in Hr. injection Hr as <-. apply worse_irrefl. eauto.
    + destruct Hr as [Hr _]. apply worse_asym; eauto.
Qed.

Lemma members_known o s : pm_ok s →
  peers_in_bin (bin_for proximity max_po o) (pm_index s) = lhs_iter (bucket proximity max_po o (pm_index s)) ∧
  ∀ x, x ∈ peers_in_bin (bin_for proximity max_po o) (pm_index s) → is_Some (pm_peers s !! x).
Proof.
  intros Hs. pose proof (bucket_lookup proximity max_po Hmax Hprox o (pm_index s) (po_index _ _ Hs)) as Hb.
  unfold peers_in_bin. rewrite Hb. split; [done|]. intros x Hx.
  assert (idx_has x (pm_index s) = true) as He.
  { apply exists_in_iff. pose proof (ix_member _ _ _ (po_index _ _ Hs) _ _ x Hb Hx) as E.
    unfold bucket in *. rewrite <-E. exact Hx. }
  by apply (po_members _ _ Hs) in He as [?|?].
Qed.

(** Evicting a member makes room. *)
Lemma remove_makes_room now o v s : pm_ok s → pm_peers s !! o = None →
  v ∈ peers_in_bin (bin_for proximity max_po o) (pm_index s) →
  ∃ i, idx_add o (pm_index (remove_peer now v s)) = (Ok tt, i).
Proof.
  intros Hs Ho Hv. pose proof (remove_peer_ok now v s Hs) as Hs'.
  pose proof (members_known o s Hs) as [Em _]. rewrite Em in Hv.
  assert (pm_index (remove_peer now v s) = (idx_remove v (pm_index s)).2) as Ei.
  { unfold remove_peer. fold (drop_entry now v s). pose proof (drop_entry_core now v s Hs) as Hc.
    unfold core in Hc. injection Hc as E1 _ _ _ _ _ _ _. rewrite E1.
    destruct (idx_remove v (pm_index s)) as [[] i]; simpl; by case_match. }
  pose proof (bucket_lookup proximity max_po Hmax Hprox o (pm_index s) (po_index _ _ Hs)) as Hb.
  pose proof (ix_member _ _ _ (po_index _ _ Hs) _ _ v Hb Hv) as Ebin.
  pose proof (remove_cases proximity max_po Hmax Hprox v (pm_index s) (po_index _ _ Hs)) as Hr.
  assert (idx_has v (pm_index s) = true) as Hhas.
  { apply exists_in_iff. unfold bucket in *. by rewrite <-Ebin. }
  rewrite Ei. destruct (idx_remove v (pm_index s)) as [r i'] eqn:Er. simpl in *.
  destruct Hr as (Hi & Hcap & _ & -> & Hbins). rewrite Hhas in Hbins. destruct Hbins as (_ & b & Eb & Hbi).
  assert (bucket proximity max_po o i' = b) as Ebo.
  { unfold bucket. rewrite Eb, <-Ebin, list_lookup_insert_eq; [done|]. by apply lookup_lt_Some in Hb. }
  assert (lhs_iter b = filter (λ x, x ≠ v) (lhs_iter (bucket proximity max_po o (pm_index s)))) as Hbi'.
  { rewrite Hbi. unfold bucket. by rewrite <-Ebin. }
  unfold add. rewrite Ebo, Hcap. unfold lhs_contains. rewrite Hbi'.
  rewrite bool_decide_eq_false_2.
  - rewrite decide_False; [by eexists|]. intros [Hpos Hle].
    pose proof (po_bounded _ _ Hs _ _ Hb Hpos) as Hbd.
    assert (length (filter (λ x, x ≠ v) (lhs_iter (bucket proximity max_po o (pm_index s)))) <
            length (lhs_iter (bucket proximity max_po o (pm_index s))))%nat; [|lia].
    apply list_elem_of_split in Hv as (l1 & l2 & ->). rewrite filter_app, filter_cons_False by naive_solver.
    rewrite !length_app. simpl. pose proof (length_filter (λ x, x ≠ v) l1). pose proof (length_filter (λ x, x ≠ v) l2). lia.
  - intros [_ Hin]%list_elem_of_filter. rewrite <-Em in Hin. apply (members_known o s Hs) in Hin as [e He]. congruence.
Qed.

(** A full bin gives way to a newcomer only at the cost of its worst
    disconnected record.  Below the cap the newcomer is added and nobody leaves;
    at the cap exactly one member leaves, it is disconnected, and no disconnected
    member is stale where it is not or has a lower score; if all members are
    connected the newcomer is refused and nothing changes. *)
Theorem admission_replaces_worst now o peer t s :
  pm_ok s → pm_peers s !! o = None → (∀ x e, pm_peers s !! x = Some e → scored e) →
  let members := peers_in_bin (bin_for proximity max_po o) (pm_index s) in
  let cap := pi_max_per_bin (pm_index s) in
  let e' := with_config now peer t o (pm_scoring_config s) in
  let '(stored, s') := insert_peer now o peer t s in
  if decide (0 < cap ∧ cap <= Z.of_nat (length members)) then
    (stored = false ∧ s' = s ∧ ∀ x e, x ∈ members → pm_peers s !! x = Some e → pe_is_connected e = true) ∨
    (stored = true ∧ ∃ v ve, v ∈ members ∧ replaceable (pm_peers s) v ve ∧
       (∀ x e, x ∈ members → replaceable (pm_peers s) x e → worse now e ve = false) ∧
       pm_peers s' = <[o:=e']> (delete v (pm_peers s)))
  else stored = true ∧ pm_peers s' = <[o:=e']> (pm_peers s).
Proof.
  intros Hs Ho Hsc. cbv zeta. destruct (members_known o s Hs) as [Em Hknown].
  unfold insert_peer. rewrite Ho. unfold pm_admit.
  assert (lhs_contains o (bucket proximity max_po o (pm_index s)) = false) as Hc.
  { apply bool_decide_eq_false_2. intros Hx. rewrite <-Em in Hx. apply Hknown in Hx as [e He]. congruence. }
  unfold add at 1. rewrite Hc, Em. case_decide as Hfull; [|simpl; by rewrite Ho].
  unfold find_replaceable. destruct (find_replaceable_loop _ _ _ None) as [v|] eqn:Ev.
  - apply find_replaceable_some in Ev as (Hv & ve & Hr & Hall); [|done..].
    destruct (remove_makes_room now o v s Hs Ho Hv) as [i ->]. simpl. rewrite remove_peer_peers.
    assert (delete v (pm_peers s) !! o = None) as -> by (apply lookup_delete_None; by right).
    right. split; [done|]. exists v, ve. rewrite Em in *. split_and!; try done. simpl.
    rewrite remove_peer_peers. f_equal. unfold with_config. f_equal. f_equal.
    unfold remove_peer. fold (drop_entry now v s). pose proof (drop_entry_core now v s Hs) as Hcore.
    unfold core in Hcore. injection Hcore as _ _ _ _ _ _ _ E8.
    destruct (idx_remove v _) as [[] i']; simpl; case_match; done.
  - left. split_and!; [done..|]. rewrite <-Em. by apply (find_replaceable_none now).
Qed.

(** *** Bans *)

Lemma find_replaceable_elem now bin s v : find_replaceable now bin s = Some v → v ∈ peers_in_bin bin (pm_index s).
Proof.
  unfold find_replaceable.
  assert (∀ l best, find_replaceable_loop now (pm_peers s) l best = Some v → v ∈ l ∨ ∃ st sc, best = Some (v, st, sc)) as H.
  { induction l as [|o l IH]; intros best; simpl.
    - destruct best as [[[x st] sc]|]; simpl; [|done]. intros [= ->]. right. by eexists _, _.
    - destruct (pm_peers s !! o) as [e|]; [|intros [= ->]; left; left].
      destruct (pe_is_connected e); [intros [?|?]%IH; [left; by right|by right]|].
      intros [?|(st & sc & E)]%IH; [left; by right|]. case_match; simplify_eq; [left; left|right; by eexists _, _]. }
  intros [?|(st & sc & ?)]%H; done.
Qed.

Lemma pm_admit_peers now o s : pm_peers (pm_admit now o s).2 ⊆ pm_peers s.
Proof.
  unfold pm_admit. destruct (idx_add o _) as [[[]|[]] i]; try done.
  destruct (find_replaceable _ _ s) as [v|]; [|done].
  destruct (idx_add o (pm_index (remove_peer now v s))) as [[[]|[]] i']; simpl; rewrite remove_peer_peers; apply delete_subseteq.
Qed.

(** A record stored for an unknown peer starts afresh. *)
Lemma stored_afresh now peer s e : pm_ok s → pm_peers s !! overlay_of peer = None →
  pm_peers (store_discovered_peer now peer s) !! overlay_of peer = Some e →
  pe_is_banned e = false ∧ is_dialable now e = true ∧ pe_score e = f64_zero.
Proof.
  intros Hs Ho. unfold store_discovered_peer. rewrite Ho. unfold insert_peer. rewrite Ho.
  pose proof (pm_admit_ok now (overlay_of peer) s Hs Ho) as Ha.
  pose proof (pm_admit_peers now (overlay_of peer) s) as Hsub.
  destruct (pm_admit now (overlay_of peer) s) as [[] s'].
  - destruct Ha as [_ Hn]. rewrite Hn. simpl. rewrite lookup_insert_eq. simpl. rewrite lookup_insert_eq. by intros [= <-].
  - intros He. simpl in *. eapply lookup_weaken in He; [|done]. congruence.
Qed.

(** Eviction lifts bans.  When a newcomer takes the place of a banned peer in a
    full bin, the ban is gone whatever its expiry, even a permanent one, without an
    [Unbanned] event; the peer's record, gossiped again and stored, is a fresh entry
    that is neither banned nor penalised. *)
Theorem eviction_lifts_ban now peer v until s :
  pm_ok s → pm_peers s !! overlay_of peer = None →
  find_replaceable now (bin_for proximity max_po (overlay_of peer)) s = Some v →
  0 < pi_max_per_bin (pm_index s) <=
    Z.of_nat (length (peers_in_bin (bin_for proximity max_po (overlay_of peer)) (pm_index s))) →
  pm_banned_set s !! v = Some until → overlay_of peer ≠ v →
  let s' := store_discovered_peer now peer s in
  pm_peers s' !! v = None ∧ pm_banned_set s' !! v = None ∧ pm_lifecycle s' = pm_lifecycle s ∧
  (∀ now' peer' e, overlay_of peer' = v → pm_peers (store_discovered_peer now' peer' s') !! v = Some e →
     pe_is_banned e = false ∧ is_dialable now' e = true ∧ pe_score e = f64_zero).
Proof.
  intros Hs Ho Hf [Hpos Hfull] Hv Hne. cbv zeta.
  destruct (members_known (overlay_of peer) s Hs) as [Em Hknown].
  pose proof (store_discovered_ok now peer s Hs) as Hs'.
  assert (v ∈ peers_in_bin (bin_for proximity max_po (overlay_of peer)) (pm_index s)) as Hmem.
  { by eapply find_replaceable_elem. }
  assert (pm_peers (store_discovered_peer now peer s) !! v = None ∧
    pm_banned_set (store_discovered_peer now peer s) !! v = None ∧
    pm_lifecycle (store_discovered_peer now peer s) = pm_lifecycle s) as (H1 & H2 & H3).
  { unfold store_discovered_peer. rewrite Ho. unfold insert_peer. rewrite Ho. unfold pm_admit.
    assert (lhs_contains (overlay_of peer) (bucket proximity max_po (overlay_of peer) (pm_index s)) = false) as Hc.
    { apply bool_decide_eq_false_2. intros Hx. rewrite <-Em in Hx. apply Hknown in Hx as [e He]. congruence. }
    rewrite Em in Hfull.
    assert (idx_add (overlay_of peer) (pm_index s) = (Err BinFull, pm_index s)) as ->.
    { unfold add. by rewrite Hc, decide_True. }
    rewrite Hf.
    destruct (remove_makes_room now (overlay_of peer) v s Hs Ho Hmem) as [i ->]. simpl. rewrite remove_peer_peers.
    assert (delete v (pm_peers s) !! overlay_of peer = None) as -> by (apply lookup_delete_None; by right).
    simpl. rewrite lookup_insert_eq. simpl. rewrite remove_peer_peers, remove_peer_banned, remove_peer_lifecycle.
    rewrite !lookup_insert_ne, !lookup_delete_eq by done. done. }
  split_and!; [done..|]. intros now' peer' e <- He. by eapply stored_afresh.
Qed.

(** *** Restarts *)

(** What a restart keeps of an entry. *)
Definition restored (now : Z) (c : SwarmScoringConfig) e : option PeerEntry :=
  if pe_verified e then Some (from_snapshot now (to_snapshot e) c) else None.

(** A manager being loaded from [s]: the entries of the overlays [seen] so far. *)
Record loading (now : Z) (c : SwarmScoringConfig) s (seen : list Z) (s' : PeerManager) : Prop := {
  ld_ok : pm_ok (set_total s');
  ld_cap : pi_max_per_bin (pm_index s') = pi_max_per_bin (pm_index s);
  ld_config : pm_scoring_config s' = c;
  ld_peers : ∀ o, pm_peers s' !! o = if decide (o ∈ seen) then pm_peers s !! o ≫= restored now c else None;
  ld_banned : pm_banned_set s' = ∅;
}.

(** There is room for every record of a manager under the same cap. *)
Lemma loading_room now c s seen s' o e : pm_ok s → loading now c s seen s' → o ∉ seen → pm_peers s !! o = Some e →
  ∃ i, idx_add o (pm_index s') = (Ok tt, i).
Proof.
  intros Hs [Hl Hcap _ Hp _] Ho He.
  pose proof (bucket_lookup proximity max_po Hmax Hprox o (pm_index s) (po_index _ _ Hs)) as Hb.
  pose proof (bucket_lookup proximity max_po Hmax Hprox o (pm_index s') (po_index _ _ Hl)) as Hb'.
  assert (∀ x i s1, pm_mid i s1 → pm_index s1 = pm_index s' ∨ pm_index s1 = pm_index s →
    x ∈ lhs_iter (bucket proximity max_po o (pm_index s1)) → idx_has x (pm_index s1) = true) as Hhas.
  { intros x i s1 Hs1 _ Hx. pose proof (bucket_lookup proximity max_po Hmax Hprox o _ (po_index _ _ Hs1)) as Hb1.
    apply exists_in_iff. pose proof (ix_member _ _ _ (po_index _ _ Hs1) _ _ x Hb1 Hx) as E.
    unfold bucket in *. by rewrite <-E. }
  assert (o ∉ lhs_iter (bucket proximity max_po o (pm_index s'))) as Hno.
  { intros Hx. apply (Hhas o None (set_total s') Hl (or_introl eq_refl)) in Hx.
    apply (po_members _ _ Hl) in Hx as [[e' He']|?]; [|done]. simpl in He'. by rewrite Hp, decide_False in He'. }
  unfold add, lhs_contains. rewrite bool_decide_eq_false_2 by done. rewrite decide_False; [by eexists|].
  intros [Hpos Hfull]. rewrite Hcap in *. pose proof (po_bounded _ _ Hs _ _ Hb Hpos) as Hbd.
  assert (o :: lhs_iter (bucket proximity max_po o (pm_index s')) ⊆+ lhs_iter (bucket proximity max_po o (pm_index s))) as Hsub.
  { apply NoDup_submseteq.
    - constructor; [done|]. by eapply (ix_nodup _ _ _ (po_index _ _ Hl)).
    - intros x [->|Hx]%elem_of_cons.
      + apply exists_in_iff, (po_members _ _ Hs). left. by eexists.
      + pose proof (ix_member _ _ _ (po_index _ _ Hl) _ _ x Hb' Hx) as Ebin.
        apply (Hhas x None (set_total s') Hl (or_introl eq_refl)) in Hx.
        apply (po_members _ _ Hl) in Hx as [[e' He']|?]; [|done]. simpl in He'. rewrite Hp in He'. case_decide; [|done].
        destruct (pm_peers s !! x) as [ex|] eqn:Ex; [|done].
        assert (idx_has x (pm_index s) = true) as Hx by (apply (po_members _ _ Hs); left; by eexists).
        apply exists_in_iff in Hx. unfold bucket in *. by rewrite Ebin. }
  apply submseteq_length in Hsub. simpl in Hsub. lia.
Qed.

Lemma loading_step now c s seen s' o e : pm_ok s → loading now c s seen s' → o ∉ seen → pm_peers s !! o = Some e →
  pe_verified e = true → loading now c s (o :: seen) (load_one now s' (to_snapshot e)).
Proof.
  intros Hs Hl Ho He Hv. destruct (loading_room now c s seen s' o e Hs Hl Ho He) as [i Hi].
  destruct Hl as [Hok Hcap Hc Hp Hb]. pose proof (load_one_ok now s' (to_snapshot e) Hok) as Hok'.
  pose proof (po_overlay _ _ Hs o e He) as Eo. unfold load_one in *. simpl in *. rewrite Eo, Hi in *.
  pose proof (add_cases proximity max_po Hmax Hprox o (pm_index s') (po_index _ _ Hok)) as Ha. simpl in Ha. rewrite Hi in Ha.
  destruct Ha as (_ & Hcap' & _). split; simpl; [done|congruence|done| |done].
  intros x. destruct (decide (o = x)) as [->|Hne].
  - rewrite lookup_insert_eq, decide_True by left. rewrite He. simpl. unfold restored. rewrite Hv, Hc. done.
  - rewrite lookup_insert_ne, Hp by done. destruct (decide (x ∈ seen)).
    + rewrite decide_True by (by right). done.
    + rewrite decide_False; [done|]. by intros [->|?]%elem_of_cons.
Qed.

Lemma loading_skip now c s seen s' o : loading now c s seen s' →
  (∀ e, pm_peers s !! o = Some e → pe_verified e = false) → loading now c s (o :: seen) s'.
Proof.
  intros [Hok Hcap Hc Hp Hb] Hv. split; try done. intros x. rewrite Hp.
  destruct (decide (x ∈ seen)); [rewrite decide_True by (by right); done|].
  case_decide as Hx; [|done]. apply elem_of_cons in Hx as [->|?]; [|done].
  destruct (pm_peers s !! o) as [e|] eqn:E; [|done]. simpl. unfold restored. by rewrite (Hv e eq_refl).
Qed.

(** A restart keeps exactly the verified peers.  Loading the snapshot a manager
    wrote into a new one of the same cap restores every verified peer with its
    signed record, node type and last-seen time, no other peer, no ban, a zero
    score, and unverified until its next handshake. *)
Theorem snapshot_restores now interval ban_duration c order s old :
  pm_ok s → NoDup order → (∀ o, o ∈ order ↔ is_Some (pm_peers s !! o)) → pm_store s = Some old →
  let st := pm_store (snapshot order true s) in
  let s' := pm_new now (pi_max_per_bin (pm_index s)) interval ban_duration c st st in
  pm_banned_set s' = ∅ ∧
  ∀ o, match pm_peers s !! o with
       | Some e =>
           if pe_verified e then
             ∃ e', pm_peers s' !! o = Some e' ∧ pe_peer e' = pe_peer e ∧ pe_last_seen e' = pe_last_seen e ∧
               cell_get (pe_node_type e') = cell_get (pe_node_type e) ∧ pe_score e' = f64_zero ∧
               pe_verified e' = false ∧ pe_is_banned e' = false ∧ pe_is_connected e' = false
           else pm_peers s' !! o = None
       | None => pm_peers s' !! o = None
       end.
Proof.
  intros Hs Hnd Hdom Hst. unfold snapshot. rewrite Hst. simpl.
  set (snap_of := λ o, match pm_peers s !! o with
                       | Some e => if pe_verified e then Some (to_snapshot e) else None | None => None end).
  set (cap := pi_max_per_bin (pm_index s)). unfold pm_new, load_from_store. cbn [pm_store].
  set (s0 := mkPm _ _ _ _ _ _ _ _ _ _ _).
  assert (∀ l seen s', NoDup (l ++ seen) → (∀ o, o ∈ l → is_Some (pm_peers s !! o)) → loading now c s seen s' →
    ∃ seen', (∀ o, o ∈ seen' ↔ o ∈ l ∨ o ∈ seen) ∧ loading now c s seen' (foldl (load_one now) s' (omap snap_of l))) as Hload.
  { induction l as [|o l IH]; intros seen s' Hn Hk Hl; [exists seen; split; [set_solver|done]|].
    simpl in Hn. apply NoDup_cons in Hn as [Hno Hn]. rewrite elem_of_app in Hno.
    destruct (Hk o) as [e He]; [left|]. simpl. unfold snap_of at 1. rewrite He.
    assert (NoDup (l ++ o :: seen)) as Hn'.
    { rewrite <-Permutation_middle. constructor; [by rewrite elem_of_app|done]. }
    assert (∀ o, o ∈ l → is_Some (pm_peers s !! o)) as Hk' by (intros; apply Hk; by right).
    destruct (pe_verified e) eqn:Ev.
    - destruct (IH (o :: seen) (load_one now s' (to_snapshot e)) Hn' Hk') as (seen' & Hse & Hld);
        [apply loading_step; naive_solver|].
      exists seen'. split; [set_solver|done].
    - destruct (IH (o :: seen) s' Hn' Hk') as (seen' & Hse & Hld).
      { apply loading_skip; [done|]. intros e' He'. congruence. }
      exists seen'. split; [set_solver|done]. }
  destruct (Hload order [] s0) as (seen' & Hse & [_ _ _ Hp Hb]); [by rewrite app_nil_r|naive_solver| |].
  { pose proof (pm_new_ok now cap interval ban_duration c None None) as Hnew. unfold pm_new, load_from_store in Hnew. simpl in Hnew.
    split; try done. by apply (pm_mid_core None _ (set_total s0)) in Hnew. }
  split; [done|]. intros o. simpl. rewrite Hp. destruct (pm_peers s !! o) as [e|] eqn:He.
  - rewrite decide_True by (apply Hse; left; apply Hdom; by eexists). simpl. unfold restored.
    destruct (pe_verified e); [|done]. eexists. split; [done|]. split_and!; try done.
    simpl. by destruct (cell_get (pe_node_type e)).
  - by case_decide.
Qed.
End manager.

(** ** A manager with two bins of two *)

Module PeerDemo.

Abbreviation Peer := (Z * Z)%type.
Definition proximity (a : Z) : Z := a mod 2.
Definition powf (x _ : f64) : f64 := x.

Lemma proximity_nonneg a : 0 <= proximity a.
Proof. apply Z.mod_pos_bound. lia. Qed.

Abbreviation demo_new := (pm_new (SwarmPeer:=Peer) fst (B:=list Z) proximity 1 1000 2 300 43200 scoring_default).
Abbreviation demo_step := (pm_step (SwarmPeer:=Peer) fst snd powf proximity 1 EmptyString).

(** Two peers of bin zero, one connected and useful, the other banned for good. *)
Definition history : list (Z * PmOp (SwarmPeer:=Peer)) :=
  [(1001, OpDiscovered [(2, 900); (4, 900)]);
   (1002, OpConnected (2, 950) Storer Inbound TrustNormal);
   (1003, OpReport 2 (RetrievalSuccess 5));
   (1004, OpReport 4 MaliciousBehavior);
   (1005, OpBanPermanent 4 CauseRequested);
   (1010, OpTick [2; 4] [4] true)].

Definition demo_state : PeerManager := run demo_step (demo_new (Some []) None) history.

Lemma peer_demo_ok : pm_mid fst proximity 1 None demo_state.
Proof.
  unfold demo_state. apply (run_invariant demo_step (λ _, True)); [|apply pm_new_ok; [lia|apply proximity_nonneg]|].
  - intros. apply pm_step_ok; [lia|apply proximity_nonneg|done].
  - by apply Forall_true.
Qed.


Lemma demo_entry2 : ∃ e, pm_peers demo_state !! 2 = Some e ∧ pe_verified e = true ∧ pe_peer e = (2, 950) ∧
  cell_get (pe_node_type e) = Storer.
Proof.
  assert ((λ e, (pe_verified e, pe_peer e, cell_get (pe_node_type e))) <$> pm_peers demo_state !! 2 = Some (true, (2, 950), Storer))
    as F by (vm_compute; reflexivity).
  destruct (pm_peers demo_state !! 2) as [e|]; [|done]. injection F as V P T. exists e. by split_and!.
Qed.

Lemma demo_entry4 : ∃ e, pm_peers demo_state !! 4 = Some e ∧ pe_verified e = false.
Proof.
  assert (pe_verified <$> pm_peers demo_state !! 4 = Some false) as F by (vm_compute; reflexivity).
  destruct (pm_peers demo_state !! 4) as [e|]; [|done]. injection F as V. by exists e.
Qed.

Lemma gossip_only_refreshes_witness :
  ∃ e e', pm_peers demo_state !! 2 = Some e ∧
    pm_peers (store_discovered_peer fst snd proximity 1 2000 (2, 1251) demo_state) = <[2:=e']> (pm_peers demo_state) ∧
    pe_peer e' = (2, 1251) ∧ pe_peer e = (2, 950).
Proof.
  destruct demo_entry2 as (e & E & _ & Ep & _).
  destruct (gossip_only_refreshes fst snd proximity 1 2000 (2, 1251) demo_state e E) as (e' & Hm & _ & _ & _ & Hp).
  - rewrite Ep. reflexivity.
  - rewrite Ep. split; discriminate.
  - exists e, e'. split; [done|]. split; [exact Hm|]. split; [|done]. rewrite Hp, Ep. reflexivity.
Defined.

Lemma all_scored : ∀ x e, pm_peers demo_state !! x = Some e → scored e.
Proof.
  assert (map_Forall (λ _ e, pe_score e ≠ S754_nan) (pm_peers demo_state)) as H.
  { apply (bool_decide_unpack _). vm_compute. exact I. }
  exact H.
Qed.

(** The newcomer takes the place of the disconnected peer. *)
Lemma admission_replaces_worst_witness :
  let '(stored, s') := insert_peer (SwarmPeer:=Peer) proximity 1 1020 6 (6, 1000) Client demo_state in
  stored = true ∧ pm_peers s' !! 4 = None ∧
  ∃ v ve, replaceable (pm_peers demo_state) v ve ∧
    pm_peers s' = <[6:=with_config 1020 (6, 1000) Client 6 scoring_default]> (delete v (pm_peers demo_state)).
Proof.
  pose proof (admission_replaces_worst fst proximity 1 ltac:(lia) proximity_nonneg 1020 6 (6, 1000) Client demo_state
                peer_demo_ok eq_refl all_scored) as H. cbv zeta in H.
  assert ((insert_peer proximity 1 1020 6 (6, 1000) Client demo_state).1 = true) as Hst by (vm_compute; reflexivity).
  assert (pm_peers (insert_peer proximity 1 1020 6 (6, 1000) Client demo_state).2 !! 4 = None) as H4 by (vm_compute; reflexivity).
  destruct (insert_peer proximity 1 1020 6 (6, 1000) Client demo_state) as [stored s']. cbn [fst snd] in *.
  rewrite decide_True in H by (vm_compute; split; [reflexivity|discriminate]).
  destruct H as [(E & _)|(_ & v & ve & _ & Hr & _ & Hp)]; [congruence|]. eauto 10.
Defined.

Lemma eviction_lifts_ban_witness :
  let s' := store_discovered_peer fst snd proximity 1 1020 (6, 1000) demo_state in
  pm_banned_set demo_state !! 4 = Some None ∧ pm_banned_set s' !! 4 = None ∧ pm_lifecycle s' = pm_lifecycle demo_state.
Proof.
  intros s'. split; [vm_compute; reflexivity|].
  destruct (eviction_lifts_ban fst snd proximity 1 ltac:(lia) proximity_nonneg 1020 (6, 1000) 4 None demo_state peer_demo_ok)
    as (_ & Hb & Hl & _); [vm_compute; reflexivity|vm_compute; reflexivity|vm_compute; split; [reflexivity|discriminate]
      |vm_compute; reflexivity|discriminate|]. split; [exact Hb|exact Hl].
Defined.

Lemma snapshot_restores_witness :
  let st := pm_store (snapshot [2; 4] true demo_state) in
  let s' := pm_new fst proximity 1 5000 2 300 43200 scoring_default st st in
  (∃ e', pm_peers s' !! 2 = Some e' ∧ pe_peer e' = (2, 950) ∧ cell_get (pe_node_type e') = Storer) ∧
  pm_peers s' !! 4 = None.
Proof.
  intros st s'.
  destruct (snapshot_restores fst proximity 1 ltac:(lia) proximity_nonneg 5000 300 43200 scoring_default [2; 4] demo_state [] peer_demo_ok)
    as [_ H].
  - apply (bool_decide_unpack _). vm_compute. exact I.
  - intros o. assert (dom (pm_peers demo_state) = {[2; 4]}) as Hd by (vm_compute; reflexivity).
    rewrite <-elem_of_dom, Hd. clear. set_solver.
  - vm_compute. reflexivity.
  - destruct demo_entry2 as (e & E2 & V2 & P2 & T2). destruct demo_entry4 as (e4 & E4 & V4).
    pose proof (H 2) as H2. rewrite E2, V2 in H2. pose proof (H 4) as H4. rewrite E4, V4 in H4.
    destruct H2 as (e' & H2 & Hp & _ & Ht & _). split; [|exact H4]. exists e'. split; [exact H2|]. split; [by rewrite Hp|by rewrite Ht].
Defined.

(** Three failed dials make an unverified peer count as stale; when it then
    connects, the gauges move it from failing to healthy: one healthy peer is
    reported as one healthy, one stale and minus one failing. *)
Example health_gauge_drifts :
  let s := run demo_step (demo_new None None)
    [(1001, OpDiscovered [(2, 900)]); (1002, OpDialFailure 2); (1003, OpDialFailure 2); (1004, OpDialFailure 2);
     (1005, OpConnected (2, 950) Storer Inbound TrustNormal)] in
  health_state 1005 <$> pm_peers s !! 2 = Some Healthy ∧
  g_health (pm_gauges s) <$> [Healthy; Failing; Stale; Banned] = [1; -1; 1; 0].
Proof. vm_compute. split; reflexivity. Qed.

(** A peer connected for over a day is purged after one failure report, still connected. *)
Example purge_drops_connected :
  let s := run demo_step (demo_new None None)
    [(1001, OpConnected (2, 950) Storer Inbound TrustNormal); (90000, OpDialFailure 2)] in
  pe_is_connected <$> pm_peers s !! 2 = Some true ∧ pm_peers (demo_step s (90001, OpTick [2] [] true)) !! 2 = None.
Proof. vm_compute. split; reflexivity. Qed.

End PeerDemo.
