(* ===== verification/Candidates.v ===== *)
(** * Candidates: which peers to dial

    Models the candidate selection of [swarm/topology/src/kademlia/]: the per-bin
    queues ([candidate_queues.rs]), the selector with its two strategies
    ([candidates.rs]), and the evaluation that feeds the queues from the routing
    table and the peer manager ([routing.rs], with the estimated depth of
    [limits.rs]).  Selection reads the routing table of [Kademlia] and the manager of
    [PeerManager] at one moment, as the code does between two awaits. *)

From S2P Require Import Prelude.
From S2P Require Import ProximityIndex.
From S2P Require Import Kademlia.
From S2P Require Import PeerScore.
From S2P Require Import PeerManager.

(** ** Queues *)

Record CandidateQueues := mkQueues {
  cq_bins : list (list Z);
  cq_pending : gset Z;
  cq_max_per_bin : Z;
}.

Implicit Types (q : CandidateQueues).

Definition queues_new (num_bins : nat) (max_per_bin : Z) : CandidateQueues :=
  mkQueues (replicate num_bins []) ∅ max_per_bin.

(** The loop that drops the oldest entries over the cap, with the dedup set. *)
Fixpoint evict_oldest (queue : list Z) (pending : gset Z) (max_per_bin : Z) : list Z * gset Z :=
  match queue with
  | [] => ([], pending)
  | p :: queue' =>
      if decide (max_per_bin < Z.of_nat (length queue)) then evict_oldest queue' (pending ∖ {[p]}) max_per_bin
      else (queue, pending)
  end.

Definition queue_push (bin peer : Z) q : bool * CandidateQueues :=
  if decide (peer ∈ cq_pending q) then (false, q)
  else
    match cq_bins q !! Z.to_nat bin with
    | Some queue =>
        let '(queue, pending) := evict_oldest (queue ++ [peer]) (cq_pending q ∪ {[peer]}) (cq_max_per_bin q) in
        (true, mkQueues (<[Z.to_nat bin := queue]> (cq_bins q)) pending (cq_max_per_bin q))
    | None => (false, q)
    end.

(** The first entry of the deepest queue that has one. *)
Fixpoint pop_deepest (bins : list (list Z)) : option (Z * list (list Z)) :=
  match bins with
  | [] => None
  | queue :: bins =>
      match pop_deepest bins with
      | Some (p, bins) => Some (p, queue :: bins)
      | None => match queue with [] => None | p :: queue => Some (p, queue :: bins) end
      end
  end.

Definition pop_next q : option Z * CandidateQueues :=
  match pop_deepest (cq_bins q) with
  | Some (p, bins) => (Some p, mkQueues bins (cq_pending q ∖ {[p]}) (cq_max_per_bin q))
  | None => (None, q)
  end.

(** ** Selection *)

(** [DepthAwareLimits::estimate_depth_from_known]: the deepest bin with enough
    known peers. *)
Definition estimate_depth_from_known (bin_max : Z) (known_bin_sizes : list Z) (l : DepthAwareLimits) : Z :=
  match last (filter (λ x, dl_nominal l <= x.2) (imap (λ n c, (Z.of_nat n, c)) known_bin_sizes)) with
  | Some (n, _) => if decide (n `mod` 256 <= bin_max) then n `mod` 256 else bin_max
  | None => 0
  end.

Definition effective_depth (bin_max connected_depth : Z) (known_bin_sizes : list Z) (l : DepthAwareLimits) : Z :=
  Z.max connected_depth (estimate_depth_from_known bin_max known_bin_sizes l).

Section candidates.
Context {SwarmPeer : Type} `{LH : LinkedHashSet B} (overlay_of : SwarmPeer → Z) (proximity : Z → Z) (max_po bin_max : Z).

Abbreviation Manager := (PeerManager (SwarmPeer:=SwarmPeer) (B:=B)).
Abbreviation Routing := (KademliaRouting (B:=B)).
Implicit Types (pm : Manager) (r : Routing).

Record CandidateSnapshot := mkCandSnapshot {
  sn_limits : DepthAwareLimits;
  sn_depth : Z;
  sn_in_progress : gset Z;
  sn_queued : gset Z;
}.

Implicit Types (sn : CandidateSnapshot).

Definition peer_is_in_backoff (now p : Z) pm : bool := is_some_and (is_in_backoff now) (pm_peers pm !! p).

Definition is_eligible (now p : Z) pm sn : bool :=
  negb (bool_decide (p ∈ sn_in_progress sn)) && negb (bool_decide (p ∈ sn_queued sn)) && not_banned pm p &&
  negb (peer_is_in_backoff now p pm).

Record CandidateSelector := mkSelector {
  cs_candidates : list Z;
  cs_max : Z;
  cs_bin_selections : gmap Z Z;
}.

Implicit Types (s : CandidateSelector).

Definition selector_new (max_candidates : Z) : CandidateSelector := mkSelector [] max_candidates ∅.
Definition is_full s : bool := bool_decide (cs_max s <= Z.of_nat (length (cs_candidates s))).
Definition remaining s : Z := u64_saturating_sub (cs_max s) (Z.of_nat (length (cs_candidates s))).
Definition bin_selected (bin : Z) s : Z := default 0 (cs_bin_selections s !! bin).

(** A selection at one moment: the clock, the snapshot, the connected index, the
    manager and the counts of the routing table. *)
Context (now : Z) (sn : CandidateSnapshot) (connected : ProximityIndex (B:=B)) (pm : Manager) (counts : Z → Z).

Abbreviation connected_to p := (exists_in proximity max_po p connected).
Abbreviation wants_more bin n := (needs_more bin (sn_depth sn) n (sn_limits sn)).

Definition try_add_with_bin_capacity (p bin effective_count : Z) s : bool * CandidateSelector :=
  if is_full s then (false, s)
  else if connected_to p then (false, s)
  else if negb (is_eligible now p pm sn) then (false, s)
  else if decide (p ∈ cs_candidates s) then (false, s)
  else if negb (wants_more bin (effective_count + bin_selected bin s)) then (false, s)
  else
    (true, mkSelector (cs_candidates s ++ [p]) (cs_max s) (<[bin := bin_selected bin s + 1]> (cs_bin_selections s))).

(** The dialable peers of a bin that are not connected. *)
Definition supply (bin : Z) : list Z := dialable_overlays_in_bin_excluding now bin (λ p, connected_to p) pm.

Fixpoint neighborhood_peers_loop (peers : list Z) (bin effective : Z) s : CandidateSelector :=
  match peers with
  | [] => s
  | p :: peers =>
      if is_full s then s
      else if negb (wants_more bin (effective + bin_selected bin s)) then s
      else neighborhood_peers_loop peers bin effective (try_add_with_bin_capacity p bin effective s).2
  end.

Fixpoint neighborhood_loop (bins : list Z) s : CandidateSelector :=
  match bins with
  | [] => s
  | bin :: bins =>
      if is_full s then s
      else
        let effective := counts bin in
        if negb (wants_more bin (effective + bin_selected bin s)) then neighborhood_loop bins s
        else neighborhood_loop bins (neighborhood_peers_loop (supply bin) bin effective s)
  end.

Definition select_neighborhood_candidates (max_bin : Z) s : CandidateSelector :=
  neighborhood_loop (rev (neighborhood_bins (sn_depth sn) max_bin)) s.

Definition bin_stat s (bin : Z) : option (Z * Z * Z) :=
  let effective := counts bin in
  let n := effective + bin_selected bin s in
  if negb (wants_more bin n) then None
  else
    let d := deficit bin (sn_depth sn) n (sn_limits sn) in
    if decide (0 < d) then Some (bin, effective, d) else None.

Fixpoint balanced_peers_loop (peers : list Z) (bin effective added to_add : Z) s : CandidateSelector :=
  match peers with
  | [] => s
  | p :: peers =>
      if bool_decide (to_add <= added) || is_full s then s
      else
        match try_add_with_bin_capacity p bin effective s with
        | (true, s) => balanced_peers_loop peers bin effective (added + 1) to_add s
        | (false, s) => balanced_peers_loop peers bin effective added to_add s
        end
  end.

Fixpoint balanced_loop (stats : list (Z * Z * Z)) s : CandidateSelector :=
  match stats with
  | [] => s
  | (bin, effective, d) :: stats =>
      if is_full s then s
      else balanced_loop stats (balanced_peers_loop (supply bin) bin effective 0 (Z.min d (remaining s)) s)
  end.

Definition select_balanced_candidates s : CandidateSelector :=
  if decide (sn_depth sn = 0) then s
  else balanced_loop (sort_desc (λ x, x.1.1) (omap (bin_stat s) (balanced_bins (sn_depth sn)))) s.
End candidates.

(** ** Evaluation *)

Section evaluate.
Context {SwarmPeer : Type} `{LH : LinkedHashSet B} (overlay_of : SwarmPeer → Z) (proximity : Z → Z) (max_po bin_max : Z).

Abbreviation Manager := (PeerManager (SwarmPeer:=SwarmPeer) (B:=B)).
Abbreviation Routing := (KademliaRouting (B:=B)).
Implicit Types (pm : Manager) (r : Routing).

Definition capture_candidate_state (depth : Z) r q : CandidateSnapshot :=
  mkCandSnapshot (kd_limits r) depth (dom (kd_phases r)) (cq_pending q).

Definition max_bin : Z := if decide (max_po <= bin_max) then max_po else bin_max.

Definition selected_candidates (max_neighbor max_balanced now : Z) pm r q : list Z :=
  let depth := effective_depth bin_max (kd_depth r) (bin_sizes (pm_index pm)) (kd_limits r) in
  let sn := capture_candidate_state depth r q in
  let counts := λ bin, effective_count bin r in
  let s := selector_new (max_neighbor + max_balanced) in
  let s := select_neighborhood_candidates proximity max_po now sn (kd_connected r) pm counts max_bin s in
  let s := select_balanced_candidates proximity max_po now sn (kd_connected r) pm counts s in
  cs_candidates s.

Definition push_candidate q (p : Z) : CandidateQueues := (queue_push (bin_for proximity max_po p) p q).2.

Definition evaluate_connections (max_neighbor max_balanced now : Z) pm r q : CandidateQueues :=
  foldl push_candidate q (selected_candidates max_neighbor max_balanced now pm r q).

Definition pop_candidate q : option Z * CandidateQueues := pop_next q.

Definition requeue_candidate (p : Z) q : CandidateQueues := push_candidate q p.
End evaluate.

(** ** What a pass over the bins selects *)

Section passes.
Context {SwarmPeer : Type} `{LH : LinkedHashSet B} (proximity : Z → Z) (max_po : Z).
Context (Hmax : 0 <= max_po) (Hprox : ∀ a, 0 <= proximity a).
Context (now : Z) (sn : CandidateSnapshot) (connected : ProximityIndex (B:=B)).
Context (pm : PeerManager (SwarmPeer:=SwarmPeer) (B:=B)) (counts : Z → Z).
Context (Hix : index_ok proximity max_po (pm_index pm)).
Implicit Types (s : CandidateSelector) (bin p : Z).

Abbreviation binof := (bin_for proximity max_po).
Abbreviation supply_of bin := (supply proximity max_po now connected pm bin).
Abbreviation wants bin n := (needs_more bin (sn_depth sn) n (sn_limits sn)).
Abbreviation finite bin := (target bin (sn_depth sn) (sn_limits sn) ≠ usize_max).
Abbreviation try_add := (try_add_with_bin_capacity proximity max_po now sn connected pm).

Definition load bin s : Z := counts bin + bin_selected bin s.

(** A peer the evaluation may still pick: not being dialled, not queued. *)
Definition open p : Prop := p ∉ sn_in_progress sn ∧ p ∉ sn_queued sn.

Definition in_bin bin (l : list Z) : list Z := filter (λ p, binof p = bin) l.

Record selector_ok s : Prop := {
  so_nodup : NoDup (cs_candidates s);
  so_open : ∀ p, p ∈ cs_candidates s → p ∈ supply_of (binof p) ∧ open p;
  so_budget : Z.of_nat (length (cs_candidates s)) <= cs_max s;
  so_count : ∀ bin, bin_selected bin s = Z.of_nat (length (in_bin bin (cs_candidates s)));
  so_target : ∀ bin, finite bin → bin_selected bin s = 0 ∨ load bin s <= target bin (sn_depth sn) (sn_limits sn);
}.

(** [s'] is [s] with peers of [bin] added. *)
Record extends bin s s' : Prop := {
  ex_more : ∃ k, cs_candidates s' = cs_candidates s ++ k ∧ Forall (λ p, binof p = bin) k;
  ex_max : cs_max s' = cs_max s;
}.

(** Nothing is left to do in a bin. *)
Definition settled bin s : Prop :=
  wants bin (load bin s) = false ∨ ∀ p, p ∈ supply_of bin → open p → p ∈ cs_candidates s.

Lemma supply_spec bin p : 0 <= bin → p ∈ supply_of bin →
  binof p = bin ∧ exists_in proximity max_po p connected = false ∧ (is_eligible now p pm sn = true ↔ open p).
Proof.
  unfold supply, dialable_overlays_in_bin_excluding, peers_in_bin, is_eligible, peer_is_in_backoff, open.
  intros Hbin [Hd Hp]%list_elem_of_filter.
  apply Is_true_true in Hd. apply andb_true_iff in Hd as [[Hb Hc]%andb_true_iff Hd].
  destruct (pi_bins _ !! _) as [b|] eqn:E; [|by apply not_elem_of_nil in Hp].
  pose proof (ix_member _ _ _ Hix _ _ _ E Hp) as Hn. unfold bin_for in *. pose proof (Hprox p).
  split; [lia|]. split; [by apply negb_true_iff|]. rewrite Hb.
  destruct (pm_peers pm !! p) as [e|]; [|done]. simpl in *. unfold is_dialable in Hd.
  apply andb_true_iff in Hd as [_ Hk]. rewrite Hk, !andb_true_r, andb_true_iff, !negb_true_iff, !bool_decide_eq_false. done.
Qed.

Lemma extends_self bin s : extends bin s s.
Proof. split; [|done]. exists []. by rewrite app_nil_r. Qed.

Lemma extends_trans bin s1 s2 s3 : extends bin s1 s2 → extends bin s2 s3 → extends bin s1 s3.
Proof.
  intros [(k1 & E1 & F1) M1] [(k2 & E2 & F2) M2]. split; [|congruence].
  exists (k1 ++ k2). rewrite E2, E1, app_assoc. split; [done|by apply Forall_app].
Qed.

Lemma extends_elem bin s s' p : extends bin s s' → p ∈ cs_candidates s → p ∈ cs_candidates s'.
Proof. intros [(k & -> & _) _] Hp. apply elem_of_app. by left. Qed.

Lemma extends_other bin s s' b : selector_ok s → selector_ok s' → extends bin s s' → b ≠ bin →
  bin_selected b s' = bin_selected b s.
Proof.
  intros H H' [(k & E & Hk) _] Hb. rewrite (so_count _ H), (so_count _ H'), E. unfold in_bin. rewrite filter_app, length_app.
  assert (filter (λ p, binof p = b) k = []) as ->; [|simpl; lia].
  clear E. induction Hk as [|x k Hx _ IH]; [done|]. rewrite filter_cons_False by congruence. done.
Qed.

Lemma extends_grows bin s s' b : selector_ok s → selector_ok s' → extends bin s s' → load b s <= load b s'.
Proof.
  intros H H' [(k & E & _) _]. unfold load. rewrite (so_count _ H), (so_count _ H'), E. unfold in_bin.
  rewrite filter_app, length_app. lia.
Qed.

Lemma wants_mono bin n m : n <= m → wants bin n = false → wants bin m = false.
Proof. unfold needs_more. case_decide; [done|]. rewrite !bool_decide_eq_false. lia. Qed.

Lemma extends_settled bin s s' b : selector_ok s → selector_ok s' → extends bin s s' → settled b s → settled b s'.
Proof.
  intros H H' He [Hw|Ha]; [left|right].
  - exact (wants_mono _ _ _ (extends_grows _ _ _ _ H H' He) Hw).
  - intros p Hp Ho. eapply extends_elem; eauto.
Qed.

Lemma extends_full bin s s' : extends bin s s' → is_full s = true → is_full s' = true.
Proof.
  unfold is_full. intros [(k & E & _) M] Hf. rewrite E, M, length_app. apply bool_decide_eq_true in Hf.
  apply bool_decide_eq_true. lia.
Qed.

(** Adding a peer of the supply: it is in, or the bin is settled for it. *)
Lemma try_add_spec bin p s : 0 <= bin → p ∈ supply_of bin → selector_ok s → is_full s = false →
  let '(ok, s') := try_add p bin (counts bin) s in
  selector_ok s' ∧ extends bin s s' ∧
  (if ok then p ∈ cs_candidates s' ∧ wants bin (load bin s) = true ∧ bin_selected bin s' = bin_selected bin s + 1 ∧
         Z.of_nat (length (cs_candidates s')) = Z.of_nat (length (cs_candidates s)) + 1
   else s' = s ∧ (wants bin (load bin s) = false ∨ (open p → p ∈ cs_candidates s))).
Proof.
  intros Hbin Hp Hs Hf. destruct (supply_spec _ _ Hbin Hp) as (Hb & Hc & He).
  unfold try_add_with_bin_capacity. rewrite Hf, Hc. cbn [negb].
  pose proof (extends_self bin s) as Hr.
  destruct (is_eligible _ _ _ _) eqn:El; cbn [negb];
    [|split_and!; [done..|right; intros ?%He; done]].
  destruct (decide (p ∈ cs_candidates s)) as [Hin|Hin]; [by split_and!; auto|].
  fold (load bin s). destruct (wants bin (load bin s)) eqn:Ew; cbn [negb]; [|by split_and!; auto].
  assert (Hsel : ∀ b, bin_selected b (mkSelector (cs_candidates s ++ [p]) (cs_max s)
            (<[bin := bin_selected bin s + 1]> (cs_bin_selections s))) =
          bin_selected b s + (if decide (bin = b) then 1 else 0)).
  { intros b. unfold bin_selected. cbn [cs_bin_selections]. rewrite lookup_insert. case_decide as Hbb; [by subst b|].
    rewrite Z.add_0_r. done. }
  unfold is_full in Hf. apply bool_decide_eq_false in Hf.
  split_and!.
  - split; cbn [cs_candidates cs_max].
    + apply NoDup_app. split; [by apply so_nodup|]. split; [|apply NoDup_singleton].
      intros x Hx ->%list_elem_of_singleton. done.
    + intros x [Hx| ->%list_elem_of_singleton]%elem_of_app; [by apply (so_open s Hs)|]. rewrite Hb. by split; [|apply He].
    + rewrite length_app. simpl. lia.
    + intros b. rewrite Hsel, (so_count _ Hs). unfold in_bin. rewrite filter_app, length_app, filter_cons, filter_nil, Hb.
      case_decide; simpl; lia.
    + intros b Hfin. unfold load. rewrite Hsel. destruct (decide (bin = b)) as [<-|]; [|rewrite Z.add_0_r; by apply (so_target s Hs)].
      right. unfold needs_more in Ew. rewrite decide_False in Ew by done. apply bool_decide_eq_true in Ew. unfold load in Ew. lia.
  - split; [|done]. exists [p]. split; [done|]. by constructor.
  - apply elem_of_app. right. apply list_elem_of_singleton. done.
  - done.
  - rewrite Hsel. rewrite decide_True by done. done.
  - cbn [cs_candidates]. rewrite length_app. simpl. lia.
Qed.

(** What the handling of one bin promises. *)
Definition bin_done bin s s' : Prop :=
  selector_ok s' ∧ extends bin s s' ∧ (settled bin s' ∨ is_full s' = true).

(** Part of a bin's supply: the peers of [ps] are in, or no more are wanted. *)
Definition peers_done bin (ps : list Z) s s' : Prop :=
  selector_ok s' ∧ extends bin s s' ∧
  (is_full s' = true ∨ wants bin (load bin s') = false ∨ ∀ p, p ∈ ps → open p → p ∈ cs_candidates s').

Lemma peers_done_cons bin p ps s s1 s' : selector_ok s1 → extends bin s s1 →
  (wants bin (load bin s1) = false ∨ (open p → p ∈ cs_candidates s1)) → peers_done bin ps s1 s' → peers_done bin (p :: ps) s s'.
Proof.
  intros H1 E1 Hp (H' & E' & D). split; [done|]. split; [by eapply extends_trans|].
  destruct D as [?|[?|D]]; [by left|by right; left|]. destruct Hp as [Hw|Hp].
  - right. left. exact (wants_mono _ _ _ (extends_grows _ _ _ _ H1 H' E') Hw).
  - right. right. intros x [->|Hx]%elem_of_cons Ho; [eapply extends_elem; eauto|by apply D].
Qed.

Lemma neighborhood_peers_spec bin ps s : 0 <= bin → (∀ p, p ∈ ps → p ∈ supply_of bin) → selector_ok s →
  peers_done bin ps s (neighborhood_peers_loop proximity max_po now sn connected pm ps bin (counts bin) s).
Proof.
  intros Hbin. revert s. induction ps as [|p ps IH]; intros s Hps Hs; cbn [neighborhood_peers_loop].
  - split; [done|]. split; [apply extends_self|]. right. right. by intros ? ?%not_elem_of_nil.
  - destruct (is_full s) eqn:Hf; [split; [done|]; split; [apply extends_self|by left]|].
    fold (load bin s). destruct (wants bin (load bin s)) eqn:Hw; cbn [negb];
      [|split; [done|]; split; [apply extends_self|by right; left]].
    pose proof (try_add_spec bin p s Hbin (Hps p ltac:(left)) Hs Hf) as T.
    destruct (try_add _ _ _ _) as [ok s1]. cbn [snd]. destruct T as (H1 & E1 & T).
    eapply peers_done_cons; [done..| |apply IH; [|done]; intros; apply Hps; by right].
    destruct ok; [right; by intros _; destruct T|]. destruct T as [-> T]. done.
Qed.

Lemma balanced_peers_spec bin ps added to_add s :
  0 <= bin → 0 <= target bin (sn_depth sn) (sn_limits sn) → finite bin → (∀ p, p ∈ ps → p ∈ supply_of bin) → selector_ok s →
  to_add - added = Z.min (deficit bin (sn_depth sn) (load bin s) (sn_limits sn)) (remaining s) →
  peers_done bin ps s (balanced_peers_loop proximity max_po now sn connected pm ps bin (counts bin) added to_add s).
Proof.
  intros Hbin Ht Hfin. revert added s. induction ps as [|p ps IH]; intros added s Hps Hs Ha; cbn [balanced_peers_loop].
  - split; [done|]. split; [apply extends_self|]. right. right. by intros ? ?%not_elem_of_nil.
  - unfold deficit in *. rewrite decide_False in Ha by done. unfold remaining, u64_saturating_sub in Ha.
    destruct (is_full s) eqn:Hf; [rewrite orb_true_r; split; [done|]; split; [apply extends_self|by left]|].
    assert (Hf' := Hf). unfold is_full in Hf'. apply bool_decide_eq_false in Hf'.
    rewrite orb_false_r. case_bool_decide as Hd.
    { split; [done|]. split; [apply extends_self|]. right. left. unfold needs_more. rewrite decide_False by done.
      apply bool_decide_eq_false. lia. }
    pose proof (try_add_spec bin p s Hbin (Hps p ltac:(left)) Hs Hf) as T.
    destruct (try_add _ _ _ _) as [ok s1]. destruct T as (H1 & E1 & T). destruct ok.
    + destruct T as (Hin & Hw & Hsel & Hlen). eapply peers_done_cons; [done..|by right|].
      apply IH; [intros; apply Hps; by right|done|]. rewrite decide_False by done.
      unfold remaining, u64_saturating_sub, load in *. rewrite (ex_max _ _ _ E1), Hsel, Hlen. lia.
    + destruct T as [-> T]. eapply peers_done_cons; [done..|].
      apply IH; [intros; apply Hps; by right|done|]. rewrite decide_False by done. exact Ha.
Qed.

Lemma peers_bin_done bin s s' : peers_done bin (supply_of bin) s s' → bin_done bin s s'.
Proof.
  intros (H & E & D). split; [done|]. split; [done|]. destruct D as [?|[?|D]]; [by right|left; by left|left; by right].
Qed.

(** Bins handled one after the other. *)
Inductive pass : list Z → CandidateSelector → CandidateSelector → Prop :=
| pass_nil s : pass [] s s
| pass_cons bin bins s s1 s2 : bin_done bin s s1 → pass bins s1 s2 → pass (bin :: bins) s s2.

Lemma bin_done_full bin s : selector_ok s → is_full s = true → bin_done bin s s.
Proof. intros Hs Hf. split; [done|]. split; [apply extends_self|by right]. Qed.

Lemma pass_full bins s : selector_ok s → is_full s = true → pass bins s s.
Proof. intros Hs Hf. induction bins; econstructor; eauto using bin_done_full. Qed.

Lemma neighborhood_pass bins s : Forall (Z.le 0) bins → selector_ok s →
  pass bins s (neighborhood_loop proximity max_po now sn connected pm counts bins s).
Proof.
  intros Hb. revert s. induction Hb as [|bin bins Hbin _ IH]; intros s Hs; cbn [neighborhood_loop]; [constructor|].
  destruct (is_full s) eqn:Hf; [by apply pass_full|]. fold (load bin s).
  destruct (wants bin (load bin s)) eqn:Hw; cbn [negb].
  - assert (D := peers_bin_done _ _ _ (neighborhood_peers_spec bin (supply_of bin) s Hbin ltac:(done) Hs)).
    econstructor; [exact D|]. apply IH. by destruct D.
  - econstructor; [|by apply IH]. split; [done|]. split; [apply extends_self|]. left. by left.
Qed.

Lemma pass_ok bins s s' : pass bins s s' → selector_ok s → selector_ok s' ∧ cs_max s' = cs_max s.
Proof.
  induction 1 as [|bin bins s s1 s2 (H1 & E1 & _) _ IH]; [done|]. intros _. destruct (IH H1) as [H2 M].
  split; [done|]. rewrite M. by destruct E1.
Qed.

Lemma pass_frame bins s s' b : pass bins s s' → selector_ok s → b ∉ bins → bin_selected b s' = bin_selected b s.
Proof.
  induction 1 as [|bin bins s s1 s2 (H1 & E1 & _) _ IH]; [done|]. intros Hs [Hb Hbs]%not_elem_of_cons.
  rewrite IH by done. by eapply extends_other.
Qed.

Lemma pass_elem bins s s' p : pass bins s s' → p ∈ cs_candidates s' → p ∈ cs_candidates s ∨ binof p ∈ bins.
Proof.
  induction 1 as [|bin bins s s1 s2 (H1 & [(k & E & Hk) _] & _) _ IH]; [by left|].
  intros [Hp|Hp]%IH; [|right; by right]. rewrite E in Hp. apply elem_of_app in Hp as [Hp|Hp]; [by left|right].
  rewrite Forall_forall in Hk. rewrite (Hk p) by done. left.
Qed.

(** A bin is served: settled, or the budget went to it and to deeper bins. *)
Definition served b s : Prop :=
  settled b s ∨ is_full s = true ∧ ∀ p, p ∈ cs_candidates s → b <= binof p.

Lemma served_extends bin b s s' : selector_ok s → selector_ok s' → extends bin s s' → served b s → served b s'.
Proof.
  intros H H' He [Hd|[Hf Hb]]; [left; exact (extends_settled _ _ _ _ H H' He Hd)|right]. split; [by eapply extends_full|].
  destruct He as [(k & E & _) M]. pose proof (so_budget _ H') as Hl. rewrite E, M, length_app in Hl.
  unfold is_full in Hf. apply bool_decide_eq_true in Hf.
  destruct k; [|simpl in Hl; lia]. rewrite E, app_nil_r. done.
Qed.

Lemma pass_preserves bins s s' b : pass bins s s' → selector_ok s → served b s → served b s'.
Proof.
  induction 1 as [|bin bins s s1 s2 (H1 & E1 & _) _ IH]; [done|]. intros Hs Hb. apply IH; [done|].
  by eapply served_extends.
Qed.

Lemma pass_served bins s s' : pass bins s s' → selector_ok s → StronglySorted (flip Z.lt) bins →
  (∀ p b, p ∈ cs_candidates s → b ∈ bins → b < binof p) → ∀ b, b ∈ bins → served b s'.
Proof.
  induction 1 as [|bin bins s s1 s2 (H1 & E1 & D) Hpass IH]; [by intros _ _ _ b ?%not_elem_of_nil|].
  intros Hs [Hsrt Hgt]%StronglySorted_inv Hdeep. rewrite Forall_forall in Hgt.
  assert (Hcand : ∀ p, p ∈ cs_candidates s1 → bin <= binof p).
  { destruct E1 as [(k & E & Hk) _]. rewrite E. rewrite Forall_forall in Hk. intros p [Hp|Hp]%elem_of_app.
    - specialize (Hdeep p bin Hp ltac:(left)). lia.
    - rewrite (Hk p) by done. lia. }
  intros b [->|Hb]%elem_of_cons.
  - eapply pass_preserves; [done..|]. destruct D as [D|D]; [by left|right; by split].
  - apply IH; [done..| |done]. intros p c Hp Hc. specialize (Hgt c Hc). unfold flip in Hgt.
    specialize (Hcand p Hp). lia.
Qed.

Lemma balanced_pass stats s :
  NoDup stats.*1.*1 → selector_ok s →
  Forall (λ x, 0 <= x.1.1 ∧ 0 <= target x.1.1 (sn_depth sn) (sn_limits sn) ∧ finite x.1.1 ∧ x.1.2 = counts x.1.1 ∧
    x.2 = deficit x.1.1 (sn_depth sn) (load x.1.1 s) (sn_limits sn)) stats →
  pass stats.*1.*1 s (balanced_loop proximity max_po now sn connected pm stats s).
Proof.
  revert s. induction stats as [|[[bin c] d] stats IH]; intros s Hnd Hs Hst; cbn [balanced_loop]; [constructor|].
  destruct (is_full s) eqn:Hf; [by apply pass_full|]. cbn in Hnd. apply NoDup_cons in Hnd as [Hni Hnd].
  apply Forall_cons in Hst as [(Hb & Ht & Hfin & Ec & Ed) Hst]. simpl in Hb, Ht, Hfin, Ec, Ed. subst c.
  assert (D : bin_done bin s (balanced_peers_loop proximity max_po now sn connected pm (supply_of bin) bin (counts bin) 0
              (Z.min d (remaining s)) s)).
  { apply peers_bin_done, balanced_peers_spec; [done..|]. rewrite <- Ed. lia. }
  cbn. econstructor; [exact D|]. destruct D as (H1 & E1 & _). apply IH; [done..|].
  rewrite Forall_forall in Hst |- *. intros x Hx. destruct (Hst x Hx) as (? & ? & ? & ? & ->). split_and!; [done..|].
  unfold load. rewrite (extends_other _ _ _ x.1.1 Hs H1 E1); [done|]. intros <-. apply Hni.
  apply list_elem_of_fmap. exists x.1. split; [done|]. apply list_elem_of_fmap. exists x. by split.
Qed.
End passes.

(** Configured limits are below the largest machine integer, which stands for
    no limit. *)
Record limits_below_max (l : DepthAwareLimits) : Prop := {
  lb_total : 0 <= dl_total_target l < usize_max;
  lb_nominal : dl_nominal l < usize_max;
  lb_saturation : 0 <= dl_saturation l < usize_max;
}.

Lemma target_nonneg bin depth l : limits_below_max l → 0 <= target bin depth l.
Proof.
  intros [? ? ?]. unfold target. case_decide; [lia|]. destruct (depth_contains _ _); [vm_compute; congruence|lia].
Qed.

Lemma taper_finite bin depth l : limits_below_max l → 0 <= bin < depth → target bin depth l ≠ usize_max.
Proof.
  intros [Ht Hn Hs] Hb. unfold target. rewrite decide_False by lia. unfold depth_contains. rewrite bool_decide_eq_false_2 by lia.
  set (w := (depth * (depth + 1)) `div` 2).
  assert (bin + 1 <= w) by (apply Z.div_le_lower_bound; nia).
  assert (u64_saturating_mul (dl_total_target l) (bin + 1) `div` w <= dl_total_target l); [|lia].
  apply Z.div_le_upper_bound; [lia|]. unfold u64_saturating_mul. nia.
Qed.

Lemma seqZ_sorted m n : StronglySorted Z.lt (seqZ m n).
Proof.
  destruct (decide (n <= 0)); [rewrite seqZ_nil by lia; constructor|].
  assert (0 <= n) as Hn by lia. revert m. clear n0. pattern n. apply natlike_ind; [| |done]; clear n Hn.
  - intros m. constructor.
  - intros n Hn IH m. rewrite seqZ_cons by lia. rewrite Z.pred_succ. constructor; [apply IH|].
    apply Forall_forall. intros x [? _]%elem_of_seqZ. lia.
Qed.

Lemma elem_of_rev {A} (x : A) l : x ∈ rev l ↔ x ∈ l.
Proof. rewrite rev_alt. apply elem_of_reverse. Qed.

Lemma StronglySorted_rev {A} (R : A → A → Prop) l : StronglySorted R l → StronglySorted (flip R) (rev l).
Proof.
  induction 1 as [|x l _ IH Hx]; simpl; [constructor|]. apply StronglySorted_app. split_and!; [|done|by repeat constructor].
  intros y z Hy ->%list_elem_of_singleton. rewrite Forall_forall in Hx. by apply Hx, elem_of_rev.
Qed.

Lemma StronglySorted_strict {A} (key : A → Z) l : NoDup (key <$> l) → StronglySorted (λ x y, key y <= key x) l →
  StronglySorted (flip Z.lt) (key <$> l).
Proof.
  intros Hnd Hs. induction Hs as [|x l _ IH Hx]; cbn in *; [constructor|]. apply NoDup_cons in Hnd as [Hni Hnd].
  constructor; [by apply IH|]. rewrite Forall_fmap. apply Forall_forall. intros y Hy. rewrite Forall_forall in Hx.
  specialize (Hx y Hy). unfold flip. simpl. assert (key y ≠ key x); [|lia]. intros E. apply Hni. rewrite <- E. apply list_elem_of_fmap. eauto.
Qed.

Section evaluation.
Context {SwarmPeer : Type} `{LH : LinkedHashSet B} (proximity : Z → Z) (max_po bin_max : Z).
Context (Hmax : 0 <= max_po) (Hprox : ∀ a, 0 <= proximity a).
Implicit Types (pm : PeerManager (SwarmPeer:=SwarmPeer) (B:=B)) (r : KademliaRouting (B:=B)).

Section one.
Context (now : Z) (sn : CandidateSnapshot) (connected : ProximityIndex (B:=B)).
Context (pm : PeerManager (SwarmPeer:=SwarmPeer) (B:=B)) (counts : Z → Z) (maxb : Z).
Context (Hix : index_ok proximity max_po (pm_index pm)) (Hl : limits_below_max (sn_limits sn)) (Hd : 0 <= sn_depth sn).

Abbreviation sel_ok := (selector_ok proximity max_po now sn connected pm counts).
Abbreviation pass_of := (pass proximity max_po now sn connected pm counts).
Abbreviation served_at := (served proximity max_po now sn connected pm counts).

Lemma selector_new_ok n : 0 <= n → sel_ok (selector_new n).
Proof.
  intros Hn. split; simpl.
  - constructor.
  - by intros p ?%not_elem_of_nil.
  - done.
  - intros bin. unfold bin_selected. simpl. by rewrite lookup_empty.
  - intros bin _. left. unfold bin_selected. simpl. by rewrite lookup_empty.
Qed.

Lemma bin_stat_some s bin x : bin_stat sn counts s bin = Some x →
  x = (bin, counts bin, deficit bin (sn_depth sn) (load counts bin s) (sn_limits sn)).
Proof. unfold bin_stat, load. destruct (negb _); [done|]. case_decide; [|done]. by intros [= <-]. Qed.

Lemma bin_stats_bins s l : (omap (bin_stat sn counts s) l).*1.*1 `sublist_of` l.
Proof.
  induction l as [|bin l IH]; [constructor|]. cbn [omap list_omap].
  destruct (bin_stat sn counts s bin) as [x|] eqn:E; [|by constructor]. apply bin_stat_some in E as ->. cbn. by constructor.
Qed.

(** A bin without a stat wants nothing. *)
Lemma bin_stat_none s bin : 0 <= bin < sn_depth sn → bin_stat sn counts s bin = None →
  settled proximity max_po now sn connected pm counts bin s.
Proof.
  intros Hb. unfold bin_stat. fold (load counts bin s). intros H. left. unfold needs_more, deficit in *.
  pose proof (taper_finite bin _ _ Hl Hb) as Hf. rewrite !decide_False in * by done.
  destruct (bool_decide _) eqn:Hc; [|done]. apply bool_decide_eq_true in Hc. cbn [negb] in H. unfold u64_saturating_sub in H. rewrite !(decide_False (P := target _ _ _ = _)) in H by done.
  destruct (decide (0 < _)); [done|lia].
Qed.

Lemma neighborhood_selected s : sel_ok s →
  pass_of (rev (neighborhood_bins (sn_depth sn) maxb)) s
    (select_neighborhood_candidates proximity max_po now sn connected pm counts maxb s).
Proof.
  intros Hs. apply neighborhood_pass; [done..| |done]. apply Forall_rev, Forall_forall.
  intros b [? _]%elem_of_seqZ. lia.
Qed.

Lemma balanced_selected s : sel_ok s → ∃ bins,
  (∀ b, b ∈ bins → 0 <= b < sn_depth sn) ∧ StronglySorted (flip Z.lt) bins ∧
  (∀ b, 0 <= b < sn_depth sn → b ∈ bins ∨ settled proximity max_po now sn connected pm counts b s) ∧
  pass_of bins s (select_balanced_candidates proximity max_po now sn connected pm counts s).
Proof.
  intros Hs. unfold select_balanced_candidates. case_decide as H0.
  { exists []. split_and!; [by intros b ?%not_elem_of_nil|constructor|lia|constructor]. }
  set (stats := omap _ _). pose proof (sort_desc_perm (λ x : Z * Z * Z, x.1.1) stats) as Hperm.
  assert (Hsub := bin_stats_bins s (balanced_bins (sn_depth sn))). fold stats in Hsub.
  assert (Hrange : ∀ x, x ∈ stats → 0 <= x.1.1 < sn_depth sn).
  { intros x Hx. assert (x.1.1 ∈ balanced_bins (sn_depth sn)) as [? ?]%elem_of_seqZ; [|lia].
    eapply elem_of_sublist; [|exact Hsub]. apply list_elem_of_fmap. exists x.1. split; [done|]. apply list_elem_of_fmap. eauto. }
  assert (Hnd : NoDup (sort_desc (λ x : Z * Z * Z, x.1.1) stats).*1.*1).
  { rewrite Hperm. eapply sublist_NoDup; [|exact Hsub]. apply NoDup_seqZ. }
  exists (sort_desc (λ x, x.1.1) stats).*1.*1. split_and!.
  - intros b (y & -> & (x & -> & Hx)%list_elem_of_fmap)%list_elem_of_fmap. rewrite Hperm in Hx. by apply Hrange.
  - rewrite <- list_fmap_compose in Hnd |- *. by apply (StronglySorted_strict (λ x : Z * Z * Z, x.1.1)), sort_desc_sorted.
  - intros b Hb. destruct (bin_stat sn counts s b) as [x|] eqn:E; [left|right; by apply bin_stat_none].
    rewrite Hperm. pose proof (bin_stat_some _ _ _ E) as Ex. apply list_elem_of_fmap. exists x.1. rewrite Ex. split; [done|].
    apply list_elem_of_fmap. exists x. rewrite Ex. split; [done|]. apply list_elem_of_omap. exists b. rewrite <- Ex. split; [|done].
    apply elem_of_seqZ. lia.
  - apply balanced_pass; [done..|]. apply Forall_forall. intros x Hx. rewrite Hperm in Hx. specialize (Hrange x Hx).
    apply list_elem_of_omap in Hx as (b & _ & ->%bin_stat_some). simpl in *.
    split_and!; [lia|by apply target_nonneg|by apply taper_finite|done..].
Qed.

(** Both passes: every bin up to the deepest one is served. *)
Lemma selection_served n : 0 <= n →
  let s := select_balanced_candidates proximity max_po now sn connected pm counts
    (select_neighborhood_candidates proximity max_po now sn connected pm counts maxb (selector_new n)) in
  sel_ok s ∧ cs_max s = n ∧ ∀ b, 0 <= b <= maxb → served_at b s.
Proof.
  intros Hn s. pose proof (selector_new_ok n Hn) as H0. pose proof (neighborhood_selected _ H0) as P1.
  destruct (pass_ok _ _ _ _ _ _ _ _ _ _ P1 H0) as [H1 M1].
  destruct (balanced_selected _ H1) as (bins & Hb & Hsrt & Hrest & P2).
  destruct (pass_ok _ _ _ _ _ _ _ _ _ _ P2 H1) as [H2 M2]. fold s in P2, H2, M2.
  split; [done|]. split; [by rewrite M2, M1|]. intros b Hbm.
  assert (Hnb : ∀ p, p ∈ cs_candidates (select_neighborhood_candidates proximity max_po now sn connected pm counts maxb (selector_new n)) →
          sn_depth sn <= bin_for proximity max_po p).
  { intros p Hp. destruct (pass_elem _ _ _ _ _ _ _ _ _ _ p P1 Hp) as [Hp'|Hp']; [by apply not_elem_of_nil in Hp'|].
    apply elem_of_rev, elem_of_seqZ in Hp'. lia. }
  destruct (decide (b < sn_depth sn)) as [Hlt|Hge].
  - destruct (Hrest b ltac:(lia)) as [Hin|Hset]; [|eapply pass_preserves; [done..|by left]].
    eapply pass_served; [done..| |done]. intros p c Hp Hc. specialize (Hb c Hc). specialize (Hnb p Hp). lia.
  - eapply pass_preserves; [done..|]. eapply pass_served; [done..| | |].
    + apply StronglySorted_rev, seqZ_sorted.
    + by intros p c ?%not_elem_of_nil.
    + apply elem_of_rev, elem_of_seqZ. lia.
Qed.
End one.

(** C14: an evaluation picks, without repeats and within the budget, only peers that
    are known, not banned, not in backoff, not connected, not being dialled and
    not queued; it never lifts a bin with a finite target past that target; and
    every bin up to the deepest ends with nothing left to pick (its target met or
    all its open peers picked), unless the whole budget went to peers of that bin
    and deeper ones. *)
Theorem candidate_selection max_neighbor max_balanced now pm r q :
  0 <= max_neighbor + max_balanced → 0 <= kd_depth r → limits_below_max (kd_limits r) →
  index_ok proximity max_po (pm_index pm) →
  let depth := effective_depth bin_max (kd_depth r) (bin_sizes (pm_index pm)) (kd_limits r) in
  let l := selected_candidates proximity max_po bin_max max_neighbor max_balanced now pm r q in
  let total bin := effective_count bin r + Z.of_nat (length (in_bin proximity max_po bin l)) in
  let open p := kd_phases r !! p = None ∧ p ∉ cq_pending q in
  let dialable p := not_banned pm p = true ∧ exists_in proximity max_po p (kd_connected r) = false ∧
    ∃ e, pm_peers pm !! p = Some e ∧ is_dialable now e = true in
  NoDup l ∧ Z.of_nat (length l) <= max_neighbor + max_balanced ∧
  (∀ p, p ∈ l → dialable p ∧ open p) ∧
  (∀ bin, target bin depth (kd_limits r) ≠ usize_max → in_bin proximity max_po bin l = [] ∨ total bin <= target bin depth (kd_limits r)) ∧
  (∀ bin, 0 <= bin <= max_bin max_po bin_max →
    needs_more bin depth (total bin) (kd_limits r) = false ∨
    (∀ p, p ∈ peers_in_bin bin (pm_index pm) → dialable p → open p → p ∈ l) ∨
    Z.of_nat (length l) = max_neighbor + max_balanced ∧ ∀ p, p ∈ l → bin <= bin_for proximity max_po p).
Proof.
  intros Hn Hd Hl Hix depth l total open dialable.
  assert (Hsup : ∀ bin p, p ∈ supply proximity max_po now (kd_connected r) pm bin ↔ p ∈ peers_in_bin bin (pm_index pm) ∧ dialable p).
  { intros bin p. unfold supply, dialable_overlays_in_bin_excluding, dialable.
    rewrite list_elem_of_filter, Is_true_true, !andb_true_iff, negb_true_iff.
    destruct (pm_peers pm !! p) as [e|]; simpl; [|by split; intros H; decompose [and ex] H].
    split; intros H; decompose [and ex] H; simplify_eq; eauto 10. }
  assert (Hop : ∀ p, Candidates.open (capture_candidate_state depth r q) p ↔ open p).
  { intros p. unfold Candidates.open, open. simpl. by rewrite not_elem_of_dom. }
  destruct (selection_served now (capture_candidate_state depth r q) (kd_connected r) pm (λ bin, effective_count bin r)
    (max_bin max_po bin_max) Hix Hl ltac:(simpl; unfold depth, effective_depth; lia) _ Hn) as (H & M & Hserved).
  fold (selected_candidates proximity max_po bin_max max_neighbor max_balanced now pm r q) in H, M, Hserved.
  destruct H as [H1 H2 H3 H4 H5]. rewrite M in H3. split_and!; [exact H1|exact H3| | |].
  - intros p Hp. destruct (H2 p Hp) as [[_ Hs]%Hsup Ho%Hop]. done.
  - intros bin Hf. specialize (H5 bin Hf). unfold load in H5. rewrite H4 in H5. simpl in H5.
    destruct H5 as [H5|H5]; [left|by right]. by apply length_zero_iff_nil, Nat2Z.inj.
  - intros bin Hb. destruct (Hserved bin Hb) as [[Hw|Ha]|[Hf Hb']].
    + left. unfold load in Hw. rewrite H4 in Hw. exact Hw.
    + right. left. intros p Hp Hdl Ho. apply Ha; [by apply Hsup|by apply Hop].
    + right. right. unfold is_full in Hf. apply bool_decide_eq_true in Hf. rewrite M in Hf. split; [|exact Hb'].
      apply Z.le_antisymm; [exact H3|exact Hf].
Qed.

(** ** The queues *)

(** The last [cap] entries. *)
Definition keep_last (cap : Z) (l : list Z) : list Z := drop (length l - Z.to_nat cap) l.

Record queues_ok q : Prop := {
  qo_bins : length (cq_bins q) = num_bins max_po;
  qo_queue : ∀ n queue, cq_bins q !! n = Some queue →
    NoDup queue ∧ Z.of_nat (length queue) <= cq_max_per_bin q ∧ ∀ p, p ∈ queue → n = Z.to_nat (bin_for proximity max_po p);
  qo_pending : ∀ p, p ∈ cq_pending q ↔ ∃ queue, cq_bins q !! Z.to_nat (bin_for proximity max_po p) = Some queue ∧ p ∈ queue;
}.

Lemma evict_oldest_spec queue pending cap : 0 <= cap →
  evict_oldest queue pending cap =
  (keep_last cap queue, pending ∖ list_to_set (take (length queue - Z.to_nat cap) queue)).
Proof.
  intros Hc. unfold keep_last. revert pending. induction queue as [|p queue IH]; intros pending; cbn [evict_oldest].
  - simpl. f_equal. set_solver.
  - case_decide as Hl.
    + rewrite IH. replace (length (p :: queue) - Z.to_nat cap)%nat with (S (length queue - Z.to_nat cap)) by (simpl in *; lia).
      simpl. f_equal. set_solver.
    + replace (length (p :: queue) - Z.to_nat cap)%nat with 0%nat by (simpl in *; lia). simpl. f_equal. set_solver.
Qed.

Lemma keep_last_short cap l : Z.of_nat (length l) <= cap → keep_last cap l = l.
Proof. intros H. unfold keep_last. by replace (length l - Z.to_nat cap)%nat with 0%nat by lia. Qed.

Lemma keep_last_length cap l : 0 <= cap → Z.of_nat (length (keep_last cap l)) <= cap.
Proof. intros. unfold keep_last. rewrite length_drop. lia. Qed.

Lemma keep_last_app cap a b : keep_last cap (keep_last cap a ++ b) = keep_last cap (a ++ b).
Proof.
  unfold keep_last. set (c := Z.to_nat cap). rewrite !length_app, length_drop.
  destruct (decide (length a <= c)%nat) as [Ha|Ha].
  - replace (length a - c)%nat with 0%nat by lia. rewrite Nat.sub_0_r. done.
  - rewrite <- (drop_app_le a b (length a - c)) by lia. rewrite drop_drop. f_equal. lia.
Qed.

Lemma keep_last_nodup cap l : NoDup l → NoDup (keep_last cap l).
Proof. intros H. eapply sublist_NoDup; [exact H|apply sublist_drop]. Qed.

(** The entries dropped are those not kept. *)
Lemma keep_last_dropped cap l p : NoDup l → p ∈ take (length l - Z.to_nat cap) l ↔ p ∈ l ∧ p ∉ keep_last cap l.
Proof.
  intros Hnd. unfold keep_last. set (n := (length l - Z.to_nat cap)%nat). rewrite <- (take_drop n l) in Hnd.
  apply NoDup_app in Hnd as (_ & Hd & _). rewrite <- (take_drop n l) at 2. rewrite elem_of_app. naive_solver.
Qed.

Lemma keep_last_elem cap l p : p ∈ keep_last cap l → p ∈ l.
Proof. intros H. eapply elem_of_sublist; [exact H|apply sublist_drop]. Qed.

Lemma push_candidate_spec q p : 0 <= cq_max_per_bin q → queues_ok q → p ∉ cq_pending q →
  let n := Z.to_nat (bin_for proximity max_po p) in
  let q' := push_candidate proximity max_po q p in
  ∃ queue, cq_bins q !! n = Some queue ∧ cq_bins q' = <[n := keep_last (cq_max_per_bin q) (queue ++ [p])]> (cq_bins q) ∧
    cq_max_per_bin q' = cq_max_per_bin q ∧ queues_ok q' ∧ (∀ x, x ∈ cq_pending q' → x = p ∨ x ∈ cq_pending q).
Proof.
  intros Hc [Hb Hq Hp] Hni n q'. unfold q', push_candidate, queue_push. rewrite decide_False by done. fold n.
  destruct (cq_bins q !! n) as [queue|] eqn:E.
  2:{ exfalso. apply lookup_ge_None in E. rewrite Hb in E. unfold n, num_bins, bin_for in E. pose proof (Hprox p). lia. }
  destruct (Hq _ _ E) as (Hnd & Hlen & Hmem).
  assert (Hnd' : NoDup (queue ++ [p])).
  { apply NoDup_app. split; [done|]. split; [|apply NoDup_singleton]. intros x Hx ->%list_elem_of_singleton.
    apply Hni, Hp. eauto. }
  rewrite evict_oldest_spec by done. cbn [fst snd cq_bins cq_pending cq_max_per_bin].
  exists queue. split_and!; [done..| |].
  - split; cbn [cq_bins cq_pending cq_max_per_bin].
    + by rewrite length_insert.
    + intros m k [(<- & <- & _)|[_ Hk]]%list_lookup_insert_Some; [|by apply Hq].
      split; [by apply keep_last_nodup|]. split; [by apply keep_last_length|].
      intros x [Hx| ->%list_elem_of_singleton]%keep_last_elem%elem_of_app; [by apply Hmem|done].
    + intros x. rewrite elem_of_difference, elem_of_list_to_set, elem_of_union, elem_of_singleton, (keep_last_dropped _ _ _ Hnd'), Hp.
      destruct (decide (n = Z.to_nat (bin_for proximity max_po x))) as [Hx|Hx].
      * rewrite <- Hx, E, list_lookup_insert_eq by (by eapply lookup_lt_Some). rewrite elem_of_app, list_elem_of_singleton.
        pose proof (keep_last_elem (cq_max_per_bin q) (queue ++ [p]) x) as Hkl. rewrite elem_of_app, list_elem_of_singleton in Hkl.
        destruct (decide (x ∈ keep_last (cq_max_per_bin q) (queue ++ [p]))); naive_solver.
      * rewrite list_lookup_insert_ne by done. rewrite elem_of_app, list_elem_of_singleton.
        split; [|intros (k & Hk & Hxk); split; [left; eauto|]].
        -- intros [[?| ->] _]; [done|by destruct Hx].
        -- intros [[Hin| ->] _]; [|by destruct Hx]. by apply Hx, Hmem.
  - intros x. rewrite elem_of_difference, elem_of_union, elem_of_singleton. naive_solver.
Qed.

Lemma push_all_spec l q : 0 <= cq_max_per_bin q → queues_ok q → NoDup l → (∀ p, p ∈ l → p ∉ cq_pending q) →
  let q' := foldl (push_candidate proximity max_po) q l in
  queues_ok q' ∧ cq_max_per_bin q' = cq_max_per_bin q ∧
  ∀ n, cq_bins q' !! n = (λ queue, keep_last (cq_max_per_bin q) (queue ++ in_bin proximity max_po (Z.of_nat n) l)) <$> cq_bins q !! n.
Proof.
  revert q. induction l as [|p l IH]; intros q Hc Hq Hnd Hni; cbn [foldl].
  { split; [done|]. split; [done|]. intros n. destruct (cq_bins q !! n) as [queue|] eqn:E; [|done]. cbn [fmap option_fmap option_map].
    unfold in_bin. rewrite filter_nil, app_nil_r. rewrite keep_last_short; [done|]. by eapply qo_queue. }
  apply NoDup_cons in Hnd as [Hpl Hnd].
  destruct (push_candidate_spec q p Hc Hq (Hni p ltac:(left))) as (queue & E & Eb & Ec & Hq1 & Hsub).
  destruct (IH (push_candidate proximity max_po q p)) as (H' & M & Hb); [by rewrite Ec|done|done| |].
  { intros x Hx [->|?]%Hsub; [done|]. by eapply Hni; [right|]. }
  split; [done|]. rewrite Ec in M, Hb. split; [done|]. intros n. rewrite Hb, Eb. unfold in_bin. rewrite filter_cons.
  pose proof (Hprox p) as Hpp.
  destruct (decide (Z.to_nat (bin_for proximity max_po p) = n)) as [Hn|Hn].
  - subst n. rewrite list_lookup_insert_eq by (by eapply lookup_lt_Some). rewrite E. cbn [fmap option_fmap option_map].
    rewrite keep_last_app, <- app_assoc. rewrite decide_True by (unfold bin_for; lia). done.
  - rewrite list_lookup_insert_ne by done. rewrite decide_False by lia. done.
Qed.

Lemma queues_new_ok cap : 0 <= cap → queues_ok (queues_new (num_bins max_po) cap).
Proof.
  intros Hc. split; simpl.
  - apply length_replicate.
  - intros n queue [-> _]%lookup_replicate. split; [constructor|]. split; [done|]. by intros p ?%not_elem_of_nil.
  - intros p. split; [set_solver|]. intros (queue & [-> _]%lookup_replicate & ?%not_elem_of_nil). done.
Qed.

Lemma pop_deepest_spec bins :
  match pop_deepest bins with
  | Some (p, bins') => ∃ n queue, bins !! n = Some (p :: queue) ∧ bins' = <[n := queue]> bins ∧
      ∀ m, (n < m)%nat → bins !! m = None ∨ bins !! m = Some []
  | None => ∀ m, bins !! m = None ∨ bins !! m = Some []
  end.
Proof.
  induction bins as [|queue bins IH]; cbn [pop_deepest]; [by left|].
  destruct (pop_deepest bins) as [[p bins']|].
  - destruct IH as (n & k & E & -> & Hm). exists (S n), k. split_and!; [done..|]. intros [|m] ?; [lia|]. apply Hm. lia.
  - destruct queue as [|p queue]; [by intros [|m]; [right|apply IH]|].
    exists 0%nat, queue. split_and!; [done..|]. intros [|m] ?; [lia|]. apply IH.
Qed.

Lemma pop_candidate_ok q p q' : queues_ok q → pop_candidate q = (Some p, q') → queues_ok q'.
Proof.
  intros [Hb Hq Hp]. unfold pop_candidate, pop_next. pose proof (pop_deepest_spec (cq_bins q)) as Hs.
  destruct (pop_deepest _) as [[p0 bins']|]; [|done]. intros [= -> <-]. destruct Hs as (n & queue & E & -> & _).
  destruct (Hq _ _ E) as ([Hni Hnd]%NoDup_cons & Hlen & Hmem). pose proof (Hmem p ltac:(left)) as Hn.
  split; cbn [cq_bins cq_pending cq_max_per_bin].
  - by rewrite length_insert.
  - intros m k [(<- & <- & _)|[_ Hk]]%list_lookup_insert_Some; [|by apply Hq].
    split; [done|]. split; [simpl in Hlen; lia|]. intros x Hx. apply Hmem. by right.
  - intros x. rewrite elem_of_difference, elem_of_singleton, Hp.
    destruct (decide (n = Z.to_nat (bin_for proximity max_po x))) as [Hx|Hx].
    + rewrite <- Hx, E, list_lookup_insert_eq by (by eapply lookup_lt_Some). setoid_rewrite (inj_iff Some).
      split; [intros [(k & <- & Hk) Hne]; apply elem_of_cons in Hk as [?|?]; [done|eauto]|].
      intros (k & <- & Hk). split; [exists (p :: queue); split; [done|by right]|]. by intros ->.
    + rewrite list_lookup_insert_ne by done. split; [by intros [? _]|]. intros H. split; [done|]. by intros ->.
Qed.

Lemma requeue_candidate_ok q p : 0 <= cq_max_per_bin q → queues_ok q →
  queues_ok (requeue_candidate proximity max_po p q) ∧ cq_max_per_bin (requeue_candidate proximity max_po p q) = cq_max_per_bin q.
Proof.
  intros Hc Hq. unfold requeue_candidate. destruct (decide (p ∈ cq_pending q)) as [Hp|Hp].
  - unfold push_candidate, queue_push. by rewrite decide_True.
  - by destruct (push_candidate_spec q p Hc Hq Hp) as (_ & _ & _ & ? & ? & _).
Qed.

(** Whatever the state of the node, the peers selected are distinct and none is
    queued. *)
Lemma selected_fresh max_neighbor max_balanced now pm r q :
  0 <= max_neighbor + max_balanced → 0 <= kd_depth r → limits_below_max (kd_limits r) →
  index_ok proximity max_po (pm_index pm) →
  let l := selected_candidates proximity max_po bin_max max_neighbor max_balanced now pm r q in
  NoDup l ∧ ∀ p, p ∈ l → p ∉ cq_pending q.
Proof.
  intros Hn Hd Hl Hix l. set (depth := effective_depth bin_max (kd_depth r) (bin_sizes (pm_index pm)) (kd_limits r)).
  destruct (selection_served now (capture_candidate_state depth r q) (kd_connected r) pm (λ bin, effective_count bin r)
    (max_bin max_po bin_max) Hix Hl ltac:(simpl; unfold depth, effective_depth; lia) _ Hn) as ([H1 H2 _ _ _] & _ & _).
  split; [exact H1|]. intros p Hp. destruct (H2 p Hp) as [_ [_ Ho]]. exact Ho.
Qed.

(** One use of the queues: an evaluation, a pop by the dialer, or a candidate
    given back. *)
Inductive QueueOp :=
| OpEvaluate (max_neighbor max_balanced now : Z) (pm : PeerManager (SwarmPeer:=SwarmPeer) (B:=B)) (r : KademliaRouting (B:=B))
| OpPop
| OpRequeue (p : Z).

Definition queue_step q (op : QueueOp) : CandidateQueues :=
  match op with
  | OpEvaluate n b now pm r => evaluate_connections proximity max_po bin_max n b now pm r q
  | OpPop => (pop_candidate q).2
  | OpRequeue p => requeue_candidate proximity max_po p q
  end.

Definition evaluation_ok (op : QueueOp) : Prop :=
  match op with
  | OpEvaluate n b now pm r =>
      0 <= n + b ∧ 0 <= kd_depth r ∧ limits_below_max (kd_limits r) ∧ index_ok proximity max_po (pm_index pm)
  | _ => True
  end.

Lemma queue_step_ok cap q op : 0 <= cap → evaluation_ok op → queues_ok q ∧ cq_max_per_bin q = cap →
  queues_ok (queue_step q op) ∧ cq_max_per_bin (queue_step q op) = cap.
Proof.
  intros Hc Hop [Hq <-]. destruct op as [n b now pm r| |p]; cbn [queue_step].
  - destruct Hop as (Hn & Hd & Hl & Hix). destruct (selected_fresh n b now pm r q Hn Hd Hl Hix) as [Hnd Hni].
    by destruct (push_all_spec _ q Hc Hq Hnd Hni) as (? & ? & _).
  - destruct (pop_candidate q) as [[p|] q'] eqn:E; cbn [snd].
    + split; [by eapply pop_candidate_ok|]. unfold pop_candidate, pop_next in E. destruct (pop_deepest _) as [[]|]; by simplify_eq.
    + unfold pop_candidate, pop_next in E. destruct (pop_deepest _) as [[]|]; by simplify_eq.
  - by apply requeue_candidate_ok.
Qed.

(** C28: after any sequence of evaluations, pops and returns the queues hold each
    peer once, in its own bin, within the cap, and the dedup set is what they
    hold; an evaluation then appends to each bin the peers it selected there, in
    order, keeping the newest up to the cap; and a pop takes the oldest peer of
    the deepest bin that has one. *)
Theorem candidate_queues_exact cap ops max_neighbor max_balanced now pm r :
  0 <= cap → Forall evaluation_ok ops → evaluation_ok (OpEvaluate max_neighbor max_balanced now pm r) →
  let q := run queue_step (queues_new (num_bins max_po) cap) ops in
  let l := selected_candidates proximity max_po bin_max max_neighbor max_balanced now pm r q in
  queues_ok q ∧
  (∀ n, cq_bins (evaluate_connections proximity max_po bin_max max_neighbor max_balanced now pm r q) !! n =
        (λ queue, keep_last cap (queue ++ in_bin proximity max_po (Z.of_nat n) l)) <$> cq_bins q !! n) ∧
  match pop_candidate q with
  | (Some p, q') => ∃ n queue, cq_bins q !! n = Some (p :: queue) ∧ cq_bins q' = <[n := queue]> (cq_bins q) ∧
      p ∈ cq_pending q ∧ p ∉ cq_pending q' ∧ ∀ m, (n < m)%nat → cq_bins q !! m = None ∨ cq_bins q !! m = Some []
  | (None, q') => q' = q ∧ cq_pending q = ∅
  end.
Proof.
  intros Hc Hops (Hn & Hd & Hl & Hix) q l.
  assert (Hq : queues_ok q ∧ cq_max_per_bin q = cap).
  { apply (run_invariant queue_step evaluation_ok (λ q, queues_ok q ∧ cq_max_per_bin q = cap)); [|by split; [apply queues_new_ok|]|done].
    intros s op Hs Hop. by apply queue_step_ok. }
  destruct Hq as [Hq Hcap]. split; [done|]. split.
  - destruct (selected_fresh max_neighbor max_balanced now pm r q Hn Hd Hl Hix) as [Hnd Hni].
    destruct (push_all_spec l q ltac:(lia) Hq Hnd Hni) as (_ & _ & E). rewrite <- Hcap. exact E.
  - unfold pop_candidate, pop_next. pose proof (pop_deepest_spec (cq_bins q)) as Hs.
    destruct (pop_deepest _) as [[p bins']|]; cbn [cq_bins cq_pending].
    + destruct Hs as (n & queue & E & -> & Hm). exists n, queue. split_and!; [done..| |set_solver|done].
      apply (qo_pending _ Hq). exists (p :: queue). destruct (qo_queue _ Hq _ _ E) as (_ & _ & Hmem).
      rewrite <- (Hmem p ltac:(left)). split; [done|left].
    + split; [done|]. apply set_eq. intros p. rewrite (qo_pending _ Hq). split; [|set_solver].
      intros (queue & E & Hp). destruct (Hs (Z.to_nat (bin_for proximity max_po p))) as [E'|E']; rewrite E in E'; [done|].
      injection E' as ->. by apply not_elem_of_nil in Hp.
Qed.
End evaluation.

(** ** A run *)

Module CandidatesDemo.

Abbreviation Peer := (Z * Z)%type.
Definition proximity (a : Z) : Z := a mod 4.

Lemma cand_prox_nonneg a : 0 <= proximity a.
Proof. apply Z.mod_pos_bound. lia. Qed.

(** Three peers known in bin one, one in bin two, three in bin three. *)
Definition manager : PeerManager (SwarmPeer:=Peer) :=
  run (pm_step (SwarmPeer:=Peer) fst snd PeerDemo.powf proximity 3 EmptyString)
    (pm_new (SwarmPeer:=Peer) fst (B:=list Z) proximity 3 1000 10 300 43200 scoring_default None None)
    [(1001, OpDiscovered [(1, 900); (5, 900); (9, 900); (2, 900); (3, 900); (7, 900); (11, 900)])].

Lemma manager_index_ok : index_ok proximity 3 (pm_index manager).
Proof.
  apply (po_index fst _ _ None). unfold manager.
  apply (run_invariant _ (λ _, True)); [|apply pm_new_ok; [lia|apply cand_prox_nonneg]|by apply Forall_true].
  intros. apply pm_step_ok; [lia|apply cand_prox_nonneg|done].
Qed.

(** Peer 3 is being dialled. *)
Definition routing : KademliaRouting (B:=list Z) :=
  foldl (routing_step (B:=list Z) proximity 3 (λ _ _ _, 0) 2) (routing_new 3 (mkLimits 4 2 4 2 2 2) 10 10 0) [ReserveDial 3].

Lemma routing_limits_ok : limits_below_max (kd_limits routing).
Proof. split; vm_compute; try split; congruence. Qed.

Definition no_queues : CandidateQueues := queues_new 4 8.

(** The budget of four covers both neighbours left and, of the balanced bins, the
    deepest first. *)
Lemma candidate_selection_witness :
  selected_candidates proximity 3 31 2 2 1002 manager routing no_queues = [7; 11; 2; 1] ∧
  NoDup (selected_candidates proximity 3 31 2 2 1002 manager routing no_queues).
Proof.
  split; [vm_compute; reflexivity|].
  apply (candidate_selection proximity 3 31 ltac:(lia) cand_prox_nonneg 2 2 1002 manager routing no_queues ltac:(lia)
    ltac:(vm_compute; congruence) routing_limits_ok manager_index_ok).
Defined.

Definition uses : list (QueueOp (SwarmPeer:=Peer) (B:=list Z)) :=
  [OpEvaluate 2 0 1002 manager routing; OpPop; OpRequeue 7; OpPop].

Lemma candidate_queues_exact_witness :
  let q := run (queue_step proximity 3 31) (queues_new (num_bins 3) 8) uses in
  cq_bins q = [[]; []; []; [7]] ∧
  cq_bins (evaluate_connections proximity 3 31 2 2 1003 manager routing q) !! 3%nat = Some [7; 11].
Proof.
  intros q. split; [vm_compute; reflexivity|].
  assert (Forall (evaluation_ok proximity 3) uses) as Hu.
  { repeat constructor; try apply routing_limits_ok; try apply manager_index_ok; vm_compute; congruence. }
  assert (evaluation_ok proximity 3 (OpEvaluate 2 2 1003 manager routing)) as He.
  { repeat constructor; try apply routing_limits_ok; try apply manager_index_ok; vm_compute; congruence. }
  destruct (candidate_queues_exact proximity 3 31 ltac:(lia) cand_prox_nonneg 8 uses 2 2 1003 manager routing ltac:(lia) Hu He)
    as (_ & E & _).
  etransitivity; [exact (E 3%nat)|]. vm_compute. reflexivity.
Defined.

(** With room for one neighbour and one other candidate, two neighbours are
    picked and the balanced bins, which want peers, get none. *)
Example neighbours_take_the_balanced_share :
  selected_candidates proximity 3 31 1 1 1002 manager routing no_queues = [7; 11] ∧
  needs_more 2 3 (effective_count 2 routing) (kd_limits routing) = true ∧
  needs_more 1 3 (effective_count 1 routing) (kd_limits routing) = true.
Proof. vm_compute. split_and!; reflexivity. Qed.
End CandidatesDemo.
