(* ===== verification/LocalNet.v ===== *)
(** * Local addresses: scope, capability, advertisement and reachability

    Models [net/local/src/] ([scope.rs], [system.rs], [capabilities.rs],
    [transport.rs]): the scope of an address, the cache of local subnets, the
    capability derived from listen addresses and the dial filter; and of
    [swarm/topology/src/] the address manager ([nat_discovery.rs]) with the list it
    advertises to a peer, and the per-peer reachability tracker
    ([reachability.rs]).  A multiaddress is the list of its components; subnets of
    the [ipnet] crate are a type with an address and a membership test. *)

From S2P Require Import Prelude.

(** ** Addresses *)

Inductive Protocol :=
| Ip4 (ip : Z)
| Ip6 (ip : Z)
| Dns4 (name : string)
| Dns6 (name : string)
| Dnsaddr (name : string)
| Tcp (port : Z)
| Tls
| Ws (path : string)
| Wss (path : string)
| P2p (peer : Z)
| OtherProtocol (code : Z).

Abbreviation Multiaddr := (list Protocol).

#[global] Instance Protocol_eq_dec : EqDecision Protocol.
Proof. solve_decision. Defined.

Inductive IpAddr := IpV4 (ip : Z) | IpV6 (ip : Z).

Inductive AddressScope := Loopback | Private | LinkLocal | Public.

#[global] Instance AddressScope_eq_dec : EqDecision AddressScope.
Proof. solve_decision. Defined.

(** The standard library's predicates on the octets of an IPv4 address and the
    first segment of an IPv6 address. *)
Definition octet (k ip : Z) : Z := Z.land (Z.shiftr ip (8 * (3 - k))) 255.
Definition segment0 (ip : Z) : Z := Z.shiftr ip 112.

Definition v4_is_unspecified (ip : Z) : bool := bool_decide (ip = 0).
Definition v4_is_broadcast (ip : Z) : bool := bool_decide (ip = u32_max).
Definition v4_is_loopback (ip : Z) : bool := bool_decide (octet 0 ip = 127).
Definition v4_is_private (ip : Z) : bool :=
  bool_decide (octet 0 ip = 10) ||
  (bool_decide (octet 0 ip = 172) && bool_decide (16 <= octet 1 ip) && bool_decide (octet 1 ip <= 31)) ||
  (bool_decide (octet 0 ip = 192) && bool_decide (octet 1 ip = 168)).
Definition v4_is_link_local (ip : Z) : bool := bool_decide (octet 0 ip = 169) && bool_decide (octet 1 ip = 254).

Definition v6_is_unspecified (ip : Z) : bool := bool_decide (ip = 0).
Definition v6_is_loopback (ip : Z) : bool := bool_decide (ip = 1).
Definition v6_is_unique_local (ip : Z) : bool := bool_decide (Z.land (segment0 ip) 0xfe00 = 0xfc00).
Definition v6_is_unicast_link_local (ip : Z) : bool := bool_decide (Z.land (segment0 ip) 0xffc0 = 0xfe80).

Definition ip_is_unspecified (a : IpAddr) : bool :=
  match a with IpV4 ip => v4_is_unspecified ip | IpV6 ip => v6_is_unspecified ip end.
Definition ip_is_loopback (a : IpAddr) : bool :=
  match a with IpV4 ip => v4_is_loopback ip | IpV6 ip => v6_is_loopback ip end.

(** ** Scope *)

Fixpoint extract_ip (addr : Multiaddr) : option IpAddr :=
  match addr with
  | [] => None
  | Ip4 ip :: _ => Some (IpV4 ip)
  | Ip6 ip :: _ => Some (IpV6 ip)
  | _ :: addr => extract_ip addr
  end.

Definition classify_ipv4 (ip : Z) : option AddressScope :=
  if v4_is_unspecified ip || v4_is_broadcast ip then None
  else if v4_is_loopback ip then Some Loopback
  else if v4_is_private ip then Some Private
  else if v4_is_link_local ip then Some LinkLocal
  else Some Public.

Definition classify_ipv6 (ip : Z) : option AddressScope :=
  if v6_is_unspecified ip then None
  else if v6_is_loopback ip then Some Loopback
  else if v6_is_unique_local ip then Some Private
  else if v6_is_unicast_link_local ip then Some LinkLocal
  else Some Public.

Definition classify_ip (a : IpAddr) : option AddressScope :=
  match a with IpV4 ip => classify_ipv4 ip | IpV6 ip => classify_ipv6 ip end.

Definition classify_multiaddr (addr : Multiaddr) : option AddressScope := extract_ip addr ≫= classify_ip.

Inductive LocalIpVersion := LV4 | LV6.

#[global] Instance LocalIpVersion_eq_dec : EqDecision LocalIpVersion.
Proof. solve_decision. Defined.

Definition from_protocol (p : Protocol) : option LocalIpVersion :=
  match p with
  | Ip4 _ | Dns4 _ => Some LV4
  | Ip6 _ | Dns6 _ => Some LV6
  | _ => None
  end.

Definition from_multiaddr (addr : Multiaddr) : option LocalIpVersion := head (omap from_protocol addr).

(** The rank of a family in the derived order: IPv6, IPv4, none. *)
Inductive AddressFamily := FamilyV6 | FamilyV4 | FamilyOther.

Definition family_of (addr : Multiaddr) : AddressFamily :=
  match from_multiaddr addr with Some LV6 => FamilyV6 | Some LV4 => FamilyV4 | None => FamilyOther end.

Definition family_rank (f : AddressFamily) : Z := match f with FamilyV6 => 0 | FamilyV4 => 1 | FamilyOther => 2 end.

Definition family_le (a b : Multiaddr) : bool := bool_decide (family_rank (family_of a) <= family_rank (family_of b)).

Inductive IpCapability := CapNone | CapV4Only | CapV6Only | CapDual.

#[global] Instance IpCapability_eq_dec : EqDecision IpCapability.
Proof. solve_decision. Defined.

Fixpoint from_addrs_loop (addrs : list Multiaddr) (has_v4 has_v6 : bool) : IpCapability :=
  match addrs with
  | [] =>
      match has_v4, has_v6 with
      | true, true => CapDual
      | true, false => CapV4Only
      | false, true => CapV6Only
      | false, false => CapNone
      end
  | addr :: addrs =>
      let '(has_v4, has_v6) :=
        match from_multiaddr addr with
        | Some LV4 => (true, has_v6)
        | Some LV6 => (has_v4, true)
        | None => (has_v4, has_v6)
        end in
      if has_v4 && has_v6 then CapDual else from_addrs_loop addrs has_v4 has_v6
  end.

Definition from_addrs (addrs : list Multiaddr) : IpCapability := from_addrs_loop addrs false false.

Definition supports_ipv4 (c : IpCapability) : bool := match c with CapV4Only | CapDual => true | _ => false end.
Definition supports_ipv6 (c : IpCapability) : bool := match c with CapV6Only | CapDual => true | _ => false end.
Definition is_known (c : IpCapability) : bool := match c with CapNone => false | _ => true end.

Definition can_reach_addr (c : IpCapability) (addr : Multiaddr) : bool :=
  match from_multiaddr addr with
  | Some LV4 => supports_ipv4 c
  | Some LV6 => supports_ipv6 c
  | None => true
  end.

Definition can_reach (c other : IpCapability) : bool :=
  if negb (is_known c) || negb (is_known other) then false
  else (supports_ipv4 c && supports_ipv4 other) || (supports_ipv6 c && supports_ipv6 other).

(** ** Transports *)

Inductive TransportRequirement := ReqTcp | ReqWebsocket | ReqSecureWebsocket | ReqOther.

Fixpoint requirement_loop (addr : Multiaddr) (saw_tcp saw_tls : bool) : TransportRequirement :=
  match addr with
  | [] => if saw_tcp then ReqTcp else ReqOther
  | Tcp _ :: addr => requirement_loop addr true saw_tls
  | Tls :: addr => requirement_loop addr saw_tcp true
  | Wss _ :: _ => ReqSecureWebsocket
  | Ws _ :: _ => if saw_tls then ReqSecureWebsocket else ReqWebsocket
  | _ :: addr => requirement_loop addr saw_tcp saw_tls
  end.

Definition requirement_of (addr : Multiaddr) : TransportRequirement := requirement_loop addr false false.

Inductive TransportCapability := StackTcp | StackSecureWebsocket.

Definition stack_can_dial (t : TransportCapability) (addr : Multiaddr) : bool :=
  match t, requirement_of addr with
  | StackTcp, ReqTcp => true
  | StackSecureWebsocket, ReqSecureWebsocket => true
  | _, _ => false
  end.

(** ** Subnets *)

Section subnets.
Context {V4Net V6Net : Type} `{EqDecision V4Net, EqDecision V6Net}.
Context (v4_addr : V4Net → Z) (v6_addr : V6Net → Z).
Context (v4_contains : V4Net → Z → bool) (v6_contains : V6Net → Z → bool).

Record LocalSubnets := mkSubnets { sn_ipv4 : list V4Net; sn_ipv6 : list V6Net }.

Inductive IpNet := NetV4 (n : V4Net) | NetV6 (n : V6Net).

Implicit Types (sn : LocalSubnets).

Definition subnets_contains (a : IpAddr) sn : bool :=
  match a with
  | IpV4 ip => existsb (λ n, v4_contains n ip) (sn_ipv4 sn)
  | IpV6 ip => existsb (λ n, v6_contains n ip) (sn_ipv6 sn)
  end.

Definition contains_pair (a b : IpAddr) sn : bool :=
  match a, b with
  | IpV4 a, IpV4 b => existsb (λ n, v4_contains n a && v4_contains n b) (sn_ipv4 sn)
  | IpV6 a, IpV6 b => existsb (λ n, v6_contains n a && v6_contains n b) (sn_ipv6 sn)
  | _, _ => false
  end.

Definition should_filter (n : IpNet) : bool :=
  match n with
  | NetV4 n => v4_is_loopback (v4_addr n) || v4_is_link_local (v4_addr n)
  | NetV6 n => v6_is_loopback (v6_addr n) || v6_is_unicast_link_local (v6_addr n)
  end.

Definition add_subnet (n : IpNet) sn : LocalSubnets :=
  if should_filter n then sn
  else
    match n with
    | NetV4 n => if decide (n ∈ sn_ipv4 sn) then sn else mkSubnets (sn_ipv4 sn ++ [n]) (sn_ipv6 sn)
    | NetV6 n => if decide (n ∈ sn_ipv6 sn) then sn else mkSubnets (sn_ipv4 sn) (sn_ipv6 sn ++ [n])
    end.

(** [Vec::remove] at the first position. *)
Fixpoint remove_first {A} `{EqDecision A} (x : A) (l : list A) : list A :=
  match l with
  | [] => []
  | y :: l => if decide (y = x) then l else y :: remove_first x l
  end.

Definition remove_subnet (n : IpNet) sn : LocalSubnets :=
  if should_filter n then sn
  else
    match n with
    | NetV4 n => mkSubnets (remove_first n (sn_ipv4 sn)) (sn_ipv6 sn)
    | NetV6 n => mkSubnets (sn_ipv4 sn) (remove_first n (sn_ipv6 sn))
    end.

Definition ip_is_link_local (a : IpAddr) : bool :=
  match a with IpV4 ip => v4_is_link_local ip | IpV6 ip => v6_is_unicast_link_local ip end.

Definition is_on_same_subnet (a b : IpAddr) sn : bool :=
  if ip_is_unspecified a || ip_is_unspecified b then false
  else if ip_is_loopback a && ip_is_loopback b then true
  else if ip_is_link_local a && ip_is_link_local b then true
  else contains_pair a b sn.

Definition same_subnet (addr1 addr2 : Multiaddr) sn : bool :=
  match extract_ip addr1, extract_ip addr2 with
  | Some a, Some b => is_on_same_subnet a b sn
  | _, _ => false
  end.

Definition is_directly_reachable (a : IpAddr) sn : bool :=
  if ip_is_loopback a then true
  else if ip_is_link_local a then true
  else if ip_is_unspecified a then false
  else subnets_contains a sn.

(** The function [is_dialable] of [scope.rs]. *)
Definition addr_is_dialable (addr : Multiaddr) (c : IpCapability) sn : bool :=
  if negb (can_reach_addr c addr) then false
  else
    match extract_ip addr with
    | Some ip =>
        match classify_ip ip with
        | Some Public => true
        | Some _ => is_directly_reachable ip sn
        | None => false
        end
    | None => true
    end.

Record DialCapability := mkDialCapability { dc_ip : IpCapability; dc_transport : TransportCapability }.

Definition can_dial (d : DialCapability) (addr : Multiaddr) sn : bool :=
  stack_can_dial (dc_transport d) addr && addr_is_dialable addr (dc_ip d) sn.

Definition can_dial_any (d : DialCapability) (addrs : list Multiaddr) sn : bool :=
  existsb (λ addr, can_dial d addr sn) addrs.

(** ** Capabilities *)

(** A filter with a [HashSet] of what was seen. *)
Fixpoint dedup (seen addrs : list Multiaddr) : list Multiaddr :=
  match addrs with
  | [] => []
  | a :: addrs => if decide (a ∈ seen) then dedup seen addrs else a :: dedup (a :: seen) addrs
  end.

Definition advertise_eligible (peer_scope : AddressScope) (peer_addr : option Multiaddr) sn (addr : Multiaddr) : bool :=
  match peer_scope with
  | Loopback => match classify_multiaddr addr with Some Loopback | Some Private => true | _ => false end
  | Private | LinkLocal => is_some_and (λ peer, same_subnet addr peer sn) peer_addr
  | Public => bool_decide (classify_multiaddr addr = Some Public)
  end.

Definition advertise_filter (candidates : list Multiaddr) (peer_scope : AddressScope) (peer_addr : option Multiaddr) sn :
    list Multiaddr :=
  dedup [] (filter (advertise_eligible peer_scope peer_addr sn) candidates).

Record LocalCapabilities := mkLocal {
  lc_listen_addrs : list Multiaddr;
  lc_capability : IpCapability;
  lc_dial_only : bool;
}.

Definition local_new : LocalCapabilities := mkLocal [] CapNone false.
Definition local_dial_only : LocalCapabilities := mkLocal [] CapNone true.

Definition on_new_listen_addr (addr : Multiaddr) (l : LocalCapabilities) : bool * LocalCapabilities :=
  if decide (addr ∈ lc_listen_addrs l) then (false, l)
  else
    let addrs := lc_listen_addrs l ++ [addr] in
    let new_cap := from_addrs addrs in
    (negb (is_known (lc_capability l)) && is_known new_cap, mkLocal addrs new_cap (lc_dial_only l)).

Definition on_expired_listen_addr (addr : Multiaddr) (l : LocalCapabilities) : LocalCapabilities :=
  if decide (addr ∈ lc_listen_addrs l) then
    let addrs := remove_first addr (lc_listen_addrs l) in
    mkLocal addrs (from_addrs addrs) (lc_dial_only l)
  else l.

Definition capability (wasm : bool) (l : LocalCapabilities) : IpCapability :=
  if wasm || lc_dial_only l then CapDual else lc_capability l.

Definition addresses_for_scope (peer_scope : AddressScope) (peer_addr : option Multiaddr) sn (l : LocalCapabilities) :
    list Multiaddr :=
  advertise_filter (lc_listen_addrs l) peer_scope peer_addr sn.

(** ** The address manager *)

Definition is_p2p (p : Protocol) : bool := match p with P2p _ => true | _ => false end.

Definition strip_peer_id (addr : Multiaddr) : Multiaddr := filter (λ p, is_p2p p = false) addr.

Record LocalAddressManager := mkManager {
  la_local : LocalCapabilities;
  la_nat_addrs : list Multiaddr;
  la_peer_id : option Z;
  la_observed : bool;
  la_confirmed : list Multiaddr;
}.

Implicit Types (m : LocalAddressManager).

Definition manager_new (local : LocalCapabilities) (nat_addrs : list Multiaddr) : LocalAddressManager :=
  mkManager local nat_addrs None false [].

Definition register_local_peer_id (p : Z) m : LocalAddressManager :=
  match la_peer_id m with
  | Some _ => m
  | None => mkManager (la_local m) (la_nat_addrs m) (Some p) (la_observed m) (la_confirmed m)
  end.

Definition is_public (addr : Multiaddr) : bool := bool_decide (classify_multiaddr addr = Some Public).

Definition is_reachable m : bool :=
  existsb is_public (la_nat_addrs m) || existsb is_public (lc_listen_addrs (la_local m)) ||
  bool_decide (la_confirmed m ≠ []) || la_observed m.

Definition on_observed_addr (addr : Multiaddr) m : LocalAddressManager :=
  mkManager (la_local m) (la_nat_addrs m) (la_peer_id m) (la_observed m || is_public (strip_peer_id addr)) (la_confirmed m).

Definition set_confirmed (l : list Multiaddr) m : LocalAddressManager :=
  mkManager (la_local m) (la_nat_addrs m) (la_peer_id m) (la_observed m) l.

(** The set of confirmed addresses as a list without repetitions. *)
Definition on_external_addr_confirmed (addr : Multiaddr) m : LocalAddressManager :=
  let a := strip_peer_id addr in
  if is_public a then
    if decide (a ∈ la_confirmed m) then m else set_confirmed (la_confirmed m ++ [a]) m
  else m.

Definition on_external_addr_expired (addr : Multiaddr) m : LocalAddressManager :=
  set_confirmed (remove_first (strip_peer_id addr) (la_confirmed m)) m.

Definition set_local (l : LocalCapabilities) m : LocalAddressManager :=
  mkManager l (la_nat_addrs m) (la_peer_id m) (la_observed m) (la_confirmed m).

Definition has_confirmed_reachability m : bool := bool_decide (la_confirmed m ≠ []) || la_observed m.

(** The stable [sort_by]. *)
Fixpoint insert_by_family (a : Multiaddr) (l : list Multiaddr) : list Multiaddr :=
  match l with
  | [] => [a]
  | b :: l => if family_le a b then a :: b :: l else b :: insert_by_family a l
  end.

Definition sort_by_family (l : list Multiaddr) : list Multiaddr := foldr insert_by_family [] l.

Definition with_peer_id m (addrs : list Multiaddr) : list Multiaddr :=
  match la_peer_id m with
  | None => addrs
  | Some p => (λ a, a ++ [P2p p]) <$> addrs
  end.

(** [iter] is the order in which the set of confirmed addresses is iterated. *)
Definition addresses_for_peer (iter : list Multiaddr) (peer_addr : Multiaddr) sn m : list Multiaddr :=
  let peer_scope := default Public (classify_multiaddr peer_addr) in
  let verified := advertise_filter iter peer_scope (Some peer_addr) sn in
  let listen := addresses_for_scope peer_scope (Some peer_addr) sn (la_local m) in
  let nat_addrs := if decide (peer_scope = Loopback) then [] else la_nat_addrs m in
  with_peer_id m
    (dedup [] (sort_by_family verified ++ sort_by_family listen ++ sort_by_family nat_addrs)).

Definition all_addresses (iter : list Multiaddr) m : list Multiaddr :=
  dedup [] (sort_by_family iter ++ sort_by_family (lc_listen_addrs (la_local m)) ++ sort_by_family (la_nat_addrs m)).

(** What changes the manager. *)
Inductive AddrEvent :=
| EvNewListen (addr : Multiaddr)
| EvExpiredListen (addr : Multiaddr)
| EvConfirmed (addr : Multiaddr)
| EvExpired (addr : Multiaddr)
| EvObserved (addr : Multiaddr)
| EvPeerId (p : Z).

Definition addr_step m (ev : AddrEvent) : LocalAddressManager :=
  match ev with
  | EvNewListen a => set_local (on_new_listen_addr a (la_local m)).2 m
  | EvExpiredListen a => set_local (on_expired_listen_addr a (la_local m)) m
  | EvConfirmed a => on_external_addr_confirmed a m
  | EvExpired a => on_external_addr_expired a m
  | EvObserved a => on_observed_addr a m
  | EvPeerId p => register_local_peer_id p m
  end.

(** ** Lemmas: lists *)

Lemma dedup_elem a seen l : a ∈ dedup seen l ↔ a ∈ l ∧ a ∉ seen.
Proof.
  revert seen. induction l as [|b l IH]; intros seen; simpl; [set_solver|].
  case_decide; [|rewrite elem_of_cons]; rewrite IH; destruct (decide (a = b)) as [->|]; set_solver.
Qed.

Lemma dedup_NoDup seen l : NoDup (dedup seen l).
Proof.
  revert seen. induction l as [|b l IH]; intros seen; simpl; [constructor|].
  case_decide; [done|]. constructor; [|done]. rewrite dedup_elem. set_solver.
Qed.

Lemma dedup_sublist seen l : dedup seen l `sublist_of` l.
Proof.
  revert seen. induction l as [|b l IH]; intros seen; simpl; [done|].
  case_decide; [by apply sublist_cons|by apply sublist_skip].
Qed.

Lemma dedup_app seen l k : dedup seen (l ++ k) = dedup seen l ++ dedup (rev l ++ seen) k.
Proof.
  revert seen. induction l as [|b l IH]; intros seen; simpl; [done|].
  assert (∀ k s s', (∀ x, x ∈ s ↔ x ∈ s') → dedup s k = dedup s' k) as Hext.
  { clear. intros k. induction k as [|c k IH]; intros s s' H; simpl; [done|].
    destruct (decide (c ∈ s)), (decide (c ∈ s')); try naive_solver. f_equal. apply IH. set_solver. }
  case_decide; rewrite IH; simpl; [|f_equal]; f_equal; apply Hext; intros x;
    rewrite <-?app_assoc, !elem_of_app, !elem_of_cons; set_solver.
Qed.

Lemma remove_first_elem {A} `{EqDecision A} (x y : A) l : NoDup l → y ∈ remove_first x l ↔ y ∈ l ∧ y ≠ x.
Proof.
  induction 1 as [|z l Hz Hl IH]; simpl; [set_solver|]. case_decide; subst; [set_solver|].
  rewrite !elem_of_cons, IH. set_solver.
Qed.

Lemma remove_first_NoDup {A} `{EqDecision A} (x : A) l : NoDup l → NoDup (remove_first x l).
Proof.
  induction 1 as [|z l Hz Hl IH]; simpl; [constructor|]. case_decide; [done|].
  constructor; [|done]. rewrite remove_first_elem by done. naive_solver.
Qed.

Lemma insert_by_family_perm a l : insert_by_family a l ≡ₚ a :: l.
Proof.
  induction l as [|b l IH]; simpl; [done|]. destruct (family_le a b); [done|].
  rewrite IH. constructor.
Qed.

Lemma sort_by_family_perm l : sort_by_family l ≡ₚ l.
Proof. induction l as [|a l IH]; simpl; [done|]. by rewrite insert_by_family_perm, IH. Qed.

Definition family_sorted (l : list Multiaddr) : Prop :=
  StronglySorted (λ a b, family_rank (family_of a) <= family_rank (family_of b)) l.

Lemma insert_by_family_sorted a l : family_sorted l → family_sorted (insert_by_family a l).
Proof.
  induction 1 as [|b l Hs IH Hb]; simpl; [by repeat constructor|].
  unfold family_le. case_bool_decide as Hab.
  - constructor; [by constructor|]. constructor; [done|]. eapply Forall_impl; [exact Hb|]. intros x Hx. simpl in *. lia.
  - constructor; [done|]. rewrite insert_by_family_perm. constructor; [lia|done].
Qed.

Lemma sort_by_family_sorted l : family_sorted (sort_by_family l).
Proof. induction l; simpl; [constructor|by apply insert_by_family_sorted]. Qed.

Lemma StronglySorted_sublist {A} (R : A → A → Prop) l k : l `sublist_of` k → StronglySorted R k → StronglySorted R l.
Proof.
  induction 1 as [|x l k Hs IH|x l k Hs IH]; intros H; [constructor| |]; apply StronglySorted_inv in H as [Hk Hx]; [|auto].
  constructor; [auto|]. rewrite Forall_forall in *. intros y Hy. apply Hx. by eapply elem_of_sublist.
Qed.

(** ** Lemmas: the manager *)

Definition has_version (v : LocalIpVersion) (l : list Multiaddr) : Prop := ∃ a, a ∈ l ∧ from_multiaddr a = Some v.

Lemma has_version_cons v a l : has_version v (a :: l) ↔ from_multiaddr a = Some v ∨ has_version v l.
Proof. unfold has_version. set_solver. Qed.

Lemma from_addrs_loop_spec l b4 b6 : b4 && b6 = false →
  (supports_ipv4 (from_addrs_loop l b4 b6) = true ↔ b4 = true ∨ has_version LV4 l) ∧
  (supports_ipv6 (from_addrs_loop l b4 b6) = true ↔ b6 = true ∨ has_version LV6 l).
Proof.
  revert b4 b6. induction l as [|a l IH]; intros b4 b6 Hb; simpl.
  - unfold has_version. destruct b4, b6; set_solver.
  - rewrite !has_version_cons. pose proof (IH true false eq_refl) as [H1 H2].
    pose proof (IH false true eq_refl) as [H3 H4]. pose proof (IH false false eq_refl) as [H5 H6]. clear IH.
    destruct (from_multiaddr a) as [[]|]; destruct b4, b6; try done; simpl; rewrite ?H1, ?H2, ?H3, ?H4, ?H5, ?H6;
      clear; intuition congruence.
Qed.

Lemma from_addrs_spec l :
  (supports_ipv4 (from_addrs l) = true ↔ has_version LV4 l) ∧ (supports_ipv6 (from_addrs l) = true ↔ has_version LV6 l).
Proof. pose proof (from_addrs_loop_spec l false false eq_refl). unfold from_addrs. naive_solver. Qed.

Record addr_ok m : Prop := {
  ao_listen : NoDup (lc_listen_addrs (la_local m));
  ao_capability : lc_capability (la_local m) = from_addrs (lc_listen_addrs (la_local m));
  ao_confirmed : NoDup (la_confirmed m);
  ao_public : Forall (λ a, is_public a = true) (la_confirmed m);
}.

Lemma addr_step_ok m ev : addr_ok m → addr_ok (addr_step m ev).
Proof.
  intros [Hl Hc Hd Hp]. destruct ev as [a|a|a|a|a|p]; simpl.
  - unfold on_new_listen_addr. case_decide; simpl; [by destruct m|]. split; simpl; try done.
    apply NoDup_app. split_and!; [done| |apply NoDup_singleton]. set_solver.
  - unfold on_expired_listen_addr. case_decide; simpl; [|by destruct m]. split; simpl; try done.
    by apply remove_first_NoDup.
  - unfold on_external_addr_confirmed. destruct (is_public _) eqn:E; [|done]. case_decide; [done|]. split; simpl; try done.
    + apply NoDup_app. split_and!; [done| |apply NoDup_singleton]. set_solver.
    + apply Forall_app. by repeat constructor.
  - split; simpl; try done; [by apply remove_first_NoDup|]. rewrite Forall_forall in *.
    intros x Hx. apply remove_first_elem in Hx as [? _]; auto.
  - by split.
  - unfold register_local_peer_id. by destruct (la_peer_id m).
Qed.

Lemma advertise_filter_elem l scope peer sn a :
  a ∈ advertise_filter l scope peer sn ↔ a ∈ l ∧ advertise_eligible scope peer sn a = true.
Proof.
  unfold advertise_filter. rewrite dedup_elem, list_elem_of_filter, Is_true_true. set_solver.
Qed.

(** Three tiers chained under one set of seen addresses. *)
Lemma dedup_tiers a b c : ∃ a' b' c', dedup [] (a ++ b ++ c) = a' ++ b' ++ c' ∧ NoDup (a' ++ b' ++ c') ∧
  a' `sublist_of` a ∧ b' `sublist_of` b ∧ c' `sublist_of` c ∧
  (∀ x, x ∈ a' ↔ x ∈ a) ∧ (∀ x, x ∈ b' ↔ x ∈ b ∧ x ∉ a) ∧ (∀ x, x ∈ c' ↔ x ∈ c ∧ x ∉ a ∧ x ∉ b).
Proof.
  exists (dedup [] a), (dedup (rev a ++ []) b), (dedup (rev b ++ rev a ++ []) c).
  assert (∀ (x : Multiaddr) l, x ∈ rev l ↔ x ∈ l) as Hrev.
  { intros x l. by rewrite !list_elem_of_In, <-in_rev. }
  split; [by rewrite !dedup_app|]. rewrite <-!dedup_app. split; [apply dedup_NoDup|].
  split_and!; try apply dedup_sublist; intros x; rewrite dedup_elem, ?elem_of_app, ?Hrev; set_solver.
Qed.

End subnets.

(** The IPv4 ranges that the octet tests amount to. *)
Lemma octet_range ip : is_u32 ip → octet 0 ip = ip / 2 ^ 24 ∧ octet 1 ip = ip / 2 ^ 16 mod 2 ^ 8.
Proof.
  intros Hip. unfold octet. change 255 with (Z.ones 8). rewrite !Z.land_ones, !Z.shiftr_div_pow2 by lia.
  split; [|done]. change (8 * (3 - 0)) with 24. apply Z.mod_small. split; [apply Z.div_pos; mlia|].
  apply Z.div_lt_upper_bound; mlia.
Qed.

Theorem classify_ipv4_ranges ip : is_u32 ip →
  classify_ipv4 ip =
    if decide (ip = 0 ∨ ip = 2 ^ 32 - 1) then None
    else if decide (127 * 2 ^ 24 <= ip < 128 * 2 ^ 24) then Some Loopback
    else if decide (10 * 2 ^ 24 <= ip < 11 * 2 ^ 24 ∨
                    172 * 2 ^ 24 + 16 * 2 ^ 16 <= ip < 172 * 2 ^ 24 + 32 * 2 ^ 16 ∨
                    192 * 2 ^ 24 + 168 * 2 ^ 16 <= ip < 192 * 2 ^ 24 + 169 * 2 ^ 16) then Some Private
    else if decide (169 * 2 ^ 24 + 254 * 2 ^ 16 <= ip < 169 * 2 ^ 24 + 255 * 2 ^ 16) then Some LinkLocal
    else Some Public.
Proof.
  intros Hip. destruct (octet_range ip Hip) as [E0 E1].
  assert (ip / 2 ^ 24 = ip / 2 ^ 16 / 2 ^ 8) as E2 by (rewrite Z.div_div by lia; done).
  pose proof (Z.div_mod (ip / 2 ^ 16) (2 ^ 8) ltac:(lia)) as H1.
  pose proof (Z.mod_pos_bound (ip / 2 ^ 16) (2 ^ 8) ltac:(lia)) as H2.
  pose proof (Z.div_mod ip (2 ^ 16) ltac:(lia)) as H3. pose proof (Z.mod_pos_bound ip (2 ^ 16) ltac:(lia)) as H4.
  rewrite <-E2, <-E0, <-E1 in *. unfold classify_ipv4, v4_is_unspecified, v4_is_broadcast, v4_is_loopback, v4_is_private,
    v4_is_link_local. clear E0 E1 E2. mach.
  set (o0 := octet 0 ip) in *. set (o1 := octet 1 ip) in *. set (q := ip / 2 ^ 16) in *. set (r := ip mod 2 ^ 16) in *.
  clearbody o0 o1 q r. repeat (case_bool_decide; simpl); repeat case_decide; try done; exfalso; lia.
Qed.

(** ** Reachability of peers *)

Definition FAILURE_THRESHOLD : Z := 3.
Definition FAILURE_DECAY : Z := 5 * 60.

Inductive PeerReachability := Unreachable | Unknown | Reachable.

#[global] Instance PeerReachability_eq_dec : EqDecision PeerReachability.
Proof. solve_decision. Defined.

Record PeerReachabilityRecord := mkReach {
  rr_status : PeerReachability;
  rr_last_updated : Z;
  rr_failures : Z;
  rr_first_failure_at : option Z;
}.

Abbreviation ReachabilityTracker := (gmap Z PeerReachabilityRecord).

Implicit Types (r : PeerReachabilityRecord) (tr : ReachabilityTracker).

Definition reach_new (now : Z) (st : PeerReachability) : PeerReachabilityRecord := mkReach st now 0 None.

Definition set_status (now : Z) (st : PeerReachability) r : PeerReachabilityRecord :=
  if decide (rr_status r = st) then r else mkReach st now (rr_failures r) (rr_first_failure_at r).

Definition clear_failures r : PeerReachabilityRecord := mkReach (rr_status r) (rr_last_updated r) 0 None.

Definition reach_status (p : Z) tr : PeerReachability := from_option rr_status Unknown (tr !! p).

Definition reach_forget (p : Z) tr : ReachabilityTracker := delete p tr.

(** The entry API: the record of a peer, or a new one. *)
Definition or_insert (now p : Z) tr : PeerReachabilityRecord := default (reach_new now Unknown) (tr !! p).

Definition record_reachable (now p : Z) tr : ReachabilityTracker :=
  let e := or_insert now p tr in
  <[p := set_status now Reachable (mkReach (rr_status e) (rr_last_updated e) 0 (rr_first_failure_at e))]> tr.

(** Instants are seconds; [duration_since] of a later instant is zero. *)
Definition duration_since (now start : Z) : Z := Z.max 0 (now - start).

Definition liveness_failure (now : Z) r : PeerReachabilityRecord :=
  let e := match rr_first_failure_at r with
           | Some start => if decide (FAILURE_DECAY < duration_since now start) then clear_failures r else r
           | None => r
           end in
  let first := match rr_first_failure_at e with None => now | Some s => s end in
  let e := mkReach (rr_status e) (rr_last_updated e) (Z.min u32_max (rr_failures e + 1)) (Some first) in
  if decide (FAILURE_THRESHOLD <= rr_failures e) then set_status now Unreachable e else e.

Definition liveness_success (now : Z) r : PeerReachabilityRecord :=
  let e := clear_failures r in
  if decide (rr_status e = Unreachable) then set_status now Unknown e else e.

Definition record_liveness (now p : Z) (success : bool) tr : ReachabilityTracker :=
  let e := or_insert now p tr in
  <[p := if success then liveness_success now e else liveness_failure now e]> tr.

(** The signals a tracker receives about a peer: a dial-back or an outbound dial
    that confirms it, a ping or a handshake, its disconnection. *)
Inductive Signal := Confirmed | Alive | Failed | Gone.

#[global] Instance Signal_eq_dec : EqDecision Signal.
Proof. solve_decision. Defined.

Definition reach_step tr (ev : Z * Z * Signal) : ReachabilityTracker :=
  let '(now, p, s) := ev in
  match s with
  | Confirmed => record_reachable now p tr
  | Alive => record_liveness now p true tr
  | Failed => record_liveness now p false tr
  | Gone => reach_forget p tr
  end.

(** The signals about one peer, with their times. *)
Definition history (p : Z) (evs : list (Z * Z * Signal)) : list (Z * Signal) :=
  omap (λ '(now, q, s), if decide (q = p) then Some (now, s) else None) evs.

(** The trailing failures that a record counts. *)
Definition counted (h : list (Z * Signal)) r : Prop :=
  ∃ pre fs, h = pre ++ fs ∧ rr_failures r <= Z.of_nat (length fs) ∧
    Forall (λ x, x.2 = Failed ∧ ∃ start, rr_first_failure_at r = Some start ∧ start <= x.1 <= start + FAILURE_DECAY) fs.

(** Three failures in a row within the decay window, and only failures since. *)
Definition three_failures (h : list (Z * Signal)) : Prop :=
  ∃ pre t1 t2 t3 post, h = pre ++ [(t1, Failed); (t2, Failed); (t3, Failed)] ++ post ∧
    t3 - t1 <= FAILURE_DECAY ∧ Forall (λ x, x.2 = Failed) post.

Definition confirmed_once (h : list (Z * Signal)) : Prop :=
  ∃ pre t post, h = pre ++ (t, Confirmed) :: post ∧ Forall (λ x, x.2 ≠ Gone) post.

(** What one signal does to one peer's record. *)
Definition peer_signal (o : option PeerReachabilityRecord) (x : Z * Signal) : option PeerReachabilityRecord :=
  let e := default (reach_new x.1 Unknown) o in
  match x.2 with
  | Confirmed => Some (set_status x.1 Reachable (mkReach (rr_status e) (rr_last_updated e) 0 (rr_first_failure_at e)))
  | Alive => Some (liveness_success x.1 e)
  | Failed => Some (liveness_failure x.1 e)
  | Gone => None
  end.

Lemma reach_run_history p evs tr :
  run reach_step tr evs !! p = foldl peer_signal (tr !! p) (history p evs).
Proof.
  revert tr. induction evs as [|[[now q] s] evs IH]; intros tr; [done|].
  change (run reach_step tr ((now, q, s) :: evs)) with (run reach_step (reach_step tr (now, q, s)) evs).
  rewrite IH. unfold history. simpl. destruct (decide (q = p)) as [->|Hq]; simpl; f_equal.
  - destruct s; simpl; unfold record_reachable, record_liveness, reach_forget, or_insert;
      by rewrite ?lookup_insert_eq, ?lookup_delete_eq.
  - destruct s; simpl; unfold record_reachable, record_liveness, reach_forget;
      by rewrite ?lookup_insert_ne, ?lookup_delete_ne.
Qed.

Record reach_ok (h : list (Z * Signal)) r : Prop := {
  ro_counted : counted h r;
  ro_start : ∀ start, rr_first_failure_at r = Some start → start ∈ h.*1;
  ro_unreachable : rr_status r = Unreachable → three_failures h;
  ro_reachable : rr_status r = Reachable → confirmed_once h;
}.

Lemma three_failures_snoc h now : three_failures h → three_failures (h ++ [(now, Failed)]).
Proof.
  intros (pre & t1 & t2 & t3 & post & -> & Ht & Hp). exists pre, t1, t2, t3, (post ++ [(now, Failed)]).
  rewrite <-!app_assoc. split_and!; [done..|]. apply Forall_app. by repeat constructor.
Qed.

Lemma confirmed_once_snoc h x : x.2 ≠ Gone → confirmed_once h → confirmed_once (h ++ [x]).
Proof.
  intros Hx (pre & t & post & -> & Hp). exists pre, t, (post ++ [x]). rewrite <-app_assoc. split; [done|].
  apply Forall_app. by repeat constructor.
Qed.

Lemma counted_three h r : counted h r → FAILURE_THRESHOLD <= rr_failures r → three_failures h.
Proof.
  intros (pre & fs & -> & Hl & Hf) Hr. unfold FAILURE_THRESHOLD in Hr.
  destruct fs as [|[t3 s3] fs _] using rev_ind; [simpl in Hl; lia|].
  destruct fs as [|[t2 s2] fs _] using rev_ind; [simpl in Hl; lia|].
  destruct fs as [|[t1 s1] fs _] using rev_ind; [simpl in Hl; lia|].
  rewrite !Forall_app, !Forall_singleton in Hf. simpl in Hf.
  destruct Hf as [[[_ (-> & st & E1 & H1)] (-> & _)] (-> & st' & E3 & H3)]. simplify_eq.
  exists (pre ++ fs), t1, t2, t3, []. rewrite <-!app_assoc. split_and!; [done|lia|constructor].
Qed.

Lemma reach_ok_new h now : reach_ok h (reach_new now Unknown).
Proof. split; try done. exists h, []. rewrite app_nil_r. split_and!; [done|simpl; lia|constructor]. Qed.

Lemma reach_ok_weaken h r x : reach_ok h r → ∀ start, rr_first_failure_at r = Some start → start ∈ (h ++ [x]).*1.
Proof. intros H start E. rewrite fmap_app. apply elem_of_app. left. by eapply ro_start. Qed.

(** The failure run after the decay check, with the new failure counted. *)
Lemma failure_counted h now r : reach_ok h r → (∀ t, t ∈ h.*1 → t <= now) →
  let e := match rr_first_failure_at r with
           | Some start => if decide (FAILURE_DECAY < duration_since now start) then clear_failures r else r
           | None => r
           end in
  let first := match rr_first_failure_at e with None => now | Some s => s end in
  rr_status e = rr_status r ∧ first ∈ (h ++ [(now, Failed)]).*1 ∧
  counted (h ++ [(now, Failed)])
    (mkReach (rr_status e) (rr_last_updated e) (Z.min u32_max (rr_failures e + 1)) (Some first)).
Proof.
  intros Hr Hle. pose proof (reach_ok_weaken h r (now, Failed) Hr) as Hst. destruct (ro_counted _ _ Hr) as (pre & fs & Eh & Hl & Hf).
  assert (∀ u, 0 <= FAILURE_DECAY → u <= 1 → ∃ pre fs, h ++ [(now, Failed)] = pre ++ fs ∧ u <= Z.of_nat (length fs) ∧
    Forall (λ x, x.2 = Failed ∧ ∃ start, Some now = Some start ∧ start <= x.1 <= start + FAILURE_DECAY) fs) as Hnew.
  { intros u Hd Hu. exists h, [(now, Failed)]. split_and!; [done|simpl; lia|]. repeat constructor. exists now. simpl. split; [done|lia]. }
  assert (0 <= FAILURE_DECAY) as Hd by done.
  destruct (rr_first_failure_at r) as [start|] eqn:E; [case_decide as Hdec|]; cbv zeta.
  - split; [done|]. simpl. split; [rewrite fmap_app; set_solver|]. unfold counted. simpl. apply Hnew; [done|mlia].
  - rewrite E. split; [done|]. split; [by apply Hst|]. exists pre, (fs ++ [(now, Failed)]). rewrite Eh, app_assoc.
    split; [done|]. simpl. rewrite length_app. simpl. split; [lia|]. apply Forall_app. split; [exact Hf|].
    repeat constructor. exists start. split; [done|]. simpl. unfold duration_since in Hdec.
    pose proof (Hle start (ro_start _ _ Hr _ E)). lia.
  - rewrite E. split; [done|]. split; [rewrite fmap_app; set_solver|]. unfold counted. simpl. apply Hnew; [done|].
    destruct fs as [|x fs]; [simpl in Hl; lia|]. apply Forall_cons in Hf as [(_ & ? & ? & _) _]. done.
Qed.

Lemma reach_ok_signal h o x : (∀ t, t ∈ h.*1 → t <= x.1) → (∀ r, o = Some r → reach_ok h r) →
  ∀ r', peer_signal o x = Some r' → reach_ok (h ++ [x]) r'.
Proof.
  intros Hle Ho. assert (reach_ok h (default (reach_new x.1 Unknown) o)) as He.
  { destruct o; simpl; [by apply Ho|apply reach_ok_new]. }
  unfold peer_signal. generalize dependent (default (reach_new x.1 Unknown) o). clear Ho. intros e He r'.
  pose proof (reach_ok_weaken h e x He) as Hst. destruct x as [now []]; simpl in *; try done; intros [= <-].
  - assert (confirmed_once (h ++ [(now, Confirmed)])) as Hc by (exists h, now, []; by repeat constructor).
    unfold set_status. simpl. case_decide; split; simpl; try done; try congruence;
      exists (h ++ [(now, Confirmed)]), []; rewrite app_nil_r; split_and!; (done || (simpl; lia) || constructor).
  - assert (counted (h ++ [(now, Alive)]) (clear_failures e)) as Hc.
    { exists (h ++ [(now, Alive)]), []. rewrite app_nil_r. split_and!; [done|simpl; lia|constructor]. }
    unfold liveness_success, set_status. simpl. repeat case_decide; split; simpl; try done; try congruence.
    intros Hr. apply confirmed_once_snoc; [done|]. by eapply ro_reachable.
  - pose proof (failure_counted h now e He Hle) as H. cbv zeta in H. unfold liveness_failure.
    destruct H as (Es & Hf & Hc). set (e' := match rr_first_failure_at e with _ => _ end) in *.
    case_decide as Ht; [pose proof (counted_three _ _ Hc Ht) as H3; unfold set_status; case_decide|];
      split; simpl in *; try done; try (intros ? [= <-]; done); rewrite ?Es in *.
    + congruence.
    + intros Hu. apply three_failures_snoc. by eapply ro_unreachable.
    + intros Hu. apply confirmed_once_snoc; [done|]. by eapply ro_reachable.
Qed.

Lemma reach_fold_ok h : StronglySorted Z.le h.*1 → ∀ r, foldl peer_signal None h = Some r → reach_ok h r.
Proof.
  induction h as [|x h IH] using rev_ind; intros Hs r; [done|]. rewrite foldl_snoc. rewrite fmap_app in Hs.
  apply StronglySorted_app in Hs as (Hx & Hs & _). apply reach_ok_signal; [|by apply IH].
  intros t Ht. apply Hx; [done|]. simpl. by left.
Qed.

(** A record with no run of failures. *)
Definition fresh_run (o : option PeerReachabilityRecord) : Prop :=
  ∀ r, o = Some r → rr_failures r = 0 ∧ rr_first_failure_at r = None.

Lemma fresh_run_after pre :
  pre = [] ∨ (∃ t s, last pre = Some (t, s) ∧ (s = Alive ∨ s = Gone)) → fresh_run (foldl peer_signal None pre).
Proof.
  intros [-> | (t & s & Hl & Hs)] r; [done|]. apply last_Some in Hl as [k ->]. rewrite foldl_snoc. unfold peer_signal.
  destruct Hs as [-> | ->]; simpl; [|done]. intros [= <-]. unfold liveness_success, set_status. simpl.
  by repeat case_decide.
Qed.

Lemma failure_run now e n :
  rr_failures e = n → 0 <= n < u32_max →
  (rr_first_failure_at e = None ∨ ∃ start, rr_first_failure_at e = Some start ∧ duration_since now start <= FAILURE_DECAY) →
  let e' := liveness_failure now e in
  rr_failures e' = n + 1 ∧ rr_first_failure_at e' = Some (default now (rr_first_failure_at e)) ∧
  (FAILURE_THRESHOLD <= n + 1 → rr_status e' = Unreachable).
Proof.
  intros <- Hn Hf. assert (∃ f, rr_first_failure_at e = f) as [f Ef] by eauto. cbv zeta. unfold liveness_failure.
  assert (match rr_first_failure_at e with
          | Some start => if decide (FAILURE_DECAY < duration_since now start) then clear_failures e else e
          | None => e end = e) as ->.
  { destruct Hf as [-> | (start & -> & Hd)]; [done|]. rewrite decide_False by lia. done. }
  rewrite Ef. cbn [rr_failures rr_first_failure_at]. rewrite Z.min_r by lia.
  case_decide; unfold set_status; try case_decide; cbn [rr_failures rr_first_failure_at rr_status];
    split_and!; (done || (intros; lia) || (by destruct f)).
Qed.

Lemma three_failures_demote o t1 t2 t3 : fresh_run o → t1 <= t2 <= t3 → t3 - t1 <= FAILURE_DECAY →
  from_option rr_status Unknown (foldl peer_signal o [(t1, Failed); (t2, Failed); (t3, Failed)]) = Unreachable.
Proof.
  intros Ho Ht Hd. cbn [foldl peer_signal fst snd from_option].
  set (e := default (reach_new t1 Unknown) o). assert (rr_failures e = 0 ∧ rr_first_failure_at e = None) as [Hf Hn].
  { unfold e. destruct o as [r|]; [by apply Ho|done]. }
  clearbody e. unfold id.
  destruct (failure_run t1 e 0) as (H1 & F1 & _); [done|mlia|by left|]. rewrite Hn in F1. simpl in F1.
  set (e1 := liveness_failure t1 e) in *. clearbody e1.
  destruct (failure_run t2 e1 1) as (H2 & F2 & _); [done|mlia|right; exists t1; split; [done|unfold duration_since; lia]|].
  rewrite F1 in F2. simpl in F2. set (e2 := liveness_failure t2 e1) in *. clearbody e2.
  destruct (failure_run t3 e2 2) as (_ & _ & H3); [done|mlia|right; exists t1; split; [done|unfold duration_since; lia]|].
  by apply H3.
Qed.

Lemma history_sorted p evs : StronglySorted Z.le ((λ e, e.1.1) <$> evs) → StronglySorted Z.le (history p evs).*1.
Proof.
  intros Hs. eapply StronglySorted_sublist; [|exact Hs]. clear Hs. induction evs as [|[[now q] s] evs IH]; simpl; [done|].
  unfold history. simpl. case_decide; simpl; [by apply sublist_skip|by apply sublist_cons].
Qed.

(** Reachability verdicts are earned.  Whatever signals arrive about whatever
    peers, a peer counts as reachable only after a dial-back or an outbound dial
    confirmed it on this connection, and as unreachable only after three failures in a
    row within five minutes with no sign of life since.  A confirmation, a sign of life,
    a disconnection and three such failures after a sign of life each take effect at
    once. *)
Theorem reachability_exact (p : Z) (evs : list (Z * Z * Signal)) :
  StronglySorted Z.le ((λ e, e.1.1) <$> evs) →
  let h := history p evs in
  let st := reach_status p (run reach_step ∅ evs) in
  (st = Reachable → confirmed_once h) ∧ (st = Unreachable → three_failures h) ∧
  (∀ pre t, h = pre ++ [(t, Confirmed)] → st = Reachable) ∧
  (∀ pre t, h = pre ++ [(t, Alive)] → st ≠ Unreachable) ∧
  (∀ pre t, h = pre ++ [(t, Gone)] → st = Unknown) ∧
  (∀ pre t1 t2 t3, h = pre ++ [(t1, Failed); (t2, Failed); (t3, Failed)] → t3 - t1 <= FAILURE_DECAY →
     pre = [] ∨ (∃ t s, last pre = Some (t, s) ∧ (s = Alive ∨ s = Gone)) → st = Unreachable).
Proof.
  intros Hs h st. pose proof (history_sorted p evs Hs) as Hh. unfold st, reach_status.
  rewrite reach_run_history, lookup_empty. fold h in Hh |- *. clearbody h. clear Hs evs st.
  pose proof (reach_fold_ok h Hh) as Hok. split_and!.
  - destruct (foldl _ _ h) as [r|]; [|done]. apply (Hok r eq_refl).
  - destruct (foldl _ _ h) as [r|]; [|done]. apply (Hok r eq_refl).
  - intros pre t ->. rewrite foldl_snoc. simpl. unfold set_status. by case_decide.
  - intros pre t ->. rewrite foldl_snoc. simpl. unfold liveness_success, set_status.
    repeat case_decide; simpl in *; congruence.
  - intros pre t ->. by rewrite foldl_snoc.
  - intros pre t1 t2 t3 -> Hd Hpre. rewrite foldl_app. apply three_failures_demote; [by apply fresh_run_after| |done].
    rewrite fmap_app in Hh. apply StronglySorted_app in Hh as (_ & _ & Hh). simpl in Hh.
    apply StronglySorted_inv in Hh as [Hh H1]. apply StronglySorted_inv in Hh as [_ H2].
    rewrite !Forall_cons in *. naive_solver.
Qed.

(** ** Concrete addresses *)

Module LocalDemo.

(** Subnets as an address and a prefix length. *)
Definition v4_in (n : Z * Z) (ip : Z) : bool := bool_decide (ip / 2 ^ (32 - n.2) = n.1 / 2 ^ (32 - n.2)).
Definition v6_in (n : Z * Z) (ip : Z) : bool := bool_decide (ip / 2 ^ (128 - n.2) = n.1 / 2 ^ (128 - n.2)).

Definition lan (k : Z) : Multiaddr := [Ip4 (192 * 2 ^ 24 + 168 * 2 ^ 16 + k); Tcp 1634].
Definition wan (k : Z) : Multiaddr := [Ip4 (8 * 2 ^ 24 + k); Tcp 1634].
Definition wan6 (k : Z) : Multiaddr := [Ip6 (0x2001 * 2 ^ 112 + k); Tcp 1634].

Definition events : list AddrEvent :=
  [EvNewListen (lan 5); EvNewListen (wan 1); EvNewListen (wan6 1); EvConfirmed (wan 2 ++ [P2p 9]); EvConfirmed (lan 7);
   EvConfirmed (wan6 2); EvPeerId 9].
Definition subnets : LocalSubnets (V4Net:=Z * Z) (V6Net:=Z * Z) :=
  add_subnet fst fst (NetV4 (192 * 2 ^ 24 + 168 * 2 ^ 16 + 5, 24)) (mkSubnets [] []).

Abbreviation state := (run addr_step (manager_new local_new [wan 3]) events).
Abbreviation advertised := (λ peer, addresses_for_peer v4_in v6_in [wan 2; wan6 2] peer subnets state).


Definition signals : list (Z * Z * Signal) :=
  [(1, 7, Alive); (2, 8, Confirmed); (3, 7, Failed); (4, 8, Failed); (5, 7, Failed); (100, 7, Failed)].

Lemma reachability_exact_witness :
  reach_status 7 (run reach_step ∅ signals) = Unreachable ∧ reach_status 8 (run reach_step ∅ signals) = Reachable ∧
  three_failures (history 7 signals) ∧ confirmed_once (history 8 signals).
Proof.
  assert (StronglySorted Z.le ((λ e, e.1.1) <$> signals)) as Hs by (repeat constructor; done).
  split; [vm_compute; reflexivity|]. split; [vm_compute; reflexivity|]. split.
  - apply (reachability_exact 7 signals Hs). vm_compute. reflexivity.
  - apply (reachability_exact 8 signals Hs). vm_compute. reflexivity.
Defined.

(** A confirmation keeps the start of the run it interrupts: three failures within
    two seconds that straddle the end of the old window do not demote the peer. *)
Example confirmation_keeps_window :
  reach_status 7 (run reach_step ∅ [(0, 7, Failed); (1, 7, Confirmed); (299, 7, Failed); (300, 7, Failed); (301, 7, Failed)])
  = Reachable.
Proof. vm_compute. reflexivity. Qed.

End LocalDemo.
