(* ===== verification/GossipIntake.v ===== *)
(** * Gossip intake: cooldowns and budgets

    Models the gate of [swarm/topology/src/gossip/intake.rs] that decides whether a
    gossiped peer record is processed: a cooldown per overlay, keyed by the
    fingerprint of the record's addresses, and a budget per gossiper over a fixed
    window; with the configuration of [gossip/config.rs].  The two LRU caches of
    the [hashlink] crate are a class with its documented order; peer records are
    values with an overlay, addresses and a signature, and the hash of an address
    is an argument. *)

From S2P Require Import Prelude.
From S2P Require Import LocalNet.

(** ** The LRU cache *)

Definition assoc `{Countable K} {V} (k : K) (l : list (K * V)) : option V := (list_to_map l : gmap K V) !! k.

Definition without `{EqDecision K} {V} (k : K) (l : list (K * V)) : list (K * V) := filter (λ x, x.1 ≠ k) l.

(** [rc_list] is the content, least recently used first.  A lookup that hits and a
    write through the reference it returns move the entry to the end; an insertion
    puts it there and drops entries from the front while the capacity is exceeded. *)
Class RecencyCache (K V C : Type) `{Countable K} := {
  rc_new : Z → C;
  rc_get : K → C → option V * C;
  rc_write : K → V → C → C;
  rc_insert : K → V → C → C;
  rc_capacity : C → Z;
  rc_list : C → list (K * V);
  rc_new_list n : rc_list (rc_new n) = [];
  rc_new_capacity n : rc_capacity (rc_new n) = n;
  rc_get_value k c : (rc_get k c).1 = assoc k (rc_list c);
  rc_get_list k c : rc_list (rc_get k c).2 =
    match assoc k (rc_list c) with Some v => without k (rc_list c) ++ [(k, v)] | None => rc_list c end;
  rc_get_capacity k c : rc_capacity (rc_get k c).2 = rc_capacity c;
  rc_write_list k v c : rc_list (rc_write k v c) =
    match assoc k (rc_list c) with Some _ => without k (rc_list c) ++ [(k, v)] | None => rc_list c end;
  rc_write_capacity k v c : rc_capacity (rc_write k v c) = rc_capacity c;
  rc_insert_list k v c : rc_list (rc_insert k v c) =
    (let l := without k (rc_list c) ++ [(k, v)] in drop (length l - Z.to_nat (rc_capacity c)) l);
  rc_insert_capacity k v c : rc_capacity (rc_insert k v c) = rc_capacity c;
}.

(** ** Lemmas: a cache that is large enough is a map *)

Section cache.
Context `{RC : RecencyCache K V C}.
Implicit Types (c : C) (D : gset K) (l : list (K * V)).

Definition rc_view c : gmap K V := list_to_map (rc_list c).

(** The keys lie in a set that fits the capacity. *)
Record cache_ok D c : Prop := {
  co_nodup : NoDup (rc_list c).*1;
  co_keys : ∀ k, k ∈ (rc_list c).*1 → k ∈ D;
  co_fits : Z.of_nat (size D) <= rc_capacity c;
}.

Lemma without_keys k l x : x ∈ (without k l).*1 ↔ x ∈ l.*1 ∧ x ≠ k.
Proof. unfold without. rewrite !list_elem_of_fmap. setoid_rewrite list_elem_of_filter. naive_solver. Qed.

Lemma without_NoDup k l : NoDup l.*1 → NoDup (without k l).*1.
Proof.
  induction l as [|x l IH]; [done|]. rewrite fmap_cons, NoDup_cons. intros [Hx Hl]. unfold without. rewrite filter_cons.
  case_decide; [|by apply IH]. rewrite fmap_cons. constructor; [|by apply IH]. intros Hin. apply (without_keys k) in Hin. naive_solver.
Qed.

Lemma moved_ok k v l : NoDup l.*1 →
  NoDup (without k l ++ [(k, v)]).*1 ∧ list_to_map (without k l ++ [(k, v)]) = (<[k := v]> (list_to_map l) : gmap K V).
Proof.
  intros Hl. assert (NoDup (without k l ++ [(k, v)]).*1) as Hn.
  { rewrite fmap_app. apply NoDup_app. split_and!; [|intros x Hx; apply without_keys in Hx as [_ ?]; set_solver|apply NoDup_singleton].
    by apply without_NoDup. }
  split; [done|]. apply map_eq. intros x. rewrite lookup_insert. apply option_eq. intros w.
  rewrite <-elem_of_list_to_map by done. rewrite elem_of_app, list_elem_of_singleton. unfold without. rewrite list_elem_of_filter.
  case_decide; simpl; [naive_solver|]. rewrite <-elem_of_list_to_map by done. naive_solver.
Qed.

Lemma rc_get_ok D k c : cache_ok D c →
  (rc_get k c).1 = rc_view c !! k ∧ rc_view (rc_get k c).2 = rc_view c ∧ cache_ok D (rc_get k c).2.
Proof.
  intros [Hn Hk Hf]. rewrite rc_get_value. split; [done|]. unfold rc_view.
  destruct (assoc k (rc_list c)) as [v|] eqn:E.
  - destruct (moved_ok k v (rc_list c) Hn) as [Hn' Hm]. split.
    + rewrite rc_get_list, E, Hm. by apply insert_id.
    + split; rewrite ?rc_get_list, ?E, ?rc_get_capacity; try done. intros x. rewrite fmap_app, elem_of_app, without_keys.
      intros [[? _]|Hx]; [auto|]. simpl in Hx. apply list_elem_of_singleton in Hx as ->. apply Hk.
      unfold assoc in E. apply elem_of_list_to_map_2 in E. apply list_elem_of_fmap. by exists (k, v).
  - split; [by rewrite rc_get_list, E|]. split; rewrite ?rc_get_list, ?E, ?rc_get_capacity; done.
Qed.

Lemma rc_write_ok D k v c : cache_ok D c → is_Some (rc_view c !! k) →
  rc_view (rc_write k v c) = <[k := v]> (rc_view c) ∧ cache_ok D (rc_write k v c).
Proof.
  intros [Hn Hk Hf] [w E]. unfold rc_view in *. fold (assoc k (rc_list c)) in E.
  destruct (moved_ok k v (rc_list c) Hn) as [Hn' Hm]. split.
  - by rewrite rc_write_list, E, Hm.
  - split; rewrite ?rc_write_list, ?E, ?rc_write_capacity; try done. intros x. rewrite fmap_app, elem_of_app, without_keys.
    intros [[? _]|Hx]; [auto|]. simpl in Hx. apply list_elem_of_singleton in Hx as ->. apply Hk.
    unfold assoc in E. apply elem_of_list_to_map_2 in E. apply list_elem_of_fmap. by exists (k, w).
Qed.

Lemma rc_insert_ok D k v c : cache_ok D c → k ∈ D →
  rc_view (rc_insert k v c) = <[k := v]> (rc_view c) ∧ cache_ok D (rc_insert k v c).
Proof.
  intros [Hn Hk Hf] HD. destruct (moved_ok k v (rc_list c) Hn) as [Hn' Hm].
  assert (∀ x, x ∈ (without k (rc_list c) ++ [(k, v)]).*1 → x ∈ D) as Hin.
  { intros x. rewrite fmap_app, elem_of_app, without_keys. intros [[? _]|Hx]; [auto|].
    simpl in Hx. by apply list_elem_of_singleton in Hx as ->. }
  assert (length (without k (rc_list c) ++ [(k, v)]) <= size D)%nat as Hl.
  { rewrite <-(length_fmap fst), <-(size_list_to_set (C:=gset K)) by done. apply subseteq_size. intros x.
    rewrite elem_of_list_to_set. apply Hin. }
  assert (rc_list (rc_insert k v c) = without k (rc_list c) ++ [(k, v)]) as E.
  { rewrite rc_insert_list. cbv zeta. replace (_ - _)%nat with 0%nat by lia. done. }
  unfold rc_view. rewrite E. split; [done|]. split; rewrite ?E, ?rc_insert_capacity; done.
Qed.

Lemma cache_ok_new D n : Z.of_nat (size D) <= n → cache_ok D (rc_new n) ∧ rc_view (rc_new n) = ∅.
Proof.
  intros Hn. unfold rc_view. split; [|by rewrite rc_new_list]. split; rewrite ?rc_new_list, ?rc_new_capacity; try done.
  - constructor.
  - by intros k ?%not_elem_of_nil.
Qed.
End cache.

(** ** The gate *)

Record GossipConfig := mkGossipConfig {
  gc_refresh_interval : Z;
  gc_health_check_delay : Z;
  gc_record_cooldown : Z;
  gc_max_records_per_gossiper : Z;
  gc_max_tracked_gossipers : Z;
  gc_max_tracked_cooldowns : Z;
}.

(** Durations in milliseconds. *)
Definition gossip_config_default : GossipConfig := mkGossipConfig 600000 500 300000 64 1024 8192.

Record CooldownState := mkCooldown { cd_last_processed : Z; cd_fingerprint : Z }.

Record GossiperBudget := mkBudget { gb_window_start : Z; gb_admitted : Z }.

Inductive GossipCheckError := NoMultiaddrs | NoPeerId | GossiperRateLimited | CooldownActive.
Inductive GossipCheckOk := AlreadyKnown | Accepted.

#[global] Instance GossipCheckError_eq_dec : EqDecision GossipCheckError.
Proof. solve_decision. Defined.
#[global] Instance GossipCheckOk_eq_dec : EqDecision GossipCheckOk.
Proof. solve_decision. Defined.

(** [vertex_net_utils::extract_peer_id]: the last component. *)
Definition extract_peer_id (addr : Multiaddr) : option Z :=
  match last addr with Some (P2p id) => Some id | _ => None end.

Section intake.
Context {SwarmPeer : Type} (overlay_of : SwarmPeer → Z) (multiaddrs : SwarmPeer → list Multiaddr).
Context (signature : SwarmPeer → Z) (addr_hash : Multiaddr → Z).
Context `{RC : !RecencyCache Z CooldownState CC} `{RB : !RecencyCache Z GossiperBudget CB}.

Record GossipIntake := mkIntake {
  gi_cooldowns : CC;
  gi_gossipers : CB;
  gi_cooldown : Z;
  gi_max_records_per_gossiper : Z;
}.

Implicit Types (g : GossipIntake) (peer : SwarmPeer).

Definition intake_new (c : GossipConfig) : GossipIntake :=
  mkIntake (rc_new (gc_max_tracked_cooldowns c)) (rc_new (gc_max_tracked_gossipers c)) (gc_record_cooldown c)
    (gc_max_records_per_gossiper c).

Definition with_cooldowns (c : CC) g : GossipIntake :=
  mkIntake c (gi_gossipers g) (gi_cooldown g) (gi_max_records_per_gossiper g).
Definition with_gossipers (c : CB) g : GossipIntake :=
  mkIntake (gi_cooldowns g) c (gi_cooldown g) (gi_max_records_per_gossiper g).

Definition multiaddrs_fingerprint peer : Z := foldl Z.lxor 0 (addr_hash <$> multiaddrs peer).

Definition has_matching_multiaddr (existing gossiped : SwarmPeer) : bool :=
  existsb (λ a, bool_decide (a ∈ multiaddrs existing)) (multiaddrs gossiped).

Definition touch_cooldown (overlay now fingerprint : Z) g : GossipIntake :=
  with_cooldowns (rc_insert overlay (mkCooldown now fingerprint) (gi_cooldowns g)) g.

Definition charge_gossiper (gossiper now : Z) g : result GossipCheckError unit * GossipIntake :=
  let '(present, c) := rc_get gossiper (gi_gossipers g) in
  let c := match present with None => rc_insert gossiper (mkBudget now 0) c | Some _ => c end in
  let '(budget, c) := rc_get gossiper c in
  match budget with
  | None => (Ok tt, with_gossipers c g)
  | Some b =>
      let b := if decide (gi_cooldown g <= duration_since now (gb_window_start b)) then mkBudget now 0 else b in
      if decide (gi_max_records_per_gossiper g <= gb_admitted b) then
        (Err GossiperRateLimited, with_gossipers (rc_write gossiper b c) g)
      else (Ok tt, with_gossipers (rc_write gossiper (mkBudget (gb_window_start b) (gb_admitted b + 1)) c) g)
  end.

Definition already_known peer (existing : option SwarmPeer) : bool :=
  is_some_and (λ e, bool_decide (signature e = signature peer) && has_matching_multiaddr e peer) existing.

Definition check_gossip (now : Z) peer (gossiper : Z) (existing : option SwarmPeer) g :
    result GossipCheckError GossipCheckOk * GossipIntake :=
  match head (multiaddrs peer) with
  | None => (Err NoMultiaddrs, g)
  | Some first_addr =>
      match extract_peer_id first_addr with
      | None => (Err NoPeerId, g)
      | Some _ =>
          let overlay := overlay_of peer in
          let fingerprint := multiaddrs_fingerprint peer in
          if already_known peer existing then (Ok AlreadyKnown, touch_cooldown overlay now fingerprint g)
          else
            let '(state, c) := rc_get overlay (gi_cooldowns g) in
            let g := with_cooldowns c g in
            if is_some_and (λ s, bool_decide (cd_fingerprint s = fingerprint) &&
                                 bool_decide (duration_since now (cd_last_processed s) < gi_cooldown g)) state then
              (Err CooldownActive, g)
            else
              match charge_gossiper gossiper now g with
              | (Err e, g) => (Err e, g)
              | (Ok _, g) => (Ok Accepted, touch_cooldown overlay now fingerprint g)
              end
      end
  end.

(** A sequence of checks, with the outcome of each. *)
Record Received := mkCheck { ck_now : Z; ck_gossiper : Z; ck_peer : SwarmPeer; ck_existing : option SwarmPeer }.

Fixpoint check_all g (cs : list Received) : list (Received * result GossipCheckError GossipCheckOk) * GossipIntake :=
  match cs with
  | [] => ([], g)
  | c :: cs =>
      let '(r, g) := check_gossip (ck_now c) (ck_peer c) (ck_gossiper c) (ck_existing c) g in
      let '(rs, g) := check_all g cs in
      ((c, r) :: rs, g)
  end.

(** ** Lemmas: budgets *)

Abbreviation budgets g := (rc_view (gi_gossipers g)).

(** The budget a charge at [now] starts from. *)
Definition window_budget (now cooldown : Z) (o : option GossiperBudget) : GossiperBudget :=
  let b := default (mkBudget now 0) o in
  if decide (cooldown <= duration_since now (gb_window_start b)) then mkBudget now 0 else b.

Lemma charge_spec (D : gset Z) gossiper now g : cache_ok D (gi_gossipers g) → gossiper ∈ D →
  let b := window_budget now (gi_cooldown g) (budgets g !! gossiper) in
  let '(r, g') := charge_gossiper gossiper now g in
  cache_ok D (gi_gossipers g') ∧ gi_cooldowns g' = gi_cooldowns g ∧ gi_cooldown g' = gi_cooldown g ∧
  gi_max_records_per_gossiper g' = gi_max_records_per_gossiper g ∧
  if decide (gi_max_records_per_gossiper g <= gb_admitted b) then
    r = Err GossiperRateLimited ∧ budgets g' = <[gossiper := b]> (budgets g)
  else r = Ok tt ∧ budgets g' = <[gossiper := mkBudget (gb_window_start b) (gb_admitted b + 1)]> (budgets g).
Proof.
  intros Hok HD. cbv zeta. unfold charge_gossiper.
  destruct (rc_get_ok D gossiper (gi_gossipers g) Hok) as (Ev & Ew & Hok1).
  destruct (rc_get gossiper (gi_gossipers g)) as [present c]. simpl in *. subst present.
  set (c1 := match budgets g !! gossiper with None => _ | Some _ => c end).
  assert (cache_ok D c1 ∧ rc_view c1 = <[gossiper := default (mkBudget now 0) (budgets g !! gossiper)]> (budgets g)) as [Hok2 Ew2].
  { unfold c1. destruct (budgets g !! gossiper) as [b|] eqn:E; simpl.
    - split; [done|]. by rewrite Ew, insert_id.
    - destruct (rc_insert_ok D gossiper (mkBudget now 0) c Hok1 HD) as [E1 ?]. by rewrite E1, Ew. }
  clearbody c1. destruct (rc_get_ok D gossiper c1 Hok2) as (Ev3 & Ew3 & Hok3).
  destruct (rc_get gossiper c1) as [budget c3]. simpl in *. rewrite Ew2, lookup_insert_eq in Ev3. subst budget.
  fold (window_budget now (gi_cooldown g) (budgets g !! gossiper)).
  set (b := window_budget now (gi_cooldown g) (budgets g !! gossiper)). clearbody b.
  assert (∀ b', cache_ok D (rc_write gossiper b' c3) ∧ rc_view (rc_write gossiper b' c3) = <[gossiper := b']> (budgets g)) as Hw.
  { intros b'. destruct (rc_write_ok D gossiper b' c3 Hok3) as [E ?]; [by rewrite Ew3, Ew2, lookup_insert_eq; eexists|].
    by rewrite E, Ew3, Ew2, insert_insert_eq. }
  destruct (decide (gi_max_records_per_gossiper g <= gb_admitted b)); simpl; split_and!; try done; apply Hw.
Qed.

(** A check either leaves the budgets alone or charges the gossiper. *)
Lemma check_charges (D : gset Z) now peer gossiper existing g : cache_ok D (gi_gossipers g) → gossiper ∈ D →
  let '(r, g') := check_gossip now peer gossiper existing g in
  let b := window_budget now (gi_cooldown g) (budgets g !! gossiper) in
  cache_ok D (gi_gossipers g') ∧ gi_cooldown g' = gi_cooldown g ∧
  gi_max_records_per_gossiper g' = gi_max_records_per_gossiper g ∧
  ((r ≠ Ok Accepted ∧ budgets g' = budgets g) ∨
   (r ≠ Ok Accepted ∧ gi_max_records_per_gossiper g <= gb_admitted b ∧ budgets g' = <[gossiper := b]> (budgets g)) ∨
   (r = Ok Accepted ∧ gb_admitted b < gi_max_records_per_gossiper g ∧
      budgets g' = <[gossiper := mkBudget (gb_window_start b) (gb_admitted b + 1)]> (budgets g))).
Proof.
  intros Hok HD. unfold check_gossip.
  destruct (head _); [|by split_and!; auto]. destruct (extract_peer_id _); [|by split_and!; auto].
  destruct (already_known _ _); [by split_and!; auto|]. destruct (rc_get _ (gi_cooldowns g)) as [st c].
  destruct (is_some_and _ _); [by split_and!; auto|].
  pose proof (charge_spec D gossiper now (with_cooldowns c g) Hok HD) as H. cbv zeta in H.
  destruct (charge_gossiper _ _ _) as [[[]|e] g']; simpl in *; destruct H as (Hok' & _ & Hc & Hm & H);
    case_decide; destruct H as [Hr Hb]; try done; simpl; split_and!; try done; [by right; right; split_and!; [done|lia|]|by right; left].
Qed.

(** Admissions from one gossiper in the half-open interval [[t0, t0 + len)]. *)
Definition admitted_in (gossiper t0 len : Z) (x : Received * result GossipCheckError GossipCheckOk) : bool :=
  bool_decide (ck_gossiper x.1 = gossiper) && bool_decide (x.2 = Ok Accepted) &&
  bool_decide (t0 <= ck_now x.1 < t0 + len).

Definition count_admitted (gossiper t0 len : Z) (rs : list (Received * result GossipCheckError GossipCheckOk)) : Z :=
  sumZ (λ x, if admitted_in gossiper t0 len x then 1 else 0) rs.

(** What is known of a gossiper after [cnt] counted admissions, at time [last]. *)
Definition budget_inv (gossiper t0 cnt last : Z) g : Prop :=
  0 <= cnt <= 2 * gi_max_records_per_gossiper g ∧ (last < t0 → cnt = 0) ∧
  match budgets g !! gossiper with
  | None => cnt = 0
  | Some b => 0 <= gb_admitted b <= gi_max_records_per_gossiper g ∧ gb_window_start b <= last ∧
      (gb_window_start b < t0 → cnt <= gb_admitted b) ∧
      (t0 <= gb_window_start b < t0 + gi_cooldown g → cnt <= gi_max_records_per_gossiper g + gb_admitted b)
  end.

Lemma budget_inv_charge gossiper t0 cnt last now b g (n : Z) :
  0 <= gi_max_records_per_gossiper g → last <= now → budget_inv gossiper t0 cnt last g →
  b = window_budget now (gi_cooldown g) (budgets g !! gossiper) →
  n = gb_admitted b ∧ gi_max_records_per_gossiper g <= gb_admitted b ∨
  n = gb_admitted b + 1 ∧ gb_admitted b < gi_max_records_per_gossiper g →
  let cnt' := cnt + (if decide (n = gb_admitted b) then 0
                     else if decide (t0 <= now < t0 + gi_cooldown g) then 1 else 0) in
  0 <= cnt' <= 2 * gi_max_records_per_gossiper g ∧ (now < t0 → cnt' = 0) ∧
  0 <= n <= gi_max_records_per_gossiper g ∧ gb_window_start b <= now ∧
  (gb_window_start b < t0 → cnt' <= n) ∧
  (t0 <= gb_window_start b < t0 + gi_cooldown g → cnt' <= gi_max_records_per_gossiper g + n).
Proof.
  intros Hm Hle (Hc & H0 & Hb) -> Hn. unfold window_budget, duration_since in *.
  destruct (budgets g !! gossiper) as [[ws k]|]; simpl in *; repeat case_decide; simpl in *; lia.
Qed.

Lemma budget_inv_step (D : gset Z) gossiper t0 cnt last c g :
  cache_ok D (gi_gossipers g) → 0 <= gi_max_records_per_gossiper g → ck_gossiper c ∈ D → last <= ck_now c →
  budget_inv gossiper t0 cnt last g →
  let '(r, g') := check_gossip (ck_now c) (ck_peer c) (ck_gossiper c) (ck_existing c) g in
  cache_ok D (gi_gossipers g') ∧ gi_cooldown g' = gi_cooldown g ∧
  gi_max_records_per_gossiper g' = gi_max_records_per_gossiper g ∧
  budget_inv gossiper t0 (cnt + if admitted_in gossiper t0 (gi_cooldown g) (c, r) then 1 else 0) (ck_now c) g'.
Proof.
  intros Hok Hm HD Hle Hi. pose proof (check_charges D (ck_now c) (ck_peer c) (ck_gossiper c) (ck_existing c) g Hok HD) as H.
  destruct (check_gossip _ _ _ _ g) as [r g']. cbv zeta in H. destruct H as (Hok' & Ec & Em & H).
  split_and!; [done..|]. unfold budget_inv, admitted_in. rewrite Ec, Em. simpl.
  pose proof Hi as (Hc & H0 & Hb).
  assert (Hsame : budgets g' !! gossiper = budgets g !! gossiper → r ≠ Ok Accepted ∨ ck_gossiper c ≠ gossiper →
    budget_inv gossiper t0 cnt (ck_now c) g').
  { intros E _. unfold budget_inv. rewrite E, Ec, Em. split_and!; [lia..|]. destruct (budgets g !! gossiper); [lia|done]. }
  unfold budget_inv in Hsame. rewrite Ec, Em in Hsame.
  destruct (decide (ck_gossiper c = gossiper)) as [Hg|Hne]; [subst gossiper|].
  - destruct H as [[Hr E]|[(Hr & Hx & E)|(-> & Hx & E)]].
    + rewrite !bool_decide_eq_true_2, bool_decide_eq_false_2 by done. simpl. rewrite Z.add_0_r. apply Hsame; [by rewrite E|auto].
    + rewrite bool_decide_eq_true_2, bool_decide_eq_false_2 by done. simpl. rewrite E, lookup_insert_eq.
      pose proof (budget_inv_charge (ck_gossiper c) t0 cnt last (ck_now c) _ g _ Hm Hle Hi eq_refl (or_introl (conj eq_refl Hx))) as Hs.
      cbv zeta in Hs. rewrite decide_True in Hs by done. tauto.
    + rewrite !bool_decide_eq_true_2 by done. simpl. rewrite E, lookup_insert_eq.
      pose proof (budget_inv_charge (ck_gossiper c) t0 cnt last (ck_now c) _ g _ Hm Hle Hi eq_refl (or_intror (conj eq_refl Hx))) as Hs.
      cbv zeta in Hs. rewrite decide_False in Hs by lia. simpl.
      destruct (decide (t0 <= ck_now c < t0 + gi_cooldown g)); [rewrite bool_decide_eq_true_2|rewrite bool_decide_eq_false_2]; tauto.
  - rewrite bool_decide_eq_false_2 by done. simpl. rewrite Z.add_0_r. apply Hsame; [|auto].
    destruct H as [[_ ->]|[(_ & _ & ->)|(_ & _ & ->)]]; [done|by rewrite lookup_insert_ne..].
Qed.

Lemma budget_inv_run (D : gset Z) gossiper t0 cs cnt last g :
  cache_ok D (gi_gossipers g) → 0 <= gi_max_records_per_gossiper g → (∀ c, c ∈ cs → ck_gossiper c ∈ D) →
  StronglySorted Z.le (last :: (ck_now <$> cs)) → budget_inv gossiper t0 cnt last g →
  cnt + count_admitted gossiper t0 (gi_cooldown g) (check_all g cs).1 <= 2 * gi_max_records_per_gossiper g.
Proof.
  revert cnt last g. induction cs as [|c cs IH]; intros cnt last g Hok Hm HD Hs Hi; simpl.
  - destruct Hi. unfold count_admitted. simpl. lia.
  - apply StronglySorted_inv in Hs as [Hs Hl]. rewrite fmap_cons, Forall_cons in Hl. destruct Hl as [Hl _].
    pose proof (budget_inv_step D gossiper t0 cnt last c g Hok Hm (HD c ltac:(left)) Hl Hi) as H.
    destruct (check_gossip _ _ _ _ g) as [r g']. destruct H as (Hok' & Ec & Em & Hi').
    specialize (IH _ _ _ Hok' ltac:(lia) (λ x Hx, HD x (list_elem_of_further _ _ _ Hx)) Hs Hi').
    destruct (check_all g' cs) as [rs g'']. unfold count_admitted in *. simpl in *. rewrite Ec, Em in IH. lia.
Qed.

(** ** Lemmas: cooldowns *)

Abbreviation cooldowns g := (rc_view (gi_cooldowns g)).

(** The last record of an overlay that was processed: admitted, or known already. *)
Definition processed (x : Received * result GossipCheckError GossipCheckOk) : option (Z * CooldownState) :=
  match x.2 with
  | Ok _ => Some (overlay_of (ck_peer x.1), mkCooldown (ck_now x.1) (multiaddrs_fingerprint (ck_peer x.1)))
  | Err _ => None
  end.

Definition last_processed (overlay : Z) (rs : list (Received * result GossipCheckError GossipCheckOk)) : option CooldownState :=
  snd <$> last (filter (λ x, x.1 = overlay) (omap processed rs)).

Lemma charge_cooldowns gossiper now g : gi_cooldowns (charge_gossiper gossiper now g).2 = gi_cooldowns g ∧
  gi_cooldown (charge_gossiper gossiper now g).2 = gi_cooldown g.
Proof.
  unfold charge_gossiper. destruct (rc_get _ _) as [[b|] c]; destruct (rc_get gossiper _) as [[b'|] c']; try done;
    by repeat case_decide.
Qed.

Lemma charge_no_cooldown gossiper now g : (charge_gossiper gossiper now g).1 ≠ Err CooldownActive.
Proof. unfold charge_gossiper. by repeat case_match. Qed.

Lemma touch_cooldown_ok (D : gset Z) overlay now fp g : cache_ok D (gi_cooldowns g) → overlay ∈ D →
  cache_ok D (gi_cooldowns (touch_cooldown overlay now fp g)) ∧
  cooldowns (touch_cooldown overlay now fp g) = <[overlay := mkCooldown now fp]> (cooldowns g).
Proof. intros Hok HD. destruct (rc_insert_ok D overlay (mkCooldown now fp) _ Hok HD). by split. Qed.

(** A check restarts the overlay's clock exactly when it processes the record. *)
Lemma check_cooldowns (D : gset Z) now peer gossiper existing g : cache_ok D (gi_cooldowns g) → overlay_of peer ∈ D →
  let '(r, g') := check_gossip now peer gossiper existing g in
  cache_ok D (gi_cooldowns g') ∧ gi_cooldown g' = gi_cooldown g ∧
  cooldowns g' = match r with
                 | Ok _ => <[overlay_of peer := mkCooldown now (multiaddrs_fingerprint peer)]> (cooldowns g)
                 | Err _ => cooldowns g
                 end.
Proof.
  intros Hok HD. unfold check_gossip.
  destruct (head _); [|done]. destruct (extract_peer_id _); [|done]. destruct (already_known _ _).
  { destruct (touch_cooldown_ok D (overlay_of peer) now (multiaddrs_fingerprint peer) g Hok HD). done. }
  destruct (rc_get_ok D (overlay_of peer) (gi_cooldowns g) Hok) as (_ & Ew & Hok').
  destruct (rc_get _ (gi_cooldowns g)) as [st c]. simpl in *. destruct (is_some_and _ _); [done|].
  pose proof (charge_cooldowns gossiper now (with_cooldowns c g)) as [E1 E2].
  destruct (charge_gossiper _ _ _) as [[[]|e] g']; simpl in *.
  - destruct (touch_cooldown_ok D (overlay_of peer) now (multiaddrs_fingerprint peer) g') as [H1 H2]; [by rewrite E1|done|].
    split_and!; [exact H1|exact E2|]. etrans; [exact H2|]. by rewrite E1, Ew.
  - rewrite E1, Ew. done.
Qed.

Lemma check_all_app g cs cs' : check_all g (cs ++ cs') =
  let '(rs, g') := check_all g cs in let '(rs', g'') := check_all g' cs' in (rs ++ rs', g'').
Proof.
  revert g. induction cs as [|c cs IH]; intros g; simpl; [by destruct (check_all g cs')|].
  destruct (check_gossip _ _ _ _ g) as [r g1]. rewrite IH. destruct (check_all g1 cs) as [rs g2].
  by destruct (check_all g2 cs') as [rs' g3].
Qed.

Lemma cooldowns_run (D : gset Z) cs g : cache_ok D (gi_cooldowns g) → cooldowns g = ∅ →
  (∀ c, c ∈ cs → overlay_of (ck_peer c) ∈ D) →
  let '(rs, g') := check_all g cs in
  cache_ok D (gi_cooldowns g') ∧ gi_cooldown g' = gi_cooldown g ∧ ∀ o, cooldowns g' !! o = last_processed o rs.
Proof.
  intros Hok He HD. induction cs as [|c cs IH] using rev_ind.
  - simpl. split_and!; [done..|]. intros o. by rewrite He, lookup_empty.
  - rewrite check_all_app. destruct (check_all g cs) as [rs g1]. simpl.
    destruct IH as (Hok1 & Ec1 & Hv1); [intros x Hx; apply HD, elem_of_app; by left|].
    pose proof (check_cooldowns D (ck_now c) (ck_peer c) (ck_gossiper c) (ck_existing c) g1 Hok1) as H.
    destruct (check_gossip _ _ _ _ g1) as [r g2]. destruct H as (Hok2 & Ec2 & Hv2).
    { apply HD, elem_of_app. right. by left. }
    split_and!; [done|congruence|]. intros o. rewrite Hv2. unfold last_processed. rewrite omap_app. simpl.
    destruct r as [k|e]; simpl; [|by rewrite app_nil_r, Hv1]. rewrite filter_app, lookup_insert.
    case_decide; subst; [|rewrite filter_cons_False by done; by rewrite filter_nil, app_nil_r, Hv1].
    by rewrite filter_cons_True, filter_nil, last_snoc.
Qed.

Lemma fold_lxor_perm l k z : l ≡ₚ k → foldl Z.lxor z l = foldl Z.lxor z k.
Proof.
  intros H. revert z. induction H as [|x l k H IH|x y l|l k m H IH H' IH']; intros z; simpl; [done|auto| |by rewrite IH].
  f_equal. rewrite !Z.lxor_assoc. f_equal. apply Z.lxor_comm.
Qed.

(** ** Properties *)

(** C29: one gossiper cannot flood the known table.  Whatever records it sends, in
    whatever order they are mixed with those of other gossipers, at most twice its
    budget are admitted in any interval of one window, as long as the gossipers fit
    the cache that tracks them. *)
Theorem gossip_budget_bound (c : GossipConfig) (cs : list Received) (gossipers : gset Z) (gossiper t0 : Z) :
  0 <= gc_max_records_per_gossiper c → Z.of_nat (size gossipers) <= gc_max_tracked_gossipers c →
  (∀ x, x ∈ cs → ck_gossiper x ∈ gossipers) → StronglySorted Z.le (ck_now <$> cs) →
  count_admitted gossiper t0 (gc_record_cooldown c) (check_all (intake_new c) cs).1
    <= 2 * gc_max_records_per_gossiper c.
Proof.
  intros Hm Hsz HD Hs. destruct (cache_ok_new (V:=GossiperBudget) (C:=CB) gossipers (gc_max_tracked_gossipers c) Hsz) as [Hok He].
  destruct cs as [|x cs]; [unfold count_admitted; simpl; lia|].
  change (gc_record_cooldown c) with (gi_cooldown (intake_new c)).
  change (gc_max_records_per_gossiper c) with (gi_max_records_per_gossiper (intake_new c)).
  rewrite <-(Z.add_0_l (count_admitted _ _ _ _)).
  eapply (budget_inv_run gossipers gossiper t0 (x :: cs) 0 (ck_now x)); try done.
  - constructor; [done|]. rewrite fmap_cons in Hs |- *. apply StronglySorted_inv in Hs as [_ Hl]. by constructor.
  - unfold budget_inv. simpl. rewrite He, lookup_empty. lia.
Qed.

(** Re-broadcasts are suppressed and news is not.  After any checks on overlays
    that fit the cache, a well-formed record that is not the stored one is dropped for
    its cooldown exactly when the last record processed for its overlay had the same
    address fingerprint less than a cooldown ago; the order of addresses in a
    record plays no part. *)
Theorem cooldown_exact (c : GossipConfig) (cs : list Received) (x : Received) (overlays : gset Z) a id :
  Z.of_nat (size overlays) <= gc_max_tracked_cooldowns c →
  (∀ y, y ∈ cs ++ [x] → overlay_of (ck_peer y) ∈ overlays) →
  head (multiaddrs (ck_peer x)) = Some a → extract_peer_id a = Some id → already_known (ck_peer x) (ck_existing x) = false →
  let '(rs, g) := check_all (intake_new c) cs in
  ((check_gossip (ck_now x) (ck_peer x) (ck_gossiper x) (ck_existing x) g).1 = Err CooldownActive ↔
   ∃ t, last_processed (overlay_of (ck_peer x)) rs = Some (mkCooldown t (multiaddrs_fingerprint (ck_peer x))) ∧
     duration_since (ck_now x) t < gc_record_cooldown c) ∧
  (∀ p p', multiaddrs p ≡ₚ multiaddrs p' → multiaddrs_fingerprint p = multiaddrs_fingerprint p').
Proof.
  intros Hsz HD Ha Hid Hk. destruct (cache_ok_new (V:=CooldownState) (C:=CC) overlays (gc_max_tracked_cooldowns c) Hsz) as [Hok He].
  pose proof (cooldowns_run overlays cs (intake_new c) Hok He) as H.
  destruct (check_all (intake_new c) cs) as [rs g]. destruct H as (Hok' & Ec & Hv).
  { intros y Hy. apply HD, elem_of_app. by left. }
  split; [|intros p p' Hp; unfold multiaddrs_fingerprint; by apply fold_lxor_perm; rewrite Hp].
  unfold check_gossip. rewrite Ha, Hid, Hk.
  destruct (rc_get_ok overlays (overlay_of (ck_peer x)) (gi_cooldowns g) Hok') as (Ev & _).
  destruct (rc_get _ (gi_cooldowns g)) as [st k]. simpl in Ev. subst st. rewrite Hv. simpl. rewrite Ec. simpl.
  destruct (last_processed _ rs) as [[t f]|]; simpl.
  - destruct (bool_decide (f = _) && bool_decide (duration_since _ t < _)) eqn:E.
    + apply andb_true_iff in E as [->%bool_decide_eq_true_1 Hd%bool_decide_eq_true_1]. simpl. naive_solver.
    + apply andb_false_iff in E. split; [|intros (t' & [= -> ->] & Hd); exfalso; destruct E as [E|E];
        apply bool_decide_eq_false_1 in E; done].
      intros Hx. exfalso. apply (charge_no_cooldown (ck_gossiper x) (ck_now x) (with_cooldowns k g)).
      destruct (charge_gossiper _ _ _) as [[[]|e] g']; simpl in *; congruence.
  - split; [|naive_solver]. intros Hx. exfalso. apply (charge_no_cooldown (ck_gossiper x) (ck_now x) (with_cooldowns k g)).
    destruct (charge_gossiper _ _ _) as [[[]|e] g']; simpl in *; congruence.
Qed.
End intake.

(** ** A concrete gate *)

(** The cache as its content and capacity. *)
Record ListCache (K V : Type) := mkListCache { ca_list : list (K * V); ca_capacity : Z }.
Arguments mkListCache {K V}.
Arguments ca_list {K V}.
Arguments ca_capacity {K V}.

Definition moved `{Countable K} {V} (k : K) (v : V) (c : ListCache K V) : ListCache K V :=
  mkListCache (without k (ca_list c) ++ [(k, v)]) (ca_capacity c).

#[refine, export] Instance list_cache `{Countable K} V : RecencyCache K V (ListCache K V) := {|
  rc_new n := mkListCache [] n;
  rc_get k c := match assoc k (ca_list c) with Some v => (Some v, moved k v c) | None => (None, c) end;
  rc_write k v c := match assoc k (ca_list c) with Some _ => moved k v c | None => c end;
  rc_insert k v c :=
    let l := without k (ca_list c) ++ [(k, v)] in
    mkListCache (drop (length l - Z.to_nat (ca_capacity c)) l) (ca_capacity c);
  rc_capacity := ca_capacity;
  rc_list := ca_list;
|}.
Proof.
  all: intros; simpl; try done; try (by destruct (assoc _ _)).
Defined.

Module IntakeDemo.

(** A record is its overlay, addresses and signature. *)
Abbreviation Rec := (Z * list Multiaddr * Z)%type.
Definition addr (k : Z) : Multiaddr := [Ip4 k; Tcp 1634; P2p k].
Definition hash (a : Multiaddr) : Z := match a with Ip4 k :: _ => k | _ => 0 end.
Definition config : GossipConfig := mkGossipConfig 600 1 300 2 4 4.
Definition received (now gossiper overlay sig : Z) (addrs : list Z) : Received (SwarmPeer:=Rec) :=
  mkCheck now gossiper (overlay, addr <$> addrs, sig) None.

Abbreviation fresh := (intake_new (CC:=ListCache Z CooldownState) (CB:=ListCache Z GossiperBudget) config).
Abbreviation checks := (check_all (SwarmPeer:=Rec) (λ p, p.1.1) (λ p, p.1.2) snd hash fresh).

(** Two records are admitted, a third is refused, and a re-signed copy is dropped. *)
Definition batch : list Received := [received 10 7 1 0 [5; 6]; received 20 7 2 0 [8]; received 30 7 3 0 [9]; received 40 8 1 1 [6; 5]].

Lemma gossip_budget_bound_witness :
  snd <$> (checks batch).1 = [Ok Accepted; Ok Accepted; Err GossiperRateLimited; Err CooldownActive] ∧
  count_admitted 7 0 300 (checks batch).1 = 2 ∧
  count_admitted 7 0 300 (checks batch).1 <= 2 * gc_max_records_per_gossiper config.
Proof.
  split; [vm_compute; reflexivity|]. split; [vm_compute; reflexivity|].
  apply (gossip_budget_bound (λ p : Rec, p.1.1) (λ p, p.1.2) snd hash config batch {[7; 8]} 7 0).
  - done.
  - by vm_compute.
  - intros x Hx. unfold batch in Hx. rewrite !elem_of_cons in Hx.
    destruct Hx as [-> | [-> | [-> | [-> | []%not_elem_of_nil]]]]; simpl; set_solver.
  - repeat constructor; done.
Defined.

Lemma cooldown_exact_witness :
  let '(rs, g) := checks (take 3 batch) in
  (check_gossip (λ p : Rec, p.1.1) (λ p, p.1.2) snd hash 40 (1, addr <$> [6; 5], 1) 8 None g).1 = Err CooldownActive ∧
  ∃ t, last_processed (λ p : Rec, p.1.1) (λ p, p.1.2) hash 1 rs =
         Some (mkCooldown t (multiaddrs_fingerprint (λ p : Rec, p.1.2) hash (1, addr <$> [6; 5], 1))) ∧
    duration_since 40 t < gc_record_cooldown config.
Proof.
  pose proof (cooldown_exact (λ p : Rec, p.1.1) (λ p, p.1.2) snd hash (CC:=ListCache Z CooldownState) (CB:=ListCache Z GossiperBudget)
    config (take 3 batch) (received 40 8 1 1 [6; 5]) {[1; 2; 3]} (addr 6) 6) as H.
  assert (Z.of_nat (size ({[1; 2; 3]} : gset Z)) <= gc_max_tracked_cooldowns config) as H1 by (by vm_compute).
  assert (∀ y, y ∈ take 3 batch ++ [received 40 8 1 1 [6; 5]] → (ck_peer y).1.1 ∈ ({[1; 2; 3]} : gset Z)) as H2.
  { intros x Hx. unfold batch in Hx. simpl in Hx. rewrite !elem_of_cons in Hx.
    destruct Hx as [-> | [-> | [-> | [-> | []%not_elem_of_nil]]]]; simpl; set_solver. }
  specialize (H H1 H2 eq_refl eq_refl eq_refl).
  assert ((check_gossip (λ p : Rec, p.1.1) (λ p, p.1.2) snd hash 40 (1, addr <$> [6; 5], 1) 8 None (checks (take 3 batch)).2).1
    = Err CooldownActive) as H3 by (vm_compute; reflexivity).
  destruct (checks (take 3 batch)) as [rs g]. destruct H as [H _]. split; [exact H3|]. apply H. exact H3.
Defined.

(** The fingerprint of a list with a repeated address is that of the list without
    both copies, so adding an address twice goes unnoticed. *)
Example repeated_address_cancels :
  multiaddrs_fingerprint (λ p : Rec, p.1.2) hash (1, addr <$> [5; 6; 6], 0) =
  multiaddrs_fingerprint (λ p : Rec, p.1.2) hash (1, addr <$> [5], 0).
Proof. vm_compute. reflexivity. Qed.

End IntakeDemo.
