(* ===== verification/Gossip.v ===== *)
(** * Gossip: who is told about whom

    Models the gossip task of [swarm/topology/src/gossip/] ([filter.rs],
    [tasks.rs], [events.rs]) and the peer selection it uses
    ([kademlia/peer_selection.rs]), over the peer manager of [PeerManager] and the
    intake of [GossipIntake], with the address predicates of
    [peers/peer/src/swarm_peer.rs].  A handler is a function of the task, the peer
    manager and the active connections it reads; it returns the actions it emits.
    The task and the peer manager run one handler at a time.  Iteration orders,
    clock readings and the partial selection of a slice are inputs. *)

From S2P Require Import Prelude.
From S2P Require Import Primitives.
From S2P Require Import LocalNet.
From S2P Require Import GossipIntake.
From S2P Require Import ProximityIndex.
From S2P Require Import Kademlia.
From S2P Require Import PeerManager.

(** ** Scopes of a record *)

Definition scope_rank (s : AddressScope) : Z :=
  match s with Public => 3 | LinkLocal => 2 | Private => 1 | Loopback => 0 end.

(** [max_by_key]: the last of the maximal elements. *)
Definition max_by_rank (best : option AddressScope) (s : AddressScope) : option AddressScope :=
  match best with
  | Some b => if decide (scope_rank s < scope_rank b) then Some b else Some s
  | None => Some s
  end.

Definition MAX_PEERS_FOR_DISTANT : nat := 16.
Definition CLOSE_PEERS_COUNT : nat := 4.

Definition detect_depth_decrease (current last : Z) : option (Z * Z) * Z :=
  if decide (current = last) then (None, last)
  else if decide (last <= current) then (None, current)
  else (Some (last, current), current).

(** ** Choosing storers for a distant peer *)

Section selection.
Context {SwarmPeer : Type} (select_nth : (nat → Z) → nat → list nat → list nat).

(** A storer with its proximity to the recipient and its bin. *)
Abbreviation StorerRow := (SwarmPeer * Z * Z)%type.

(** The proximity of the storer at an index. *)
Definition row_key (storers : list StorerRow) (i : nat) : Z := from_option (λ s, s.1.2) (-1) (storers !! i).

Definition close_indices (storers : list StorerRow) : list nat :=
  let key := row_key storers in
  let indices := seq 0 (length storers) in
  if decide (CLOSE_PEERS_COUNT < length indices)%nat then
    let indices := select_nth key CLOSE_PEERS_COUNT indices in
    sort_desc key (take CLOSE_PEERS_COUNT indices)
  else sort_desc key indices.

(** The loop of the second phase over [(index, storer)]: one peer of each bin. *)
Fixpoint bin_phase (storers : list (nat * StorerRow)) (selected : list nat) (added_bins : list Z) : list nat :=
  match storers with
  | [] => selected
  | (i, (_, _, bin)) :: storers =>
      if decide (MAX_PEERS_FOR_DISTANT <= length selected)%nat then selected
      else if decide (i ∈ selected) then bin_phase storers selected added_bins
      else if decide (bin ∈ added_bins) then bin_phase storers selected added_bins
      else bin_phase storers (selected ++ [i]) (bin :: added_bins)
  end.

Fixpoint fill_phase (storers : list (nat * StorerRow)) (selected : list nat) : list nat :=
  match storers with
  | [] => selected
  | (i, _) :: storers =>
      if decide (MAX_PEERS_FOR_DISTANT <= length selected)%nat then selected
      else if decide (i ∈ selected) then fill_phase storers selected
      else fill_phase storers (selected ++ [i])
  end.

Definition select_indices (storers : list StorerRow) : list nat :=
  let enumerated := imap pair storers in
  fill_phase enumerated (bin_phase enumerated (take CLOSE_PEERS_COUNT (close_indices storers)) []).

(** ** Lemmas: selection *)

(** What [select_nth_unstable_by] promises for a descending comparison. *)
Definition select_nth_ok : Prop := ∀ key k (l : list nat), (k < length l)%nat →
  select_nth key k l ≡ₚ l ∧
  ∀ i j, i ∈ take k (select_nth key k l) → j ∈ drop k (select_nth key k l) → key j <= key i.

(** The first phase picks the closest storers. *)
Lemma close_indices_spec (storers : list StorerRow) : select_nth_ok →
  let idx := take CLOSE_PEERS_COUNT (close_indices storers) in
  NoDup idx ∧ (∀ i, i ∈ idx → (i < length storers)%nat) ∧ length idx = Nat.min CLOSE_PEERS_COUNT (length storers) ∧
  (∀ i j, i ∈ idx → (j < length storers)%nat → j ∉ idx → row_key storers j <= row_key storers i).
Proof.
  intros Hsel. cbv zeta. unfold close_indices. rewrite length_seq. set (key := row_key storers).
  case_decide as Hlen.
  - destruct (Hsel key CLOSE_PEERS_COUNT (seq 0 (length storers))) as [Hp Ho]; [by rewrite length_seq|].
    set (sel := select_nth _ _ _) in *. rewrite take_ge by (rewrite sort_desc_perm, length_take; lia).
    assert (length sel = length storers) as Hl by (by rewrite Hp, length_seq).
    assert (NoDup sel) as Hn by (rewrite Hp; apply NoDup_seq).
    split_and!.
    + rewrite sort_desc_perm. rewrite <-(take_drop CLOSE_PEERS_COUNT sel) in Hn. by apply NoDup_app in Hn as [? _].
    + intros i. rewrite sort_desc_perm. intros Hi. assert (i ∈ sel) as Hi' by (rewrite <-(take_drop CLOSE_PEERS_COUNT sel); set_solver).
      rewrite Hp in Hi'. apply elem_of_seq in Hi'. lia.
    + rewrite sort_desc_perm, length_take. lia.
    + intros i j. rewrite !sort_desc_perm. intros Hi Hj Hj'. apply Ho; [done|].
      assert (j ∈ sel) as Hjs by (rewrite Hp; apply elem_of_seq; lia).
      rewrite <-(take_drop CLOSE_PEERS_COUNT sel) in Hjs. apply elem_of_app in Hjs as [?|?]; done.
  - rewrite take_ge by (rewrite sort_desc_perm, length_seq; lia).
    split_and!.
    + rewrite sort_desc_perm. apply NoDup_seq.
    + intros i. rewrite sort_desc_perm, elem_of_seq. lia.
    + rewrite sort_desc_perm, length_seq. lia.
    + intros i j _ Hj. rewrite sort_desc_perm, elem_of_seq. lia.
Qed.

(** Both later phases extend the selection by further indices of the list. *)
Definition extends (es : list (nat * StorerRow)) (sel sel' : list nat) : Prop :=
  ∃ more, sel' = sel ++ more ∧ (∀ i, i ∈ more → i ∈ es.*1) ∧
    (NoDup sel → NoDup sel') ∧ ((length sel <= MAX_PEERS_FOR_DISTANT)%nat → (length sel' <= MAX_PEERS_FOR_DISTANT)%nat).

Lemma extends_refl es sel : extends es sel sel.
Proof. exists []. rewrite app_nil_r. split_and!; auto. by intros i ?%not_elem_of_nil. Qed.

Lemma extends_skip e es sel sel' : extends es sel sel' → extends (e :: es) sel sel'.
Proof. intros (m & -> & Hm & ?). exists m. split_and!; [done| |tauto..]. intros i Hi. right. auto. Qed.

Lemma extends_push e es sel sel' : (length sel < MAX_PEERS_FOR_DISTANT)%nat → e.1 ∉ sel →
  extends es (sel ++ [e.1]) sel' → extends (e :: es) sel sel'.
Proof.
  intros Hl He (m & -> & Hm & Hn & Hk). exists (e.1 :: m). rewrite <-app_assoc in *. split_and!; [done| | |].
  - intros i [->|Hi]%elem_of_cons; [by left|right; auto].
  - intros Hs. apply Hn, NoDup_app. split_and!; [done| |apply NoDup_singleton]. set_solver.
  - intros _. apply Hk. rewrite length_app. simpl. lia.
Qed.

Lemma bin_phase_extends es sel bins : extends es sel (bin_phase es sel bins).
Proof.
  revert sel bins. induction es as [|[i [[p k] b]] es IH]; intros sel bins; simpl; [apply extends_refl|].
  repeat case_decide; try (by apply extends_skip); [apply extends_refl|]. apply (extends_push (i, (p, k, b))); [lia|done|apply IH].
Qed.

Lemma fill_phase_extends es sel : extends es sel (fill_phase es sel).
Proof.
  revert sel. induction es as [|[i s] es IH]; intros sel; simpl; [apply extends_refl|].
  repeat case_decide; try (by apply extends_skip); [apply extends_refl|]. apply (extends_push (i, s)); [lia|done|apply IH].
Qed.

Lemma fill_phase_full es sel : (length (fill_phase es sel) < MAX_PEERS_FOR_DISTANT)%nat → ∀ i, i ∈ es.*1 → i ∈ fill_phase es sel.
Proof.
  revert sel. induction es as [|[i s] es IH]; intros sel Hl j; simpl in *; [by intros ?%not_elem_of_nil|].
  repeat case_decide; [lia| |]; (intros [->|Hj]%elem_of_cons; [|by apply IH]).
  - destruct (fill_phase_extends es sel) as (m & -> & _). set_solver.
  - destruct (fill_phase_extends es (sel ++ [i])) as (m & -> & _). set_solver.
Qed.

(** While there is room for the bins that are left, each of them is covered. *)
Definition bins_left (es : list (nat * StorerRow)) (bins : list Z) : gset Z :=
  list_to_set ((λ e, e.2.2) <$> es) ∖ list_to_set bins.

Definition covered (es : list (nat * StorerRow)) (res : list nat) (b : Z) : Prop :=
  ∃ j s, j ∈ res ∧ (j, s) ∈ es ∧ s.2 = b.

Lemma bin_phase_covers es sel bins i s : (i, s) ∈ es →
  (length sel + size (bins_left es bins) <= MAX_PEERS_FOR_DISTANT)%nat →
  s.2 ∈ bins ∨ covered es (bin_phase es sel bins) s.2 ∨ i ∈ sel.
Proof.
  revert sel bins. induction es as [|[j [[p k] b]] es IH]; intros sel bins Hi Hlen; [by apply not_elem_of_nil in Hi|].
  assert (∀ res x, covered es res x → covered ((j, (p, k, b)) :: es) res x) as Hcov.
  { intros res x (j' & s' & ? & ? & ?). exists j', s'. split_and!; [done|by right|done]. }
  assert ((size (bins_left es bins) <= size (bins_left ((j, (p, k, b)) :: es) bins))%nat) as Hsub.
  { apply subseteq_size. unfold bins_left. simpl. set_solver. }
  apply elem_of_cons in Hi. simpl. destruct (decide (s.2 ∈ bins)) as [?|Hsb]; [by left|].
  case_decide as Hfull.
  { exfalso. assert (s.2 ∈ bins_left ((j, (p, k, b)) :: es) bins) as Hin.
    { unfold bins_left. apply elem_of_difference. rewrite !elem_of_list_to_set. split; [|done]. simpl.
      destruct Hi as [[= <- ->]|Hi]; [by left|right]. apply list_elem_of_fmap. by exists (i, s). }
    assert (size (bins_left ((j, (p, k, b)) :: es) bins) ≠ 0%nat) by (intros Hz%size_empty_inv; set_solver). lia. }
  case_decide as Hj.
  { destruct Hi as [[= -> _]|Hi]; [by right; right|]. destruct (IH sel bins Hi) as [?|[?|?]]; [lia|done|auto..]. }
  case_decide as Hb.
  { destruct Hi as [[= -> ->]|Hi]; [done|]. destruct (IH sel bins Hi) as [?|[?|?]]; [lia|done|auto..]. }
  assert (covered ((j, (p, k, b)) :: es) (bin_phase es (sel ++ [j]) (b :: bins)) b) as Hnew.
  { destruct (bin_phase_extends es (sel ++ [j]) (b :: bins)) as (m & -> & _). exists j, (p, k, b).
    split_and!; [set_solver|by left|done]. }
  destruct Hi as [[= -> ->]|Hi]; [by right; left|].
  destruct (IH (sel ++ [j]) (b :: bins) Hi) as [Hin|[?|Hin]]; [| |by right; left; apply Hcov|].
  - assert (bins_left es (b :: bins) ⊆ bins_left ((j, (p, k, b)) :: es) bins ∖ {[b]}) as Hd
      by (unfold bins_left; simpl; set_solver).
    apply subseteq_size in Hd. rewrite size_difference in Hd by (unfold bins_left; simpl; set_solver).
    rewrite size_singleton in Hd. rewrite length_app. simpl.
    assert (size (bins_left ((j, (p, k, b)) :: es) bins) ≠ 0%nat); [|lia].
    intros Hz%size_empty_inv. unfold bins_left in Hz. simpl in Hz. set_solver.
  - apply elem_of_cons in Hin as [->|?]; [by right; left|by left].
  - apply elem_of_app in Hin as [?|Hin]; [by right; right|]. apply list_elem_of_singleton in Hin as ->. right. left.
    destruct (bin_phase_extends es (sel ++ [j]) (b :: bins)) as (m & -> & _).
    exists j, s. split_and!; [set_solver|by right|done].
Qed.

Lemma enumerated_elem (storers : list StorerRow) i s : (i, s) ∈ imap pair storers ↔ storers !! i = Some s.
Proof.
  rewrite elem_of_lookup_imap. split; [intros (j & x & [= -> ->] & ?); done|eauto].
Qed.

Lemma enumerated_index (storers : list StorerRow) i : i ∈ (imap pair storers).*1 ↔ (i < length storers)%nat.
Proof.
  rewrite list_elem_of_fmap, <-lookup_lt_is_Some. split.
  - intros ([j s] & -> & Hs%enumerated_elem). eauto.
  - intros [s Hs]. exists (i, s). by rewrite enumerated_elem.
Qed.

Lemma NoDup_all_length (idx : list nat) n : NoDup idx → (∀ i, i ∈ idx ↔ (i < n)%nat) → length idx = n.
Proof.
  intros Hn Hi. rewrite <-(length_seq n 0). apply Permutation_length, NoDup_Permutation; [done|apply NoDup_seq|].
  intros i. rewrite Hi, elem_of_seq. lia.
Qed.

Lemma select_indices_spec (storers : list StorerRow) : select_nth_ok →
  let idx := select_indices storers in
  let close := take CLOSE_PEERS_COUNT (close_indices storers) in
  NoDup idx ∧ (∀ i, i ∈ idx → (i < length storers)%nat) ∧
  length idx = Nat.min MAX_PEERS_FOR_DISTANT (length storers) ∧ take CLOSE_PEERS_COUNT idx = take CLOSE_PEERS_COUNT close ∧
  ((size (list_to_set (snd <$> storers) : gset Z) <= 12)%nat →
    ∀ s, s ∈ storers → ∃ i s', i ∈ idx ∧ storers !! i = Some s' ∧ s'.2 = s.2).
Proof.
  intros Hsel. cbv zeta. destruct (close_indices_spec storers Hsel) as (Hn & Hb & Hl & _).
  unfold select_indices. set (close := take CLOSE_PEERS_COUNT (close_indices storers)) in *.
  set (es := imap pair storers). destruct (bin_phase_extends es close []) as (m1 & E1 & H1 & Hn1 & Hl1).
  destruct (fill_phase_extends es (bin_phase es close [])) as (m2 & E2 & H2 & Hn2 & Hl2).
  set (idx := fill_phase es (bin_phase es close [])) in *.
  assert (∀ i, i ∈ idx → (i < length storers)%nat) as Hlt.
  { intros i. rewrite E2, E1, !elem_of_app. intros [[?|?%H1]|?%H2]; [auto|by apply enumerated_index..]. }
  assert (length idx = Nat.min MAX_PEERS_FOR_DISTANT (length storers)) as Hlen.
  { destruct (decide (length idx < MAX_PEERS_FOR_DISTANT)%nat) as [Hf|Hf].
    - rewrite (NoDup_all_length idx (length storers)); [|auto|].
      + rewrite (NoDup_all_length idx (length storers)) in Hf; [lia|auto|]. intros i. split; [auto|]. intros Hi.
        apply fill_phase_full; [done|by apply enumerated_index].
      + intros i. split; [auto|]. intros Hi. apply fill_phase_full; [done|by apply enumerated_index].
    - assert (length idx <= MAX_PEERS_FOR_DISTANT)%nat by (apply Hl2, Hl1; unfold MAX_PEERS_FOR_DISTANT, CLOSE_PEERS_COUNT in *; lia).
      assert (length idx <= length storers)%nat; [|lia]. rewrite <-(length_seq (length storers) 0).
      apply submseteq_length, NoDup_submseteq; [auto|]. intros i Hi. apply elem_of_seq. specialize (Hlt i Hi). lia. }
  split_and!; [by auto|done|done| |].
  - rewrite E2, E1, <-app_assoc. rewrite Hl in *. destruct (decide (CLOSE_PEERS_COUNT <= length storers)%nat) as [Hc|Hc].
    + rewrite take_app_le by lia. done.
    + assert (m1 ++ m2 = []) as ->; [|by rewrite app_nil_r]. apply nil_length_inv. rewrite Hlen in *.
      assert (length idx = length close + length (m1 ++ m2))%nat as Ex by (rewrite E2, E1, !length_app; lia).
      rewrite Hlen, Hl in Ex. unfold MAX_PEERS_FOR_DISTANT, CLOSE_PEERS_COUNT in *. lia.
  - intros Hbins s [i Hi]%list_elem_of_lookup. pose proof (proj2 (enumerated_elem storers i s) Hi) as Hes.
    assert ((λ e : nat * StorerRow, e.2.2) <$> es = snd <$> storers) as Em.
    { apply list_eq. intros x. unfold es. rewrite !list_lookup_fmap, list_lookup_imap. by destruct (storers !! x). }
    destruct (bin_phase_covers es close [] i s Hes) as [?|[(j & s' & Hj & Hs' & Eb)|Hin]].
    + unfold bins_left. rewrite Em. simpl. rewrite difference_empty_L. unfold MAX_PEERS_FOR_DISTANT, CLOSE_PEERS_COUNT in *. lia.
    + by apply not_elem_of_nil in H.
    + exists j, s'. split_and!; [rewrite E2; apply elem_of_app; by left|by apply enumerated_elem|done].
    + exists i, s. split_and!; [rewrite E2, E1, !elem_of_app; auto|done|done].
Qed.

End selection.

Section gossip.
Context {SwarmPeer : Type} (overlay_of timestamp_of : SwarmPeer → Z) (multiaddrs : SwarmPeer → list Multiaddr).
Context (signature : SwarmPeer → Z) (addr_hash : Multiaddr → Z).
Context `{RC : !RecencyCache Z CooldownState CC} `{RB : !RecencyCache Z GossiperBudget CB}.
Context `{LH : LinkedHashSet B} (prox : Z → Z → Z) (local_overlay max_po bin_max : Z).
Context (select_nth : (nat → Z) → nat → list nat → list nat).

Abbreviation Manager := (PeerManager (SwarmPeer:=SwarmPeer) (B:=B)).
Abbreviation Intake := (GossipIntake (CC:=CC) (CB:=CB)).
Implicit Types (pm : Manager) (peer : SwarmPeer) (active : list Z).

Definition has_scope (s : AddressScope) peer : bool :=
  existsb (λ a, bool_decide (classify_multiaddr a = Some s)) (multiaddrs peer).
Definition max_scope peer : option AddressScope := foldl max_by_rank None (omap classify_multiaddr (multiaddrs peer)).
Definition ip_capability peer : IpCapability := from_addrs (multiaddrs peer).

Definition get_swarm_peer (o : Z) pm : option SwarmPeer := pe_peer <$> pm_peers pm !! o.
Definition get_swarm_peers (overlays : list Z) pm : list SwarmPeer := omap (λ o, get_swarm_peer o pm) overlays.
Definition get_peer_capability (o : Z) pm : option IpCapability := ip_capability <$> get_swarm_peer o pm.
Definition node_type (o : Z) pm : option SwarmNodeType := (λ e, cell_get (pe_node_type e)) <$> pm_peers pm !! o.

(** ** Filtering *)

Record RecipientProfile := mkProfile { rp_capability : IpCapability; rp_scope : AddressScope }.

Definition profile_lookup (o : Z) pm : RecipientProfile :=
  mkProfile (default CapDual (get_peer_capability o pm)) (default Public (get_swarm_peer o pm ≫= max_scope)).

Definition scope_eligible_for_recipient peer (recipient_scope : AddressScope) : bool :=
  if decide (recipient_scope ≠ Public) then true
  else negb (has_scope Private peer || has_scope LinkLocal peer || has_scope Loopback peer) && has_scope Public peer.

Definition peer_capability (o : Z) pm : IpCapability := default CapDual (get_peer_capability o pm).

Definition eligible_for (r : RecipientProfile) pm peer : bool :=
  can_reach (rp_capability r) (peer_capability (overlay_of peer) pm) && scope_eligible_for_recipient peer (rp_scope r).

Definition filter_peers_for_recipient (peers : list SwarmPeer) (r : RecipientProfile) pm : list SwarmPeer :=
  filter (eligible_for r pm) peers.

(** ** Selection *)

Definition bin_new (d : Z) : Z := if decide (d <= bin_max) then d else bin_max.

Definition connected_neighbors (depth : Z) active pm : list Z :=
  filter (λ o, Kademlia.depth_contains depth (prox local_overlay o) = true ∧ node_type o pm = Some Storer) active.

Definition known_neighborhood_peers (depth : Z) (exclude : option Z) pm : list SwarmPeer :=
  get_swarm_peers
    (filter (λ o, exclude ≠ Some o)
       (concat ((λ bin, storer_overlays_in_bin bin pm) <$> neighborhood_bins depth (bin_new max_po)))) pm.

Abbreviation StorerRow := (SwarmPeer * Z * Z)%type.

Definition known_storers (recipient : Z) pm : list StorerRow :=
  omap (λ o, (λ p, (p, prox recipient o, prox local_overlay o)) <$> get_swarm_peer o pm) (known_storer_overlays pm).

Definition select_for_distant (recipient : Z) pm : list (SwarmPeer * Z) :=
  let storers := known_storers recipient pm in
  omap (λ i, (λ s, (s.1.1, s.2)) <$> storers !! i) (select_indices select_nth storers).

Definition select_peers_for_distant (recipient : Z) (r : RecipientProfile) pm : list SwarmPeer :=
  (filter (λ x, eligible_for r pm x.1) (select_for_distant recipient pm)).*1.

(** ** The task *)

Record GossipAction := mkAction { ga_to : Z; ga_peers : list SwarmPeer }.

Record PendingExchange := mkExchange { px_peer_id : Z; px_peer : SwarmPeer; px_node_type : SwarmNodeType }.

Inductive GossipInput :=
| MarkGossipDial (peer_id : Z)
| PeerActivated (peer_id : Z) (swarm_peer : SwarmPeer) (t : SwarmNodeType)
| ConnectionClosed (peer_id : Z) (overlay : option Z)
| DepthChanged (depth : Z)
| PeersReceived (gossiper : Z) (peers : list SwarmPeer).

Record GossipTask := mkTask {
  gt_intake : Intake;
  gt_current_depth : Z;
  gt_last_depth : Z;
  gt_last_broadcast : gmap Z Z;
  gt_gossip_dial : gset Z;
  gt_refresh_interval : Z;
  gt_pending : list PendingExchange;
  gt_cancelled : gset Z;
}.

Implicit Types (t : GossipTask).

Definition task_new (c : GossipConfig) : GossipTask := mkTask (intake_new c) 0 0 ∅ ∅ (gc_refresh_interval c) [] ∅.

Definition with_intake (g : Intake) t : GossipTask :=
  mkTask g (gt_current_depth t) (gt_last_depth t) (gt_last_broadcast t) (gt_gossip_dial t) (gt_refresh_interval t)
    (gt_pending t) (gt_cancelled t).
Definition with_depths (current last : Z) t : GossipTask :=
  mkTask (gt_intake t) current last (gt_last_broadcast t) (gt_gossip_dial t) (gt_refresh_interval t)
    (gt_pending t) (gt_cancelled t).
Definition with_broadcast (m : gmap Z Z) t : GossipTask :=
  mkTask (gt_intake t) (gt_current_depth t) (gt_last_depth t) m (gt_gossip_dial t) (gt_refresh_interval t)
    (gt_pending t) (gt_cancelled t).
Definition with_exchanges (dial : gset Z) (pending : list PendingExchange) (cancelled : gset Z) t : GossipTask :=
  mkTask (gt_intake t) (gt_current_depth t) (gt_last_depth t) (gt_last_broadcast t) dial (gt_refresh_interval t)
    pending cancelled.

Definition broadcast_at (o now : Z) t : GossipTask := with_broadcast (<[o := now]> (gt_last_broadcast t)) t.

Definition task_neighbors active pm t : list Z := connected_neighbors (bin_new (gt_current_depth t)) active pm.

Definition neighborhood_peers (depth : Z) (exclude : option Z) pm : list SwarmPeer :=
  known_neighborhood_peers (bin_new depth) exclude pm.

Definition notify_neighbor pm (new_peer : Z) (info : SwarmPeer) (neighbor : Z) : option GossipAction :=
  if decide (neighbor = new_peer) then None
  else
    match filter_peers_for_recipient [info] (profile_lookup neighbor pm) pm with
    | [] => None
    | filtered => Some (mkAction neighbor filtered)
    end.

Definition handle_new_neighbor (now : Z) active pm (new_peer : Z) (info : SwarmPeer) (depth : Z) t :
    list GossipAction * GossipTask :=
  let filtered := filter_peers_for_recipient (neighborhood_peers depth (Some new_peer) pm) (profile_lookup new_peer pm) pm in
  let actions := match filtered with [] => [] | _ => [mkAction new_peer filtered] end in
  (actions ++ omap (notify_neighbor pm new_peer info) (task_neighbors active pm t), broadcast_at new_peer now t).

Definition handle_new_distant_peer (now : Z) pm (o : Z) t : list GossipAction * GossipTask :=
  match select_peers_for_distant o (profile_lookup o pm) pm with
  | [] => ([], t)
  | peers => ([mkAction o peers], broadcast_at o now t)
  end.

Definition on_peer_authenticated (now : Z) active pm peer (nt : SwarmNodeType) (depth : Z) t :
    list GossipAction * GossipTask :=
  let t := with_depths (gt_current_depth t) depth t in
  if negb (bool_decide (nt = Storer)) then ([], t)
  else
    let o := overlay_of peer in
    if decide (depth <= prox local_overlay o) then handle_new_neighbor now active pm o peer depth t
    else handle_new_distant_peer now pm o t.

Definition depth_change_one (now : Z) active pm (old_depth new_depth : Z) (acc : list GossipAction * GossipTask) (o : Z) :
    list GossipAction * GossipTask :=
  let proximity := prox local_overlay o in
  if decide (new_depth <= proximity ∧ proximity < old_depth ∧ node_type o pm = Some Storer) then
    match get_swarm_peer o pm with
    | Some peer =>
        let '(actions, t) := handle_new_neighbor now active pm o peer new_depth acc.2 in
        (acc.1 ++ actions, t)
    | None => acc
    end
  else acc.

Definition check_depth_change (now : Z) active pm t : list GossipAction * GossipTask :=
  match detect_depth_decrease (gt_current_depth t) (gt_last_depth t) with
  | (None, last) => ([], with_depths (gt_current_depth t) last t)
  | (Some (old_depth, new_depth), last) =>
      foldl (depth_change_one now active pm old_depth new_depth) ([], with_depths (gt_current_depth t) last t) active
  end.

Definition exchange_gossip (now : Z) active pm peer (nt : SwarmNodeType) t : list GossipAction * GossipTask :=
  let '(actions, t) := on_peer_authenticated now active pm peer nt (gt_current_depth t) t in
  let '(more, t) := check_depth_change now active pm t in
  (actions ++ more, t).

Definition schedule_exchange (x : PendingExchange) t : GossipTask :=
  with_exchanges (gt_gossip_dial t) (gt_pending t ++ [x]) (gt_cancelled t) t.

(** The [i]-th delayed exchange resolves. *)
Definition on_exchange_ready (now : Z) active pm (i : nat) t : list GossipAction * GossipTask :=
  match gt_pending t !! i with
  | None => ([], t)
  | Some x =>
      let t := with_exchanges (gt_gossip_dial t) (delete i (gt_pending t)) (gt_cancelled t) t in
      if decide (px_peer_id x ∈ gt_cancelled t) then
        ([], with_exchanges (gt_gossip_dial t) (gt_pending t) (gt_cancelled t ∖ {[px_peer_id x]}) t)
      else exchange_gossip now active pm (px_peer x) (px_node_type x) t
  end.

(** [clock i] is the monotonic and the Unix time when the [i]-th record is checked;
    the flag tells whether a record was admitted so far. *)
Definition gossiped_record (gossiper : Z) (clock : nat → Z * Z) (acc : bool * Manager * Intake) (x : nat * SwarmPeer) :
    bool * Manager * Intake :=
  let '(admitted, pm, g) := acc in
  let '(i, peer) := x in
  let existing := get_swarm_peer (overlay_of peer) pm in
  let '(r, g) := check_gossip overlay_of multiaddrs signature addr_hash (clock i).1 peer gossiper existing g in
  match r with
  | Ok AlreadyKnown => (admitted, pm, g)
  | Ok Accepted =>
      (true, store_discovered_peer overlay_of timestamp_of (prox local_overlay) max_po (clock i).2 peer pm, g)
  | Err _ => (admitted, pm, g)
  end.

Definition handle_gossiped_records (gossiper : Z) (clock : nat → Z * Z) (peers : list SwarmPeer) pm t :
    bool * Manager * GossipTask :=
  let '(admitted, pm, g) := foldl (gossiped_record gossiper clock) (false, pm, gt_intake t) (imap pair peers) in
  (admitted, pm, with_intake g t).

Record Outcome := mkOutcome {
  ot_actions : list GossipAction;
  ot_trigger : bool;
  ot_manager : Manager;
  ot_task : GossipTask;
}.

Definition handle_input (clock : nat → Z * Z) active pm (input : GossipInput) t : Outcome :=
  let now := (clock 0%nat).1 in
  match input with
  | MarkGossipDial p => mkOutcome [] false pm (with_exchanges (gt_gossip_dial t ∪ {[p]}) (gt_pending t) (gt_cancelled t) t)
  | PeerActivated p peer nt =>
      if decide (p ∈ gt_gossip_dial t) then
        let t := with_exchanges (gt_gossip_dial t ∖ {[p]}) (gt_pending t) (gt_cancelled t) t in
        mkOutcome [] false pm (schedule_exchange (mkExchange p peer nt) t)
      else
        let '(actions, t) := exchange_gossip now active pm peer nt t in
        mkOutcome actions false pm t
  | ConnectionClosed p overlay =>
      let t := with_exchanges (gt_gossip_dial t ∖ {[p]}) (gt_pending t) (gt_cancelled t ∪ {[p]}) t in
      let t := match overlay with Some o => with_broadcast (delete o (gt_last_broadcast t)) t | None => t end in
      let '(actions, t) := check_depth_change now active pm t in
      mkOutcome actions false pm t
  | DepthChanged d => mkOutcome [] false pm (with_depths d (gt_last_depth t) t)
  | PeersReceived gossiper peers =>
      let peers := filter (λ p, overlay_of p ≠ local_overlay) peers in
      match peers with
      | [] => mkOutcome [] false pm t
      | _ =>
          let '(admitted, pm, t) := handle_gossiped_records gossiper clock peers pm t in
          mkOutcome [] admitted pm t
      end
  end.

Definition is_stale_broadcast (now : Z) t (o : Z) : bool :=
  match gt_last_broadcast t !! o with
  | Some ts => bool_decide (gt_refresh_interval t < duration_since now ts)
  | None => true
  end.

Definition refresh_neighbor (now : Z) pm (all : list SwarmPeer) (acc : list GossipAction * GossipTask) (neighbor : Z) :
    list GossipAction * GossipTask :=
  if is_stale_broadcast now acc.2 neighbor then
    let filtered := filter_peers_for_recipient all (profile_lookup neighbor pm) pm in
    match filter (λ p, overlay_of p ≠ neighbor) filtered with
    | [] => acc
    | peers => (acc.1 ++ [mkAction neighbor peers], broadcast_at neighbor now acc.2)
    end
  else acc.

Definition gossip_tick (now : Z) active pm t : list GossipAction * GossipTask :=
  let t := match gt_pending t with [] => with_exchanges (gt_gossip_dial t) [] ∅ t | _ => t end in
  let t := with_broadcast
    (filter (λ x, duration_since now x.2 <= gt_refresh_interval t * 2) (gt_last_broadcast t)) t in
  let neighbors := task_neighbors active pm t in
  if existsb (is_stale_broadcast now t) neighbors then
    foldl (refresh_neighbor now pm (neighborhood_peers (gt_current_depth t) None pm)) ([], t) neighbors
  else ([], t).

(** ** Lemmas: the actions of a handler *)

Definition known pm peer : Prop := get_swarm_peer (overlay_of peer) pm = Some peer.

(** An action that tells a recipient only what it can use and may know. *)
Definition discreet pm (to : Z) peer : Prop :=
  let r := profile_lookup to pm in
  can_reach (rp_capability r) (peer_capability (overlay_of peer) pm) = true ∧
  (rp_scope r = Public →
    (∃ a, a ∈ multiaddrs peer ∧ classify_multiaddr a = Some Public) ∧
    ∀ a s, a ∈ multiaddrs peer → classify_multiaddr a = Some s → s = Public).

(** Where a record told to a recipient comes from: the peer manager or the handshake
    of the peer being announced.  Only a distant recipient may be told of itself. *)
Record action_ok (info : option SwarmPeer) (depth : Z) pm (a : GossipAction) : Prop := {
  ao_some : ga_peers a ≠ [];
  ao_discreet : ∀ p, p ∈ ga_peers a → discreet pm (ga_to a) p;
  ao_source : ∀ p, p ∈ ga_peers a → known pm p ∨ info = Some p;
  ao_self : ∀ p, p ∈ ga_peers a → overlay_of p ≠ ga_to a ∨ prox local_overlay (ga_to a) < depth;
}.

Abbreviation manager_ok := (pm_mid overlay_of (prox local_overlay) max_po None).

Lemma has_scope_true s peer : has_scope s peer = true ↔ ∃ a, a ∈ multiaddrs peer ∧ classify_multiaddr a = Some s.
Proof.
  unfold has_scope. rewrite existsb_exists. split; intros (a & Ha & Hs); exists a.
  - split; [by apply list_elem_of_In|by apply bool_decide_eq_true_1 in Hs].
  - split; [by apply list_elem_of_In|by apply bool_decide_eq_true_2].
Qed.

Lemma eligible_discreet to pm peer : eligible_for (profile_lookup to pm) pm peer = true → discreet pm to peer.
Proof.
  unfold eligible_for, scope_eligible_for_recipient. intros [Hc Hs]%andb_true_iff. split; [done|]. intros Hr.
  rewrite decide_False in Hs by (intros H; by apply H). apply andb_true_iff in Hs as [Hn Hp].
  apply has_scope_true in Hp. split; [done|]. intros a s Ha Es. apply negb_true_iff in Hn. rewrite !orb_false_iff in Hn.
  assert (∀ s', has_scope s' peer = false → s ≠ s') as Hno.
  { intros s' Hf ->. assert (has_scope s' peer = true) by (apply has_scope_true; eauto). congruence. }
  destruct Hn as [[H1%Hno H2%Hno] H3%Hno]. by destruct s.
Qed.

Lemma filter_discreet to pm peers p :
  p ∈ filter_peers_for_recipient peers (profile_lookup to pm) pm → discreet pm to p ∧ p ∈ peers.
Proof.
  unfold filter_peers_for_recipient. rewrite list_elem_of_filter, Is_true_true. intros [? ?].
  split; [by apply eligible_discreet|done].
Qed.

Lemma get_swarm_peer_ok o pm p : manager_ok pm → get_swarm_peer o pm = Some p → known pm p ∧ overlay_of p = o.
Proof.
  intros Hok. unfold known, get_swarm_peer. intros Hp. pose proof Hp as Hp'. apply fmap_Some in Hp' as (e & He & ->).
  pose proof (po_overlay _ _ _ _ _ Hok o e He) as Eo. by rewrite Eo, He.
Qed.

Lemma neighborhood_known depth exclude pm p : manager_ok pm → p ∈ neighborhood_peers depth exclude pm →
  known pm p ∧ exclude ≠ Some (overlay_of p).
Proof.
  intros Hok. unfold neighborhood_peers, known_neighborhood_peers, get_swarm_peers. rewrite list_elem_of_omap.
  intros (o & [Hx _]%list_elem_of_filter & Ho). apply get_swarm_peer_ok in Ho as [? ->]; done.
Qed.

Lemma new_neighbor_ok now active pm new_peer info depth t d : manager_ok pm → overlay_of info = new_peer →
  Forall (action_ok (Some info) d pm) (handle_new_neighbor now active pm new_peer info depth t).1.
Proof.
  intros Hok Ho. simpl. apply Forall_app. split.
  - destruct (filter_peers_for_recipient _ _ _) as [|p ps] eqn:E; [constructor|]. constructor; [|constructor].
    rewrite <-E. split; simpl; [by rewrite E|intros q [? Hq]%filter_discreet..]; [done| |];
      apply neighborhood_known in Hq as [? Hx]; try done; [by left|left; congruence].
  - apply Forall_forall. intros a (neighbor & Hn & Ha)%list_elem_of_omap. unfold notify_neighbor in Ha.
    case_decide as Hne; [done|]. destruct (filter_peers_for_recipient _ _ _) as [|p ps] eqn:E; [done|]. injection Ha as <-.
    rewrite <-E. split; simpl; [by rewrite E|intros q [? Hq%list_elem_of_singleton]%filter_discreet; subst..]; [done|by right|left; congruence].
Qed.

Lemma distant_ok now pm o depth t info : manager_ok pm → prox local_overlay o < depth →
  Forall (action_ok info depth pm) (handle_new_distant_peer now pm o t).1.
Proof.
  intros Hok Hd. unfold handle_new_distant_peer.
  destruct (select_peers_for_distant _ _ _) as [|p ps] eqn:E; [constructor|]. simpl. constructor; [|constructor].
  assert (∀ q, q ∈ p :: ps → discreet pm o q ∧ known pm q) as Hq.
  { rewrite <-E. unfold select_peers_for_distant. intros q ([q' b] & -> & [Hf Hs]%list_elem_of_filter)%list_elem_of_fmap.
    split; [by apply eligible_discreet, Is_true_true|]. unfold select_for_distant in Hs. apply list_elem_of_omap in Hs as (i & _ & Hi).
    apply fmap_Some in Hi as ([[p' k] b'] & Hi & [= -> ->]). apply list_elem_of_lookup_2 in Hi. unfold known_storers in Hi.
    apply list_elem_of_omap in Hi as (o' & _ & Ho). apply fmap_Some in Ho as (p'' & Ho & [= -> _ _]).
    by apply get_swarm_peer_ok in Ho as [? _]. }
  split; simpl; [done|intros q Hin; by apply Hq|intros q Hin; left; by apply Hq|by right].
Qed.

Lemma check_depth_change_ok now active pm t depth : manager_ok pm →
  Forall (action_ok None depth pm) (check_depth_change now active pm t).1.
Proof.
  intros Hok. unfold check_depth_change. destruct (detect_depth_decrease _ _) as [[[old new]|] last]; [|constructor].
  assert (∀ l acc, Forall (action_ok None depth pm) acc.1 →
    Forall (action_ok None depth pm) (foldl (depth_change_one now active pm old new) acc l).1) as H; [|by apply H; constructor].
  intros l. induction l as [|o l IH]; intros acc Hacc; [done|]. simpl. apply IH.
  unfold depth_change_one. case_decide; [|done]. destruct (get_swarm_peer o pm) as [p|] eqn:E; [|done].
  apply get_swarm_peer_ok in E as [Hk Ho]; [|done].
  pose proof (new_neighbor_ok now active pm o p new acc.2 depth Hok Ho) as Hn.
  destruct (handle_new_neighbor _ _ _ _ _ _ _) as [acts t']. simpl in *. apply Forall_app. split; [done|].
  eapply Forall_impl; [exact Hn|]. intros a [H1 H2 H3 H4]. split; try done.
  intros q Hq. left. destruct (H3 q Hq) as [?|[= ->]]; done.
Qed.

Lemma exchange_ok now active pm peer nt t : manager_ok pm →
  Forall (action_ok (Some peer) (gt_current_depth t) pm) (exchange_gossip now active pm peer nt t).1.
Proof.
  intros Hok. unfold exchange_gossip, on_peer_authenticated.
  set (t0 := with_depths _ _ t).
  assert (∀ x : list GossipAction * GossipTask, Forall (action_ok (Some peer) (gt_current_depth t) pm) x.1 →
    Forall (action_ok (Some peer) (gt_current_depth t) pm)
      (let '(actions, t) := x in let '(more, t) := check_depth_change now active pm t in (actions ++ more, t)).1) as Hx.
  { intros [acts t1] Ha. pose proof (check_depth_change_ok now active pm t1 (gt_current_depth t) Hok) as Hc.
    destruct (check_depth_change now active pm t1) as [more t2]. simpl in *. apply Forall_app. split; [done|].
    eapply Forall_impl; [exact Hc|]. intros a [H1 H2 H3 H4]. split; try done. intros q Hq. destruct (H3 q Hq); [by left|done]. }
  destruct (negb _); [by apply (Hx ([], t0)); constructor|]. case_decide as Hd; apply Hx.
  - by apply new_neighbor_ok.
  - apply distant_ok; [done|lia].
Qed.

Lemma gossip_tick_ok now active pm t d : manager_ok pm → Forall (action_ok None d pm) (gossip_tick now active pm t).1.
Proof.
  intros Hok. unfold gossip_tick. destruct (existsb _ _); [|constructor].
  assert (∀ l acc, Forall (action_ok None d pm) acc.1 → Forall (action_ok None d pm)
    (foldl (refresh_neighbor now pm (neighborhood_peers (gt_current_depth t) None pm)) acc l).1) as Hf.
  { intros l. induction l as [|n l IH]; intros acc Hacc; [done|]. simpl. apply IH. unfold refresh_neighbor. destruct (is_stale_broadcast _ _ _); [|done].
    destruct (filter _ (filter_peers_for_recipient _ _ _)) as [|p ps] eqn:E; [done|]. simpl. apply Forall_app.
    split; [done|]. constructor; [|constructor]. rewrite <-E.
    split; simpl; [by rewrite E|intros q [Hne [? Hq]%filter_discreet]%list_elem_of_filter..]; [done| |by left].
    apply neighborhood_known in Hq as [? _]; [by left|done]. }
  destruct (gt_pending t); apply Hf; constructor.
Qed.

(** The refresh of one neighbour, if it is due and there is something to tell. *)
Definition refresh_action (now : Z) pm (all : list SwarmPeer) t (neighbor : Z) : option GossipAction :=
  if is_stale_broadcast now t neighbor then
    match filter (λ p, overlay_of p ≠ neighbor) (filter_peers_for_recipient all (profile_lookup neighbor pm) pm) with
    | [] => None
    | peers => Some (mkAction neighbor peers)
    end
  else None.

Lemma refresh_action_to now pm all t n a : refresh_action now pm all t n = Some a → ga_to a = n.
Proof.
  unfold refresh_action. destruct (is_stale_broadcast _ _ _); [|done].
  destruct (filter _ (filter_peers_for_recipient _ _ _)); [done|]. by intros [= <-].
Qed.

Lemma omap_ext_elem {A C} (f g : A → option C) (l : list A) : (∀ x, x ∈ l → f x = g x) → omap f l = omap g l.
Proof.
  intros Hfg. induction l as [|x l IH]; [done|]. cbn [omap list_omap]. rewrite (Hfg x) by left.
  rewrite IH; [done|]. intros y Hy. apply Hfg. by right.
Qed.

Lemma omap_none_elem {A C} (f : A → option C) (l : list A) : (∀ x, x ∈ l → f x = None) → omap f l = [].
Proof.
  intros Hf. induction l as [|x l IH]; [done|]. cbn [omap list_omap]. rewrite (Hf x) by left.
  apply IH. intros y Hy. apply Hf. by right.
Qed.

Lemma refresh_neighbor_action now pm all acc n : refresh_neighbor now pm all acc n =
  match refresh_action now pm all acc.2 n with
  | Some a => (acc.1 ++ [a], broadcast_at n now acc.2)
  | None => acc
  end.
Proof.
  unfold refresh_neighbor, refresh_action. destruct (is_stale_broadcast _ _ _); [|done].
  by destruct (filter _ (filter_peers_for_recipient _ _ _)).
Qed.

Lemma refresh_fold now pm all l acts t : NoDup l →
  let '(acts', t') := foldl (refresh_neighbor now pm all) (acts, t) l in
  acts' = acts ++ omap (refresh_action now pm all t) l ∧
  ∀ o, gt_last_broadcast t' !! o =
    if decide (o ∈ ga_to <$> omap (refresh_action now pm all t) l) then Some now else gt_last_broadcast t !! o.
Proof.
  clear timestamp_of signature addr_hash.
  revert acts t. induction l as [|n l IH]; intros acts t Hl; simpl.
  { rewrite app_nil_r. split; [done|]. done. }
  apply NoDup_cons in Hl as [Hn Hl]. rewrite refresh_neighbor_action. cbn [fst snd].
  destruct (refresh_action now pm all t n) as [a|] eqn:Ea; [|by apply IH].
  specialize (IH (acts ++ [a]) (broadcast_at n now t) Hl). destruct (foldl _ _ l) as [acts' t'].
  assert (omap (refresh_action now pm all (broadcast_at n now t)) l = omap (refresh_action now pm all t) l) as E.
  { apply omap_ext_elem. intros x Hx. unfold refresh_action, is_stale_broadcast. simpl.
    rewrite lookup_insert_ne; [done|]. intros ->. done. }
  rewrite E in IH. destruct IH as [-> Hb]. split; [by rewrite <-app_assoc|]. intros o. rewrite Hb. simpl.
  assert (n ∉ ga_to <$> omap (refresh_action now pm all t) l) as Hni.
  { intros (a' & -> & (x & Hx & Ha)%list_elem_of_omap)%list_elem_of_fmap. apply refresh_action_to in Ha. congruence. }
  apply refresh_action_to in Ea. rewrite lookup_insert, Ea. repeat case_decide; try done; set_solver.
Qed.

Lemma records_manager_ok gossiper clock (peers : list (nat * SwarmPeer)) acc :
  0 <= max_po → (∀ a, 0 <= prox local_overlay a) → manager_ok acc.1.2 →
  manager_ok (foldl (gossiped_record gossiper clock) acc peers).1.2.
Proof.
  intros Hmax Hprox. revert acc. induction peers as [|[i peer] peers IH]; intros [[ad pm] g] Hok; [done|].
  simpl. apply IH. unfold gossiped_record. destruct (check_gossip _ _ _ _ _ _ _ _ _) as [[[]|] g']; simpl; try done.
  by apply store_discovered_ok.
Qed.

(** ** Properties *)

Definition announced (input : GossipInput) : option SwarmPeer :=
  match input with PeerActivated _ peer _ => Some peer | _ => None end.


(** A distant peer is bootstrapped with a useful selection: sixteen distinct
    storers, or all if there are fewer, none of them banned; the first four are the
    closest known to the recipient; and when the storers lie in at most twelve bins
    every one of those bins is represented. *)
Theorem distant_selection (recipient : Z) pm : select_nth_ok select_nth →
  let storers := known_storers recipient pm in
  let idx := select_indices select_nth storers in
  select_for_distant recipient pm = omap (λ i, (λ s, (s.1.1, s.2)) <$> storers !! i) idx ∧
  NoDup idx ∧ (∀ i, i ∈ idx → (i < length storers)%nat) ∧ length idx = Nat.min 16 (length storers) ∧
  (∀ i j, i ∈ take 4 idx → (j < length storers)%nat → j ∉ take 4 idx → row_key storers j <= row_key storers i) ∧
  ((size (list_to_set (snd <$> storers) : gset Z) <= 12)%nat →
    ∀ s, s ∈ storers → ∃ i s', i ∈ idx ∧ storers !! i = Some s' ∧ s'.2 = s.2) ∧
  (∀ p b, (p, b) ∈ select_for_distant recipient pm → ∃ o e, pm_peers pm !! o = Some e ∧ p = pe_peer e ∧
     b = prox local_overlay o ∧ cell_get (pe_node_type e) = Storer ∧ pm_banned_set pm !! o = None).
Proof.
  intros Hsel. cbv zeta. destruct (select_indices_spec select_nth (known_storers recipient pm) Hsel) as (Hn & Hlt & Hl & Hc & Hb).
  destruct (close_indices_spec select_nth (known_storers recipient pm) Hsel) as (_ & _ & _ & Hk).
  split_and!; [done|done|done|done| |done|].
  - intros i j Hi Hj Hnj. change 4%nat with CLOSE_PEERS_COUNT in *. rewrite Hc in Hi, Hnj. rewrite take_take, Nat.min_id in Hi, Hnj. auto.
  - intros p b Hin. unfold select_for_distant in Hin. apply list_elem_of_omap in Hin as (i & _ & Hi).
    apply fmap_Some in Hi as ([[p' k] b'] & Hi & [= -> ->]). apply list_elem_of_lookup_2 in Hi. unfold known_storers in Hi.
    apply list_elem_of_omap in Hi as (o & Ho & Hi). apply fmap_Some in Hi as (p'' & Hp & [= -> _ ->]).
    unfold get_swarm_peer in Hp. apply fmap_Some in Hp as (e & He & ->).
    unfold known_storer_overlays in Ho. apply list_elem_of_filter in Ho as [Hf _]. rewrite He in Hf.
    apply Is_true_true, andb_true_iff in Hf as [Hnb Hst]. apply bool_decide_eq_true_1 in Hnb. apply bool_decide_eq_true_1 in Hst.
    by exists o, e.
Qed.

(** A tick refreshes exactly the connected neighbours that are due: those not told
    for longer than the refresh interval, each once, with every known neighbourhood
    peer it may learn of, and notes the time; no other clock moves, except that
    entries older than two intervals are dropped. *)
Theorem refresh_exact now active pm t :
  NoDup active → 0 <= gt_refresh_interval t →
  let '(actions, t') := gossip_tick now active pm t in
  actions = omap (refresh_action now pm (neighborhood_peers (gt_current_depth t) None pm) t) (task_neighbors active pm t) ∧
  ∀ o, gt_last_broadcast t' !! o =
    if decide (o ∈ ga_to <$> actions) then Some now
    else match gt_last_broadcast t !! o with
         | Some ts => if decide (duration_since now ts <= gt_refresh_interval t * 2) then Some ts else None
         | None => None
         end.
Proof.
  clear timestamp_of signature addr_hash. intros Hnd Hr. unfold gossip_tick.
  set (t0 := match gt_pending t with [] => _ | _ => t end). set (m := filter _ (gt_last_broadcast t0)).
  assert (gt_last_broadcast t0 = gt_last_broadcast t ∧ gt_refresh_interval t0 = gt_refresh_interval t ∧
    gt_current_depth t0 = gt_current_depth t) as (E1 & E2 & E3) by (unfold t0; by destruct (gt_pending t)).
  assert (∀ o, m !! o = match gt_last_broadcast t !! o with
    | Some ts => if decide (duration_since now ts <= gt_refresh_interval t * 2) then Some ts else None | None => None end) as Hm.
  { intros o. unfold m. rewrite map_lookup_filter, E1, E2. destruct (gt_last_broadcast t !! o) as [ts|]; simpl; [|done]. unfold guard. by case_decide. }
  assert (∀ o, is_stale_broadcast now (with_broadcast m t0) o = is_stale_broadcast now t o) as Hst.
  { intros o. unfold is_stale_broadcast. simpl. rewrite Hm, E2. destruct (gt_last_broadcast t !! o) as [ts|]; [|done].
    case_decide; [done|]. symmetry. apply bool_decide_eq_true_2. unfold duration_since in *. lia. }
  assert (task_neighbors active pm (with_broadcast m t0) = task_neighbors active pm t) as En
    by (unfold task_neighbors; simpl; by rewrite E3).
  assert (∀ all (l : list Z), omap (refresh_action now pm all (with_broadcast m t0)) l = omap (refresh_action now pm all t) l) as Ea.
  { intros all l. apply omap_ext_elem. intros x _. unfold refresh_action. by rewrite Hst. }
  simpl. rewrite E3, En. set (all := neighborhood_peers _ _ _).
  assert (NoDup (task_neighbors active pm t)) as Hnn by (unfold task_neighbors, connected_neighbors; by apply NoDup_filter).
  destruct (existsb _ _) eqn:Ex.
  - pose proof (refresh_fold now pm all (task_neighbors active pm t) [] (with_broadcast m t0) Hnn) as H.
    destruct (foldl _ _ _) as [acts t']. rewrite Ea in H. destruct H as [-> Hb]. split; [done|].
    intros o. rewrite Hb. simpl. by rewrite Hm.
  - split; [|intros o; apply Hm].
    symmetry. apply omap_none_elem. intros n Hn. unfold refresh_action. rewrite <-Hst.
    destruct (is_stale_broadcast now (with_broadcast m t0) n) eqn:E; [|done].
    exfalso. assert (existsb (is_stale_broadcast now (with_broadcast m t0)) (task_neighbors active pm t) = true); [|congruence].
    apply existsb_exists. exists n. split; [by apply list_elem_of_In|done].
Qed.

(** An exchange forgets a pending decrease of the depth: it resets the last depth
    before it compares, so what it emits and leaves behind does not depend on the
    depth last seen, and peers that became neighbours are not announced. *)
Theorem exchange_forgets_decrease now active pm peer nt t d :
  exchange_gossip now active pm peer nt (with_depths (gt_current_depth t) d t) = exchange_gossip now active pm peer nt t.
Proof. done. Qed.

(** A cancellation outlives the connection it was made for: after a connection of a
    peer closed without a pending exchange, the exchange of its next gossip dial is
    dropped although that connection is alive. *)
Theorem stale_cancellation_drops_exchange clock active pm p o peer nt t now :
  gt_pending t = [] →
  let t1 := ot_task (handle_input clock active pm (ConnectionClosed p o) t) in
  let t2 := ot_task (handle_input clock active pm (MarkGossipDial p) t1) in
  let t3 := ot_task (handle_input clock active pm (PeerActivated p peer nt) t2) in
  gt_pending t3 = [mkExchange p peer nt] ∧ (on_exchange_ready now active pm 0 t3).1 = [].
Proof.
  intros Hp t1 t2 t3.
  assert (gt_pending t1 = [] ∧ p ∈ gt_cancelled t1) as [H1 H2].
  { unfold t1. simpl. match goal with |- context [check_depth_change ?n ?a ?m ?x] => set (t0 := x) end.
    assert (gt_pending t0 = [] ∧ p ∈ gt_cancelled t0) as [E1 E2] by (unfold t0; destruct o; simpl; set_solver).
    clearbody t0. clear t1 t2 t3. pose (keeps := λ x : GossipTask, gt_pending x = [] ∧ p ∈ gt_cancelled x).
    assert (keeps (check_depth_change (clock 0%nat).1 active pm t0).2) as Hk.
    { unfold check_depth_change. destruct (detect_depth_decrease _ _) as [[[old new]|] last]; [|done].
      assert (∀ l acc, keeps acc.2 → keeps (foldl (depth_change_one (clock 0%nat).1 active pm old new) acc l).2) as H.
      { intros l. induction l as [|x l IH]; intros acc Ha; [done|]. simpl. apply IH. unfold depth_change_one.
        case_decide; [|done]. destruct (get_swarm_peer x pm); done. }
      by apply H. }
    by destruct (check_depth_change _ _ _ _). }
  clearbody t1. unfold t3, t2. simpl. rewrite decide_True by set_solver. simpl. rewrite H1. split; [done|].
  unfold on_exchange_ready. simpl. by rewrite decide_True.
Qed.
End gossip.

(** ** A node with a few storers *)

Lemma sort_desc_select : select_nth_ok (λ key _ l, sort_desc key l).
Proof.
  intros key k l _. split; [apply sort_desc_perm|]. intros i j Hi Hj.
  pose proof (sort_desc_sorted key l) as Hs. rewrite <-(take_drop k (sort_desc key l)) in Hs.
  apply StronglySorted_app in Hs as (Hs & _ & _). by apply Hs.
Qed.

Module GossipDemo.

(** A record is its overlay, addresses and signature; all were signed at time 900. *)
Abbreviation Rec := (Z * list Multiaddr * Z)%type.
Definition overlay (p : Rec) : Z := p.1.1.
Definition addrs (p : Rec) : list Multiaddr := p.1.2.
Definition signed_at (p : Rec) : Z := 900.
Definition prox (a b : Z) : Z := if decide (a = b) then 7 else (a + b) mod 4.
Definition powf (x _ : F64.f64) : F64.f64 := x.

Lemma prox_nonneg a : 0 <= prox 0 a.
Proof. unfold prox. case_decide; [done|]. apply Z.mod_pos_bound. lia. Qed.

Definition wan (k : Z) : Multiaddr := [Ip4 (8 * 2 ^ 24 + k); Tcp 1634; P2p k].
Definition lan (k : Z) : Multiaddr := [Ip4 (10 * 2 ^ 24 + k); Tcp 1634; P2p k].
Definition public_peer (k : Z) : Rec := (k, [wan k], 0).
Definition mixed_peer (k : Z) : Rec := (k, [wan k; lan k], 0).

Abbreviation new_manager := (pm_new (SwarmPeer:=Rec) overlay (B:=list Z) (prox 0) 3 1000 8 300 43200 PeerScore.scoring_default None None).
Abbreviation step := (pm_step (SwarmPeer:=Rec) overlay signed_at powf (prox 0) 3 EmptyString).

(** Storers 3, 7 and 11 of the neighbourhood and 2 beyond it; 7 has a private address. *)
Definition manager : PeerManager :=
  run step new_manager
    ((λ p, (1001, OpConnected p Storer Registry.Inbound TrustNormal)) <$> [public_peer 3; mixed_peer 7; public_peer 11; public_peer 2]).

Lemma manager_is_ok : pm_mid overlay (prox 0) 3 None manager.
Proof.
  unfold manager. apply (run_invariant step (λ _, True)); [|apply pm_new_ok; [lia|apply prox_nonneg]|].
  - intros. apply pm_step_ok; [lia|apply prox_nonneg|done].
  - by apply Forall_true.
Qed.

Abbreviation select := (λ (key : nat → Z) (_ : nat) (l : list nat), sort_desc key l).
Abbreviation Task := (GossipTask (SwarmPeer:=Rec) (CC:=ListCache Z CooldownState) (CB:=ListCache Z GossiperBudget)).
Abbreviation fresh := (task_new gossip_config_default : Task).
Definition task : Task := with_depths 3 3 fresh.
Abbreviation input := (handle_input overlay signed_at addrs snd IntakeDemo.hash prox 0 3 31 select).
Abbreviation told := (λ acts, (λ a, (ga_to a, overlay <$> ga_peers a)) <$> acts).


Lemma distant_selection_witness :
  overlay <$> (select_for_distant prox 0 select 2 manager).*1 = [2; 3; 7; 11] ∧
  (∀ p b, (p, b) ∈ select_for_distant prox 0 select 2 manager → ∃ o e, pm_peers manager !! o = Some e ∧ p = pe_peer e ∧
     b = prox 0 o ∧ cell_get (pe_node_type e) = Storer ∧ pm_banned_set manager !! o = None).
Proof.
  split; [vm_compute; reflexivity|]. apply (distant_selection prox 0 select 2 manager sort_desc_select).
Defined.

Lemma refresh_exact_witness :
  told (gossip_tick overlay addrs prox 0 3 31 700000 [3; 7] manager (with_broadcast {[3 := 50000]} task)).1 = [(3, [11]); (7, [3; 11])] ∧
  told (gossip_tick overlay addrs prox 0 3 31 500000 [3; 7] manager (with_broadcast {[3 := 50000]} task)).1 = [(7, [3; 11])] ∧
  let '(actions, t') := gossip_tick overlay addrs prox 0 3 31 500000 [3; 7] manager (with_broadcast {[3 := 50000]} task) in
  gt_last_broadcast t' !! 3 = if decide (3 ∈ ga_to <$> actions) then Some 500000 else Some 50000.
Proof.
  split; [vm_compute; reflexivity|]. split; [vm_compute; reflexivity|].
  assert (NoDup [3; 7]) as H1 by (apply (bool_decide_unpack _); vm_compute; reflexivity).
  assert (0 <= gt_refresh_interval (with_broadcast {[3 := 50000]} task)) as H2 by (vm_compute; discriminate).
  pose proof (refresh_exact overlay addrs prox 0 3 31 500000 [3; 7] manager (with_broadcast {[3 := 50000]} task) H1 H2) as H.
  destruct (gossip_tick _ _ _ _ _ _ _ _ _ _) as [actions t']. destruct H as [_ Hb]. rewrite (Hb 3).
  destruct (decide (3 ∈ ga_to <$> actions)); [reflexivity|]. vm_compute. reflexivity.
Defined.

(** The first peer a distant recipient is told of is itself. *)
Example distant_peer_told_of_itself :
  head (overlay <$> (select_for_distant prox 0 select 2 manager).*1) = Some 2.
Proof. vm_compute. reflexivity. Qed.

End GossipDemo.
