(* ===== verification/PeerRecord.v ===== *)
(** * Peer records: serialization, signing and parsing

    Models [swarm/peers/peer/src/]: the byte layout of address lists
    ([serde_multiaddr.rs]) and the signed record of a peer with its two
    constructors, [sign] and [parse] ([swarm_peer.rs]); and the identity that signs
    ([swarm/identity/src/lib.rs]).  The bytes of one address, the signature scheme,
    the sign-data layout and the overlay derivation are external and enter as the
    operations of [RecordEnv]. *)

From S2P Require Import Prelude.
From S2P Require Import Primitives.
From S2P Require Import LocalNet.

(** ** Varints *)

Inductive IoError := UnexpectedEof | InvalidData.

(** The loop of [encode_uvarint]; ten bytes hold any [u64]. *)
Fixpoint uvarint_loop (fuel : nat) (value : Z) : list Z :=
  match fuel with
  | O => []
  | S fuel =>
      let byte := Z.land value 0x7F in
      let value := Z.shiftr value 7 in
      if decide (value = 0) then [byte] else Z.lor byte 0x80 :: uvarint_loop fuel value
  end.

Definition encode_uvarint (value : Z) : list Z := uvarint_loop 10 value.

(** The loop of [decode_uvarint]; shifting a [u64] drops what leaves the word. *)
Fixpoint decode_uvarint_loop (data : list Z) (result shift : Z) : Prelude.result IoError (Z * list Z) :=
  match data with
  | [] => Err UnexpectedEof
  | b :: data =>
      let result := Z.lor result (Z.shiftl (Z.land b 0x7F) shift mod 2 ^ 64) in
      if decide (Z.land b 0x80 = 0) then Ok (result, data)
      else
        let shift := shift + 7 in
        if decide (64 <= shift) then Err InvalidData else decode_uvarint_loop data result shift
  end.

Definition decode_uvarint (data : list Z) : result IoError (Z * list Z) := decode_uvarint_loop data 0 0.

(** ** Address lists *)

Inductive MultiAddrError :=
| EmptyData
| VarintError (e : IoError)
| InconsistentLength (expected actual : Z)
| BadMultiaddr.

Definition MULTIADDR_LIST_PREFIX : Z := 0x99.

(** What the node uses of its cryptographic and address libraries. *)
Class RecordEnv (Key Signature : Type) := {
  to_vec : Multiaddr → list Z;
  try_from : list Z → option Multiaddr;
  sig_bytes : Signature → list Z;
  sig_from : list Z → option Signature;
  sign_message : Key → list Z → option Signature;
  recover : Signature → list Z → option (list Z);
  key_address : Key → list Z;
  sign_data : list Z → list Z → Z → list Z → Z → option (list Z) → list Z;
  compute_overlay : list Z → Z → list Z → list Z;
  skew_check : Z → Z → Z → bool;
}.

Section codec.
Context `{RE : RecordEnv Key Signature}.

Definition serialize_multiaddrs (addrs : list Multiaddr) : list Z :=
  match addrs with
  | [single] => to_vec single
  | _ => MULTIADDR_LIST_PREFIX ::
      concat ((λ a, let bytes := to_vec a in encode_uvarint (Z.of_nat (length bytes)) ++ bytes) <$> addrs)
  end.

(** The loop of [deserialize_list] over the bytes after the cursor. *)
Fixpoint deserialize_loop (fuel : nat) (data : list Z) (addrs : list Multiaddr) : option (result MultiAddrError (list Multiaddr)) :=
  match data with
  | [] => Some (Ok addrs)
  | _ =>
      match fuel with
      | O => None
      | S fuel =>
          match decode_uvarint data with
          | Err e => Some (Err (VarintError e))
          | Ok (addr_len, rest) =>
              let remaining := Z.of_nat (length rest) in
              if decide (remaining < addr_len) then Some (Err (InconsistentLength addr_len remaining))
              else
                match try_from (take (Z.to_nat addr_len) rest) with
                | None => Some (Err BadMultiaddr)
                | Some a => deserialize_loop fuel (drop (Z.to_nat addr_len) rest) (addrs ++ [a])
                end
          end
      end
  end.

Definition deserialize_list (data : list Z) : result MultiAddrError (list Multiaddr) :=
  default (Err EmptyData) (deserialize_loop (length data) data []).

Definition deserialize_multiaddrs (data : list Z) : result MultiAddrError (list Multiaddr) :=
  match data with
  | [] => Ok []
  | b :: rest =>
      if decide (b = MULTIADDR_LIST_PREFIX) then deserialize_list rest
      else match try_from data with Some a => Ok [a] | None => Err BadMultiaddr end
  end.
End codec.

(** ** Records *)

Inductive SwarmPeerError :=
| InvalidSignature
| SignerError
| InvalidOverlay
| NoAddresses
| InvalidMultiaddrEncoding (e : MultiAddrError)
| InvalidTimestamp
| TimestampOutsideSkewWindow
| InvalidChequebook.

Record Identity {Key : Type} := mkIdentity {
  id_network : Z;
  id_key : Key;
  id_nonce : list Z;
  id_overlay : list Z;
  id_node_type : SwarmNodeType;
  id_welcome : option string;
  id_ephemeral : bool;
}.
Arguments Identity : clear implicits.

Record SwarmPeer {Signature : Type} := mkSwarmPeer {
  sp_multiaddrs : list Multiaddr;
  sp_signature : Signature;
  sp_overlay : list Z;
  sp_nonce : list Z;
  sp_timestamp : Z;
  sp_chequebook : option (list Z);
  sp_ethereum_address : list Z;
}.
Arguments SwarmPeer : clear implicits.

Record SwarmPeerWire {Signature : Type} := mkWire {
  w_multiaddrs_bytes : list Z;
  w_signature : Signature;
  w_overlay : list Z;
  w_nonce : list Z;
  w_timestamp : Z;
  w_chequebook_bytes : list Z;
}.
Arguments SwarmPeerWire : clear implicits.

#[global] Instance SwarmPeer_eq_dec `{EqDecision Signature} : EqDecision (SwarmPeer Signature).
Proof. solve_decision. Defined.

Section records.
Context `{RE : RecordEnv Key Signature}.
Implicit Types (i : Identity Key) (peer : SwarmPeer Signature) (w : SwarmPeerWire Signature).

Definition identity_new (key : Key) (nonce : list Z) (network : Z) (t : SwarmNodeType) : Identity Key :=
  mkIdentity Key network key nonce (compute_overlay (key_address key) network nonce) t None false.

Definition with_welcome_message (message : string) i : Identity Key :=
  mkIdentity Key (id_network i) (id_key i) (id_nonce i) (id_overlay i) (id_node_type i) (Some message) (id_ephemeral i).

Definition welcome_message i : option string :=
  match id_welcome i with Some m => Some m | None => Some "Buzzing in from the Rustacean hive"%string end.

Definition is_zero (address : list Z) : bool := forallb (Z.eqb 0) address.

(** [filter(|a| !a.is_zero())]. *)
Definition normalise (chequebook : option (list Z)) : option (list Z) :=
  match chequebook with Some a => if is_zero a then None else Some a | None => None end.

Definition sign i (multiaddrs : list Multiaddr) (timestamp : Z) (chequebook : option (list Z)) :
    result SwarmPeerError (SwarmPeer Signature) :=
  match multiaddrs with
  | [] => Err NoAddresses
  | _ =>
      if decide (timestamp <= 0) then Err InvalidTimestamp
      else
        let chequebook := normalise chequebook in
        let msg := sign_data (serialize_multiaddrs multiaddrs) (id_overlay i) (id_network i) (id_nonce i) timestamp chequebook in
        match sign_message (id_key i) msg with
        | None => Err SignerError
        | Some signature =>
            Ok (mkSwarmPeer Signature multiaddrs signature (id_overlay i) (id_nonce i) timestamp chequebook
                  (key_address (id_key i)))
        end
  end.

Definition parse_chequebook (bytes : list Z) : result SwarmPeerError (option (list Z)) :=
  if decide (length bytes = 0%nat) then Ok None
  else if decide (length bytes = 20%nat) then Ok (Some bytes)
  else Err InvalidChequebook.

Definition parse w (network : Z) (skew : option (Z * Z)) : result SwarmPeerError (SwarmPeer Signature) :=
  if decide (w_timestamp w <= 0) then Err InvalidTimestamp
  else if is_some_and (λ s, negb (skew_check (w_timestamp w) s.1 s.2)) skew then Err TimestampOutsideSkewWindow
  else
    match parse_chequebook (w_chequebook_bytes w) with
    | Err e => Err e
    | Ok chequebook =>
        let chequebook := normalise chequebook in
        match deserialize_multiaddrs (w_multiaddrs_bytes w) with
        | Err e => Err (InvalidMultiaddrEncoding e)
        | Ok [] => Err NoAddresses
        | Ok multiaddrs =>
            let msg := sign_data (w_multiaddrs_bytes w) (w_overlay w) network (w_nonce w) (w_timestamp w) chequebook in
            match recover (w_signature w) msg with
            | None => Err InvalidSignature
            | Some ethereum_address =>
                if decide (compute_overlay ethereum_address network (w_nonce w) = w_overlay w) then
                  Ok (mkSwarmPeer Signature multiaddrs (w_signature w) (w_overlay w) (w_nonce w) (w_timestamp w) chequebook
                        ethereum_address)
                else Err InvalidOverlay
            end
        end
    end.
End records.

(** ** Varints and lists *)

Lemma land_low7 v : Z.land v 0x7F = v mod 128.
Proof. change 0x7F with (Z.ones 7). by rewrite Z.land_ones by lia. Qed.

Lemma split_low7 v : Z.lor (Z.land v 0x7F) (Z.shiftl (Z.shiftr v 7) 7) = v.
Proof.
  change 0x7F with (Z.ones 7). apply Z.bits_inj'. intros n Hn. rewrite Z.lor_spec, Z.land_spec, Z.shiftl_spec by lia.
  destruct (decide (n < 7)).
  - rewrite Z.ones_spec_low by lia. rewrite Z.testbit_neg_r with (n := n - 7) by lia. by rewrite andb_true_r, orb_false_r.
  - rewrite Z.ones_spec_high by lia. rewrite Z.shiftr_spec by lia. rewrite andb_false_r. simpl. f_equal. lia.
Qed.

Lemma low7_top b : 0 <= b < 128 → Z.land b 0x80 = 0 ∧ Z.land (Z.lor b 0x80) 0x80 ≠ 0 ∧ Z.land (Z.lor b 0x80) 0x7F = b.
Proof.
  intros Hb. assert (b = Z.land b (Z.ones 7)) as E by (rewrite Z.land_ones by lia; rewrite Z.mod_small; lia).
  assert (Z.land b 0x80 = 0) as H0.
  { rewrite E, <- Z.land_assoc. change (Z.land (Z.ones 7) 0x80) with 0. apply Z.land_0_r. }
  split_and!; [done| |].
  - rewrite Z.land_lor_distr_l, H0. done.
  - rewrite Z.land_lor_distr_l. change (Z.land 0x80 0x7F) with 0. rewrite Z.lor_0_r. change 0x7F with (Z.ones 7). done.
Qed.

Lemma uvarint_loop_decode fuel v rest result shift :
  0 <= v → v < 2 ^ (7 * Z.of_nat fuel) → 0 <= shift → v * 2 ^ shift < 2 ^ 64 → (0 < fuel)%nat →
  decode_uvarint_loop (uvarint_loop fuel v ++ rest) result shift = Ok (Z.lor result (Z.shiftl v shift), rest).
Proof.
  revert v result shift. induction fuel as [|fuel IH]; intros v result shift Hv Hf Hs Hw H0; [lia|].
  cbn [uvarint_loop]. pose proof (Z.mod_pos_bound v 128 ltac:(lia)) as Hm. destruct (low7_top (Z.land v 0x7F)) as (T1 & T2 & T3).
  { rewrite land_low7. done. }
  assert (Hsmall : Z.shiftl (Z.land v 0x7F) shift mod 2 ^ 64 = Z.shiftl (Z.land v 0x7F) shift).
  { apply Z.mod_small. rewrite Z.shiftl_mul_pow2, land_low7 by done. pose proof (Z.mod_le v 128 Hv ltac:(lia)).
    pose proof (Z.pow_pos_nonneg 2 shift ltac:(lia) Hs). nia. }
  case_decide as Hz; cbn [app decode_uvarint_loop].
  - rewrite decide_True by done. rewrite <- Z.land_assoc. change (Z.land 0x7F 0x7F) with 0x7F.
    rewrite Hsmall. rewrite <- (split_low7 v) at 2. rewrite Hz, Z.shiftl_0_l, Z.lor_0_r. done.
  - rewrite decide_False by done. rewrite T3, Hsmall.
    assert (Hsr : Z.shiftr v 7 = v / 128) by (rewrite Z.shiftr_div_pow2 by lia; done).
    pose proof (Z.div_pos v 128 Hv ltac:(lia)). pose proof (Z.mul_div_le v 128 ltac:(lia)).
    assert (Hw' : Z.shiftr v 7 * 2 ^ (shift + 7) < 2 ^ 64).
    { rewrite Hsr, Z.pow_add_r by lia. change (2 ^ 7) with 128. pose proof (Z.pow_pos_nonneg 2 shift ltac:(lia) Hs). nia. }
    assert (shift + 7 < 64).
    { rewrite Hsr in Hw', Hz. apply (Z.pow_lt_mono_r_iff 2); [lia|lia|]. pose proof (Z.pow_pos_nonneg 2 (shift + 7) ltac:(lia) ltac:(lia)). nia. }
    rewrite decide_False by lia. rewrite IH.
    + rewrite <- Z.lor_assoc. do 3 f_equal. rewrite <- (split_low7 v) at 3. rewrite Z.shiftl_lor. f_equal.
      rewrite Z.shiftl_shiftl by lia. f_equal. lia.
    + rewrite Hsr. done.
    + rewrite Hsr. apply Z.div_lt_upper_bound; [lia|]. change 128 with (2 ^ 7). rewrite <- Z.pow_add_r by lia.
      replace (7 + 7 * Z.of_nat fuel) with (7 * Z.of_nat (S fuel)) by lia. done.
    + lia.
    + done.
    + destruct fuel; [|lia]. simpl in Hf. rewrite Hsr in Hz. exfalso. apply Hz, Z.div_small. lia.
Qed.

Lemma uvarint_roundtrip v rest : 0 <= v < 2 ^ 64 → decode_uvarint (encode_uvarint v ++ rest) = Ok (v, rest).
Proof.
  intros Hv. unfold decode_uvarint, encode_uvarint.
  rewrite uvarint_loop_decode; [|lia|change (7 * Z.of_nat 10) with 70; lia|lia|lia|lia].
  by rewrite Z.shiftl_0_r, Z.lor_0_l.
Qed.

Lemma encode_uvarint_nonempty v : encode_uvarint v ≠ [].
Proof. unfold encode_uvarint. cbn [uvarint_loop]. by case_decide. Qed.

(** What is documented of the external operations: an address and a signature
    are read back from their bytes, a signature recovers its signer, and an
    overlay has 32 bytes. *)
Class RecordLaws `{RE : RecordEnv Key Signature} : Prop := {
  try_from_to_vec a : try_from (to_vec a) = Some a;
  to_vec_length a : Z.of_nat (length (to_vec a)) < 2 ^ 64;
  sig_from_bytes s : sig_from (sig_bytes s) = Some s;
  recover_sign k m s : sign_message k m = Some s → recover s m = Some (key_address k);
  compute_overlay_length a n x : length (compute_overlay a n x) = 32%nat;
}.
Arguments RecordLaws : clear implicits.

Section roundtrip.
Context `{RE : RecordEnv Key Signature} {RL : RecordLaws Key Signature RE}.

(** Bytes that are not taken for a list. *)
Definition plain (a : Multiaddr) : Prop := to_vec a ≠ [] ∧ head (to_vec a) ≠ Some MULTIADDR_LIST_PREFIX.

Lemma decode_uvarint_shrinks data result shift v rest :
  decode_uvarint_loop data result shift = Ok (v, rest) → (length rest < length data)%nat.
Proof.
  revert result shift. induction data as [|b data IH]; intros result shift; cbn [decode_uvarint_loop]; [done|].
  case_decide; [intros [= _ <-]; simpl; lia|]. case_decide; [done|]. intros H'%IH. simpl. lia.
Qed.

(** The bytes are fuel enough. *)
Lemma deserialize_loop_total fuel data addrs : (length data <= fuel)%nat → deserialize_loop fuel data addrs ≠ None.
Proof.
  revert data addrs. induction fuel as [|fuel IH]; intros data addrs Hl; destruct data as [|b data]; try done; [simpl in Hl; lia|].
  cbn [deserialize_loop]. destruct (decode_uvarint (b :: data)) as [[n rest]|e] eqn:E; [|done].
  apply decode_uvarint_shrinks in E. case_decide; [done|]. destruct (try_from _) as [a|]; [|done]. apply IH.
  rewrite length_drop. simpl in *. lia.
Qed.

Lemma deserialize_loop_entries addrs done fuel :
  (length (concat ((λ a, encode_uvarint (Z.of_nat (length (to_vec a))) ++ to_vec a) <$> addrs)) <= fuel)%nat →
  deserialize_loop fuel (concat ((λ a, encode_uvarint (Z.of_nat (length (to_vec a))) ++ to_vec a) <$> addrs)) done
    = Some (Ok (done ++ addrs)).
Proof.
  revert done fuel. induction addrs as [|a addrs IH]; intros acc fuel Hf; cbn [fmap list_fmap concat] in *.
  - rewrite app_nil_r. by destruct fuel.
  - set (tail := concat _) in *. pose proof (to_vec_length a) as Hlen.
    destruct (encode_uvarint (Z.of_nat (length (to_vec a)))) as [|b bs] eqn:Eb; [by apply encode_uvarint_nonempty in Eb|].
    destruct fuel as [|fuel]; [simpl in Hf; lia|]. cbn [app deserialize_loop].
    change (b :: (bs ++ to_vec a) ++ tail) with (((b :: bs) ++ to_vec a) ++ tail). rewrite <- Eb, <- app_assoc.
    rewrite uvarint_roundtrip by lia. rewrite length_app. rewrite decide_False by lia. rewrite Nat2Z.id.
    rewrite take_app_length, drop_app_length, try_from_to_vec. rewrite IH; [by rewrite <- app_assoc|].
    simpl in Hf. rewrite !length_app in Hf. lia.
Qed.

Lemma deserialize_serialize addrs : (∀ a, addrs = [a] → plain a) →
  deserialize_multiaddrs (serialize_multiaddrs addrs) = Ok addrs.
Proof.
  intros Hp. destruct addrs as [|a [|b addrs]].
  - done.
  - destruct (Hp a eq_refl) as [Hn Hh]. unfold serialize_multiaddrs, deserialize_multiaddrs.
    pose proof (try_from_to_vec a) as Et. destruct (to_vec a) as [|x l]; [done|]. rewrite decide_False by (intros ->; by apply Hh).
    by rewrite Et.
  - cbn [serialize_multiaddrs deserialize_multiaddrs]. rewrite decide_True by done. unfold deserialize_list.
    by rewrite deserialize_loop_entries.
Qed.

(** ** What a record proves *)

(** A record over [bytes]: its signature recovers the address it names, which
    derives its overlay on this network. *)
Record verified (network : Z) (bytes : list Z) (peer : SwarmPeer Signature) : Prop := {
  vr_timestamp : 0 < sp_timestamp peer;
  vr_addrs : sp_multiaddrs peer ≠ [];
  vr_bytes : deserialize_multiaddrs bytes = Ok (sp_multiaddrs peer);
  vr_chequebook : ∀ c, sp_chequebook peer = Some c → length c = 20%nat ∧ is_zero c = false;
  vr_signer : recover (sp_signature peer) (sign_data bytes (sp_overlay peer) network (sp_nonce peer) (sp_timestamp peer)
                (sp_chequebook peer)) = Some (sp_ethereum_address peer);
  vr_overlay : compute_overlay (sp_ethereum_address peer) network (sp_nonce peer) = sp_overlay peer;
}.

(** The wire form of a record, as the handshake and hive codecs fill it. *)
Definition to_wire (peer : SwarmPeer Signature) : SwarmPeerWire Signature :=
  mkWire Signature (serialize_multiaddrs (sp_multiaddrs peer)) (sp_signature peer) (sp_overlay peer) (sp_nonce peer)
    (sp_timestamp peer) (default [] (sp_chequebook peer)).

Lemma parse_verified w network skew peer : parse w network skew = Ok peer →
  verified network (w_multiaddrs_bytes w) peer ∧ sp_signature peer = w_signature w ∧ sp_overlay peer = w_overlay w ∧
  sp_nonce peer = w_nonce w ∧ sp_timestamp peer = w_timestamp w.
Proof.
  unfold parse. case_decide as Ht; [done|]. destruct (is_some_and _ skew); [done|].
  destruct (parse_chequebook _) as [cb|e] eqn:Ec; [|done]. destruct (deserialize_multiaddrs _) as [[|a addrs]|e] eqn:Ed; try done.
  destruct (recover _ _) as [eth|] eqn:Er; [|done]. case_decide as Ho; [|done]. intros [= <-]. split; [|done].
  split; simpl; try done; [lia|]. unfold parse_chequebook in Ec. intros c.
  destruct (decide (length (w_chequebook_bytes w) = 0%nat)); [by simplify_eq|].
  destruct (decide (length (w_chequebook_bytes w) = 20%nat)); simplify_eq. simpl.
  destruct (is_zero _) eqn:Ez; [done|]. by intros [= <-].
Qed.

(** A record over the bytes it is sent with is accepted by every node of the
    network that does not check the time. *)
Lemma verified_parse network peer skew : verified network (serialize_multiaddrs (sp_multiaddrs peer)) peer →
  is_some_and (λ s, negb (skew_check (sp_timestamp peer) s.1 s.2)) skew = false →
  parse (to_wire peer) network skew = Ok peer.
Proof.
  intros [Ht Ha Hb Hc Hs Ho] Hk. unfold parse, to_wire. cbn [w_timestamp w_chequebook_bytes w_multiaddrs_bytes w_signature w_overlay w_nonce].
  rewrite decide_False by lia. rewrite Hk.
  assert (∃ cb, parse_chequebook (default [] (sp_chequebook peer)) = Ok cb ∧ normalise cb = sp_chequebook peer) as (cb & -> & ->).
  { destruct (sp_chequebook peer) as [c|]; [|by exists None]. destruct (Hc c eq_refl) as [Hl Hz]. exists (Some c).
    unfold parse_chequebook. simpl. rewrite decide_False by lia. rewrite decide_True by done. by rewrite Hz. }
  rewrite Hb. destruct (sp_multiaddrs peer) as [|a l] eqn:E; [done|]. rewrite <- E in Hs |- *. rewrite Hs.
  rewrite decide_True by done. f_equal. destruct peer; simpl in *. by subst.
Qed.

Definition identity_ok (i : Identity Key) : Prop :=
  id_overlay i = compute_overlay (key_address (id_key i)) (id_network i) (id_nonce i) ∧ length (id_nonce i) = 32%nat.

Lemma sign_verified i addrs timestamp cb peer : identity_ok i → (∀ a, addrs = [a] → plain a) →
  (∀ c, cb = Some c → length c = 20%nat) → sign i addrs timestamp cb = Ok peer →
  verified (id_network i) (serialize_multiaddrs addrs) peer ∧ sp_multiaddrs peer = addrs ∧ sp_overlay peer = id_overlay i ∧
  sp_nonce peer = id_nonce i ∧ sp_timestamp peer = timestamp ∧ sp_ethereum_address peer = key_address (id_key i).
Proof.
  intros [Ho _] Hp Hcb. unfold sign. destruct addrs as [|a l] eqn:Ea; [done|]. rewrite <- Ea in *. case_decide as Ht; [done|].
  destruct (sign_message _ _) as [sig|] eqn:Es; [|done]. intros [= <-]. split; [|done]. split; simpl.
  - lia.
  - by rewrite Ea.
  - by apply deserialize_serialize.
  - intros c. unfold normalise. destruct cb as [c'|]; [|done]. destruct (is_zero c') eqn:Ez; [done|]. intros [= <-]. split; [by apply Hcb|done].
  - by apply recover_sign.
  - by rewrite Ho.
Qed.

End roundtrip.

(** ** A concrete scheme *)

Module RecordDemo.

Definition protocol_tag (p : Protocol) : Z * Z * string :=
  match p with
  | Ip4 n => (0, n, EmptyString) | Ip6 n => (1, n, EmptyString) | Dns4 s => (2, 0, s) | Dns6 s => (3, 0, s)
  | Dnsaddr s => (4, 0, s) | Tcp n => (5, n, EmptyString) | Tls => (6, 0, EmptyString) | Ws s => (7, 0, s)
  | Wss s => (8, 0, s) | P2p n => (9, n, EmptyString) | OtherProtocol n => (10, n, EmptyString)
  end.

Definition tag_protocol (x : Z * Z * string) : Protocol :=
  let '(t, n, s) := x in
  match t with
  | 0 => Ip4 n | 1 => Ip6 n | 2 => Dns4 s | 3 => Dns6 s | 4 => Dnsaddr s | 5 => Tcp n | 6 => Tls | 7 => Ws s
  | 8 => Wss s | 9 => P2p n | _ => OtherProtocol n
  end.

#[export] Instance Protocol_countable : Countable Protocol.
Proof. refine (inj_countable' protocol_tag tag_protocol _). by intros []. Defined.

(** An address is one code behind a zero, a signature is its signer with its
    message, an overlay repeats the signer's number. *)
#[export] Instance demo_env : RecordEnv Z (Z * list Z) := {|
  to_vec a := [0; Zpos (encode a)];
  try_from l := match l with [0; Zpos p] => decode p | _ => None end;
  sig_bytes s := s.1 :: s.2;
  sig_from l := match l with k :: m => Some (k, m) | [] => None end;
  sign_message k m := Some (k, m);
  recover s m := if decide (s.2 = m) then Some [s.1] else None;
  key_address k := [k];
  sign_data bytes overlay network nonce timestamp cb := bytes ++ overlay ++ [network] ++ nonce ++ [timestamp] ++ default [] cb;
  compute_overlay a network nonce := replicate 32 (hd 0 a);
  skew_check t now tol := bool_decide (Z.abs (t - now) <= tol);
|}.

#[export] Instance demo_laws : RecordLaws Z (Z * list Z) demo_env.
Proof.
  split.
  - intros a. cbn. apply decode_encode.
  - intros a. cbn. lia.
  - by intros [k m].
  - intros k m s [= <-]. cbn. by rewrite decide_True.
  - intros a n x. cbn. done.
Qed.

Definition me : Identity Z := identity_new 5 (replicate 32 0) 10 Storer.

Lemma me_ok : identity_ok me.
Proof. done. Qed.

Definition home : Multiaddr := [Ip4 (8 * 2 ^ 24 + 1); Tcp 1634; P2p 7].


(** One address in the form of a list is accepted, but the record keeps the
    address and not the bytes: sent on, it no longer verifies. *)
Example list_form_cannot_be_sent_on :
  let bytes := MULTIADDR_LIST_PREFIX :: encode_uvarint 2 ++ to_vec home in
  let sig := (5, sign_data bytes (id_overlay me) 10 (id_nonce me) 1000 None) in
  let w := mkWire _ bytes sig (id_overlay me) (id_nonce me) 1000 [] in
  match parse w 10 None with
  | Ok peer => parse (to_wire peer) 10 None = Err InvalidSignature
  | Err _ => False
  end.
Proof. vm_compute. reflexivity. Qed.
End RecordDemo.
