(* ===== verification/Handshake.v ===== *)
(** * The handshake

    Models [swarm/net/handshake/src/]: the message codecs ([codec/]), the exchange
    of both sides ([protocol.rs]) with its admission gate ([admission.rs]), the
    cache of the node's own signed record ([cache.rs], [behaviour.rs]), and the
    per-connection handler ([handler.rs]).  A message is the generated protobuf
    struct; what a stream delivers, and the outcome of each send and close, are
    inputs. *)

From S2P Require Import Prelude.
From S2P Require Import Primitives.
From S2P Require Import LocalNet.
From S2P Require Import GossipIntake.
From S2P Require Import PeerRecord.
From S2P Require Import Registry.

Record ProtoPeer := mkProtoPeer {
  pp_multiaddrs : list Z;
  pp_signature : list Z;
  pp_overlay : list Z;
  pp_nonce : list Z;
  pp_timestamp : Z;
  pp_chequebook : list Z;
}.

Record Syn := mkSyn { syn_observed : list Z }.
Record Ack := mkAck { ack_address : option ProtoPeer; ack_network : Z; ack_storer : bool; ack_welcome : string }.
Record SynAck := mkSynAck { sa_syn : option Syn; sa_ack : option Ack }.

Inductive AdmissionRejection := Saturated | Blocklisted | OversaturatedNeighborhood.
Inductive AdmissionDecision := Accept | Reject (r : AdmissionRejection).

Inductive HandshakeError :=
| HsTimeout
| HsConnectionClosed
| HsNetworkIdMismatch
| HsMissingField (field : string)
| HsFieldTooLong (field : string) (max actual : Z)
| HsInvalidData
| HsInvalidMultiaddr (e : MultiAddrError)
| HsInvalidSignature
| HsInvalidPeer (e : SwarmPeerError)
| HsInvalidOverlay
| HsInvalidObservedAddress
| HsProtobuf
| HsIo
| HsUpgrade
| HsAdmissionRejected (r : AdmissionRejection).

Definition MAX_WELCOME_MESSAGE_CHARS : Z := 140.

(** [chars().count()]: the bytes of a UTF-8 string that start a character. *)
Fixpoint char_count (s : string) : Z :=
  match s with
  | EmptyString => 0
  | String b s => (if decide (Z.land (Z.of_N (Ascii.N_of_ascii b)) 0xC0 = 0x80) then 0 else 1) + char_count s
  end.

Section handshake.
Context `{RE : RecordEnv Key Signature}.
Abbreviation Peer := (SwarmPeer Signature).
Implicit Types (peer : Peer) (i : Identity Key).

(** ** Codecs *)

Definition decode_syn (proto : Syn) : result HandshakeError Multiaddr :=
  addrs ← map_err HsInvalidMultiaddr (deserialize_multiaddrs (syn_observed proto));
  ok_or (HsMissingField "observed_multiaddr") (head addrs).

Definition encode_syn (observed : Multiaddr) : Syn := mkSyn (to_vec observed).

Definition node_type_from_wire (storer : bool) : SwarmNodeType := if storer then Storer else Client.
Definition node_type_to_wire (t : SwarmNodeType) : bool := bool_decide (t = Storer).

Definition encode_swarm_peer peer : ProtoPeer :=
  mkProtoPeer (serialize_multiaddrs (sp_multiaddrs peer)) (sig_bytes (sp_signature peer)) (sp_overlay peer) (sp_nonce peer)
    (sp_timestamp peer) (default [] (sp_chequebook peer)).

Definition swarm_peer_from_proto (proto : option ProtoPeer) (network : Z) : result HandshakeError Peer :=
  proto ← ok_or (HsMissingField "address") proto;
  if decide (length (pp_overlay proto) ≠ 32%nat) then Err HsInvalidOverlay
  else if decide (length (pp_nonce proto) ≠ 32%nat) then Err HsInvalidData
  else
    signature ← ok_or HsInvalidSignature (sig_from (pp_signature proto));
    map_err HsInvalidPeer
      (parse (mkWire Signature (pp_multiaddrs proto) signature (pp_overlay proto) (pp_nonce proto) (pp_timestamp proto)
                (pp_chequebook proto)) network None).

Definition welcome_message_from_proto (value : Ack) : result HandshakeError string :=
  let n := char_count (ack_welcome value) in
  if decide (MAX_WELCOME_MESSAGE_CHARS < n) then Err (HsFieldTooLong "welcome_message" MAX_WELCOME_MESSAGE_CHARS n)
  else Ok (ack_welcome value).

Definition decode_ack (proto : Ack) (network : Z) : result HandshakeError (Peer * SwarmNodeType * string) :=
  if decide (ack_network proto ≠ network) then Err HsNetworkIdMismatch
  else
    peer ← swarm_peer_from_proto (ack_address proto) network;
    welcome ← welcome_message_from_proto proto;
    Ok (peer, node_type_from_wire (ack_storer proto), welcome).

Definition encode_ack peer (t : SwarmNodeType) (welcome : string) (network : Z) : Ack :=
  mkAck (Some (encode_swarm_peer peer)) network (node_type_to_wire t) welcome.

Definition decode_synack (proto : SynAck) (network : Z) : result HandshakeError (Multiaddr * Peer * SwarmNodeType * string) :=
  syn ← ok_or (HsMissingField "syn") (sa_syn proto);
  observed ← decode_syn syn;
  ack ← ok_or (HsMissingField "ack") (sa_ack proto);
  if decide (ack_network ack ≠ network) then Err HsNetworkIdMismatch
  else
    peer ← swarm_peer_from_proto (ack_address ack) network;
    welcome ← welcome_message_from_proto ack;
    Ok (observed, peer, node_type_from_wire (ack_storer ack), welcome).

Definition encode_synack (observed : Multiaddr) peer (t : SwarmNodeType) (welcome : string) (network : Z) : SynAck :=
  mkSynAck (Some (encode_syn observed)) (Some (encode_ack peer t welcome network)).

(** ** The exchange *)

Definition validate_observed_addr (observed : Multiaddr) (expected : Z) : result HandshakeError unit :=
  match extract_peer_id observed with
  | Some pid => if decide (pid = expected) then Ok tt else Err HsInvalidObservedAddress
  | None => Err HsInvalidObservedAddress
  end.

Definition select_local_addrs (additional : list Multiaddr) (observed : Multiaddr) : list Multiaddr * bool :=
  let addrs := filter (λ a, a ≠ observed) additional in
  match addrs with [] => ([observed], true) | _ => (addrs, false) end.

Definition prepare_local_peer (now : Z) i (observed : Multiaddr) : result HandshakeError Peer :=
  let '(addrs, _) := select_local_addrs [] observed in
  map_err HsInvalidPeer (sign i addrs now None).

Record HandshakeProtocol := mkProtocol {
  hp_identity : Identity Key;
  hp_peer_id : Z;
  hp_local_peer_id : option Z;
  hp_remote_addr : Multiaddr;
  hp_self_record : option Peer;
  hp_admission : option ((list Z → SwarmNodeType → ConnectionDirection → AdmissionDecision) * ConnectionDirection);
}.

Implicit Types (p : HandshakeProtocol).

Record HandshakeInfo := mkInfo {
  hi_peer_id : Z;
  hi_swarm_peer : Peer;
  hi_node_type : SwarmNodeType;
  hi_welcome : string;
  hi_observed : Multiaddr;
}.

Definition evaluate_admission p (info : HandshakeInfo) : result HandshakeError unit :=
  match hp_admission p with
  | None => Ok tt
  | Some (ac, direction) =>
      match ac (sp_overlay (hi_swarm_peer info)) (hi_node_type info) direction with
      | Accept => Ok tt
      | Reject r => Err (HsAdmissionRejected r)
      end
  end.

(** The remote's address as this side sees it, under the peer id of the
    connection. *)
Definition observed_of p : Multiaddr :=
  let a := hp_remote_addr p in
  let a := match extract_peer_id a with Some _ => removelast a | None => a end in
  a ++ [P2p (hp_peer_id p)].

Definition check_observed p (observed : Multiaddr) : result HandshakeError unit :=
  match hp_local_peer_id p with Some id => validate_observed_addr observed id | None => Ok tt end.

Definition local_record (now : Z) p (observed : Multiaddr) : result HandshakeError Peer :=
  match hp_self_record p with Some r => Ok r | None => prepare_local_peer now (hp_identity p) observed end.

Definition my_welcome p : string := default EmptyString (welcome_message (hp_identity p)).

(** The responder, up to its answer. *)
Definition inbound_synack (now : Z) p (syn : Syn) : result HandshakeError (Multiaddr * SynAck) :=
  observed ← decode_syn syn;
  _ ← check_observed p observed;
  local ← local_record now p observed;
  Ok (observed, encode_synack (observed_of p) local (id_node_type (hp_identity p)) (my_welcome p) (id_network (hp_identity p))).

(** The responder, after the dialer's identity arrived. *)
Definition inbound_finish p (observed : Multiaddr) (ack : Ack) : result HandshakeError HandshakeInfo :=
  x ← decode_ack ack (id_network (hp_identity p));
  let '(peer, t, welcome) := x in
  let info := mkInfo (hp_peer_id p) peer t welcome observed in
  _ ← evaluate_admission p info;
  Ok info.

(** The responder's whole exchange; the messages it sent come first. *)
Definition do_inbound_exchange (now : Z) p (syn : result HandshakeError Syn) (sent : result HandshakeError unit)
    (ack : result HandshakeError Ack) (closed : result HandshakeError unit) : list SynAck * result HandshakeError HandshakeInfo :=
  match (syn ← syn; inbound_synack now p syn) with
  | Err e => ([], Err e)
  | Ok (observed, synack) =>
      match sent with
      | Err e => ([], Err e)
      | Ok _ => ([synack], ack ← ack; info ← inbound_finish p observed ack; _ ← closed; Ok info)
      end
  end.

Definition outbound_syn p : Syn := encode_syn (observed_of p).

(** The dialer, from the responder's answer to its own identity. *)
Definition outbound_ack (now : Z) p (synack : SynAck) : result HandshakeError (HandshakeInfo * Ack) :=
  x ← decode_synack synack (id_network (hp_identity p));
  let '(observed, peer, t, welcome) := x in
  _ ← check_observed p observed;
  local ← local_record now p observed;
  let info := mkInfo (hp_peer_id p) peer t welcome observed in
  _ ← evaluate_admission p info;
  Ok (info, encode_ack local (id_node_type (hp_identity p)) (my_welcome p) (id_network (hp_identity p))).

Definition do_outbound_exchange (now : Z) p (sent_syn : result HandshakeError unit) (synack : result HandshakeError SynAck)
    (sent_ack closed : result HandshakeError unit) : list Syn * list Ack * result HandshakeError HandshakeInfo :=
  match sent_syn with
  | Err e => ([], [], Err e)
  | Ok _ =>
      match (synack ← synack; outbound_ack now p synack) with
      | Err e => ([outbound_syn p], [], Err e)
      | Ok (info, ack) =>
          match sent_ack with
          | Err e => ([outbound_syn p], [], Err e)
          | Ok _ => ([outbound_syn p], [ack], _ ← closed; Ok info)
          end
      end
  end.

(** ** The cached record *)

Definition SELF_RECORD_REFRESH_INTERVAL : Z := 3600.

Record CachedSelfRecord := mkCached { ca_fingerprint : Z; ca_signed_at : Z; ca_record : Peer }.

Definition needs_resign (cached : option CachedSelfRecord) (fingerprint now refresh : Z) : bool :=
  match cached with
  | None => true
  | Some c =>
      if decide (ca_fingerprint c ≠ fingerprint) then true
      else bool_decide (refresh <= i64_saturating_sub now (ca_signed_at c))
  end.

(** [cached_self_record], given the addresses for the peer; the fingerprint is the
    standard library's hash. *)
Definition cached_self_record (fingerprint : list Multiaddr → Z) (now : Z) i (addrs : list Multiaddr)
    (cached : option CachedSelfRecord) : option Peer * option CachedSelfRecord :=
  match addrs with
  | [] => (None, cached)
  | _ =>
      let fp := fingerprint addrs in
      if negb (needs_resign cached fp now SELF_RECORD_REFRESH_INTERVAL) then (ca_record <$> cached, cached)
      else
        match sign i addrs now None with
        | Ok record => (Some record, Some (mkCached fp now record))
        | Err _ => (None, cached)
        end
  end.

(** ** The handler and the behaviour *)

Inductive HandshakeHandlerEvent := HandlerCompleted (info : HandshakeInfo) | HandlerFailed (e : HandshakeError).
Inductive HandlerState := HPending | HInProgress | HCompleted | HFailed.

Record HandshakeHandler := mkHandler {
  hh_remote_addr : Multiaddr;
  hh_state : HandlerState;
  hh_pending_event : option HandshakeHandlerEvent;
  hh_should_initiate : bool;
  hh_outbound_pending : bool;
}.

Implicit Types (h : HandshakeHandler).

Definition new_inbound (addr : Multiaddr) : HandshakeHandler := mkHandler addr HPending None false false.
Definition new_outbound (addr : Multiaddr) : HandshakeHandler := mkHandler addr HPending None true false.

Definition connection_keep_alive h : bool := match hh_state h with HFailed => false | _ => true end.

Inductive HandlerOutput := NotifyBehaviour (e : HandshakeHandlerEvent) | OutboundSubstreamRequest (addr : Multiaddr).

Definition handler_poll h : option HandlerOutput * HandshakeHandler :=
  match hh_pending_event h with
  | Some e => (Some (NotifyBehaviour e), mkHandler (hh_remote_addr h) (hh_state h) None (hh_should_initiate h) (hh_outbound_pending h))
  | None =>
      match hh_should_initiate h, hh_outbound_pending h, hh_state h with
      | true, false, HPending =>
          (Some (OutboundSubstreamRequest (hh_remote_addr h)), mkHandler (hh_remote_addr h) HInProgress None false true)
      | _, _, _ => (None, h)
      end
  end.

Definition on_behaviour_event (addr : Multiaddr) h : HandshakeHandler :=
  match hh_state h, hh_outbound_pending h with
  | HPending, false => mkHandler addr (hh_state h) (hh_pending_event h) true (hh_outbound_pending h)
  | _, _ => h
  end.

Inductive ConnectionEvent :=
| FullyNegotiatedInbound (info : HandshakeInfo)
| FullyNegotiatedOutbound (info : HandshakeInfo)
| DialUpgradeError (e : HandshakeError)
| ListenUpgradeError (e : HandshakeError).

Definition on_connection_event (ev : ConnectionEvent) h : HandshakeHandler :=
  match ev with
  | FullyNegotiatedInbound info =>
      mkHandler (hh_remote_addr h) HCompleted (Some (HandlerCompleted info)) (hh_should_initiate h) (hh_outbound_pending h)
  | FullyNegotiatedOutbound info =>
      mkHandler (hh_remote_addr h) HCompleted (Some (HandlerCompleted info)) (hh_should_initiate h) false
  | DialUpgradeError e => mkHandler (hh_remote_addr h) HFailed (Some (HandlerFailed e)) (hh_should_initiate h) false
  | ListenUpgradeError e =>
      mkHandler (hh_remote_addr h) HFailed (Some (HandlerFailed e)) (hh_should_initiate h) (hh_outbound_pending h)
  end.

(** [extract_error] of the stream layer. *)
Inductive StreamUpgradeError := UpTimeout | UpIo | UpApply (e : HandshakeError) | UpNegotiationFailed.

Definition extract_error (e : StreamUpgradeError) : HandshakeError :=
  match e with UpTimeout => HsTimeout | UpIo => HsIo | UpApply e => e | UpNegotiationFailed => HsUpgrade end.

Inductive HandshakeEvent :=
| EventCompleted (peer conn : Z) (direction : ConnectionDirection) (info : HandshakeInfo)
| EventFailed (peer conn : Z) (direction : ConnectionDirection) (e : HandshakeError).

(** The behaviour's directions by connection. *)
Definition directions_established (conn : Z) (d : ConnectionDirection) (m : gmap Z ConnectionDirection) := <[conn := d]> m.
Definition directions_closed (conn : Z) (m : gmap Z ConnectionDirection) := delete conn m.

Definition on_connection_handler_event (m : gmap Z ConnectionDirection) (peer conn : Z) (ev : HandshakeHandlerEvent) : HandshakeEvent :=
  let direction := default Inbound (m !! conn) in
  match ev with
  | HandlerCompleted info => EventCompleted peer conn direction info
  | HandlerFailed e => EventFailed peer conn direction e
  end.

(** ** Properties *)

Context {RL : RecordLaws Key Signature RE}.

(** A record that can be sent and checked anywhere on the network. *)
Record portable (network : Z) peer : Prop := {
  po_verified : verified network (serialize_multiaddrs (sp_multiaddrs peer)) peer;
  po_overlay : length (sp_overlay peer) = 32%nat;
  po_nonce : length (sp_nonce peer) = 32%nat;
}.

Lemma from_proto_portable network peer : portable network peer →
  swarm_peer_from_proto (Some (encode_swarm_peer peer)) network = Ok peer.
Proof.
  intros [Hv Ho Hn]. unfold swarm_peer_from_proto. cbn. rewrite !decide_False by (intros H; apply H; done).
  rewrite sig_from_bytes. cbn. change (mkWire _ _ _ _ _ _ _) with (to_wire peer). by rewrite (verified_parse _ _ None Hv).
Qed.

Lemma from_proto_verified proto network peer : swarm_peer_from_proto proto network = Ok peer →
  (∃ bytes, verified network bytes peer) ∧ length (sp_overlay peer) = 32%nat ∧ length (sp_nonce peer) = 32%nat.
Proof.
  unfold swarm_peer_from_proto. destruct proto as [proto|]; [|done]. cbn.
  case_decide as Ho; [done|]. case_decide as Hn; [done|]. destruct (sig_from _) as [sig|]; [|done]. cbn.
  destruct (parse _ _ _) as [x|e] eqn:E; [|done]. cbn. intros [= ->].
  apply parse_verified in E as (Hv & _ & Eo & En & _). simpl in Eo, En. rewrite Eo, En.
  split; [eauto|]. split; [by destruct (decide (length (pp_overlay proto) = 32%nat))|
    by destruct (decide (length (pp_nonce proto) = 32%nat))].
Qed.

Lemma sign_portable i addrs timestamp peer : identity_ok i → (∀ a, addrs = [a] → plain a) →
  sign i addrs timestamp None = Ok peer → portable (id_network i) peer.
Proof.
  intros Hi Hp Hs. destruct (sign_verified i addrs timestamp None peer Hi Hp ltac:(done) Hs) as (Hv & Ea & Eo & En & _).
  destruct Hi as [Hov Hnl]. split; [by rewrite Ea|rewrite Eo, Hov; apply compute_overlay_length|by rewrite En].
Qed.

(** A side that can complete: it has a record or can sign one, its welcome is
    short, and nothing rejects the peer. *)
Record ready (now : Z) p : Prop := {
  rd_identity : identity_ok (hp_identity p);
  rd_record : ∀ r, hp_self_record p = Some r → portable (id_network (hp_identity p)) r;
  rd_signer : ∀ m, is_Some (sign_message (id_key (hp_identity p)) m);
  rd_now : 0 < now;
  rd_welcome : char_count (my_welcome p) <= MAX_WELCOME_MESSAGE_CHARS;
  rd_admission : ∀ info, evaluate_admission p info = Ok tt;
  rd_observed : plain (observed_of p);
}.

Lemma local_record_ready now p observed : ready now p → plain observed →
  ∃ r, local_record now p observed = Ok r ∧ portable (id_network (hp_identity p)) r.
Proof.
  intros Hr Hp. unfold local_record. destruct (hp_self_record p) as [r|] eqn:Er; [exists r; split; [done|by eapply rd_record]|].
  unfold prepare_local_peer, select_local_addrs. rewrite filter_nil.
  destruct (sign (hp_identity p) [observed] now None) as [r|e] eqn:Es.
  - exists r. split; [done|]. eapply sign_portable; [by apply (rd_identity now)| |exact Es]. by intros a [= <-].
  - exfalso. unfold sign in Es. pose proof (rd_now _ _ Hr). rewrite decide_False in Es by lia. cbn in Es.
    destruct (rd_signer _ _ Hr (sign_data (to_vec observed) (id_overlay (hp_identity p)) (id_network (hp_identity p))
      (id_nonce (hp_identity p)) now None)) as [sig Hsig]. unfold serialize_multiaddrs in Es. by rewrite Hsig in Es.
Qed.

Lemma decode_encode_syn a : plain a → decode_syn (encode_syn a) = Ok a.
Proof.
  intros Hp. unfold decode_syn, encode_syn. cbn [syn_observed]. change (to_vec a) with (serialize_multiaddrs [a]).
  rewrite deserialize_serialize; [done|]. by intros b [= <-].
Qed.

Lemma welcome_ok peer t w network : char_count w <= MAX_WELCOME_MESSAGE_CHARS →
  welcome_message_from_proto (encode_ack peer t w network) = Ok w.
Proof. intros H. unfold welcome_message_from_proto. cbn. by rewrite decide_False by lia. Qed.

Lemma decode_encode_ack peer t w network : portable network peer → char_count w <= MAX_WELCOME_MESSAGE_CHARS →
  decode_ack (encode_ack peer t w network) network = Ok (peer, node_type_from_wire (node_type_to_wire t), w).
Proof.
  intros Hp Hw. unfold decode_ack. cbn [ack_network ack_address encode_ack]. rewrite decide_False by (intros H; by apply H).
  rewrite from_proto_portable by done. cbn. by rewrite welcome_ok.
Qed.

Lemma decode_encode_synack observed peer t w network : plain observed → portable network peer →
  char_count w <= MAX_WELCOME_MESSAGE_CHARS →
  decode_synack (encode_synack observed peer t w network) network = Ok (observed, peer, node_type_from_wire (node_type_to_wire t), w).
Proof.
  intros Ho Hp Hw. unfold decode_synack, encode_synack. cbn [sa_syn sa_ack ok_or mbind result_bind].
  rewrite decode_encode_syn by done. cbn [mbind result_bind ok_or ack_network encode_ack].
  rewrite decide_False by (intros H; by apply H). cbn [ack_address encode_ack]. rewrite from_proto_portable by done. cbn.
  by rewrite (welcome_ok peer t).
Qed.

(** The peer id of the connection is what the remote finds in the address it is
    shown. *)
Lemma check_observed_ok p q : (∀ id, hp_local_peer_id p = Some id → id = hp_peer_id q) →
  check_observed p (observed_of q) = Ok tt.
Proof.
  intros H. unfold check_observed. destruct (hp_local_peer_id p) as [id|]; [|done]. rewrite (H id eq_refl).
  unfold validate_observed_addr, extract_peer_id, observed_of. rewrite last_snoc. by rewrite decide_True.
Qed.


(** What one side knows when its exchange ends well. *)
Record genuine p (info : HandshakeInfo) : Prop := {
  gn_record : ∃ bytes, verified (id_network (hp_identity p)) bytes (hi_swarm_peer info);
  gn_lengths : length (sp_overlay (hi_swarm_peer info)) = 32%nat ∧ length (sp_nonce (hi_swarm_peer info)) = 32%nat;
  gn_type : hi_node_type info ≠ Bootnode;
  gn_welcome : char_count (hi_welcome info) <= MAX_WELCOME_MESSAGE_CHARS;
  gn_peer : hi_peer_id info = hp_peer_id p;
  gn_observed : ∀ id, hp_local_peer_id p = Some id → extract_peer_id (hi_observed info) = Some id;
  gn_admitted : evaluate_admission p info = Ok tt;
}.

Lemma check_observed_inv p observed : check_observed p observed = Ok tt →
  ∀ id, hp_local_peer_id p = Some id → extract_peer_id observed = Some id.
Proof.
  unfold check_observed, validate_observed_addr. intros H id E. rewrite E in H.
  destruct (extract_peer_id observed) as [pid|]; [|done]. by destruct (decide (pid = id)) as [->|].
Qed.

Lemma welcome_inv ack w : welcome_message_from_proto ack = Ok w → char_count w <= MAX_WELCOME_MESSAGE_CHARS.
Proof. unfold welcome_message_from_proto. case_decide; [done|]. intros [= <-]. lia. Qed.

Lemma bind_ok {A C} (m : result HandshakeError A) (f : A → result HandshakeError C) x :
  m ≫= f = Ok x → ∃ y, m = Ok y ∧ f y = Ok x.
Proof. destruct m as [y|e]; [|done]. intros H. by exists y. Qed.

Lemma wire_type_not_boot s : node_type_from_wire s ≠ Bootnode.
Proof. by destruct s. Qed.

Lemma inbound_finish_genuine p observed ack info : check_observed p observed = Ok tt → inbound_finish p observed ack = Ok info →
  genuine p info.
Proof.
  intros Hobs H. unfold inbound_finish in H. apply bind_ok in H as ([[peer t] w] & Hd & H). apply bind_ok in H as ([] & Had & [= <-]).
  unfold decode_ack in Hd. case_decide; [done|]. apply bind_ok in Hd as (peer' & Hp & Hd). apply bind_ok in Hd as (w' & Hw & [= <- <- <-]).
  apply from_proto_verified in Hp as (Hv & Ho & Hn).
  split; simpl; [done|done|apply wire_type_not_boot|by eapply welcome_inv|done|by apply check_observed_inv|done].
Qed.

Lemma outbound_ack_genuine now p synack info ack : outbound_ack now p synack = Ok (info, ack) → genuine p info.
Proof.
  intros H. unfold outbound_ack in H. apply bind_ok in H as ([[[observed peer] t] w] & Hd & H).
  apply bind_ok in H as ([] & Hobs & H). apply bind_ok in H as (local & _ & H). apply bind_ok in H as ([] & Had & [= <- _]).
  unfold decode_synack in Hd. apply bind_ok in Hd as (syn & _ & Hd). apply bind_ok in Hd as (o & _ & Hd).
  apply bind_ok in Hd as (a & _ & Hd). case_decide; [done|]. apply bind_ok in Hd as (peer' & Hp & Hd).
  apply bind_ok in Hd as (w' & Hw & [= <- <- <- <-]). apply from_proto_verified in Hp as (Hv & Ho & Hn).
  split; simpl; [done|done|apply wire_type_not_boot|by eapply welcome_inv|done|by apply check_observed_inv|done].
Qed.

(** C16: whatever the remote sends, an exchange that ends well carries a record whose
    signature recovers the key that derives its overlay on this network, was shown
    the node's own peer id, and passed the admission gate; and the dialer reveals
    its own record only after all of this. *)
Theorem handshake_authentic now p :
  (∀ syn sent ack closed info, (do_inbound_exchange now p syn sent ack closed).2 = Ok info → genuine p info) ∧
  (∀ sent synack sent_ack closed,
     let '(syns, acks, out) := do_outbound_exchange now p sent synack sent_ack closed in
     (∀ info, out = Ok info → genuine p info) ∧
     (acks ≠ [] → ∃ sa info ack, synack = Ok sa ∧ outbound_ack now p sa = Ok (info, ack) ∧ acks = [ack] ∧ genuine p info)).
Proof.
  split.
  - intros syn sent ack closed info. unfold do_inbound_exchange.
    destruct (syn ≫= _) as [[observed synack]|e] eqn:E; [|done]. destruct sent as [[]|e]; [|done]. cbn [snd]. intros H.
    apply bind_ok in H as (a & _ & H). apply bind_ok in H as (info' & Hf & H). apply bind_ok in H as ([] & _ & [= <-]).
    eapply inbound_finish_genuine; [|exact Hf]. apply bind_ok in E as (s & _ & E). unfold inbound_synack in E.
    apply bind_ok in E as (o & _ & E). apply bind_ok in E as ([] & Hc & E). apply bind_ok in E as (l & _ & [= <- _]). done.
  - intros sent synack sent_ack closed. unfold do_outbound_exchange. destruct sent as [[]|e]; [|by split].
    destruct (synack ≫= _) as [[info ack]|e] eqn:E; [|by split]. apply bind_ok in E as (sa & Es & E).
    destruct sent_ack as [[]|e]; [|by split]. split.
    + intros info' H. apply bind_ok in H as ([] & _ & [= <-]). by eapply outbound_ack_genuine.
    + intros _. exists sa, info, ack. split_and!; [done..|by eapply outbound_ack_genuine].
Qed.

(** The exchange does not prove control of the overlay's key.  A record learnt
    from anyone is accepted from everyone: whoever sends it over a connection is
    known by its overlay, under the sender's own peer id. *)
Theorem handshake_replayable p observed r t w :
  portable (id_network (hp_identity p)) r → char_count w <= MAX_WELCOME_MESSAGE_CHARS →
  (∀ info, evaluate_admission p info = Ok tt) →
  inbound_finish p observed (encode_ack r t w (id_network (hp_identity p))) =
    Ok (mkInfo (hp_peer_id p) r (node_type_from_wire (node_type_to_wire t)) w observed).
Proof.
  intros Hr Hw Had. unfold inbound_finish. rewrite decode_encode_ack by done. cbn [mbind result_bind]. by rewrite Had.
Qed.

(** ** The cached record, over time *)

Section cache.
Context (fingerprint : list Multiaddr → Z) (i : Identity Key).
Implicit Types (c : option CachedSelfRecord).

Definition cache_step c (call : Z * list Multiaddr) : option CachedSelfRecord :=
  (cached_self_record fingerprint call.1 i call.2 c).2.

Definition cache_from (calls : list (Z * list Multiaddr)) c : Prop :=
  ∀ x, c = Some x → ∃ t addrs, (t, addrs) ∈ calls ∧ addrs ≠ [] ∧ ca_fingerprint x = fingerprint addrs ∧ ca_signed_at x = t ∧
    sign i addrs t None = Ok (ca_record x).

Lemma cache_step_from calls c call : cache_from calls c → cache_from (calls ++ [call]) (cache_step c call).
Proof.
  intros Hc x. assert (Hweak : c = Some x → ∃ t addrs, (t, addrs) ∈ calls ++ [call] ∧ addrs ≠ [] ∧ ca_fingerprint x = fingerprint addrs ∧
    ca_signed_at x = t ∧ sign i addrs t None = Ok (ca_record x)).
  { intros (t & a & Hin & H)%Hc. exists t, a. split; [apply elem_of_app; by left|done]. }
  destruct call as [now addrs]. unfold cache_step, cached_self_record. simpl.
  destruct addrs as [|a l] eqn:Ea; [exact Hweak|]. rewrite <- Ea in Hweak |- *. destruct (negb _); [exact Hweak|].
  destruct (sign i addrs now None) as [r|e] eqn:Es; [|exact Hweak]. intros [= <-]. exists now, addrs. simpl.
  split_and!; [|by rewrite Ea|done..]. apply elem_of_app. right. by apply list_elem_of_singleton.
Qed.

Lemma cache_run_from calls : cache_from calls (run cache_step None calls).
Proof.
  induction calls as [|call calls IH] using rev_ind; [done|]. rewrite run_app. by apply cache_step_from.
Qed.

(** The record handed to a handshake is always one the node signed over
    exactly the addresses meant for this peer, now or in an earlier call less than
    an hour ago, and the same call gives the very same record until that hour is
    over; only with no address, or when signing fails, there is none. *)
Theorem self_record_exact calls now addrs :
  (∀ x y, x ∈ addrs :: calls.*2 → y ∈ addrs :: calls.*2 → fingerprint x = fingerprint y → x = y) →
  let c := run cache_step None calls in
  let '(out, c') := cached_self_record fingerprint now i addrs c in
  match out with
  | Some r => ∃ t, sign i addrs t None = Ok r ∧
      (t = now ∨ t ∈ calls.*1 ∧ i64_saturating_sub now t < SELF_RECORD_REFRESH_INTERVAL) ∧
      ∀ later, i64_saturating_sub later t < SELF_RECORD_REFRESH_INTERVAL →
        cached_self_record fingerprint later i addrs c' = (Some r, c')
  | None => c' = c ∧ (addrs = [] ∨ ∃ e, sign i addrs now None = Err e)
  end.
Proof.
  intros Hinj c. pose proof (cache_run_from calls) as Hc. fold c in Hc. unfold cached_self_record at 1.
  destruct addrs as [|a l] eqn:Ea; [by split; [|left]|]. rewrite <- Ea in *.
  assert (Hkeep : ∀ x later, ca_fingerprint x = fingerprint addrs → i64_saturating_sub later (ca_signed_at x) < SELF_RECORD_REFRESH_INTERVAL →
    cached_self_record fingerprint later i addrs (Some x) = (Some (ca_record x), Some x)).
  { intros x later Ef Hl. unfold cached_self_record. rewrite Ea. rewrite <- Ea. unfold needs_resign.
    rewrite decide_False by (intros H; by apply H). rewrite bool_decide_eq_false_2 by lia. done. }
  destruct (negb (needs_resign _ _ _ _)) eqn:En.
  - apply negb_true_iff in En. unfold needs_resign in En. destruct c as [x|]; [|done].
    destruct (decide (ca_fingerprint x ≠ fingerprint addrs)) as [|Ef]; [done|]. apply bool_decide_eq_false in En.
    assert (ca_fingerprint x = fingerprint addrs) as Ef' by (destruct (decide (ca_fingerprint x = fingerprint addrs)); [done|by destruct Ef]).
    destruct (Hc x eq_refl) as (t & addrs' & Hin & _ & Ef'' & Et & Hs). cbn [fmap option_fmap option_map].
    assert (addrs' = addrs) as ->.
    { apply Hinj; [right; apply list_elem_of_fmap; by exists (t, addrs')|left|congruence]. }
    exists t. rewrite Et in En. split; [done|]. split.
    + right. split; [apply list_elem_of_fmap; by exists (t, addrs)|lia].
    + intros later Hl. apply Hkeep; [done|by rewrite Et].
  - destruct (sign i addrs now None) as [r|e] eqn:Es; [|by split; [|right; eauto]].
    exists now. split; [done|]. split; [by left|]. intros later Hl. by apply (Hkeep (mkCached _ now r)).
Qed.
End cache.

(** ** The handler, over its events *)

Inductive HandlerOp := OpPoll | OpInitiate (addr : Multiaddr) | OpEvent (ev : ConnectionEvent).

Definition outcome_of (ev : ConnectionEvent) : HandshakeHandlerEvent :=
  match ev with
  | FullyNegotiatedInbound info | FullyNegotiatedOutbound info => HandlerCompleted info
  | DialUpgradeError e | ListenUpgradeError e => HandlerFailed e
  end.

Definition handler_step (x : list HandlerOutput * HandshakeHandler) (op : HandlerOp) : list HandlerOutput * HandshakeHandler :=
  let '(outs, h) := x in
  match op with
  | OpPoll => let '(o, h) := handler_poll h in (outs ++ option_list o, h)
  | OpInitiate addr => (outs, on_behaviour_event addr h)
  | OpEvent ev => (outs, on_connection_event ev h)
  end.

Definition notified (outs : list HandlerOutput) : list HandshakeHandlerEvent :=
  omap (λ o, match o with NotifyBehaviour e => Some e | _ => None end) outs.
Definition requests (outs : list HandlerOutput) : list Multiaddr :=
  omap (λ o, match o with OutboundSubstreamRequest a => Some a | _ => None end) outs.
Definition outcomes (ops : list HandlerOp) : list HandshakeHandlerEvent :=
  omap (λ op, match op with OpEvent ev => Some (outcome_of ev) | _ => None end) ops.

Record handler_inv (ops : list HandlerOp) (x : list HandlerOutput * HandshakeHandler) : Prop := {
  hv_requests : (length (requests x.1) <= 1)%nat ∧ (requests x.1 ≠ [] → hh_state x.2 ≠ HPending);
  hv_reported : notified x.1 ++ option_list (hh_pending_event x.2) `sublist_of` outcomes ops;
  hv_last : last (notified x.1 ++ option_list (hh_pending_event x.2)) = last (outcomes ops);
  hv_failed : hh_state x.2 = HFailed ↔ ∃ e, last (outcomes ops) = Some (HandlerFailed e);
}.

Lemma outcomes_snoc ops op : outcomes (ops ++ [op]) =
  outcomes ops ++ match op with OpEvent ev => [outcome_of ev] | _ => [] end.
Proof. unfold outcomes. rewrite omap_app. f_equal. by destruct op. Qed.

Lemma handler_event_inv ops outs h ev : handler_inv ops (outs, h) →
  handler_inv (ops ++ [OpEvent ev]) (outs, on_connection_event ev h).
Proof.
  intros [[Hr Hr'] Hs Hl Hf].
  assert (Hp : hh_pending_event (on_connection_event ev h) = Some (outcome_of ev)) by (by destruct ev).
  split; cbn [fst snd] in *.
  - split; [done|]. by destruct ev.
  - rewrite outcomes_snoc, Hp. apply sublist_app; [|done].
    etrans; [|exact Hs]. by apply sublist_inserts_r.
  - rewrite outcomes_snoc, Hp. change (option_list (Some (outcome_of ev))) with [outcome_of ev]. by rewrite !last_snoc.
  - rewrite outcomes_snoc, last_snoc. destruct ev; simpl; (split; [first [done|by eexists]|first [done|by intros [? [=]]]]).
Qed.

Lemma handler_step_inv ops x op : handler_inv ops x → handler_inv (ops ++ [op]) (handler_step x op).
Proof.
  destruct x as [outs h]. destruct op as [|addr|ev]; [| |by apply handler_event_inv]; intros [[Hr Hr'] Hs Hl Hf]; cbn [fst snd] in *;
    cbn [handler_step].
  - unfold handler_poll. destruct h as [ra st [e|] si op]; cbn in *.
    + split; cbn [fst snd hh_state hh_pending_event option_list]; rewrite ?outcomes_snoc, ?app_nil_r.
      * unfold requests. rewrite omap_app. cbn. rewrite app_nil_r. done.
      * unfold notified in *. rewrite omap_app. done.
      * unfold notified in *. rewrite omap_app. done.
      * done.
    + assert (Hsame : handler_inv (ops ++ [OpPoll]) (outs ++ [], mkHandler ra st None si op)).
      { rewrite app_nil_r. split; cbn [fst snd hh_state hh_pending_event option_list]; rewrite ?outcomes_snoc, ?app_nil_r in *; done. }
      destruct si; [|done]. destruct op; [done|]. destruct st; try done. cbn.
      assert (requests outs = []) as Hnil by (destruct (requests outs); [done|by destruct Hr']).
      split; cbn [fst snd hh_state hh_pending_event option_list]; rewrite ?outcomes_snoc, ?app_nil_r in *.
      * unfold requests in *. rewrite omap_app, Hnil. cbn. split; [lia|done].
      * unfold notified in *. rewrite omap_app. cbn. by rewrite app_nil_r.
      * unfold notified in *. rewrite omap_app. cbn. by rewrite app_nil_r.
      * split; [done|]. intros H. by apply Hf in H.
  - unfold on_behaviour_event. destruct h as [ra st pe si op]. cbn in *.
    destruct st; try (split; cbn in *; rewrite ?outcomes_snoc, ?app_nil_r in *; done). destruct op;
      split; cbn in *; rewrite ?outcomes_snoc, ?app_nil_r in *; done.
Qed.

(** On every connection the handler starts at most one exchange of its own;
    what it reports is what its exchanges ended with, in order and without
    repeats; the last outcome is reported or waiting; and it lets go of the
    connection exactly when that outcome is a failure. *)
Theorem handler_reports (dialed : bool) addr ops :
  let '(outs, h) := run handler_step ([], if dialed then new_outbound addr else new_inbound addr) ops in
  (length (requests outs) <= 1)%nat ∧
  notified outs ++ option_list (hh_pending_event h) `sublist_of` outcomes ops ∧
  last (notified outs ++ option_list (hh_pending_event h)) = last (outcomes ops) ∧
  (connection_keep_alive h = false ↔ ∃ e, last (outcomes ops) = Some (HandlerFailed e)).
Proof.
  assert (H : handler_inv ops (run handler_step ([], if dialed then new_outbound addr else new_inbound addr) ops)).
  { induction ops as [|op ops IH] using rev_ind.
    - destruct dialed; split; cbn; try done; (split; [lia || done|]); try done; by intros [? [=]].
    - rewrite run_app. by apply handler_step_inv. }
  destruct (run _ _ _) as [outs h]. destruct H as [[H1 _] H2 H3 H4]. cbn [fst snd] in *. split_and!; [done..|].
  rewrite <- H4. unfold connection_keep_alive. by destruct (hh_state h).
Qed.
End handshake.

(** ** A run *)

Module HandshakeDemo.
Import RecordDemo.

Definition you : Identity Z := identity_new 6 (replicate 32 1) 10 Client.
Definition wan (k : Z) : Multiaddr := [Ip4 (8 * 2 ^ 24 + k); Tcp 1634].

Lemma plain_any a : plain a.
Proof. split; discriminate. Qed.

Lemma signs_any k (m : list Z) : is_Some (sign_message (Key:=Z) k m).
Proof. by eexists. Qed.

Definition my_record : SwarmPeer (Z * list Z) :=
  match sign me [wan 1 ++ [P2p 50]] 900 None with Ok r => r | Err _ => mkSwarmPeer _ [] (0, []) [] [] 0 None [] end.

(** The dialer has a record; the responder signs over the address it is seen at. *)
Definition dialer : HandshakeProtocol (Signature:=Z * list Z) := mkProtocol me 60 (Some 50) (wan 2 ++ [P2p 60]) (Some my_record) None.
Definition responder : HandshakeProtocol (Signature:=Z * list Z) := mkProtocol you 50 (Some 60) (wan 1) None None.

Lemma my_record_portable : portable 10 my_record.
Proof.
  assert (sign me [wan 1 ++ [P2p 50]] 900 None = Ok my_record) as E by (vm_compute; reflexivity).
  apply (sign_portable me _ _ _ me_ok) in E; [exact E|]. intros a _. apply plain_any.
Qed.

Lemma dialer_ready : ready 1000 dialer.
Proof.
  split; [exact me_ok|intros r [= <-]; exact my_record_portable|apply signs_any|lia|vm_compute; discriminate|done|apply plain_any].
Qed.

Lemma responder_ready : ready 1001 responder.
Proof. split; [done|done|apply signs_any|lia|vm_compute; discriminate|done|apply plain_any]. Qed.


(** Someone else's connection, with the dialer's record. *)
Lemma handshake_replayable_witness :
  let impostor := mkProtocol you 99 (Some 60) (wan 9) None None in
  ∃ info, inbound_finish impostor (wan 2 ++ [P2p 60]) (encode_ack my_record Storer EmptyString 10) = Ok info ∧
    hi_peer_id info = 99 ∧ sp_overlay (hi_swarm_peer info) = replicate 32 5.
Proof.
  intros impostor. eexists. split.
  - apply (handshake_replayable impostor (wan 2 ++ [P2p 60]) my_record Storer EmptyString my_record_portable).
    + vm_compute. discriminate.
    + done.
  - vm_compute. split; reflexivity.
Defined.

Definition hash_addrs (l : list Multiaddr) : Z := Zpos (encode l).

Lemma self_record_exact_witness :
  let calls := [(1000, [wan 1]); (1500, [wan 1])] in
  ∃ r t, (cached_self_record hash_addrs 2000 me [wan 1] (run (cache_step hash_addrs me) None calls)).1 = Some r ∧
    sign me [wan 1] t None = Ok r ∧ sp_timestamp r = 1000.
Proof.
  intros calls.
  assert (Hinj : ∀ x y, x ∈ [wan 1] :: calls.*2 → y ∈ [wan 1] :: calls.*2 → hash_addrs x = hash_addrs y → x = y)
    by (intros x y _ _ [= E]; by apply (inj encode)).
  assert (∃ r, (cached_self_record hash_addrs 2000 me [wan 1] (run (cache_step hash_addrs me) None calls)).1 = Some r ∧ sp_timestamp r = 1000)
    as (r & Er & Et) by (eexists; split; [vm_compute; reflexivity|vm_compute; reflexivity]).
  pose proof (self_record_exact hash_addrs me calls 2000 [wan 1] Hinj) as H. cbv zeta in H.
  destruct (cached_self_record hash_addrs 2000 me [wan 1] (run (cache_step hash_addrs me) None calls)) as [out c'].
  cbn [fst] in Er. rewrite Er in H. destruct H as (t & Hs & _). exists r, t. split; [exact Er|]. split; [exact Hs|exact Et].
Defined.

(** With peers of two kinds, each with its own set of addresses, the one slot is
    signed anew at every connection. *)
Example alternating_sets_are_resigned :
  let calls := [(1000, [wan 1]); (1001, [wan 2]); (1002, [wan 1])] in
  sp_timestamp <$> (cached_self_record hash_addrs 1003 me [wan 2] (run (cache_step hash_addrs me) None calls)).1 = Some 1003.
Proof. vm_compute. reflexivity. Qed.

(** A record dated centuries ahead is accepted. *)
Example future_record_accepted :
  ∃ r, sign me [wan 1] (2 ^ 40) None = Ok r ∧
    inbound_finish responder (wan 2) (encode_ack r Storer EmptyString 10) = Ok (mkInfo 50 r Storer EmptyString (wan 2)).
Proof.
  destruct (sign me [wan 1] (2 ^ 40) None) as [r|e] eqn:E; [|discriminate E]. exists r. split; [done|].
  apply (sign_portable me _ _ _ me_ok) in E; [|intros a _; apply plain_any].
  unfold inbound_finish. rewrite decode_encode_ack; [reflexivity|exact E|vm_compute; discriminate].
Qed.

(** The remote of a dialled connection opens an exchange of its own: the handler
    reports two completions, of two identities. *)
Example two_identities_on_one_connection :
  let info r := mkInfo 60 r Storer EmptyString (wan 2) in
  ∀ r1 r2 : SwarmPeer (Z * list Z),
  notified (run handler_step ([], new_outbound (wan 2))
    [OpPoll; OpEvent (FullyNegotiatedOutbound (info r1)); OpPoll; OpEvent (FullyNegotiatedInbound (info r2)); OpPoll]).1 =
  [HandlerCompleted (info r1); HandlerCompleted (info r2)].
Proof. reflexivity. Qed.
End HandshakeDemo.
