(* ===== verification/Hive.v ===== *)
(** * Hive: gossip of peer records

    Models [swarm/net/hive/src/] and [swarm/net/handler-core/src/lib.rs]: the sharded
    cache of validated records ([cache.rs]), validation of a batch and the reader
    with its rate limit ([protocol.rs], [codec.rs]), the per-connection handler
    ([handler.rs]) and the behaviour ([behaviour.rs]); and the two ends of it in
    [topology/src/]: [broadcast_peers] and [on_hive_peers_received].  Batches of
    several connections are validated at once on blocking threads; [worker_step] is
    one locked access to the cache by one of them. *)

From S2P Require Import Prelude.
From S2P Require Import Primitives.
From S2P Require Import LocalNet.
From S2P Require Import GossipIntake.
From S2P Require Import PeerRecord.
From S2P Require Import Registry.
From S2P Require Import RateLimiter.
From S2P Require Import Handshake.

(** [slice::chunks]: pieces of [n] elements, the last one shorter. *)
Fixpoint chunks_loop {A} (fuel n : nat) (l : list A) : list (list A) :=
  match fuel, l with
  | S fuel, _ :: _ => take n l :: chunks_loop fuel n (drop n l)
  | _, _ => []
  end.

Definition chunks {A} (n : nat) (l : list A) : list (list A) := chunks_loop (length l) n l.

Definition MAX_BATCH_SIZE : nat := 30.
Definition HIVE_INBOUND_QUOTA : Quota := n_every 128 (60 * 1000000000).
Definition INBOUND_SUBSTREAM_QUOTA : Quota := n_every 4 (20 * 1000000000).
Definition MAX_PENDING_BROADCASTS : nat := 16.
Definition PEER_CACHE_CAPACITY : Z := 256.
Definition SHARD_COUNT : Z := 8.

Inductive ValidationFailure :=
| OverlayLength
| SignatureFormat
| NonceLength
| PeerValidation (e : SwarmPeerError)
| SelfOverlay
| MissingPeerId.

Inductive InboundPolicy := Forward | Discard.

(** [HivePeerHandler] of the two roles. *)
Definition learn_and_dial : InboundPolicy := Forward.
Definition discard_silently : InboundPolicy := Discard.

Inductive ProtocolStreamError := PsConnectionClosed | PsProtobuf | PsIo | PsTimeout | PsNegotiationFailed | PsUpgrade.

Inductive DialReason := ForDiscovery | ForBootnode | ForTrusted | ForCommand.

#[global] Instance DialReason_eq_dec : EqDecision DialReason.
Proof. solve_decision. Defined.

(** ** The handler core *)

Record HandlerCore {E : Type} := mkCore {
  hc_pending_events : list E;
  hc_rate_limiter : RateLimiter;
  hc_outbound_pending : bool;
}.
Arguments HandlerCore : clear implicits.
Arguments mkCore {E}.

Section core.
Context {E : Type}.
Implicit Types (c : HandlerCore E).

Definition core_new (q : Quota) : HandlerCore E := mkCore [] (rl_new q) false.

Definition poll_pending c : option E * HandlerCore E :=
  match hc_pending_events c with
  | [] => (None, c)
  | e :: es => (Some e, mkCore es (hc_rate_limiter c) (hc_outbound_pending c))
  end.

Definition push_event (e : E) c : HandlerCore E :=
  mkCore (hc_pending_events c ++ [e]) (hc_rate_limiter c) (hc_outbound_pending c).

Definition try_accept_inbound (now : Z) c : bool * HandlerCore E :=
  let '(r, l) := rl_try_consume_n 1 now (hc_rate_limiter c) in
  (match r with Ok _ => true | Err _ => false end, mkCore (hc_pending_events c) l (hc_outbound_pending c)).

Definition set_outbound_pending (b : bool) c : HandlerCore E := mkCore (hc_pending_events c) (hc_rate_limiter c) b.
End core.

Section hive.
Context `{RE : RecordEnv Key Signature} `{!EqDecision Signature}.
Abbreviation Peer := (SwarmPeer Signature).
Context `{RC : !RecencyCache (list Z) Peer C}.
Implicit Types (peer : Peer) (p : ProtoPeer) (o local : list Z).

(** ** The cache *)

Abbreviation PeerCache := (list C).
Implicit Types (pc : PeerCache).

Definition peer_cache_default : PeerCache := replicate (Z.to_nat SHARD_COUNT) (rc_new (PEER_CACHE_CAPACITY / SHARD_COUNT)).

(** The shard of an address: its last byte, masked. *)
Definition shard o : nat := Z.to_nat (Z.land (default 0 (o !! 31%nat)) (SHARD_COUNT - 1)).

Definition cache_get o (signature : Signature) pc : option Peer * PeerCache :=
  match pc !! shard o with
  | None => (None, pc)
  | Some c =>
      let '(cached, c) := rc_get o c in
      (match cached with Some peer => if decide (sp_signature peer = signature) then Some peer else None | None => None end,
       <[shard o := c]> pc)
  end.

Definition cache_insert o peer pc : PeerCache :=
  match pc !! shard o with None => pc | Some c => <[shard o := rc_insert o peer c]> pc end.

(** ** Validation *)

(** [encode_peers]. *)
Definition encode_peers (peers : list Peer) : list ProtoPeer := encode_swarm_peer <$> peers.

(** The checks before the cache. *)
Definition precheck local p : result ValidationFailure Signature :=
  if decide (length (pp_overlay p) ≠ 32%nat) then Err OverlayLength
  else if decide (pp_overlay p = local) then Err SelfOverlay
  else ok_or SignatureFormat (sig_from (pp_signature p)).

(** The full check of a record that is not cached. *)
Definition verify_record (network : Z) (signature : Signature) p : result ValidationFailure Peer :=
  if decide (length (pp_nonce p) ≠ 32%nat) then Err NonceLength
  else
    peer ← map_err PeerValidation
      (parse (mkWire Signature (pp_multiaddrs p) signature (pp_overlay p) (pp_nonce p) (pp_timestamp p) (pp_chequebook p)) network None);
    if forallb (λ a, bool_decide (is_Some (extract_peer_id a))) (sp_multiaddrs peer) then Ok peer else Err MissingPeerId.

Definition validate_proto_peer (network : Z) local p pc : result ValidationFailure Peer * PeerCache :=
  match precheck local p with
  | Err e => (Err e, pc)
  | Ok signature =>
      let '(hit, pc) := cache_get (pp_overlay p) signature pc in
      match hit with
      | Some cached => (Ok cached, pc)
      | None =>
          match verify_record network signature p with
          | Err e => (Err e, pc)
          | Ok peer => (Ok peer, cache_insert (pp_overlay p) peer pc)
          end
      end
  end.

(** [validate_batch]: the outcomes in order, and the cache. *)
Fixpoint validate_all (network : Z) local (raw : list ProtoPeer) pc : list (result ValidationFailure Peer) * PeerCache :=
  match raw with
  | [] => ([], pc)
  | p :: raw =>
      let '(r, pc) := validate_proto_peer network local p pc in
      let '(rs, pc) := validate_all network local raw pc in
      (r :: rs, pc)
  end.

Definition ok_value {E A} (r : result E A) : option A := match r with Ok a => Some a | Err _ => None end.

Definition validate_batch (network : Z) local (raw : list ProtoPeer) pc : list Peer * Z * Z * PeerCache :=
  let '(rs, pc) := validate_all network local raw pc in
  let peers := omap ok_value rs in
  (peers, Z.of_nat (length peers), Z.of_nat (length rs - length peers), pc).

(** ** Concurrent batches *)

(** A validation task: what is left, a record validated and about to be stored,
    and the outcomes. *)
Record Worker := mkWorker {
  wk_todo : list ProtoPeer;
  wk_store : option (list Z * Peer);
  wk_out : list (result ValidationFailure Peer);
}.

Definition worker_step (network : Z) local (w : Worker) pc : Worker * PeerCache :=
  match wk_store w with
  | Some (o, peer) => (mkWorker (wk_todo w) None (wk_out w ++ [Ok peer]), cache_insert o peer pc)
  | None =>
      match wk_todo w with
      | [] => (w, pc)
      | p :: todo =>
          match precheck local p with
          | Err e => (mkWorker todo None (wk_out w ++ [Err e]), pc)
          | Ok signature =>
              let '(hit, pc) := cache_get (pp_overlay p) signature pc in
              match hit with
              | Some cached => (mkWorker todo None (wk_out w ++ [Ok cached]), pc)
              | None =>
                  match verify_record network signature p with
                  | Err e => (mkWorker todo None (wk_out w ++ [Err e]), pc)
                  | Ok peer => (mkWorker todo (Some (pp_overlay p, peer)) (wk_out w), pc)
                  end
              end
          end
      end
  end.

(** One access by the [k]-th task. *)
Definition pool_step (network : Z) local (x : list Worker * PeerCache) (k : nat) : list Worker * PeerCache :=
  match x.1 !! k with
  | None => x
  | Some w => let '(w, pc) := worker_step network local w x.2 in (<[k := w]> x.1, pc)
  end.

Definition pool_start (batches : list (list ProtoPeer)) pc : list Worker * PeerCache :=
  ((λ raw, mkWorker raw None []) <$> batches, pc).

(** ** The reader and the behaviour *)

Inductive HiveEvent :=
| PeersReceived (peer_id conn : Z) (peers : list Peer)
| HiveError (peer_id conn : Z) (e : ProtocolStreamError).

Inductive ToSwarm := GenerateEvent (ev : HiveEvent) | NotifyHandler (peer_id conn : Z) (peers : list Peer).

Record HiveBehaviour := mkHive {
  hv_network : Z;
  hv_local : list Z;
  hv_cache : PeerCache;
  hv_events : list ToSwarm;
  hv_policy : InboundPolicy;
  hv_limit : KeyedRateLimiter (K:=Z);
}.

Implicit Types (b : HiveBehaviour).

Definition with_peer_handler (network : Z) local (policy : InboundPolicy) : HiveBehaviour :=
  mkHive network local peer_cache_default [] policy (kl_new HIVE_INBOUND_QUOTA).

Definition with_read (pc : PeerCache) (l : KeyedRateLimiter (K:=Z)) b : HiveBehaviour :=
  mkHive (hv_network b) (hv_local b) pc (hv_events b) (hv_policy b) l.

Definition with_event (e : ToSwarm) b : HiveBehaviour :=
  mkHive (hv_network b) (hv_local b) (hv_cache b) (hv_events b ++ [e]) (hv_policy b) (hv_limit b).

(** The charge of a batch, on its raw count. *)
Definition charge (now remote : Z) (raw : list ProtoPeer) (l : KeyedRateLimiter (K:=Z)) : bool * KeyedRateLimiter (K:=Z) :=
  match raw with
  | [] => (true, l)
  | _ =>
      let '(r, l) := try_consume_n remote (Z.min (Z.of_nat (length raw)) u32_max) now l in
      (match r with Ok _ => true | Err _ => false end, l)
  end.

(** [HiveInner::read], after the message was received. *)
Definition read (now remote : Z) (raw : list ProtoPeer) b : list Peer * HiveBehaviour :=
  let '(granted, l) := charge now remote raw (hv_limit b) in
  if negb granted then ([], with_read (hv_cache b) l b)
  else
    match hv_policy b with
    | Discard => ([], with_read (hv_cache b) l b)
    | Forward =>
        let '(peers, _, _, pc) := validate_batch (hv_network b) (hv_local b) raw (hv_cache b) in
        (peers, with_read pc l b)
    end.

Definition broadcast (peer_id conn : Z) (peers : list Peer) b : HiveBehaviour :=
  match peers with [] => b | _ => with_event (NotifyHandler peer_id conn peers) b end.

(** [on_swarm_event] for a closed connection. *)
Definition hive_closed (peer_id remaining : Z) b : HiveBehaviour :=
  if decide (remaining = 0) then with_read (hv_cache b) (kl_clear peer_id (hv_limit b)) b else b.

Inductive HiveHandlerEvent := HandlerPeers (peers : list Peer) | HandlerError (e : ProtocolStreamError).

Definition on_hive_handler_event (peer_id conn : Z) (ev : HiveHandlerEvent) b : HiveBehaviour :=
  match ev with
  | HandlerPeers [] => b
  | HandlerPeers peers => with_event (GenerateEvent (PeersReceived peer_id conn peers)) b
  | HandlerError e => with_event (GenerateEvent (HiveError peer_id conn e)) b
  end.

(** ** The handler *)

Record HiveHandler := mkHiveHandler {
  vh_core : HandlerCore HiveHandlerEvent;
  vh_pending_broadcasts : list (list Peer);
}.

Implicit Types (h : HiveHandler).

Definition hive_handler_new : HiveHandler := mkHiveHandler (core_new INBOUND_SUBSTREAM_QUOTA) [].

Inductive HiveOutput := HiveNotify (ev : HiveHandlerEvent) | HiveRequest (message : list ProtoPeer).

Definition hive_poll h : option HiveOutput * HiveHandler :=
  match poll_pending (vh_core h) with
  | (Some ev, c) => (Some (HiveNotify ev), mkHiveHandler c (vh_pending_broadcasts h))
  | (None, c) =>
      match hc_outbound_pending c, vh_pending_broadcasts h with
      | false, peers :: rest => (Some (HiveRequest (encode_peers peers)), mkHiveHandler (set_outbound_pending true c) rest)
      | _, rest => (None, mkHiveHandler c rest)
      end
  end.

Definition on_broadcast_command (peers : list Peer) h : HiveHandler :=
  if decide (MAX_PENDING_BROADCASTS <= length (vh_pending_broadcasts h))%nat then h
  else mkHiveHandler (vh_core h) (vh_pending_broadcasts h ++ [peers]).

Inductive HiveConnectionEvent :=
| InboundDone (validated : list Peer)
| OutboundDone
| ListenError (e : ProtocolStreamError)
| DialError (e : ProtocolStreamError).

Definition on_hive_connection_event (now : Z) (ev : HiveConnectionEvent) h : HiveHandler :=
  match ev with
  | InboundDone validated =>
      let '(accepted, c) := try_accept_inbound now (vh_core h) in
      mkHiveHandler (if accepted then push_event (HandlerPeers validated) c else c) (vh_pending_broadcasts h)
  | OutboundDone => mkHiveHandler (set_outbound_pending false (vh_core h)) (vh_pending_broadcasts h)
  | ListenError e => mkHiveHandler (push_event (HandlerError e) (vh_core h)) (vh_pending_broadcasts h)
  | DialError e => mkHiveHandler (push_event (HandlerError e) (set_outbound_pending false (vh_core h))) (vh_pending_broadcasts h)
  end.

(** ** The two ends in the topology *)

Abbreviation Conns := (PeerRegistry (R:=option DialReason)).

(** [broadcast_peers]: the batches handed to the behaviour. *)
Definition broadcast_peers (to : Z) (peers : list Peer) (r : Conns) b : HiveBehaviour :=
  match get to r with
  | None => b
  | Some st => foldl (λ b chunk, broadcast (st_peer st) (st_conn st) chunk b) b (chunks MAX_BATCH_SIZE peers)
  end.

Context {V4Net V6Net : Type} (v4_contains : V4Net → Z → bool) (v6_contains : V6Net → Z → bool).

Definition record_dialable (d : DialCapability) (sn : LocalSubnets (V4Net:=V4Net) (V6Net:=V6Net)) peer : bool :=
  if is_known (dc_ip d) then can_dial_any v4_contains v6_contains d (sp_multiaddrs peer) sn
  else existsb (stack_can_dial (dc_transport d)) (sp_multiaddrs peer).

(** [on_hive_peers_received]: the gossiper and records handed to the gossip task,
    and whether the connection is closed. *)
Definition on_hive_peers_received (d : DialCapability) sn (peer_id : Z) (peers : list Peer) (r : Conns) :
    option (Z * list Peer) * bool :=
  match filter (λ peer, record_dialable d sn peer = true) peers with
  | [] => (None, false)
  | peers =>
      let gossiper := default 0 (resolve_id peer_id r) in
      (Some (gossiper, peers), bool_decide ((get gossiper r ≫= st_reason) = Some ForBootnode))
  end.

(** ** Validation is independent of the cache *)

(** A record judged without the cache. *)
Definition cold (network : Z) local p : result ValidationFailure Peer :=
  signature ← precheck local p; verify_record network signature p.

(** What an accepted record is known to be. *)
Record attested (network : Z) local p peer : Prop := {
  at_verified : ∃ bytes, verified network bytes peer;
  at_overlay : sp_overlay peer = pp_overlay p;
  at_signature : sig_from (pp_signature p) = Some (sp_signature peer);
  at_other : sp_overlay peer ≠ local;
  at_peer_ids : Forall (λ a, is_Some (extract_peer_id a)) (sp_multiaddrs peer);
}.

(** An outcome for [p], when [all] records were sent: a failure is that of [p]
    itself, and a success what a record with its overlay and signature gives. *)
Definition answers (network : Z) local (all : list ProtoPeer) p (r : result ValidationFailure Peer) : Prop :=
  match r with
  | Ok peer => attested network local p peer ∧
      ∃ q, q ∈ all ∧ pp_overlay q = pp_overlay p ∧ sig_from (pp_signature q) = sig_from (pp_signature p) ∧ cold network local q = Ok peer
  | Err e => cold network local p = Err e
  end.

Lemma precheck_ok local p signature : precheck local p = Ok signature →
  pp_overlay p ≠ local ∧ sig_from (pp_signature p) = Some signature.
Proof.
  unfold precheck. case_decide; [done|]. case_decide; [done|]. destruct (sig_from _); [|done]. cbn. by intros [= ->].
Qed.

Lemma verify_record_ok network signature p peer : verify_record network signature p = Ok peer →
  (∃ bytes, verified network bytes peer) ∧ sp_overlay peer = pp_overlay p ∧ sp_signature peer = signature ∧
  Forall (λ a, is_Some (extract_peer_id a)) (sp_multiaddrs peer).
Proof.
  unfold verify_record. case_decide; [done|]. destruct (parse _ _ _) as [x|e] eqn:E; [|done]. cbn.
  destruct (forallb _ _) eqn:Ef; [|done]. intros [= ->]. apply parse_verified in E as (Hv & Es & Eo & _). cbn in *.
  split_and!; [eauto|done|done|]. apply Forall_forall. intros a Ha. rewrite forallb_forall in Ef.
  specialize (Ef a). rewrite bool_decide_eq_true in Ef. apply Ef. by apply list_elem_of_In.
Qed.

Lemma cold_ok network local p peer : cold network local p = Ok peer →
  precheck local p = Ok (sp_signature peer) ∧ attested network local p peer.
Proof.
  unfold cold. destruct (precheck local p) as [sig|e] eqn:E; [|done]. cbn. intros Hv.
  apply precheck_ok in E as [Hl Hs]. apply verify_record_ok in Hv as (H1 & H2 & <- & H4).
  split; [done|]. split; rewrite ?H2; done.
Qed.

(** Every cached record is the verdict on a record that was sent. *)
Definition cached_from (network : Z) local (all : list ProtoPeer) pc : Prop :=
  ∀ i c o peer, pc !! i = Some c → (o, peer) ∈ rc_list c → ∃ q, q ∈ all ∧ pp_overlay q = o ∧ cold network local q = Ok peer.

Lemma cached_from_start network local all : cached_from network local all peer_cache_default.
Proof.
  intros i c o peer [-> _]%lookup_replicate. rewrite rc_new_list. by intros ?%not_elem_of_nil.
Qed.

Lemma cached_from_more network local all all' pc : all ⊆ all' → cached_from network local all pc → cached_from network local all' pc.
Proof. intros Ha H i c o peer Hi Hin. destruct (H i c o peer Hi Hin) as (q & ? & ?). exists q. set_solver. Qed.

Lemma assoc_elem o (l : list (list Z * Peer)) peer : assoc o l = Some peer → (o, peer) ∈ l.
Proof. apply elem_of_list_to_map_2. Qed.

Lemma cache_get_from network local all o signature pc : cached_from network local all pc →
  cached_from network local all (cache_get o signature pc).2 ∧
  ∀ peer, (cache_get o signature pc).1 = Some peer →
    sp_signature peer = signature ∧ ∃ q, q ∈ all ∧ pp_overlay q = o ∧ cold network local q = Ok peer.
Proof.
  intros H. unfold cache_get. destruct (pc !! shard o) as [c|] eqn:Ec; [|done].
  pose proof (rc_get_value o c) as Hv. pose proof (rc_get_list o c) as Hl. destruct (rc_get o c) as [v c']. cbn in Hv, Hl |- *.
  pose proof (assoc_elem o (rc_list c)) as Hin.
  split.
  - intros i d o' peer [(<- & <- & _)|[Hne Hi]]%list_lookup_insert_Some; [|exact (H _ _ _ _ Hi)].
    rewrite Hl. intros Hx. apply (H _ c o' peer Ec). destruct (assoc o (rc_list c)) as [x|]; [|done].
    apply elem_of_app in Hx as [Hx|Hx]; [by apply list_elem_of_filter in Hx as [_ ?]|].
    apply list_elem_of_singleton in Hx as [= -> ->]. by apply Hin.
  - intros peer. rewrite Hv. destruct (assoc o (rc_list c)) as [x|]; [|done]. case_decide as Es; [|done]. intros [= <-].
    split; [done|]. by apply (H _ c o x Ec), Hin.
Qed.

Lemma cache_insert_from network local all p peer pc : p ∈ all → cold network local p = Ok peer →
  cached_from network local all pc → cached_from network local all (cache_insert (pp_overlay p) peer pc).
Proof.
  intros Hp Hc H. unfold cache_insert. destruct (pc !! shard (pp_overlay p)) as [c|] eqn:Ec; [|done].
  intros i d o' x [(<- & <- & _)|[Hne Hi]]%list_lookup_insert_Some; [|exact (H _ _ _ _ Hi)].
  rewrite rc_insert_list. cbv zeta. intros [j Hx]%list_elem_of_lookup. rewrite lookup_drop in Hx. apply list_elem_of_lookup_2 in Hx.
  apply elem_of_app in Hx as [Hx|Hx]; [apply list_elem_of_filter in Hx as [_ Hx]; by apply (H _ c o' x Ec)|].
  apply list_elem_of_singleton in Hx as [= -> ->]. eauto.
Qed.

(** The shards keep their number and capacity. *)
Definition shards_ok pc : Prop :=
  length pc = Z.to_nat SHARD_COUNT ∧
  Forall (λ c, rc_capacity c = PEER_CACHE_CAPACITY / SHARD_COUNT ∧ (length (rc_list c) <= Z.to_nat (PEER_CACHE_CAPACITY / SHARD_COUNT))%nat) pc.

Lemma shards_ok_start : shards_ok peer_cache_default.
Proof.
  split; [apply length_replicate|]. apply Forall_replicate. rewrite rc_new_list, rc_new_capacity. split; [done|simpl; lia].
Qed.

Lemma cache_get_shards o signature pc : shards_ok pc → shards_ok (cache_get o signature pc).2.
Proof.
  intros [Hl Hf]. unfold cache_get. destruct (pc !! shard o) as [c|] eqn:Ec; [|done].
  pose proof (rc_get_list o c) as El. pose proof (rc_get_capacity o c) as Ecap. destruct (rc_get o c) as [v c']. cbn in *.
  split; [by rewrite length_insert|]. apply Forall_insert; [done|]. eapply Forall_lookup_1 in Hf as [Hc Hn]; [|done].
  rewrite Ecap, El. split; [done|]. destruct (assoc o (rc_list c)) as [x|] eqn:Ea; [|done].
  apply assoc_elem in Ea. rewrite length_app. cbn.
  pose proof (length_filter_lt (λ y : list Z * Peer, y.1 ≠ o) (rc_list c) (o, x) Ea) as Hlt. unfold without. cbn in Hlt. specialize (Hlt ltac:(naive_solver)). lia.
Qed.

Lemma cache_insert_shards o peer pc : shards_ok pc → shards_ok (cache_insert o peer pc).
Proof.
  intros [Hl Hf]. unfold cache_insert. destruct (pc !! shard o) as [c|] eqn:Ec; [|done].
  split; [by rewrite length_insert|]. apply Forall_insert; [done|]. eapply Forall_lookup_1 in Hf as [Hc Hn]; [|done].
  rewrite rc_insert_capacity, rc_insert_list. split; [done|]. cbv zeta. rewrite length_drop, Hc. lia.
Qed.

Lemma shards_total pc : shards_ok pc → Z.of_nat (sum_list_with (λ c, length (rc_list c)) pc) <= PEER_CACHE_CAPACITY.
Proof.
  intros [Hl Hf]. assert (sum_list_with (λ c, length (rc_list c)) pc <= length pc * Z.to_nat (PEER_CACHE_CAPACITY / SHARD_COUNT))%nat as H.
  { clear Hl. induction Hf as [|c pc [_ Hc] _ IH]; cbn; lia. }
  rewrite Hl in H. change (Z.to_nat SHARD_COUNT) with 8%nat in H. change (Z.to_nat (PEER_CACHE_CAPACITY / SHARD_COUNT)) with 32%nat in H.
  change PEER_CACHE_CAPACITY with 256. lia.
Qed.

Definition cache_inv (network : Z) local (all : list ProtoPeer) pc : Prop := cached_from network local all pc ∧ shards_ok pc.

(** The lookup of a record, and what it may answer. *)
Lemma lookup_answers network local all p signature pc : precheck local p = Ok signature → cache_inv network local all pc →
  cache_inv network local all (cache_get (pp_overlay p) signature pc).2 ∧
  ∀ peer, (cache_get (pp_overlay p) signature pc).1 = Some peer → answers network local all p (Ok peer).
Proof.
  intros [Hl Hs]%precheck_ok [Hc Hsh]. destruct (cache_get_from network local all (pp_overlay p) signature pc Hc) as [H1 H2].
  split; [split; [done|by apply cache_get_shards]|]. intros peer (Hsig & q & Hq & Ho & Hv)%H2. subst signature.
  destruct (cold_ok _ _ _ _ Hv) as [Hpre [A1 A2 A3 A4 A5]]. split; [split; congruence || done|]. exists q. split_and!; [done|done|congruence|done].
Qed.

Lemma cold_answers network local all p peer : p ∈ all → cold network local p = Ok peer → answers network local all p (Ok peer).
Proof. intros Hp Hc. split; [by apply cold_ok|]. by exists p. Qed.

Lemma validate_answers network local all p pc : p ∈ all → cache_inv network local all pc →
  answers network local all p (validate_proto_peer network local p pc).1 ∧
  cache_inv network local all (validate_proto_peer network local p pc).2.
Proof.
  intros Hp Hc. unfold validate_proto_peer. destruct (precheck local p) as [sig|e] eqn:Ep; [|by split; [cbn; unfold cold; rewrite Ep|]].
  destruct (lookup_answers network local all p sig pc Ep Hc) as [H1 H2]. destruct (cache_get _ _ _) as [hit pc']. cbn in H1, H2.
  destruct hit as [cached|]; [by split; [apply H2|]|].
  assert (Ecold : cold network local p = verify_record network sig p) by (unfold cold; by rewrite Ep).
  destruct (verify_record _ _ _) as [peer|e]; [|done]. cbn. split; [by apply cold_answers|]. destruct H1.
  split; [by apply cache_insert_from|by apply cache_insert_shards].
Qed.

Lemma validate_all_answers network local all raw pc : raw ⊆ all → cache_inv network local all pc →
  Forall2 (answers network local all) raw (validate_all network local raw pc).1 ∧
  cache_inv network local all (validate_all network local raw pc).2.
Proof.
  revert pc. induction raw as [|p raw IH]; intros pc Hs Hc; [by split; [constructor|]|]. cbn.
  destruct (validate_answers network local all p pc) as [H1 H2]; [set_solver|done|].
  destruct (validate_proto_peer _ _ _ _) as [r pc']. destruct (IH pc') as [H3 H4]; [set_solver|done|].
  destruct (validate_all _ _ _ _) as [rs pc'']. split; [by constructor|done].
Qed.

(** ** Concurrent validation *)

(** A task has answered a prefix of its batch. *)
Definition worker_ok (network : Z) local (all : list ProtoPeer) (raw : list ProtoPeer) (w : Worker) : Prop :=
  ∃ before, Forall2 (answers network local all) before (wk_out w) ∧
  match wk_store w with
  | None => raw = before ++ wk_todo w
  | Some (o, peer) => ∃ p, raw = before ++ p :: wk_todo w ∧ o = pp_overlay p ∧ cold network local p = Ok peer
  end.

(** The accesses a task still needs at most. *)
Definition work_left (w : Worker) : nat := 2 * length (wk_todo w) + match wk_store w with Some _ => 1 | None => 0 end.

Lemma worker_step_ok network local all raw w pc : raw ⊆ all → worker_ok network local all raw w → cache_inv network local all pc →
  worker_ok network local all raw (worker_step network local w pc).1 ∧ cache_inv network local all (worker_step network local w pc).2 ∧
  (work_left (worker_step network local w pc).1 <= work_left w - 1)%nat.
Proof.
  intros Hs (before & Hf & Hw) Hc. unfold worker_step. destruct w as [todo store out]. cbn in *.
  assert (Hans : ∀ p t r, raw = before ++ p :: t → answers network local all p r → worker_ok network local all raw (mkWorker t None (out ++ [r]))).
  { intros p t r -> Hr. exists (before ++ [p]). cbn. split; [apply Forall2_app; [done|by repeat constructor]|by rewrite <-app_assoc]. }
  destruct store as [[o peer]|].
  - destruct Hw as (p & Er & -> & Hp). assert (p ∈ all) by (subst raw; set_solver). destruct Hc.
    split_and!; [by eapply Hans, cold_answers|by split; [apply cache_insert_from|apply cache_insert_shards]|unfold work_left; cbn; lia].
  - destruct todo as [|p todo]; [split_and!; [by exists before|done|unfold work_left; cbn; lia]|].
    destruct (precheck local p) as [sig|e] eqn:Ep.
    2: { split_and!; [|done|unfold work_left; cbn; lia]. eapply Hans; [done|]. cbn. unfold cold. by rewrite Ep. }
    destruct (lookup_answers network local all p sig pc Ep Hc) as [H1 H2]. destruct (cache_get _ _ _) as [hit pc']. cbn in H1, H2.
    destruct hit as [cached|]; [split_and!; [by eapply Hans, H2|done|unfold work_left; cbn; lia]|].
    assert (Ecold : cold network local p = verify_record network sig p) by (unfold cold; by rewrite Ep).
    destruct (verify_record _ _ _) as [peer|e]; split_and!; try done; try (unfold work_left; cbn; lia); [|by eapply Hans].
    exists before. cbn. split; [done|]. by exists p.
Qed.

Definition turns (k : nat) (schedule : list nat) : nat := length (filter (λ j, j = k) schedule).

Record pool_inv (network : Z) local (batches : list (list ProtoPeer)) (schedule : list nat) (x : list Worker * PeerCache) : Prop := {
  pi_cache : cache_inv network local (concat batches) x.2;
  pi_workers : Forall2 (worker_ok network local (concat batches)) batches x.1;
  pi_left : ∀ k raw w, batches !! k = Some raw → x.1 !! k = Some w → (work_left w <= 2 * length raw - turns k schedule)%nat;
}.

Lemma pool_run_inv network local batches schedule :
  pool_inv network local batches schedule (run (pool_step network local) (pool_start batches peer_cache_default) schedule).
Proof.
  induction schedule as [|k schedule IH] using rev_ind.
  - split; cbn.
    + split; [apply cached_from_start|apply shards_ok_start].
    + apply Forall2_fmap_r, Forall_Forall2_diag, Forall_forall. intros raw _. by exists [].
    + intros k raw w Hk. rewrite list_lookup_fmap, Hk. intros [= <-]. unfold work_left. cbn. lia.
  - rewrite run_app. destruct (run _ _ schedule) as [ws pc]. destruct IH as [Hc Hw Hl]. cbn in *. unfold pool_step. cbn [fst snd].
    assert (Hturn : ∀ j, turns j (schedule ++ [k]) = (turns j schedule + if decide (k = j) then 1 else 0)%nat).
    { intros j. unfold turns. rewrite filter_app, length_app. f_equal. rewrite filter_cons. by case_decide. }
    destruct (ws !! k) as [w|] eqn:Ek.
    2: { split; [done..|]. intros j raw w Hj Hk. cbn in Hk. rewrite Hturn, decide_False by congruence. rewrite Nat.add_0_r. by eapply Hl. }
    destruct (Forall2_lookup_r _ _ _ _ _ Hw Ek) as (raw & Eb & Hok).
    destruct (worker_step_ok network local (concat batches) raw w pc) as (H1 & H2 & H3); [|done..|].
    { intros p Hp. apply list_elem_of_In, in_concat. exists raw. rewrite <- !list_elem_of_In. split; [by apply list_elem_of_lookup_2 in Eb|done]. }
    destruct (worker_step _ _ _ _) as [w' pc']. cbn in *. split; cbn; [done| |].
    + pose proof (Forall2_insert _ _ _ _ _ k Hw H1) as Hx. by rewrite (list_insert_id batches k raw Eb) in Hx.
    + intros j raw' v Hj [(<- & <- & _)|[Hne Hv]]%list_lookup_insert_Some; rewrite Hturn.
      * rewrite decide_True by done. simplify_eq. specialize (Hl _ _ _ Eb Ek). lia.
      * rewrite decide_False by done. specialize (Hl _ _ _ Hj Hv). lia.
Qed.

(** C18: the cache changes how much work validation takes and never what is
    accepted.  However the validation tasks of any batches interleave on the
    shared cache, each answers its records in order; a refusal is the verdict on
    the record itself; an accepted record is correctly signed, has the overlay and
    signature that were sent, is not the node's own, names a peer in every address,
    and is the verdict on some record sent with that overlay and signature.  A task
    that had two accesses for each of its records has answered all of them, and the
    cache never exceeds its capacity. *)
Theorem hive_validation network local batches schedule :
  let '(ws, pc) := run (pool_step network local) (pool_start batches peer_cache_default) schedule in
  Forall2 (λ raw w, Forall2 (answers network local (concat batches)) (take (length (wk_out w)) raw) (wk_out w)) batches ws ∧
  (∀ k raw, batches !! k = Some raw → (2 * length raw <= turns k schedule)%nat →
     ∃ w, ws !! k = Some w ∧ Forall2 (answers network local (concat batches)) raw (wk_out w)) ∧
  Z.of_nat (sum_list_with (λ c, length (rc_list c)) pc) <= PEER_CACHE_CAPACITY.
Proof.
  pose proof (pool_run_inv network local batches schedule) as [Hc Hw Hl]. destruct (run _ _ _) as [ws pc]. cbn in *. split_and!.
  - eapply Forall2_impl; [exact Hw|]. intros raw w (before & Hf & Hs). pose proof (Forall2_length _ _ _ Hf) as Hlen.
    destruct (wk_store w) as [[o peer]|]; [destruct Hs as (p & -> & _)|rewrite Hs]; by rewrite take_app_le, take_ge by lia.
  - intros k raw Hk Ht. destruct (Forall2_lookup_l _ _ _ _ _ Hw Hk) as (w & Ew & before & Hf & Hs). exists w. split; [done|].
    specialize (Hl _ _ _ Hk Ew). unfold work_left in Hl. destruct (wk_store w) as [[o peer]|]; [lia|].
    destruct (wk_todo w); [|cbn in Hl; lia]. rewrite app_nil_r in Hs. by subst.
  - apply shards_total, Hc.
Qed.

(** A task that runs alone computes [validate_all]. *)
Lemma worker_alone network local raw out pc : ∃ n, (n <= 2 * length raw)%nat ∧
  Nat.iter n (λ x, worker_step network local x.1 x.2) (mkWorker raw None out, pc) =
  (mkWorker [] None (out ++ (validate_all network local raw pc).1), (validate_all network local raw pc).2).
Proof.
  revert out pc. induction raw as [|p raw IH]; intros out pc; [exists 0%nat; cbn; by rewrite app_nil_r|]. cbn [validate_all].
  assert (Hone : ∃ n, (n <= 2)%nat ∧ Nat.iter n (λ x, worker_step network local x.1 x.2) (mkWorker (p :: raw) None out, pc) =
    (mkWorker raw None (out ++ [(validate_proto_peer network local p pc).1]), (validate_proto_peer network local p pc).2)).
  { unfold validate_proto_peer. destruct (precheck local p) as [sig|e] eqn:Ep; [|exists 1%nat; cbn; rewrite Ep; split; [lia|done]].
    destruct (cache_get _ _ _) as [[cached|] pc'] eqn:Eg; [exists 1%nat; cbn; rewrite Ep, Eg; split; [lia|done]|].
    destruct (verify_record _ _ _) as [peer|e] eqn:Ev; [exists 2%nat|exists 1%nat]; cbn; rewrite Ep, Eg, Ev; split; (lia || done). }
  destruct Hone as (n & Hn & E1). destruct (validate_proto_peer _ _ _ _) as [r pc']. cbn in E1.
  destruct (IH (out ++ [r]) pc') as (m & Hm & E2). exists (m + n)%nat. split; [cbn; lia|]. rewrite Nat.iter_add, E1, E2.
  destruct (validate_all _ _ _ _) as [rs pc'']. cbn. by rewrite <-app_assoc.
Qed.

(** ** What a peer can make the node validate *)

Inductive HiveOp := HiveRead (remote : Z) (raw : list ProtoPeer) | HiveClosed (peer_id remaining : Z).

Definition hive_step b (o : Z * HiveOp) : HiveBehaviour :=
  match o.2 with
  | HiveRead remote raw => (read o.1 remote raw b).2
  | HiveClosed peer_id remaining => hive_closed peer_id remaining b
  end.

(** Records of [k] that are validated. *)
Definition validated (k : Z) (o : Z * HiveOp) b : Z :=
  match o.2, hv_policy b with
  | HiveRead remote raw, Forward =>
      if decide (remote = k) then if (charge o.1 k raw (hv_limit b)).1 then Z.of_nat (length raw) else 0 else 0
  | _, _ => 0
  end.

Fixpoint validated_run (k : Z) (ops : list (Z * HiveOp)) b : Z :=
  match ops with [] => 0 | o :: ops => validated k o b + validated_run k ops (hive_step b o) end.

Definition stays (k : Z) (op : HiveOp) : Prop := match op with HiveClosed peer remaining => peer ≠ k ∨ remaining ≠ 0 | _ => True end.

Abbreviation hive_cell := (from_quota HIVE_INBOUND_QUOTA).

Lemma hive_cell_eq : hive_cell = mkCell 60000000000 468750000.
Proof. reflexivity. Qed.

Definition bucket_ok (k : Z) (l : KeyedRateLimiter (K:=Z)) : Prop := kl_cell l = hive_cell ∧ default_bucket k l.

Lemma read_limit now remote raw b : hv_limit (read now remote raw b).2 = (charge now remote raw (hv_limit b)).2.
Proof.
  unfold read. destruct (charge _ _ _ _) as [[] l]; cbn; [|done]. destruct (hv_policy b); [|done].
  unfold validate_batch. by destruct (validate_all _ _ _ _).
Qed.

Lemma consume_fits k l now n u : bucket_ok k l → 0 <= n → (try_consume_n k n now l).1 = Ok u → n <= 128.
Proof.
  intros [Hcell [Hd _]] Hn. unfold try_consume_n. rewrite Hd, Hcell, hive_cell_eq. unfold check. cbn [t_nanos tau_nanos].
  case_decide as Hle; [done|]. intros _. revert Hle. mach. lia.
Qed.

Lemma charge_step k now remote raw l : 0 <= now → now + tau_nanos hive_cell < u64_max → bucket_ok k l →
  bucket_ok k (charge now remote raw l).2 ∧
  let n := if decide (remote = k) then if (charge now k raw l).1 then Z.of_nat (length raw) else 0 else 0 in
  Z.max now (ks_tat (key_state k (charge now remote raw l).2)) = Z.max now (ks_tat (key_state k l)) + t_nanos hive_cell * n ∧
  (n = 0 ∨ ks_tat (key_state k (charge now remote raw l).2) <= now + tau_nanos hive_cell).
Proof.
  intros H0 Hb [Hcell Hd]. destruct raw as [|p raw]; [split; [done|]; cbn; case_decide; split; (lia || by left)|].
  set (cost := Z.min (Z.of_nat (length (p :: raw))) u32_max).
  assert (E : ∀ r, charge now r (p :: raw) l =
    (match (try_consume_n r cost now l).1 with Ok _ => true | Err _ => false end, (try_consume_n r cost now l).2)).
  { intros r. unfold charge. fold cost. by destruct (try_consume_n r cost now l). }
  rewrite !E. cbn [fst snd]. destruct (granted_step k now (Consume remote cost) l) as (H1 & H2 & H3 & H4); rewrite ?Hcell; try done.
  { subst cost. cbn. mach. lia. }
  rewrite Hcell in H1, H3, H4. cbn [keyed_step] in *. split; [done|].
  assert (Hn : (if decide (remote = k) then if match (try_consume_n k cost now l).1 with Ok _ => true | Err _ => false end
    then Z.of_nat (length (p :: raw)) else 0 else 0) = granted k now (Consume remote cost) l).
  { cbn [granted]. case_decide as Ek; [|done]. destruct (try_consume_n k cost now l).1 as [u|] eqn:Ec; [|done].
    apply consume_fits in Ec; [|done|]; subst cost; mach; lia. }
  rewrite Hn. done.
Qed.

Lemma clear_other k k' (l : KeyedRateLimiter (K:=Z)) : k' ≠ k → key_state k (kl_clear k' l) = key_state k l.
Proof. intros Hk. unfold key_state. cbn. by rewrite lookup_delete_ne. Qed.

Lemma hive_step_bucket k (o : Z * HiveOp) b : 0 <= o.1 → o.1 + tau_nanos hive_cell < u64_max → bucket_ok k (hv_limit b) →
  bucket_ok k (hv_limit (hive_step b o)).
Proof.
  intros H0 Hb Hk. destruct o as [now [remote raw|peer remaining]]; unfold hive_step; cbn [fst snd] in *.
  - rewrite read_limit. by apply charge_step.
  - unfold hive_closed. case_decide; [|done]. cbn. destruct Hk as [Hc Hd]. split; [done|]. unfold default_bucket in *.
    destruct (decide (peer = k)) as [->|]; [|by rewrite clear_other]. unfold key_state. cbn. by rewrite lookup_delete_eq.
Qed.

(** What a step validates moves the arrival time of the peer's bucket. *)
Lemma hive_step_paid k (o : Z * HiveOp) b : 0 <= o.1 → o.1 + tau_nanos hive_cell < u64_max → stays k o.2 → bucket_ok k (hv_limit b) →
  Z.max o.1 (ks_tat (key_state k (hv_limit b))) + t_nanos hive_cell * validated k o b
    <= Z.max o.1 (ks_tat (key_state k (hv_limit (hive_step b o)))) ∧
  (validated k o b = 0 ∨ ks_tat (key_state k (hv_limit (hive_step b o))) <= o.1 + tau_nanos hive_cell).
Proof.
  intros H0 Hb Hs Hk. destruct o as [now [remote raw|peer remaining]]; unfold hive_step, validated; cbn [fst snd] in *.
  - rewrite read_limit. destruct (charge_step k now remote raw (hv_limit b) H0 Hb Hk) as (_ & H1 & H2). cbv zeta in H1, H2.
    destruct (hv_policy b); [split; [lia|done]|]. split; [|by left]. rewrite H1. rewrite Z.mul_0_r, Z.add_0_r.
    assert (0 <= t_nanos hive_cell) by done. repeat case_match; lia.
  - split; [|by left]. unfold hive_closed. case_decide; [|lia]. cbn. rewrite clear_other by naive_solver. lia.
Qed.

Lemma hive_run_paid k ops : ∀ b t0 t1,
  clock_ok t0 t1 ops → 0 <= t0 → t1 + tau_nanos hive_cell < u64_max → Forall (λ x, stays k x.2) ops → bucket_ok k (hv_limit b) →
  validated_run k ops b = 0 ∨
  t_nanos hive_cell * validated_run k ops b <= t1 + tau_nanos hive_cell - Z.max t0 (ks_tat (key_state k (hv_limit b))).
Proof.
  induction ops as [|[now op] ops IH]; intros b t0 t1 Hc H0 Hb Hs Hk; [by left|]. cbn [validated_run].
  destruct Hc as [H1 Hc]. pose proof (clock_le _ _ _ Hc). apply Forall_cons in Hs as [Hs Hss]. cbn in Hs.
  assert (0 <= tau_nanos hive_cell) by done. destruct (hive_step_paid k (now, op) b) as [Hp Hg]; cbn [fst snd] in *; [lia|lia|done..|].
  destruct (IH (hive_step b (now, op)) now t1) as [E|E]; [done|lia|done..| | |].
  - apply hive_step_bucket; cbn [fst snd]; [lia|lia|done].
  - rewrite E, Z.add_0_r. destruct Hg as [->|Hg]; [by left|right; lia].
  - right. lia.
Qed.

Lemma hive_reachable_bucket network local policy k ops : ∀ t0 t1, clock_ok t0 t1 ops → 0 <= t0 → t1 + tau_nanos hive_cell < u64_max →
  bucket_ok k (hv_limit (run hive_step (with_peer_handler network local policy) ops)).
Proof.
  intros t0 t1 Hc H0 Hb. assert (Hi : bucket_ok k (hv_limit (with_peer_handler network local policy))) by done.
  revert t0 Hc H0 Hi. generalize (with_peer_handler network local policy). induction ops as [|o ops IH]; intros b t0 Hc H0 Hi; [done|].
  destruct o as [now op]. destruct Hc as [H1 Hc]. pose proof (clock_le _ _ _ Hc). cbn. apply (IH _ now); [done|lia|].
  apply hive_step_bucket; cbn [fst snd]; [lia|lia|done].
Qed.


(** A peer that closes its only connection between batches has a full bucket for
    each of them, at one instant. *)
Theorem churn_unbounded network local k raw now n :
  length raw = 128%nat → 0 <= now → now + 60000000000 < u64_max →
  validated_run k (concat (replicate n [(now, HiveRead k raw); (now, HiveClosed k 0)])) (with_peer_handler network local Forward)
    = 128 * Z.of_nat n.
Proof.
  intros Hl H0 Hb. assert (Hc : kl_cell (hv_limit (with_peer_handler network local Forward)) = hive_cell ∧
    kl_state (hv_limit (with_peer_handler network local Forward)) !! k = None ∧ hv_policy (with_peer_handler network local Forward) = Forward) by done.
  revert Hc. generalize (with_peer_handler network local Forward).
  induction n as [|n IH]; intros b (Hcell & Hno & Hpol); [done|]. cbn [replicate concat app validated_run].
  assert (Hcharge : (charge now k raw (hv_limit b)).1 = true ∧ kl_cell (charge now k raw (hv_limit b)).2 = hive_cell).
  { unfold charge. destruct raw as [|p raw]; [done|]. rewrite Hl. unfold try_consume_n, key_state. rewrite Hno. cbn. rewrite Hcell.
    unfold check. rewrite hive_cell_eq. cbn [t_nanos tau_nanos]. rewrite !decide_False by (mach; lia). done. }
  destruct Hcharge as [Hg Hcell']. unfold validated at 1. cbn [fst snd]. rewrite Hpol, decide_True, Hg, Hl by done.
  change (validated k (now, HiveClosed k 0) _) with 0. rewrite IH; [lia|]. unfold hive_step. cbn [fst snd]. unfold hive_closed. rewrite decide_True by done.
  cbn. rewrite read_limit. split_and!; [done|by rewrite lookup_delete_eq|].
  unfold read. destruct (charge _ _ _ _) as [[] l]; cbn; [|done]. rewrite Hpol. unfold validate_batch. by destruct (validate_all _ _ _ _).
Qed.

(** ** A broadcast from end to end *)

Context {RL : RecordLaws Key Signature RE}.

Definition deliverable (network : Z) local peer : Prop :=
  portable network peer ∧ sp_overlay peer ≠ local ∧ Forall (λ a, is_Some (extract_peer_id a)) (sp_multiaddrs peer).

Lemma cold_deliverable network local peer : deliverable network local peer → cold network local (encode_swarm_peer peer) = Ok peer.
Proof.
  intros ([Hv Ho Hn] & Hl & Hp). unfold cold, precheck. cbn. rewrite decide_False by (intros H; by apply H). rewrite decide_False by done.
  rewrite sig_from_bytes. cbn. unfold verify_record. cbn. rewrite decide_False by (intros H; by apply H).
  change (mkWire _ _ _ _ _ _ _) with (to_wire peer). rewrite (verified_parse _ _ None Hv) by done. cbn.
  replace (forallb _ _) with true; [done|]. symmetry. apply forallb_forall. intros a Ha%list_elem_of_In.
  rewrite bool_decide_eq_true. by eapply Forall_forall in Hp.
Qed.

(** A batch of deliverable records is accepted whole. *)
Lemma batch_accepted network local all peers pc : Forall (deliverable network local) peers → encode_peers peers ⊆ all →
  cache_inv network local all pc →
  ∃ got n m pc', validate_batch network local (encode_peers peers) pc = (got, n, m, pc') ∧ cache_inv network local all pc' ∧
    Forall2 (λ sent peer, attested network local (encode_swarm_peer sent) peer) peers got.
Proof.
  intros Hd Ha Hc. destruct (validate_all_answers network local all (encode_peers peers) pc Ha Hc) as [Hf Hc'].
  unfold validate_batch. destruct (validate_all _ _ _ _) as [rs pc']. cbn in Hf, Hc'. do 4 eexists. split; [done|]. split; [done|].
  clear Hc Hc' Ha. revert rs Hf. induction peers as [|peer peers IH]; intros rs Hf; inversion Hf as [|? r ? rs' Hr Hrs]; subst; [constructor|].
  apply Forall_cons in Hd as [Hd Hds]. destruct r as [got|e]; cbn in Hr.
  - change (omap ok_value (Ok got :: rs')) with (got :: omap ok_value rs'). constructor; [apply Hr|by apply IH].
  - by rewrite cold_deliverable in Hr.
Qed.

(** A bucket that granted [c] of its tokens by [last] has room for [n] more. *)
Lemma check_room cell tat last now c n :
  0 <= t_nanos cell → 0 <= n → 0 <= now → 0 <= tat → last <= now → now + tau_nanos cell < u64_max →
  t_nanos cell * (c + n) <= tau_nanos cell → 0 <= c → tat <= last + t_nanos cell * c →
  ∃ tat', check cell tat now n = Ok tat' ∧ 0 <= tat' <= now + t_nanos cell * (c + n).
Proof.
  intros Ht Hn H0 Htat Hl Hb Hr Hc Hle. unfold check. assert (0 <= t_nanos cell * n) by nia. assert (0 <= t_nanos cell * c) by nia.
  mach. rewrite decide_False by lia. rewrite decide_False by lia. eexists. split; [done|]. lia.
Qed.

Definition commands b : list (list Peer) := omap (λ e, match e with NotifyHandler _ _ peers => Some peers | _ => None end) (hv_events b).

Definition received b : list Peer :=
  concat ((λ e, match e with GenerateEvent (PeersReceived _ _ peers) => peers | _ => [] end) <$> hv_events b).

(** The sender: a request, and its completion, while batches are waiting. *)
Fixpoint send_rounds (n : nat) h : list (list ProtoPeer) :=
  match n with
  | O => []
  | S n =>
      match hive_poll h with
      | (Some (HiveRequest m), h) => m :: send_rounds n (on_hive_connection_event 0 OutboundDone h)
      | _ => []
      end
  end.

(** The receiver: a message is read at one time, its stream is done at another. *)
Definition deliver (k conn : Z) (x : HiveBehaviour * HiveHandler) (m : Z * Z * list ProtoPeer) : HiveBehaviour * HiveHandler :=
  let '(peers, b) := read m.1.1 k m.2 x.1 in
  match hive_poll (on_hive_connection_event m.1.2 (InboundDone peers) x.2) with
  | (Some (HiveNotify ev), h) => (on_hive_handler_event k conn ev b, h)
  | (_, h) => (b, h)
  end.

Lemma chunks_concat {A} n (l : list A) : (0 < n)%nat →
  concat (chunks n l) = l ∧ Forall (λ c, c ≠ []) (chunks n l) ∧ (length (chunks n l) <= (length l + (n - 1)) / n)%nat.
Proof.
  intros Hn. unfold chunks. assert (H : ∀ fuel (l : list A), (length l <= fuel)%nat → concat (chunks_loop fuel n l) = l ∧
    Forall (λ c, c ≠ []) (chunks_loop fuel n l) ∧ (n * length (chunks_loop fuel n l) <= length l + (n - 1))%nat).
  { clear l. induction fuel as [|fuel IH]; intros [|a l] Hl; cbn in *; try (split_and!; [done|constructor|lia]); [lia|].
    destruct (IH (drop n (a :: l))) as (H1 & H2 & H3); [rewrite length_drop; cbn; lia|]. split_and!.
    - by rewrite H1, take_drop.
    - constructor; [|done]. destruct n; [lia|done].
    - rewrite length_drop in H3. cbn in H3 |- *. destruct (length (chunks_loop fuel n _)); [lia|nia]. }
  destruct (H (length l) l ltac:(lia)) as (H1 & H2 & H3). split_and!; [done|done|]. apply Nat.div_le_lower_bound; lia.
Qed.

Lemma broadcast_commands to peers (r : Conns) st b : get to r = Some st → hv_events b = [] →
  commands (broadcast_peers to peers r b) = chunks MAX_BATCH_SIZE peers.
Proof.
  intros Hg He. unfold broadcast_peers. rewrite Hg. destruct (chunks_concat MAX_BATCH_SIZE peers ltac:(unfold MAX_BATCH_SIZE; lia)) as (_ & Hne & _).
  assert (Hc : commands b = []) by (unfold commands; by rewrite He). change (chunks _ _) with ([] ++ chunks MAX_BATCH_SIZE peers) at 2.
  rewrite <- Hc. clear Hc He Hg. revert b. induction Hne as [|c cs Hc _ IH]; intros b; cbn; [by rewrite app_nil_r|].
  rewrite IH. destruct c as [|p c]; [done|]. unfold commands at 1. cbn. rewrite omap_app. cbn. by rewrite <- app_assoc.
Qed.

Lemma queued_commands cs c0 q : (length q + length cs <= MAX_PENDING_BROADCASTS)%nat →
  foldl (λ h c, on_broadcast_command c h) (mkHiveHandler c0 q) cs = mkHiveHandler c0 (q ++ cs).
Proof.
  revert q. induction cs as [|c cs IH]; intros q Hl; cbn in *; [by rewrite app_nil_r|]. unfold on_broadcast_command at 2. cbn.
  rewrite decide_False by lia. rewrite IH by (rewrite length_app; cbn; lia). by rewrite <- app_assoc.
Qed.

Lemma send_rounds_all cs l : send_rounds (length cs) (mkHiveHandler (mkCore [] l false) cs) = encode_peers <$> cs.
Proof. induction cs as [|c cs IH]; [done|]. cbn. f_equal. apply IH. Qed.

Abbreviation stream_cell := (from_quota INBOUND_SUBSTREAM_QUOTA).

(** A receiver that by the times [lr] and [ld] granted [k] [c] records and [j]
    streams. *)
Record receiving (network : Z) local (all : list ProtoPeer) (k lr c ld j : Z) b (l : RateLimiter) : Prop := {
  rv_env : hv_network b = network ∧ hv_local b = local ∧ hv_policy b = Forward;
  rv_cache : cache_inv network local all (hv_cache b);
  rv_cell : ks_cell (key_state k (hv_limit b)) = hive_cell;
  rv_tat : 0 <= ks_tat (key_state k (hv_limit b)) <= lr + t_nanos hive_cell * c;
  rv_streams : rl_cell l = stream_cell;
  rv_stream_tat : 0 <= rl_tat l <= ld + t_nanos stream_cell * j;
}.

Lemma deliver_one network local all k conn lr c ld j b l tr td peers :
  receiving network local all k lr c ld j b l → peers ≠ [] → Forall (deliverable network local) peers → encode_peers peers ⊆ all →
  0 <= c → c + Z.of_nat (length peers) <= 128 → 0 <= j → j + 1 <= 4 → 0 <= lr <= tr → 0 <= ld <= td →
  tr + 60000000000 < u64_max → td + 60000000000 < u64_max →
  ∃ b' l' got, deliver k conn (b, mkHiveHandler (mkCore [] l false) []) (tr, td, encode_peers peers) = (b', mkHiveHandler (mkCore [] l' false) []) ∧
    receiving network local all k tr (c + Z.of_nat (length peers)) td (j + 1) b' l' ∧ received b' = received b ++ got ∧
    Forall2 (λ sent peer, attested network local (encode_swarm_peer sent) peer) peers got.
Proof.
  intros [(E1 & E2 & E3) Hc Hcell Ht Hsc Hst] Hne Hd Ha Hc0 Hcn Hj0 Hjn Hlr Hld Hbr Hbd.
  assert (t_nanos hive_cell = 468750000 ∧ tau_nanos hive_cell = 60000000000) as [K1 K2] by done.
  assert (t_nanos stream_cell = 5000000000 ∧ tau_nanos stream_cell = 20000000000) as [S1 S2] by done.
  destruct (check_room hive_cell (ks_tat (key_state k (hv_limit b))) lr tr c (Z.of_nat (length peers))) as (tat & Ek & Hk); [lia..|].
  destruct (check_room stream_cell (rl_tat l) ld td j 1) as (tat2 & Ej & Hj); [lia..|].
  destruct (batch_accepted network local all peers (hv_cache b) Hd Ha Hc) as (got & n & m & pc' & Ev & Hc' & Hgot).
  assert (Hcharge : charge tr k (encode_peers peers) (hv_limit b) = (true, with_state k (mkKeyState tat hive_cell) (hv_limit b))).
  { unfold charge. destruct peers as [|p peers]; [done|]. unfold encode_peers. cbn [fmap list_fmap]. change (encode_swarm_peer p :: _) with (encode_swarm_peer <$> (p :: peers)).
    rewrite length_fmap. unfold try_consume_n. rewrite Hcell. rewrite Z.min_l by (mach; lia). by rewrite Ek. }
  assert (Hread : read tr k (encode_peers peers) b = (got, with_read pc' (with_state k (mkKeyState tat hive_cell) (hv_limit b)) b)).
  { unfold read. rewrite Hcharge, E3, E1, E2. cbn. by rewrite Ev. }
  assert (Hgne : got ≠ []) by (intros ->; by inversion Hgot; subst).
  unfold deliver. cbn [fst snd]. rewrite Hread. unfold on_hive_connection_event, try_accept_inbound, rl_try_consume_n. cbn [vh_core hc_rate_limiter].
  rewrite Hsc, Ej. cbn. destruct got as [|g got]; [done|]. do 3 eexists. split; [done|]. split; [|split; [|exact Hgot]].
  - split; cbn; [done|done|by rewrite key_state_with|by rewrite key_state_with|done|done].
  - unfold received. cbn. rewrite fmap_app, concat_app. cbn. by rewrite app_nil_r.
Qed.

Lemma deliver_all network local all k conn cs : ∀ times b l lr c ld j t1,
  receiving network local all k lr c ld j b l → Forall (λ x, x ≠ []) cs → Forall (deliverable network local) (concat cs) →
  encode_peers (concat cs) ⊆ all → 0 <= c → c + Z.of_nat (length (concat cs)) <= 128 → 0 <= j → j + Z.of_nat (length cs) <= 4 →
  length times = length cs → 0 <= lr → 0 <= ld → clock_ok lr t1 times → clock_ok ld t1 ((λ x, (x.2, tt)) <$> times) → t1 + 60000000000 < u64_max →
  ∃ got, received (foldl (deliver k conn) (b, mkHiveHandler (mkCore [] l false) []) (zip times (encode_peers <$> cs))).1 = received b ++ got ∧
    Forall2 (λ sent peer, attested network local (encode_swarm_peer sent) peer) (concat cs) got.
Proof.
  induction cs as [|x cs IH]; intros times b l lr c ld j t1 Hr Hne Hd Ha Hc Hcn Hj Hjn Hlen Hlr Hld H1 H2 Hb.
  - exists []. split; [|constructor]. destruct times; [cbn; by rewrite app_nil_r|done].
  - destruct times as [|[tr td] times]; [done|]. cbn in *. destruct H1 as [H1 H1'], H2 as [H2 H2'].
    pose proof (clock_le _ _ _ H1'). pose proof (clock_le _ _ _ H2'). apply Forall_cons in Hne as [Hx Hne]. apply Forall_app in Hd as [Hdx Hd].
    unfold encode_peers in Ha. rewrite fmap_app in Ha. rewrite length_app in Hcn.
    destruct (deliver_one network local all k conn lr c ld j b l tr td x) as (b' & l' & got & E & Hr' & Eg & Hg); try done; try lia; [set_solver|].
    rewrite E. destruct (IH times b' l' tr (c + Z.of_nat (length x)) td (j + 1) t1) as (got' & E' & Hg'); try done; try lia; [unfold encode_peers; set_solver|].
    exists (got ++ got'). rewrite E', Eg, <- app_assoc. split; [done|by apply Forall2_app].
Qed.

Lemma charge_cell now remote raw l : kl_cell (charge now remote raw l).2 = kl_cell l.
Proof. unfold charge. destruct raw; [done|]. unfold try_consume_n. by destruct (check _ _ _ _). Qed.

Lemma hive_reachable_cell network local policy ops :
  kl_cell (hv_limit (run hive_step (with_peer_handler network local policy) ops)) = hive_cell.
Proof.
  induction ops as [|[now op] ops IH] using rev_ind; [done|]. rewrite run_app. set (b := run _ _ ops) in *. cbn. unfold hive_step. cbn [fst snd].
  destruct op; [by rewrite read_limit, charge_cell|]. unfold hive_closed. by case_decide.
Qed.

Lemma hive_reachable_cache network local policy ops :
  let b := run hive_step (with_peer_handler network local policy) ops in
  (hv_network b = network ∧ hv_local b = local ∧ hv_policy b = policy) ∧ hv_events b = [] ∧ ∃ all, cache_inv network local all (hv_cache b).
Proof.
  induction ops as [|[now op] ops IH] using rev_ind; cbv zeta in *.
  { cbn. split_and!; try done. exists []. split; [apply cached_from_start|apply shards_ok_start]. }
  rewrite run_app. destruct IH as ((E1 & E2 & E3) & Ee & all & Hc). set (b := run _ _ ops) in *. cbn. unfold hive_step. cbn [fst snd].
  destruct op as [remote raw|peer remaining]; [|unfold hive_closed; case_decide; cbn; split_and!; eauto].
  unfold read. destruct (charge _ _ _ _) as [[] l]; cbn; [|split_and!; eauto]. rewrite E3. destruct policy; [|cbn; split_and!; eauto].
  unfold validate_batch. destruct (validate_all_answers (hv_network b) (hv_local b) (raw ++ all) raw (hv_cache b)) as [_ Hc'].
  { set_solver. }
  { rewrite E1, E2. destruct Hc as [Hc Hs]. split; [|done]. eapply cached_from_more; [|done]. set_solver. }
  destruct (validate_all _ _ _ _) as [rs pc']. cbn in *. rewrite E1, E2 in Hc'. split_and!; eauto.
Qed.


End hive.

(** ** A run *)

Module HiveDemo.
Import RecordDemo.

Abbreviation Rec := (SwarmPeer (Z * list Z)).
Abbreviation Cache := (ListCache (list Z) Rec).

Definition node (k : Z) : Identity Z := identity_new k (replicate 32 0) 10 Storer.
Definition addr (k : Z) : Multiaddr := [Ip4 (8 * 2 ^ 24 + k); Tcp 1634; P2p k].
Definition record (k : Z) : Rec :=
  match sign (node k) [addr k] 900 None with Ok r => r | Err _ => mkSwarmPeer _ [] (0, []) [] [] 0 None [] end.

Definition receiver : list Z := id_overlay me.

Lemma record_deliverable k : k ≠ 5 → deliverable 10 receiver (record k).
Proof.
  intros Hk. split_and!.
  - apply (sign_portable (node k) [addr k] 900); [done| |reflexivity]. intros a _. split; discriminate.
  - intros [= E]. done.
  - repeat constructor. by eexists.
Qed.

(** The same record with its addresses exchanged. *)
Definition tampered (k : Z) : ProtoPeer :=
  let p := encode_swarm_peer (record k) in
  mkProtoPeer (serialize_multiaddrs [addr 9]) (pp_signature p) (pp_overlay p) (pp_nonce p) (pp_timestamp p) (pp_chequebook p).

(** Two tasks race for one record; a tampered copy sent after it is answered with
    the authentic record. *)
Definition batches : list (list ProtoPeer) := [[encode_swarm_peer (record 1); tampered 1]; [encode_swarm_peer (record 1)]].
Definition schedule : list nat := [0; 1; 0; 1; 0; 0]%nat.

Lemma hive_validation_witness :
  let x := run (pool_step (C:=Cache) 10 receiver) (pool_start batches peer_cache_default) schedule in
  wk_out <$> x.1 = [[Ok (record 1); Ok (record 1)]; [Ok (record 1)]] ∧ cold 10 receiver (tampered 1) = Err (PeerValidation InvalidSignature) ∧
  Z.of_nat (sum_list_with (λ c, length (rc_list c)) x.2) <= PEER_CACHE_CAPACITY.
Proof.
  intros x. assert (wk_out <$> x.1 = [[Ok (record 1); Ok (record 1)]; [Ok (record 1)]]) as E by (vm_compute; reflexivity).
  assert (cold 10 receiver (tampered 1) = Err (PeerValidation InvalidSignature)) as E2 by (vm_compute; reflexivity).
  pose proof (hive_validation (C:=Cache) 10 receiver batches schedule) as H. fold x in H. destruct x as [ws pc].
  destruct H as (_ & _ & H3). split; [exact E|]. split; [exact E2|exact H3].
Defined.

Definition flood : list ProtoPeer := replicate 100 (tampered 1).


Definition registry : PeerRegistry (R:=option DialReason) := (activate None 60 2 6 0 (connected_inbound None 60 2 0 registry_new).2).2.
Abbreviation sender := (with_peer_handler (C:=Cache) 10 (replicate 32 4) Forward).
Abbreviation fresh := (with_peer_handler (C:=Cache) 10 receiver Forward).

(** The records a receiver hands on of a broadcast. *)
Definition arrived (peers : list Rec) (times : list (Z * Z)) : list Rec :=
  let batches := commands (broadcast_peers 6 peers registry sender) in
  received (foldl (deliver 50 1) (fresh, hive_handler_new)
    (zip times (send_rounds (length batches) (foldl (λ h c, on_broadcast_command c h) hive_handler_new batches)))).1.


(** Of a broadcast of five batches the last is dropped: the receiver takes four
    streams in a row, and no sender spaces its batches. *)
Example fifth_batch_dropped :
  length (arrived (record <$> seqZ 100 125) (replicate 5 (10, 20))) = 120%nat.
Proof. vm_compute. reflexivity. Qed.
End HiveDemo.
