(* ===== verification/Behaviour.v ===== *)
(** * The topology behaviour

    Models [swarm/topology/src/behaviour.rs] with the whole handlers of
    [connection_handlers.rs], [protocol_handlers.rs] and [dialing.rs]: the three
    components of [Connections] together with the peer manager, the candidate
    queues, the local addresses, the reachability of peers, the dial rate, the
    intents of local closes and the stream of lifecycle events the peer manager
    broadcasts.  Actions for the swarm and messages to the gossip task are lists in
    the order they are sent.

    A handler reads the clock once.  The peer manager is shared: other tasks may
    call it between any two handlers, and between the ban check of a handshake and
    the rest of its handler. *)

From Stdlib Require Import Floats.SpecFloat.
From S2P Require Import Prelude.
From S2P Require Import Bytes.
From S2P Require Import Primitives.
From S2P Require Import F64.
From S2P Require Import ProximityIndex.
From S2P Require Import Kademlia.
From S2P Require Import Dialer.
From S2P Require Import Registry.
From S2P Require Import Connections.
From S2P Require Import PeerScore.
From S2P Require Import PeerManager.
From S2P Require Import Candidates.
From S2P Require Import LocalNet.
From S2P Require Import GossipIntake.
From S2P Require Import RateLimiter.
From S2P Require Import Gossip.
From S2P Require Import PeerRecord.
From S2P Require Import Handshake.
From S2P Require Import Hive.

(** Readings of the monotonic clock, in nanoseconds and in the seconds the
    reachability tracker counts, and of the wall clock in seconds. *)
Record Clock := mkClock { ck_now : Z; ck_instant : Z; ck_secs : Z }.

Definition LIFECYCLE_CHANNEL_CAPACITY : nat := 256.
Definition DEFAULT_EARLY_DISCONNECT_THRESHOLD : Z := 30 * 1000000000.

#[global] Instance TrustLevel_eq_dec : EqDecision TrustLevel.
Proof. solve_decision. Defined.

(** ** Dial errors *)

Inductive ErrorKind := TimedOut | ConnectionRefusedKind | AddrNotAvailable | NetworkUnreachable | HostUnreachable | OtherKind.

(** A transport error is an IO error with its lower-case message, or an
    unsupported address. *)
Inductive DialTransportError := TransportIo (kind : ErrorKind) (message : string) | MultiaddrNotSupported.

Inductive SwarmDialError :=
| Transport (errors : list DialTransportError)
| Aborted
| DialPeerConditionFalse
| DialDenied
| NoAddresses
| LocalPeerId
| WrongPeerId.

Inductive DialFailureReason :=
| DfTimeout | DfConnectionRefused | DfNoRoute | DfUnreachable | DfNegotiationFailed | DfDenied | DfStale | DfOther.

#[global] Instance DialFailureReason_eq_dec : EqDecision DialFailureReason.
Proof. solve_decision. Defined.

(** [str::contains]. *)
Fixpoint contains (s needle : string) : bool :=
  String.prefix needle s || match s with EmptyString => false | String _ s => contains s needle end.

Definition classify_message (msg : string) : option DialFailureReason :=
  if contains msg "timed out" || contains msg "timeout" then Some DfTimeout
  else if contains msg "connection refused" then Some DfConnectionRefused
  else if contains msg "no route" then Some DfNoRoute
  else if contains msg "unreachable" then Some DfUnreachable
  else if contains msg "negotiation" || contains msg "multistream" then Some DfNegotiationFailed
  else None.

Definition classify_transport (e : DialTransportError) : option DialFailureReason :=
  match e with
  | TransportIo TimedOut _ => Some DfTimeout
  | TransportIo ConnectionRefusedKind _ => Some DfConnectionRefused
  | TransportIo (AddrNotAvailable | NetworkUnreachable | HostUnreachable) _ => Some DfUnreachable
  | TransportIo OtherKind msg => classify_message msg
  | MultiaddrNotSupported => None
  end.

Definition classify_dial_error (e : SwarmDialError) : DialFailureReason :=
  match e with
  | Transport errors => default DfOther (head (omap classify_transport errors))
  | Aborted | DialPeerConditionFalse => DfStale
  | DialDenied => DfDenied
  | NoAddresses => DfNoRoute
  | LocalPeerId | WrongPeerId => DfOther
  end.

Definition scoring_event_for_dial_error (e : DialFailureReason) : option SwarmScoringEvent :=
  match e with
  | DfDenied => None
  | DfConnectionRefused => Some ConnectionRefused
  | _ => Some ConnectionTimeout
  end.

Definition is_peer_fault (e : HandshakeError) : bool :=
  match e with
  | HsNetworkIdMismatch | HsMissingField _ | HsFieldTooLong _ _ _ | HsInvalidData | HsInvalidMultiaddr _ | HsInvalidSignature
  | HsInvalidPeer _ | HsInvalidOverlay | HsInvalidObservedAddress | HsProtobuf => true
  | _ => false
  end.

Definition is_locally_initiated (r : DisconnectReason) : bool := match r with RemoteClose => false | _ => true end.

(** The cause the swarm gives for a closed connection. *)
Inductive CloseCause := CauseIo | CauseKeepAlive | CauseClean.

Definition reason_of_cause (c : CloseCause) : DisconnectReason :=
  match c with CauseIo => RemoteClose | CauseKeepAlive => IdleTimeout | CauseClean => LocalClose end.

Inductive SwarmAction :=
| ActDial (peer : Z) (addrs : list Multiaddr)
| ActCloseAll (peer : Z)
| ActCloseOne (peer conn : Z)
| ActExternalAddr (addr : Multiaddr).

Definition reach_rank (r : PeerReachability) : Z := match r with Unreachable => 0 | Unknown => 1 | Reachable => 2 end.

Definition is_dnsaddr (addr : Multiaddr) : bool := existsb (λ p, match p with Dnsaddr _ => true | _ => false end) addr.

Section behaviour.
Context {Signature : Type}.
Abbreviation SwarmPeer := (PeerRecord.SwarmPeer Signature).
Definition overlay_of (p : SwarmPeer) : Z := of_be (sp_overlay p).
Abbreviation multiaddrs := (sp_multiaddrs (Signature:=Signature)).
Abbreviation timestamp_of := (sp_timestamp (Signature:=Signature)).
Context (powf : f64 → f64 → f64).
Context `{LH : LinkedHashSet B} `{LM : LinkedHashMap (DialRequest (A:=Multiaddr) (D:=DialReason)) M}
  `{LB : LruCache BackoffEntry CB} `{LN : LruCache Z CN}.
Context (proximity : Z → Z) (max_po : Z) (peer_proximity : Z → Z → Z).
Context (recompute_neighborhood_depth : list Z → Z → Z → Z) (low_watermark : Z).
Context (early_disconnect_threshold : Z) (trust_local_peers : bool) (trusted_peers : list Multiaddr).
Context (jitter_seed_for : Z → Z) (ip_version : Multiaddr → option IpVersion).
Context {V4Net V6Net : Type} (v4_contains : V4Net → Z → bool) (v6_contains : V6Net → Z → bool).

Abbreviation Net := (Topology (A:=Multiaddr) (D:=DialReason) (B:=B) (M:=M) (CB:=CB) (CN:=CN)).
Abbreviation Manager := (PeerManager (SwarmPeer:=SwarmPeer) (B:=B)).
Abbreviation ToGossip := (GossipInput (SwarmPeer:=SwarmPeer)).

Record TopologyBehaviour := mkBehaviour {
  tb_net : Net;
  tb_pm : Manager;
  tb_queues : CandidateQueues;
  tb_local : LocalAddressManager;
  tb_subnets : LocalSubnets (V4Net:=V4Net) (V6Net:=V6Net);
  tb_reach : gmap Z PeerReachabilityRecord;
  tb_dial_rate : RateLimiter;
  tb_timer : option Z;
  tb_resolving : bool;
  tb_closes : gmap Z DisconnectReason;
  tb_public_dials : gset Z;
  tb_received : nat;
  tb_actions : list SwarmAction;
  tb_gossip : list ToGossip;
}.

Implicit Types (s : TopologyBehaviour) (peer : SwarmPeer) (pm : Manager) (net : Net).

Definition with_net net s : TopologyBehaviour :=
  mkBehaviour net (tb_pm s) (tb_queues s) (tb_local s) (tb_subnets s) (tb_reach s) (tb_dial_rate s) (tb_timer s) (tb_resolving s) (tb_closes s)
    (tb_public_dials s) (tb_received s) (tb_actions s) (tb_gossip s).
Definition with_pm pm s : TopologyBehaviour :=
  mkBehaviour (tb_net s) pm (tb_queues s) (tb_local s) (tb_subnets s) (tb_reach s) (tb_dial_rate s) (tb_timer s) (tb_resolving s) (tb_closes s)
    (tb_public_dials s) (tb_received s) (tb_actions s) (tb_gossip s).
Definition with_queues (q : CandidateQueues) s : TopologyBehaviour :=
  mkBehaviour (tb_net s) (tb_pm s) q (tb_local s) (tb_subnets s) (tb_reach s) (tb_dial_rate s) (tb_timer s) (tb_resolving s) (tb_closes s)
    (tb_public_dials s) (tb_received s) (tb_actions s) (tb_gossip s).
Definition with_local (l : LocalAddressManager) s : TopologyBehaviour :=
  mkBehaviour (tb_net s) (tb_pm s) (tb_queues s) l (tb_subnets s) (tb_reach s) (tb_dial_rate s) (tb_timer s) (tb_resolving s) (tb_closes s)
    (tb_public_dials s) (tb_received s) (tb_actions s) (tb_gossip s).
Definition with_reach (tr : gmap Z PeerReachabilityRecord) s : TopologyBehaviour :=
  mkBehaviour (tb_net s) (tb_pm s) (tb_queues s) (tb_local s) (tb_subnets s) tr (tb_dial_rate s) (tb_timer s) (tb_resolving s) (tb_closes s)
    (tb_public_dials s) (tb_received s) (tb_actions s) (tb_gossip s).
Definition with_rate (l : RateLimiter) (timer : option Z) s : TopologyBehaviour :=
  mkBehaviour (tb_net s) (tb_pm s) (tb_queues s) (tb_local s) (tb_subnets s) (tb_reach s) l timer (tb_resolving s) (tb_closes s)
    (tb_public_dials s) (tb_received s) (tb_actions s) (tb_gossip s).
Definition with_resolving (b : bool) s : TopologyBehaviour :=
  mkBehaviour (tb_net s) (tb_pm s) (tb_queues s) (tb_local s) (tb_subnets s) (tb_reach s) (tb_dial_rate s) (tb_timer s) b (tb_closes s)
    (tb_public_dials s) (tb_received s) (tb_actions s) (tb_gossip s).
Definition with_closes (c : gmap Z DisconnectReason) s : TopologyBehaviour :=
  mkBehaviour (tb_net s) (tb_pm s) (tb_queues s) (tb_local s) (tb_subnets s) (tb_reach s) (tb_dial_rate s) (tb_timer s) (tb_resolving s) c
    (tb_public_dials s) (tb_received s) (tb_actions s) (tb_gossip s).
Definition with_public_dials (d : gset Z) s : TopologyBehaviour :=
  mkBehaviour (tb_net s) (tb_pm s) (tb_queues s) (tb_local s) (tb_subnets s) (tb_reach s) (tb_dial_rate s) (tb_timer s) (tb_resolving s) (tb_closes s)
    d (tb_received s) (tb_actions s) (tb_gossip s).
Definition with_received (n : nat) s : TopologyBehaviour :=
  mkBehaviour (tb_net s) (tb_pm s) (tb_queues s) (tb_local s) (tb_subnets s) (tb_reach s) (tb_dial_rate s) (tb_timer s) (tb_resolving s) (tb_closes s)
    (tb_public_dials s) n (tb_actions s) (tb_gossip s).
Definition act (a : SwarmAction) s : TopologyBehaviour :=
  mkBehaviour (tb_net s) (tb_pm s) (tb_queues s) (tb_local s) (tb_subnets s) (tb_reach s) (tb_dial_rate s) (tb_timer s) (tb_resolving s) (tb_closes s)
    (tb_public_dials s) (tb_received s) (tb_actions s ++ [a]) (tb_gossip s).
Definition to_gossip (g : ToGossip) s : TopologyBehaviour :=
  mkBehaviour (tb_net s) (tb_pm s) (tb_queues s) (tb_local s) (tb_subnets s) (tb_reach s) (tb_dial_rate s) (tb_timer s) (tb_resolving s) (tb_closes s)
    (tb_public_dials s) (tb_received s) (tb_actions s) (tb_gossip s ++ [g]).

Definition routing s : KademliaRouting (B:=B) := tp_routing (tb_net s).
Definition registry s : PeerRegistry (R:=option DialReason) := tp_registry (tb_net s).
Definition depth s : Z := kd_depth (routing s).
Definition on_net (f : Net → Net) s : TopologyBehaviour := with_net (f (tb_net s)) s.
Definition on_pm (f : Manager → Manager) s : TopologyBehaviour := with_pm (f (tb_pm s)) s.

(** The manager's [is_banned]. *)
Definition is_banned (o : Z) pm : bool := bool_decide (is_Some (pm_banned_set pm !! o)).

(** ** Closing *)

Definition close_peer (p : Z) (reason : DisconnectReason) s : TopologyBehaviour :=
  act (ActCloseAll p) (with_closes (<[p := reason]> (tb_closes s)) s).

(** Close the connection of an overlay, if it has one. *)
Definition close_overlay (o : Z) (reason : DisconnectReason) s : TopologyBehaviour :=
  match resolve_peer_id o (registry s) with Some p => close_peer p reason s | None => s end.

(** ** Dialling *)

Inductive DialTarget := KnownTarget (peer : SwarmPeer) | UnknownTarget (addr : Multiaddr).

Definition target_peer_id (t : DialTarget) : option Z :=
  match t with KnownTarget peer => head (omap extract_peer_id (multiaddrs peer)) | UnknownTarget addr => extract_peer_id addr end.
Definition target_overlay (t : DialTarget) : option Z :=
  match t with KnownTarget peer => Some (overlay_of peer) | UnknownTarget _ => None end.
Definition target_addrs (t : DialTarget) : list Multiaddr :=
  match t with KnownTarget peer => multiaddrs peer | UnknownTarget addr => [addr] end.

(** The native stack dials TCP. *)
Definition dial_capability s : DialCapability := mkDialCapability (capability false (la_local (tb_local s))) StackTcp.

Definition release_for (o : option Z) s : TopologyBehaviour := on_net (for_overlay o (Kademlia.release_dial proximity max_po)) s.

Definition dial (t : DialTarget) (reason : DialReason) (ck : Clock) s : TopologyBehaviour :=
  match target_peer_id t with
  | None => s
  | Some p =>
      if is_peer_tracked p (tb_net s) then s
      else
        let '(go, s) :=
          match target_overlay t with
          | Some o => let '(ok, r) := try_reserve_dial proximity max_po o (routing s) in (ok, on_net (on_routing (λ _, r)) s)
          | None => (true, s)
          end in
        if negb go then s
        else
          let can := λ a, can_dial v4_contains v6_contains (dial_capability s) a (tb_subnets s) in
          let '(res, d) := prepare_and_start jitter_seed_for ip_version (target_overlay t) p (target_addrs t) reason can (ck_now ck)
                             (tp_dials (tb_net s)) in
          let s := with_net (mkTopology d (registry s) (routing s)) s in
          match res with
          | Ok (_, addrs, _) =>
              let s := if decide (reason = ForDiscovery) then to_gossip (MarkGossipDial p) s else s in
              act (ActDial p addrs) s
          | Err NoReachableAddresses =>
              match target_overlay t with
              | Some o => on_pm (pm_record_dial_failure (ck_secs ck) o) (release_for (Some o) s)
              | None => s
              end
          | Err _ => release_for (target_overlay t) s
          end
  end.

(** [can_advertise_to]. *)
Definition can_advertise_to peer s : bool :=
  match max_scope multiaddrs peer with
  | Some Public => is_reachable (tb_local s)
  | Some (Private | LinkLocal) =>
      existsb (λ a, existsb (λ ours, same_subnet v4_contains v6_contains ours a (tb_subnets s)) (lc_listen_addrs (la_local (tb_local s))))
        (multiaddrs peer)
  | Some Loopback | None => true
  end.

Definition dial_swarm_peer peer (ck : Clock) s : bool * TopologyBehaviour :=
  let o := overlay_of peer in
  if is_banned o (tb_pm s) || peer_is_in_backoff (ck_secs ck) o (tb_pm s) then (false, s)
  else if negb (can_advertise_to peer s) then (false, s)
  else (true, dial (KnownTarget peer) ForDiscovery ck s).

Definition dial_bootnodes (bootnodes trusted : list Multiaddr) (ck : Clock) s : TopologyBehaviour :=
  let s := foldl (λ s a, dial (UnknownTarget a) ForBootnode ck s) s bootnodes in
  foldl (λ s a, dial (UnknownTarget a) ForTrusted ck s) s trusted.

(** [bootnodes] is the shuffled list.  Entries behind [/dnsaddr/] are resolved
    first; the result arrives as an event. *)
Definition connect_bootnodes (bootnodes : list Multiaddr) (ck : Clock) s : TopologyBehaviour :=
  if decide (bootnodes = [] ∧ trusted_peers = []) then s
  else if existsb is_dnsaddr bootnodes || existsb is_dnsaddr trusted_peers then with_resolving true s
  else dial_bootnodes bootnodes trusted_peers ck s.

Definition on_resolved (bootnodes trusted : list Multiaddr) (ck : Clock) s : TopologyBehaviour :=
  if tb_resolving s then dial_bootnodes bootnodes trusted ck (with_resolving false s) else s.

(** ** The drain of the candidate queues *)

(** One attempt per clock reading; the flag says whether the timer of a refusal
    is ready at once.  [None] when the readings run out. *)
Fixpoint drain_loop (readings : list (Clock * bool)) s : option TopologyBehaviour :=
  match pop_candidate (tb_queues s) with
  | (None, _) => Some s
  | (Some o, q) =>
      match readings with
      | [] => None
      | (ck, ready) :: readings =>
          let s := with_queues q s in
          match last (get_dialable_peers (ck_secs ck) [o] (tb_pm s)) with
          | None => drain_loop readings s
          | Some peer =>
              if negb (can_advertise_to peer s) then drain_loop readings s
              else
                match rl_try_consume_n 1 (ck_now ck) (tb_dial_rate s) with
                | (Ok _, l) => drain_loop readings (dial (KnownTarget peer) ForDiscovery ck (with_rate l (tb_timer s) s))
                | (Err (TooSoon wait), l) =>
                    let s := with_rate l (tb_timer s) (with_queues (requeue_candidate proximity max_po o q) s) in
                    if ready : bool then drain_loop readings s else Some (with_rate l (Some (ck_now ck + wait)) s)
                | (Err TooLarge, l) => Some (with_rate l (tb_timer s) (with_queues (requeue_candidate proximity max_po o q) s))
                end
          end
      end
  end.

Definition drain_candidate_queues (now : Z) (readings : list (Clock * bool)) s : option TopologyBehaviour :=
  match tb_timer s with
  | Some deadline => if decide (deadline <= now) then drain_loop readings (with_rate (tb_dial_rate s) None s) else Some s
  | None => drain_loop readings s
  end.

(** ** Depth changes and trimming *)

Definition trust_level (o : Z) pm : TrustLevel := from_option pe_trust TrustNormal (pm_peers pm !! o).

(** The rank of an eviction candidate: reachability, then locality. *)
Definition rank s (o : Z) : Z * bool :=
  (reach_rank (from_option (λ p, reach_status p (tb_reach s)) Unknown (resolve_peer_id o (registry s))),
   trust_local_peers && negb (bool_decide (trust_level o (tb_pm s) = TrustNormal))).

Definition rank_cmp s (a b : Z) : comparison :=
  then_with ((rank s a).1 ?= (rank s b).1) (Bool.compare (rank s a).2 (rank s b).2).

Definition score_of (o : Z) pm : f64 := from_option pe_score (f64_of_Z 0) (pm_peers pm !! o).
Definition score_cmp s (a b : Z) : option comparison := SFcompare (score_of a (tb_pm s)) (score_of b (tb_pm s)).

(** The candidates of the routing table; [order] is the iteration order of its
    phase map. *)
Definition victims (order : list Z) s : list EvictionCandidate :=
  eviction_candidates proximity max_po peer_proximity (rank_cmp s) (score_cmp s) order (routing s).

Definition trim_one s (c : EvictionCandidate) : TopologyBehaviour :=
  if decide (trust_level (ec_overlay c) (tb_pm s) = TrustTrusted) then s else close_overlay (ec_overlay c) BinTrimmed s.

Definition trim_overpopulated_bins (order : list Z) s : TopologyBehaviour := foldl trim_one s (victims order s).

Definition on_depth_changed (order : list Z) (old_depth new_depth : Z) s : TopologyBehaviour :=
  let s := to_gossip (Gossip.DepthChanged new_depth) s in
  if decide (old_depth < new_depth) then trim_overpopulated_bins order s else s.

(** The effects of a change of the routing table on the depth. *)
Definition publish_change (order : list Z) (old_depth : Z) s : TopologyBehaviour :=
  if decide (depth s = old_depth) then s else on_depth_changed order old_depth (depth s) s.

Definition refresh_published_depth (order : list Z) (ck : Clock) s : TopologyBehaviour :=
  publish_change order (depth s) (on_net (on_routing (refresh_depth_at max_po recompute_neighborhood_depth low_watermark (ck_now ck))) s).

Definition refresh_topology_phase (ck : Clock) s : TopologyBehaviour :=
  on_net (on_routing (λ r, (evaluate_phase max_po (ck_now ck) r).2)) s.

(** ** Connections *)

(** [remote] is the address dialled, [None] for an inbound connection. *)
Definition handle_connection_established (remote : option Multiaddr) (p conn : Z) (ck : Clock) s : TopologyBehaviour :=
  match remote with
  | Some addr =>
      let s := if is_public addr then with_public_dials (tb_public_dials s ∪ {[conn]}) s else s in
      on_net (established_outbound proximity max_po p conn) s
  | None => on_net (established_inbound p conn (ck_now ck)) s
  end.

(** The penalty of a remote close soon after the handshake of a peer that did
    nothing useful. *)
Definition penalize_early (o : Z) (reason : DisconnectReason) (connected_at : option Z) (ck : Clock) (text : string) s :
    TopologyBehaviour :=
  match connected_at with
  | Some t =>
      let duration := Z.max 0 (ck_now ck - t) in
      if negb (is_locally_initiated reason) && bool_decide (duration < early_disconnect_threshold) &&
         negb (is_some_and was_productive_since_connect (pm_peers (tb_pm s) !! o))
      then on_pm (record_early_disconnect (ck_secs ck) o duration text) s
      else s
  | None => s
  end.

Definition handle_connection_closed (p conn remaining : Z) (cause : CloseCause) (ck : Clock) (text : string) (order : list Z) s :
    TopologyBehaviour :=
  let s := with_public_dials (tb_public_dials s ∖ {[conn]}) s in
  if decide (0 < remaining) then s
  else
    let reason := default (reason_of_cause cause) (tb_closes s !! p) in
    let s := with_reach (reach_forget p (tb_reach s)) (with_closes (delete p (tb_closes s)) s) in
    let '(removed, reg) := Registry.disconnected p (registry s) in
    let s := with_net (mkTopology (tp_dials (tb_net s)) reg (routing s)) s in
    let s := to_gossip (Gossip.ConnectionClosed p (removed ≫= st_id)) s in
    match removed ≫= st_id with
    | None => s
    | Some o =>
        let s := on_net (on_routing (Kademlia.disconnected proximity max_po o)) s in
        let old_depth := depth s in
        let s := on_net (on_routing (peer_disconnected proximity max_po recompute_neighborhood_depth low_watermark o (ck_now ck))) s in
        let s := penalize_early o reason (removed ≫= st_connected_at) ck text s in
        let s := on_pm (on_peer_disconnected o reason) s in
        refresh_topology_phase ck (publish_change order old_depth s)
    end.

Definition handle_dial_failure (p : option Z) (error : SwarmDialError) (ck : Clock) (text : string) s : TopologyBehaviour :=
  match p with
  | None => s
  | Some p =>
      match resolve p (tp_dials (tb_net s)) with
      | (None, _) => s
      | (Some req, d) =>
          let s := with_net (mkTopology d (registry s) (routing s)) s in
          match rq_id req with
          | None => s
          | Some o =>
              let s := on_pm (pm_record_dial_failure (ck_secs ck) o) (release_for (Some o) s) in
              match scoring_event_for_dial_error (classify_dial_error error) with
              | Some ev => on_pm (report_peer (ck_secs ck) o ev text) s
              | None => s
              end
          end
      end
  end.

(** A dial that timed out, and a connection whose handshake did. *)
Definition drop_stale_dial (ck : Clock) s (req : DialRequest (A:=Multiaddr) (D:=DialReason)) : TopologyBehaviour :=
  match rq_id req with
  | Some o => on_pm (pm_record_dial_failure (ck_secs ck) o) (release_for (Some o) s)
  | None => s
  end.

(** Take a peer out of the registry, give its handshake slot back and count a
    dial failure. *)
Definition drop_handshake (ck : Clock) s (p : Z) : option Z * TopologyBehaviour :=
  let '(st, reg) := Registry.disconnected p (registry s) in
  let s := with_net (mkTopology (tp_dials (tb_net s)) reg (routing s)) s in
  match st ≫= st_id with
  | Some o => (Some o, on_pm (pm_record_dial_failure (ck_secs ck) o) (on_net (on_routing (Kademlia.release_handshake proximity max_po o)) s))
  | None => (None, s)
  end.

Definition cleanup_stale_pending (dial_order : list Z) (ck : Clock) s : TopologyBehaviour :=
  let '((_, timed_out), d) := cleanup_expired dial_order (ck_now ck) (tp_dials (tb_net s)) in
  let s := foldl (drop_stale_dial ck) (with_net (mkTopology d (registry s) (routing s)) s) timed_out in
  foldl (λ s p, (drop_handshake ck s p).2) s (stale_pending HANDSHAKE_TIMEOUT (ck_now ck) (registry s)).

(** ** Protocol events *)

Definition peer_is_local peer s : bool :=
  existsb (λ a, match classify_multiaddr a with
                | Some (Loopback | LinkLocal) => true
                | Some Private => existsb (λ ours, same_subnet v4_contains v6_contains ours a (tb_subnets s)) (lc_listen_addrs (la_local (tb_local s)))
                | Some Public | None => false
                end) (multiaddrs peer).

Definition trust_for (reason : option DialReason) peer s : TrustLevel :=
  if decide (reason = Some ForTrusted) then TrustTrusted
  else if peer_is_local peer s then TrustLocalSubnet
  else TrustNormal.

(** A handshake that asserts another overlay than the dialled one. *)
Definition demote_mismatch (st : option (ConnectionState (R:=option DialReason))) (o : Z) (ck : Clock) s : TopologyBehaviour :=
  let s := on_net (account_mismatch proximity max_po st o) s in
  match st ≫= st_id with
  | Some dialed => if decide (dialed = o) then s
                   else on_pm (on_dialed_overlay_mismatch proximity max_po (ck_secs ck) dialed) s
  | None => s
  end.

(** The registry takes the connection over; an older one is closed. *)
Definition take_over (p conn o : Z) (ck : Clock) s : TopologyBehaviour :=
  let '(res, reg) := activate None p conn o (ck_now ck) (registry s) in
  let s := with_net (mkTopology (tp_dials (tb_net s)) reg (Kademlia.handshake_completed proximity max_po o (routing s))) s in
  match res with
  | Replaced old_peer old_conn _ => act (ActCloseOne old_peer old_conn) s
  | Registry.Accepted => s
  end.

Definition record_connected (p conn : Z) (ck : Clock) s : TopologyBehaviour :=
  if decide (conn ∈ tb_public_dials s) then
    with_reach (record_reachable (ck_instant ck) p (tb_reach s)) (with_public_dials (tb_public_dials s ∖ {[conn]}) s)
  else with_reach (record_liveness (ck_instant ck) p true (tb_reach s)) s.

(** [others] are the calls other tasks make to the manager after the ban check. *)
Definition on_handshake_completed (p conn : Z) peer (t : SwarmNodeType) (observed : Multiaddr) (others : list (Z * PmOp (SwarmPeer:=SwarmPeer)))
    (ck : Clock) (text : string) (order : list Z) s : TopologyBehaviour :=
  let o := overlay_of peer in
  let st := current_state p o (tb_net s) in
  let direction := default Inbound (st ≫= st_direction) in
  if is_banned o (tb_pm s) then close_peer p ReasonBanned s
  else
    let s := on_pm (λ pm, run (pm_step overlay_of timestamp_of powf proximity max_po text) pm others) s in
    let s := demote_mismatch st o ck s in
    match accept_handshake proximity max_po direction o (tb_net s) with
    | None => close_peer p BinSaturated s
    | Some net =>
        let s := take_over p conn o ck (with_net net s) in
        let s := on_pm (on_peer_connected overlay_of proximity max_po (ck_secs ck) peer t direction (trust_for (st ≫= st_reason) peer s) text) s in
        let s := record_connected p conn ck s in
        let s := if match direction with Inbound => true | Outbound => false end && negb (bool_decide (observed = [])) && is_public observed
                 then with_local (on_observed_addr observed (tb_local s)) s else s in
        let old_depth := depth s in
        let s := on_net (on_routing (peer_connected proximity max_po recompute_neighborhood_depth low_watermark o (ck_now ck))) s in
        to_gossip (PeerActivated p peer t) (refresh_topology_phase ck (publish_change order old_depth s))
    end.

Definition on_handshake_failed (p : Z) (error : HandshakeError) (ck : Clock) (text : string) s : TopologyBehaviour :=
  let s := if is_peer_fault error then with_reach (record_liveness (ck_instant ck) p false (tb_reach s)) s else s in
  match drop_handshake ck s p with
  | (Some o, s) => if is_peer_fault error then on_pm (report_peer (ck_secs ck) o HandshakeFailure text) s else s
  | (None, s) => s
  end.

(** [None] is a failed ping. *)
Definition on_ping_result (p : Z) (rtt : option Z) (ck : Clock) s : TopologyBehaviour :=
  match rtt with
  | Some rtt =>
      let s := with_reach (record_liveness (ck_instant ck) p true (tb_reach s)) s in
      match resolve_id p (registry s) with Some o => on_pm (record_latency o rtt) s | None => s end
  | None => with_reach (record_liveness (ck_instant ck) p false (tb_reach s)) s
  end.

Definition on_hive_event (p : Z) (peers : list SwarmPeer) s : TopologyBehaviour :=
  let '(received, rotate) := Hive.on_hive_peers_received v4_contains v6_contains (dial_capability s) (tb_subnets s) p peers (registry s) in
  let s := match received with Some (gossiper, peers) => to_gossip (Gossip.PeersReceived gossiper peers) s | None => s end in
  if rotate : bool then close_peer p BootnodeRotation s else s.

(** ** Commands *)

Inductive TopologyCommand :=
| ConnectBootnodes (shuffled : list Multiaddr)
| DialCommand (addr : Multiaddr)
| CloseConnection (overlay : Z)
| BanPeer (overlay : Z) (reason : option string)
| SavePeers (order : list Z) (written : bool).

Definition evict_banned (o : Z) (ck : Clock) s : TopologyBehaviour :=
  close_overlay o ReasonBanned (on_net (on_routing (Kademlia.remove_peer proximity max_po o (ck_now ck))) s).

Definition on_command (c : TopologyCommand) (ck : Clock) s : TopologyBehaviour :=
  match c with
  | ConnectBootnodes shuffled => connect_bootnodes shuffled ck s
  | DialCommand addr => dial (UnknownTarget addr) ForCommand ck s
  | CloseConnection o => close_overlay o Requested s
  | BanPeer o reason => evict_banned o ck (on_pm (ban (ck_secs ck) o CauseRequested reason) s)
  | SavePeers order written => on_pm (snapshot order written) s
  end.

(** ** The lifecycle stream *)

Definition on_lifecycle_event (ev : PeerLifecycleEvent) (ck : Clock) s : TopologyBehaviour :=
  match ev with
  | PlDisconnectRequested o reason => close_overlay o reason s
  | PlBanned o _ _ => evict_banned o ck s
  | _ => s
  end.

Definition reconcile_banned_connections (ck : Clock) s : TopologyBehaviour :=
  foldl (λ s o, if is_banned o (tb_pm s) then evict_banned o ck s else s) s (active_ids (registry s)).

(** [try_recv]: a receiver more than the capacity behind is moved to the oldest
    event still held, and told that it lagged.  [None] when there is nothing to
    receive. *)
Definition lifecycle_recv (ck : Clock) s : option TopologyBehaviour :=
  let log := pm_lifecycle (tb_pm s) in
  if decide (tb_received s + LIFECYCLE_CHANNEL_CAPACITY < length log)%nat then
    Some (reconcile_banned_connections ck (with_received (length log - LIFECYCLE_CHANNEL_CAPACITY) s))
  else
    match log !! tb_received s with
    | Some ev => Some (on_lifecycle_event ev ck (with_received (S (tb_received s)) s))
    | None => None
    end.

(** The loop of [poll], one clock reading a round; [None] when they run out. *)
Fixpoint drain_lifecycle (readings : list Clock) s : option TopologyBehaviour :=
  if decide (length (pm_lifecycle (tb_pm s)) <= tb_received s)%nat then Some s
  else match readings with
       | [] => None
       | ck :: readings => lifecycle_recv ck s ≫= drain_lifecycle readings
       end.

(** ** Histories *)

Inductive BehaviourEvent :=
| EvManager (text : string) (op : Z * PmOp (SwarmPeer:=SwarmPeer))
| EvEstablished (remote : option Multiaddr) (p conn : Z)
| EvClosed (p conn remaining : Z) (cause : CloseCause) (text : string) (order : list Z)
| EvDialFailure (p : option Z) (error : SwarmDialError) (text : string)
| EvTick (dial_order order : list Z)
| EvHandshake (p conn : Z) (peer : SwarmPeer) (t : SwarmNodeType) (observed : Multiaddr) (others : list (Z * PmOp (SwarmPeer:=SwarmPeer)))
    (text : string) (order : list Z)
| EvHandshakeFailed (p : Z) (error : HandshakeError) (text : string)
| EvPing (p : Z) (rtt : option Z)
| EvHive (p : Z) (peers : list SwarmPeer)
| EvCommand (c : TopologyCommand)
| EvResolved (bootnodes trusted : list Multiaddr)
| EvEnqueue (q : CandidateQueues)
| EvDrain (readings : list (Clock * bool))
| EvReceive
| EvListen (addr : Multiaddr) (shuffled : list Multiaddr)
| EvListenExpired (addr : Multiaddr)
| EvExternal (addr : Multiaddr)
| EvExternalExpired (addr : Multiaddr)
| EvAutonat (p : Z).

(** A new listen address that makes the capability known dials the bootnodes
    again. *)
Definition on_listen (addr : Multiaddr) (shuffled : list Multiaddr) (ck : Clock) s : TopologyBehaviour :=
  let '(known, l) := on_new_listen_addr addr (la_local (tb_local s)) in
  let s := with_local (set_local l (tb_local s)) s in
  if known : bool then connect_bootnodes shuffled ck s else s.

(** The evaluator task fills the queues. *)
Definition behaviour_step s (e : Clock * BehaviourEvent) : TopologyBehaviour :=
  let ck := e.1 in
  match e.2 with
  | EvManager text op => on_pm (λ pm, pm_step overlay_of timestamp_of powf proximity max_po text pm op) s
  | EvEstablished remote p conn => handle_connection_established remote p conn ck s
  | EvClosed p conn remaining cause text order => handle_connection_closed p conn remaining cause ck text order s
  | EvDialFailure p error text => handle_dial_failure p error ck text s
  | EvTick dial_order order => refresh_published_depth order ck (cleanup_stale_pending dial_order ck s)
  | EvHandshake p conn peer t observed others text order => on_handshake_completed p conn peer t observed others ck text order s
  | EvHandshakeFailed p error text => on_handshake_failed p error ck text s
  | EvPing p rtt => on_ping_result p rtt ck s
  | EvHive p peers => on_hive_event p peers s
  | EvCommand c => on_command c ck s
  | EvResolved bootnodes trusted => on_resolved bootnodes trusted ck s
  | EvEnqueue q => with_queues q s
  | EvDrain readings => default s (drain_candidate_queues (ck_now ck) readings s)
  | EvReceive => default s (lifecycle_recv ck s)
  | EvListen addr shuffled => on_listen addr shuffled ck s
  | EvListenExpired addr => with_local (set_local (on_expired_listen_addr addr (la_local (tb_local s))) (tb_local s)) s
  | EvExternal addr => with_local (on_external_addr_confirmed addr (tb_local s)) s
  | EvExternalExpired addr => with_local (on_external_addr_expired addr (tb_local s)) s
  | EvAutonat p => with_reach (record_reachable (ck_instant ck) p (tb_reach s)) s
  end.

(** ** Bans are announced *)

(** The manager never asks for a close in the peer's name. *)
Definition polite (ev : PeerLifecycleEvent) : Prop :=
  match ev with PlDisconnectRequested _ reason => is_locally_initiated reason = true | _ => True end.

(** The manager's log only grows, with polite events, and an overlay becomes banned
    only with an event that says so. *)
Definition pm_grows pm pm' : Prop := ∃ evs, pm_lifecycle pm' = pm_lifecycle pm ++ evs ∧ Forall polite evs ∧
  ∀ o, is_Some (pm_banned_set pm' !! o) → is_Some (pm_banned_set pm !! o) ∨ ∃ until cause, PlBanned o until cause ∈ evs.

Lemma grows_same pm pm' : pm_lifecycle pm' = pm_lifecycle pm → pm_banned_set pm' ⊆ pm_banned_set pm → pm_grows pm pm'.
Proof.
  intros H1 H2. exists []. rewrite app_nil_r. split_and!; [done|done|]. intros o [x Hx]. left. exists x. by eapply lookup_weaken.
Qed.

#[local] Instance pm_grows_refl : Reflexive pm_grows.
Proof. intros pm. by apply grows_same. Qed.

#[local] Instance pm_grows_trans : Transitive pm_grows.
Proof.
  intros a b c (e1&L1&P1&B1) (e2&L2&P2&B2). exists (e1 ++ e2). rewrite L2, L1, app_assoc. split_and!; [done|by apply Forall_app|].
  intros o Ho. destruct (B2 o Ho) as [Hb|(u&ca&?)]; [destruct (B1 o Hb) as [|(u&ca&?)]; [by left|]|]; right; exists u, ca; set_solver.
Qed.

Lemma grows_emit ev pm : polite ev → pm_grows pm (emit ev pm).
Proof. intros Hp. exists [ev]. split_and!; [done|by repeat constructor|]. intros o ?. by left. Qed.

(** Updates that touch neither the log nor the bans. *)
Ltac same_pm := apply grows_same; [reflexivity|reflexivity].

Lemma grows_health h h' pm : pm_grows pm (on_health_changed h h' pm).
Proof. unfold on_health_changed. case_decide; same_pm. Qed.

Lemma grows_fold {A} (f : Manager → A → Manager) l : (∀ pm a, pm_grows pm (f pm a)) → ∀ pm, pm_grows pm (foldl f pm l).
Proof. intros Hf. induction l as [|a l IH]; intros pm; simpl; [done|]. etrans; [apply Hf|apply IH]. Qed.

Abbreviation grow_step := (λ text pm op, pm_step overlay_of timestamp_of powf proximity max_po text pm op).

Lemma grows_remove now o pm : pm_grows pm (PeerManager.remove_peer proximity max_po now o pm).
Proof. apply grows_same; [apply remove_peer_lifecycle|]. rewrite remove_peer_banned. apply delete_subseteq. Qed.

Lemma grows_ban now o cause reason until pm : pm_grows pm (ban_with_expiry now o cause reason until pm).
Proof.
  unfold ban_with_expiry. destruct (pm_banned_set pm !! o) as [u|] eqn:E; [done|].
  set (mid := match pm_peers _ !! o with Some _ => _ | None => _ end).
  assert (Hm : pm_lifecycle mid = pm_lifecycle pm ∧ pm_banned_set mid = <[o := until]> (pm_banned_set pm)).
  { subst mid. simpl. destruct (pm_peers pm !! o) as [e|]; [|done]. destruct (pe_is_banned e); [done|].
    unfold on_health_changed. by case_decide. }
  destruct Hm as [HL HB]. exists [PlBanned o until cause]. simpl. rewrite HL, HB. split_and!; [done|by repeat constructor|].
  intros x [y [[<- _]|[_ Hy]]%lookup_insert_Some]; [right; eexists _, _; by left|left; by exists y].
Qed.

Lemma grows_unban now o pm : pm_grows pm (unban now o pm).
Proof.
  unfold unban. set (mid := match pm_peers pm !! o with Some _ => _ | None => _ end).
  assert (Hm : pm_grows pm mid).
  { subst mid. destruct (pm_peers pm !! o) as [e|]; [|done]. destruct (entry_reset_score _ _) as [[a b] e'].
    etrans; [|apply grows_health]. same_pm. }
  clearbody mid. destruct (pm_banned_set mid !! o); [|done]. etrans; [exact Hm|]. etrans; [|by apply grows_emit].
  apply grows_same; [done|]. apply delete_subseteq.
Qed.

Lemma grows_dial_failure now o pm : pm_grows pm (pm_record_dial_failure now o pm).
Proof. unfold pm_record_dial_failure. destruct (pm_peers pm !! o); [|done]. etrans; [|apply grows_health]. same_pm. Qed.

Lemma grows_report now o ev text pm : pm_grows pm (report_peer now o ev text pm).
Proof.
  unfold report_peer. destruct (pm_banned_set pm !! o); [done|]. destruct (pm_peers pm !! o) as [e|]; [|done].
  destruct (entry_record_event ev _) as [ch e']. set (mid := with_distribution _ _).
  assert (Hm : pm_grows pm mid) by same_pm. clearbody mid. destruct (ch_outcome ch).
  - done.
  - etrans; [exact Hm|by apply grows_emit].
  - etrans; [exact Hm|]. etrans; [apply grows_dial_failure|by apply grows_emit].
  - etrans; [exact Hm|apply grows_ban].
Qed.

Lemma grows_admit now o pm : pm_grows pm (pm_admit proximity max_po now o pm).2.
Proof.
  unfold pm_admit. destruct (add _ _ o (pm_index pm)) as [[u|[]] i]; [same_pm|done|].
  destruct (find_replaceable _ _ _) as [v|]; [|done]. etrans; [apply (grows_remove now v)|].
  destruct (add _ _ o _) as [[u|[]] i']; [same_pm|done|done].
Qed.

Lemma pm_grows_insert now o peer t pm : pm_grows pm (insert_peer proximity max_po now o peer t pm).2.
Proof.
  unfold insert_peer. destruct (pm_peers pm !! o); [same_pm|]. pose proof (grows_admit now o pm) as Ha.
  destruct (pm_admit _ _ _ _ _) as [[] s]; [|done]. simpl in *. etrans; [exact Ha|]. destruct (pm_peers s !! o); same_pm.
Qed.

Lemma grows_connected now peer t d trust text pm :
  pm_grows pm (on_peer_connected overlay_of proximity max_po now peer t d trust text pm).
Proof.
  unfold on_peer_connected. pose proof (pm_grows_insert now (overlay_of peer) peer t pm) as Hi.
  destruct (insert_peer _ _ _ _ _ _ _) as [[] s]; simpl in *; [|done]. etrans; [exact Hi|].
  destruct (pm_peers s !! overlay_of peer) as [e|]; [|done]. etrans; [|apply grows_report]. etrans; [|by apply grows_emit].
  etrans; [|apply grows_health]. destruct (pe_verified _); same_pm.
Qed.

Lemma grows_disconnected o reason pm : pm_grows pm (on_peer_disconnected o reason pm).
Proof. unfold on_peer_disconnected. etrans; [|by apply grows_emit]. destruct (pm_peers pm !! o); same_pm. Qed.

Lemma grows_mismatch now o pm : pm_grows pm (on_dialed_overlay_mismatch proximity max_po now o pm).
Proof.
  unfold on_dialed_overlay_mismatch. destruct (pm_peers pm !! o) as [e|]; [|done].
  destruct (pe_verified e); [apply grows_dial_failure|apply grows_remove].
Qed.

Lemma grows_latency o rtt pm : pm_grows pm (record_latency o rtt pm).
Proof. unfold record_latency. destruct (pm_peers pm !! o); same_pm. Qed.

Lemma grows_snapshot order written pm : pm_grows pm (snapshot order written pm).
Proof. unfold snapshot. destruct (pm_store pm); [|done]. destruct written; same_pm. Qed.

Lemma grows_early now o duration text pm : pm_grows pm (record_early_disconnect now o duration text pm).
Proof. unfold record_early_disconnect. etrans; [apply grows_dial_failure|apply grows_report]. Qed.

Lemma grows_discovered now peer pm : pm_grows pm (store_discovered_peer overlay_of timestamp_of proximity max_po now peer pm).
Proof.
  unfold store_discovered_peer. destruct (pm_peers pm !! _) as [e|]; [destruct (reject_stale_gossip _ _ _); same_pm|].
  pose proof (pm_grows_insert now (overlay_of peer) peer Client pm) as Hi. destruct (insert_peer _ _ _ _ _ _ _) as [[] s]; simpl in *; [|done].
  etrans; [exact Hi|]. destruct (pm_peers s !! _); same_pm.
Qed.

Lemma grows_tick now po bo written pm : pm_grows pm (tick powf proximity max_po now po bo written pm).
Proof.
  unfold tick. set (s1 := purge_stale _ _ _ _ _). assert (H : pm_grows pm s1).
  { subst s1. etrans; [|apply grows_fold; intros; apply grows_remove]. etrans; [|apply grows_fold; intros; apply grows_unban].
    apply grows_fold. intros s o. unfold decay_one. destruct (pm_peers s !! o) as [e|]; [|done].
    destruct (decay_score _ _ _) as [[[]|] e']; same_pm. }
  clearbody s1. etrans; [exact H|]. destruct (pm_store s1); [|done]. case_decide; [done|]. etrans; [|apply grows_snapshot]. same_pm.
Qed.

Lemma pm_grows_step text pm op : pm_grows pm (grow_step text pm op).
Proof.
  unfold pm_step. destruct op as [now []]; simpl;
    [apply grows_fold; intros; apply grows_discovered|apply grows_connected|apply grows_disconnected|apply grows_mismatch|apply grows_report
    |apply grows_latency|apply grows_dial_failure|apply grows_early|apply grows_ban|apply grows_ban|apply grows_tick].
Qed.

(** ** Banned peers are closed *)

Hypothesis Hmax : 0 <= max_po.
Hypothesis Hprox : ∀ a, 0 <= proximity a.

Definition connected s : ProximityIndex := kd_connected (routing s).
Definition routed (o : Z) s : bool := exists_in proximity max_po o (connected s).

(** A ban of the overlay that the behaviour has not received yet. *)
Definition ban_pending (o : Z) s : Prop :=
  ∃ i until cause, (tb_received s <= i)%nat ∧ pm_lifecycle (tb_pm s) !! i = Some (PlBanned o until cause).

Definition announced_ban (o : Z) s : Prop := is_banned o (tb_pm s) = true → ban_pending o s.

Record bans_ok (n : nat) s : Prop := {
  bo_registry : registry_ok n (registry s);
  bo_index : index_ok proximity max_po (connected s);
  bo_banned : ∀ o st, get o (registry s) = Some st → is_active st = true → is_banned o (tb_pm s) = true →
    (is_Some (tb_closes s !! st_peer st) ∧ routed o s = false) ∨ ban_pending o s;
  bo_asked : ∀ p, is_Some (tb_closes s !! p) → ActCloseAll p ∈ tb_actions s;
  bo_local : ∀ p reason, tb_closes s !! p = Some reason → is_locally_initiated reason = true;
  bo_polite : Forall polite (drop (tb_received s) (pm_lifecycle (tb_pm s)));
  bo_received : (tb_received s <= length (pm_lifecycle (tb_pm s)))%nat;
}.

(** Handlers that only close more, route less and keep the manager's promise. *)
Record quiet s s' : Prop := {
  qt_registry : ∀ n, registry_ok n (registry s) → Z.of_nat n <= u64_max →
    registry_ok n (registry s') ∧ ∀ o st, get o (registry s') = Some st → get o (registry s) = Some st;
  qt_index : index_ok proximity max_po (connected s) →
    index_ok proximity max_po (connected s') ∧ ∀ o, routed o s' = true → routed o s = true;
  qt_closes : ∀ p, is_Some (tb_closes s !! p) → is_Some (tb_closes s' !! p);
  qt_asked : ∀ p, is_Some (tb_closes s' !! p) → is_Some (tb_closes s !! p) ∨ ActCloseAll p ∈ tb_actions s';
  qt_local : ∀ p reason, tb_closes s' !! p = Some reason → tb_closes s !! p = Some reason ∨ is_locally_initiated reason = true;
  qt_actions : tb_actions s ⊆ tb_actions s';
  qt_received : tb_received s' = tb_received s;
  qt_manager : pm_grows (tb_pm s) (tb_pm s');
}.

#[local] Instance quiet_refl : Reflexive quiet.
Proof. intros s. by split; auto. Qed.

#[local] Instance quiet_trans : Transitive quiet.
Proof.
  intros a b c [R1 I1 C1 A1 L1 X1 V1 M1] [R2 I2 C2 A2 L2 X2 V2 M2]. split.
  - intros n Hn Hl. destruct (R1 n Hn Hl) as [Hb Gb]. destruct (R2 n Hb Hl) as [Hc Gc]. split; [done|]. eauto.
  - intros Hi. destruct (I1 Hi) as [Hb Gb]. destruct (I2 Hb) as [Hc Gc]. split; [done|]. eauto.
  - eauto.
  - intros p Hp. destruct (A2 p Hp) as [Hb|]; [|by right]. destruct (A1 p Hb) as [|Ha]; [by left|right; by apply X2].
  - intros p reason Hp. destruct (L2 p reason Hp) as [Hb|]; [by apply L1|by right].
  - set_solver.
  - congruence.
  - by etrans.
Qed.

Lemma pending_grows o s s' : tb_received s' = tb_received s → pm_grows (tb_pm s) (tb_pm s') → ban_pending o s → ban_pending o s'.
Proof.
  intros Hr (evs&HL&_&_) (i&u&c&Hi&Hl). exists i, u, c. rewrite Hr, HL. split; [done|]. by apply lookup_app_l_Some.
Qed.

(** A ban that is new is announced. *)
Lemma new_ban o s s' : quiet s s' → (tb_received s <= length (pm_lifecycle (tb_pm s)))%nat →
  is_banned o (tb_pm s') = true → is_banned o (tb_pm s) = true ∨ ban_pending o s'.
Proof.
  intros Hq Hr [Hb]%bool_decide_eq_true. pose proof (qt_manager _ _ Hq) as (evs&HL&_&HB).
  destruct (HB o ltac:(by eexists)) as [?|(u&c&Hin)]; [left; by apply bool_decide_eq_true|right].
  apply list_elem_of_lookup in Hin as [j Hj]. exists (length (pm_lifecycle (tb_pm s)) + j)%nat, u, c.
  rewrite (qt_received _ _ Hq), HL. split; [lia|]. rewrite lookup_app_r by lia. by replace (_ + j - _)%nat with j by lia.
Qed.

Lemma announced_quiet o s s' : quiet s s' → (tb_received s <= length (pm_lifecycle (tb_pm s)))%nat →
  announced_ban o s → announced_ban o s'.
Proof.
  intros Hq Hr Ha Hb. destruct (new_ban o s s' Hq Hr Hb) as [H|]; [|done].
  eapply pending_grows; [apply Hq..|by apply Ha].
Qed.

Lemma bans_ok_quiet n s s' : quiet s s' → Z.of_nat n <= u64_max → bans_ok n s → bans_ok n s'.
Proof.
  intros Hq Hn [Hr Hi Hb Ha Hlo Hpo Hv]. pose proof Hq as [QR QI QC QA QL QX QV (evs&HL&HP&_)].
  destruct (QR n Hr Hn) as [Hr' Hg]. destruct (QI Hi) as [Hi' Hroute].
  split; [done|done| | | |rewrite QV, HL, drop_app_le by done; by apply Forall_app|rewrite QV, HL, length_app; lia].
  - intros o st Hst Hact Hban. destruct (new_ban o s s' Hq Hv Hban) as [Hold|]; [|by right].
    destruct (Hb o st (Hg _ _ Hst) Hact Hold) as [[Hc Hrt]|Hp]; [left|right; by eapply pending_grows; [apply Hq..|]].
    split; [by apply QC|]. destruct (routed o s') eqn:E; [|done]. apply Hroute in E. congruence.
  - intros p Hp. destruct (QA p Hp) as [Hc|]; [|done]. by apply QX, Ha.
  - intros p reason Hp. destruct (QL p reason Hp) as [Hc|]; [by eapply Hlo|done].
Qed.

(** *** The quiet parts of the handlers *)

(** A change of a field that none of this reads. *)
Ltac quiet_field := split; simpl; auto; done.

Lemma quiet_pm f s : (∀ pm, pm_grows pm (f pm)) → quiet s (on_pm f s).
Proof. intros Hf. split; simpl; auto. Qed.

Lemma quiet_net net s : tp_registry net = registry s → kd_connected (tp_routing net) = connected s → quiet s (with_net net s).
Proof.
  intros Hr Hc. split; simpl; auto; [| |done].
  - intros n Hn _. change (registry (with_net net s)) with (tp_registry net). by rewrite Hr.
  - intros Hi. unfold routed, connected in *. change (routing (with_net net s)) with (tp_routing net). by rewrite Hc.
Qed.

Lemma quiet_routing f s : (∀ r, kd_connected (f r) = kd_connected r) → quiet s (on_net (on_routing f) s).
Proof. intros Hf. apply quiet_net; [done|apply Hf]. Qed.

Lemma quiet_act a s : quiet s (act a s).
Proof. split; simpl; auto; [set_solver|done]. Qed.

Lemma quiet_gossip g s : quiet s (to_gossip g s).
Proof. quiet_field. Qed.

Lemma quiet_close p reason s : is_locally_initiated reason = true → quiet s (close_peer p reason s).
Proof.
  intros Hl. split; simpl; auto; [| | |set_solver|done].
  - intros q Hq. destruct (decide (p = q)) as [->|]; [by rewrite lookup_insert_eq|by rewrite lookup_insert_ne].
  - intros q Hq. destruct (decide (p = q)) as [->|]; [right; set_solver|left; by rewrite lookup_insert_ne in Hq].
  - intros q r [[_ <-]|[_ ?]]%lookup_insert_Some; [by right|by left].
Qed.

Lemma quiet_close_overlay o reason s : is_locally_initiated reason = true → quiet s (close_overlay o reason s).
Proof. intros Hl. unfold close_overlay. destruct (resolve_peer_id _ _); [by apply quiet_close|done]. Qed.

Lemma quiet_fold {A} (f : TopologyBehaviour → A → TopologyBehaviour) l : (∀ s a, quiet s (f s a)) → ∀ s, quiet s (foldl f s l).
Proof. intros Hf. induction l as [|a l IH]; intros s; simpl; [done|]. etrans; [apply Hf|apply IH]. Qed.

(** Capacity operations leave the connected peers alone. *)
Lemma reserve_dial_connected o (r : KademliaRouting (B:=B)) : kd_connected (try_reserve_dial proximity max_po o r).2 = kd_connected r.
Proof. unfold try_reserve_dial. destruct (kd_phases r !! o); [done|]. by destruct (needs_more _ _ _ _). Qed.
Lemma dial_connected_connected o (r : KademliaRouting (B:=B)) : kd_connected (Kademlia.dial_connected proximity max_po o r) = kd_connected r.
Proof. unfold Kademlia.dial_connected. by case_decide. Qed.
Lemma completed_connected o (r : KademliaRouting (B:=B)) : kd_connected (Kademlia.handshake_completed proximity max_po o r) = kd_connected r.
Proof. unfold Kademlia.handshake_completed. by case_decide. Qed.
Lemma capacity_gone_connected o (r : KademliaRouting (B:=B)) : kd_connected (Kademlia.disconnected proximity max_po o r) = kd_connected r.
Proof. unfold Kademlia.disconnected. by destruct (kd_phases r !! o) as [[]|]. Qed.
Lemma reserve_inbound_connected o (r : KademliaRouting (B:=B)) : kd_connected (Kademlia.reserve_inbound proximity max_po o r) = kd_connected r.
Proof. unfold Kademlia.reserve_inbound. by destruct (kd_phases r !! o). Qed.
Lemma phase_connected now (r : KademliaRouting (B:=B)) : kd_connected (evaluate_phase max_po now r).2 = kd_connected r.
Proof. unfold evaluate_phase. by destruct (evaluate _ _ _ _). Qed.
Lemma refresh_connected now (r : KademliaRouting (B:=B)) :
  kd_connected (refresh_depth_at max_po recompute_neighborhood_depth low_watermark now r) = kd_connected r.
Proof.
  unfold refresh_depth_at. pose proof (publish_connected max_po recompute_neighborhood_depth low_watermark now r) as H.
  destruct (publish_depth_at _ _ _ _ _) as [[] r']; simpl in *; [by rewrite stability_connected|done].
Qed.

Lemma quiet_release o s : quiet s (release_for o s).
Proof. unfold release_for. destruct o; [by apply quiet_routing|by destruct s as [[]]]. Qed.

Lemma quiet_dial t reason ck s : quiet s (dial t reason ck s).
Proof.
  unfold dial. destruct (target_peer_id t) as [p|]; [|done]. destruct (is_peer_tracked p (tb_net s)); [done|].
  set (res := match target_overlay t with Some o => _ | None => _ end).
  assert (H : quiet s res.2).
  { subst res. destruct (target_overlay t) as [o|]; [|done]. pose proof (reserve_dial_connected o (routing s)) as Hc.
    destruct (try_reserve_dial _ _ _ _) as [ok r]. simpl in *. by apply quiet_net. }
  destruct res as [go s1]. simpl in H. destruct go; simpl; [|done]. etrans; [exact H|]. clear H s. rename s1 into s.
  destruct (prepare_and_start _ _ _ _ _ _ _ _ _) as [r d].
  assert (H : quiet s (with_net (mkTopology d (registry s) (routing s)) s)) by (by apply quiet_net).
  etrans; [exact H|]. destruct r as [[[] ]|[]].
  - etrans; [|apply quiet_act]. case_decide; [quiet_field|done].
  - destruct (target_overlay t) as [o|]; [|done]. etrans; [apply (quiet_release (Some o))|]. apply quiet_pm. intros; apply grows_dial_failure.
  - apply quiet_release.
  - apply quiet_release.
  - apply quiet_release.
Qed.

Lemma quiet_bootnodes bootnodes trusted ck s : quiet s (dial_bootnodes bootnodes trusted ck s).
Proof.
  unfold dial_bootnodes. etrans; [eapply (quiet_fold (λ s a, dial (UnknownTarget a) ForBootnode ck s))|];
    [|apply quiet_fold]; intros; apply quiet_dial.
Qed.

Lemma quiet_connect_bootnodes bootnodes ck s : quiet s (connect_bootnodes bootnodes ck s).
Proof.
  unfold connect_bootnodes. case_decide; [done|]. destruct (_ || _); [quiet_field|apply quiet_bootnodes].
Qed.

Lemma quiet_drain_loop readings : ∀ s s', drain_loop readings s = Some s' → quiet s s'.
Proof.
  induction readings as [|[ck ready] readings IH]; intros s s'; cbn [drain_loop];
    destruct (pop_candidate (tb_queues s)) as [[o|] q]; try done; try (by intros [= <-]).
  assert (Hq : quiet s (with_queues q s)) by quiet_field.
  destruct (last _) as [peer|]; [|by intros H; etrans; [exact Hq|apply IH]].
  destruct (can_advertise_to peer _); cbn [negb]; [|by intros H; etrans; [exact Hq|apply IH]].
  destruct (rl_try_consume_n _ _ _) as [[u|[|wait]] l].
  - intros H. apply IH in H. etrans; [|exact H]. etrans; [|apply quiet_dial]. quiet_field.
  - intros [= <-]. quiet_field.
  - destruct ready.
    + intros H. apply IH in H. etrans; [|exact H]. quiet_field.
    + intros [= <-]. quiet_field.
Qed.

Lemma quiet_drain now readings s s' : drain_candidate_queues now readings s = Some s' → quiet s s'.
Proof.
  unfold drain_candidate_queues. destruct (tb_timer s); [case_decide as Hd|].
  - intros H%quiet_drain_loop. etrans; [|exact H]. quiet_field.
  - by intros [= <-].
  - apply quiet_drain_loop.
Qed.

Lemma quiet_depth order old s : quiet s (publish_change order old s).
Proof.
  unfold publish_change, on_depth_changed, trim_overpopulated_bins. case_decide; [done|].
  set (s1 := to_gossip _ s). assert (H1 : quiet s s1) by quiet_field. etrans; [exact H1|]. case_decide; [|done].
  apply quiet_fold. intros s2 c. unfold trim_one. case_decide; [done|by apply quiet_close_overlay].
Qed.

Lemma quiet_phase ck s : quiet s (refresh_topology_phase ck s).
Proof. apply quiet_routing. intros. apply phase_connected. Qed.

(** Leaving the registry or the routing table. *)
Lemma quiet_unregister p s :
  quiet s (with_net (mkTopology (tp_dials (tb_net s)) (Registry.disconnected p (registry s)).2 (routing s)) s).
Proof.
  split; simpl; auto; [|done]. intros n Hn Hl. change (registry (with_net _ s)) with (Registry.disconnected p (registry s)).2.
  split; [by apply disconnected_ok|]. intros o st. destruct (get_disconnected p (registry s) (ro_maps _ _ Hn)) as [_ ->].
  by case_decide.
Qed.

Lemma quiet_unroute f o s : (∀ r, kd_connected (f r) = (remove proximity max_po o (kd_connected r)).2) →
  quiet s (on_net (on_routing f) s).
Proof.
  intros Hf. split; simpl; auto; [|done]. unfold routed, connected.
  change (routing (on_net (on_routing f) s)) with (f (routing s)). rewrite Hf. intros Hi.
  pose proof (remove_cases proximity max_po Hmax Hprox o _ Hi) as Hr. destruct (remove _ _ o _) as [b i] eqn:E. split; [apply Hr|].
  intros x Hx. apply (exists_in_remove proximity max_po Hmax Hprox o x _ Hi). by rewrite E.
Qed.

Lemma removed_connected o now (r : KademliaRouting (B:=B)) :
  kd_connected (Kademlia.remove_peer proximity max_po o now r) = (remove proximity max_po o (kd_connected r)).2.
Proof. unfold Kademlia.remove_peer. by rewrite stability_connected. Qed.

Lemma quiet_evict o ck s : quiet s (evict_banned o ck s).
Proof. unfold evict_banned. etrans; [|by apply quiet_close_overlay]. apply (quiet_unroute _ o). intros. apply removed_connected. Qed.

Lemma quiet_drop_handshake ck s p : quiet s (drop_handshake ck s p).2.
Proof.
  unfold drop_handshake. pose proof (quiet_unregister p s) as H. destruct (Registry.disconnected p (registry s)) as [st reg]. simpl in H.
  destruct (st ≫= st_id) as [o|]; simpl; [|done]. etrans; [exact H|].
  etrans; [|apply quiet_pm; intros; apply grows_dial_failure]. by apply quiet_routing.
Qed.

(** *** The handlers that register, close and activate *)

Lemma bans_ok_mono n m s : (n <= m)%nat → bans_ok n s → bans_ok m s.
Proof. intros Hn [[H1 H2 H3 H4] Hi Hb Ha Hlo Hpo Hv]. split; [|done..]. split; [done..|lia]. Qed.

(** A registration of a waiting connection. *)
Lemma bans_ok_register n reg s : bans_ok n s → registry_ok (S n) reg →
  (∀ o st, get o reg = Some st → is_active st = true → get o (registry s) = Some st) →
  bans_ok (S n) (with_net (mkTopology (tp_dials (tb_net s)) reg (routing s)) s).
Proof. intros [Hr Hi Hb Ha Hlo Hpo Hv] Hreg Hg. split; [done|done| |done..]. intros o st Hst Hact. apply Hb; [by apply Hg|done]. Qed.

Lemma established_ok n remote p conn ck s : bans_ok n s → Z.of_nat n < u64_max →
  (remote = None → mp_peer_to_key (rg_maps (registry s)) !! p = None) →
  bans_ok (S n) (handle_connection_established remote p conn ck s).
Proof.
  intros Hok Hn Hfresh. unfold handle_connection_established. destruct remote as [addr|].
  - set (s1 := if is_public addr then _ else s). assert (Hq : quiet s s1) by (subst s1; destruct (is_public addr); [quiet_field|done]).
    assert (Hk : bans_ok n s1) by (eapply bans_ok_quiet; [done|lia|done]). clearbody s1. clear Hok Hfresh Hq s. rename s1 into s.
    unfold on_net, established_outbound. destruct (resolve p (tp_dials (tb_net s))) as [[req|] d].
    2: { apply (bans_ok_mono n); [lia|]. by destruct s. }
    set (reg := (connected_outbound _ _ _ _ _ _).2). assert (Hreg : registry_ok (S n) reg).
    { by apply (registry_step_ok None n (registry s) (OpOutbound p conn (rq_id req) (rq_queued_at req) (Some (rq_data req)))), I; [apply Hk|]. }
    assert (Hg : ∀ o st, get o reg = Some st → is_active st = true → get o (registry s) = Some st).
    { subst reg. intros o st. unfold connected_outbound. repeat case_decide; simpl; try done. unfold get. simpl.
      intros [[_ <-]|[_ ?]]%lookup_insert_Some; done. }
    pose proof (bans_ok_register n reg s Hk Hreg Hg) as Hm.
    eapply bans_ok_quiet; [|lia|exact Hm]. apply (quiet_net _ (with_net (mkTopology (tp_dials (tb_net s)) reg (routing s)) s)); simpl.
    + by destruct (rq_id req).
    + destruct (rq_id req); simpl; [apply dial_connected_connected|done].
  - specialize (Hfresh eq_refl). apply bans_ok_register; [done| |].
    + by apply (registry_step_ok None n (registry s) (OpInbound p conn (ck_now ck))); [apply Hok|..].
    + intros o st. by rewrite get_connected_inbound.
Qed.

(** The intent of a close is consumed only when the peer leaves the registry. *)
Lemma bans_ok_consume n p s : bans_ok n s → (∀ o st, get o (registry s) = Some st → st_peer st ≠ p) →
  bans_ok n (with_closes (delete p (tb_closes s)) s).
Proof.
  intros [Hr Hi Hb Ha Hlo Hpo Hv] Hp. split; [done|done| | | |done|done]; simpl.
  - intros o st Hst Hact Hban. rewrite lookup_delete_ne by (symmetry; by eapply Hp). by apply Hb.
  - intros q [r [_ Hq]%lookup_delete_Some]. apply Ha. by exists r.
  - intros q r [_ Hq]%lookup_delete_Some. by eapply Hlo.
Qed.

Lemma closed_ok n p conn remaining cause ck text order s : bans_ok n s → Z.of_nat n <= u64_max →
  bans_ok n (handle_connection_closed p conn remaining cause ck text order s).
Proof.
  intros Hok Hn. unfold handle_connection_closed. set (s1 := with_public_dials _ s).
  assert (H1 : bans_ok n s1) by (eapply (bans_ok_quiet n s); [quiet_field|done|done]). clearbody s1. clear Hok s. rename s1 into s.
  case_decide; [done|]. set (reason := default _ _). clearbody reason.
  pose proof (get_disconnected p (registry s) (ro_maps _ _ (bo_registry _ _ H1))) as [_ Hget].
  pose proof (bans_ok_quiet n _ _ (quiet_unregister p s) Hn H1) as H2.
  apply (bans_ok_consume n p) in H2.
  2: { intros o st Hst E. revert Hst. change (registry (with_net _ s)) with (Registry.disconnected p (registry s)).2.
       rewrite Hget. case_decide as Hd; [done|]. intros Hst. apply Hd. pose proof (bo_registry _ _ H1) as [Hm _ _ _].
       pose proof (mo_peer _ Hm _ _ Hst) as Hk. rewrite E in Hk. unfold get_by_peer_id, get in *. rewrite Hk. simpl.
       rewrite Hst. exact (mo_shape _ Hm _ _ Hst). }
  change (registry (with_reach _ _)) with (registry s).
  destruct (Registry.disconnected p (registry s)) as [removed reg]. simpl in H2.
  set (s2 := to_gossip _ _). assert (H3 : bans_ok n s2) by (eapply (bans_ok_quiet n); [|done|exact H2]; quiet_field).
  clearbody s2. clear H1 H2 Hget s. destruct (removed ≫= st_id) as [o|]; [|done].
  eapply bans_ok_quiet; [|done|exact H3]. etrans; [|apply quiet_phase]. etrans; [|apply quiet_depth].
  etrans; [|apply quiet_pm; intros; apply grows_disconnected].
  etrans; [apply (quiet_routing (Kademlia.disconnected proximity max_po o)); intros; apply capacity_gone_connected|].
  etrans; [apply (quiet_unroute (peer_disconnected proximity max_po recompute_neighborhood_depth low_watermark o (ck_now ck)) o);
    intros; apply routing_disconnected_spec|]. unfold penalize_early.
  destruct (removed ≫= st_connected_at); [|done]. destruct (_ && _); [|done]. apply quiet_pm. intros. apply grows_early.
Qed.

(** A peer is activated under the overlay it was dialled for, if for one. *)
Definition own_overlay (p o : Z) s : Prop :=
  match mp_peer_to_key (rg_maps (registry s)) !! p with Some (Known j) => j = o | _ => True end.

Lemma take_over_ok n p conn o ck s : bans_ok n s → Z.of_nat n < u64_max → own_overlay p o s → announced_ban o s →
  bans_ok (S n) (take_over p conn o ck s) ∧ announced_ban o (take_over p conn o ck s).
Proof.
  intros Hok Hn Hown Hann. pose proof (bo_registry _ _ Hok) as Hr. unfold take_over.
  assert (Hr' : registry_ok (S n) (activate None p conn o (ck_now ck) (registry s)).2).
  { apply activate_ok; [done|lia|]. unfold own_overlay in Hown. simpl. destruct (mp_peer_to_key _ !! p) as [[]|]; [by left|done|done]. }
  destruct (get_activate None p conn o (ck_now ck) (registry s) (ro_maps _ _ Hr) Hown) as [reason Hget].
  destruct (activate None p conn o (ck_now ck) (registry s)) as [res reg]. simpl in Hr', Hget.
  set (s1 := with_net _ s). assert (Hroute : connected s1 = connected s) by apply completed_connected.
  assert (Hann1 : announced_ban o s1) by exact Hann.
  assert (H1 : bans_ok (S n) s1).
  { destruct Hok as [_ Hi Hb Ha Hlo Hpo Hv]. split; [done|by rewrite Hroute| |done..].
    intros x st. change (registry s1) with reg. unfold routed. rewrite Hget, Hroute. case_decide as Hx.
    - subst x. intros _ _ Hban. right. by apply Hann1.
    - apply Hb. }
  clearbody s1. destruct res; [by split|]. pose proof (quiet_act (ActCloseOne old_peer old_conn) s1) as Hq. split.
  - eapply bans_ok_quiet; [done|lia|done].
  - eapply announced_quiet; [done|apply H1|done].
Qed.

Lemma route_ok n o ck s : bans_ok n s → announced_ban o s →
  bans_ok n (on_net (on_routing (peer_connected proximity max_po recompute_neighborhood_depth low_watermark o (ck_now ck))) s).
Proof.
  intros [Hr Hi Hb Ha Hlo Hpo Hv] Hann. set (s' := on_net _ s).
  assert (Hc : connected s' = (add proximity max_po o (connected s)).2) by apply routing_connected_spec.
  pose proof (add_cases proximity max_po Hmax Hprox o _ Hi) as Hadd. pose proof (exists_in_add proximity max_po Hmax Hprox o) as Hex.
  split; [done| | |done..].
  - rewrite Hc. destruct (add _ _ o _) as [res i]. apply Hadd.
  - intros x st Hst Hact Hban. destruct (decide (x = o)) as [->|Hx]; [right; by apply Hann|].
    destruct (Hb x st Hst Hact Hban) as [[Hcl Hrt]|]; [left|by right]. split; [done|].
    unfold routed in *. destruct (exists_in _ _ x (connected s')) eqn:E; [|done]. rewrite Hc, (Hex x _ Hi) in E.
    destruct (add _ _ o _) as [[] i]; simpl in E; naive_solver congruence.
Qed.

Lemma quiet_demote st o ck s : quiet s (demote_mismatch st o ck s).
Proof.
  unfold demote_mismatch. set (s1 := on_net _ s). assert (H : quiet s s1).
  { subst s1. unfold account_mismatch. destruct (st ≫= st_id) as [d|]; [|by destruct s]. case_decide; [by destruct s|].
    apply quiet_routing. intros r. by rewrite reserve_inbound_connected. }
  clearbody s1. etrans; [exact H|]. destruct (st ≫= st_id) as [d|]; [|done]. case_decide; [done|]. apply quiet_pm. intros. apply grows_mismatch.
Qed.

Lemma demote_registry st o ck s : registry (demote_mismatch st o ck s) = registry s.
Proof.
  unfold demote_mismatch, account_mismatch. destruct (st ≫= st_id); [|done]. by case_decide.
Qed.

Lemma handshake_ok n p conn peer t observed others ck text order s :
  bans_ok n s → Z.of_nat (S n) <= u64_max → own_overlay p (overlay_of peer) s →
  bans_ok (S n) (on_handshake_completed p conn peer t observed others ck text order s).
Proof.
  intros Hok Hn Hown. unfold on_handshake_completed. set (o := overlay_of peer) in *. set (st := current_state _ _ _). clearbody st.
  destruct (is_banned o (tb_pm s)) eqn:Hban.
  { apply (bans_ok_mono n); [lia|]. eapply bans_ok_quiet; [by apply quiet_close|lia|done]. }
  set (s1 := on_pm _ s). assert (Hq1 : quiet s s1) by (apply quiet_pm; intros; apply grows_fold; intros; apply pm_grows_step).
  assert (Hann : announced_ban o s) by (intros ?; congruence).
  set (s2 := demote_mismatch st o ck s1). assert (Hq2 : quiet s s2) by (etrans; [exact Hq1|apply quiet_demote]).
  assert (Ho2 : own_overlay p o s2) by (unfold own_overlay, s2; by rewrite demote_registry).
  pose proof (announced_quiet o _ _ Hq2 (bo_received _ _ Hok) Hann) as Hann2.
  pose proof (bans_ok_quiet n _ _ Hq2 ltac:(lia) Hok) as Hok2. clearbody s2. clear Hq1 Hq2 s1 Hann Hok Hown Hban s.
  assert (Hacc : match accept_handshake proximity max_po (default Inbound (st ≫= st_direction)) o (tb_net s2) with
    | Some net => quiet s2 (with_net net s2) ∧ tp_registry net = registry s2 | None => True end).
  { unfold accept_handshake. destruct (default Inbound _); [destruct (should_accept_inbound _ _ _ _); [|done]|].
    - split; [|done]. apply quiet_net; [done|]. apply reserve_inbound_connected.
    - split; [by destruct s2|done]. }
  destruct (accept_handshake _ _ _ _ _) as [net|].
  2: { apply (bans_ok_mono n); [lia|]. eapply bans_ok_quiet; [by apply quiet_close|lia|done]. }
  destruct Hacc as [Hqa Hreg]. pose proof (bans_ok_quiet n _ _ Hqa ltac:(lia) Hok2) as Hok3.
  pose proof (announced_quiet o _ _ Hqa (bo_received _ _ Hok2) Hann2) as Hann3.
  assert (Ho3 : own_overlay p o (with_net net s2)) by (unfold own_overlay; change (registry (with_net net s2)) with (tp_registry net); by rewrite Hreg).
  destruct (take_over_ok n p conn o ck _ Hok3 ltac:(lia) Ho3 Hann3) as [Hok4 Hann4]. set (s4 := take_over _ _ _ _ _) in *. clearbody s4.
  set (sa := on_pm _ s4). assert (Ha : quiet s4 sa) by (apply quiet_pm; intros; apply grows_connected). clearbody sa.
  set (sb := record_connected p conn ck sa). assert (Hb : quiet sa sb) by (unfold sb, record_connected; case_decide; quiet_field). clearbody sb.
  set (s5 := if _ && is_public observed then _ else _). assert (Hq5 : quiet s4 s5).
  { etrans; [exact Ha|]. etrans; [exact Hb|]. unfold s5. destruct (_ && is_public observed); [quiet_field|done]. }
  pose proof (bans_ok_quiet (S n) _ _ Hq5 Hn Hok4) as Hok5. pose proof (announced_quiet o _ _ Hq5 (bo_received _ _ Hok4) Hann4) as Hann5.
  clearbody s5. pose proof (route_ok (S n) o ck s5 Hok5 Hann5) as Hok6. eapply bans_ok_quiet; [|exact Hn|exact Hok6].
  etrans; [apply quiet_depth|]. etrans; [apply quiet_phase|apply quiet_gossip].
Qed.

(** *** Receiving *)

Definition secured (o : Z) s : Prop :=
  (∀ st, get o (registry s) = Some st → is_Some (tb_closes s !! st_peer st)) ∧ routed o s = false.

Lemma secured_quiet n o s s' : quiet s s' → registry_ok n (registry s) → Z.of_nat n <= u64_max →
  index_ok proximity max_po (connected s) → secured o s → secured o s'.
Proof.
  intros [QR QI QC _ _ _ _ _] Hr Hn Hi [Hc Hrt]. destruct (QR n Hr Hn) as [_ Hg]. destruct (QI Hi) as [_ Hroute]. split.
  - intros st Hst. apply QC, Hc, Hg, Hst.
  - destruct (routed o s') eqn:E; [|done]. apply Hroute in E. congruence.
Qed.

Lemma evict_secures o ck s : index_ok proximity max_po (connected s) → secured o (evict_banned o ck s).
Proof.
  intros Hi. unfold evict_banned, close_overlay. set (s1 := on_net _ s).
  assert (Hrt : routed o s1 = false).
  { unfold routed, connected. change (routing s1) with (Kademlia.remove_peer proximity max_po o (ck_now ck) (routing s)).
    rewrite removed_connected. destruct (exists_in _ _ _ _) eqn:E; [|done].
    by apply (exists_in_remove proximity max_po Hmax Hprox o o _ Hi) in E as [? _]. }
  unfold resolve_peer_id. destruct (get o (registry s1)) as [st|] eqn:E; simpl.
  - split; [|exact Hrt]. intros st' Hst'. change (registry (close_peer _ _ s1)) with (registry s1) in Hst'.
    assert (st' = st) as -> by congruence. simpl. by rewrite lookup_insert_eq.
  - split; [|exact Hrt]. intros st. congruence.
Qed.

Lemma evict_same o ck s : registry (evict_banned o ck s) = registry s ∧ tb_pm (evict_banned o ck s) = tb_pm s.
Proof. unfold evict_banned, close_overlay. by destruct (resolve_peer_id _ _). Qed.

Lemma reconcile_secures n ck l : ∀ s, registry_ok n (registry s) → Z.of_nat n <= u64_max → index_ok proximity max_po (connected s) →
  let s' := foldl (λ s o, if is_banned o (tb_pm s) then evict_banned o ck s else s) s l in
  quiet s s' ∧ registry s' = registry s ∧ tb_pm s' = tb_pm s ∧ ∀ o, o ∈ l → is_banned o (tb_pm s) = true → secured o s'.
Proof.
  induction l as [|x l IH]; intros s Hr Hn Hi; cbn [foldl]; [split_and!; [done..|by intros o ?%not_elem_of_nil]|].
  set (s1 := if is_banned x (tb_pm s) then _ else s).
  assert (H1 : quiet s s1 ∧ registry s1 = registry s ∧ tb_pm s1 = tb_pm s ∧ (is_banned x (tb_pm s) = true → secured x s1)).
  { subst s1. destruct (is_banned x (tb_pm s)); [|done]. destruct (evict_same x ck s) as [-> ->].
    split_and!; [apply quiet_evict|done|done|]. intros _. by apply evict_secures. }
  clearbody s1. destruct H1 as (Hq&Hreg&Hpm&Hx). pose proof (qt_index _ _ Hq Hi) as [Hi1 _].
  destruct (IH s1) as (Hq'&Hreg'&Hpm'&Hl); [by rewrite Hreg|done|done|]. rewrite Hreg in Hreg'. rewrite Hpm in Hpm', Hl.
  split_and!; [by etrans|done|done|]. intros o [->|Ho]%elem_of_cons Hb; [|by apply Hl].
  eapply secured_quiet; [exact Hq'|rewrite Hreg; done|done|done|]. by apply Hx.
Qed.

Lemma active_ids_spec o st s : get o (registry s) = Some st → is_active st = true → o ∈ active_ids (registry s).
Proof.
  intros Hst Hact. unfold active_ids. apply list_elem_of_omap. exists (Known o, st).
  split; [by apply elem_of_map_to_list|]. by destruct st.
Qed.

(** A new position of the receiver that leaves no ban behind unhandled. *)
Lemma bans_ok_advance n k s s' : bans_ok n s → Z.of_nat n <= u64_max → quiet (with_received k s) s' →
  registry s' = registry s → tb_pm s' = tb_pm s → (tb_received s <= k <= length (pm_lifecycle (tb_pm s)))%nat →
  (∀ o i until cause st, (tb_received s <= i < k)%nat → pm_lifecycle (tb_pm s) !! i = Some (PlBanned o until cause) →
    get o (registry s) = Some st → is_active st = true → is_banned o (tb_pm s) = true → secured o s') →
  bans_ok n s'.
Proof.
  intros [Hr Hi Hb Ha Hlo Hpo Hv] Hn Hq Hreg Hpm [Hk0 Hk] Hsec. pose proof Hq as [QR QI QC QA QL QX QV _]. destruct (QI Hi) as [Hi' Hroute].
  split; [by rewrite Hreg|done| | | | |rewrite QV, Hpm; done].
  - intros o st. rewrite Hreg, Hpm. intros Hst Hact Hban.
    destruct (Hb o st Hst Hact Hban) as [[Hc Hrt]|(i&u&c&Hle&Hlook)].
    + left. split; [by apply QC|]. destruct (routed o s') eqn:E; [|done]. apply Hroute in E. change (routed o s = true) in E. congruence.
    + destruct (decide (i < k)%nat) as [Hik|Hik].
      * left. destruct (Hsec o i u c st) as [Hc Hrt]; [lia|done..|]. split; [|done]. apply Hc. by rewrite Hreg.
      * right. exists i, u, c. rewrite QV, Hpm. simpl. split; [lia|done].
  - intros p Hp. destruct (QA p Hp) as [Hc|]; [|done]. by apply QX, Ha.
  - intros p reason Hp. destruct (QL p reason Hp) as [Hc|]; [by eapply Hlo|done].
  - rewrite QV, Hpm. cbn [with_received tb_received]. replace k with (tb_received s + (k - tb_received s))%nat by lia.
    rewrite <-drop_drop. by apply Forall_drop.
Qed.

Lemma receive_ok n ck s s' : bans_ok n s → Z.of_nat n <= u64_max → lifecycle_recv ck s = Some s' → bans_ok n s'.
Proof.
  intros Hok Hn. pose proof (bo_registry _ _ Hok) as Hr. pose proof (bo_index _ _ Hok) as Hi. unfold lifecycle_recv.
  case_decide as Hlag.
  - intros [= <-]. set (k := (_ - _)%nat). unfold reconcile_banned_connections.
    destruct (reconcile_secures n ck (active_ids (registry (with_received k s))) (with_received k s)) as (Hq&Hreg&Hpm&Hsec); [done..|].
    eapply (bans_ok_advance n k); [done|done|exact Hq|done|done|unfold k; lia|].
    intros o i u c st _ _ Hst Hact Hban. apply Hsec; [by eapply active_ids_spec|done].
  - destruct (pm_lifecycle (tb_pm s) !! tb_received s) as [ev|] eqn:E; [|done]. intros [= <-].
    pose proof (lookup_lt_Some _ _ _ E) as Hlt. set (s1 := with_received _ s).
    assert (Hpolite : polite ev) by (eapply (Forall_lookup_1 _ _ 0); [apply Hok|by rewrite lookup_drop, Nat.add_0_r]).
    assert (Hq : quiet s1 (on_lifecycle_event ev ck s1)) by (destruct ev; simpl; try done; [by apply quiet_close_overlay|apply quiet_evict]).
    assert (Hsame : registry (on_lifecycle_event ev ck s1) = registry s ∧ tb_pm (on_lifecycle_event ev ck s1) = tb_pm s).
    { destruct ev; try done; [simpl; unfold close_overlay; by destruct (resolve_peer_id _ _)|apply (evict_same overlay ck s1)]. }
    eapply (bans_ok_advance n (S (tb_received s))); [done|done|exact Hq|apply Hsame|apply Hsame|lia|].
    intros o i u c st Hle Hlook _ _ _. assert (i = tb_received s) as -> by lia. rewrite E in Hlook. injection Hlook as ->.
    by apply evict_secures.
Qed.

(** *** Histories *)

(** An inbound connection is its peer's first, and a peer asserts the overlay it
    was dialled for. *)
Definition event_ok s (e : Clock * BehaviourEvent) : Prop :=
  match e.2 with
  | EvEstablished None p _ => mp_peer_to_key (rg_maps (registry s)) !! p = None
  | EvHandshake p _ peer _ _ _ _ _ => own_overlay p (overlay_of peer) s
  | _ => True
  end.

Fixpoint events_ok s (es : list (Clock * BehaviourEvent)) : Prop :=
  match es with [] => True | e :: es => event_ok s e ∧ events_ok (behaviour_step s e) es end.

Lemma quiet_cleanup dial_order ck s : quiet s (cleanup_stale_pending dial_order ck s).
Proof.
  unfold cleanup_stale_pending. destruct (cleanup_expired _ _ _) as [[expired timed_out] d].
  set (s1 := with_net _ s). assert (H1 : quiet s s1) by (by apply quiet_net). etrans; [exact H1|]. clearbody s1.
  set (s2 := foldl _ s1 timed_out). assert (H2 : quiet s1 s2).
  { apply quiet_fold. intros s3 req. unfold drop_stale_dial. destruct (rq_id req) as [o|]; [|done].
    etrans; [apply (quiet_release (Some o))|]. apply quiet_pm. intros. apply grows_dial_failure. }
  etrans; [exact H2|]. clearbody s2. apply (quiet_fold (λ s p, (drop_handshake ck s p).2)). intros. apply quiet_drop_handshake.
Qed.

Lemma quiet_handshake_failed p error ck text s : quiet s (on_handshake_failed p error ck text s).
Proof.
  unfold on_handshake_failed. set (s1 := if is_peer_fault error then _ else s).
  assert (H1 : quiet s s1) by (subst s1; destruct (is_peer_fault error); [quiet_field|done]). clearbody s1.
  pose proof (quiet_drop_handshake ck s1 p) as H2. destruct (drop_handshake ck s1 p) as [[o|] s2]; simpl in H2; [|by etrans].
  etrans; [exact H1|]. etrans; [exact H2|]. destruct (is_peer_fault error); [|done]. apply quiet_pm. intros. apply grows_report.
Qed.

Lemma quiet_dial_failure p error ck text s : quiet s (handle_dial_failure p error ck text s).
Proof.
  unfold handle_dial_failure. destruct p as [p|]; [|done]. destruct (resolve _ _) as [[req|] d]; [|done].
  set (s1 := with_net _ s). assert (H1 : quiet s s1) by (by apply quiet_net). clearbody s1. etrans; [exact H1|].
  destruct (rq_id req) as [o|]; [|done]. etrans; [apply (quiet_release (Some o))|].
  etrans; [apply quiet_pm; intros; apply (grows_dial_failure (ck_secs ck) o)|].
  destruct (scoring_event_for_dial_error _); [|done]. apply quiet_pm. intros. apply grows_report.
Qed.

Lemma quiet_hive p peers s : quiet s (on_hive_event p peers s).
Proof.
  unfold on_hive_event. destruct (on_hive_peers_received _ _ _ _ _ _ _) as [received rotate].
  set (s1 := match received with Some _ => _ | None => s end). assert (H1 : quiet s s1).
  { subst s1. destruct received as [[]|]; [apply quiet_gossip|done]. }
  clearbody s1. etrans; [exact H1|]. destruct rotate; [by apply quiet_close|done].
Qed.

Lemma quiet_command c ck s : quiet s (on_command c ck s).
Proof.
  destruct c; simpl.
  - apply quiet_connect_bootnodes.
  - apply quiet_dial.
  - by apply quiet_close_overlay.
  - etrans; [|apply quiet_evict]. apply quiet_pm. intros. apply grows_ban.
  - apply quiet_pm. intros. apply grows_snapshot.
Qed.

Lemma quiet_ping p rtt ck s : quiet s (on_ping_result p rtt ck s).
Proof.
  unfold on_ping_result. destruct rtt as [rtt|]; [|quiet_field]. set (s1 := with_reach _ s). assert (H1 : quiet s s1) by quiet_field.
  clearbody s1. etrans; [exact H1|]. destruct (resolve_id _ _); [|done]. apply quiet_pm. intros. apply grows_latency.
Qed.

Lemma quiet_listen addr shuffled ck s : quiet s (on_listen addr shuffled ck s).
Proof.
  unfold on_listen. destruct (on_new_listen_addr _ _) as [known l]. set (s1 := with_local _ s). assert (H1 : quiet s s1) by quiet_field.
  clearbody s1. etrans; [exact H1|]. destruct known; [apply quiet_connect_bootnodes|done].
Qed.

Lemma behaviour_step_ok n s e : bans_ok n s → Z.of_nat (S n) <= u64_max → event_ok s e → bans_ok (S n) (behaviour_step s e).
Proof.
  intros Hok Hn He. assert (Hquiet : ∀ s', quiet s s' → bans_ok (S n) s').
  { intros s' Hq. apply (bans_ok_mono n); [lia|]. eapply bans_ok_quiet; [done|lia|done]. }
  destruct e as [ck []]; unfold behaviour_step; cbn [fst snd]; unfold event_ok in He; cbn [snd] in He.
  - apply Hquiet, quiet_pm. intros. apply pm_grows_step.
  - apply established_ok; [done|lia|]. by intros ->.
  - apply (bans_ok_mono n); [lia|]. apply closed_ok; [done|lia].
  - apply Hquiet, quiet_dial_failure.
  - apply Hquiet. etrans; [apply quiet_cleanup|]. unfold refresh_published_depth. etrans; [|apply quiet_depth].
    apply quiet_routing. intros. apply refresh_connected.
  - by apply handshake_ok.
  - apply Hquiet, quiet_handshake_failed.
  - apply Hquiet, quiet_ping.
  - apply Hquiet, quiet_hive.
  - apply Hquiet, quiet_command.
  - apply Hquiet. unfold on_resolved. destruct (tb_resolving s); [|done]. etrans; [|apply quiet_bootnodes]. quiet_field.
  - apply Hquiet. quiet_field.
  - apply Hquiet. destruct (drain_candidate_queues _ _ _) eqn:E; [by eapply quiet_drain|done].
  - apply (bans_ok_mono n); [lia|]. destruct (lifecycle_recv ck s) eqn:E; [eapply receive_ok; [exact Hok|lia|exact E]|done].
  - apply Hquiet, quiet_listen.
  - apply Hquiet. quiet_field.
  - apply Hquiet. quiet_field.
  - apply Hquiet. quiet_field.
  - apply Hquiet. quiet_field.
Qed.

Lemma behaviour_run_ok es : ∀ n s, bans_ok n s → Z.of_nat n + Z.of_nat (length es) <= u64_max → events_ok s es →
  bans_ok (n + length es) (run behaviour_step s es).
Proof.
  induction es as [|e es IH]; intros n s Hok Hn He; simpl in *; [by rewrite Nat.add_0_r|]. destruct He as [He Hes].
  replace (n + S (length es))%nat with (S n + length es)%nat by lia. apply IH; [|lia|done]. apply behaviour_step_ok; [done|lia|done].
Qed.

(** *** Catching up *)

(** How far the receiver is behind. *)
Definition behind s : nat := length (pm_lifecycle (tb_pm s)) - tb_received s.

Lemma receive_progress ck s : (0 < behind s)%nat → ∃ s', lifecycle_recv ck s = Some s' ∧ tb_pm s' = tb_pm s ∧
  behind s' = if decide (LIFECYCLE_CHANNEL_CAPACITY < behind s)%nat then LIFECYCLE_CHANNEL_CAPACITY else (behind s - 1)%nat.
Proof.
  unfold behind. intros Hb. unfold lifecycle_recv. case_decide as Hlag.
  - rewrite decide_True by lia. eexists. split; [done|]. set (s1 := with_received _ s). unfold reconcile_banned_connections.
    assert (H : ∀ l s2, tb_pm (foldl (λ s o, if is_banned o (tb_pm s) then evict_banned o ck s else s) s2 l) = tb_pm s2 ∧
      tb_received (foldl (λ s o, if is_banned o (tb_pm s) then evict_banned o ck s else s) s2 l) = tb_received s2).
    { induction l as [|x l IH]; intros s2; cbn [foldl]; [done|]. destruct (IH (if is_banned x (tb_pm s2) then evict_banned x ck s2 else s2)) as [-> ->].
      destruct (is_banned x (tb_pm s2)); [|done]. unfold evict_banned, close_overlay. by destruct (resolve_peer_id _ _). }
    destruct (H (active_ids (registry s1)) s1) as [-> ->]. split; [done|]. unfold s1. cbn [tb_received with_received tb_pm]. lia.
  - rewrite decide_False by lia. destruct (lookup_lt_is_Some_2 (pm_lifecycle (tb_pm s)) (tb_received s)) as [ev E]; [lia|]. rewrite E.
    eexists. split; [done|]. set (s1 := with_received _ s).
    assert (H : tb_pm (on_lifecycle_event ev ck s1) = tb_pm s ∧ tb_received (on_lifecycle_event ev ck s1) = S (tb_received s)).
    { destruct ev; simpl; try done; unfold evict_banned, close_overlay; by destruct (resolve_peer_id _ _). }
    destruct H as [-> ->]. split; [done|]. lia.
Qed.

Lemma drain_lifecycle_total n readings : ∀ s, bans_ok n s → Z.of_nat n <= u64_max →
  ((if decide (LIFECYCLE_CHANNEL_CAPACITY < behind s) then S LIFECYCLE_CHANNEL_CAPACITY else behind s) <= length readings)%nat →
  ∃ s', drain_lifecycle readings s = Some s' ∧ bans_ok n s' ∧ behind s' = 0%nat ∧ tb_pm s' = tb_pm s.
Proof.
  induction readings as [|ck readings IH]; intros s Hok Hn Hlen; cbn [drain_lifecycle].
  - assert (behind s = 0)%nat by (case_decide; cbn [length] in *; lia). exists s. rewrite decide_True; [done|]. unfold behind in *. lia.
  - destruct (decide (length (pm_lifecycle (tb_pm s)) <= tb_received s)%nat) as [Hd|Hd];
      [exists s; unfold behind; split_and!; [done|done|lia|done]|].
    destruct (receive_progress ck s) as (s1&Hs1&Hpm&Hbeh); [unfold behind; lia|]. rewrite Hs1. cbn [mbind option_bind].
    destruct (IH s1) as (s'&H1&H2&H3&H4); [by eapply receive_ok|done| |exists s'; split_and!; [done..|congruence]].
    rewrite Hbeh. cbn [length] in Hlen. repeat case_decide; lia.
Qed.

(** A behaviour without connections that has just subscribed. *)
Lemma behaviour_start_ok s0 : registry s0 = registry_new → tb_closes s0 = ∅ → index_ok proximity max_po (connected s0) →
  tb_received s0 = length (pm_lifecycle (tb_pm s0)) → bans_ok 0 s0.
Proof.
  intros Hreg Hcl Hi Hrec. split; [rewrite Hreg; apply registry_new_ok|done| | | |by rewrite Hrec, drop_ge|lia].
  - intros o st. rewrite Hreg. unfold get. simpl. by rewrite lookup_empty.
  - intros p. rewrite Hcl, lookup_empty. by intros [].
  - intros p reason. by rewrite Hcl, lookup_empty.
Qed.


(** ** Who closed *)

(** The close is the peer's, early, of a peer that did nothing useful. *)
Definition blamed (reason : DisconnectReason) (connected_at : option Z) (o now : Z) pm : bool :=
  match connected_at with
  | Some t => negb (is_locally_initiated reason) && bool_decide (Z.max 0 (now - t) < early_disconnect_threshold) &&
              negb (is_some_and was_productive_since_connect (pm_peers pm !! o))
  | None => false
  end.

Lemma depth_pm order old s : tb_pm (publish_change order old s) = tb_pm s.
Proof.
  unfold publish_change, on_depth_changed, trim_overpopulated_bins. case_decide; [done|]. case_decide; [|done].
  set (s1 := to_gossip _ s). change (tb_pm s) with (tb_pm s1). generalize (victims order s1) as l. generalize s1 as s2. clear.
  intros s2 l. revert s2. induction l as [|c l IH]; intros s2; simpl; [done|]. rewrite IH. unfold trim_one, close_overlay.
  case_decide; [done|]. by destruct (resolve_peer_id _ _).
Qed.

Lemma closed_manager p conn remaining cause ck text order st o s : remaining <= 0 → maps_ok (rg_maps (registry s)) →
  get_by_peer_id p (registry s) = Some st → st_id st = Some o →
  let reason := default (reason_of_cause cause) (tb_closes s !! p) in
  let blame := blamed reason (st_connected_at st) o (ck_now ck) (tb_pm s) in
  tb_pm (handle_connection_closed p conn remaining cause ck text order s) =
  on_peer_disconnected o reason
    (if blame then record_early_disconnect (ck_secs ck) o (Z.max 0 (ck_now ck - default 0 (st_connected_at st))) text (tb_pm s) else tb_pm s).
Proof.
  intros Hrem Hm Hst Ho reason blame. unfold handle_connection_closed. rewrite decide_False by lia. fold reason.
  destruct (get_disconnected p (registry s) Hm) as [Hrm _]. change (registry (with_reach _ _)) with (registry s).
  change (tb_closes (with_public_dials _ s) !! p) with (tb_closes s !! p). fold reason.
  destruct (Registry.disconnected p (registry s)) as [removed reg]. simpl in Hrm. rewrite Hrm, Hst. cbn [mbind option_bind]. rewrite Ho.
  unfold refresh_topology_phase. cbn [tb_pm on_net with_net]. rewrite depth_pm. cbn [tb_pm on_pm with_pm]. f_equal.
  unfold penalize_early, blame, blamed. destruct (st_connected_at st) as [t|]; [|done].
  cbn [tb_pm on_net with_net to_gossip with_reach with_closes with_public_dials default]. by destruct (_ && _).
Qed.


(** ** Trimming *)

(** The connection a candidate of the routing table loses. *)
Definition trimmed s (c : EvictionCandidate) : option Z :=
  if decide (trust_level (ec_overlay c) (tb_pm s) = TrustTrusted) then None else resolve_peer_id (ec_overlay c) (registry s).

(** Trimming closes the connections of the candidates that are not trusted, in the
    order the routing table ranks them.  A trusted candidate has nobody closed in its
    place. *)
Theorem trim_spares_trusted order s :
  tb_actions (trim_overpopulated_bins order s) = tb_actions s ++ (ActCloseAll <$> omap (trimmed s) (victims order s)).
Proof.
  unfold trim_overpopulated_bins. generalize (victims order s) as l.
  assert (H : ∀ l s1, tb_pm s1 = tb_pm s → registry s1 = registry s →
    tb_actions (foldl trim_one s1 l) = tb_actions s1 ++ (ActCloseAll <$> omap (trimmed s) l)); [|intros l; by apply H].
  induction l as [|c l IH]; intros s1 Hpm Hreg; simpl; [by rewrite app_nil_r|].
  unfold trim_one at 2. unfold trimmed at 1. unfold close_overlay. rewrite Hpm, Hreg. case_decide; [by apply IH|].
  destruct (resolve_peer_id _ _) as [p|]; [|by apply IH]. rewrite IH by done. simpl. by rewrite <-app_assoc.
Qed.

(** ** The drain is paced *)

(** A candidate the drain would dial. *)
Definition fit (ck : Clock) (o : Z) s : bool :=
  match last (get_dialable_peers (ck_secs ck) [o] (tb_pm s)) with Some peer => can_advertise_to peer s | None => false end.

(** A dial of the stored record of an overlay, at addresses this node can dial. *)
Definition dials_record (o : Z) s (a : SwarmAction) : Prop :=
  ∃ e p addrs, pm_peers (tb_pm s) !! o = Some e ∧ target_peer_id (KnownTarget (pe_peer e)) = Some p ∧ a = ActDial p addrs ∧ addrs ≠ [] ∧
    Forall (λ x, x ∈ multiaddrs (pe_peer e) ∧ can_dial v4_contains v6_contains (dial_capability s) x (tb_subnets s) = true) addrs.

(** What a dial of a record leaves alone. *)
Record dialled (o : Z) s s' : Prop := {
  da_queues : tb_queues s' = tb_queues s;
  da_rate : tb_dial_rate s' = tb_dial_rate s;
  da_timer : tb_timer s' = tb_timer s;
  da_local : tb_local s' = tb_local s;
  da_subnets : tb_subnets s' = tb_subnets s;
  da_banned : pm_banned_set (tb_pm s') = pm_banned_set (tb_pm s);
  da_peers : ∀ x, x ≠ o → pm_peers (tb_pm s') !! x = pm_peers (tb_pm s) !! x;
  da_record : ∀ e', pm_peers (tb_pm s') !! o = Some e' → ∃ e, pm_peers (tb_pm s) !! o = Some e ∧ pe_peer e' = pe_peer e;
}.

Lemma failure_peers now o pm x : pm_banned_set (pm_record_dial_failure now o pm) = pm_banned_set pm ∧
  (x ≠ o → pm_peers (pm_record_dial_failure now o pm) !! x = pm_peers pm !! x) ∧
  (∀ e', pm_peers (pm_record_dial_failure now o pm) !! x = Some e' → ∃ e, pm_peers pm !! x = Some e ∧ pe_peer e' = pe_peer e).
Proof.
  unfold pm_record_dial_failure. destruct (pm_peers pm !! o) as [e|] eqn:E; [|split_and!; [done|done|eauto]].
  set (pm1 := set_entry _ _ pm). set (pm2 := on_health_changed _ _ pm1).
  assert (H : pm_peers pm2 = pm_peers pm1 ∧ pm_banned_set pm2 = pm_banned_set pm1) by (unfold pm2, on_health_changed; by case_decide).
  destruct H as [-> ->]. unfold pm1. simpl. split_and!; [done|intros; by rewrite lookup_insert_ne|].
  intros e' [[<- <-]|[_ ?]]%lookup_insert_Some; [by exists e|eauto].
Qed.

Lemma prepared_addrs addrs keep sorted factor : prepare_filtered ip_version addrs keep = Some (sorted, factor) →
  sorted ≠ [] ∧ Forall (λ x, x ∈ addrs ∧ keep x = true) sorted.
Proof.
  unfold prepare_filtered. set (l := _ ++ _ ++ _). intros H. assert (sorted = l ∧ l ≠ []) as [-> Hl] by (destruct l; by simplify_eq).
  split; [done|]. apply Forall_forall. intros x Hx. unfold l in Hx.
  rewrite !elem_of_app, !list_elem_of_filter in Hx. destruct Hx as [(_&H1&?)|[(_&H1&?)|(_&H1&?)]]; (split; [done|]); by apply Is_true_true.
Qed.

Lemma dial_known peer ck s o e : pm_peers (tb_pm s) !! o = Some e → pe_peer e = peer → overlay_of peer = o →
  let s' := dial (KnownTarget peer) ForDiscovery ck s in
  dialled o s s' ∧ (tb_actions s' = tb_actions s ∨ ∃ a, tb_actions s' = tb_actions s ++ [a] ∧ dials_record o s a).
Proof.
  intros He Hpeer Ho s'. assert (Hrefl : ∀ net g a, let s1 := mkBehaviour net (tb_pm s) (tb_queues s) (tb_local s) (tb_subnets s) (tb_reach s)
    (tb_dial_rate s) (tb_timer s) (tb_resolving s) (tb_closes s) (tb_public_dials s) (tb_received s) a g in dialled o s s1).
  { intros net g a. split; simpl; eauto. }
  unfold s', dial. destruct (target_peer_id (KnownTarget peer)) as [p|] eqn:Ep; [|split; [by destruct s; apply Hrefl|by left]].
  destruct (is_peer_tracked p (tb_net s)); [split; [by destruct s; apply Hrefl|by left]|].
  cbn [target_overlay target_addrs]. destruct (try_reserve_dial _ _ _ _) as [ok r]. destruct ok; cbn [negb]; [|split; [apply Hrefl|by left]].
  set (s1 := on_net _ s). destruct (prepare_and_start _ _ _ _ _ _ _ _ _) as [res d] eqn:E.
  assert (Hok : ∀ q addrs f, res = Ok (q, addrs, f) → addrs ≠ [] ∧ Forall (λ x, x ∈ multiaddrs peer ∧
    can_dial v4_contains v6_contains (dial_capability s) x (tb_subnets s) = true) addrs).
  { intros q addrs f ->. unfold prepare_and_start in E. destruct (check_id _ _ _) as [[u|[]] d1]; [|done|done].
    destruct (is_tracked _ _ _); [done|]. destruct (prepare_filtered _ _ _) as [[sorted factor]|] eqn:Ef; [|done].
    apply prepared_addrs in Ef. by simplify_eq. }
  clear E. destruct res as [[[q addrs] f]|err].
  - rewrite decide_True by done. split; [apply Hrefl|]. right. exists (ActDial p addrs). split; [done|].
    destruct (Hok q addrs f eq_refl). exists e, p, addrs. by rewrite Hpeer.
  - destruct err; try (split; [apply Hrefl|by left]). rewrite Ho. split; [|by left].
    split; try done; simpl; [apply (failure_peers (ck_secs ck) o (tb_pm s) o)|..].
    + intros x Hx. by apply (failure_peers (ck_secs ck) o (tb_pm s) x).
    + apply failure_peers.
Qed.

Abbreviation pending s := (cq_pending (tb_queues s)).
Abbreviation qs_ok := (queues_ok proximity max_po).

Lemma pop_pending q o q' : qs_ok q → pop_candidate q = (Some o, q') →
  o ∈ cq_pending q ∧ cq_pending q' = cq_pending q ∖ {[o]} ∧ cq_max_per_bin q' = cq_max_per_bin q ∧
  ∀ queue, cq_bins q' !! Z.to_nat (bin_for proximity max_po o) = Some queue → Z.of_nat (length queue) < cq_max_per_bin q.
Proof.
  intros [Hb Hq Hp]. unfold pop_candidate, pop_next. pose proof (pop_deepest_spec (cq_bins q)) as Hs.
  destruct (pop_deepest _) as [[p bins]|]; [|done]. intros [= -> <-]. destruct Hs as (n&queue&E&->&_).
  destruct (Hq _ _ E) as (_&Hlen&Hmem). pose proof (Hmem o ltac:(left)) as Hn. subst n. cbn [cq_pending cq_max_per_bin cq_bins].
  split_and!; [apply Hp; eexists; split; [exact E|left]|done|done|]. intros k Hk.
  rewrite list_lookup_insert_eq in Hk by (by eapply lookup_lt_Some). injection Hk as <-. simpl in Hlen. lia.
Qed.

Lemma pop_empty q q' : qs_ok q → pop_candidate q = (None, q') → cq_pending q = ∅.
Proof.
  intros [Hb Hq Hp]. unfold pop_candidate, pop_next. pose proof (pop_deepest_spec (cq_bins q)) as Hs.
  destruct (pop_deepest _) as [[p bins]|]; [done|]. intros _. apply set_eq. intros o. rewrite Hp. split; [|set_solver].
  intros (queue&E&Hin). destruct (Hs (Z.to_nat (bin_for proximity max_po o))); simplify_eq; by apply not_elem_of_nil in Hin.
Qed.

(** A candidate that was popped finds its place again. *)
Lemma requeue_popped q o q' : 0 <= cq_max_per_bin q → qs_ok q → pop_candidate q = (Some o, q') →
  qs_ok (requeue_candidate proximity max_po o q') ∧ cq_pending (requeue_candidate proximity max_po o q') = cq_pending q ∧
  cq_max_per_bin (requeue_candidate proximity max_po o q') = cq_max_per_bin q.
Proof.
  intros Hc Hq Hpop. destruct (pop_pending q o q' Hq Hpop) as (Ho&Hp&Hm&Hroom). pose proof (pop_candidate_ok _ _ q o q' Hq Hpop) as Hq'.
  destruct (requeue_candidate_ok proximity max_po Hmax Hprox q' o) as [H1 H2]; [lia|done|]. split_and!; [done| |congruence].
  unfold requeue_candidate, push_candidate, queue_push. rewrite decide_False by (rewrite Hp; set_solver).
  destruct (cq_bins q' !! _) as [queue|] eqn:E.
  2: { exfalso. apply lookup_ge_None in E. rewrite (qo_bins _ _ _ Hq') in E. pose proof (Hprox o). unfold num_bins, bin_for in E. lia. }
  specialize (Hroom queue eq_refl). rewrite (evict_oldest_spec proximity max_po Hmax Hprox) by lia. cbn [snd cq_pending].
  replace (length (queue ++ [o]) - Z.to_nat (cq_max_per_bin q'))%nat with 0%nat by (rewrite length_app; simpl; lia).
  rewrite Hp. simpl. apply set_eq. intros x. destruct (decide (x = o)) as [->|]; set_solver.
Qed.

Record drained (readings : list (Clock * bool)) s s' (tried : list Z) : Prop := {
  dr_queues : qs_ok (tb_queues s');
  dr_kept : pending s' ⊆ pending s;
  dr_once : NoDup tried;
  dr_tried : ∀ o, o ∈ tried → o ∈ pending s ∧ o ∉ pending s' ∧ ∃ ck ready, (ck, ready) ∈ readings ∧ fit ck o s = true;
  dr_lost : ∀ o, o ∈ pending s → o ∈ pending s' ∨ o ∈ tried ∨ ∃ ck ready, (ck, ready) ∈ readings ∧ fit ck o s = false;
  dr_actions : ∃ acts, tb_actions s' = tb_actions s ++ acts ∧ (length acts <= length tried)%nat ∧
    Forall (λ a, ∃ o, o ∈ tried ∧ dials_record o s a) acts;
  dr_end : pending s' = ∅ ∨ ∃ ck wait, (ck, false) ∈ readings ∧ 0 < wait ∧ tb_timer s' = Some (ck_now ck + wait);
}.

(** What the bucket has granted. *)
Definition paid (a b : Z) (l l' : RateLimiter) (k : nat) : Prop :=
  (k = 0%nat ∧ l' = l) ∨
  (rl_cell l' = rl_cell l ∧ Z.max a (rl_tat l) + t_nanos (rl_cell l) * Z.of_nat k <= rl_tat l' <= b + tau_nanos (rl_cell l)).

Definition rate_ok (b : Z) (l : RateLimiter) : Prop :=
  0 < t_nanos (rl_cell l) ∧ fits (rl_cell l) 1 ∧ 0 <= rl_tat l <= u64_max ∧ b + tau_nanos (rl_cell l) < u64_max.

Definition times (readings : list (Clock * bool)) : list (Z * bool) := (λ r, (ck_now r.1, r.2)) <$> readings.
Definition ready_rounds (readings : list (Clock * bool)) : nat := length (filter (λ r, r.2 = true) readings).

Definition records_ok pm : Prop := ∀ o e, pm_peers pm !! o = Some e → overlay_of (pe_peer e) = o.

Lemma dialable_one ck o s peer : last (get_dialable_peers (ck_secs ck) [o] (tb_pm s)) = Some peer →
  ∃ e, pm_peers (tb_pm s) !! o = Some e ∧ pe_peer e = peer.
Proof.
  unfold get_dialable_peers. simpl. destruct (not_banned _ _); [|done]. destruct (pm_peers _ !! o) as [e|]; [|done].
  destruct (is_dialable _ e); [|done]. intros [= <-]. eauto.
Qed.

Lemma fit_same ck o s s' : tb_local s' = tb_local s → tb_subnets s' = tb_subnets s → pm_banned_set (tb_pm s') = pm_banned_set (tb_pm s) →
  pm_peers (tb_pm s') !! o = pm_peers (tb_pm s) !! o → fit ck o s' = fit ck o s.
Proof.
  intros Hl Hs Hb Hp. unfold fit, get_dialable_peers, not_banned. simpl. rewrite Hb, Hp.
  assert (H : ∀ peer, can_advertise_to peer s' = can_advertise_to peer s) by (intros; unfold can_advertise_to; by rewrite Hl, Hs).
  by destruct (last _).
Qed.

Lemma record_same o s s' a : tb_local s' = tb_local s → tb_subnets s' = tb_subnets s →
  pm_peers (tb_pm s') !! o = pm_peers (tb_pm s) !! o → dials_record o s' a → dials_record o s a.
Proof. intros Hl Hs Hp (e&p&addrs&H). exists e, p, addrs. unfold dial_capability in *. by rewrite Hl, Hs, Hp in H. Qed.

(** Rounds that spend nothing: a candidate dropped, or put back. *)
Lemma drained_skip ck ready readings s s1 s' tried : tb_pm s1 = tb_pm s → tb_local s1 = tb_local s → tb_subnets s1 = tb_subnets s →
  tb_actions s1 = tb_actions s → pending s1 ⊆ pending s → (∀ o, o ∈ pending s → o ∈ pending s1 ∨ fit ck o s = false) →
  drained readings s1 s' tried → drained ((ck, ready) :: readings) s s' tried.
Proof.
  intros Hpm Hl Hs Ha Hsub Hlost [H1 H2 H3 H4 H5 H6 H7].
  assert (Hfit : ∀ c o, fit c o s1 = fit c o s) by (intros; apply fit_same; [done|done|by rewrite Hpm|by rewrite Hpm]). split.
  - done.
  - set_solver.
  - done.
  - intros o Ho. destruct (H4 o Ho) as (?&?&c&r&?&Hf). rewrite Hfit in Hf. split_and!; [set_solver|done|]. exists c, r. set_solver.
  - intros o Ho. destruct (Hlost o Ho) as [Ho1|]; [|right; right; exists ck, ready; set_solver].
    destruct (H5 o Ho1) as [|[|(c&r&?&Hf)]]; [by left|right; by left|]. rewrite Hfit in Hf. right; right. exists c, r. set_solver.
  - destruct H6 as (acts&E&?&Hacts). exists acts. rewrite E, Ha. split_and!; [done..|]. eapply Forall_impl; [exact Hacts|].
    intros a (o&?&Hd). exists o. split; [done|]. eapply record_same; [done|done|by rewrite Hpm|done].
  - destruct H7 as [|(c&w&?&?)]; [by left|right]. exists c, w. set_solver.
Qed.

Lemma drained_dial ck ready readings s s1 s' o tried :
  o ∈ pending s → pending s1 = pending s ∖ {[o]} → fit ck o s = true →
  dialled o (with_rate (tb_dial_rate s1) (tb_timer s) (with_queues (tb_queues s1) s)) s1 →
  (tb_actions s1 = tb_actions s ∨ ∃ a, tb_actions s1 = tb_actions s ++ [a] ∧ dials_record o s a) →
  drained readings s1 s' tried → drained ((ck, ready) :: readings) s s' (o :: tried).
Proof.
  intros Ho Hp Hf [_ _ _ Dl Ds Db Dp _] Hact [H1 H2 H3 H4 H5 H6 H7]. simpl in Dl, Ds, Db, Dp.
  assert (Hfit : ∀ c x, x ≠ o → fit c x s1 = fit c x s) by (intros; apply fit_same; auto).
  assert (Hno : o ∉ tried) by (intros Hin; destruct (H4 o Hin) as (Hin1&_); rewrite Hp in Hin1; set_solver).
  split.
  - done.
  - set_solver.
  - by constructor.
  - intros x [->|Hx]%elem_of_cons; [split_and!; [done|set_solver|exists ck, ready; set_solver]|].
    destruct (H4 x Hx) as (Hx1&?&c&r&?&Hfx). rewrite Hfit in Hfx by set_solver. split_and!; [set_solver|done|]. exists c, r. set_solver.
  - intros x Hx. destruct (decide (x = o)) as [->|Hne]; [right; left; left|].
    destruct (H5 x) as [|[|(c&r&?&Hfx)]]; [set_solver|by left|right; left; by right|]. rewrite Hfit in Hfx by done.
    right; right. exists c, r. set_solver.
  - destruct H6 as (acts&E&Hlen&Hacts).
    assert (Hacts' : Forall (λ a, ∃ x, x ∈ o :: tried ∧ dials_record x s a) acts).
    { eapply Forall_impl; [exact Hacts|]. intros a (x&Hx&Hd). exists x. split; [by right|].
      eapply record_same; [exact Dl|exact Ds|apply Dp; by intros ->|done]. }
    destruct Hact as [Ea|(a&Ea&Hd)]; rewrite E, Ea.
    + exists acts. split_and!; [done|simpl; lia|done].
    + exists (a :: acts). rewrite <-app_assoc. split_and!; [done|simpl; lia|]. constructor; [|done]. exists o. split; [left|done].
  - destruct H7 as [|(c&w&?&?)]; [by left|right]. exists c, w. set_solver.
Qed.

(** A drain that stops here. *)
Lemma drained_stop readings s s' : qs_ok (tb_queues s') → pending s' = pending s → tb_actions s' = tb_actions s →
  (pending s' = ∅ ∨ ∃ ck wait, (ck, false) ∈ readings ∧ 0 < wait ∧ tb_timer s' = Some (ck_now ck + wait)) → drained readings s s' [].
Proof.
  intros Hq Hp Ha He. split; [done|set_solver|constructor|by intros o ?%not_elem_of_nil| | |done].
  - intros o Ho. left. by rewrite Hp.
  - exists []. by rewrite app_nil_r.
Qed.

Lemma paid_later a now b l l' k : a <= now → paid now b l l' k → paid a b l l' k.
Proof. intros Ha [?|[? ?]]; [by left|right]. split; [done|lia]. Qed.

Lemma paid_grant a now b (l l1 l' : RateLimiter) k : 0 <= now → now <= b → a <= now → rate_ok b l →
  rl_try_consume_n 1 now l = (Ok tt, l1) → paid now b l1 l' k → rate_ok b l1 ∧ paid a b l l' (S k).
Proof.
  intros Hnow Hb Ha (Ht&Hf&Htat&Hlt). unfold rl_try_consume_n. destruct (check _ _ _ _) as [tat|] eqn:E; [|done]. intros [= <-].
  apply check_ok in E as [E Hle]; [|lia..]. intros Hp. split.
  - split_and!; simpl; [done|done|lia|lia|done].
  - right. destruct Hp as [[-> ->]|[Hc Hp]]; simpl in *; (split; [done|lia]).
Qed.

Lemma consume_cases now b l : rate_ok b l → 0 <= now <= u64_max →
  match rl_try_consume_n 1 now l with
  | (Ok _, _) => True
  | (Err TooLarge, _) => False
  | (Err (TooSoon wait), l') => l' = l ∧ 0 < wait
  end.
Proof.
  intros (Ht&Hf&Htat&Hlt) Hnow. pose proof (check_spec (rl_cell l) (rl_tat l) now 1) as Hs.
  unfold rl_try_consume_n. destruct (check _ _ _ _) as [|[|w]]; [done|apply Hs; [lia..|done]|]. split; [done|]. destruct Hs; lia.
Qed.

Lemma dialled_records o s s' : dialled o s s' → records_ok (tb_pm s) → records_ok (tb_pm s').
Proof.
  intros [_ _ _ _ _ _ Dp De] Hrec x e Hx. destruct (decide (x = o)) as [->|Hne]; [|rewrite Dp in Hx by done; by apply Hrec].
  destruct (De e Hx) as (e0&He0&->). by apply Hrec.
Qed.

Lemma size_popped (X : gset Z) o : o ∈ X → (size (X ∖ {[o]}) + 1 = size X)%nat.
Proof.
  intros Ho. rewrite size_difference, size_singleton by set_solver.
  assert (size ({[o]} : gset Z) <= size X)%nat by (apply subseteq_size; set_solver). rewrite size_singleton in *. lia.
Qed.

Lemma ready_cons ck ready readings : ready_rounds ((ck, ready) :: readings) = ((if ready then 1 else 0) + ready_rounds readings)%nat.
Proof. unfold ready_rounds. rewrite filter_cons. simpl. by destruct ready. Qed.

Lemma drain_loop_spec readings : ∀ s a b, qs_ok (tb_queues s) → 0 <= cq_max_per_bin (tb_queues s) → records_ok (tb_pm s) →
  rate_ok b (tb_dial_rate s) → 0 <= a → b <= u64_max → clock_ok a b (times readings) →
  (size (pending s) + ready_rounds readings <= length readings)%nat →
  ∃ s' tried, drain_loop readings s = Some s' ∧ drained readings s s' tried ∧ paid a b (tb_dial_rate s) (tb_dial_rate s') (length tried).
Proof.
  induction readings as [|[ck ready] readings IH]; intros s a b Hq Hcap Hrec Hrate Ha Hb Hck Hlen; cbn [drain_loop];
    destruct (pop_candidate (tb_queues s)) as [[o|] q] eqn:Epop.
  { destruct (pop_pending _ _ _ Hq Epop) as (Ho&_). cbn [length] in Hlen. assert (Hz : size (pending s) = 0%nat) by lia.
    apply size_empty_inv in Hz. set_solver. }
  1,3: exists s, []; (split; [done|]); (split; [|by left]); apply drained_stop; [done|done|done|left; by eapply pop_empty].
  destruct (pop_pending _ _ _ Hq Epop) as (Ho&Hp&Hm&_). pose proof (pop_candidate_ok _ _ _ _ _ Hq Epop) as Hq1.
  destruct Hck as [Hnow Hck]. cbn [fst] in *. pose proof (clock_le _ _ _ Hck) as Hnb. rewrite ready_cons in Hlen. cbn [length] in Hlen.
  set (s0 := with_queues q s). set (now := ck_now ck) in *.
  assert (Hsz : (size (pending s0) + 1 = size (pending s))%nat).
  { change (pending s0) with (cq_pending q). rewrite Hp. by apply size_popped. }
  assert (Hdrop : fit ck o s = false → ∃ s' tried, drain_loop readings s0 = Some s' ∧ drained ((ck, ready) :: readings) s s' tried ∧
    paid a b (tb_dial_rate s) (tb_dial_rate s') (length tried)).
  { intros Hfit. destruct (IH s0 now b) as (s'&tried&H1&H2&H3); [done|cbn; by rewrite Hm|done|done|lia|done|done|destruct ready; lia|].
    exists s', tried. split_and!; [done| |by eapply paid_later]. eapply (drained_skip _ _ _ s s0); try done.
    - change (pending s0) with (cq_pending q). set_solver.
    - intros x Hx. change (pending s0) with (cq_pending q). destruct (decide (x = o)) as [->|]; [by right|left; set_solver]. }
  destruct (last _) as [peer|] eqn:Epeer; [|apply Hdrop; unfold fit; change (tb_pm s0) with (tb_pm s) in Epeer; by rewrite Epeer].
  assert (Hfit : fit ck o s = can_advertise_to peer s0) by (unfold fit; change (tb_pm s0) with (tb_pm s) in Epeer; by rewrite Epeer).
  destruct (can_advertise_to peer s0) eqn:Eadv; cbn [negb]; [|by apply Hdrop]. clear Hdrop.
  destruct (dialable_one ck o s0 peer Epeer) as (e&He&Hpe).
  pose proof (consume_cases now b _ Hrate ltac:(lia)) as Hres. change (tb_dial_rate s0) with (tb_dial_rate s).
  destruct (rl_try_consume_n 1 now (tb_dial_rate s)) as [[[]|[|wait]] l] eqn:El; [|done|].
  - clear Hres. set (sr := with_rate l (tb_timer s0) s0).
    destruct (dial_known peer ck sr o e He Hpe) as [Hd Hact]; [rewrite <-Hpe; by apply Hrec|]. set (s1 := dial _ _ _ sr) in *.
    pose proof Hd as [Dq Dr _ _ _ _ _ _].
    destruct (paid_grant a now b _ l l 0 ltac:(lia) Hnb Hnow Hrate El ltac:(by left)) as [Hrate1 _].
    destruct (IH s1 now b) as (s'&tried&H1&H2&H3);
      [by rewrite Dq|by rewrite Dq; cbn; rewrite Hm|by eapply dialled_records|by rewrite Dr|lia|done|done| |].
    + rewrite Dq. change (tb_queues sr) with (tb_queues s0). destruct ready; lia.
    + exists s', (o :: tried). split_and!; [done| |].
      * eapply (drained_dial _ _ _ s s1); [done|by rewrite Dq|by rewrite Hfit| |exact Hact|done]. rewrite Dr, Dq. exact Hd.
      * rewrite Dr in H3. by eapply (paid_grant a now b); [lia|done|done|done|exact El|].
  - destruct Hres as [-> Hw]. destruct (requeue_popped _ _ _ Hcap Hq Epop) as (Hq2&Hp2&Hm2).
    set (s2 := with_rate _ (tb_timer s0) _). destruct ready.
    + destruct (IH s2 now b) as (s'&tried&H1&H2&H3); [done|simpl; by rewrite Hm2|done|done|lia|done|done|simpl; rewrite Hp2; lia|].
      exists s', tried. split_and!; [done| |by eapply paid_later]. eapply (drained_skip _ _ _ s s2); try done; simpl; rewrite Hp2; [done|by left].
    + eexists _, []. split; [done|]. split; [|by left]. apply drained_stop; [done|done|done|]. right. exists ck, wait. split_and!; [left|done|done].
Qed.

(** C21: the drain is paced.  Let the timer be clear or due, the bucket
    have room for one dial, and the clock run from [a] to [b]; rounds are as many as the
    candidates, and one more for each timer that is ready at once.  Then the drain
    ends with the queues empty or its timer armed for later.  It spends a token on
    distinct candidates that were queued and that it would dial at one of the
    readings (stored, not banned, not in backoff, and of a scope this node can
    advertise to), at most as many as the quota allows in the window; it dials
    nothing else, and only at addresses this node can dial.  Every other candidate it
    took out was unfit at one of the readings: throttling loses none. *)
Theorem drain_paced now readings s a b :
  (∀ d, tb_timer s = Some d → d <= now) → qs_ok (tb_queues s) → 0 <= cq_max_per_bin (tb_queues s) → records_ok (tb_pm s) →
  rate_ok b (tb_dial_rate s) → 0 <= a → b <= u64_max → clock_ok a b (times readings) →
  (size (pending s) + ready_rounds readings <= length readings)%nat →
  ∃ s' tried, drain_candidate_queues now readings s = Some s' ∧ drained readings s s' tried ∧
    t_nanos (rl_cell (tb_dial_rate s)) * Z.of_nat (length tried) <= (b - a) + tau_nanos (rl_cell (tb_dial_rate s)).
Proof.
  intros Htimer Hq Hcap Hrec Hrate Ha Hb Hck Hlen.
  assert (Hbound : ∀ l' k, paid a b (tb_dial_rate s) l' k →
    t_nanos (rl_cell (tb_dial_rate s)) * Z.of_nat k <= (b - a) + tau_nanos (rl_cell (tb_dial_rate s))).
  { pose proof (clock_le _ _ _ Hck). destruct Hrate as (?&Hf&?&?). unfold fits in Hf. intros l' k [[-> _]|[_ ?]]; [|lia].
    revert Hf. mach. lia. }
  unfold drain_candidate_queues. destruct (tb_timer s) as [d|] eqn:Et.
  - rewrite decide_True by (by apply Htimer).
    destruct (drain_loop_spec readings (with_rate (tb_dial_rate s) None s) a b) as (s'&tried&H1&H2&H3); [done..|].
    exists s', tried. split_and!; [done|by destruct H2; split|by eapply Hbound].
  - destruct (drain_loop_spec readings s a b) as (s'&tried&H1&H2&H3); [done..|]. exists s', tried. split_and!; [done..|by eapply Hbound].
Qed.
End behaviour.

(** ** Demonstration *)

Module BehaviourDemo.

Definition prox (a : Z) : Z := a mod 2.
Definition power (x _ : f64) : f64 := x.

Lemma behaviour_prox_nonneg a : 0 <= prox a.
Proof. apply Z.mod_pos_bound. lia. Qed.

(** A record of an overlay, at a public address of a peer. *)
Definition record (o p : Z) : PeerRecord.SwarmPeer unit := mkSwarmPeer unit [[Ip4 134744072; Tcp 1634; P2p p]] () [o] [] 900 None [].

Abbreviation Demo := (TopologyBehaviour (Signature:=unit) (B:=list Z) (M:=list (Z * DialRequest)) (CB:=gmap Z BackoffEntry)
  (CN:=gmap Z Z) (V4Net:=unit) (V6Net:=unit)).
Abbreviation demo_step := (behaviour_step (Signature:=unit) power (B:=list Z) (M:=list (Z * DialRequest)) (CB:=gmap Z BackoffEntry)
  (CN:=gmap Z Z) prox 1 (λ _ _, 0) (λ _ _ _, 0) 2 DEFAULT_EARLY_DISCONNECT_THRESHOLD true [] (λ _, 0) (λ _, Some V4)
  (V4Net:=unit) (V6Net:=unit) (λ _ _, false) (λ _ _, false)).

(** One dial every second, two at once. *)
Definition dial_rate : RateLimiter := rl_new (n_every 2 2000000000).

Definition start : Demo :=
  mkBehaviour (topology_new 1 (mkLimits 4 4 4 4 4 4) 4 10 10 0)
    (pm_new overlay_of prox 1 1000 8 300 43200 scoring_default None None) (queues_new (num_bins 1) 4)
    (LocalNet.manager_new local_dial_only [[Ip4 134744073; Tcp 1634]]) (mkSubnets [] []) ∅ dial_rate None false ∅ ∅ 0 [] [].

Definition at_second (t : Z) : Clock := mkClock (t * 1000000000) t (1000 + t).

(** Peer 50 connects as overlay 5 and peer 60 as overlay 6; another task bans
    overlay 5, and overlay 6 while its handshake is being handled. *)
Definition events : list (Clock * BehaviourEvent (Signature:=unit)) :=
  [(at_second 1, EvEstablished None 50 1);
   (at_second 2, EvHandshake 50 1 (record 5 50) Storer [] [] EmptyString []);
   (at_second 3, EvEstablished None 60 2);
   (at_second 4, EvHandshake 60 2 (record 6 60) Storer [] [(1004, OpBan 6 CauseMalicious)] EmptyString []);
   (at_second 5, EvManager EmptyString (1005, OpBan 5 CauseMalicious))].

Definition history : Demo := run demo_step start events.

Lemma start_index : index_ok prox 1 (connected start).
Proof. apply index_ok_new. Qed.



(** Three known peers are queued; two dials leave at once and the third waits. *)
Definition crowd : list (Clock * BehaviourEvent (Signature:=unit)) :=
  [(at_second 1, EvManager EmptyString (1001, OpDiscovered [record 5 50; record 7 70; record 9 90]));
   (at_second 2, EvEnqueue (foldl (push_candidate prox 1) (queues_new (num_bins 1) 4) [5; 7; 9]))].

Lemma queued_ok : queues_ok prox 1 (tb_queues (run demo_step start crowd)).
Proof.
  change (tb_queues _) with (foldl (push_candidate prox 1) (queues_new (num_bins 1) 4) [5; 7; 9]).
  apply (push_all_spec prox 1 ltac:(lia) behaviour_prox_nonneg); [done|apply queues_new_ok; [lia|apply behaviour_prox_nonneg|lia]| |set_solver].
  apply (bool_decide_unpack _). vm_compute. exact I.
Qed.

Lemma known_ok : records_ok (tb_pm (run demo_step start crowd)).
Proof.
  assert (H : pm_mid overlay_of prox 1 None (tb_pm (run demo_step start crowd))).
  { apply (pm_step_ok overlay_of (sp_timestamp (Signature:=unit)) power prox 1 ltac:(lia) behaviour_prox_nonneg EmptyString (tb_pm start)
      (1001, OpDiscovered [record 5 50; record 7 70; record 9 90])).
    apply pm_new_ok; [lia|apply behaviour_prox_nonneg]. }
  intros o e He. by eapply PeerManager.po_overlay.
Qed.

Definition rounds : list (Clock * bool) := replicate 3 (at_second 3, false).

Lemma drain_paced_witness :
  let s := run demo_step start crowd in
  ∃ s' tried, drain_candidate_queues prox 1 (λ _, 0) (λ _, Some V4) (λ _ _, false) (λ _ _, false) 3000000000 rounds s = Some s' ∧
    drained prox 1 (λ _ _, false) (λ _ _, false) rounds s s' tried ∧ 1000000000 * Z.of_nat (length tried) <= 0 + 2000000000.
Proof.
  intros s.
  apply (drain_paced (Signature:=unit) (B:=list Z) (M:=list (Z * DialRequest)) (CB:=gmap Z BackoffEntry) (CN:=gmap Z Z)
    prox 1 (λ _ _, 0) (λ _ _ _, 0) (λ _, 0) (λ _, Some V4) (V4Net:=unit) (V6Net:=unit) (λ _ _, false) (λ _ _, false) ltac:(lia) behaviour_prox_nonneg
    3000000000 rounds s 3000000000 3000000000).
  - by intros d.
  - exact queued_ok.
  - discriminate.
  - exact known_ok.
  - vm_compute. repeat split; discriminate.
  - discriminate.
  - vm_compute. discriminate.
  - vm_compute. repeat split; discriminate.
  - vm_compute. lia.
Defined.

Example third_waits :
  let s := run demo_step start crowd in
  (λ s', (length (tb_actions s'), elements (cq_pending (tb_queues s')), tb_timer s')) <$>
    drain_candidate_queues prox 1 (λ _, 0) (λ _, Some V4) (λ _ _, false) (λ _ _, false) 3000000000 rounds s =
  Some (2%nat, [9], Some 4000000000).
Proof. vm_compute. reflexivity. Qed.
End BehaviourDemo.
