(* ===== verification/Race.v ===== *)
(** * Race: the staggered candidate race

    [crates/swarm/node/src/staggered_race.rs]: the any-candidate race behind
    chunk retrieval, with its attempt budget, in-flight width and deadline, and
    [retrieval_latency.rs], the latency estimates that pace it.

    The [select!] loop is a step function over the event its next arm delivers:
    an attempt completes, the stagger tick fires, the deadline passes.  Which
    attempt completes when, and with what, is the environment's choice, so the
    theorems quantify over all sequences of events; the per-candidate closure's
    decision to decline is an oracle by call number, which covers a closure that
    reads changing state.  A completed attempt is named by its dispatch number.

    The theorems: whatever the interleaving, the race draws the candidates in
    order, stays within budget and width, always waits on some attempt, succeeds
    exactly when one of the candidates in its budget would, and ends after at
    most as many completions; of width one it is the sequential walk. *)

From S2P Require Import Prelude.

Inductive RaceFailure (E : Type) := NoCandidates | AllFailed (e : E) | RaceTimedOut.
Arguments NoCandidates {E}.
Arguments AllFailed {E} e.
Arguments RaceTimedOut {E}.

Definition is_err {E A} (x : result E A) : bool := match x with Err _ => true | Ok _ => false end.

Section race.
Context {C T E : Type}.
(** Whether the closure takes the candidate, at its n-th call. *)
Context (accepts : nat → C → bool).
Context (budget max_in_flight : Z) (deadline : bool).

(** The locals of [race]: the candidates not drawn yet, the calls of the
    closure so far, the attempts in flight by dispatch number, the number
    dispatched, the last failure, and whether the stagger tick is armed. *)
Record Racing := mkRacing {
  rc_candidates : list C;
  rc_calls : nat;
  rc_in_flight : gmap nat C;
  rc_dispatched : nat;
  rc_last_error : option E;
  rc_stagger : bool;
}.

Implicit Types (r : Racing).

(** The next candidate the closure takes; declined ones are skipped. *)
Fixpoint draw (calls : nat) (cs : list C) : option C * (list C * nat) :=
  match cs with
  | [] => (None, ([], calls))
  | c :: cs => if accepts calls c then (Some c, (cs, S calls)) else draw (S calls) cs
  end.

Definition dispatch_next r : bool * Racing :=
  if decide (budget <= Z.of_nat (rc_dispatched r)) then (false, r)
  else
    match draw (rc_calls r) (rc_candidates r) with
    | (Some c, (cs, n)) =>
        (true, mkRacing cs n (<[rc_dispatched r := c]> (rc_in_flight r)) (S (rc_dispatched r)) (rc_last_error r) (rc_stagger r))
    | (None, (cs, n)) =>
        (false, mkRacing cs n (rc_in_flight r) (rc_dispatched r) (rc_last_error r) (rc_stagger r))
    end.

Inductive Race := Running (r : Racing) | Resolved (res : result (RaceFailure E) T).

Definition race_start (cs : list C) : Race :=
  let '(ok, r) := dispatch_next (mkRacing cs 0 ∅ 0 None true) in
  if ok : bool then Running r else Resolved (Err NoCandidates).

Inductive RaceEvent := Completed (k : nat) (res : result E T) | StaggerTick | DeadlineTick.

Definition with_flight (f : gmap nat C) (last : option E) r : Racing :=
  mkRacing (rc_candidates r) (rc_calls r) f (rc_dispatched r) last (rc_stagger r).
Definition with_stagger (b : bool) r : Racing :=
  mkRacing (rc_candidates r) (rc_calls r) (rc_in_flight r) (rc_dispatched r) (rc_last_error r) b.

(** The arm of a completed attempt: a success resolves the race, a failure is
    replaced by the next candidate at once. *)
Definition on_completed (k : nat) (res : result E T) r : Race :=
  match rc_in_flight r !! k, res with
  | None, _ => Running r
  | Some _, Ok v => Resolved (Ok v)
  | Some _, Err e =>
      let '(ok, r) := dispatch_next (with_flight (delete k (rc_in_flight r)) (rc_last_error r) r) in
      if negb ok && bool_decide (rc_in_flight r = ∅) then Resolved (Err (AllFailed e))
      else Running (with_flight (rc_in_flight r) (Some e) r)
  end.

(** The arm of the stagger tick: it grows the race up to its width, and lapses
    once nothing more can be dispatched. *)
Definition on_stagger r : Race :=
  if rc_stagger r then
    if decide (max_in_flight <= Z.of_nat (size (rc_in_flight r))) then Running r
    else let '(ok, r) := dispatch_next r in Running (with_stagger ok r)
  else Running r.

Definition on_deadline r : Race :=
  if deadline then
    Resolved (Err match rc_last_error r with Some e => AllFailed e | None => RaceTimedOut end)
  else Running r.

Definition race_step (s : Race) (e : RaceEvent) : Race :=
  match s with
  | Resolved _ => s
  | Running r =>
      match e with
      | Completed k res => on_completed k res r
      | StaggerTick => on_stagger r
      | DeadlineTick => on_deadline r
      end
  end.

(** ** The attempts a race makes *)

(** The candidates the closure takes, in order. *)
Fixpoint accepted (calls : nat) (cs : list C) : list C :=
  match cs with
  | [] => []
  | c :: cs => if accepts calls c then c :: accepted (S calls) cs else accepted (S calls) cs
  end.

Definition plan (cs : list C) : list C := take (Z.to_nat budget) (accepted 0 cs).

(** The sequential fallback: one attempt after the other, up to the first
    success. *)
Fixpoint walk (last : option E) (outs : list (result E T)) : result (RaceFailure E) T :=
  match outs with
  | [] => Err match last with None => NoCandidates | Some e => AllFailed e end
  | Ok v :: _ => Ok v
  | Err e :: outs => walk (Some e) outs
  end.

(** An event the environment can deliver: an attempt in flight completes with
    the outcome it has. *)
Definition honest (out : nat → result E T) (s : Race) (e : RaceEvent) : Prop :=
  match s, e with
  | Running r, Completed k res => is_Some (rc_in_flight r !! k) ∧ res = out k
  | _, _ => True
  end.

Fixpoint all_honest (out : nat → result E T) (s : Race) (es : list RaceEvent) : Prop :=
  match es with
  | [] => True
  | e :: es => honest out s e ∧ all_honest out (race_step s e) es
  end.

Definition is_completed (e : RaceEvent) : bool := match e with Completed _ _ => true | _ => false end.
Definition is_deadline (e : RaceEvent) : bool := match e with DeadlineTick => true | _ => false end.

Lemma draw_accepted cs : ∀ n,
  match draw n cs with
  | (Some c, (cs', n')) => accepted n cs = c :: accepted n' cs'
  | (None, (cs', n')) => accepted n cs = [] ∧ accepted n' cs' = []
  end.
Proof. induction cs as [|c cs IH]; intros n; simpl; [done|]. destruct (accepts n c); [done|]. apply IH. Qed.

Section outcomes.
Context (cs : list C) (out : nat → result E T).

(** What holds of a running race: the attempts dispatched are the first of the
    plan, those in flight are among them, the others failed. *)
Record racing_ok r : Prop := {
  ra_rest : accepted (rc_calls r) (rc_candidates r) = drop (rc_dispatched r) (accepted 0 cs);
  ra_plan : (rc_dispatched r <= length (plan cs))%nat;
  ra_flight : ∀ k c, rc_in_flight r !! k = Some c → (k < rc_dispatched r)%nat ∧ plan cs !! k = Some c;
  ra_failed : ∀ k, (k < rc_dispatched r)%nat → rc_in_flight r !! k = None → is_err (out k) = true;
  ra_last : ∀ e, rc_last_error r = Some e → ∃ k, (k < rc_dispatched r)%nat ∧ out k = Err e;
}.

Lemma plan_lookup k c : plan cs !! k = Some c ↔ accepted 0 cs !! k = Some c ∧ (k < Z.to_nat budget)%nat.
Proof. unfold plan. apply lookup_take_Some. Qed.

(** A dispatch starts the next attempt of the plan, or there is none left. *)
Lemma dispatch_ok r : racing_ok r → racing_ok (dispatch_next r).2 ∧ rc_last_error (dispatch_next r).2 = rc_last_error r ∧
  if (dispatch_next r).1 then
    ∃ c, rc_in_flight (dispatch_next r).2 = <[rc_dispatched r := c]> (rc_in_flight r) ∧
         rc_dispatched (dispatch_next r).2 = S (rc_dispatched r)
  else rc_in_flight (dispatch_next r).2 = rc_in_flight r ∧ rc_dispatched (dispatch_next r).2 = rc_dispatched r ∧
       rc_dispatched r = length (plan cs).
Proof.
  intros Hok. pose proof Hok as [H1 H2 H3 H4 H5]. unfold dispatch_next. case_decide as Hb.
  { simpl. split_and!; [done|done|done|done|]. unfold plan in *. rewrite length_take in *. lia. }
  pose proof (draw_accepted (rc_candidates r) (rc_calls r)) as Hd. rewrite H1 in Hd.
  destruct (draw _ _) as [[c|] [cs' n]]; simpl.
  - assert (Hc : accepted 0 cs !! rc_dispatched r = Some c).
    { rewrite <-(Nat.add_0_r (rc_dispatched r)), <-lookup_drop, Hd. done. }
    assert (Hp : plan cs !! rc_dispatched r = Some c) by (apply plan_lookup; split; [done|lia]).
    apply lookup_lt_Some in Hp as Hlt. split; [|split; [done|by exists c]]. split; simpl.
    + replace (S (rc_dispatched r)) with (rc_dispatched r + 1)%nat by lia. by rewrite <-drop_drop, Hd.
    + lia.
    + intros k c' [[<- <-]|[Hne Hk]]%lookup_insert_Some; [split; [lia|done]|]. apply H3 in Hk as [? ?]. split; [lia|done].
    + intros k Hk [Hn Hne]%lookup_insert_None. apply H4; [lia|done].
    + intros e He. destruct (H5 e He) as (k&?&?). exists k. split; [lia|done].
  - destruct Hd as [Hd1 Hd2]. assert (Hlen : (length (accepted 0 cs) <= rc_dispatched r)%nat).
    { apply (f_equal length) in Hd1. rewrite length_drop in Hd1. simpl in Hd1. lia. }
    split_and!; [|done|done|done|]; [split; simpl; [by rewrite Hd2, Hd1|done|done|done|done]|].
    unfold plan in *. rewrite length_take in *. lia.
Qed.

(** A resolved race stays resolved. *)
Lemma resolved_run es res : foldl race_step (Resolved res) es = Resolved res.
Proof. by induction es. Qed.

(** What holds of a race, [dl] telling whether its deadline has passed. *)
Definition race_ok (dl : bool) (s : Race) : Prop :=
  let n := length (plan cs) in
  match s with
  | Running r => racing_ok r ∧ 1 <= Z.of_nat (size (rc_in_flight r)) <= Z.max 1 max_in_flight
  | Resolved (Ok v) => ∃ k, (k < n)%nat ∧ out k = Ok v
  | Resolved (Err NoCandidates) => n = 0%nat
  | Resolved (Err (AllFailed e)) =>
      (∃ k, (k < n)%nat ∧ out k = Err e) ∧ (dl = false → ∀ k, (k < n)%nat → is_err (out k) = true)
  | Resolved (Err RaceTimedOut) => dl = true
  end.

(** The attempts that can still complete. *)
Definition outstanding (s : Race) : nat :=
  match s with
  | Running r => length (plan cs) - rc_dispatched r + size (rc_in_flight r)
  | Resolved _ => 0
  end.

Lemma flight_fresh r c : racing_ok r →
  size (<[rc_dispatched r := c]> (rc_in_flight r)) = S (size (rc_in_flight r)).
Proof.
  intros Hok. rewrite map_size_insert_None; [done|]. destruct (rc_in_flight r !! rc_dispatched r) as [x|] eqn:Ef; [|done].
  apply (ra_flight _ Hok) in Ef as [? _]. lia.
Qed.

Lemma start_ok : race_ok false (race_start cs) ∧ outstanding (race_start cs) = length (plan cs).
Proof.
  unfold race_start. assert (H0 : racing_ok (mkRacing cs 0 ∅ 0 None true)).
  { split; simpl; [by rewrite drop_0|lia|done|lia|done]. }
  pose proof (dispatch_ok _ H0) as (Hok&_&Hd).
  destruct (dispatch_next _) as [[] r]; simpl in *.
  - destruct Hd as (c&Hf&Hdn). pose proof (flight_fresh _ c H0) as Hs. simpl in Hs. rewrite Hf, Hs, map_size_empty.
    pose proof (ra_plan _ Hok). split; [split; [done|lia]|lia].
  - destruct Hd as (_&_&Hn). done.
Qed.

Lemma completed_ok dl k r : race_ok dl (Running r) → is_Some (rc_in_flight r !! k) →
  race_ok dl (on_completed k (out k) r) ∧
  match on_completed k (out k) r with Running _ => outstanding (Running r) = S (outstanding (on_completed k (out k) r)) | _ => True end.
Proof.
  intros [Hok Hw] [c Hk]. pose proof Hok as [H1 H2 H3 H4 H5]. unfold on_completed. rewrite Hk.
  apply H3 in Hk as Hkd. destruct Hkd as [Hkd _]. destruct (out k) as [v|e] eqn:Ho; [split; [exists k; split; [lia|done]|done]|].
  set (r0 := with_flight _ _ _). assert (Hs0 : size (rc_in_flight r) = S (size (rc_in_flight r0))).
  { unfold r0. simpl. rewrite map_size_delete, Hk. simpl. destruct (size (rc_in_flight r)) eqn:Ez; [|lia].
    apply map_size_empty_inv in Ez. rewrite Ez in Hk. done. }
  assert (H0 : racing_ok r0).
  { split; simpl; [done|done| |intros k' Hk' [->|Hn]%lookup_delete_None; [by rewrite Ho|by apply H4]|done].
    intros k' c' [_ Hk']%lookup_delete_Some. by apply H3. }
  pose proof (dispatch_ok r0 H0) as (Hok'&_&Hd). destruct (dispatch_next r0) as [ok r1] eqn:Edn. cbn [fst snd] in *.
  change (rc_dispatched r) with (rc_dispatched r0) in Hkd. assert (Hn0 : rc_dispatched r0 = rc_dispatched r) by done. clearbody r0.
  assert (Hlast : racing_ok (with_flight (rc_in_flight r1) (Some e) r1)).
  { destruct Hok' as [G1 G2 G3 G4 G5]. split; simpl; [done|done|done|done|]. intros e' [= <-]. exists k. split; [|done].
    destruct ok; [destruct Hd as (c'&_&Hdn)|destruct Hd as (_&Hdn&_)]; rewrite Hdn; lia. }
  destruct ok; simpl.
  - destruct Hd as (c'&Hf&Hdn). pose proof (flight_fresh r0 c' H0) as Hs. pose proof (ra_plan _ Hok').
    split; [split; [done|]|]; rewrite Hf, Hs; lia.
  - destruct Hd as (Hf&Hdn&Hn). case_bool_decide as Hem; simpl.
    + split; [|done]. split; [exists k; split; [lia|done]|]. intros _ k' Hk'. apply (ra_failed _ H0); [lia|].
      rewrite <-Hf, Hem. done.
    + rewrite Hf, Hdn. split; [split; [by rewrite Hf in Hlast|]|lia].
      assert (size (rc_in_flight r0) ≠ 0)%nat by (rewrite <-Hf; intros ?%map_size_empty_inv; done). lia.
Qed.

Lemma stagger_ok dl r : race_ok dl (Running r) → race_ok dl (on_stagger r) ∧ outstanding (on_stagger r) = outstanding (Running r).
Proof.
  intros [Hok Hw]. unfold on_stagger. destruct (rc_stagger r); [|done]. case_decide as Hm; [done|].
  pose proof (dispatch_ok r Hok) as (Hok'&_&Hd). destruct (dispatch_next r) as [ok r1]. simpl in *.
  assert (Hst : racing_ok (with_stagger ok r1)) by (destruct Hok'; by split).
  destruct ok; [destruct Hd as (c&Hf&Hdn)|destruct Hd as (Hf&Hdn&_)]; rewrite Hf, Hdn.
  - rewrite (flight_fresh r c Hok). pose proof (ra_plan _ Hok'). split; [split; [done|lia]|lia].
  - split; [done|lia].
Qed.

Lemma race_step_ok dl s e : race_ok dl s → honest out s e →
  race_ok (dl || is_deadline e) (race_step s e).
Proof.
  intros Hs Hh. destruct s as [r|res]; simpl in *.
  - destruct e as [k res| |]; rewrite ?orb_false_r.
    + destruct Hh as [Hk ->]. by apply completed_ok.
    + by apply stagger_ok.
    + rewrite orb_true_r. unfold on_deadline. destruct deadline; [|done]. destruct Hs as [Hok _].
      destruct (rc_last_error r) as [e|] eqn:El; [|done]. destruct (ra_last _ Hok e El) as (k&Hk&Ho).
      split; [|done]. exists k. split; [|done]. pose proof (ra_plan _ Hok). lia.
  - destruct res as [v|[|err|]]; [done|done| |by rewrite Hs]. destruct Hs as [? Hs]. split; [done|]. intros [? _]%orb_false_iff. by apply Hs.
Qed.

Lemma race_run_ok es : ∀ dl s, race_ok dl s → all_honest out s es →
  race_ok (dl || existsb is_deadline es) (foldl race_step s es).
Proof.
  induction es as [|e es IH]; intros dl s Hs; simpl; [by rewrite orb_false_r|]. intros [He Hes].
  pose proof (race_step_ok dl s e Hs He) as Hs'. specialize (IH _ _ Hs' Hes). by rewrite orb_assoc.
Qed.

Lemma completions_run es : ∀ dl s, race_ok dl s → all_honest out s es →
  match foldl race_step s es with
  | Running _ => outstanding s = (length (filter is_completed es) + outstanding (foldl race_step s es))%nat
  | Resolved _ => True
  end.
Proof.
  induction es as [|e es IH]; intros dl s Hs; simpl; [by destruct s|]. intros [He Hes].
  pose proof (race_step_ok dl s e Hs He) as Hs'. specialize (IH _ _ Hs' Hes).
  destruct (foldl race_step (race_step s e) es) as [r'|res] eqn:Ef; [|done].
  destruct s as [r|res]; [|by simpl in Ef; rewrite resolved_run in Ef]. simpl in He. destruct e as [k res| |]; simpl in IH, Ef |- *.
  - destruct He as [Hk ->]. destruct (completed_ok dl k r Hs Hk) as [_ Hc].
    destruct (on_completed k (out k) r); [|by rewrite resolved_run in Ef]. simpl in *. lia.
  - pose proof (stagger_ok dl r Hs) as [_ Hc]. rewrite filter_cons_False by (by intros []). simpl in *. lia.
  - unfold on_deadline in *. destruct deadline; [by rewrite resolved_run in Ef|]. rewrite filter_cons_False by (by intros []). done.
Qed.
End outcomes.

(** Whatever attempts complete first, the race makes the attempts of its
    plan: the first [budget] candidates the closure takes, in order, each once,
    with at least one and at most [max_in_flight] of them in flight while it
    runs.  It resolves with a success of one of them, with no candidates exactly
    when the plan is empty, and with a failure only when every attempt of the plan
    failed, unless its deadline passed; only then does it time out. *)
Theorem race_outcome cs out es :
  all_honest out (race_start cs) es →
  let n := length (plan cs) in
  match foldl race_step (race_start cs) es with
  | Running r =>
      (∀ k c, rc_in_flight r !! k = Some c → plan cs !! k = Some c) ∧
      1 <= Z.of_nat (size (rc_in_flight r)) <= Z.max 1 max_in_flight ∧ (rc_dispatched r <= n)%nat
  | Resolved (Ok v) => ∃ k, (k < n)%nat ∧ out k = Ok v
  | Resolved (Err NoCandidates) => plan cs = []
  | Resolved (Err (AllFailed e)) =>
      (∃ k, (k < n)%nat ∧ out k = Err e) ∧
      (existsb is_deadline es = false → ∀ k, (k < n)%nat → is_err (out k) = true)
  | Resolved (Err RaceTimedOut) => existsb is_deadline es = true
  end.
Proof.
  intros Hes n. pose proof (race_run_ok cs out es false _ (proj1 (start_ok cs out)) Hes) as Hr. simpl in Hr.
  destruct (foldl race_step (race_start cs) es) as [r|[v|[|e|]]]; [|done|by apply length_zero_iff_nil|done|done].
  destruct Hr as [Hok Hw]. split_and!; [|lia|lia|apply Hok]. intros k c Hk. by apply (ra_flight _ _ _ Hok) in Hk as [_ ?].
Qed.

(** C10: The race ends: a running race waits on some attempt in flight, whose
    completion the environment can deliver, and as many completions as the plan
    has attempts resolve it, however many ticks fire in between. *)
Theorem race_terminates cs out es :
  all_honest out (race_start cs) es →
  match foldl race_step (race_start cs) es with
  | Running r => (length (filter is_completed es) < length (plan cs))%nat ∧
                 ∃ k, honest out (Running r) (Completed k (out k))
  | Resolved _ => True
  end.
Proof.
  intros Hes. destruct (start_ok cs out) as [Hs Ho]. pose proof (completions_run cs out es false _ Hs Hes) as Hc.
  pose proof (race_run_ok cs out es false _ Hs Hes) as Hr. destruct (foldl race_step (race_start cs) es) as [r|]; [|done].
  destruct Hr as [Hok Hw]. rewrite Ho in Hc. simpl in Hc. split; [lia|].
  destruct (map_choose (rc_in_flight r)) as (k&c&Hk); [intros Hem; rewrite Hem, map_size_empty in Hw; lia|].
  exists k. simpl. eauto.
Qed.

(** ** The sequential walk *)

Lemma walk_success outs : ∀ last, is_err (walk last outs) = forallb is_err outs.
Proof. induction outs as [|[v|e] outs IH]; intros last; simpl; [done|done|apply IH]. Qed.

Lemma forallb_outs (out : nat → result E T) n : forallb is_err (out <$> seq 0 n) = true ↔ ∀ k, (k < n)%nat → is_err (out k) = true.
Proof.
  rewrite forallb_forall. split; [intros H k Hk|intros H x (k&->&Hk)%list_elem_of_In%list_elem_of_fmap].
  - apply H, list_elem_of_In, list_elem_of_fmap. exists k. split; [done|]. apply elem_of_seq. lia.
  - apply H. apply elem_of_seq in Hk. lia.
Qed.

Section sequential.
Context (cs : list C) (out : nat → result E T).
Abbreviation outs k := (out <$> seq k (length (plan cs) - k)).

(** A race of width one has one attempt in flight, the last dispatched, and
    what the walk has left is what the race has left. *)
Definition seq_ok (s : Race) : Prop :=
  match s with
  | Running r => ∃ m c, rc_dispatched r = S m ∧ rc_in_flight r = {[m := c]} ∧ racing_ok cs out r ∧
                   walk None (outs 0) = walk (rc_last_error r) (outs m)
  | Resolved res => res = walk None (outs 0)
  end.

Lemma outs_cons m : (m < length (plan cs))%nat → outs m = out m :: outs (S m).
Proof. intros Hm. replace (length (plan cs) - m)%nat with (S (length (plan cs) - S m)) by lia. done. Qed.

Lemma seq_start : seq_ok (race_start cs).
Proof.
  unfold race_start. assert (H0 : racing_ok cs out (mkRacing cs 0 ∅ 0 None true)).
  { split; simpl; [by rewrite drop_0|lia|done|lia|done]. }
  pose proof (dispatch_ok _ _ _ H0) as (Hok&Hl&Hd). destruct (dispatch_next _) as [[] r]; simpl in *.
  - destruct Hd as (c&Hf&Hdn). exists 0%nat, c. split_and!; [done|by rewrite Hf|done|by rewrite Hl].
  - destruct Hd as (_&_&Hn). by rewrite <-Hn.
Qed.

Lemma seq_step s e : max_in_flight <= 1 → seq_ok s → honest out s e → is_deadline e = false → seq_ok (race_step s e).
Proof.
  intros Hw Hs Hh Hdl. destruct s as [r|res]; [|done]. destruct Hs as (m&c&Hd&Hf&Hok&Hwalk). pose proof (ra_plan _ _ _ Hok) as Hn.
  destruct e as [k res| |]; simpl; [|unfold on_stagger; destruct (rc_stagger r); [|by exists m, c]|done].
  2: { rewrite decide_True by (rewrite Hf, map_size_singleton; lia). by exists m, c. }
  destruct Hh as [Hk ->]. unfold on_completed. rewrite Hf in *. destruct Hk as [x Hk]. rewrite Hk.
  apply lookup_singleton_Some in Hk as [<- _]. rewrite (outs_cons m) in Hwalk by lia.
  destruct (out m) as [v|e] eqn:Ho; simpl in Hwalk; [done|]. rewrite delete_singleton_eq.
  set (r0 := with_flight _ _ _). assert (H0 : racing_ok cs out r0).
  { destruct Hok as [H1 H2 H3 H4 H5]. split; simpl; [done|done|done| |done]. intros k Hk _. destruct (decide (k = m)) as [->|Hne].
    - by rewrite Ho.
    - apply H4; [done|]. by rewrite Hf, lookup_singleton_ne. }
  pose proof (dispatch_ok _ _ r0 H0) as (Hok'&_&Hdd). destruct (dispatch_next r0) as [[] r1]; cbn [fst snd] in *.
  - destruct Hdd as (c'&Hf'&Hdn). simpl in Hf', Hdn. rewrite Hd in Hf', Hdn. exists (S m), c'. simpl.
    split_and!; [done|by rewrite Hf'| |done]. destruct Hok' as [G1 G2 G3 G4 G5]. split; simpl; [done|done|done|done|].
    intros e' [= <-]. exists m. split; [lia|done].
  - destruct Hdd as (Hf'&_&Hlast). simpl in Hf', Hlast. rewrite Hf'. simpl. rewrite bool_decide_eq_true_2 by done. simpl.
    rewrite Hwalk. replace (length (plan cs) - S m)%nat with 0%nat by lia. done.
Qed.

Lemma seq_run es : max_in_flight <= 1 → ∀ s, seq_ok s → all_honest out s es → existsb is_deadline es = false →
  seq_ok (foldl race_step s es).
Proof.
  intros Hw. induction es as [|e es IH]; intros s Hs; simpl; [done|]. intros [He Hes] [Hd Hds]%orb_false_iff.
  apply IH; [|done|done]. by apply seq_step.
Qed.
End sequential.

(** C31: The race is the sequential fallback, only faster: without a
    deadline, a resolved race of any width succeeds exactly when walking the plan
    one attempt at a time would, and a race of width one gives the very result of
    that walk, its first success or its last failure. *)
Theorem race_equals_walk cs out es res :
  all_honest out (race_start cs) es → existsb is_deadline es = false →
  foldl race_step (race_start cs) es = Resolved res →
  let reference := walk None (out <$> seq 0 (length (plan cs))) in
  is_err res = is_err reference ∧ (max_in_flight <= 1 → res = reference).
Proof.
  intros Hes Hdl Hrun reference. split.
  - pose proof (race_run_ok cs out es false _ (proj1 (start_ok cs out)) Hes) as Hr. rewrite Hrun, Hdl in Hr. simpl in Hr.
    unfold reference. rewrite walk_success. destruct res as [v|[|e|]]; simpl; [| |symmetry; by apply forallb_outs, Hr|done].
    + destruct Hr as (k&Hk&Ho). destruct (forallb _ _) eqn:Ef; [|done]. apply forallb_outs with (k:=k) in Ef; [|done].
      by rewrite Ho in Ef.
    + by rewrite Hr.
  - intros Hw. pose proof (seq_run cs out es Hw _ (seq_start cs out) Hes Hdl) as Hr. rewrite Hrun in Hr. simpl in Hr.
    by rewrite Nat.sub_0_r in Hr.
Qed.
End race.

(** ** The two races *)

(** [race_candidates]: no budget, no width, no deadline, every candidate taken. *)
Definition race_candidates {C T E} (cs : list C) (es : list (RaceEvent (T:=T) (E:=E))) : Race :=
  foldl (race_step (λ _ _, true) u64_max u64_max false) (race_start (λ _ _, true) u64_max cs) es.

(** [race_with_refill]: bounded, with a deadline. *)
Definition race_with_refill {C T E} (accepts : nat → C → bool) (budget max_in_flight : Z) (cs : list C)
    (es : list (RaceEvent (T:=T) (E:=E))) : Race :=
  foldl (race_step accepts budget max_in_flight true) (race_start accepts budget cs) es.

(** ** Latency estimates

    Durations are nanoseconds. *)

Definition RETRIEVAL_STAGGER : Z := 1200000000.
Definition PO_BUCKETS : Z := 32.
Definition EWMA_SHIFT : Z := 3.
Definition HEDGE_RTT_MULTIPLIER : Z := 2.
Definition HEDGE_STAGGER_FLOOR : Z := 50000000.
Definition DURATION_MAX : Z := u64_max * 1000000000 + 999999999.

(** [RetrievalLatency]: one cell per proximity order. *)
Definition latency_new : list Z := replicate (Z.to_nat PO_BUCKETS) 0.
Definition latency_bucket (po : Z) : nat := Z.to_nat (Z.min po (PO_BUCKETS - 1)).

(** One sample moves a bucket an eighth of the way; zero is "no sample". *)
Definition blend (prev sample : Z) : Z :=
  if decide (prev = 0) then sample
  else Z.max 0 (i64_wrap (i64_wrap prev + Z.shiftr (i64_wrap (i64_wrap sample - i64_wrap prev)) EWMA_SHIFT)).

Definition record (l : list Z) (po latency : Z) : list Z :=
  match l !! latency_bucket po with
  | None => l
  | Some prev => <[latency_bucket po := blend prev (Z.min latency u64_max)]> l
  end.

Definition estimate (l : list Z) (po : Z) : option Z :=
  l !! latency_bucket po ≫= λ nanos, if decide (nanos = 0) then None else Some nanos.

Definition clamp_stagger (x : Z) : Z := Z.max HEDGE_STAGGER_FLOOR (Z.min RETRIEVAL_STAGGER x).

Definition adaptive_stagger (estimates : list (option Z)) : Z :=
  let known := merge_sort Z.le (omap (λ x, x) estimates) in
  match known !! Nat.div (length known) 2 with
  | Some median => clamp_stagger (Z.min DURATION_MAX (median * HEDGE_RTT_MULTIPLIER))
  | None => RETRIEVAL_STAGGER
  end.

Lemma blend_between lo hi prev sample : 1 <= lo → hi <= i64_max → lo <= sample <= hi →
  prev = 0 ∨ lo <= prev <= hi → lo <= blend prev sample <= hi.
Proof.
  intros Hlo Hhi Hs [->|Hp]; unfold blend; [by rewrite decide_True|]. rewrite decide_False by lia.
  rewrite (i64_wrap_id prev), (i64_wrap_id sample) by (unfold is_i64; mach; lia).
  rewrite (i64_wrap_id (sample - prev)) by (unfold is_i64; mach; lia). unfold EWMA_SHIFT.
  rewrite Z.shiftr_div_pow2 by lia. change (2 ^ 3) with 8. pose proof (Z.div_mod (sample - prev) 8) as Hd.
  pose proof (Z.mod_pos_bound (sample - prev) 8). rewrite i64_wrap_id by (unfold is_i64; mach; lia). lia.
Qed.

Lemma record_between lo hi samples : 1 <= lo → hi <= i64_max → Forall (λ x, lo <= x.2 <= hi) samples →
  ∀ l, Forall (λ x, x = 0 ∨ lo <= x <= hi) l → Forall (λ x, x = 0 ∨ lo <= x <= hi) (foldl (λ l x, record l x.1 x.2) l samples).
Proof.
  intros Hlo Hhi Hs. induction Hs as [|x samples Hx Hs IH]; intros l Hl; simpl; [done|]. apply IH.
  unfold record. destruct (l !! latency_bucket x.1) as [prev|] eqn:E; [|exact Hl]. apply Forall_insert; [exact Hl|]. right.
  rewrite Z.min_l by (mach; lia). apply blend_between; [done|done|done|]. by eapply Forall_lookup_1 in Hl.
Qed.

(** The race is paced by what was measured: with latencies recorded
    between [lo] and [hi], the stagger derived from any candidates' estimates is
    between twice [lo] and twice [hi], never below the floor nor above the fixed
    stagger, and the fixed stagger when no candidate's bucket was ever sampled. *)
Theorem stagger_tracks_latency lo hi samples pos :
  1 <= lo → hi <= i64_max → Forall (λ x, lo <= x.2 <= hi) samples →
  let l := foldl (λ l x, record l x.1 x.2) latency_new samples in
  let st := adaptive_stagger (estimate l <$> pos) in
  HEDGE_STAGGER_FLOOR <= st <= RETRIEVAL_STAGGER ∧
  (omap (estimate l) pos ≠ [] → clamp_stagger (2 * lo) <= st <= clamp_stagger (2 * hi)) ∧
  (omap (estimate l) pos = [] → st = RETRIEVAL_STAGGER).
Proof.
  intros Hlo Hhi Hs l st. assert (Hl : Forall (λ x, x = 0 ∨ lo <= x <= hi) l).
  { apply record_between; [done|done|done|]. apply Forall_replicate. by left. }
  assert (Hom : omap (λ x, x) (estimate l <$> pos) = omap (estimate l) pos) by (clear; induction pos as [|x pos IH]; csimpl; [done|by rewrite IH]).
  unfold st, adaptive_stagger. rewrite Hom. set (known := merge_sort Z.le (omap (estimate l) pos)).
  assert (Hperm : known ≡ₚ omap (estimate l) pos) by apply merge_sort_Permutation.
  assert (Hk : Forall (λ x, lo <= x <= hi) known).
  { apply Forall_forall. intros x Hx. rewrite Hperm in Hx. apply list_elem_of_omap in Hx as (po&_&He).
    unfold estimate in He. apply bind_Some in He as (y&Hy&He). case_decide; [done|]. injection He as <-.
    eapply Forall_lookup_1 in Hl as [?|?]; [|done|exact Hy]. done. }
  destruct (known !! _) as [median|] eqn:Em.
  - eapply Forall_lookup_1 in Em as Hm; [|exact Hk]. simpl in Hm. unfold clamp_stagger, HEDGE_STAGGER_FLOOR, RETRIEVAL_STAGGER, HEDGE_RTT_MULTIPLIER, DURATION_MAX in *.
    mach. split; [lia|]. split; [intros _; lia|]. intros Hn. rewrite Hn in Hperm. apply Permutation_nil_r in Hperm. by rewrite Hperm in Em.
  - assert (Hn : known = []).
    { destruct known as [|x k]; [done|]. apply lookup_ge_None in Em. pose proof (Nat.div_lt (length (x :: k)) 2). simpl in *. lia. }
    rewrite Hn in Hperm. symmetry in Hperm. apply Permutation_nil_r in Hperm. split; [done|]. split; [by rewrite Hperm|done].
Qed.

Module RaceDemo.

(** Four candidates, the second declined, a budget of two: the first attempt
    fails, the third candidate takes its place and succeeds. *)
Definition takes (n : nat) (c : Z) : bool := negb (bool_decide (c = 20)).
Definition outcome (k : nat) : result string Z := if decide (k = 1)%nat then Ok 7 else Err "miss".
Definition events : list (RaceEvent (T:=Z) (E:=string)) :=
  [StaggerTick; Completed 0 (Err "miss"); StaggerTick; Completed 1 (Ok 7)].

Lemma race_outcome_witness :
  race_with_refill takes 2 1 [10; 20; 30; 40] events = Resolved (Ok 7) ∧ ∃ k, (k < 2)%nat ∧ outcome k = Ok 7.
Proof.
  split; [vm_compute; reflexivity|].
  assert (Hes : all_honest takes 2 1 true outcome (race_start takes 2 [10; 20; 30; 40]) events)
    by (vm_compute; repeat split; by eexists).
  exact (race_outcome takes 2 1 true [10; 20; 30; 40] outcome events Hes).
Defined.

Lemma race_terminates_witness :
  let s := race_with_refill (T:=Z) takes 2 1 [10; 20; 30; 40] [StaggerTick; Completed 0 (Err "miss")] in
  match s with Running r => ∃ k, honest outcome (Running r) (Completed k (outcome k)) | Resolved _ => False end.
Proof.
  pose proof (race_terminates takes 2 1 true [10; 20; 30; 40] outcome [StaggerTick; Completed 0 (Err "miss")]) as H.
  destruct H as [_ H]; [vm_compute; repeat split; by eexists|]. exact H.
Defined.

Lemma race_equals_walk_witness :
  walk None (outcome <$> seq 0 2) = Ok 7.
Proof.
  destruct (race_equals_walk takes 2 1 true [10; 20; 30; 40] outcome events (Ok 7)) as [_ H].
  - vm_compute. repeat split; by eexists.
  - reflexivity.
  - vm_compute. reflexivity.
  - symmetry. apply H. lia.
Defined.

Lemma stagger_tracks_latency_witness :
  adaptive_stagger (estimate (foldl (λ l x, record l x.1 x.2) latency_new [(3, 100000000); (3, 900000000); (40, 80000000)]) <$> [3; 5; 31])
    = 400000000 ∧ 160000000 <= 400000000 <= 1200000000.
Proof.
  split; [vm_compute; reflexivity|].
  destruct (stagger_tracks_latency 80000000 900000000 [(3, 100000000); (3, 900000000); (40, 80000000)] [3; 5; 31]) as (_&H&_).
  - lia.
  - vm_compute. discriminate.
  - repeat constructor; simpl; lia.
  - specialize (H ltac:(vm_compute; discriminate)). vm_compute in H. lia.
Defined.

End RaceDemo.
