(* ===== verification/Forward.v ===== *)
(** * Forward: forwarding Kademlia, custody receipts and serving

    The relay of retrievals and pushes between nodes:
    - [net/pushsync/src/receipt.rs]: custody receipts, minted, reconstructed at
      the decode boundary and held to the depth policy;
    - [topology/src/kademlia/routing.rs] ([closest_to]) and
      [client-behaviour/src/forward.rs] ([closer_candidates]): the strictly
      closer peers a node may relay to;
    - [node/src/protocol/forward.rs]: the relay walk with its two accounting
      legs, for retrieval and push;
    - [client-behaviour/src/serve.rs]: serve locally or delegate, then commit or
      forfeit the upstream credit.

    The ledger is the one of [Accounting]; a reservation a future holds is named
    by its number there.  What the wire answers, and what other tasks do to the
    ledger at an await, are inputs.  The distance comparison, the proximity order
    and the signature scheme belong to external crates and are parameters; the
    theorems name what they use of them.

    The theorems: a relayed request moves strictly closer at every hop, never
    meets a node twice and reaches a holder exactly when one can be reached; a
    relay books exactly the leg that answered and leaks no reservation; no
    receipt travels on that is not deep enough. *)

From S2P Require Import Prelude.
From S2P Require Import Au.
From S2P Require Import Accounting.
From S2P Require Import Bandwidth.

(** ** Custody receipts *)

Section receipts.
(** Addresses and nonces are numbers; signatures, Ethereum addresses and network
    identifiers are abstract. *)
Context {Sig Eth Net : Type} `{EqDecision Sig}.
Context (zero_signature : Sig) (recover_address : Sig → Z → option Eth) (compute_overlay : Eth → Net → Z → Z).
Context (proximity : Z → Z → Z).

Record WireReceipt := mkWire { wr_address : Z; wr_signature : Sig; wr_nonce : Z; wr_radius : Z }.

Record Receipt := mkReceipt {
  rp_address : Z;
  rp_storer : Z;
  rp_signature : Sig;
  rp_nonce : Z;
  rp_radius : Z;
}.

(** [PushsyncError::MalformedReceiptSignature] is the only error. *)
Inductive PushsyncError := MalformedReceiptSignature.

Definition reconstruct (w : WireReceipt) (network : Net) : result PushsyncError Receipt :=
  if decide (wr_signature w = zero_signature) then Err MalformedReceiptSignature
  else
    match recover_address (wr_signature w) (wr_address w) with
    | None => Err MalformedReceiptSignature
    | Some eth => Ok (mkReceipt (wr_address w) (compute_overlay eth network (wr_nonce w)) (wr_signature w) (wr_nonce w) (wr_radius w))
    end.

(** An identity: its signer, network and nonce. *)
Record OverlaySigner := mkSigner { os_sign : Z → option Sig; os_network : Net; os_nonce : Z }.

Definition sign (identity : OverlaySigner) (address radius : Z) : result PushsyncError Receipt :=
  match os_sign identity address with
  | None => Err MalformedReceiptSignature
  | Some sig =>
      match recover_address sig address with
      | None => Err MalformedReceiptSignature
      | Some eth => Ok (mkReceipt address (compute_overlay eth (os_network identity) (os_nonce identity)) sig (os_nonce identity) radius)
      end
  end.

Definition to_wire (r : Receipt) : WireReceipt := mkWire (rp_address r) (rp_signature r) (rp_nonce r) (rp_radius r).

Definition SHALLOW_RECEIPT_TOLERANCE : Z := 1.

Inductive DepthVerdict := Verified | Shallow (required observed : Z) | Unverifiable.

Definition required_depth (local_depth : Z) (r : Receipt) : Z :=
  Z.max (Z.max 0 (local_depth - SHALLOW_RECEIPT_TOLERANCE)) (rp_radius r).

Definition verify_depth (r : Receipt) (local_depth : Z) (neighbourhood_credible : bool) : DepthVerdict :=
  if negb neighbourhood_credible then Unverifiable
  else
    let required := required_depth local_depth r in
    let observed := proximity (rp_address r) (rp_storer r) in
    if decide (observed < required) then Shallow required observed else Verified.

(** A minted receipt survives the wire: decoding the wire form of a
    receipt a storer signed, on the storer's network, gives back the receipt,
    storer included; and no wire form decodes to a receipt of which the signature
    was not recovered. *)
Theorem receipt_roundtrip identity address radius r :
  sign identity address radius = Ok r → rp_signature r ≠ zero_signature →
  reconstruct (to_wire r) (os_network identity) = Ok r ∧
  ∀ w net r', reconstruct w net = Ok r' →
    to_wire r' = w ∧ ∃ eth, recover_address (wr_signature w) (wr_address w) = Some eth ∧ rp_storer r' = compute_overlay eth net (wr_nonce w).
Proof.
  intros Hs Hz. split.
  - unfold sign in Hs. destruct (os_sign identity address) as [sig|]; [|done]. destruct (recover_address sig address) as [eth|] eqn:E; [|done].
    injection Hs as <-. simpl in Hz. unfold reconstruct. simpl. by rewrite decide_False, E.
  - intros w net r'. unfold reconstruct. case_decide; [done|]. destruct (recover_address _ _) as [eth|]; [|done].
    intros [= <-]. simpl. split; [by destruct w|eauto].
Qed.
End receipts.

(** ** Candidates to relay to *)

Section candidates.
Context (closer : Z → Z → Z → bool).

Definition MAX_FORWARD_CANDIDATES : nat := 3.

Definition closer_candidates (closest : Z → nat → list Z) (target requester local : Z) : list Z :=
  take MAX_FORWARD_CANDIDATES
    (filter (λ p, closer target p requester ∧ closer target p local)
      (filter (λ p, p ≠ requester ∧ p ≠ local) (closest target (MAX_FORWARD_CANDIDATES * 2)%nat))).

Lemma closer_candidates_spec closest target requester local p :
  p ∈ closer_candidates closest target requester local →
  p ∈ closest target (MAX_FORWARD_CANDIDATES * 2)%nat ∧ p ≠ requester ∧ p ≠ local ∧
  closer target p requester = true ∧ closer target p local = true.
Proof.
  intros Hp. apply elem_of_take in Hp as (i&Hp&_). apply list_elem_of_lookup_2 in Hp. rewrite !list_elem_of_filter in Hp. rewrite <-!Is_true_true. tauto.
Qed.
End candidates.

Section routing.
Context (proximity : Z → Z → Z) (closer : Z → Z → Z → bool).
(** [select_nth_unstable_by] of the standard library: a permutation whose first
    [n] elements are no farther than the rest. *)
Context (select_nth : nat → list (Z * Z) → list (Z * Z)).

Definition by_proximity (address : Z) (peers : list Z) : list (Z * Z) := (λ p, (p, proximity address p)) <$> peers.

Definition farther (x y : Z * Z) : Prop := y.2 <= x.2.
#[local] Instance farther_dec x y : Decision (farther x y).
Proof. unfold farther. apply _. Defined.

(** The [count] connected peers closest to the address, of the snapshot
    [iter_by_proximity] of the connected peers. *)
Definition closest_to (connected : list Z) (address : Z) (count : nat) : list Z :=
  let scored := by_proximity address connected in
  let top := if decide (count < length scored)%nat then take count (select_nth count scored) else scored in
  (merge_sort farther top).*1.

(** What the standard library promises of the partition, and what the external
    crate promises of its comparison: a peer of higher proximity order is
    strictly closer. *)
Hypothesis select_perm : ∀ n l, select_nth n l ≡ₚ l.
Hypothesis select_split : ∀ n l x y, x ∈ take n (select_nth n l) → y ∈ drop n (select_nth n l) → y.2 <= x.2.
Hypothesis closer_deeper : ∀ t a b, proximity t b < proximity t a → closer t a b = true.

#[local] Instance farther_total : Total farther.
Proof. intros x y. unfold farther. lia. Qed.
#[local] Instance farther_trans : Transitive farther.
Proof. intros x y z. unfold farther. lia. Qed.

(** The first of the closest peers is as close as any connected one. *)
Lemma closest_to_head connected address count p : p ∈ connected → (0 < count)%nat →
  ∃ h rest, closest_to connected address count = h :: rest ∧ h ∈ connected ∧ ∀ q, q ∈ connected → proximity address q <= proximity address h.
Proof.
  intros Hp Hc. unfold closest_to. set (scored := by_proximity address connected).
  assert (Hsc : ∀ x, x ∈ scored ↔ x.1 ∈ connected ∧ x.2 = proximity address x.1).
  { intros [q z]. unfold scored, by_proximity. rewrite list_elem_of_fmap. simpl. split; [intros (y&[= -> ->]&?); done|].
    intros [Hq ->]. by exists q. }
  set (top := if decide _ then _ else _).
  assert (Htop : top ≠ [] ∧ (∀ x, x ∈ top → x ∈ scored) ∧ ∀ y, y ∈ scored → y ∈ top ∨ ∀ x, x ∈ top → y.2 <= x.2).
  { assert (Hne : scored ≠ []) by (intros Hn; apply (not_elem_of_nil (p, proximity address p)); rewrite <-Hn; by apply Hsc).
    unfold top. case_decide as Hlen; [|by split_and!; [done|done|left]]. pose proof (select_perm count scored) as Hperm. split_and!.
    - intros Hn%(f_equal length). rewrite length_take, Hperm in Hn. simpl in Hn. lia.
    - intros x Hx. rewrite <-Hperm. apply elem_of_take in Hx as (i&Hx&_). by apply list_elem_of_lookup_2 in Hx.
    - intros y Hy. rewrite <-Hperm, <-(take_drop count (select_nth count scored)), elem_of_app in Hy. destruct Hy as [Hy|Hy]; [by left|right].
      intros x Hx. by eapply select_split. }
  destruct Htop as (Hne&Hsub&Hall). assert (Hs : StronglySorted farther (merge_sort farther top)) by (apply StronglySorted_merge_sort; apply _).
  pose proof (merge_sort_Permutation farther top) as Hperm. destruct (merge_sort farther top) as [|[h z] rest].
  { apply Permutation_nil_l in Hperm. done. }
  assert (Hh : (h, z) ∈ scored) by (apply Hsub; rewrite <-Hperm; left). apply Hsc in Hh as [Hh Hz]. simpl in Hh, Hz.
  exists h, (rest.*1). split; [done|]. split; [done|]. intros q Hq. rewrite <-Hz.
  assert (Hqs : (q, proximity address q) ∈ scored) by (by apply Hsc).
  destruct (Hall _ Hqs) as [Hin|Hle]; [|apply (Hle (h, z)); rewrite <-Hperm; left].
  rewrite <-Hperm in Hin. apply elem_of_cons in Hin as [[= _ ->]|Hin]; [done|]. inversion Hs as [|? ? _ Hf]; subst.
  rewrite Forall_forall in Hf. apply (Hf _ Hin).
Qed.

(** A relay is never stuck beside a deeper peer: whenever some connected
    peer shares a longer prefix with the target than this node and the requester
    do, there is a candidate, and the first one tried is a connected peer that
    shares the longest prefix of all. *)
Theorem deeper_peer_tried_first connected target requester local p :
  p ∈ connected → proximity target local < proximity target p → proximity target requester < proximity target p →
  ∃ h rest, closer_candidates closer (closest_to connected) target requester local = h :: rest ∧ h ∈ connected ∧
    ∀ q, q ∈ connected → proximity target q <= proximity target h.
Proof.
  intros Hp Hl Hr. destruct (closest_to_head connected target (MAX_FORWARD_CANDIDATES * 2) p Hp) as (h&rest&Hc&Hh&Hall);
    [unfold MAX_FORWARD_CANDIDATES; lia|].
  pose proof (Hall p Hp) as Hph. exists h. eexists. split; [|done]. unfold closer_candidates. rewrite Hc.
  rewrite filter_cons_True by (split; intros ->; lia).
  rewrite filter_cons_True by (rewrite !closer_deeper by lia; done). done.
Qed.
End routing.

(** ** A network of relaying nodes *)

Section network.
Context {K : Type}.
Context (closer : Z → Z → Z → bool) (distance : Z → Z → Z).
(** What each node's topology answers, and what each node can serve itself. *)
Context (closest : Z → Z → nat → list Z) (holds : Z → option K).
Context (target : Z).

Abbreviation candidates node requester := (closer_candidates closer (closest node) target requester node).

Fixpoint first_some {A} (f : Z → option A) (l : list Z) : option A :=
  match l with
  | [] => None
  | p :: l => match f p with Some a => Some a | None => first_some f l end
  end.

(** An inbound retrieval: serve what the node holds, else ask the candidates one
    after the other. *)
Fixpoint serve (fuel : nat) (requester node : Z) : option K :=
  match fuel with
  | O => None
  | S fuel =>
      match holds node with
      | Some c => Some c
      | None => first_some (serve fuel node) (candidates node requester)
      end
  end.

(** A node that can be reached by relaying. *)
Inductive reaches : Z → Z → Z → Prop :=
| reach_here requester node : reaches requester node node
| reach_relay requester node p h : holds node = None → p ∈ candidates node requester → reaches node p h → reaches requester node h.

(** The nodes a request passes through, each one relaying to the next. *)
Fixpoint relayed (requester : Z) (path : list Z) : Prop :=
  match path with
  | x :: ((y :: _) as rest) => y ∈ candidates x requester ∧ relayed x rest
  | _ => True
  end.

(** [closer] compares XOR distances. *)
Hypothesis closer_distance : ∀ a b, closer target a b = true ↔ distance target a < distance target b.

Lemma candidate_closer node requester p : p ∈ candidates node requester →
  distance target p < distance target node ∧ distance target p < distance target requester.
Proof. intros (_&_&_&Hr&Hl)%closer_candidates_spec. split; by apply closer_distance. Qed.

Lemma first_some_spec {A} (f : Z → option A) l :
  match first_some f l with Some a => ∃ p, p ∈ l ∧ f p = Some a | None => ∀ p, p ∈ l → f p = None end.
Proof.
  induction l as [|p l IH]; simpl; [by intros p ?%not_elem_of_nil|]. destruct (f p) as [a|] eqn:E; [exists p; split; [left|done]|].
  destruct (first_some f l) as [a|]; [destruct IH as (q&?&?); exists q; split; [by right|done]|].
  intros q [->|Hq]%elem_of_cons; [done|by apply IH].
Qed.

(** Along a relayed path distances strictly decrease. *)
Lemma relayed_decreasing path : ∀ requester x, relayed requester (x :: path) → ∀ y, y ∈ path → distance target y < distance target x.
Proof.
  induction path as [|z path IH]; intros requester x Hp y Hy; [by apply not_elem_of_nil in Hy|]. destruct Hp as [Hz Hp].
  apply candidate_closer in Hz as [Hz _]. apply elem_of_cons in Hy as [->|Hy]; [done|]. specialize (IH x z Hp y Hy). lia.
Qed.

Lemma relayed_NoDup path : ∀ requester, relayed requester path → NoDup path.
Proof.
  induction path as [|x path IH]; intros requester Hp; [constructor|]. constructor.
  - intros Hin. pose proof (relayed_decreasing path requester x Hp x Hin). lia.
  - destruct path as [|y path]; [constructor|]. destruct Hp as [_ Hp]. by eapply IH.
Qed.

(** Nodes closer to the target than this one. *)
Definition rank (nodes : list Z) (x : Z) : nat := length (filter (λ p, distance target p < distance target x) nodes).

Lemma rank_candidate nodes node requester p : p ∈ candidates node requester → p ∈ nodes → (rank nodes p < rank nodes node)%nat.
Proof.
  intros [Hp _]%candidate_closer Hin. unfold rank. induction nodes as [|q nodes IH]; [by apply not_elem_of_nil in Hin|].
  assert (Hmono : ∀ l, (length (filter (λ x, (distance target x < distance target p)%Z) l) <= length (filter (λ x, (distance target x < distance target node)%Z) l))%nat).
  { intros l. induction l as [|x l IHl]; [done|]. rewrite !filter_cons. repeat case_decide; simpl; lia. }
  apply elem_of_cons in Hin as [->|Hin].
  - rewrite filter_cons_False by lia. rewrite filter_cons_True by done. simpl. specialize (Hmono nodes). lia.
  - specialize (IH Hin). rewrite !filter_cons. repeat case_decide; simpl; lia.
Qed.

Lemma serve_complete nodes : (∀ x r p, p ∈ candidates x r → p ∈ nodes) → ∀ fuel requester node, (rank nodes node < fuel)%nat →
  match serve fuel requester node with
  | Some c => ∃ h, reaches requester node h ∧ holds h = Some c
  | None => ∀ h, reaches requester node h → holds h = None
  end.
Proof.
  intros Hin. induction fuel as [|fuel IH]; intros requester node Hf; [lia|]. simpl.
  destruct (holds node) as [c|] eqn:Eh; [exists node; split; [constructor|done]|].
  pose proof (first_some_spec (serve fuel node) (candidates node requester)) as Hs. destruct (first_some _ _) as [c|].
  - destruct Hs as (p&Hp&Hc). pose proof (rank_candidate nodes node requester p Hp (Hin _ _ _ Hp)). specialize (IH node p ltac:(lia)).
    rewrite Hc in IH. destruct IH as (h&Hr&Hh). exists h. split; [by eapply reach_relay|done].
  - intros h Hr. inversion Hr as [|? ? p ? _ Hp Hr']; subst; [done|].
    pose proof (rank_candidate nodes node requester p Hp (Hin _ _ _ Hp)). specialize (IH node p ltac:(lia)). rewrite (Hs p Hp) in IH. by apply IH.
Qed.

End network.

(** ** The relay walk *)

Inductive ForwardError :=
| NoCloserPeer | AllPeersFailed | UnverifiedRelay | ShallowReceipt | UnverifiableReceipt | AccountingRefused.

(** Take a reservation from the ledger: its number, when the gate grants it. *)
Definition acquire (e : LedgerEvent) (s : LedgerState) : option nat * LedgerState :=
  let id := fresh (dom (lg_out s)) in
  let s' := ledger_step s e in
  (if decide (is_Some (lg_out s' !! id)) then Some id else None, s').

Section relay.
Context (proximity : Z → Z → Z) (max_po : Z) (pricer : Pricer).
Context {O : Type}.

(** What the other tasks do to the ledger while the walk waits for the k-th
    answer; they do not touch the reservations the walk owns. *)
Context (others : nat → gset nat → LedgerState → LedgerState).
(** One leg of the operation: its verified answer, and the peers it reports. *)
Context (attempt : nat → Z → result ForwardError O * list Z).

Abbreviation price_of := (peer_price proximity max_po pricer).

Fixpoint relay_loop (address : Z) (provide k : nat) (candidates : list Z) (last : ForwardError) (s : LedgerState) :
    result ForwardError O * list Z * LedgerState :=
  match candidates with
  | [] => (Err last, [], s)
  | closer :: candidates =>
      match acquire (EvPrepareReceive closer (price_of closer address)) s with
      | (None, s) => relay_loop address provide k candidates AccountingRefused s
      | (Some receive, s) =>
          let s := others k {[provide; receive]} s in
          match attempt k closer with
          | (Ok output, reports) => (Ok output, reports, ledger_step s (EvApply receive))
          | (Err err, reports) =>
              let '(res, more, s) := relay_loop address provide (S k) candidates err (ledger_step s (EvDrop receive)) in
              (res, reports ++ more, s)
          end
      end
  end.

(** The answer and the un-applied upstream credit, or the error of the last leg. *)
Definition relay_walk (address : Z) (candidates : list Z) (exclude : Z) (s : LedgerState) :
    result ForwardError (O * nat) * list Z * LedgerState :=
  match candidates with
  | [] => (Err NoCloserPeer, [], s)
  | _ =>
      match acquire (EvPrepareProvide exclude (price_of exclude address)) s with
      | (None, s) => (Err AccountingRefused, [], s)
      | (Some provide, s) =>
          match relay_loop address provide 0 candidates AllPeersFailed s with
          | (Ok output, reports, s) => (Ok (output, provide), reports, s)
          | (Err err, reports, s) => (Err err, reports, ledger_step s (EvDrop provide))
          end
      end
  end.
End relay.

(** The legs of the two operations; [answer] is what the outbound request to the
    peer returned. *)
Definition retrieve_attempt {K} (chunk_address : K → Z) (address : Z) (answer : option K) : result ForwardError K * list Z :=
  match answer with
  | Some c => (if decide (chunk_address c = address) then Ok c else Err UnverifiedRelay, [])
  | None => (Err AllPeersFailed, [])
  end.

Definition push_attempt {Sig} (proximity : Z → Z → Z) (local_depth : Z) (credible : bool) (closer : Z)
    (answer : option (Receipt (Sig:=Sig))) : result ForwardError (Receipt (Sig:=Sig)) * list Z :=
  match answer with
  | Some r =>
      match verify_depth proximity r local_depth credible with
      | Verified => (Ok r, [])
      | Shallow _ _ => (Err ShallowReceipt, [closer])
      | Unverifiable => (Err UnverifiableReceipt, [])
      end
  | None => (Err AllPeersFailed, [])
  end.

(** ** Serving *)

Inductive Local (P : Type) := Fulfilled (payload : P) (provide : nat) | Delegate | Refuse.
Arguments Fulfilled {P} payload provide.
Arguments Delegate {P}.
Arguments Refuse {P}.

Inductive InboundOutcome := OutServed | OutForwarded | OutMissed | OutStored | OutRelayed | OutPushFailed.

(** Commit the upstream credit when the write landed, forfeit it when the peer
    refused an answer in hand. *)
Definition respond_and_commit (delivered : bool) (provide : nat) (success failed : InboundOutcome) (s : LedgerState) :
    InboundOutcome * LedgerState :=
  if delivered then (success, ledger_step s (EvApply provide)) else (failed, ledger_step s (EvForfeit provide)).

Definition drive {P} (local : LedgerState → Local P * LedgerState)
    (delegate : LedgerState → result ForwardError (P * nat) * LedgerState) (delivered : P → bool)
    (fulfilled delegated failed : InboundOutcome) (s : LedgerState) : InboundOutcome * LedgerState :=
  match local s with
  | (Fulfilled payload provide, s) => respond_and_commit (delivered payload) provide fulfilled failed s
  | (Refuse, s) => (failed, s)
  | (Delegate, s) =>
      match delegate s with
      | (Ok (payload, provide), s) => respond_and_commit (delivered payload) provide delegated failed s
      | (Err _, s) => (failed, s)
      end
  end.

Section serving.
Context (proximity : Z → Z → Z) (max_po : Z) (pricer : Pricer).

Definition prepare_serve (peer address : Z) (s : LedgerState) : option nat * LedgerState :=
  acquire (EvPrepareProvide peer (peer_price proximity max_po pricer peer address)) s.

(** Inbound retrieval: what the cache holds under the address, else the relay. *)
Definition retrieve_local {K} (chunk_address : K → Z) (cached : option K) (peer address : Z) (s : LedgerState) :
    Local K * LedgerState :=
  match cached with
  | Some c =>
      if decide (chunk_address c = address) then
        match prepare_serve peer address s with
        | (Some provide, s) => (Fulfilled c provide, s)
        | (None, s) => (Refuse, s)
        end
      else (Delegate, s)
  | None => (Delegate, s)
  end.

Definition retrieve_delegate {K} (chunk_address : K → Z) (others : nat → gset nat → LedgerState → LedgerState)
    (answer : nat → Z → option K) (candidates : list Z) (peer address : Z) (s : LedgerState) :
    result ForwardError (K * nat) * LedgerState :=
  match relay_walk proximity max_po pricer others (λ k p, retrieve_attempt chunk_address address (answer k p))
          address candidates peer s with
  | (Ok (c, provide), _, s) =>
      if decide (chunk_address c = address) then (Ok (c, provide), s)
      else (Err UnverifiedRelay, ledger_step s (EvDrop provide))
  | (Err e, _, s) => (Err e, s)
  end.

(** Inbound push: take custody when responsible, else the relay.  [stored] and
    [signed] are what the reserve and the signer answer. *)
Definition push_local {Sig} (responsible stored : bool) (signed : option (Receipt (Sig:=Sig))) (peer address : Z) (s : LedgerState) :
    Local (WireReceipt (Sig:=Sig)) * LedgerState :=
  if responsible then
    match prepare_serve peer address s with
    | (None, s) => (Refuse, s)
    | (Some provide, s) =>
        if stored then
          match signed with
          | Some r => (Fulfilled (to_wire r) provide, s)
          | None => (Refuse, ledger_step s (EvDrop provide))
          end
        else (Refuse, ledger_step s (EvDrop provide))
    end
  else (Delegate, s).

Definition push_delegate {Sig} (local_depth : Z) (credible : bool) (others : nat → gset nat → LedgerState → LedgerState)
    (answer : nat → Z → option (Receipt (Sig:=Sig))) (candidates : list Z) (peer address : Z) (s : LedgerState) :
    result ForwardError (WireReceipt (Sig:=Sig) * nat) * list Z * LedgerState :=
  match relay_walk proximity max_po pricer others (λ k p, push_attempt proximity local_depth credible p (answer k p))
          address candidates peer s with
  | (Ok (r, provide), reports, s) => (Ok (to_wire r, provide), reports, s)
  | (Err e, reports, s) => (Err e, reports, s)
  end.
End serving.

(** ** The ledger around a relay *)

(** A step that moves no balance. *)
Record quiet (s s' : LedgerState) : Prop := {
  qu_wf : acc_wf (lg_acc s');
  qu_peers : acc_peers (lg_acc s) ⊆ acc_peers (lg_acc s');
  qu_balance : ∀ q, ledger_balance (lg_acc s') q = ledger_balance (lg_acc s) q;
}.

Lemma quiet_trans s1 s2 s3 : quiet s1 s2 → quiet s2 s3 → quiet s1 s3.
Proof. intros [_ P1 B1] [W2 P2 B2]. split; [done|by etrans|]. intros q. by rewrite B2, B1. Qed.

Definition prepare_event (l : Leg) (peer price : Z) : LedgerEvent :=
  match l with Receive => EvPrepareReceive peer price | Provide => EvPrepareProvide peer price end.

(** What applying a reservation does to the peer's balance. *)
Definition leg_delta (l : Leg) (price : Z) : Z := match l with Receive => i64_saturating_neg price | Provide => price end.

Lemma get_or_create_peers a peer : acc_peers a ⊆ acc_peers (get_or_create_peer a peer).2.
Proof. unfold get_or_create_peer. destruct (acc_peers a !! peer) eqn:E; [done|]. simpl. by apply insert_subseteq. Qed.

Lemma on_cell_quiet a r f out out' : acc_wf a → (∀ s, ps_balance (f s) = ps_balance s) →
  quiet (mkLedgerState a out) (mkLedgerState (on_cell r f a) out').
Proof.
  intros Hwf Hf. split; simpl; [apply acc_wf_on_cell; [done|]; intros s; by rewrite Hf|done|].
  intros q. unfold ledger_balance, peer_cell. simpl. destruct (acc_peers a !! q) as [r'|]; [|done]. simpl.
  destruct (decide (r = r')) as [->|Hne]; [|by rewrite lookup_alter_ne]. rewrite lookup_alter_eq.
  destruct (acc_cells a !! r') as [s|]; [|done]. simpl. unfold PeerState.balance. by rewrite Hf.
Qed.

Lemma create_quiet a peer out out' : acc_wf a → quiet (mkLedgerState a out) (mkLedgerState (get_or_create_peer a peer).2 out').
Proof.
  intros Hwf. split; simpl; [by apply acc_wf_get_or_create|apply get_or_create_peers|].
  pose proof (get_or_create_ledger a peer Hwf) as H. destruct (get_or_create_peer a peer). apply H.
Qed.

Lemma acquire_spec l peer price s : acc_wf (lg_acc s) →
  let '(o, s') := acquire (prepare_event l peer price) s in
  quiet s s' ∧
  match o with
  | None => lg_out s' = lg_out s
  | Some id => lg_out s !! id = None ∧ ∃ r, acc_peers (lg_acc s') !! peer = Some r ∧
                 lg_out s' = <[id := reservation_new l r price]> (lg_out s)
  end.
Proof.
  intros Hwf. destruct s as [a out]. unfold acquire. simpl in *. set (id := fresh (dom out)).
  assert (Hid : out !! id = None) by apply fresh_dom_lookup.
  pose proof (create_quiet a peer out out Hwf) as Hq. pose proof (get_or_create_found a peer) as Hf.
  assert (Hno : ¬ is_Some (out !! id)) by (rewrite Hid; by intros []).
  destruct l; simpl.
  - unfold prepare_receive. destruct (admits _).
    2: { simpl. rewrite decide_False by done. by split. }
    destruct (get_or_create_peer a peer) as [r a'] eqn:Eg. simpl in *. rewrite lookup_insert_eq, decide_True by done.
    split; [|split; [done|by exists r]]. eapply quiet_trans; [exact Hq|]. apply on_cell_quiet; [apply Hq|done].
  - unfold prepare_provide. destruct (get_or_create_peer a peer) as [r a'] eqn:Eg. simpl in *. case_decide as Hg; simpl.
    + by rewrite decide_False.
    + rewrite lookup_insert_eq, decide_True by done. split; [|split; [done|by exists r]].
      eapply quiet_trans; [exact Hq|]. apply on_cell_quiet; [apply Hq|done].
Qed.

Lemma drop_step id l r p s : acc_wf (lg_acc s) → lg_out s !! id = Some (reservation_new l r p) →
  quiet s (ledger_step s (EvDrop id)) ∧ lg_out (ledger_step s (EvDrop id)) = delete id (lg_out s).
Proof.
  intros Hwf Hid. destruct s as [a out]. simpl in *. unfold consume. simpl. rewrite Hid. split; [|done].
  apply on_cell_quiet; [done|]. by destruct l.
Qed.

Lemma forfeit_step id r p s : acc_wf (lg_acc s) → lg_out s !! id = Some (reservation_new Provide r p) →
  quiet s (ledger_step s (EvForfeit id)) ∧ lg_out (ledger_step s (EvForfeit id)) = delete id (lg_out s).
Proof.
  intros Hwf Hid. destruct s as [a out]. simpl in *. rewrite Hid, decide_True by done. unfold consume. simpl. rewrite Hid. split; [|done].
  eapply quiet_trans; [apply (on_cell_quiet a r (PeerState.add_ghost p) out out); done|].
  apply on_cell_quiet; [|done]. apply acc_wf_on_cell; done.
Qed.

Lemma apply_step id l peer r p s : acc_wf (lg_acc s) → acc_peers (lg_acc s) !! peer = Some r →
  lg_out s !! id = Some (reservation_new l r p) →
  let s' := ledger_step s (EvApply id) in
  lg_out s' = delete id (lg_out s) ∧ acc_wf (lg_acc s') ∧ acc_peers (lg_acc s') = acc_peers (lg_acc s) ∧
  ∀ q, ledger_balance (lg_acc s') q =
    if decide (peer = q) then i64_saturating_add (ledger_balance (lg_acc s) peer) (leg_delta l p) else ledger_balance (lg_acc s) q.
Proof.
  intros Hwf Hp Hid. destruct s as [a out]. simpl in *. unfold consume. simpl. rewrite Hid. unfold reservation_apply. simpl.
  split; [done|]. split; [|split; [done|]].
  - apply acc_wf_on_cell; [done|]. intros s _. destruct l; apply i64_sat_range.
  - intros q. rewrite <-(ledger_balance_on_cell a peer r (leg_delta l p) q Hwf Hp).
    unfold ledger_balance, peer_cell. simpl. destruct (acc_peers a !! q) as [r'|]; [|done]. simpl.
    destruct (decide (r = r')) as [->|Hne]; [|by rewrite !lookup_alter_ne]. rewrite !lookup_alter_eq.
    destruct (acc_cells a !! r') as [s|]; [|done]. by destruct l.
Qed.

(** A reservation of a peer in the ledger. *)
Definition owns (l : Leg) (peer price : Z) (id : nat) (s : LedgerState) : Prop :=
  ∃ r, acc_peers (lg_acc s) !! peer = Some r ∧ lg_out s !! id = Some (reservation_new l r price).

(** Balances after a change [d] of one peer's. *)
Definition moved (peer d : Z) (b : Z → Z) : Z → Z := λ q, if decide (peer = q) then i64_saturating_add (b peer) d else b q.

Section books.
Context (proximity : Z → Z → Z) (max_po : Z) (pricer : Pricer).
Abbreviation price_of := (peer_price proximity max_po pricer).
Abbreviation alone := (λ (_ : nat) (_ : gset nat) (s : LedgerState), s).

(** A leg paid to [closer] and nothing else. *)
Record paid (closer address : Z) (s s' : LedgerState) : Prop := {
  pd_wf : acc_wf (lg_acc s');
  pd_peers : acc_peers (lg_acc s) ⊆ acc_peers (lg_acc s');
  pd_balance : ∀ q, ledger_balance (lg_acc s') q =
    moved closer (i64_saturating_neg (price_of closer address)) (ledger_balance (lg_acc s)) q;
}.

Lemma quiet_paid c address s1 s2 s3 : quiet s1 s2 → paid c address s2 s3 → paid c address s1 s3.
Proof.
  intros [_ P1 B1] [W2 P2 B2]. split; [done|by etrans|]. intros q. rewrite B2. unfold moved. by rewrite !B1.
Qed.

Lemma relay_loop_books {O} (attempt : nat → Z → result ForwardError O * list Z) address provide cands : ∀ k last s,
  acc_wf (lg_acc s) →
  match relay_loop proximity max_po pricer alone attempt address provide k cands last s with
  | (Err _, _, s') => quiet s s' ∧ lg_out s' = lg_out s
  | (Ok out, _, s') => ∃ j c, c ∈ cands ∧ (attempt j c).1 = Ok out ∧ lg_out s' = lg_out s ∧ paid c address s s'
  end.
Proof.
  induction cands as [|c cands IH]; intros k last s Hwf; cbn [relay_loop]; [by split|].
  pose proof (acquire_spec Receive c (price_of c address) s Hwf) as Ha. cbn [prepare_event] in Ha.
  destruct (acquire _ s) as [[id|] s1].
  - destruct Ha as (Hq&Hid&r&Hr&Hout). assert (Hhold : lg_out s1 !! id = Some (reservation_new Receive r (price_of c address)))
      by (by rewrite Hout, lookup_insert_eq).
    destruct (attempt k c) as [[out|e] reports] eqn:Eat.
    + destruct (apply_step id Receive c r _ s1 (qu_wf _ _ Hq) Hr Hhold) as (Ho&Hw&Hp&Hb). cbv beta iota zeta. exists k, c.
      split; [apply elem_of_cons; by left|]. rewrite Eat. split; [done|].
      split; [by rewrite Ho, Hout, delete_insert_id|]. apply (quiet_paid c address s s1); [done|]. split; [done|by rewrite Hp|]. apply Hb.
    + destruct (drop_step id Receive r _ s1 (qu_wf _ _ Hq) Hhold) as [Hd Ho]. pose proof (quiet_trans _ _ _ Hq Hd) as Hq2.
      assert (Hout2 : lg_out (ledger_step s1 (EvDrop id)) = lg_out s) by (by rewrite Ho, Hout, delete_insert_id).
      specialize (IH (S k) e (ledger_step s1 (EvDrop id)) (qu_wf _ _ Hq2)).
      destruct (relay_loop _ _ _ _ _ _ _ _ _ _ _) as [[[out|e'] more] s3].
      * destruct IH as (j&c'&Hc'&Hat&Hout3&Hpd). exists j, c'. split; [by right|]. split; [done|]. split; [congruence|]. by eapply quiet_paid.
      * destruct IH as [Hq3 Hout3]. split; [by eapply quiet_trans|congruence].
  - destruct Ha as [Hq Hout]. specialize (IH k AccountingRefused s1 (qu_wf _ _ Hq)).
    destruct (relay_loop _ _ _ _ _ _ _ _ _ _ _) as [[[out|e'] more] s3].
    + destruct IH as (j&c'&Hc'&Hat&Hout3&Hpd). exists j, c'. split; [by right|]. split; [done|]. split; [congruence|]. by eapply quiet_paid.
    + destruct IH as [Hq3 Hout3]. split; [by eapply quiet_trans|congruence].
Qed.

Lemma relay_walk_books {O} (attempt : nat → Z → result ForwardError O * list Z) address cands exclude s : acc_wf (lg_acc s) →
  match relay_walk proximity max_po pricer alone attempt address cands exclude s with
  | (Err _, _, s') => quiet s s' ∧ lg_out s' = lg_out s
  | (Ok (out, provide), _, s') => ∃ j c, c ∈ cands ∧ (attempt j c).1 = Ok out ∧ paid c address s s' ∧
      lg_out s !! provide = None ∧ delete provide (lg_out s') = lg_out s ∧ owns Provide exclude (price_of exclude address) provide s'
  end.
Proof.
  intros Hwf. unfold relay_walk. destruct cands as [|c0 cands0] eqn:Ec; [by split|]. rewrite <-Ec. clear Ec c0 cands0.
  pose proof (acquire_spec Provide exclude (price_of exclude address) s Hwf) as Ha. cbn [prepare_event] in Ha.
  destruct (acquire _ s) as [[id|] s1]; [|done]. destruct Ha as (Hq&Hid&r&Hr&Hout).
  pose proof (relay_loop_books attempt address id cands 0 AllPeersFailed s1 (qu_wf _ _ Hq)) as Hl.
  destruct (relay_loop _ _ _ _ _ _ _ _ _ _ _) as [[[out|e] reports] s2].
  - destruct Hl as (j&c&Hc&Hat&Hout2&Hpd). exists j, c. split; [done|]. split; [done|]. split; [by eapply quiet_paid|]. split; [done|].
    split; [by rewrite Hout2, Hout, delete_insert_id|]. exists r. split; [|by rewrite Hout2, Hout, lookup_insert_eq].
    eapply lookup_weaken; [exact Hr|apply Hpd].
  - destruct Hl as [Hq2 Hout2]. assert (Hhold : lg_out s2 !! id = Some (reservation_new Provide r (price_of exclude address)))
      by (by rewrite Hout2, Hout, lookup_insert_eq).
    destruct (drop_step id Provide r _ s2 (qu_wf _ _ Hq2) Hhold) as [Hd Ho].
    split; [eapply quiet_trans; [exact Hq|by eapply quiet_trans]|]. by rewrite Ho, Hout2, Hout, delete_insert_id.
Qed.

(** Committing or forfeiting the upstream credit ends the reservation. *)
Lemma respond_books delivered provide success failed peer price s : acc_wf (lg_acc s) → owns Provide peer price provide s →
  let '(o, s') := respond_and_commit delivered provide success failed s in
  lg_out s' = delete provide (lg_out s) ∧ o = (if delivered then success else failed) ∧
  ∀ q, ledger_balance (lg_acc s') q = if delivered then moved peer price (ledger_balance (lg_acc s)) q else ledger_balance (lg_acc s) q.
Proof.
  intros Hwf (r&Hr&Hid). unfold respond_and_commit. destruct delivered.
  - destruct (apply_step provide Provide peer r price s Hwf Hr Hid) as (Ho&_&_&Hb). split; [done|]. split; [done|]. apply Hb.
  - destruct (forfeit_step provide r price s Hwf Hid) as [[_ _ Hb] Ho]. done.
Qed.

Lemma prepare_serve_books peer address s : acc_wf (lg_acc s) →
  let '(o, s') := prepare_serve proximity max_po pricer peer address s in
  quiet s s' ∧
  match o with
  | None => lg_out s' = lg_out s
  | Some provide => delete provide (lg_out s') = lg_out s ∧ owns Provide peer (price_of peer address) provide s'
  end.
Proof.
  intros Hwf. unfold prepare_serve. pose proof (acquire_spec Provide peer (price_of peer address) s Hwf) as Ha. cbn [prepare_event] in Ha.
  destruct (acquire _ s) as [[id|] s1]; [|done]. destruct Ha as (Hq&Hid&r&Hr&Hout). split; [done|].
  split; [by rewrite Hout, delete_insert_id|]. exists r. split; [done|]. by rewrite Hout, lookup_insert_eq.
Qed.

Section retrieval.
Context {K : Type} (chunk_address : K → Z) (cached : option K) (answer : nat → Z → option K) (candidates : list Z)
  (peer address : Z) (delivered : K → bool).

(** What a served retrieval may do to the balances. *)
Definition retrieval_books (outcome : InboundOutcome) (before after : Z → Z) : Prop :=
  let answered c closer := ∃ k, closer ∈ candidates ∧ answer k closer = Some c ∧ chunk_address c = address in
  let pays closer := moved closer (i64_saturating_neg (price_of closer address)) before in
  match outcome with
  | OutServed => ∃ c, cached = Some c ∧ chunk_address c = address ∧ delivered c = true ∧
      ∀ q, after q = moved peer (price_of peer address) before q
  | OutForwarded => ∃ c closer, answered c closer ∧ delivered c = true ∧
      ∀ q, after q = moved peer (price_of peer address) (pays closer) q
  | OutMissed => (∀ q, after q = before q) ∨ ∃ c closer, answered c closer ∧ delivered c = false ∧ ∀ q, after q = pays closer q
  | _ => False
  end.

Lemma delegate_books s : acc_wf (lg_acc s) →
  let '(outcome, s') :=
    match retrieve_delegate proximity max_po pricer chunk_address alone answer candidates peer address s with
    | (Ok (payload, provide), s) => respond_and_commit (delivered payload) provide OutForwarded OutMissed s
    | (Err _, s) => (OutMissed, s)
    end in
  lg_out s' = lg_out s ∧ retrieval_books outcome (ledger_balance (lg_acc s)) (ledger_balance (lg_acc s')).
Proof.
  intros Hwf. unfold retrieve_delegate.
  pose proof (relay_walk_books (λ k p, retrieve_attempt chunk_address address (answer k p)) address candidates peer s Hwf) as Hw.
  destruct (relay_walk _ _ _ _ _ _ _ _ _) as [[[[c provide]|e] reports] s1].
  - destruct Hw as (j&closer&Hc&Hat&[Hw1 Hp1 Hb1]&_&Hout&Hown). unfold retrieve_attempt in Hat.
    destruct (answer j closer) as [c'|] eqn:Ea; [|done]. simpl in Hat. case_decide as Hadd; [|done]. injection Hat as ->.
    rewrite decide_True by done. pose proof (respond_books (delivered c) provide OutForwarded OutMissed peer _ s1 Hw1 Hown) as Hr.
    destruct (respond_and_commit _ _ _ _ _) as [o s2]. destruct Hr as (Ho&->&Hb). split; [by rewrite Ho|].
    destruct (delivered c) eqn:Ed; [|right]; exists c, closer; (split; [eauto|split; [done|]]); intros q; rewrite Hb; [|done].
    unfold moved at 1. by rewrite !Hb1.
  - destruct Hw as [[_ _ Hb] Hout]. split; [done|]. by left.
Qed.

(** C9: Serving a retrieval charges exactly what happened.  Whatever the
    cache and the peers answer, no reservation outlives the request; a chunk
    served from the cache credits the requester's price; a forwarded one answers
    the requested address, credits the requester's price and pays the one peer
    that answered its price; and a missed request moves no balance, unless an
    answer in hand was refused by the requester, when the peer that gave it stays
    paid. *)
Theorem retrieval_serve_books s : acc_wf (lg_acc s) →
  let '(outcome, s') :=
    drive (retrieve_local proximity max_po pricer chunk_address cached peer address)
      (retrieve_delegate proximity max_po pricer chunk_address alone answer candidates peer address)
      delivered OutServed OutForwarded OutMissed s in
  lg_out s' = lg_out s ∧ retrieval_books outcome (ledger_balance (lg_acc s)) (ledger_balance (lg_acc s')).
Proof.
  intros Hwf. unfold drive, retrieve_local. destruct cached as [c|] eqn:Ec; [case_decide as Hadd|]; [|by apply delegate_books..].
  pose proof (prepare_serve_books peer address s Hwf) as Hp. destruct (prepare_serve _ _ _ _ _ _) as [[provide|] s1]; destruct Hp as [Hq Hp].
  - destruct Hp as [Hout Hown]. pose proof (respond_books (delivered c) provide OutServed OutMissed peer _ s1 (qu_wf _ _ Hq) Hown) as Hr.
    destruct (respond_and_commit _ _ _ _ _) as [o s2]. destruct Hr as (Ho&->&Hb). split; [by rewrite Ho|].
    destruct (delivered c) eqn:Ed; [exists c|left]; [split_and!; [done|done|done|]|]; intros q; rewrite Hb; [unfold moved; by rewrite !(qu_balance _ _ Hq)|].
    apply Hq.
  - split; [done|]. left. apply Hq.
Qed.
End retrieval.
End books.

(** ** Relays among other tasks *)

Section interleaved.
Context (proximity : Z → Z → Z) (max_po : Z) (pricer : Pricer).
Context (others : nat → gset nat → LedgerState → LedgerState).

(** Other tasks act through the ledger's operations. *)
Definition ledger_only : Prop :=
  ∀ k owned s, ∃ tr, Forall ev_ok tr ∧ others k owned s = run ledger_step s tr.

(** Prices are amounts. *)
Definition priced (address : Z) : Prop := ∀ p, 0 <= peer_price proximity max_po pricer p address <= i64_max.

Lemma relay_loop_result {O} (attempt : nat → Z → result ForwardError O * list Z) address provide cands : ∀ k last s,
  let '(res, reports, _) := relay_loop proximity max_po pricer others attempt address provide k cands last s in
  (∀ p, p ∈ reports → ∃ j c, c ∈ cands ∧ p ∈ (attempt j c).2) ∧
  match res with Ok out => ∃ j c, c ∈ cands ∧ (attempt j c).1 = Ok out | Err _ => True end.
Proof.
  induction cands as [|c cands IH]; intros k last s; cbn [relay_loop]; [split; [by intros p ?%not_elem_of_nil|done]|].
  destruct (acquire _ s) as [[id|] s1].
  - destruct (attempt k c) as [[out|e] reports] eqn:Eat.
    + split; [intros p Hp; exists k, c; rewrite Eat; split; [left|done]|]. exists k, c. rewrite Eat. split; [left|done].
    + match goal with |- context [relay_loop _ _ _ _ _ _ _ ?k' cands ?l ?t] => specialize (IH k' l t) end.
      destruct (relay_loop _ _ _ _ _ _ _ _ _ _ _) as [[res more] s3]. destruct IH as [IHr IHo]. split.
      * intros p [Hp|Hp]%elem_of_app; [exists k, c; rewrite Eat; split; [left|done]|]. destruct (IHr p Hp) as (j&c'&?&?). exists j, c'. split; [by right|done].
      * destruct res as [out|]; [|done]. destruct IHo as (j&c'&?&?). exists j, c'. split; [by right|done].
  - specialize (IH k AccountingRefused s1). destruct (relay_loop _ _ _ _ _ _ _ _ _ _ _) as [[res more] s3]. destruct IH as [IHr IHo]. split.
    * intros p Hp. destruct (IHr p Hp) as (j&c'&?&?). exists j, c'. split; [by right|done].
    * destruct res as [out|]; [|done]. destruct IHo as (j&c'&?&?). exists j, c'. split; [by right|done].
Qed.

(** A relay never launders a shallow receipt.  Whatever the peers
    answer and whatever other tasks do meanwhile, a receipt that a push relay
    passes upstream is one a candidate gave, verbatim, the local view is credible,
    and the recovered storer is at least as deep as the local depth less the
    tolerance and as the radius it declares; and a peer is reported only for a
    receipt proven too shallow. *)
Theorem relayed_receipt_deep {Sig} local_depth credible (answer : nat → Z → option (Receipt (Sig:=Sig))) candidates peer address s :
  let '(res, reports, _) := push_delegate proximity max_po pricer local_depth credible others answer candidates peer address s in
  (∀ p, p ∈ reports → ∃ k r, answer k p = Some r ∧ credible = true ∧ proximity (rp_address r) (rp_storer r) < required_depth local_depth r) ∧
  match res with
  | Ok (wire, _) => ∃ k closer r, closer ∈ candidates ∧ answer k closer = Some r ∧ wire = to_wire r ∧ credible = true ∧
      local_depth - SHALLOW_RECEIPT_TOLERANCE <= proximity (rp_address r) (rp_storer r) ∧ rp_radius r <= proximity (rp_address r) (rp_storer r)
  | Err _ => True
  end.
Proof.
  unfold push_delegate, relay_walk. destruct candidates as [|c0 cs] eqn:Ec; [split; [by intros p ?%not_elem_of_nil|done]|]. rewrite <-Ec. clear Ec c0 cs.
  destruct (acquire _ s) as [[id|] s1]; [|split; [by intros p ?%not_elem_of_nil|done]].
  pose proof (relay_loop_result (λ k p, push_attempt proximity local_depth credible p (answer k p)) address id candidates 0 AllPeersFailed s1) as Hl.
  assert (Hrep : ∀ j c p, p ∈ (push_attempt proximity local_depth credible c (answer j c)).2 → p = c ∧
    ∃ r, answer j c = Some r ∧ credible = true ∧ proximity (rp_address r) (rp_storer r) < required_depth local_depth r).
  { intros j c p. unfold push_attempt, verify_depth. destruct (answer j c) as [r|]; [|by intros ?%not_elem_of_nil].
    destruct credible; simpl; [|by intros ?%not_elem_of_nil]. case_decide; [|by intros ?%not_elem_of_nil].
    intros ->%list_elem_of_singleton. eauto. }
  destruct (relay_loop _ _ _ _ _ _ _ _ _ _ _) as [[[out|e] reports] s2]; destruct Hl as [Hr Ho].
  - split; [intros p Hp; destruct (Hr p Hp) as (j&c&_&Hin); destruct (Hrep j c p Hin) as [-> (r&?)]; eauto|].
    destruct Ho as (j&c&Hc&Hat). exists j, c, out. split; [done|]. unfold push_attempt, verify_depth in Hat.
    destruct (answer j c) as [r|]; [|done]. destruct credible; simpl in Hat; [|done]. case_decide as Hd; [done|]. injection Hat as ->.
    unfold required_depth in Hd. split_and!; [done|done|done|lia|lia].
  - split; [intros p Hp; destruct (Hr p Hp) as (j&c&_&Hin); destruct (Hrep j c p Hin) as [-> (r&?)]; eauto|done].
Qed.

Lemma relay_loop_trace {O} (attempt : nat → Z → result ForwardError O * list Z) address provide cands : ledger_only → priced address → ∀ k last s,
  ∃ tr, Forall ev_ok tr ∧ (relay_loop proximity max_po pricer others attempt address provide k cands last s).2 = run ledger_step s tr.
Proof.
  intros Hoth Hpr. assert (Hev : ∀ c, ev_ok (EvPrepareReceive c (peer_price proximity max_po pricer c address))).
  { intros c. unfold ev_ok. simpl. specialize (Hpr c). mach. lia. }
  assert (Hsimple : ∀ id, ev_ok (EvApply id) ∧ ev_ok (EvDrop id)) by (intros id; unfold ev_ok; simpl; mach; lia).
  induction cands as [|c cands IH]; intros k last s; cbn [relay_loop]; [by exists []|].
  destruct (acquire _ s) as [o s1] eqn:Ea. assert (Hs1 : s1 = ledger_step s (EvPrepareReceive c (peer_price proximity max_po pricer c address))) by (by injection Ea as _ <-).
  destruct o as [id|].
  - destruct (Hoth k {[provide; id]} s1) as (tr&Htr&Hrun). destruct (attempt k c) as [[out|e] reports].
    + exists (EvPrepareReceive c (peer_price proximity max_po pricer c address) :: tr ++ [EvApply id]). split.
      { constructor; [done|]. apply Forall_app. split; [done|]. constructor; [apply Hsimple|done]. }
      cbn [snd]. unfold run in *. cbn [foldl]. rewrite foldl_app, <-Hs1. cbn [foldl]. by rewrite <-Hrun.
    + destruct (IH (S k) e (ledger_step (others k {[provide; id]} s1) (EvDrop id))) as (tr'&Htr'&Hrun').
      exists (EvPrepareReceive c (peer_price proximity max_po pricer c address) :: tr ++ EvDrop id :: tr'). split.
      { constructor; [done|]. apply Forall_app. split; [done|]. constructor; [apply Hsimple|done]. }
      destruct (relay_loop _ _ _ _ _ _ _ _ _ _ _) as [[res more] s3]. cbn [snd] in *. rewrite Hrun'. unfold run in *. cbn [foldl].
      rewrite foldl_app, <-Hs1. cbn [foldl]. by rewrite <-Hrun.
  - destruct (IH k AccountingRefused s1) as (tr&Htr&Hrun). exists (EvPrepareReceive c (peer_price proximity max_po pricer c address) :: tr).
    split; [by constructor|]. rewrite Hrun. unfold run. cbn [foldl]. by rewrite <-Hs1.
Qed.

(** A relay among other tasks is a trace of the ledger: everything proved of
    ledger traces holds after it. *)
Theorem relay_is_ledger_trace {O} (attempt : nat → Z → result ForwardError O * list Z) address cands exclude s :
  ledger_only → priced address →
  ∃ tr, Forall ev_ok tr ∧ (relay_walk proximity max_po pricer others attempt address cands exclude s).2 = run ledger_step s tr.
Proof.
  intros Hoth Hpr. unfold relay_walk. destruct cands as [|c0 cs] eqn:Ec; [by exists []|]. rewrite <-Ec. clear Ec c0 cs.
  set (ev := EvPrepareProvide exclude (peer_price proximity max_po pricer exclude address)).
  assert (Hev : ev_ok ev) by (unfold ev_ok, ev; simpl; specialize (Hpr exclude); mach; lia).
  destruct (acquire ev s) as [o s1] eqn:Ea. assert (Hs1 : s1 = ledger_step s ev) by (by injection Ea as _ <-).
  destruct o as [id|]; [|exists [ev]; split; [by constructor|by rewrite Hs1]].
  destruct (relay_loop_trace attempt address id cands Hoth Hpr 0 AllPeersFailed s1) as (tr&Htr&Hrun).
  destruct (relay_loop _ _ _ _ _ _ _ _ _ _ _) as [[[out|e] reports] s2]; cbn [snd] in Hrun; unfold run in *.
  - exists (ev :: tr). split; [by constructor|]. cbn [snd foldl]. by rewrite <-Hs1.
  - exists (ev :: tr ++ [EvDrop id]). split.
    { constructor; [done|]. apply Forall_app. split; [done|]. constructor; [|done]. unfold ev_ok. simpl. mach. lia. }
    cbn [snd foldl]. rewrite foldl_app, <-Hs1, <-Hrun. done.
Qed.
End interleaved.

(** ** Concrete networks *)

Module ForwardDemo.

Definition distance (t a : Z) : Z := Z.lxor t a.
Definition closer (t a b : Z) : bool := bool_decide (distance t a < distance t b).
Definition proximity (t a : Z) : Z := 31 - Z.log2 (distance t a).

Definition deeper (x y : Z * Z) : Prop := y.2 <= x.2.
#[local] Instance deeper_dec x y : Decision (deeper x y).
Proof. unfold deeper. apply _. Defined.
#[local] Instance deeper_total : Total deeper.
Proof. intros x y. unfold deeper. lia. Qed.
#[local] Instance deeper_trans : Transitive deeper.
Proof. intros x y z. unfold deeper. lia. Qed.

(** A partition by a full sort. *)
Definition select_nth (n : nat) (l : list (Z * Z)) : list (Z * Z) := merge_sort deeper l.

Lemma closer_deeper_demo t a b : proximity t b < proximity t a → closer t a b = true.
Proof. unfold proximity, closer. intros H. apply bool_decide_eq_true, Z.log2_lt_cancel. lia. Qed.

Lemma closer_distance_demo a b : closer 0 a b = true ↔ distance 0 a < distance 0 b.
Proof. unfold closer. by rewrite bool_decide_eq_true. Qed.

Lemma select_split_demo n l x y : x ∈ take n (select_nth n l) → y ∈ drop n (select_nth n l) → y.2 <= x.2.
Proof.
  intros Hx Hy. assert (Hs : StronglySorted deeper (take n (select_nth n l) ++ drop n (select_nth n l))).
  { rewrite take_drop. apply StronglySorted_merge_sort; apply _. }
  exact (StronglySorted_app_1_elem_of _ _ _ _ _ Hs Hx Hy).
Qed.

Lemma receipt_roundtrip_witness :
  let signer := mkSigner (λ a, Some (a + 1)) 7 42 in
  let recover (sig a : Z) := if decide (sig = a + 1) then Some 5 else None in
  let overlay (eth net nonce : Z) := eth * 1000 + net * 100 + nonce in
  reconstruct 0 recover overlay (to_wire (mkReceipt 9 5742 10 42 3)) 7 = Ok (mkReceipt 9 5742 10 42 3).
Proof.
  intros signer recover overlay.
  destruct (receipt_roundtrip (Sig:=Z) (Eth:=Z) (Net:=Z) 0 recover overlay signer 9 3 (mkReceipt 9 5742 10 42 3)) as [H _].
  - vm_compute. reflexivity.
  - simpl. lia.
  - exact H.
Defined.

Lemma deeper_peer_tried_first_witness :
  closer_candidates closer (closest_to proximity select_nth [40; 9; 65; 3; 130]) 0 20 17 = [3; 9] ∧
  ∃ h rest, closer_candidates closer (closest_to proximity select_nth [40; 9; 65; 3; 130]) 0 20 17 = h :: rest ∧ h ∈ [40; 9; 65; 3; 130] ∧
    ∀ q, q ∈ [40; 9; 65; 3; 130] → proximity 0 q <= proximity 0 h.
Proof.
  split; [vm_compute; reflexivity|].
  apply (deeper_peer_tried_first proximity closer select_nth
    ltac:(intros; apply merge_sort_Permutation) select_split_demo closer_deeper_demo [40; 9; 65; 3; 130] 0 20 17 9).
  - apply (bool_decide_unpack _). vm_compute. done.
  - vm_compute. done.
  - vm_compute. done.
Defined.

(** Nodes in a line: each knows only the next closer one. *)
Definition line (node target : Z) (n : nat) : list Z := if decide (1 < node) then [node - 1] else [].
Definition at_one (node : Z) : option Z := if decide (node = 1) then Some 77 else None.
Definition line_nodes (n : nat) : list Z := Z.of_nat <$> seq 1 n.

(** A line that stops at ten. *)
Definition short_line (node target : Z) (n : nat) : list Z := if decide (node <= 10) then line node target n else [].


(** The chain is not bounded by the width of an address: along a line of 300
    nodes the request is relayed 299 times. *)
Example relay_longer_than_address :
  serve closer line at_one 0 257 1000 300 = None ∧ serve closer line at_one 0 300 1000 300 = Some 77.
Proof. split; vm_compute; reflexivity. Qed.

Definition ledger : LedgerState := ledger_init default_bandwidth_config.

Lemma retrieval_serve_books_witness :
  let s' := drive (retrieve_local proximity 31 (FixedPricer 10) (λ c : Z, c) None 20 5)
    (retrieve_delegate proximity 31 (FixedPricer 10) (λ c : Z, c) (λ _ _ s, s) (λ k p, if decide (p = 4) then Some 5 else Some 6) [7; 4] 20 5)
    (λ _, true) OutServed OutForwarded OutMissed ledger in
  s'.1 = OutForwarded ∧ lg_out s'.2 = ∅ ∧ ledger_balance (lg_acc s'.2) 20 = 50 ∧ ledger_balance (lg_acc s'.2) 4 = -10.
Proof.
  intros s'. pose proof (retrieval_serve_books proximity 31 (FixedPricer 10) (λ c : Z, c) None
    (λ k p, if decide (p = 4) then Some 5 else Some 6) [7; 4] 20 5 (λ _, true) ledger (acc_wf_new _)) as H.
  fold s' in H. destruct s' as [o t] eqn:E. destruct H as [Hout _].
  assert (Ho : (o, t).1 = OutForwarded ∧ ledger_balance (lg_acc (o, t).2) 20 = 50 ∧ ledger_balance (lg_acc (o, t).2) 4 = -10).
  { rewrite <-E. split_and!; vm_compute; reflexivity. }
  destruct Ho as (H1&H2&H3). split_and!; [exact H1|exact Hout|exact H2|exact H3].
Defined.

End ForwardDemo.
