(* ===== verification/Dispatch.v ===== *)
(** * Dispatch: selecting peers and sending origin requests

    [crates/swarm/node/src]: the path of the node's own retrievals and pushes:
    - [selection.rs]: ranking of candidates by admission band and score, and the
      settlement trigger with its in-flight set;
    - [inflight.rs]: the per-peer cap on concurrent retrieval substreams;
    - [client_service.rs] ([ClientHandle]): the credit gate that books an origin
      request at dispatch and refunds it when it provably reached no charge;
    - [dispatch.rs]: the bin route, the spill, the races over them, and push.

    Scores enter only through the comparison with the warning threshold, and what
    the network answers is an input; the races are those of [Race], the ledger
    that of [Accounting]. *)

From S2P Require Import Prelude.
From S2P Require Import Au.
From S2P Require Import Accounting.
From S2P Require Import Bandwidth.
From S2P Require Import Race.
From S2P Require Import Forward.

(** ** Ranking candidates *)

Inductive Tiering := SpreadDebt | Proximity.

#[global] Instance Tiering_eq_dec : EqDecision Tiering.
Proof. solve_decision. Defined.

Section selection.
(** A peer's band for the request, and whether its score is at or below the
    warning threshold. *)
Context (admission_of : Z → Admission) (warned : Z → bool).

(** The three lists of the ranking loop. *)
Record Ranked := mkRanked { rk_headroom : list Z; rk_near : list Z; rk_warned : list Z }.

Definition rank_one (tiering : Tiering) (k : Ranked) (peer : Z) : Ranked :=
  match admission_of peer with
  | Au.Refuse => k
  | band =>
      if warned peer then mkRanked (rk_headroom k) (rk_near k) (rk_warned k ++ [peer])
      else if bool_decide (tiering = SpreadDebt) && bool_decide (band = SettleAndAdmit)
      then mkRanked (rk_headroom k) (rk_near k ++ [peer]) (rk_warned k)
      else mkRanked (rk_headroom k ++ [peer]) (rk_near k) (rk_warned k)
  end.

Definition rank_candidates (tiering : Tiering) (candidates : list Z) : list Z :=
  let k := foldl (rank_one tiering) (mkRanked [] [] []) candidates in
  match rk_headroom k ++ rk_near k with
  | [] => rk_warned k
  | ordered => ordered
  end.

(** Peers of a band that are not warned, in the order given. *)
Definition in_band (b : Admission) (l : list Z) : list Z := filter (λ p, admission_of p = b ∧ warned p = false) l.
Definition admissible (l : list Z) : list Z := filter (λ p, admission_of p ≠ Au.Refuse) l.
Definition unwarned (l : list Z) : list Z := filter (λ p, warned p = false) (admissible l).

Lemma rank_fold tiering l : ∀ k, foldl (rank_one tiering) k l =
  mkRanked (rk_headroom k ++ if decide (tiering = SpreadDebt) then in_band Admit l else unwarned l)
    (rk_near k ++ if decide (tiering = SpreadDebt) then in_band SettleAndAdmit l else [])
    (rk_warned k ++ filter (λ p, warned p = true) (admissible l)).
Proof.
  induction l as [|p l IH]; intros k; simpl; [destruct k; destruct (decide _); unfold in_band, unwarned, admissible; by rewrite !app_nil_r|].
  rewrite IH. unfold rank_one, in_band, unwarned, admissible. rewrite !filter_cons.
  destruct (admission_of p) eqn:Ea, (warned p) eqn:Ew, tiering; simpl; repeat (rewrite filter_cons || case_decide); simpl; rewrite <-?app_assoc; simpl;
    done || congruence.
Qed.

Lemma unwarned_length l : length (unwarned l) = length (in_band Admit l ++ in_band SettleAndAdmit l).
Proof.
  rewrite length_app. unfold in_band, unwarned, admissible. induction l as [|p l IH]; [done|]. rewrite !filter_cons.
  destruct (admission_of p) eqn:Ea, (warned p) eqn:Ew; repeat (rewrite filter_cons || case_decide); simpl; lia || naive_solver congruence.
Qed.

(** The ranking is what it promises, for every list of candidates: a
    peer the band refuses never appears; while some admissible peer is not
    warned, no warned one does, and the others come in the order given, those
    with headroom before those past the settle trigger when debt is to be spread;
    only when every admissible peer is warned are the warned ones returned. *)
Theorem rank_candidates_spec tiering candidates :
  rank_candidates tiering candidates =
    if decide (unwarned candidates = []) then admissible candidates
    else match tiering with
         | SpreadDebt => in_band Admit candidates ++ in_band SettleAndAdmit candidates
         | Proximity => unwarned candidates
         end.
Proof.
  unfold rank_candidates. rewrite rank_fold. simpl.
  assert (Hall : unwarned candidates = [] → filter (λ p, warned p = true) (admissible candidates) = admissible candidates).
  { unfold unwarned. generalize (admissible candidates). intros l. induction l as [|p l IH]; [done|]. rewrite !filter_cons.
    destruct (warned p) eqn:Ew; repeat case_decide; try done. intros Hn. by rewrite IH. }
  assert (Hband : in_band Admit candidates ++ in_band SettleAndAdmit candidates = [] ↔ unwarned candidates = []).
  { rewrite <-!length_zero_iff_nil, unwarned_length. done. }
  destruct tiering; simpl.
  - case_decide as Hu; [apply Hband in Hu as Hn; rewrite Hn; by apply Hall|]. destruct (in_band Admit candidates ++ _) as [|x l] eqn:E; [|done].
    exfalso. by apply Hu, Hband.
  - rewrite app_nil_r. case_decide as Hu; [rewrite Hu; by apply Hall|]. destruct (unwarned candidates) as [|x l] eqn:E; done.
Qed.

Lemma rank_admissible tiering candidates p : p ∈ rank_candidates tiering candidates → admission_of p ≠ Au.Refuse.
Proof.
  unfold rank_candidates. rewrite rank_fold. cbn [rk_headroom rk_near rk_warned app].
  assert (Hb : ∀ b, b ≠ Au.Refuse → p ∈ in_band b candidates → admission_of p ≠ Au.Refuse) by (intros b Hb [[<- _] _]%list_elem_of_filter; done).
  assert (Hu : p ∈ unwarned candidates → admission_of p ≠ Au.Refuse) by (by intros [_ [? _]%list_elem_of_filter]%list_elem_of_filter).
  assert (Hw : p ∈ filter (λ p, warned p = true) (admissible candidates) → admission_of p ≠ Au.Refuse) by (by intros [_ [? _]%list_elem_of_filter]%list_elem_of_filter).
  destruct (_ ++ _) as [|x l] eqn:E; [done|]. rewrite <-E, elem_of_app. case_decide.
  - intros [?|?]; eapply Hb; [|done| |done]; done.
  - intros [?|?%elem_of_nil]; [by apply Hu|done].
Qed.
End selection.

(** [PeerSelector]: the band of each candidate at its price for the chunk. *)
Section selector.
Context (proximity : Z → Z → Z) (max_po : Z) (pricer : Pricer) (warned : Z → bool) (a : Accounting).

Definition order_inner (tiering : Tiering) (chunk : Z) (candidates : list Z) : list Z :=
  rank_candidates (λ peer, ledger_admit a peer (peer_price proximity max_po pricer peer chunk)) warned tiering candidates.
Definition order (chunk : Z) (candidates : list Z) : list Z := order_inner SpreadDebt chunk candidates.
Definition order_closest_admissible (chunk : Z) (candidates : list Z) : list Z := order_inner Proximity chunk candidates.
End selector.

(** ** Settlement triggers

    The peers whose settlement is running; a trigger for one of them is dropped,
    and the end of a settlement, however it ends, removes its peer. *)

Inductive SettleEvent := Trigger (executor : bool) (peer : Z) | SettleEnds (peer : Z).

(** The in-flight set and the settlement tasks that run. *)
Definition trigger_settlement (executor : bool) (peer : Z) (s : gset Z * list Z) : gset Z * list Z :=
  if executor then if decide (peer ∈ s.1) then s else ({[peer]} ∪ s.1, peer :: s.2) else s.

(** The guard dropped by the task of [peer]. *)
Definition settle_ends (peer : Z) (s : gset Z * list Z) : gset Z * list Z :=
  match list_find (λ q, q = peer) s.2 with
  | None => s
  | Some (i, _) => (s.1 ∖ {[peer]}, delete i s.2)
  end.

Definition settle_step (s : gset Z * list Z) (e : SettleEvent) : gset Z * list Z :=
  match e with Trigger executor peer => trigger_settlement executor peer s | SettleEnds peer => settle_ends peer s end.

(** At most one settlement per peer runs, whatever the triggers and ends, and
    the set holds exactly the running ones, so a trigger starts one exactly when
    none runs. *)
Theorem one_settlement_per_peer es : let s := foldl settle_step (∅, []) es in NoDup s.2 ∧ ∀ p, p ∈ s.1 ↔ p ∈ s.2.
Proof.
  assert (H : ∀ s : gset Z * list Z, NoDup s.2 ∧ (∀ p, p ∈ s.1 ↔ p ∈ s.2) →
    NoDup (foldl settle_step s es).2 ∧ ∀ p, p ∈ (foldl settle_step s es).1 ↔ p ∈ (foldl settle_step s es).2).
  2:{ apply H. split; [constructor|set_solver]. }
  induction es as [|e es IH]; intros [f l] [Hn He]; simpl in *; [done|]. apply IH. clear IH. destruct e as [ex p|p]; simpl.
  - unfold trigger_settlement. destruct ex; [|done]. simpl. case_decide as Hp; [done|]. split; [constructor; [by rewrite <-He|done]|].
    intros q. simpl. rewrite elem_of_cons, elem_of_union, elem_of_singleton, He. done.
  - unfold settle_ends. simpl. destruct (list_find _ l) as [[i x]|] eqn:E; [|done]. apply list_find_Some in E as (Hi&->&_).
    rewrite delete_take_drop. simpl. pose proof (take_drop_middle l i p Hi) as Hl. rewrite <-Hl in Hn, He.
    assert (Hp : p ∉ take i l ++ drop (S i) l) by (rewrite <-Permutation_middle in Hn; by apply NoDup_cons in Hn as [? _]).
    assert (Hn' : NoDup (take i l ++ drop (S i) l)) by (rewrite <-Permutation_middle in Hn; by apply NoDup_cons in Hn as [_ ?]).
    split; [done|]. intros q. rewrite elem_of_difference, elem_of_singleton, He, <-Permutation_middle, elem_of_cons. naive_solver.
Qed.

(** ** The per-peer in-flight cap

    Semaphores are shared cells: a permit keeps its semaphore across a
    [forget], the peer's next reservation makes a fresh one. *)

Definition DEFAULT_PEER_INFLIGHT_CAP : Z := 4.

Record PeerInflightLimiter := mkLimiter {
  il_cap : Z;
  il_peers : gmap Z nat;
  il_free : gmap nat Z;       (** available permits of each semaphore *)
  il_permits : gmap nat nat;  (** permits handed out, with their semaphore *)
}.

Implicit Types (l : PeerInflightLimiter).

Definition limiter_new (cap : Z) : PeerInflightLimiter := mkLimiter cap ∅ ∅ ∅.

Definition has_free_slot (peer : Z) l : bool :=
  match il_peers l !! peer with
  | None => true
  | Some sem => bool_decide (0 < default 0 (il_free l !! sem))
  end.

Definition semaphore_of (peer : Z) l : nat * PeerInflightLimiter :=
  match il_peers l !! peer with
  | Some sem => (sem, l)
  | None =>
      let sem := fresh (dom (il_free l)) in
      (sem, mkLimiter (il_cap l) (<[peer := sem]> (il_peers l)) (<[sem := il_cap l]> (il_free l)) (il_permits l))
  end.

Definition try_acquire (peer : Z) l : option nat * PeerInflightLimiter :=
  let '(sem, l) := semaphore_of peer l in
  let free := default 0 (il_free l !! sem) in
  if decide (0 < free) then
    let permit := fresh (dom (il_permits l)) in
    (Some permit, mkLimiter (il_cap l) (il_peers l) (<[sem := free - 1]> (il_free l)) (<[permit := sem]> (il_permits l)))
  else (None, l).

(** Dropping a permit. *)
Definition release (permit : nat) l : PeerInflightLimiter :=
  match il_permits l !! permit with
  | None => l
  | Some sem => mkLimiter (il_cap l) (il_peers l) (alter (Z.add 1) sem (il_free l)) (delete permit (il_permits l))
  end.

Definition forget (peer : Z) l : PeerInflightLimiter := mkLimiter (il_cap l) (delete peer (il_peers l)) (il_free l) (il_permits l).

(** Free peers lead, busy ones follow; the cap is not enforced. *)
Definition available (candidates : list Z) l : list Z * bool :=
  (filter (λ p, has_free_slot p l = true) candidates ++ filter (λ p, has_free_slot p l = false) candidates, false).

Inductive LimiterOp := OpAcquire (peer : Z) | OpRelease (permit : nat) | OpForget (peer : Z).

Definition limiter_step l (op : LimiterOp) : PeerInflightLimiter :=
  match op with
  | OpAcquire peer => (try_acquire peer l).2
  | OpRelease permit => release permit l
  | OpForget peer => forget peer l
  end.

(** Permits handed out on a semaphore. *)
Definition on_semaphore (sem : nat) (permit s : nat) : Z := if decide (s = sem) then 1 else 0.
Definition held_on (sem : nat) l : Z := map_sumZ (on_semaphore sem) (il_permits l).

Record limiter_ok l : Prop := {
  lk_count : ∀ sem free, il_free l !! sem = Some free → 0 <= free ∧ free + held_on sem l = il_cap l;
  lk_peers : ∀ p sem, il_peers l !! p = Some sem → is_Some (il_free l !! sem);
  lk_permits : ∀ k sem, il_permits l !! k = Some sem → is_Some (il_free l !! sem);
}.

Lemma held_none sem (m : gmap nat nat) : (∀ k s, m !! k = Some s → s ≠ sem) → map_sumZ (on_semaphore sem) m = 0.
Proof. intros H. apply map_sumZ_zero. intros k s Hk. unfold on_semaphore. rewrite decide_False; [done|]. by eapply H. Qed.

Lemma semaphore_of_ok peer l : 0 <= il_cap l → limiter_ok l → limiter_ok (semaphore_of peer l).2 ∧
  is_Some (il_free (semaphore_of peer l).2 !! (semaphore_of peer l).1) ∧ il_cap (semaphore_of peer l).2 = il_cap l ∧
  il_permits (semaphore_of peer l).2 = il_permits l.
Proof.
  intros Hc [H1 H2 H3]. unfold semaphore_of. destruct (il_peers l !! peer) as [sem|] eqn:E; simpl; [split_and!; [by split|eauto|done|done]|].
  set (sem := fresh (dom (il_free l))). assert (Hf : il_free l !! sem = None) by apply fresh_dom_lookup.
  split; [|rewrite lookup_insert_eq; eauto]. split; simpl.
  - intros s free [[<- <-]|[Hne Hs]]%lookup_insert_Some; [|by apply H1]. split; [done|]. unfold held_on. simpl.
    rewrite held_none; [lia|]. intros k s Hk ->. apply H3 in Hk as [? ?]. congruence.
  - intros p s [[<- <-]|[Hne Hs]]%lookup_insert_Some; [rewrite lookup_insert_eq; eauto|]. apply lookup_insert_is_Some'. eauto.
  - intros k s Hk. apply lookup_insert_is_Some'. eauto.
Qed.

Lemma limiter_step_ok l op : 0 <= il_cap l → limiter_ok l → limiter_ok (limiter_step l op) ∧ il_cap (limiter_step l op) = il_cap l.
Proof.
  intros Hc Hok. destruct op as [peer|permit|peer]; simpl.
  - unfold try_acquire. destruct (semaphore_of_ok peer l Hc Hok) as ([H1 H2 H3]&[free Hfree]&Hcap&_).
    destruct (semaphore_of peer l) as [sem l1]. simpl in *. rewrite Hfree. simpl. case_decide as Hpos; [|by split].
    assert (Hp : il_permits l1 !! fresh (dom (il_permits l1)) = None) by apply fresh_dom_lookup.
    split; [|done]. split; simpl.
    + intros s f Hs. unfold held_on. simpl. rewrite map_sumZ_insert by done. unfold on_semaphore at 1.
      apply lookup_insert_Some in Hs as [[<- <-]|[Hne Hs]].
      * rewrite decide_True by done. destruct (H1 sem free Hfree). unfold held_on in *. lia.
      * rewrite decide_False by congruence. destruct (H1 s f Hs). unfold held_on in *. lia.
    + intros p s Hs. apply lookup_insert_is_Some'. eauto.
    + intros k s [[_ <-]|[_ Hs]]%lookup_insert_Some; apply lookup_insert_is_Some'; eauto.
  - unfold release. destruct (il_permits l !! permit) as [sem|] eqn:E; [|done]. destruct Hok as [H1 H2 H3]. split; [|done].
    assert (Hdel : ∀ s, map_sumZ (on_semaphore s) (delete permit (il_permits l)) = held_on s l - on_semaphore s permit sem).
    { intros s. unfold held_on. rewrite (map_sumZ_delete (on_semaphore s) _ _ _ E). lia. }
    split; simpl.
    + intros s f Hs. unfold held_on. simpl. rewrite Hdel. unfold on_semaphore. destruct (decide (sem = s)) as [->|Hne].
      * rewrite lookup_alter_eq in Hs. apply fmap_Some in Hs as (f0&Hf0&->). destruct (H1 s f0 Hf0). lia.
      * rewrite lookup_alter_ne in Hs by done. destruct (H1 s f Hs). lia.
    + intros p s Hs. rewrite lookup_alter_is_Some. eauto.
    + intros k s [_ Hs]%lookup_delete_Some. rewrite lookup_alter_is_Some. eauto.
  - destruct Hok as [H1 H2 H3]. split; [|done]. split; simpl; [done| |done]. intros p s [_ Hs]%lookup_delete_Some. eauto.
Qed.

(** The cap holds: after any reservations, releases and disconnects, a peer's
    semaphore and its outstanding permits add up to the cap, so a peer has a free
    slot exactly when fewer than the cap are held on it, which is exactly when a
    reservation is granted. *)
Theorem inflight_cap_exact cap ops peer : 1 <= cap →
  let l := foldl limiter_step (limiter_new cap) ops in
  let held := match il_peers l !! peer with Some sem => held_on sem l | None => 0 end in
  0 <= held <= cap ∧ (has_free_slot peer l = true ↔ held < cap) ∧ (is_Some (try_acquire peer l).1 ↔ has_free_slot peer l = true).
Proof.
  intros Hcap l held. assert (Hok : limiter_ok l ∧ il_cap l = cap).
  { unfold l. assert (H0 : limiter_ok (limiter_new cap) ∧ il_cap (limiter_new cap) = cap) by (by split; [split|]).
    revert H0. generalize (limiter_new cap). induction ops as [|op ops IH]; intros l0 [H0 Hc0]; simpl; [done|]. apply IH.
    rewrite <-Hc0. apply limiter_step_ok; [lia|done]. }
  destruct Hok as [[H1 H2 H3] Hc]. unfold held, has_free_slot, try_acquire, semaphore_of. destruct (il_peers l !! peer) as [sem|] eqn:E.
  - destruct (H2 _ _ E) as [free Hf]. destruct (H1 _ _ Hf) as [Hnn Hsum]. rewrite Hf. simpl. rewrite bool_decide_eq_true.
    assert (0 <= held_on sem l).
    { unfold held_on. apply map_sumZ_nonneg. intros k s _. unfold on_semaphore. case_decide; lia. }
    split; [lia|]. split; [lia|]. case_decide; simpl; split; try done; by intros [].
  - simpl. rewrite lookup_insert_eq. simpl. rewrite decide_True by lia. simpl. split; [lia|]. split; [split; [lia|done]|]. done.
Qed.

(** ** The origin credit gate *)

Inductive ChunkTransferError :=
| CommandChannelClosed | NotConnected | Cancelled | TransferTimedOut | ProtocolError | RemoteFailure | ChunkNotFound | AdmissionRefused.

#[global] Instance ChunkTransferError_eq_dec : EqDecision ChunkTransferError.
Proof. solve_decision. Defined.

Definition is_confirmed_absent (e : ChunkTransferError) : bool :=
  match e with ChunkNotFound | NotConnected => true | _ => false end.

Section origin.
Context (proximity : Z → Z → Z) (max_po : Z) (pricer : Pricer).
Abbreviation price_of := (peer_price proximity max_po pricer).

(** Gate and book at dispatch: the price to refund later, the settlements
    triggered, and the ledger.  [gated] tells whether the handle has the gate. *)
Definition reserve_origin (gated originated : bool) (peer address : Z) (a : Accounting) :
    result ChunkTransferError (option Z) * list Z * Accounting :=
  if gated && originated then
    let price := price_of peer address in
    match ledger_admit a peer price with
    | Au.Refuse => (Err AdmissionRefused, [peer], a)
    | admission =>
        let settled := if settles admission then [peer] else [] in
        match debit_received a peer price with
        | (Ok _, a) => (Ok (Some price), settled, a)
        | (Err _, a) => (Err AdmissionRefused, settled ++ [peer], a)
        end
    end
  else (Ok None, [], a).

Definition refund_origin (gated : bool) (peer : Z) (committed : option Z) (a : Accounting) : Accounting :=
  match committed with Some price => if gated then refund_received a peer price else a | None => a end.

(** [retrieve_chunk] and [push_chunk]: [sent] tells whether the command channel
    took the request, [response] what came back ([None] when the channel was
    dropped), [others] what other tasks did to the ledger meanwhile. *)
Definition request {R} (gated originated : bool) (peer address : Z) (sent : bool)
    (response : option (result ChunkTransferError R)) (others : Accounting → Accounting) (a : Accounting) :
    result ChunkTransferError R * list Z * Accounting :=
  match reserve_origin gated originated peer address a with
  | (Err e, settled, a) => (Err e, settled, a)
  | (Ok committed, settled, a) =>
      if sent then
        let a := others a in
        match default (Err Cancelled) response with
        | Err e => (Err e, settled, if is_confirmed_absent e then refund_origin gated peer committed a else a)
        | Ok r => (Ok r, settled, a)
        end
      else (Err CommandChannelClosed, settled, refund_origin gated peer committed a)
  end.

Lemma debit_admitted a peer price : ledger_admit a peer price ≠ Au.Refuse → (debit_received a peer price).1 = Ok tt.
Proof.
  intros Ha. unfold debit_received, prepare_receive. destruct (ledger_admit a peer price); [| |done]; simpl;
    by destruct (get_or_create_peer a peer).
Qed.

Lemma debit_balance a peer price a1 q : acc_wf a → debit_received a peer price = (Ok tt, a1) →
  acc_wf a1 ∧ ledger_balance a1 q = moved peer (i64_saturating_neg price) (ledger_balance a) q.
Proof.
  intros Hwf Hd. unfold debit_received, prepare_receive in Hd. destruct (admits _) eqn:Ha; [|done].
  pose proof (acquire_spec Receive peer price (mkLedgerState a ∅) Hwf) as Hs. unfold acquire in Hs. cbn [prepare_event ledger_step lg_acc lg_out] in Hs.
  unfold prepare_receive in Hs. rewrite Ha in Hs. destruct (get_or_create_peer a peer) as [r a'] eqn:Eg. cbn [hold] in Hs.
  injection Hd as <-. cbn [lg_out] in Hs. rewrite lookup_insert_eq in Hs. rewrite decide_True in Hs by done. destruct Hs as (Hq&_&r'&Hr'&Hout). cbn [lg_out] in Hout.
  assert (r' = r) as ->.
  { apply (f_equal (λ m, m !! fresh (dom (∅ : gmap nat Reservation)))) in Hout. rewrite !lookup_insert_eq in Hout. by injection Hout as <-. }
  pose proof (apply_step (fresh (dom (∅ : gmap nat Reservation))) Receive peer r price _ (qu_wf _ _ Hq) Hr' ltac:(simpl; by rewrite lookup_insert_eq)) as Hap.
  cbn [ledger_step] in Hap. unfold consume in Hap. cbn [lg_out lg_acc] in Hap. rewrite lookup_insert_eq in Hap. cbn [lg_acc] in Hap.
  destruct Hap as (_&Hw&_&Hb). split; [done|]. rewrite Hb. unfold moved. pose proof (qu_balance _ _ Hq) as Hqb. simpl in Hqb. by rewrite !Hqb.
Qed.

(** An origin request is booked when it is sent and refunded exactly
    when it cannot have been charged.  A request the band refuses moves nothing
    and triggers one settlement; one the band admits is never refused by the
    debit, triggers a settlement only past the settle trigger, and leaves the
    peer's price booked, unless it never reached the channel or the peer proved
    the chunk absent, when the balance is what it was; no other peer's balance
    moves. *)
Theorem origin_request_books {R} peer address sent (response : option (result ChunkTransferError R)) a :
  let price := price_of peer address in
  acc_wf a → 0 <= price <= i64_max → i64_min <= ledger_balance a peer - price →
  let '(res, settled, a') := request true true peer address sent response (λ a, a) a in
  if decide (ledger_admit a peer price = Au.Refuse) then res = Err AdmissionRefused ∧ settled = [peer] ∧ a' = a
  else
    let kept := sent && match response with Some (Err e) => negb (is_confirmed_absent e) | _ => true end in
    res = (if sent then default (Err Cancelled) response else Err CommandChannelClosed) ∧
    settled = (if decide (ledger_admit a peer price = SettleAndAdmit) then [peer] else []) ∧
    ∀ q, ledger_balance a' q = if kept && bool_decide (peer = q) then ledger_balance a q - price else ledger_balance a q.
Proof.
  intros price Hwf Hp Hb. unfold request, reserve_origin. simpl. fold price. case_decide as Hr; [by rewrite Hr|].
  pose proof (debit_admitted a peer price Hr) as Hd. destruct (debit_received a peer price) as [res a1] eqn:Ed. simpl in Hd. subst res.
  pose proof (λ q, debit_balance a peer price a1 q Hwf Ed) as Hbal. pose proof (proj1 (Hbal 0)) as Hwf1.
  assert (Hbooked : ∀ q, ledger_balance a1 q = if bool_decide (peer = q) then ledger_balance a q - price else ledger_balance a q).
  { intros q. destruct (Hbal q) as [_ ->]. unfold moved. pose proof (ledger_balance_i64 a peer Hwf) as Hi. unfold is_i64 in Hi.
    case_decide as Hq; [subst q; rewrite bool_decide_eq_true_2 by done|by rewrite bool_decide_eq_false_2].
    unfold i64_saturating_add, i64_saturating_neg, i64_sat. mach. lia. }
  assert (Hback : ∀ q, ledger_balance (refund_received a1 peer price) q = ledger_balance a q).
  { intros q. unfold refund_received. rewrite record_for_ledger by done. rewrite !Hbooked. simpl.
    pose proof (ledger_balance_i64 a peer Hwf) as Hi. unfold is_i64 in Hi.
    case_decide as Hq; [subst q; rewrite bool_decide_eq_true_2 by done|by rewrite bool_decide_eq_false_2].
    unfold i64_saturating_add, i64_sat. mach. lia. }
  assert (Hset : (if settles (ledger_admit a peer price) then [peer] else []) = if decide (ledger_admit a peer price = SettleAndAdmit) then [peer] else [])
    by (by destruct (ledger_admit a peer price)).
  destruct (ledger_admit a peer price) eqn:Ea; [| |done].
  all: destruct sent; [|split_and!; [done|done|intros q; simpl; apply Hback]].
  all: destruct response as [[v|e]|]; simpl; [split_and!; [done|done|intros q; apply Hbooked]| |split_and!; [done|done|intros q; apply Hbooked]].
  all: split_and!; [done|done|]; intros q; destruct (is_confirmed_absent e); simpl; [apply Hback|apply Hbooked].
Qed.
End origin.

(** ** The bin route *)

(** One round of [spill_bins]: the bins at distance [delta] on either side. *)
Definition spill_round (b max_bin delta : Z) : list Z :=
  (if decide (delta <= b) then [b - delta] else []) ++
  (let upper := Z.min u8_max (b + delta) in if decide (b < upper ∧ upper <= max_bin) then [upper] else []).

Fixpoint spill_loop (fuel : nat) (b max_bin delta : Z) : list Z :=
  match fuel with
  | O => []
  | S fuel =>
      match spill_round b max_bin delta with
      | [] => []
      | bins => bins ++ spill_loop fuel b max_bin (delta + 1)
      end
  end.

(** The rounds end when both sides are exhausted, after at most as many as
    there are bins. *)
Definition spill_bins (b max_bin : Z) : list Z := b :: spill_loop 256 b max_bin 1.

Section route.
Context (proximity : Z → Z → Z).

Definition nearer (chunk x y : Z) : Prop := proximity chunk y <= proximity chunk x.
#[local] Instance nearer_dec chunk x y : Decision (nearer chunk x y).
Proof. unfold nearer. apply _. Defined.

Fixpoint fill_route (chunk : Z) (width : nat) (peers_in_bin : Z → list Z) (order bins : list Z) : list Z :=
  match bins with
  | [] => order
  | bin :: bins =>
      if decide (width <= length order)%nat then order
      else fill_route chunk width peers_in_bin (order ++ merge_sort (nearer chunk) (peers_in_bin bin)) bins
  end.

Definition bin_routed_order (chunk local max_bin : Z) (width : nat) (peers_in_bin : Z → list Z) : list Z :=
  let b := Z.min (proximity chunk local) max_bin in
  take width (fill_route chunk width peers_in_bin [] (spill_bins b max_bin)).

(** The route, all bins taken. *)
Definition full_route (chunk local max_bin : Z) (peers_in_bin : Z → list Z) : list Z :=
  concat ((λ bin, merge_sort (nearer chunk) (peers_in_bin bin)) <$> spill_bins (Z.min (proximity chunk local) max_bin) max_bin).

Lemma fill_route_take chunk width peers_in_bin bins : ∀ order,
  take width (fill_route chunk width peers_in_bin order bins) =
  take width (order ++ concat ((λ bin, merge_sort (nearer chunk) (peers_in_bin bin)) <$> bins)).
Proof.
  induction bins as [|bin bins IH]; intros order; simpl; [by rewrite app_nil_r|]. case_decide as Hw.
  - rewrite take_app_le by done. done.
  - rewrite IH. by rewrite <-app_assoc.
Qed.
End route.

(** Rounds visit the bins in order of their distance from the first. *)
Lemma spill_loop_spec b max_bin : 0 <= b <= max_bin → max_bin < u8_max → ∀ fuel delta, 1 <= delta → max_bin < Z.of_nat fuel + delta →
  let l := spill_loop fuel b max_bin delta in
  (∀ x, x ∈ l ↔ 0 <= x <= max_bin ∧ delta <= Z.abs (x - b)) ∧ NoDup l ∧
  StronglySorted (λ x y, Z.abs (x - b) <= Z.abs (y - b)) l.
Proof.
  intros Hb Hm. induction fuel as [|fuel IH]; intros delta Hd Hf; simpl.
  { split_and!; [|constructor|constructor]. intros x. split; [by intros ?%not_elem_of_nil|]. lia. }
  assert (Hround : ∀ x, x ∈ spill_round b max_bin delta ↔ 0 <= x <= max_bin ∧ Z.abs (x - b) = delta).
  { intros x. unfold spill_round. rewrite elem_of_app. mach. repeat case_decide; rewrite ?list_elem_of_singleton, ?elem_of_nil; lia. }
  assert (Hnd : NoDup (spill_round b max_bin delta)).
  { unfold spill_round. mach. repeat case_decide; simpl; repeat constructor; rewrite ?list_elem_of_singleton, ?elem_of_nil; lia || (by intros []). }
  destruct (IH (delta + 1) ltac:(lia) ltac:(lia)) as (He&Hn&Hs). clear IH.
  set (rest := spill_loop fuel b max_bin (delta + 1)) in *. clearbody rest.
  destruct (spill_round b max_bin delta) as [|y ys] eqn:Er.
  - split_and!; [|constructor|constructor]. intros x. split; [by intros ?%not_elem_of_nil|]. intros [Hx Hdist]. exfalso.
    destruct (decide (x <= b)).
    + apply (not_elem_of_nil (b - delta)), Hround. lia.
    + apply (not_elem_of_nil (b + delta)), Hround. lia.
  - change (y :: ys ++ rest) with ((y :: ys) ++ rest). rewrite <-Er in *. split_and!.
    + intros x. rewrite elem_of_app, Hround, He. lia.
    + apply NoDup_app. split; [done|]. split; [|done]. intros x Hx%Hround Hx'%He. lia.
    + apply StronglySorted_app_2; [|clear -Hround|done].
      * intros x z Hx%Hround Hz%He. lia.
      * assert (Hall : Forall (λ x, Z.abs (x - b) = delta) (spill_round b max_bin delta)) by (apply Forall_forall; intros x Hx%Hround; lia).
        clear Hround. induction Hall as [|x l Hx Hl IH]; [constructor|]. constructor; [done|]. eapply Forall_impl; [exact Hl|]. simpl. lia.
Qed.

(** The bin route visits every bin once, nearest first: from the
    forwarding bin the spill visits each bin up to the highest exactly once, in
    order of distance from the forwarding bin; and the route is the first
    [width] peers of those bins, each bin's in order of proximity to the chunk. *)
Theorem bin_route_complete (proximity : Z → Z → Z) chunk local max_bin width peers_in_bin :
  0 <= proximity chunk local → 0 <= max_bin < u8_max →
  let b := Z.min (proximity chunk local) max_bin in
  spill_bins b max_bin ≡ₚ seqZ 0 (max_bin + 1) ∧
  StronglySorted (λ x y, Z.abs (x - b) <= Z.abs (y - b)) (spill_bins b max_bin) ∧ head (spill_bins b max_bin) = Some b ∧
  bin_routed_order proximity chunk local max_bin width peers_in_bin = take width (full_route proximity chunk local max_bin peers_in_bin).
Proof.
  intros Hp Hm b. assert (Hb : 0 <= b <= max_bin) by lia.
  destruct (spill_loop_spec b max_bin Hb ltac:(lia) 256 1 ltac:(lia) ltac:(mach; lia)) as (He&Hn&Hs).
  split; [|split; [|split; [done|]]].
  - apply NoDup_Permutation; [|apply NoDup_seqZ|].
    + constructor; [|done]. rewrite He. lia.
    + intros x. unfold spill_bins. rewrite elem_of_cons, He, elem_of_seqZ. lia.
  - constructor; [done|]. apply Forall_forall. intros x Hx%He. rewrite Z.sub_diag. lia.
  - unfold bin_routed_order, full_route. apply fill_route_take.
Qed.

(** ** Push *)

Inductive SwarmError :=
| NoStorer | InvalidSignature | UnconfirmedCustody | PushPeersFailed (attempts : Z) (source : ChunkTransferError) | RetrievalExhausted.

#[global] Instance SwarmError_eq_dec : EqDecision SwarmError.
Proof. solve_decision. Defined.

Definition PUSH_CANDIDATE_COUNT : nat := 5.

Section push.
Context {Sig : Type} (proximity : Z → Z → Z) (local_depth : Z) (credible : bool).
(** The k-th leg: the outbound push to a peer, through the origin gate. *)
Context (leg : nat → Z → Accounting → result ChunkTransferError (Receipt (Sig:=Sig)) * Accounting).

(** The error after one more leg: a transport failure never hides a verdict, an
    unverifiable receipt never hides a shallow one. *)
Definition next_outcome (attempts : Z) (outcome : SwarmError) (answer : result ChunkTransferError (Receipt (Sig:=Sig))) : SwarmError :=
  match answer with
  | Ok r =>
      match verify_depth proximity r local_depth credible with
      | Verified => outcome
      | Shallow _ _ => InvalidSignature
      | Unverifiable => match outcome with InvalidSignature => outcome | _ => UnconfirmedCustody end
      end
  | Err e => match outcome with InvalidSignature | UnconfirmedCustody => outcome | _ => PushPeersFailed attempts e end
  end.

Definition is_verified (answer : result ChunkTransferError (Receipt (Sig:=Sig))) : bool :=
  match answer with Ok r => match verify_depth proximity r local_depth credible with Verified => true | _ => false end | Err _ => false end.
Definition is_shallow (answer : result ChunkTransferError (Receipt (Sig:=Sig))) : bool :=
  match answer with Ok r => match verify_depth proximity r local_depth credible with Shallow _ _ => true | _ => false end | Err _ => false end.
Definition is_unverifiable (answer : result ChunkTransferError (Receipt (Sig:=Sig))) : bool :=
  match answer with Ok r => match verify_depth proximity r local_depth credible with Unverifiable => true | _ => false end | Err _ => false end.

(** The walk over the ordered peers: the first receipt that verifies, the peers
    reported for a shallow one ([accept_origin_receipt]), the ledger. *)
Fixpoint push_loop (attempts : Z) (k : nat) (peers : list Z) (outcome : SwarmError) (a : Accounting) :
    result SwarmError (Receipt (Sig:=Sig)) * list Z * Accounting :=
  match peers with
  | [] => (Err outcome, [], a)
  | peer :: peers =>
      let '(answer, a) := leg k peer a in
      match answer with
      | Ok r =>
          if is_verified answer then (Ok r, [], a)
          else
            let '(res, reports, a) := push_loop attempts (S k) peers (next_outcome attempts outcome answer) a in
            (res, (if is_shallow answer then [peer] else []) ++ reports, a)
      | Err _ => push_loop attempts (S k) peers (next_outcome attempts outcome answer) a
      end
  end.

Definition push (ordered : list Z) (a : Accounting) : result SwarmError (Receipt (Sig:=Sig)) * list Z * Accounting :=
  push_loop (Z.of_nat (length ordered)) 0 ordered NoStorer a.

(** The answers the legs give, were all of them walked. *)
Fixpoint answers (k : nat) (peers : list Z) (a : Accounting) : list (Z * result ChunkTransferError (Receipt (Sig:=Sig))) :=
  match peers with
  | [] => []
  | peer :: peers => (peer, (leg k peer a).1) :: answers (S k) peers (leg k peer a).2
  end.

(** The answers before the first verified one, and that one. *)
Fixpoint until_verified (l : list (Z * result ChunkTransferError (Receipt (Sig:=Sig)))) :
    list (Z * result ChunkTransferError (Receipt (Sig:=Sig))) * option (result ChunkTransferError (Receipt (Sig:=Sig))) :=
  match l with
  | [] => ([], None)
  | x :: l => if is_verified x.2 then ([], Some x.2) else (x :: (until_verified l).1, (until_verified l).2)
  end.

Definition worst (attempts : Z) (l : list (result ChunkTransferError (Receipt (Sig:=Sig)))) (outcome : SwarmError) : SwarmError :=
  foldl (next_outcome attempts) outcome l.

Lemma push_loop_spec attempts peers : ∀ k outcome a,
  let '(res, reports, _) := push_loop attempts k peers outcome a in
  let '(before, verified) := until_verified (answers k peers a) in
  reports = (filter (λ x, is_shallow x.2 = true) before).*1 ∧
  match verified with
  | Some answer => map_err (λ _, NoStorer) answer = res
  | None => res = Err (worst attempts before.*2 outcome)
  end.
Proof.
  induction peers as [|peer peers IH]; intros k outcome a; [done|]. cbn [push_loop answers until_verified].
  destruct (leg k peer a) as [answer a1]. cbn [fst snd]. destruct answer as [r|e].
  - destruct (is_verified (Ok r)); [done|]. specialize (IH (S k) (next_outcome attempts outcome (Ok r)) a1).
    destruct (push_loop _ _ _ _ _) as [[res reports] a2]. destruct (until_verified _) as [before verified].
    destruct IH as [-> IH]. cbn [fst snd]. split; [|done]. rewrite filter_cons. cbn [snd]. by destruct (is_shallow (Ok r)).
  - specialize (IH (S k) (next_outcome attempts outcome (Err e)) a1).
    destruct (push_loop _ _ _ _ _) as [[res reports] a2]. simpl. destruct (until_verified _) as [before verified].
    destruct IH as [-> IH]. done.
Qed.

(** The error left when no receipt verified, by what the legs answered. *)
Definition blame (attempts : Z) (rs : list (result ChunkTransferError (Receipt (Sig:=Sig)))) (outcome : SwarmError) : SwarmError :=
  if existsb is_shallow rs || bool_decide (outcome = InvalidSignature) then InvalidSignature
  else if existsb is_unverifiable rs || bool_decide (outcome = UnconfirmedCustody) then UnconfirmedCustody
  else match last (omap (λ x, match x with Err e => Some e | Ok _ => None end) rs) with
       | Some e => PushPeersFailed attempts e
       | None => outcome
       end.

Lemma worst_spec attempts rs : ∀ outcome, forallb (λ x, negb (is_verified x)) rs = true → worst attempts rs outcome = blame attempts rs outcome.
Proof.
  induction rs as [|x rs IH]; intros outcome Hv; [by destruct outcome|]. simpl in Hv. apply andb_true_iff in Hv as [Hx Hv].
  unfold worst. simpl. fold (worst attempts rs (next_outcome attempts outcome x)). rewrite IH by done. unfold blame. simpl.
  destruct x as [r|e]; simpl in Hx |- *.
  - unfold is_verified, is_shallow, is_unverifiable in *. unfold next_outcome.
    destruct (verify_depth proximity r local_depth credible); [done| |]; simpl; destruct outcome; simpl; rewrite ?orb_true_r; done.
  - unfold next_outcome. rewrite last_cons. destruct (existsb is_shallow rs), (existsb is_unverifiable rs), outcome; simpl; try done.
    all: by destruct (last _).
Qed.

Lemma until_verified_before rs : forallb (λ x, negb (is_verified x)) (until_verified rs).1.*2 = true.
Proof. induction rs as [|x rs IH]; simpl; [done|]. destruct (is_verified x.2) eqn:E; simpl; [done|]. by rewrite E. Qed.

Lemma until_verified_some rs x : (until_verified rs).2 = Some x → ∃ r, x = Ok r ∧ verify_depth proximity r local_depth credible = Verified.
Proof.
  induction rs as [|y rs IH]; simpl; [done|]. destruct (is_verified y.2) eqn:E; simpl; [|done]. intros [= <-].
  unfold is_verified in E. destruct y.2 as [r|]; [|done]. exists r. split; [done|]. by destruct (verify_depth _ _ _ _).
Qed.

(** A push returns the first receipt that verifies.  Walking the ordered
    peers, the push succeeds with the first receipt whose storer is deep enough
    against a credible view; before it exactly the peers that gave a shallow
    receipt are reported; and when none verifies, the error is a shallow receipt
    if there was one, else unconfirmed custody if one could not be judged, else
    the last transport failure, else that there was no storer to ask. *)
Theorem push_outcome ordered a :
  let '(res, reports, _) := push ordered a in
  let '(before, verified) := until_verified (answers 0 ordered a) in
  reports = (filter (λ x, is_shallow x.2 = true) before).*1 ∧
  match verified with
  | Some answer => ∃ r, answer = Ok r ∧ res = Ok r ∧ verify_depth proximity r local_depth credible = Verified
  | None => res = Err (blame (Z.of_nat (length ordered)) before.*2 NoStorer)
  end.
Proof.
  unfold push. pose proof (push_loop_spec (Z.of_nat (length ordered)) ordered 0 NoStorer a) as H.
  pose proof (until_verified_before (answers 0 ordered a)) as Hb. pose proof (until_verified_some (answers 0 ordered a)) as Hv.
  destruct (push_loop _ _ _ _ _) as [[res reports] a1]. destruct (until_verified _) as [before verified]. simpl in *.
  destruct H as [-> H]. split; [done|]. destruct verified as [answer|].
  - destruct (Hv answer eq_refl) as (r&->&Hr). exists r. simpl in H. by split_and!.
  - rewrite <-worst_spec by done. done.
Qed.
End push.

(** ** Retrieval *)

Definition RETRIEVE_WIDTH : nat := 32.
Definition RETRIEVE_ATTEMPT_BUDGET : Z := 8.
Definition RETRIEVE_MAX_IN_FLIGHT : Z := 3.
Definition RETRIEVE_DEADLINE : Z := 30000000000.
Definition RETRIEVE_SPILL_WIDTH : nat := 128.
Definition RETRIEVE_SPILL_BUDGET : Z := RETRIEVE_ATTEMPT_BUDGET.
Definition RETRIEVE_SPILL_DEADLINE : Z := 15000000000.
Definition RETRIEVE_SETTLE_DRIVE_WIDTH : nat := RETRIEVE_SPILL_WIDTH.
Definition RETRIEVE_SETTLE_DRIVES : nat := 10.
Definition PRIMARY_ROUTE_BUDGET : Z := 4.
Definition PRIMARY_ROUTE_DEADLINE : Z := 2000000000.
Definition NEVER_STAGGER : Z := 3600000000000.

Record RaceBounds := mkBounds { rb_budget : Z; rb_max_in_flight : Z; rb_deadline : Z; rb_stagger : Z }.
Definition racing (budget max_in_flight deadline stagger : Z) : RaceBounds := mkBounds budget max_in_flight deadline stagger.
Definition sequential (budget deadline : Z) : RaceBounds := mkBounds budget 1 deadline NEVER_STAGGER.

(** The attempts a run of a race dispatches. *)
Fixpoint dispatched_in {C T E} (step : Race (C:=C) (T:=T) (E:=E) → RaceEvent (T:=T) (E:=E) → Race (C:=C) (T:=T) (E:=E))
    (s : Race (C:=C) (T:=T) (E:=E)) (es : list (RaceEvent (T:=T) (E:=E))) (n : nat) : nat :=
  match s with
  | Resolved _ => n
  | Running r => match es with [] => rc_dispatched r | e :: es => dispatched_in step (step s e) es (rc_dispatched r) end
  end.

Section retrieval.
Context {R : Type}.
(** The topology, the ordering and the in-flight limiter as the i-th selection
    sees them, and the candidates of the bin route. *)
Context (closest_to : nat → nat → list Z) (order order_closest_admissible : nat → list Z → list Z) (limiter : nat → PeerInflightLimiter).
Context (estimate : Z → option Z) (bin_candidates : list Z).
(** What the n-th race's loop is delivered. *)
Context (schedule : nat → list (RaceEvent (T:=R) (E:=ChunkTransferError))).

Definition order_with_spill (i : nat) (candidates : list Z) : list Z :=
  match order i candidates with
  | [] => order_closest_admissible i (closest_to i RETRIEVE_SPILL_WIDTH)
  | ordered => ordered
  end.

(** One race: its outcome, [None] while it still waits, and the peers it
    contacted.  The cap is enforced only when [available] says so, and it never
    does. *)
Definition run_race (n : nat) (candidates : list Z) (bounds : RaceBounds) :
    option (result (RaceFailure ChunkTransferError) R) * list Z :=
  let accepts := λ (_ : nat) (_ : Z), true in
  let step := race_step accepts (rb_budget bounds) (rb_max_in_flight bounds) true in
  let start := race_start accepts (rb_budget bounds) candidates in
  (match foldl step start (schedule n) with Resolved res => Some res | Running _ => None end,
   take (dispatched_in step start (schedule n) 0) (plan accepts (rb_budget bounds) candidates)).

Definition primary_bounds : RaceBounds := sequential PRIMARY_ROUTE_BUDGET PRIMARY_ROUTE_DEADLINE.
Definition close_bounds (close : list Z) : RaceBounds :=
  racing RETRIEVE_ATTEMPT_BUDGET RETRIEVE_MAX_IN_FLIGHT RETRIEVE_DEADLINE (adaptive_stagger (estimate <$> close)).
Definition spill_bounds (spill : list Z) : RaceBounds :=
  racing RETRIEVE_SPILL_BUDGET RETRIEVE_MAX_IN_FLIGHT RETRIEVE_SPILL_DEADLINE (adaptive_stagger (estimate <$> spill)).

(** The close set and the farther ring of the i-th selection. *)
Definition select_candidates (i : nat) : list Z * list Z :=
  let close := (available (order_with_spill i (closest_to i RETRIEVE_WIDTH)) (limiter i)).1 in
  let wide := order_closest_admissible i (closest_to i RETRIEVE_SPILL_WIDTH) in
  (close, (available (filter (λ p, p ∉ close) wide) (limiter i)).1).

(** Select, driving settlements while everything is gated: the candidates, if
    any, and the settlements triggered. *)
Fixpoint select_loop (drives i : nat) : option (list Z * list Z) * list (list Z) :=
  match select_candidates i with
  | ([], []) =>
      let gated := closest_to i RETRIEVE_SETTLE_DRIVE_WIDTH in
      match gated, drives with
      | [], _ | _, O => (None, [])
      | _, S drives => let '(res, settled) := select_loop drives (S i) in (res, gated :: settled)
      end
  | candidates => (Some candidates, [])
  end.

Definition race_close_then_spill (close spill : list Z) : option (result (RaceFailure ChunkTransferError) R) * list Z * list Z :=
  let '(res, c1) := run_race 1 close (close_bounds close) in
  match res with
  | Some (Err (AllFailed _ | NoCandidates)) => let '(res, c2) := run_race 2 spill (spill_bounds spill) in (res, c1, c2)
  | _ => (res, c1, [])
  end.

(** The whole retrieval: its outcome, [None] while a race still waits, the peers
    contacted by the primary, the close race and the spill race, and the
    settlements driven. *)
Record Retrieval := mkRetrieval {
  rt_outcome : option (result SwarmError R);
  rt_primary : list Z;
  rt_close : list Z;
  rt_spill : list Z;
  rt_settled : list (list Z);
}.

Definition exhausted (res : result (RaceFailure ChunkTransferError) R) : result SwarmError R := map_err (λ _, RetrievalExhausted) res.

Definition fallback (primary : list Z) : Retrieval :=
  match select_loop RETRIEVE_SETTLE_DRIVES 1 with
  | (None, settled) => mkRetrieval (Some (Err RetrievalExhausted)) primary [] [] settled
  | (Some (close, spill), settled) =>
      let '(res, c1, c2) := race_close_then_spill close spill in mkRetrieval (exhausted <$> res) primary c1 c2 settled
  end.

Definition retrieve : Retrieval :=
  match (available (order 0 bin_candidates) (limiter 0)).1 with
  | [] => fallback []
  | candidates =>
      let '(res, contacted) := run_race 0 candidates primary_bounds in
      match res with
      | None => mkRetrieval None contacted [] [] []
      | Some (Ok v) => mkRetrieval (Some (Ok v)) contacted [] [] []
      | Some (Err _) => fallback contacted
      end
  end.

(** ** Bounds of a retrieval *)

Lemma deadline_resolves {C} (accepts : nat → C → bool) budget width es : existsb is_deadline es = true → ∀ s : Race (T:=R) (E:=ChunkTransferError),
  ∃ res, foldl (race_step accepts budget width true) s es = Resolved res.
Proof.
  induction es as [|e es IH]; intros Hd s; [done|]. simpl in *. destruct s as [r|res]; [|exists res; apply resolved_run].
  apply orb_true_iff in Hd as [Hd|Hd]; [|by apply IH]. destruct e; [done|done|]. simpl. unfold on_deadline. eexists. apply resolved_run.
Qed.

Lemma accepted_all (cs : list Z) : ∀ m, accepted (λ _ _, true) m cs = cs.
Proof. induction cs as [|c cs IH]; intros m; simpl; [done|by rewrite IH]. Qed.

Lemma run_race_spec n candidates bounds : 0 <= rb_budget bounds →
  let '(res, contacted) := run_race n candidates bounds in
  Z.of_nat (length contacted) <= rb_budget bounds ∧ (∀ p, p ∈ contacted → p ∈ candidates) ∧
  (existsb is_deadline (schedule n) = true → is_Some res).
Proof.
  intros Hb. unfold run_race. cbn [fst snd]. split_and!.
  - rewrite length_take. unfold plan. rewrite length_take. lia.
  - intros p Hp. apply elem_of_take in Hp as (i&Hp&_). apply list_elem_of_lookup_2 in Hp. unfold plan in Hp.
    apply elem_of_take in Hp as (j&Hp&_). apply list_elem_of_lookup_2 in Hp.
    by rewrite accepted_all in Hp.
  - intros Hd. destruct (deadline_resolves (λ (_ : nat) (_ : Z), true) (rb_budget bounds) (rb_max_in_flight bounds) (schedule n) Hd
      (race_start (λ (_ : nat) (_ : Z), true) (rb_budget bounds) candidates)) as [res ->]. eauto.
Qed.

Lemma available_elem cs l p : p ∈ (available cs l).1 ↔ p ∈ cs.
Proof.
  unfold available. simpl. rewrite elem_of_app, !list_elem_of_filter. destruct (has_free_slot p l); naive_solver.
Qed.

Section admissibility.
Context (Q : Z → Prop).
Hypothesis order_admits : ∀ i cs p, p ∈ order i cs → Q p.
Hypothesis closest_admits : ∀ i cs p, p ∈ order_closest_admissible i cs → Q p.

Lemma select_candidates_spec i close spill : select_candidates i = (close, spill) →
  (∀ p, p ∈ close → Q p) ∧ (∀ p, p ∈ spill → Q p ∧ p ∉ close).
Proof.
  unfold select_candidates. intros [<- <-]%pair_eq. split.
  - intros p. rewrite available_elem. unfold order_with_spill. pose proof (order_admits i (closest_to i RETRIEVE_WIDTH) p) as Ho.
    destruct (order i _); [apply closest_admits|done].
  - intros p. rewrite available_elem, list_elem_of_filter. intros [Hn Hp]. split; [by eapply closest_admits|done].
Qed.

Lemma select_loop_spec drives : ∀ i, let '(res, settled) := select_loop drives i in
  (length settled <= drives)%nat ∧
  match res with Some (close, spill) => (∀ p, p ∈ close → Q p) ∧ (∀ p, p ∈ spill → Q p ∧ p ∉ close) | None => True end.
Proof.
  induction drives as [|drives IH]; intros i; cbn [select_loop];
    destruct (select_candidates i) as [close spill] eqn:E; pose proof (select_candidates_spec i close spill E) as Hs.
  - destruct close, spill; [|split; [simpl; lia|done]..]. destruct (closest_to i _); (split; [simpl; lia|done]).
  - destruct close, spill; [|split; [simpl; lia|done]..]. destruct (closest_to i _); [split; [simpl; lia|done]|].
    specialize (IH (S i)). destruct (select_loop drives (S i)) as [res settled]. destruct IH as [IH1 IH2]. split; [simpl; lia|done].
Qed.

Lemma race_close_then_spill_spec close spill : let '(res, c1, c2) := race_close_then_spill close spill in
  Z.of_nat (length c1) <= RETRIEVE_ATTEMPT_BUDGET ∧ Z.of_nat (length c2) <= RETRIEVE_SPILL_BUDGET ∧
  (∀ p, p ∈ c1 → p ∈ close) ∧ (∀ p, p ∈ c2 → p ∈ spill) ∧
  ((∀ n, existsb is_deadline (schedule n) = true) → is_Some res).
Proof.
  unfold race_close_then_spill. pose proof (run_race_spec 1 close (close_bounds close)) as H1.
  pose proof (run_race_spec 2 spill (spill_bounds spill)) as H2.
  destruct (run_race 1 _ _) as [res1 c1], (run_race 2 _ _) as [res2 c2]. cbn [rb_budget close_bounds spill_bounds racing] in *.
  specialize (H1 ltac:(done)) as (?&?&?). specialize (H2 ltac:(done)) as (?&?&?).
  assert (0 <= RETRIEVE_SPILL_BUDGET) by done.
  destruct res1 as [[v|[|e|]]|]; split_and!; try done; try (intros p Hp; by apply elem_of_nil in Hp); naive_solver.
Qed.

(** What the retrieval contacts, and that it answers. *)
Definition retrieval_within (rt : Retrieval) : Prop :=
  Z.of_nat (length (rt_close rt)) <= RETRIEVE_ATTEMPT_BUDGET ∧ Z.of_nat (length (rt_spill rt)) <= RETRIEVE_SPILL_BUDGET ∧
  (length (rt_settled rt) <= RETRIEVE_SETTLE_DRIVES)%nat ∧
  (∀ p, p ∈ rt_primary rt ++ rt_close rt ++ rt_spill rt → Q p) ∧ (∀ p, p ∈ rt_close rt → p ∉ rt_spill rt) ∧
  (∀ e, rt_outcome rt = Some (Err e) → e = RetrievalExhausted) ∧
  ((∀ n, existsb is_deadline (schedule n) = true) → is_Some (rt_outcome rt)).

Lemma fallback_within primary : (∀ p, p ∈ primary → Q p) → retrieval_within (fallback primary).
Proof.
  intros HQ. unfold fallback. pose proof (select_loop_spec RETRIEVE_SETTLE_DRIVES 1) as H.
  destruct (select_loop _ _) as [[[close spill]|] settled]; destruct H as [H1 H2].
  2:{ split_and!; simpl; rewrite ?app_nil_r; try done; first [by intros ? ?%elem_of_nil|by intros ? [= <-]|by eauto]. }
  destruct H2 as [Hc Hs]. pose proof (race_close_then_spill_spec close spill) as H.
  destruct (race_close_then_spill close spill) as [[res c1] c2]. destruct H as (?&?&H3&H4&H5). split_and!; simpl; try done.
  - intros p. rewrite !elem_of_app. naive_solver.
  - intros p Hp1 Hp2. destruct (Hs p (H4 p Hp2)) as [_ Hn]. by apply Hn, H3.
  - intros e. destruct res as [[v|f]|]; simpl; congruence.
  - intros Hd. destruct (H5 Hd) as [r ->]. by eexists.
Qed.
End admissibility.

Lemma retrieve_within (Q : Z → Prop)
    (order_admits : ∀ i cs p, p ∈ order i cs → Q p) (closest_admits : ∀ i cs p, p ∈ order_closest_admissible i cs → Q p) :
  Z.of_nat (length (rt_primary retrieve)) <= PRIMARY_ROUTE_BUDGET ∧ retrieval_within Q retrieve.
Proof.
  unfold retrieve. destruct (available (order 0 bin_candidates) (limiter 0)).1 as [|p0 ps] eqn:Ea.
  { split; [|by apply fallback_within; [..|intros ? ?%elem_of_nil]].
    unfold fallback. destruct (select_loop _ _) as [[[close spill]|] settled]; [|done].
    by destruct (race_close_then_spill close spill) as [[? ?] ?]. }
  rewrite <-Ea. clear p0 ps Ea.
  pose proof (run_race_spec 0 (available (order 0 bin_candidates) (limiter 0)).1 primary_bounds ltac:(done)) as H.
  destruct (run_race _ _ _) as [res contacted]. destruct H as (Hn&He&Hd).
  assert (HQ : ∀ p, p ∈ contacted → Q p) by (intros p Hp%He; rewrite available_elem in Hp; by eapply order_admits).
  destruct res as [[v|f]|].
  - split; [done|]. split_and!; simpl; rewrite ?app_nil_r; try done; first [lia|by intros ? ?%elem_of_nil|by eauto].
  - split; [|by apply fallback_within].
    unfold fallback. destruct (select_loop _ _) as [[[close spill]|] settled]; [|done].
    by destruct (race_close_then_spill close spill) as [[? ?] ?].
  - split; [done|]. split_and!; simpl; rewrite ?app_nil_r; try done; first [lia|by intros ? ?%elem_of_nil|intros H; by destruct (Hd (H 0%nat))].
Qed.
End retrieval.


(** ** Instances *)

Module DispatchDemo.

Definition ledger : Accounting := lg_acc (ledger_init default_bandwidth_config).

(** A peer that proves the chunk absent is refunded. *)
Lemma origin_request_books_witness :
  ledger_balance (request (R:=Z) ForwardDemo.proximity 31 (FixedPricer 10) true true 4 5 true (Some (Err ChunkNotFound)) (λ a, a) ledger).2 4 = 0 ∧
  ledger_balance (request (R:=Z) ForwardDemo.proximity 31 (FixedPricer 10) true true 4 5 true None (λ a, a) ledger).2 4 = -10.
Proof.
  assert (H0 : ledger_balance ledger 4 = 0) by (vm_compute; reflexivity).
  assert (Hp : peer_price ForwardDemo.proximity 31 (FixedPricer 10) 4 5 = 10) by (vm_compute; reflexivity).
  assert (Ha : ledger_admit ledger 4 10 ≠ Au.Refuse) by (intros H; vm_compute in H; discriminate H).
  assert (H : ∀ response : option (result ChunkTransferError Z), let kept := match response with Some (Err e) => negb (is_confirmed_absent e) | _ => true end in
    ledger_balance (request ForwardDemo.proximity 31 (FixedPricer 10) true true 4 5 true response (λ a, a) ledger).2 4 = if kept then -10 else 0).
  { intros response kept. pose proof (origin_request_books ForwardDemo.proximity 31 (FixedPricer 10) 4 5 true response ledger) as H.
    rewrite Hp, H0 in H. specialize (H (acc_wf_new _)). specialize (H ltac:(mach; lia)). specialize (H ltac:(mach; lia)).
    destruct (request _ _ _ _ _ _ _ _ _ _ _) as [[res settled] a']. rewrite decide_False in H by exact Ha. destruct H as (_&_&H).
    specialize (H 4). rewrite H0 in H. simpl in H |- *. fold kept in H. by destruct kept. }
  split; [exact (H (Some (Err ChunkNotFound)))|exact (H None)].
Defined.

Lemma bin_route_complete_witness :
  let peers_in_bin := λ bin : Z, if decide (bin = 29) then [6; 4] else if decide (bin = 28) then [9] else [] in
  bin_routed_order ForwardDemo.proximity 5 1 31 3 peers_in_bin = [4; 6; 9] ∧ spill_bins 29 31 ≡ₚ seqZ 0 32.
Proof.
  intros peers_in_bin. split; [vm_compute; reflexivity|].
  exact (proj1 (bin_route_complete ForwardDemo.proximity 5 1 31 3 peers_in_bin ltac:(vm_compute; congruence) ltac:(mach; lia))).
Defined.

Lemma inflight_cap_exact_witness :
  let l := foldl limiter_step (limiter_new 2) [OpAcquire 7; OpAcquire 7; OpForget 7; OpAcquire 7; OpRelease 1] in
  has_free_slot 7 l = true ∧ is_Some (try_acquire 7 l).1.
Proof.
  intros l. destruct (inflight_cap_exact 2 [OpAcquire 7; OpAcquire 7; OpForget 7; OpAcquire 7; OpRelease 1] 7) as (_&_&H); [lia|].
  fold l in H. assert (Hf : has_free_slot 7 l = true) by (vm_compute; reflexivity). split; [exact Hf|by apply H].
Defined.

(** A deadline of the close race is not terminal once an attempt has failed: the
    race then reports that failure, as if every candidate had been tried, and the
    farther ring is raced for its own deadline. *)
Definition late (n : nat) : list (RaceEvent (T:=Z) (E:=ChunkTransferError)) :=
  if decide (n = 1)%nat then [Completed 0 (Err ChunkNotFound); DeadlineTick] else [Completed 0 (Ok 42)].

Example deadline_after_failure_spills : race_close_then_spill (λ _, None) late [5; 6; 7] [8; 9] = (Some (Ok 42), [5; 6], [8]).
Proof. vm_compute. reflexivity. Qed.

Example deadline_before_failure_ends :
  race_close_then_spill (λ _, None) (λ _, [StaggerTick; DeadlineTick] : list (RaceEvent (T:=Z))) [5; 6; 7] [8; 9] = (Some (Err RaceTimedOut), [5; 6], []).
Proof. vm_compute. reflexivity. Qed.

End DispatchDemo.
