(* ===== verification/Handler.v ===== *)
(** * Handler: the client protocols of one connection

    [crates/swarm/client-behaviour/src/handler.rs] with the protocol sets and
    failure classes of [upgrade.rs]: the connection handler that turns commands
    into outbound substreams, resolves the response channel each request carries,
    serves inbound requests, and keeps the responders of inbound payments until
    the ack is decided.

    Chunks, stamps, signatures and network identifiers are opaque and named by
    numbers; a response channel and a payment responder too.  What a step does to
    the outside is a list of effects: a reply on a response channel, a channel
    dropped without one, an ack handed to a payment's substream.  Clock readings,
    the futures that are ready at a poll and the order in which a hash map is
    iterated are inputs.  The texts of errors are left out.

    The theorem: a handler's queues and tables stay within their bounds whatever
    arrives, a dormant handler serves nobody, and a payment's responder is handed
    at most one ack. *)

From S2P Require Import Prelude.
From S2P Require Import Primitives.
From S2P Require Import Au.
From S2P Require Import Accounting.
From S2P Require Import Bandwidth.
From S2P Require Import Swap.
From S2P Require Import Race.
From S2P Require Import Forward.
From S2P Require Import Dispatch.

(** ** Protocols *)

Inductive ProtocolName := PRICING | RETRIEVAL | PUSHSYNC | PSEUDOSETTLE | SWAP.

#[global] Instance ProtocolName_eq_dec : EqDecision ProtocolName.
Proof. solve_decision. Defined.

Inductive ProtocolSet := NoProtocols | PricingOnly | FullSet.

Definition active_for (local_role : SwarmNodeType) : ProtocolSet :=
  match local_role with Bootnode => PricingOnly | Client | Storer => FullSet end.

Definition protocol_info (advertised : ProtocolSet) : list ProtocolName :=
  match advertised with
  | NoProtocols => []
  | PricingOnly => [PRICING]
  | FullSet => [PRICING; RETRIEVAL; PUSHSYNC; PSEUDOSETTLE; SWAP]
  end.

Inductive FailureKind := InvalidChunk | ProtocolFault.

(** [invalid]: the inner error is the codec's malformed-chunk error. *)
Inductive ClientUpgradeError := ProtocolFailed (p : ProtocolName) (invalid : bool) | UnknownProtocol.

Definition retrieval_failure_kind (e : ClientUpgradeError) : FailureKind :=
  match e with ProtocolFailed RETRIEVAL true => InvalidChunk | _ => ProtocolFault end.
Definition pushsync_failure_kind (e : ClientUpgradeError) : FailureKind :=
  match e with ProtocolFailed PUSHSYNC true => InvalidChunk | _ => ProtocolFault end.
Definition inbound_failure_kind (e : ClientUpgradeError) : FailureKind :=
  match e with ProtocolFailed (PUSHSYNC | RETRIEVAL) true => InvalidChunk | _ => ProtocolFault end.

(** [libp2p::swarm::StreamUpgradeError] *)
Inductive StreamUpgradeError := UpgradeTimeout | UpgradeApply (e : ClientUpgradeError) | UpgradeNegotiationFailed | UpgradeIo.

(** ** Commands, events and substreams *)

Record PaymentAck := mkPaymentAck { pa_amount : Z; pa_timestamp : Z }.

Inductive HandlerCommand :=
| HcActivate (overlay : Z) (node_type : SwarmNodeType)
| HcAnnouncePricing (threshold : Z)
| HcRetrieveChunk (address : Z) (response : nat) (originated : bool)
| HcPushChunk (chunk : Z) (response : nat) (originated : bool)
| HcSendPseudosettle (amount : Z)
| HcAckPseudosettle (request_id : Z) (ack : PaymentAck)
| HcSendCheque (cheque : SignedCheque).

Inductive HandlerEvent :=
| HeActivated (overlay : Z)
| HePricingReceived (overlay threshold : Z)
| HePricingSent (overlay : Z)
| HeInboundServed (overlay : Z)
| HeInboundForwarded (overlay : Z)
| HeInboundMissed (overlay address : Z)
| HeInboundRelayed (overlay : Z)
| HeInboundStored (overlay : Z)
| HeInboundPushFailed (overlay address : Z)
| HeChunkReceived (overlay address chunk : Z) (stamp : option Z) (latency : Z) (originated : bool)
| HeReceiptReceived (overlay address latency : Z) (originated : bool)
| HeRetrievalFailed (overlay address : Z) (kind : FailureKind)
| HePushFailed (overlay address : Z) (kind : FailureKind)
| HeInboundInvalidData (overlay : Z) (protocol : option ProtocolName)
| HeError (overlay : option Z) (protocol : option ProtocolName) (** no protocol: the labels response and unknown *)
| HePseudosettleReceived (overlay amount request_id : Z)
| HePseudosettleSent (overlay : Z) (ack : PaymentAck)
| HeSwapChequeReceived (overlay : Z) (cheque : SignedCheque) (peer_rate : Z)
| HeSwapChequeSent (overlay peer_rate : Z).

Inductive ClientOutboundInfo :=
| InfoPricing
| InfoRetrieval (address : Z) (response : nat) (requested_at : Z) (originated : bool)
| InfoPushsync (address : Z) (response : nat) (requested_at : Z) (originated : bool)
| InfoPseudosettle (amount : Z)
| InfoSwap.

Inductive ClientOutboundRequest :=
| RqPricing (threshold : Z) | RqRetrieval (address : Z) | RqPushsync (chunk : Z) | RqPseudosettle (amount : Z) | RqSwap (cheque : SignedCheque) (rate : Z).

Inductive RetrievalDelivery := DeliveryError | DeliveryChunk (chunk : Z) (stamp : option Z).
Inductive ReceiptResponse := ReceiptFailed | ReceiptStored (receipt : WireReceipt (Sig:=Z)).

Inductive ClientOutboundOutput :=
| OoPricing | OoRetrieval (delivery : RetrievalDelivery) | OoPushsync (receipt : ReceiptResponse) | OoPseudosettle (ack : PaymentAck) | OoSwap (rate : Z).

Inductive ClientInboundOutput :=
| InPricing (threshold : Z) | InRetrieval (address : Z) | InPushsync (chunk : Z) | InPseudosettle (amount : Z) (responder : nat)
| InSwap (cheque : SignedCheque) (rate : Z).

(** What a response channel is sent. *)
Inductive Reply :=
| RetrievalReply (r : result ChunkTransferError (Z * option Z * Z))
| PushReply (r : result ChunkTransferError (Receipt (Sig:=Z))).

Inductive HandlerFx := FxReply (tx : nat) (r : Reply) | FxDropTx (tx : nat) | FxAck (responder : nat) (ack : PaymentAck).

(** ** The handler *)

Definition MAX_PENDING_RESPONSES : Z := 64.
Definition MAX_CONCURRENT_RESPONSE_SENDS : Z := 8.
Definition RESPONDER_STALE_TIMEOUT : Z := 60000000000.
Definition MAX_INBOUND_SERVING : Z := 32.

Record HandlerConfig := mkHandlerConfig {
  hc_timeout : Z;
  hc_retrieval_timeout : Z;
  hc_pushsync_timeout : Z;
  hc_max_pending_commands : Z;
  hc_max_pending_events : Z;
  hc_local_role : SwarmNodeType;
  hc_network_id : Z;
  hc_swap_exchange_rate : Z;
}.

Definition handler_config_default : HandlerConfig := mkHandlerConfig 30000000000 30000000000 30000000000 256 256 Client 1 0.

Inductive HandlerState := Dormant | Active (overlay : Z).

Record StoredResponse := mkStored { sr_responder : nat; sr_stored_at : Z }.

(** The operation of an inbound serving future. *)
Inductive ServeOp := RetrieveServe (overlay address : Z) | PushServe (overlay chunk : Z).

Record ClientHandler := mkHandler {
  hd_state : HandlerState;
  hd_next_request_id : Z;
  hd_commands : list HandlerCommand;
  hd_events : list HandlerEvent;
  hd_pricing_sent : bool;
  hd_pricing_pending : bool;
  hd_inbound : list ServeOp;
  hd_responses : gmap Z StoredResponse;
  hd_sends : list nat;
}.

Definition handler_new : ClientHandler := mkHandler Dormant 0 [] [] false false [] ∅ [].

Implicit Types (h : ClientHandler).

Definition with_state (s : HandlerState) h := mkHandler s (hd_next_request_id h) (hd_commands h) (hd_events h) (hd_pricing_sent h) (hd_pricing_pending h) (hd_inbound h) (hd_responses h) (hd_sends h).
Definition with_next_id (i : Z) h := mkHandler (hd_state h) i (hd_commands h) (hd_events h) (hd_pricing_sent h) (hd_pricing_pending h) (hd_inbound h) (hd_responses h) (hd_sends h).
Definition with_commands (l : list HandlerCommand) h := mkHandler (hd_state h) (hd_next_request_id h) l (hd_events h) (hd_pricing_sent h) (hd_pricing_pending h) (hd_inbound h) (hd_responses h) (hd_sends h).
Definition with_events (l : list HandlerEvent) h := mkHandler (hd_state h) (hd_next_request_id h) (hd_commands h) l (hd_pricing_sent h) (hd_pricing_pending h) (hd_inbound h) (hd_responses h) (hd_sends h).
Definition with_pricing (sent pending : bool) h := mkHandler (hd_state h) (hd_next_request_id h) (hd_commands h) (hd_events h) sent pending (hd_inbound h) (hd_responses h) (hd_sends h).
Definition with_inbound (l : list ServeOp) h := mkHandler (hd_state h) (hd_next_request_id h) (hd_commands h) (hd_events h) (hd_pricing_sent h) (hd_pricing_pending h) l (hd_responses h) (hd_sends h).
Definition with_responses (m : gmap Z StoredResponse) h := mkHandler (hd_state h) (hd_next_request_id h) (hd_commands h) (hd_events h) (hd_pricing_sent h) (hd_pricing_pending h) (hd_inbound h) m (hd_sends h).
Definition with_sends (l : list nat) h := mkHandler (hd_state h) (hd_next_request_id h) (hd_commands h) (hd_events h) (hd_pricing_sent h) (hd_pricing_pending h) (hd_inbound h) (hd_responses h) l.

Definition queue_event (e : HandlerEvent) h : ClientHandler := with_events (hd_events h ++ [e]) h.

Definition pop_event h : option HandlerEvent * ClientHandler :=
  match hd_events h with [] => (None, h) | e :: l => (Some e, with_events l h) end.

Definition overlay h : option Z := match hd_state h with Active o => Some o | Dormant => None end.

Definition next_request_id h : Z * ClientHandler := (hd_next_request_id h, with_next_id (u64_wrapping_add (hd_next_request_id h) 1) h).

Definition evict_stale_responses (now : Z) (m : gmap Z StoredResponse) : gmap Z StoredResponse :=
  filter (λ kv, now - RESPONDER_STALE_TIMEOUT < sr_stored_at kv.2) m.

(** The map's keys in the order it is iterated: those of [order] first. *)
Definition walk_of (order : list Z) (m : gmap Z StoredResponse) : list Z :=
  filter (λ k, is_Some (m !! k)) order ++ filter (λ k, k ∉ order) (map_to_list m).*1.

Definition stored_at (m : gmap Z StoredResponse) (k : Z) : Z := from_option sr_stored_at 0 (m !! k).

(** [min_by_key]: the first of the least. *)
Definition older (m : gmap Z StoredResponse) (best : option Z) (k : Z) : option Z :=
  match best with
  | None => Some k
  | Some b => if decide (stored_at m k < stored_at m b) then Some k else Some b
  end.
Definition oldest (order : list Z) (m : gmap Z StoredResponse) : option Z := foldl (older m) None (walk_of order m).

Definition store_response (t1 t2 : Z) (order : list Z) (request_id : Z) (responder : nat) h : ClientHandler :=
  let m := hd_responses h in
  let m := if decide (MAX_PENDING_RESPONSES <= Z.of_nat (size m)) then evict_stale_responses t1 m else m in
  let m :=
    if decide (MAX_PENDING_RESPONSES <= Z.of_nat (size m)) then
      match oldest order m with Some k => delete k m | None => m end
    else m in
  with_responses (<[request_id := mkStored responder t2]> m) h.

Definition take_response (request_id : Z) h : option nat * ClientHandler :=
  (sr_responder <$> hd_responses h !! request_id, with_responses (delete request_id (hd_responses h)) h).

Definition activate (o : Z) h : ClientHandler :=
  match hd_state h with
  | Dormant => queue_event (HeActivated o) (with_state (Active o) h)
  | Active _ => h
  end.

Definition on_pricing_received (threshold : Z) h : ClientHandler :=
  match overlay h with Some o => queue_event (HePricingReceived o threshold) h | None => h end.

Definition on_retrieval_request (address : Z) h : ClientHandler :=
  match overlay h with Some o => with_inbound (hd_inbound h ++ [RetrieveServe o address]) h | None => h end.

Definition on_pushsync_delivery (chunk : Z) h : ClientHandler :=
  match overlay h with Some o => with_inbound (hd_inbound h ++ [PushServe o chunk]) h | None => h end.

Section handler.
Context (config : HandlerConfig) (chunk_address : Z → Z).
(** Signature recovery, for [Receipt::reconstruct]. *)
Context {Eth : Type} (zero_signature : Z) (recover_address : Z → Z → option Eth) (compute_overlay : Eth → Z → Z → Z).

Definition push_event (e : HandlerEvent) h : ClientHandler :=
  if decide (hc_max_pending_events config <= Z.of_nat (length (hd_events h))) then h else queue_event e h.

(** The event of a resolved inbound future; what the future outcome says is the
    outcome of [drive]. *)
Definition op_overlay (op : ServeOp) : Z := match op with RetrieveServe o _ | PushServe o _ => o end.
Definition op_address (op : ServeOp) : Z := match op with RetrieveServe _ a => a | PushServe _ c => chunk_address c end.

Definition on_inbound_outcome (op : ServeOp) (outcome : InboundOutcome) h : ClientHandler :=
  push_event match outcome with
             | OutServed => HeInboundServed (op_overlay op)
             | OutForwarded => HeInboundForwarded (op_overlay op)
             | OutMissed => HeInboundMissed (op_overlay op) (op_address op)
             | OutRelayed => HeInboundRelayed (op_overlay op)
             | OutStored => HeInboundStored (op_overlay op)
             | OutPushFailed => HeInboundPushFailed (op_overlay op) (op_address op)
             end h.

Definition on_retrieval_response (delivery : RetrievalDelivery) (address : Z) (response : nat) (latency : Z) (originated : bool) h :
    ClientHandler * list HandlerFx :=
  match delivery with
  | DeliveryError =>
      (match overlay h with Some o => push_event (HeRetrievalFailed o address ProtocolFault) h | None => h end,
       [FxReply response (RetrievalReply (Err ChunkNotFound))])
  | DeliveryChunk chunk stamp =>
      match overlay h with
      | None => (h, [FxReply response (RetrievalReply (Err ProtocolError))])
      | Some o =>
          (push_event (HeChunkReceived o address chunk stamp latency originated) h,
           [FxReply response (RetrievalReply (Ok (chunk, stamp, o)))])
      end
  end.

Definition on_pushsync_receipt (msg : ReceiptResponse) (address : Z) (response : nat) (latency : Z) (originated : bool) h :
    ClientHandler * list HandlerFx :=
  match msg with
  | ReceiptFailed =>
      (match overlay h with Some o => push_event (HePushFailed o address ProtocolFault) h | None => h end,
       [FxReply response (PushReply (Err RemoteFailure))])
  | ReceiptStored w =>
      match overlay h with
      | None => (h, [FxReply response (PushReply (Err ProtocolError))])
      | Some o =>
          match reconstruct zero_signature recover_address compute_overlay w (hc_network_id config) with
          | Ok r => (push_event (HeReceiptReceived o (wr_address w) latency originated) h, [FxReply response (PushReply (Ok r))])
          | Err _ => (push_event (HePushFailed o (wr_address w) InvalidChunk) h, [FxReply response (PushReply (Err RemoteFailure))])
          end
      end
  end.

(** Inbound serving is advertised only while there is room to serve. *)
Definition listen_protocol h : ProtocolSet :=
  match hd_state h with
  | Active _ => if decide (Z.of_nat (length (hd_inbound h)) < MAX_INBOUND_SERVING) then active_for (hc_local_role config) else NoProtocols
  | Dormant => NoProtocols
  end.

(** ** Polling *)

Inductive HandlerPoll :=
| NotifyBehaviour (e : HandlerEvent)
| OutboundSubstreamRequest (request : ClientOutboundRequest) (info : ClientOutboundInfo) (timeout : Z)
| PollPending.

(** Serving futures that are ready, by position in the set, with their outcome. *)
Fixpoint poll_inbound (ready : list (nat * InboundOutcome)) h : option HandlerEvent * ClientHandler :=
  match ready with
  | [] => (None, h)
  | (i, outcome) :: ready =>
      match hd_inbound h !! i with
      | None => poll_inbound ready h
      | Some op =>
          match pop_event (on_inbound_outcome op outcome (with_inbound (delete i (hd_inbound h)) h)) with
          | (Some e, h) => (Some e, h)
          | (None, h) => poll_inbound ready h
          end
      end
  end.

(** Ack sends that are ready, by position, and whether they succeeded; a failure
    and a timeout are reported alike. *)
Fixpoint poll_sends (ready : list (nat * bool)) h : option HandlerEvent * ClientHandler :=
  match ready with
  | [] => (None, h)
  | (i, ok) :: ready =>
      match hd_sends h !! i with
      | None => poll_sends ready h
      | Some _ =>
          let h := with_sends (delete i (hd_sends h)) h in
          match pop_event (if ok : bool then h else push_event (HeError (overlay h) None) h) with
          | (Some e, h) => (Some e, h)
          | (None, h) => poll_sends ready h
          end
      end
  end.

(** Send an ack to a stored responder; the bounded set may be full. *)
Definition ack_payment (request_id : Z) (ack : PaymentAck) h : ClientHandler * list HandlerFx :=
  match take_response request_id h with
  | (Some responder, h) =>
      if decide (Z.of_nat (length (hd_sends h)) < MAX_CONCURRENT_RESPONSE_SENDS)
      then (with_sends (hd_sends h ++ [responder]) h, [FxAck responder ack])
      else (h, [])
  | (None, h) => (h, [])
  end.

Fixpoint poll_commands (now : Z) (cmds : list HandlerCommand) h : HandlerPoll * ClientHandler * list HandlerFx :=
  match cmds with
  | [] => (PollPending, with_commands [] h, [])
  | cmd :: rest =>
      let h := with_commands rest h in
      match cmd with
      | HcActivate o _ =>
          match pop_event (activate o h) with
          | (Some e, h) => (NotifyBehaviour e, h, [])
          | (None, h) => poll_commands now rest h
          end
      | HcAnnouncePricing threshold =>
          if negb (hd_pricing_sent h) && negb (hd_pricing_pending h)
          then (OutboundSubstreamRequest (RqPricing threshold) InfoPricing (hc_timeout config), with_pricing (hd_pricing_sent h) true h, [])
          else poll_commands now rest h
      | HcRetrieveChunk address response originated =>
          (OutboundSubstreamRequest (RqRetrieval address) (InfoRetrieval address response now originated) (hc_retrieval_timeout config), h, [])
      | HcPushChunk chunk response originated =>
          (OutboundSubstreamRequest (RqPushsync chunk) (InfoPushsync (chunk_address chunk) response now originated) (hc_pushsync_timeout config), h, [])
      | HcSendPseudosettle amount => (OutboundSubstreamRequest (RqPseudosettle amount) (InfoPseudosettle amount) (hc_timeout config), h, [])
      | HcSendCheque cheque => (OutboundSubstreamRequest (RqSwap cheque (hc_swap_exchange_rate config)) InfoSwap (hc_timeout config), h, [])
      | HcAckPseudosettle request_id ack =>
          let '(h, fx) := ack_payment request_id ack h in
          let '(out, h, fx') := poll_commands now rest h in (out, h, fx ++ fx')
      end
  end.

Definition handler_poll (now : Z) (inbound : list (nat * InboundOutcome)) (sends : list (nat * bool)) h :
    HandlerPoll * ClientHandler * list HandlerFx :=
  match pop_event h with
  | (Some e, h) => (NotifyBehaviour e, h, [])
  | (None, h) =>
      match poll_inbound inbound h with
      | (Some e, h) => (NotifyBehaviour e, h, [])
      | (None, h) =>
          match poll_sends sends h with
          | (Some e, h) => (NotifyBehaviour e, h, [])
          | (None, h) => poll_commands now (hd_commands h) h
          end
      end
  end.

(** ** Commands and connection events *)

(** The response channel a command carries. *)
Definition hc_channel (cmd : HandlerCommand) : list nat :=
  match cmd with HcRetrieveChunk _ tx _ | HcPushChunk _ tx _ => [tx] | _ => [] end.
Definition info_channel (info : ClientOutboundInfo) : list nat :=
  match info with InfoRetrieval _ tx _ _ | InfoPushsync _ tx _ _ => [tx] | _ => [] end.

Definition on_behaviour_event (cmd : HandlerCommand) h : ClientHandler * list HandlerFx :=
  if decide (hc_max_pending_commands config <= Z.of_nat (length (hd_commands h))) then (h, FxDropTx <$> hc_channel cmd)
  else (with_commands (hd_commands h ++ [cmd]) h, []).

Definition handle_inbound_output (t1 t2 : Z) (order : list Z) (output : ClientInboundOutput) h : ClientHandler :=
  match output with
  | InPricing threshold => on_pricing_received threshold h
  | InRetrieval address => on_retrieval_request address h
  | InPushsync chunk => on_pushsync_delivery chunk h
  | InPseudosettle amount responder =>
      match overlay h with
      | None => h
      | Some o =>
          let '(request_id, h) := next_request_id h in
          store_response t1 t2 order request_id responder (queue_event (HePseudosettleReceived o amount request_id) h)
      end
  | InSwap cheque rate => match overlay h with Some o => push_event (HeSwapChequeReceived o cheque rate) h | None => h end
  end.

Definition handle_outbound_output (now : Z) (output : ClientOutboundOutput) (info : ClientOutboundInfo) h : ClientHandler * list HandlerFx :=
  match output, info with
  | OoPricing, InfoPricing =>
      let h := with_pricing true false h in
      (match overlay h with Some o => queue_event (HePricingSent o) h | None => h end, [])
  | OoRetrieval delivery, InfoRetrieval address response requested_at originated =>
      on_retrieval_response delivery address response (Z.max 0 (now - requested_at)) originated h
  | OoPushsync receipt, InfoPushsync address response requested_at originated =>
      on_pushsync_receipt receipt address response (Z.max 0 (now - requested_at)) originated h
  | OoPseudosettle ack, InfoPseudosettle _ =>
      (match overlay h with Some o => queue_event (HePseudosettleSent o ack) h | None => h end, [])
  | OoSwap rate, InfoSwap =>
      (match overlay h with Some o => push_event (HeSwapChequeSent o rate) h | None => h end, [])
  | _, info => (h, FxDropTx <$> info_channel info)
  end.

Definition on_dial_upgrade_error (error : StreamUpgradeError) (info : ClientOutboundInfo) h : ClientHandler * list HandlerFx :=
  let kind (classify : ClientUpgradeError → FailureKind) := match error with UpgradeApply e => classify e | _ => ProtocolFault end in
  let outcome := match error with UpgradeTimeout => TransferTimedOut | _ => ProtocolError end in
  match info with
  | InfoPricing => (push_event (HeError (overlay h) (Some PRICING)) (with_pricing (hd_pricing_sent h) false h), [])
  | InfoRetrieval address response _ _ =>
      (match overlay h with Some o => push_event (HeRetrievalFailed o address (kind retrieval_failure_kind)) h | None => h end,
       [FxReply response (RetrievalReply (Err outcome))])
  | InfoPushsync address response _ _ =>
      (match overlay h with Some o => push_event (HePushFailed o address (kind pushsync_failure_kind)) h | None => h end,
       [FxReply response (PushReply (Err outcome))])
  | InfoPseudosettle _ => (push_event (HeError (overlay h) (Some PSEUDOSETTLE)) h, [])
  | InfoSwap => (push_event (HeError (overlay h) (Some SWAP)) h, [])
  end.

Definition on_listen_upgrade_error (error : ClientUpgradeError) h : ClientHandler :=
  match inbound_failure_kind error, overlay h with
  | InvalidChunk, Some o =>
      push_event (HeInboundInvalidData o match error with ProtocolFailed PUSHSYNC _ => Some PUSHSYNC | ProtocolFailed RETRIEVAL _ => Some RETRIEVAL | _ => None end) h
  | _, _ => push_event (HeError (overlay h) None) h
  end.

(** ** One step *)

Inductive HandlerStep :=
| HsCommand (cmd : HandlerCommand)
| HsPoll (now : Z) (inbound : list (nat * InboundOutcome)) (sends : list (nat * bool))
| HsInbound (t1 t2 : Z) (order : list Z) (output : ClientInboundOutput)
| HsOutbound (now : Z) (output : ClientOutboundOutput) (info : ClientOutboundInfo)
| HsDialError (error : StreamUpgradeError) (info : ClientOutboundInfo)
| HsListenError (error : ClientUpgradeError).

Definition handler_step (s : ClientHandler * list HandlerFx) (e : HandlerStep) : ClientHandler * list HandlerFx :=
  let '(h, log) := s in
  match e with
  | HsCommand cmd => let '(h, fx) := on_behaviour_event cmd h in (h, log ++ fx)
  | HsPoll now inbound sends => let '(_, h, fx) := handler_poll now inbound sends h in (h, log ++ fx)
  | HsInbound t1 t2 order output => (handle_inbound_output t1 t2 order output h, log)
  | HsOutbound now output info => let '(h, fx) := handle_outbound_output now output info h in (h, log ++ fx)
  | HsDialError error info => let '(h, fx) := on_dial_upgrade_error error info h in (h, log ++ fx)
  | HsListenError error => (on_listen_upgrade_error error h, log)
  end.

(** ** Bounds *)

(** Acks handed to a responder, responders stored, payments received. *)
Definition acked_fx (r : nat) (fx : HandlerFx) : Z := match fx with FxAck r' _ => if decide (r' = r) then 1 else 0 | _ => 0 end.
Definition acked (r : nat) (log : list HandlerFx) : Z := sumZ (acked_fx r) log.
Definition stored_for (r : nat) (k : Z) (s : StoredResponse) : Z := if decide (sr_responder s = r) then 1 else 0.
Definition waiting (r : nat) h : Z := map_sumZ (stored_for r) (hd_responses h).
Definition offered_in (r : nat) (e : HandlerStep) : Z :=
  match e with HsInbound _ _ _ (InPseudosettle _ r') => if decide (r' = r) then 1 else 0 | _ => 0 end.

Record handler_ok h : Prop := {
  ho_commands : Z.of_nat (length (hd_commands h)) <= Z.max 0 (hc_max_pending_commands config);
  ho_responses : Z.of_nat (size (hd_responses h)) <= MAX_PENDING_RESPONSES;
  ho_sends : Z.of_nat (length (hd_sends h)) <= MAX_CONCURRENT_RESPONSE_SENDS;
  ho_dormant : hd_state h = Dormant → hd_inbound h = [] ∧ hd_responses h = ∅ ∧ hd_sends h = [];
}.

(** What a step may do to the part the bounds speak of. *)
Record handler_le h h' : Prop := {
  hl_commands : (length (hd_commands h') <= length (hd_commands h))%nat;
  hl_responses : hd_responses h' = hd_responses h;
  hl_sends : (length (hd_sends h') <= length (hd_sends h))%nat;
  hl_inbound : hd_inbound h = [] → hd_inbound h' = [];
  hl_state : hd_state h' = Dormant → hd_state h = Dormant;
}.

Lemma handler_le_refl h : handler_le h h.
Proof. by split. Qed.
Lemma handler_le_trans h1 h2 h3 : handler_le h1 h2 → handler_le h2 h3 → handler_le h1 h3.
Proof. intros [? ? ? ? ?] [? ? ? ? ?]. split; [lia|congruence|lia|auto|auto]. Qed.

Lemma handler_le_ok h h' : handler_le h h' → handler_ok h → handler_ok h' ∧ ∀ r, waiting r h' = waiting r h.
Proof.
  intros [Hc Hr Hs Hi Hst] [Oc Or Os Od]. split; [|intros r; unfold waiting; by rewrite Hr]. split; [lia|by rewrite Hr|lia|].
  intros Hd. destruct (Od (Hst Hd)) as (H1&H2&H3). split_and!; [by apply Hi|by rewrite Hr|]. rewrite H3 in Hs. simpl in Hs.
  destruct (hd_sends h'); [done|simpl in Hs; lia].
Qed.

Lemma queue_event_le e h : handler_le h (queue_event e h).
Proof. by split. Qed.
Lemma push_event_le e h : handler_le h (push_event e h).
Proof. unfold push_event. case_decide; [apply handler_le_refl|apply queue_event_le]. Qed.
Lemma with_pricing_le a b h : handler_le h (with_pricing a b h).
Proof. by split. Qed.
Lemma pop_event_le h : handler_le h (pop_event h).2.
Proof. unfold pop_event. by destruct (hd_events h). Qed.
Lemma activate_le o h : handler_le h (activate o h).
Proof. unfold activate. destruct (hd_state h) eqn:E; [|apply handler_le_refl]. by split. Qed.

Lemma delete_inbound_le i op h : hd_inbound h !! i = Some op → handler_le h (with_inbound (delete i (hd_inbound h)) h).
Proof. intros Hi. split; simpl; try done. intros Hn. by rewrite Hn in Hi. Qed.
Lemma delete_send_le i h : handler_le h (with_sends (delete i (hd_sends h)) h).
Proof. split; simpl; try done. rewrite delete_take_drop, length_app, length_take, length_drop. lia. Qed.

Lemma poll_inbound_le ready : ∀ h, handler_le h (poll_inbound ready h).2.
Proof.
  induction ready as [|[i o] ready IH]; intros h; simpl; [apply handler_le_refl|]. destruct (hd_inbound h !! i) as [op|] eqn:E; [|apply IH].
  pose proof (pop_event_le (on_inbound_outcome op o (with_inbound (delete i (hd_inbound h)) h))) as Hp.
  assert (Hl : handler_le h (on_inbound_outcome op o (with_inbound (delete i (hd_inbound h)) h)))
    by (eapply handler_le_trans; [by eapply delete_inbound_le|apply push_event_le]).
  destruct (pop_event _) as [[e|] h1]; simpl in *; [by eapply handler_le_trans|].
  eapply handler_le_trans; [exact Hl|]. eapply handler_le_trans; [exact Hp|apply IH].
Qed.

Lemma poll_sends_le ready : ∀ h, handler_le h (poll_sends ready h).2.
Proof.
  induction ready as [|[i ok] ready IH]; intros h; simpl; [apply handler_le_refl|]. destruct (hd_sends h !! i) as [r|] eqn:E; [|apply IH].
  set (h1 := with_sends (delete i (hd_sends h)) h). set (h2 := if ok then h1 else _).
  assert (Hl : handler_le h h2).
  { eapply handler_le_trans; [apply (delete_send_le i)|]. destruct ok; [apply handler_le_refl|apply push_event_le]. }
  pose proof (pop_event_le h2) as Hp. destruct (pop_event h2) as [[e|] h3]; simpl in *; [by eapply handler_le_trans|].
  eapply handler_le_trans; [exact Hl|]. eapply handler_le_trans; [exact Hp|apply IH].
Qed.

(** A step keeps the bounds, and trades stored responders for acks. *)
Definition trades (offered : nat → Z) h (out : ClientHandler * list HandlerFx) : Prop :=
  handler_ok out.1 ∧ ∀ r, waiting r out.1 + acked r out.2 <= waiting r h + offered r.

Lemma trades_le h h' fx : handler_ok h → handler_le h h' → (∀ r, acked r fx = 0) → trades (λ _, 0) h (h', fx).
Proof. intros Hok Hl Hf. destruct (handler_le_ok h h' Hl Hok) as [? Hw]. split; [done|]. intros r. simpl. rewrite Hw, Hf. lia. Qed.

Lemma waiting_delete r k (m : gmap Z StoredResponse) : map_sumZ (stored_for r) (delete k m) = map_sumZ (stored_for r) m - from_option (stored_for r k) 0 (m !! k).
Proof.
  destruct (m !! k) as [s|] eqn:E; simpl; [rewrite (map_sumZ_delete _ m k s E); lia|]. by rewrite delete_id, Z.sub_0_r.
Qed.

Lemma ack_payment_trades id ack h : handler_ok h → trades (λ _, 0) h (ack_payment id ack h) ∧ hd_commands (ack_payment id ack h).1 = hd_commands h.
Proof.
  intros Hok. destruct (Hok) as [Oc Or Os Od]. unfold ack_payment, take_response.
  assert (Hm : Z.of_nat (size (delete id (hd_responses h))) <= MAX_PENDING_RESPONSES) by (rewrite map_size_delete; destruct (hd_responses h !! id); simpl; lia).
  assert (Hd : hd_state h = Dormant → hd_responses h !! id = None ∧ delete id (hd_responses h) = ∅).
  { intros (_&H&_)%Od. rewrite H. split; [apply lookup_empty|apply delete_empty]. }
  assert (Hw : ∀ r, map_sumZ (stored_for r) (delete id (hd_responses h)) <= waiting r h - from_option (stored_for r id) 0 (hd_responses h !! id)).
  { intros r. by rewrite waiting_delete. }
  destruct (hd_responses h !! id) as [s|] eqn:E; simpl.
  2:{ split; [|done]. split; simpl; [split; simpl; try done; intros D; destruct (Od D) as (?&?&?); split_and!; try done; by apply Hd|].
      intros r. unfold waiting at 1, acked. simpl. specialize (Hw r). simpl in Hw. lia. }
  case_decide as Hs; (split; [|done]); split; simpl.
  - split; simpl; [done|done|rewrite length_app; simpl; lia|]. intros D. by destruct (Hd D).
  - intros r. unfold waiting at 1, acked. simpl. specialize (Hw r). simpl in Hw. unfold stored_for in Hw at 2. case_decide; lia.
  - split; simpl; try done. intros D. by destruct (Hd D).
  - intros r. unfold waiting at 1, acked. simpl. specialize (Hw r). simpl in Hw. unfold stored_for in Hw at 2. case_decide; lia.
Qed.

Lemma acked_app r l k : acked r (l ++ k) = acked r l + acked r k.
Proof. apply sumZ_app. Qed.

Lemma poll_commands_trades now cmds : ∀ h, handler_ok h → (length cmds <= length (hd_commands h))%nat →
  let '(_, h', fx) := poll_commands now cmds h in trades (λ _, 0) h (h', fx).
Proof.
  induction cmds as [|cmd rest IH]; intros h Hok Hlen; cbn [poll_commands].
  { apply trades_le; [done| |done]. split; simpl; done || lia. }
  simpl in Hlen. assert (Hl : handler_le h (with_commands rest h)) by (split; simpl; try done; lia).
  destruct (handler_le_ok _ _ Hl Hok) as [Hok1 Hw1]. set (h1 := with_commands rest h) in *. destruct cmd; try by apply trades_le.
  - pose proof (activate_le overlay0 h1) as Ha. pose proof (pop_event_le (activate overlay0 h1)) as Hp.
    assert (Hc : hd_commands (pop_event (activate overlay0 h1)).2 = rest).
    { unfold pop_event, activate. destruct (hd_state h1); unfold h1; simpl; destruct (hd_events h); done. }
    destruct (pop_event _) as [[e|] h2]; simpl in *.
    + apply trades_le; [done| |done]. eapply handler_le_trans; [exact Hl|]. by eapply handler_le_trans.
    + destruct (handler_le_ok h h2 ltac:(eapply handler_le_trans; [exact Hl|by eapply handler_le_trans]) Hok) as [Hok2 Hw2].
      specialize (IH h2 Hok2 ltac:(rewrite Hc; lia)). destruct (poll_commands now rest h2) as [[out h3] fx]. destruct IH as [? Hx].
      split; [done|]. intros r. specialize (Hx r). rewrite Hw2 in Hx. done.
  - destruct (negb _ && negb _); [apply trades_le; [done| |done]; by eapply handler_le_trans; [exact Hl|apply with_pricing_le]|].
    specialize (IH h1 Hok1 ltac:(simpl; lia)). destruct (poll_commands now rest h1) as [[out h3] fx]. destruct IH as [? Hx].
    split; [done|]. intros r. specialize (Hx r). by rewrite Hw1 in Hx.
  - destruct (ack_payment_trades request_id ack h1 Hok1) as [[Hok2 Hw2] Hc2]. destruct (ack_payment request_id ack h1) as [h2 fx]. simpl in *.
    specialize (IH h2 Hok2 ltac:(rewrite Hc2; simpl; lia)). destruct (poll_commands now rest h2) as [[out h3] fx']. destruct IH as [? Hx].
    split; [done|]. intros r. simpl. rewrite acked_app. specialize (Hx r). specialize (Hw2 r). rewrite Hw1 in Hw2. simpl in *. lia.
Qed.

Lemma older_some m l : ∀ best, (∀ k, best = Some k → is_Some (m !! k)) → (∀ k, k ∈ l → is_Some (m !! k)) →
  (best = None → l ≠ []) → ∃ k, foldl (older m) best l = Some k ∧ is_Some (m !! k).
Proof.
  induction l as [|x l IH]; intros best Hb Hl Hn; simpl; [destruct best; [eauto|by destruct Hn]|].
  assert (Hx : is_Some (m !! x)) by (apply Hl; left). apply IH; [|intros k Hk; apply Hl; by right|].
  - intros k. unfold older. destruct best as [b|]; [case_decide|]; intros [= <-]; eauto.
  - unfold older. destruct best; [case_decide|]; done.
Qed.

Lemma oldest_some order m : size m ≠ 0%nat → ∃ k, oldest order m = Some k ∧ is_Some (m !! k).
Proof.
  intros Hs. apply older_some; [done| |].
  - intros k. unfold walk_of. rewrite elem_of_app, !list_elem_of_filter. intros [[? _]|[_ Hk]]; [done|].
    apply list_elem_of_fmap in Hk as ([k' s]&->&Hk). apply elem_of_map_to_list in Hk. eauto.
  - intros _ Hw. assert (Hm : m ≠ ∅) by (intros ->; by rewrite map_size_empty in Hs). apply map_choose in Hm as (k&s&Hk).
    assert (k ∈ walk_of order m); [|rewrite Hw in *; by eapply elem_of_nil]. unfold walk_of. rewrite elem_of_app, !list_elem_of_filter.
    destruct (decide (k ∈ order)); [left; split; [eauto|done]|right]. split; [done|]. apply list_elem_of_fmap. exists (k, s). split; [done|].
    by apply elem_of_map_to_list.
Qed.

Lemma sum_filter_le r (P : Z * StoredResponse → Prop) `{∀ x, Decision (P x)} (m : gmap Z StoredResponse) :
  map_sumZ (stored_for r) (filter P m) <= map_sumZ (stored_for r) m.
Proof.
  induction m as [|k x m Hk IH] using map_ind; [rewrite map_filter_empty; lia|]. rewrite map_sumZ_insert by done.
  assert (0 <= stored_for r k x) by (unfold stored_for; case_decide; lia).
  rewrite map_filter_insert. case_decide.
  - rewrite map_sumZ_insert; [lia|]. apply map_lookup_filter_None. by left.
  - rewrite delete_id by done. lia.
Qed.

Lemma sum_delete_le r k (m : gmap Z StoredResponse) : map_sumZ (stored_for r) (delete k m) <= map_sumZ (stored_for r) m.
Proof. rewrite waiting_delete. destruct (m !! k); simpl; unfold stored_for; [case_decide|]; lia. Qed.

Lemma store_response_trades t1 t2 order id responder h : handler_ok h → hd_state h ≠ Dormant →
  trades (λ r, if decide (responder = r) then 1 else 0) h (store_response t1 t2 order id responder h, []).
Proof.
  intros [Oc Or Os Od] Ha. unfold store_response. set (m0 := hd_responses h).
  set (m1 := if decide _ then evict_stale_responses t1 m0 else m0).
  assert (H1 : (size m1 <= size m0)%nat ∧ ∀ r, map_sumZ (stored_for r) m1 <= map_sumZ (stored_for r) m0).
  { unfold m1. case_decide; [|done]. split; [apply map_subseteq_size, map_filter_subseteq|intros r; apply sum_filter_le]. }
  set (m2 := if decide (MAX_PENDING_RESPONSES <= Z.of_nat (size m1)) then _ else m1).
  assert (H2 : Z.of_nat (size m2) < MAX_PENDING_RESPONSES ∧ ∀ r, map_sumZ (stored_for r) m2 <= map_sumZ (stored_for r) m1).
  { unfold m2. case_decide as Hf; [|split; [lia|done]]. destruct (oldest_some order m1) as (k&->&[x Hx]).
    { unfold MAX_PENDING_RESPONSES in Hf. lia. }
    split; [|intros r; apply sum_delete_le]. rewrite map_size_delete, Hx. fold m0 in Or. destruct (size m1) eqn:E; simpl in *; unfold MAX_PENDING_RESPONSES in *; lia. }
  destruct H1 as [_ H1], H2 as [Hs H2]. split; simpl.
  - split; simpl; [done| |done|done]. rewrite map_size_insert. destruct (m2 !! id); simpl; lia.
  - intros r. unfold acked. simpl. rewrite Z.add_0_r. unfold waiting at 1. simpl. rewrite <-insert_delete_eq, map_sumZ_insert by apply lookup_delete_eq.
    pose proof (sum_delete_le r id m2). specialize (H1 r). specialize (H2 r). unfold waiting. fold m0. unfold stored_for at 1. simpl. lia.
Qed.

Lemma serve_trades op h : handler_ok h → hd_state h ≠ Dormant → trades (λ _, 0) h (with_inbound (hd_inbound h ++ [op]) h, []).
Proof. intros [Oc Or Os Od] Ha. split; [by split|]. intros r. unfold acked, waiting. simpl. lia. Qed.

Lemma trades_weaken f g h out : (∀ r, f r <= g r) → trades f h out → trades g h out.
Proof. intros Hfg [H1 H2]. split; [done|]. intros r. specialize (H2 r). specialize (Hfg r). lia. Qed.

Lemma inbound_trades t1 t2 order output h : handler_ok h →
  trades (λ r, offered_in r (HsInbound t1 t2 order output)) h (handle_inbound_output t1 t2 order output h, []).
Proof.
  intros Hok. destruct output as [x|address|chunk|amount responder|cheque rate]; simpl.
  - apply trades_le; [done| |done]. unfold on_pricing_received. destruct (overlay h); [apply queue_event_le|apply handler_le_refl].
  - unfold on_retrieval_request, overlay. destruct (hd_state h) eqn:E; [by apply trades_le|]. apply serve_trades; congruence.
  - unfold on_pushsync_delivery, overlay. destruct (hd_state h) eqn:E; [by apply trades_le|]. apply serve_trades; congruence.
  - unfold overlay. destruct (hd_state h) as [|o] eqn:E.
    { eapply trades_weaken; [|by apply trades_le]. intros r. simpl. case_decide; lia. }
    cbn [next_request_id].
    set (h1 := queue_event _ _). assert (Hl : handler_le h h1) by (by split). destruct (handler_le_ok h h1 Hl Hok) as [Hok1 Hw1].
    destruct (store_response_trades t1 t2 order (hd_next_request_id h) responder h1 Hok1) as [? Hx]; [simpl; congruence|].
    split; [done|]. intros r. specialize (Hx r). by rewrite Hw1 in Hx.
  - apply trades_le; [done| |done]. destruct (overlay h); [apply push_event_le|apply handler_le_refl].
Qed.

Lemma outbound_trades now output info h : handler_ok h → trades (λ _, 0) h (handle_outbound_output now output info h).
Proof.
  intros Hok. destruct output as [|d|rr|ack|rate], info; simpl; try (apply trades_le; [done|apply handler_le_refl|done]).
  - apply trades_le; [done| |done]. destruct (overlay _); [by split|by split].
  - unfold on_retrieval_response. destruct d, (overlay h); apply trades_le; try done; auto using push_event_le, handler_le_refl.
  - unfold on_pushsync_receipt. destruct rr, (overlay h); [..|by apply trades_le]; [apply trades_le; auto using push_event_le, handler_le_refl..|].
    destruct (reconstruct _ _ _ _ _); apply trades_le; auto using push_event_le.
  - apply trades_le; [done| |done]. destruct (overlay h); [apply queue_event_le|apply handler_le_refl].
  - apply trades_le; [done| |done]. destruct (overlay h); [apply push_event_le|apply handler_le_refl].
Qed.

Lemma dial_error_trades error info h : handler_ok h → trades (λ _, 0) h (on_dial_upgrade_error error info h).
Proof.
  intros Hok. destruct info; simpl; apply trades_le; try done; try (destruct (overlay h)); auto using push_event_le, handler_le_refl.
  all: eapply handler_le_trans; [apply with_pricing_le|apply push_event_le].
Qed.

Lemma handler_step_trades h log e : handler_ok h →
  let '(h', log') := handler_step (h, log) e in handler_ok h' ∧ ∀ r, waiting r h' + acked r log' <= waiting r h + acked r log + offered_in r e.
Proof.
  intros Hok. assert (Hfin : ∀ f out, trades f h out → handler_ok out.1 ∧ ∀ r, waiting r out.1 + acked r (log ++ out.2) <= waiting r h + acked r log + f r).
  { intros f out [? Hx]. split; [done|]. intros r. rewrite acked_app. specialize (Hx r). lia. }
  destruct e as [cmd|now inbound sends|t1 t2 order output|now output info|error info|error]; simpl.
  - unfold on_behaviour_event. case_decide as Hc; [apply (Hfin (λ _, 0) (h, _)), trades_le; [done|apply handler_le_refl|by destruct cmd]|].
    apply (Hfin (λ _, 0) (_, [])). destruct Hok as [Oc Or Os Od]. split; [split; simpl; try done; rewrite length_app; simpl; lia|].
    intros r. unfold acked, waiting. simpl. lia.
  - unfold handler_poll. pose proof (pop_event_le h) as H1. destruct (pop_event h) as [[e|] h1]; [by apply (Hfin (λ _, 0) (h1, [])), trades_le|].
    pose proof (poll_inbound_le inbound h1) as H2. destruct (poll_inbound inbound h1) as [[e|] h2]; simpl in *.
    { apply (Hfin (λ _, 0) (h2, [])), trades_le; [done|by eapply handler_le_trans|done]. }
    pose proof (poll_sends_le sends h2) as H3. destruct (poll_sends sends h2) as [[e|] h3]; simpl in *.
    { apply (Hfin (λ _, 0) (h3, [])), trades_le; [done| |done]. eapply handler_le_trans; [exact H1|by eapply handler_le_trans]. }
    destruct (handler_le_ok h h3 ltac:(eapply handler_le_trans; [exact H1|by eapply handler_le_trans]) Hok) as [Hok3 Hw3].
    pose proof (poll_commands_trades now (hd_commands h3) h3 Hok3 ltac:(lia)) as Hp. destruct (poll_commands now _ h3) as [[out h4] fx].
    apply (Hfin (λ _, 0) (h4, fx)). destruct Hp as [? Hx]. split; [done|]. intros r. specialize (Hx r). by rewrite Hw3 in Hx.
  - destruct (Hfin _ _ (inbound_trades t1 t2 order output h Hok)) as [? Hx]. split; [done|]. intros r. specialize (Hx r). simpl in Hx. by rewrite app_nil_r in Hx.
  - pose proof (Hfin _ _ (outbound_trades now output info h Hok)) as Hx. by destruct (handle_outbound_output now output info h).
  - pose proof (Hfin _ _ (dial_error_trades error info h Hok)) as Hx. by destruct (on_dial_upgrade_error error info h).
  - assert (Hl : handler_le h (on_listen_upgrade_error error h)) by (unfold on_listen_upgrade_error; destruct (inbound_failure_kind error), (overlay h); apply push_event_le).
    destruct (Hfin _ _ (trades_le h _ [] Hok Hl ltac:(done))) as [? Hx]. split; [done|]. intros r. specialize (Hx r). simpl in Hx. by rewrite app_nil_r in Hx.
Qed.

End handler.
