(* ===== verification/ClientNode.v ===== *)
(** * ClientNode: behaviour, connections and client service together

    [crates/swarm/client-behaviour/src/behaviour.rs]: the behaviour that routes
    commands to the handler of a peer's connection and handler events to the
    settlement services and the node; [crates/swarm/node/src/client_service.rs]
    ([process_event]) and the channels of [node/client.rs] between them, composed
    with the handlers of [Handler].

    The swarm is libp2p's: it delivers a notification to one of the peer's
    connections, chosen by the environment, and drops it when there is none; a
    closed connection drops its handler and its open substreams.  Channels of the
    node hold 256 entries.

    The theorems: every response channel handed to the node is answered once,
    dropped once, or held at one place; while an overlay belongs to one peer the
    two address maps are inverse; and three ways the composition fails, an overlay
    that reconnects under a new peer and becomes unreachable, a payment that two
    services acknowledge, and a settlement command that is lost without a failure
    event. *)

From S2P Require Import Prelude.
From S2P Require Import Primitives.
From S2P Require Import PeerScore.
From S2P Require Import Au.
From S2P Require Import Accounting.
From S2P Require Import Bandwidth.
From S2P Require Import Pseudosettle.
From S2P Require Import Swap.
From S2P Require Import Race.
From S2P Require Import Forward.
From S2P Require Import Dispatch.
From S2P Require Import Handler.

(** ** Commands and events of the behaviour *)

Inductive ClientCommand :=
| CmdActivatePeer (peer_id overlay : Z) (node_type : SwarmNodeType)
| CmdAnnouncePricing (peer threshold : Z)
| CmdRetrieveChunk (peer address : Z) (response : nat) (originated : bool)
| CmdPushChunk (peer address chunk : Z) (response : nat) (originated : bool)
| CmdSendPseudosettle (peer amount : Z)
| CmdAckPseudosettle (peer request_id : Z) (ack : PseudosettleAck)
| CmdSendCheque (peer : Z) (cheque : SignedCheque).

Inductive ClientEvent :=
| CePricingReceived (peer peer_id threshold : Z)
| CePricingSent (peer : Z)
| CeInboundServed (peer : Z)
| CeInboundForwarded (peer : Z)
| CeInboundMissed (peer address : Z)
| CeInboundRelayed (peer : Z)
| CeInboundStored (peer : Z)
| CeInboundPushFailed (peer address : Z)
| CeChunkReceived (peer address chunk : Z) (stamp : option Z) (latency : Z) (originated : bool)
| CeRetrievalFailed (peer address : Z) (kind : FailureKind)
| CeReceiptReceived (peer address latency : Z) (originated : bool)
| CePushFailed (peer address : Z) (kind : FailureKind)
| CeInboundInvalidData (peer : Z) (protocol : option ProtocolName)
| CePseudosettleReceived (peer peer_id amount request_id : Z)
| CePseudosettleSent (peer peer_id : Z) (ack : PseudosettleAck)
| CeSwapChequeReceived (peer peer_id : Z) (cheque : SignedCheque) (peer_rate : Z)
| CeSwapChequeSent (peer peer_id peer_rate : Z)
| CePeerActivated (peer_id overlay : Z)
| CePeerDisconnected (peer_id overlay : Z)
| CeProtocolError (peer : option Z) (peer_id : Z) (protocol : option ProtocolName).

Inductive ToSwarm := NotifyHandler (peer_id : Z) (cmd : HandlerCommand) | GenerateEvent (e : ClientEvent).

Inductive ServiceFx :=
| SvReport (peer : Z) (event : SwarmScoringEvent) (source : option ProtocolName)
| SvPut (chunk : Z) (stamp : option Z)
| SvCommand (cmd : ClientCommand).

Inductive NodeFx := NfHandler (fx : HandlerFx) | NfPs (e : PseudosettleEvent) | NfSwap (e : SwapEvent) | NfService (fx : ServiceFx).

Definition wire_ack (ack : PseudosettleAck) : PaymentAck := mkPaymentAck (Au.as_amount (ack_accepted ack)) (ack_time ack).
Definition domain_ack (ack : PaymentAck) : PseudosettleAck := mkAck (Au.saturating_from_u256 (pa_amount ack)) (pa_timestamp ack).

(** ** The behaviour *)

Definition DEFAULT_MAX_PENDING_EVENTS : Z := 4096.

Record ClientBehaviour := mkBehaviour {
  bh_max_pending_events : Z;
  bh_peer_overlays : gmap Z Z;
  bh_overlay_peers : gmap Z Z;
  bh_events : list ToSwarm;
  bh_pseudosettle : bool;  (** events are routed to a running pseudosettle service *)
  bh_swap : bool;
}.

Implicit Types (b : ClientBehaviour).

Definition behaviour_new (pseudosettle swap : bool) : ClientBehaviour := mkBehaviour DEFAULT_MAX_PENDING_EVENTS ∅ ∅ [] pseudosettle swap.

Definition with_bh_events (l : list ToSwarm) b : ClientBehaviour :=
  mkBehaviour (bh_max_pending_events b) (bh_peer_overlays b) (bh_overlay_peers b) l (bh_pseudosettle b) (bh_swap b).
Definition with_maps (peers overlays : gmap Z Z) b : ClientBehaviour :=
  mkBehaviour (bh_max_pending_events b) peers overlays (bh_events b) (bh_pseudosettle b) (bh_swap b).

(** The response channel carried by what is queued. *)
Definition to_swarm_channel (e : ToSwarm) : list nat := match e with NotifyHandler _ cmd => hc_channel cmd | GenerateEvent _ => [] end.
Definition drop_channels (l : list nat) : list NodeFx := (λ tx, NfHandler (FxDropTx tx)) <$> l.

Definition bh_queue (e : ToSwarm) b : ClientBehaviour := with_bh_events (bh_events b ++ [e]) b.
Definition bh_push_event (e : ToSwarm) b : ClientBehaviour * list NodeFx :=
  if decide (bh_max_pending_events b <= Z.of_nat (length (bh_events b))) then (b, drop_channels (to_swarm_channel e)) else (bh_queue e b, []).

(** Route a command to the peer of an overlay; [unknown] is what is done when
    there is none. *)
Definition route (peer : Z) (cmd : HandlerCommand) (unknown : list NodeFx) b : ClientBehaviour * list NodeFx :=
  match bh_overlay_peers b !! peer with
  | Some peer_id => bh_push_event (NotifyHandler peer_id cmd) b
  | None => (b, unknown)
  end.

Definition on_command (cmd : ClientCommand) b : ClientBehaviour * list NodeFx :=
  match cmd with
  | CmdActivatePeer peer_id o node_type =>
      bh_push_event (NotifyHandler peer_id (HcActivate o node_type))
        (with_maps (<[peer_id := o]> (bh_peer_overlays b)) (<[o := peer_id]> (bh_overlay_peers b)) b)
  | CmdAnnouncePricing peer threshold => route peer (HcAnnouncePricing threshold) [] b
  | CmdRetrieveChunk peer address response originated =>
      route peer (HcRetrieveChunk address response originated) [NfHandler (FxReply response (RetrievalReply (Err NotConnected)))] b
  | CmdPushChunk peer address chunk response originated =>
      route peer (HcPushChunk chunk response originated) [NfHandler (FxReply response (PushReply (Err NotConnected)))] b
  | CmdSendPseudosettle peer amount => route peer (HcSendPseudosettle amount) [] b
  | CmdAckPseudosettle peer request_id ack => route peer (HcAckPseudosettle request_id (wire_ack ack)) [] b
  | CmdSendCheque peer cheque => route peer (HcSendCheque cheque) [] b
  end.

Definition to_pseudosettle (e : PseudosettleEvent) b : list NodeFx := if bh_pseudosettle b then [NfPs e] else [].
Definition to_swap (e : SwapEvent) b : list NodeFx := if bh_swap b then [NfSwap e] else [].

Definition generate (e : ClientEvent) b : ClientBehaviour := (bh_push_event (GenerateEvent e) b).1.

Definition on_handler_event (peer_id : Z) (event : HandlerEvent) b : ClientBehaviour * list NodeFx :=
  match event with
  | HeActivated o => (bh_queue (GenerateEvent (CePeerActivated peer_id o)) b, [])
  | HePricingReceived o threshold => (generate (CePricingReceived o peer_id threshold) b, [])
  | HePricingSent o => (bh_queue (GenerateEvent (CePricingSent o)) b, [])
  | HeInboundServed o => (generate (CeInboundServed o) b, [])
  | HeInboundForwarded o => (generate (CeInboundForwarded o) b, [])
  | HeInboundMissed o address => (generate (CeInboundMissed o address) b, [])
  | HeInboundRelayed o => (generate (CeInboundRelayed o) b, [])
  | HeInboundStored o => (generate (CeInboundStored o) b, [])
  | HeInboundPushFailed o address => (generate (CeInboundPushFailed o address) b, [])
  | HeChunkReceived o address chunk stamp latency originated =>
      (bh_queue (GenerateEvent (CeChunkReceived o address chunk stamp latency originated)) b, [])
  | HeReceiptReceived o address latency originated => (generate (CeReceiptReceived o address latency originated) b, [])
  | HeRetrievalFailed o address kind => (generate (CeRetrievalFailed o address kind) b, [])
  | HePushFailed o address kind => (generate (CePushFailed o address kind) b, [])
  | HeInboundInvalidData o protocol => (generate (CeInboundInvalidData o protocol) b, [])
  | HeError o protocol =>
      (bh_queue (GenerateEvent (CeProtocolError o peer_id protocol)) b,
       match o, protocol with
       | Some peer, Some PSEUDOSETTLE => to_pseudosettle (PsFailed peer) b
       | Some peer, Some SWAP => to_swap (SwFailed peer) b
       | _, _ => []
       end)
  | HePseudosettleReceived o amount request_id =>
      (generate (CePseudosettleReceived o peer_id amount request_id) b, to_pseudosettle (PsReceived o amount request_id) b)
  | HePseudosettleSent o ack =>
      (generate (CePseudosettleSent o peer_id (domain_ack ack)) b, to_pseudosettle (PsSent o (domain_ack ack)) b)
  | HeSwapChequeReceived o cheque rate =>
      (generate (CeSwapChequeReceived o peer_id cheque rate) b, to_swap (ChequeReceived o cheque rate) b)
  | HeSwapChequeSent o rate => (generate (CeSwapChequeSent o peer_id rate) b, to_swap (ChequeSent o rate) b)
  end.

(** [FromSwarm::ConnectionClosed]; [last] when no connection of the peer is left. *)
Definition on_connection_closed (peer_id : Z) (last : bool) b : ClientBehaviour * list NodeFx :=
  if last then
    match bh_peer_overlays b !! peer_id with
    | None => (b, [])
    | Some o =>
        let b := with_maps (delete peer_id (bh_peer_overlays b)) (delete o (bh_overlay_peers b)) b in
        (bh_queue (GenerateEvent (CePeerDisconnected peer_id o)) b, to_pseudosettle (PsFailed o) b ++ to_swap (SwFailed o) b)
    end
  else (b, []).

(** ** The client service *)

Record ClientService := mkService {
  sv_report : bool;
  sv_store : bool;
  sv_inflight : option PeerInflightLimiter;
  sv_latency : option (list Z);
}.

Section service.
Context (proximity : Z → Z → Z) (is_content : Z → bool).

Definition report (s : ClientService) (peer : Z) (event : SwarmScoringEvent) (source : option ProtocolName) : list ServiceFx :=
  if sv_report s then [SvReport peer event source] else [].

Definition process_event (now : Z) (s : ClientService) (event : ClientEvent) : ClientService * list ServiceFx :=
  match event with
  | CeChunkReceived peer address chunk stamp latency originated =>
      (mkService (sv_report s) (sv_store s) (sv_inflight s)
         (match sv_latency s with
          | Some l => Some (if originated : bool then record l (proximity address peer) latency else l)
          | None => None
          end),
       (if sv_store s && is_content chunk then [SvPut chunk stamp] else []) ++ report s peer (RetrievalSuccess latency) (Some RETRIEVAL))
  | CeReceiptReceived peer _ latency _ => (s, report s peer (PushSuccess latency) (Some PUSHSYNC))
  | CePeerDisconnected _ o => (mkService (sv_report s) (sv_store s) (Dispatch.forget o <$> sv_inflight s) (sv_latency s), [])
  | CeRetrievalFailed peer _ InvalidChunk => (s, report s peer InvalidData (Some RETRIEVAL))
  | CePushFailed peer _ InvalidChunk => (s, report s peer InvalidData (Some PUSHSYNC))
  | CeInboundInvalidData peer protocol => (s, report s peer InvalidData protocol)
  | CePseudosettleReceived peer _ amount request_id =>
      (s, [SvCommand (CmdAckPseudosettle peer request_id (mkAck (Au.saturating_from_u256 amount) now))])
  | _ => (s, [])
  end.
End service.

(** ** The node *)

Definition DEFAULT_CHANNEL_CAPACITY : Z := 256.

Record Conn := mkConn { cn_peer : Z; cn_handler : ClientHandler; cn_streams : list ClientOutboundInfo }.

Record Node := mkNode {
  nd_behaviour : ClientBehaviour;
  nd_conns : gmap Z Conn;
  nd_commands : list ClientCommand;
  nd_events : list ClientEvent;
  nd_service : ClientService;
  nd_log : list NodeFx;
}.

Definition node_new (pseudosettle swap : bool) (s : ClientService) : Node := mkNode (behaviour_new pseudosettle swap) ∅ [] [] s [].

Implicit Types (n : Node) (c : Conn).

Definition with_behaviour (out : ClientBehaviour * list NodeFx) n : Node :=
  mkNode out.1 (nd_conns n) (nd_commands n) (nd_events n) (nd_service n) (nd_log n ++ out.2).
Definition with_conns (conns : gmap Z Conn) n : Node :=
  mkNode (nd_behaviour n) conns (nd_commands n) (nd_events n) (nd_service n) (nd_log n).
Definition logged (fx : list NodeFx) n : Node :=
  mkNode (nd_behaviour n) (nd_conns n) (nd_commands n) (nd_events n) (nd_service n) (nd_log n ++ fx).
Definition with_node_commands (l : list ClientCommand) n : Node :=
  mkNode (nd_behaviour n) (nd_conns n) l (nd_events n) (nd_service n) (nd_log n).

Definition cmd_channel (cmd : ClientCommand) : list nat :=
  match cmd with CmdRetrieveChunk _ _ tx _ | CmdPushChunk _ _ _ tx _ => [tx] | _ => [] end.

(** [ClientHandle::send_command]: a full channel drops the command. *)
Definition send_command (cmd : ClientCommand) n : Node :=
  if decide (DEFAULT_CHANNEL_CAPACITY <= Z.of_nat (length (nd_commands n))) then logged (drop_channels (cmd_channel cmd)) n
  else with_node_commands (nd_commands n ++ [cmd]) n.

(** [route_client_event]: a full channel drops the event. *)
Definition route_client_event (e : ClientEvent) n : Node :=
  if decide (DEFAULT_CHANNEL_CAPACITY <= Z.of_nat (length (nd_events n))) then n
  else mkNode (nd_behaviour n) (nd_conns n) (nd_commands n) (nd_events n ++ [e]) (nd_service n) (nd_log n).

Definition connections_of (peer_id : Z) n : gmap Z Conn := filter (λ kc, cn_peer kc.2 = peer_id) (nd_conns n).

Section node.
Context (config : HandlerConfig) (chunk_address : Z → Z) {Eth : Type}.
Context (zero_signature : Z) (recover_address : Z → Z → option Eth) (compute_overlay : Eth → Z → Z → Z).
Context (proximity : Z → Z → Z) (is_content : Z → bool).

Abbreviation outbound := (handle_outbound_output config zero_signature recover_address compute_overlay).

(** The swarm takes the behaviour's next event; [conn] is the connection it
    picks for a notification. *)
Definition poll_behaviour (conn : Z) n : Node :=
  match bh_events (nd_behaviour n) with
  | [] => n
  | e :: rest =>
      let n' := with_behaviour (with_bh_events rest (nd_behaviour n), []) n in
      match e with
      | GenerateEvent ev => route_client_event ev n'
      | NotifyHandler peer_id cmd =>
          match connections_of peer_id n !! conn with
          | Some c =>
              let '(h, fx) := on_behaviour_event config cmd (cn_handler c) in
              logged (NfHandler <$> fx) (with_conns (<[conn := mkConn (cn_peer c) h (cn_streams c)]> (nd_conns n)) n')
          | None => if decide (connections_of peer_id n = ∅) then logged (drop_channels (hc_channel cmd)) n' else n
          end
      end
  end.

(** Poll a connection's handler: an event goes to the behaviour, a request opens
    a substream. *)
Definition poll_handler (conn now : Z) (inbound : list (nat * InboundOutcome)) (sends : list (nat * bool)) n : Node :=
  match nd_conns n !! conn with
  | None => n
  | Some c =>
      let '(out, h, fx) := handler_poll config chunk_address now inbound sends (cn_handler c) in
      let put streams := logged (NfHandler <$> fx) (with_conns (<[conn := mkConn (cn_peer c) h streams]> (nd_conns n)) n) in
      match out with
      | NotifyBehaviour e => with_behaviour (on_handler_event (cn_peer c) e (nd_behaviour n)) (put (cn_streams c))
      | OutboundSubstreamRequest _ info _ => put (cn_streams c ++ [info])
      | PollPending => put (cn_streams c)
      end
  end.

(** The [i]-th open substream of a connection ends, with an output or an error. *)
Definition end_stream (conn : Z) (i : nat) (f : ClientOutboundInfo → ClientHandler → ClientHandler * list HandlerFx) n : Node :=
  match nd_conns n !! conn with
  | None => n
  | Some c =>
      match cn_streams c !! i with
      | None => n
      | Some info =>
          let '(h, fx) := f info (cn_handler c) in
          logged (NfHandler <$> fx) (with_conns (<[conn := mkConn (cn_peer c) h (delete i (cn_streams c))]> (nd_conns n)) n)
      end
  end.

Definition on_handler (conn : Z) (f : ClientHandler → ClientHandler) n : Node :=
  match nd_conns n !! conn with
  | None => n
  | Some c => with_conns (<[conn := mkConn (cn_peer c) (f (cn_handler c)) (cn_streams c)]> (nd_conns n)) n
  end.

(** Channels a connection holds: in its queue and in its open substreams. *)
Definition conn_channels c : list nat := (hd_commands (cn_handler c) ≫= hc_channel) ++ (cn_streams c ≫= info_channel).

Definition close_connection (conn : Z) n : Node :=
  match nd_conns n !! conn with
  | None => n
  | Some c =>
      let n := logged (drop_channels (conn_channels c)) (with_conns (delete conn (nd_conns n)) n) in
      with_behaviour (on_connection_closed (cn_peer c) (bool_decide (connections_of (cn_peer c) n = ∅)) (nd_behaviour n)) n
  end.

Definition run_service (now : Z) n : Node :=
  match nd_events n with
  | [] => n
  | e :: rest =>
      let '(s, fx) := process_event proximity is_content now (nd_service n) e in
      let n := mkNode (nd_behaviour n) (nd_conns n) (nd_commands n) rest s (nd_log n ++ (NfService <$> fx)) in
      foldl (λ n fx, match fx with SvCommand cmd => send_command cmd n | _ => n end) n fx
  end.

(** What the settlement services hand to the command bridge. *)
Inductive BridgeCommand := BrSendPseudosettle (peer amount : Z) | BrAckPseudosettle (peer request_id : Z) (ack : PseudosettleAck) | BrSendCheque (peer : Z) (cheque : SignedCheque).

Definition bridge_command (cmd : BridgeCommand) : ClientCommand :=
  match cmd with
  | BrSendPseudosettle peer amount => CmdSendPseudosettle peer amount
  | BrAckPseudosettle peer request_id ack => CmdAckPseudosettle peer request_id ack
  | BrSendCheque peer cheque => CmdSendCheque peer cheque
  end.

Inductive NodeEvent :=
| NeSend (cmd : ClientCommand)
| NeBridge (cmd : BridgeCommand)
| NeTakeCommand
| NePeerReady (peer_id overlay : Z) (node_type : SwarmNodeType)
| NeEstablished (conn peer_id : Z)
| NeClosed (conn : Z)
| NePollBehaviour (conn : Z)
| NePollHandler (conn now : Z) (inbound : list (nat * InboundOutcome)) (sends : list (nat * bool))
| NeStreamDone (conn : Z) (i : nat) (now : Z) (output : ClientOutboundOutput)
| NeStreamFailed (conn : Z) (i : nat) (error : StreamUpgradeError)
| NeInbound (conn t1 t2 : Z) (order : list Z) (output : ClientInboundOutput)
| NeListenError (conn : Z) (error : ClientUpgradeError)
| NeService (now : Z).

Definition node_step n (e : NodeEvent) : Node :=
  match e with
  | NeSend cmd => send_command cmd n
  | NeBridge cmd =>
      (* [send_command_buffered] waits for room *)
      if decide (Z.of_nat (length (nd_commands n)) < DEFAULT_CHANNEL_CAPACITY) then with_node_commands (nd_commands n ++ [bridge_command cmd]) n else n
  | NeTakeCommand =>
      match nd_commands n with
      | [] => n
      | cmd :: rest => with_behaviour (on_command cmd (nd_behaviour n)) (with_node_commands rest n)
      end
  | NePeerReady peer_id o node_type => with_behaviour (on_command (CmdActivatePeer peer_id o node_type) (nd_behaviour n)) n
  | NeEstablished conn peer_id =>
      match nd_conns n !! conn with Some _ => n | None => with_conns (<[conn := mkConn peer_id handler_new []]> (nd_conns n)) n end
  | NeClosed conn => close_connection conn n
  | NePollBehaviour conn => poll_behaviour conn n
  | NePollHandler conn now inbound sends => poll_handler conn now inbound sends n
  | NeStreamDone conn i now output => end_stream conn i (outbound now output) n
  | NeStreamFailed conn i error => end_stream conn i (on_dial_upgrade_error config error) n
  | NeInbound conn t1 t2 order output => on_handler conn (handle_inbound_output config t1 t2 order output) n
  | NeListenError conn error => on_handler conn (on_listen_upgrade_error config error) n
  | NeService now => run_service now n
  end.

(** ** Every request is resolved once *)

Definition count (tx : nat) (l : list nat) : Z := sumZ (λ x, if decide (x = tx) then 1 else 0) l.

Definition resolved_fx (tx : nat) (fx : NodeFx) : Z :=
  match fx with NfHandler (FxReply t _ | FxDropTx t) => if decide (t = tx) then 1 else 0 | _ => 0 end.
Definition resolved (tx : nat) (log : list NodeFx) : Z := sumZ (resolved_fx tx) log.

Definition held_by (tx : nat) (conn : Z) c : Z := count tx (conn_channels c).
Definition node_held (tx : nat) n : Z :=
  count tx (nd_commands n ≫= cmd_channel) + count tx (bh_events (nd_behaviour n) ≫= to_swarm_channel) + map_sumZ (held_by tx) (nd_conns n).

Definition requested_in (tx : nat) (e : NodeEvent) : Z := match e with NeSend cmd => count tx (cmd_channel cmd) | _ => 0 end.

Lemma count_app tx l k : count tx (l ++ k) = count tx l + count tx k.
Proof. apply sumZ_app. Qed.
Lemma count_nil tx : count tx [] = 0.
Proof. done. Qed.
Lemma resolved_app tx l k : resolved tx (l ++ k) = resolved tx l + resolved tx k.
Proof. apply sumZ_app. Qed.
Lemma resolved_drops tx l : resolved tx (drop_channels l) = count tx l.
Proof. induction l as [|x l IH]; [done|]. unfold drop_channels in *. rewrite fmap_cons. unfold resolved, count, sumZ in *. simpl. by rewrite IH. Qed.
Lemma resolved_service tx l : resolved tx (NfService <$> l) = 0.
Proof. induction l as [|x l IH]; [done|]. rewrite fmap_cons. unfold resolved, sumZ in *. simpl. lia. Qed.

Lemma push_conserves tx e b : let '(b', fx) := bh_push_event e b in
  count tx (bh_events b' ≫= to_swarm_channel) + resolved tx fx = count tx (bh_events b ≫= to_swarm_channel) + count tx (to_swarm_channel e).
Proof.
  unfold bh_push_event. case_decide; [by rewrite resolved_drops|]. simpl. rewrite bind_app, count_app. simpl. rewrite app_nil_r.
  unfold resolved. simpl. lia.
Qed.

Lemma route_conserves tx peer cmd unknown b : resolved tx unknown = count tx (hc_channel cmd) →
  let '(b', fx) := route peer cmd unknown b in
  count tx (bh_events b' ≫= to_swarm_channel) + resolved tx fx = count tx (bh_events b ≫= to_swarm_channel) + count tx (hc_channel cmd).
Proof. intros Hu. unfold route. destruct (bh_overlay_peers b !! peer); [apply (push_conserves tx (NotifyHandler z cmd))|]. by rewrite Hu. Qed.

Lemma on_command_conserves tx cmd b : let '(b', fx) := on_command cmd b in
  count tx (bh_events b' ≫= to_swarm_channel) + resolved tx fx = count tx (bh_events b ≫= to_swarm_channel) + count tx (cmd_channel cmd).
Proof.
  destruct cmd; simpl; try (by apply route_conserves).
  match goal with |- context [bh_push_event ?e ?b'] => pose proof (push_conserves tx e b') as H end. exact H.
Qed.

Lemma generate_conserves tx e b : count tx (bh_events (generate e b) ≫= to_swarm_channel) = count tx (bh_events b ≫= to_swarm_channel).
Proof.
  unfold generate, bh_push_event. case_decide; [done|]. simpl. rewrite bind_app, count_app. unfold count at 2. simpl. lia.
Qed.

Lemma queue_conserves tx e b : count tx (bh_events (bh_queue (GenerateEvent e) b) ≫= to_swarm_channel) = count tx (bh_events b ≫= to_swarm_channel).
Proof. simpl. rewrite bind_app, count_app. unfold count at 2. simpl. lia. Qed.

Lemma settle_fx tx e f b : resolved tx (to_pseudosettle e b) = 0 ∧ resolved tx (to_swap f b) = 0.
Proof. unfold to_pseudosettle, to_swap. by destruct (bh_pseudosettle b), (bh_swap b). Qed.

Lemma on_handler_event_conserves tx peer_id e b : let '(b', fx) := on_handler_event peer_id e b in
  count tx (bh_events b' ≫= to_swarm_channel) = count tx (bh_events b ≫= to_swarm_channel) ∧ resolved tx fx = 0.
Proof.
  destruct e; cbn [on_handler_event]; (split; [apply generate_conserves || apply queue_conserves|]); try done; try apply settle_fx; try exact (SwFailed 0); try exact (PsFailed 0).
  destruct overlay as [o|], protocol as [[| | | |]|]; try done; apply settle_fx; first [exact (SwFailed 0)|exact (PsFailed 0)].
Qed.

Lemma on_closed_conserves tx peer_id last b : let '(b', fx) := on_connection_closed peer_id last b in
  count tx (bh_events b' ≫= to_swarm_channel) = count tx (bh_events b ≫= to_swarm_channel) ∧ resolved tx fx = 0.
Proof.
  unfold on_connection_closed. destruct last; [|done]. destruct (bh_peer_overlays b !! peer_id) as [o|]; [|done].
  split; [simpl; rewrite bind_app, count_app; unfold count at 2; simpl; lia|]. rewrite resolved_app. unfold to_pseudosettle, to_swap. simpl. by destruct (bh_pseudosettle b), (bh_swap b).
Qed.

Abbreviation queued h := (hd_commands h ≫= hc_channel).

Lemma on_behaviour_conserves tx cmd h : let '(h', fx) := on_behaviour_event config cmd h in
  count tx (queued h') + resolved tx (NfHandler <$> fx) = count tx (queued h) + count tx (hc_channel cmd).
Proof.
  unfold on_behaviour_event. case_decide; [rewrite <-list_fmap_compose; f_equal; apply resolved_drops|]. simpl. rewrite bind_app, count_app. simpl.
  rewrite app_nil_r. unfold resolved. simpl. lia.
Qed.

Lemma pop_commands h : hd_commands (pop_event h).2 = hd_commands h.
Proof. unfold pop_event. by destruct (hd_events h). Qed.
Lemma push_commands e h : hd_commands (push_event config e h) = hd_commands h.
Proof. unfold push_event. by case_decide. Qed.

Lemma poll_inbound_commands ready : ∀ h, hd_commands (poll_inbound config chunk_address ready h).2 = hd_commands h.
Proof.
  induction ready as [|[i o] ready IH]; intros h; simpl; [done|]. destruct (hd_inbound h !! i) as [op|]; [|apply IH].
  set (h1 := on_inbound_outcome _ _ _ _ _). assert (H1 : hd_commands h1 = hd_commands h) by (unfold h1, on_inbound_outcome; by rewrite push_commands).
  pose proof (pop_commands h1) as H2. destruct (pop_event h1) as [[e|] h2]; simpl in *; [congruence|]. rewrite IH. congruence.
Qed.

Lemma poll_sends_commands ready : ∀ h, hd_commands (poll_sends config ready h).2 = hd_commands h.
Proof.
  induction ready as [|[i ok] ready IH]; intros h; simpl; [done|]. destruct (hd_sends h !! i); [|apply IH].
  set (h1 := if ok then _ else _). assert (H1 : hd_commands h1 = hd_commands h) by (unfold h1; destruct ok; [done|by rewrite push_commands]).
  pose proof (pop_commands h1) as H2. destruct (pop_event h1) as [[e|] h2]; simpl in *; [congruence|]. rewrite IH. congruence.
Qed.

Definition poll_channel (out : HandlerPoll) : list nat := match out with OutboundSubstreamRequest _ info _ => info_channel info | _ => [] end.

Lemma acks_resolved tx id ack h : resolved tx (NfHandler <$> (ack_payment id ack h).2) = 0 ∧ hd_commands (ack_payment id ack h).1 = hd_commands h.
Proof. unfold ack_payment, take_response. destruct (hd_responses h !! id); simpl; [case_decide|]; done. Qed.

Lemma poll_commands_conserves tx now cmds : ∀ h, let '(out, h', fx) := poll_commands config chunk_address now cmds h in
  count tx (queued h') + count tx (poll_channel out) = count tx (cmds ≫= hc_channel) ∧ resolved tx (NfHandler <$> fx) = 0.
Proof.
  induction cmds as [|cmd rest IH]; intros h; [done|]. rewrite bind_cons, count_app. cbn [poll_commands].
  assert (Hskip : ∀ h1 fx, resolved tx (NfHandler <$> fx) = 0 → let '(out, h', fx') := poll_commands config chunk_address now rest h1 in
    count tx (queued h') + count tx (poll_channel out) = count tx [] + count tx (rest ≫= hc_channel) ∧ resolved tx (NfHandler <$> (fx ++ fx')) = 0).
  { intros h1 fx Hf. specialize (IH h1). destruct (poll_commands _ _ _ _ h1) as [[out h2] fx']. rewrite count_nil, fmap_app, resolved_app. destruct IH. split; lia. }
  destruct cmd; cbn [hc_channel]; try (cbn [poll_channel info_channel hd_commands with_commands]; split; [rewrite ?count_nil; lia|done]).
  - pose proof (pop_commands (activate overlay (with_commands rest h))) as Hc.
    assert (Ha : hd_commands (activate overlay (with_commands rest h)) = rest) by (unfold activate; by destruct (hd_state _)). rewrite Ha in Hc.
    destruct (pop_event _) as [[e|] h1]; cbn [snd] in Hc; [rewrite Hc; cbn [poll_channel]; rewrite !count_nil; split; [lia|done]|]. exact (Hskip h1 [] eq_refl).
  - destruct (negb _ && negb _); [cbn [poll_channel info_channel hd_commands with_pricing with_commands]; rewrite ?count_nil; split; [lia|done]|]. exact (Hskip _ [] eq_refl).
  - destruct (acks_resolved tx request_id ack (with_commands rest h)) as [Hf _]. destruct (ack_payment _ _ _) as [h1 fx]. cbn [snd] in Hf.
    specialize (Hskip h1 fx Hf). by destruct (poll_commands _ _ _ _ _) as [[out h2] fx'].
Qed.

Lemma handler_poll_conserves tx now inbound sends h : let '(out, h', fx) := handler_poll config chunk_address now inbound sends h in
  count tx (queued h') + count tx (poll_channel out) = count tx (queued h) ∧ resolved tx (NfHandler <$> fx) = 0.
Proof.
  unfold handler_poll. pose proof (pop_commands h) as H1. destruct (pop_event h) as [[e|] h1]; simpl in H1; [rewrite <-H1; cbn [poll_channel]; rewrite count_nil; split; [lia|done]|].
  pose proof (poll_inbound_commands inbound h1) as H2. destruct (poll_inbound _ _ inbound h1) as [[e|] h2]; simpl in H2.
  { rewrite <-H1, <-H2. cbn [poll_channel]. rewrite count_nil. split; [lia|done]. }
  pose proof (poll_sends_commands sends h2) as H3. destruct (poll_sends _ sends h2) as [[e|] h3]; simpl in H3.
  { rewrite <-H1, <-H2, <-H3. cbn [poll_channel]. rewrite count_nil. split; [lia|done]. }
  rewrite <-H1, <-H2, <-H3. apply poll_commands_conserves.
Qed.

Lemma outbound_conserves tx now output info h : let '(h', fx) := outbound now output info h in
  hd_commands h' = hd_commands h ∧ resolved tx (NfHandler <$> fx) = count tx (info_channel info).
Proof.
  destruct output as [|d|rr|ack|rate], info; simpl; try done.
  - by destruct (overlay _).
  - unfold on_retrieval_response. destruct d, (overlay h); by rewrite ?push_commands.
  - unfold on_pushsync_receipt. destruct rr, (overlay h); rewrite ?push_commands; try done. destruct (reconstruct _ _ _ _ _); by rewrite push_commands.
  - by destruct (overlay h).
  - destruct (overlay h); by rewrite ?push_commands.
Qed.

Lemma dial_error_conserves tx error info h : let '(h', fx) := on_dial_upgrade_error config error info h in
  hd_commands h' = hd_commands h ∧ resolved tx (NfHandler <$> fx) = count tx (info_channel info).
Proof. destruct info; simpl; try (destruct (overlay h)); by rewrite ?push_commands. Qed.

Lemma inbound_commands t1 t2 order output h : hd_commands (handle_inbound_output config t1 t2 order output h) = hd_commands h.
Proof.
  destruct output; simpl; unfold on_pricing_received, on_retrieval_request, on_pushsync_delivery; destruct (overlay h); simpl; try done. by rewrite push_commands.
Qed.

Lemma listen_error_commands error h : hd_commands (on_listen_upgrade_error config error h) = hd_commands h.
Proof. unfold on_listen_upgrade_error. destruct (inbound_failure_kind error), (overlay h); by rewrite push_commands. Qed.

Lemma held_update tx conn c c' (m : gmap Z Conn) : m !! conn = Some c →
  map_sumZ (held_by tx) (<[conn := c']> m) = map_sumZ (held_by tx) m - held_by tx conn c + held_by tx conn c'.
Proof.
  intros Hm. rewrite <-insert_delete_eq, map_sumZ_insert by apply lookup_delete_eq. rewrite (map_sumZ_delete _ m conn c Hm). lia.
Qed.

Lemma held_by_conn tx conn peer h streams : held_by tx conn (mkConn peer h streams) = count tx (queued h) + count tx (streams ≫= info_channel).
Proof. unfold held_by, conn_channels. simpl. apply count_app. Qed.

(** The total a step keeps. *)
Definition owed (tx : nat) n : Z := node_held tx n + resolved tx (nd_log n).

Lemma owed_logged tx fx n : owed tx (logged fx n) = owed tx n + resolved tx fx.
Proof. unfold owed, node_held. simpl. rewrite resolved_app. lia. Qed.

Lemma owed_behaviour tx b fx n : count tx (bh_events b ≫= to_swarm_channel) = count tx (bh_events (nd_behaviour n) ≫= to_swarm_channel) →
  resolved tx fx = 0 → owed tx (with_behaviour (b, fx) n) = owed tx n.
Proof. intros Hb Hf. unfold owed, node_held. simpl. rewrite resolved_app. lia. Qed.

Lemma owed_conn tx conn c c' n : nd_conns n !! conn = Some c →
  owed tx (with_conns (<[conn := c']> (nd_conns n)) n) = owed tx n - held_by tx conn c + held_by tx conn c'.
Proof. intros Hc. unfold owed, node_held. simpl. rewrite (held_update tx conn c) by done. lia. Qed.

Lemma send_owed tx cmd n : owed tx (send_command cmd n) = owed tx n + count tx (cmd_channel cmd).
Proof.
  unfold send_command. case_decide; [rewrite owed_logged, resolved_drops; lia|]. unfold owed, node_held. simpl.
  rewrite bind_app, count_app. simpl. rewrite app_nil_r. lia.
Qed.

Lemma service_owed tx now n : owed tx (run_service now n) = owed tx n.
Proof.
  unfold run_service. destruct (nd_events n) as [|e rest]; [done|]. destruct (process_event _ _ _ _ e) as [s fx] eqn:E.
  assert (Hfx : ∀ l n', Forall (λ x, match x with SvCommand cmd => cmd_channel cmd = [] | _ => True end) l →
    owed tx (foldl (λ n x, match x with SvCommand cmd => send_command cmd n | _ => n end) n' l) = owed tx n').
  { induction l as [|x l IH]; intros n' Hl; simpl; [done|]. apply Forall_cons in Hl as [Hx Hl]. rewrite IH by done. destruct x; [done|done|].
    rewrite send_owed, Hx, count_nil. lia. }
  rewrite Hfx.
  - unfold owed, node_held. simpl. rewrite resolved_app, resolved_service. lia.
  - unfold process_event, report in E. destruct e; try destruct kind; try destruct (sv_report (nd_service n)); try destruct (sv_store (nd_service n) && is_content chunk);
      injection E as <- <-; repeat constructor.
Qed.

Lemma poll_behaviour_owed tx conn n : owed tx (poll_behaviour conn n) = owed tx n.
Proof.
  unfold poll_behaviour. destruct (bh_events (nd_behaviour n)) as [|e rest] eqn:E; [done|].
  set (n' := with_behaviour (with_bh_events rest (nd_behaviour n), []) n).
  assert (Hn : owed tx n' = owed tx n - count tx (to_swarm_channel e)).
  { unfold n', owed, node_held. simpl. rewrite E, bind_cons, count_app, app_nil_r. lia. }
  destruct e as [peer_id cmd|ev].
  - cbn [to_swarm_channel] in Hn. destruct (connections_of peer_id n !! conn) as [c|] eqn:Ec.
    + apply map_lookup_filter_Some in Ec as [Ec _]. pose proof (on_behaviour_conserves tx cmd (cn_handler c)) as Hb.
      destruct (on_behaviour_event config cmd (cn_handler c)) as [h fx]. rewrite owed_logged, (owed_conn tx conn c _ n') by done.
      rewrite held_by_conn. destruct c as [p h0 st]. rewrite held_by_conn. simpl in *. lia.
    + case_decide; [|done]. rewrite owed_logged, resolved_drops. lia.
  - rewrite count_nil in Hn. unfold route_client_event. case_decide; [lia|]. unfold owed, node_held in *. simpl in *. lia.
Qed.

Lemma poll_handler_owed tx conn now inbound sends n : owed tx (poll_handler conn now inbound sends n) = owed tx n.
Proof.
  unfold poll_handler. destruct (nd_conns n !! conn) as [c|] eqn:Ec; [|done].
  pose proof (handler_poll_conserves tx now inbound sends (cn_handler c)) as Hp.
  destruct (handler_poll _ _ _ _ _ _) as [[out h] fx]. destruct Hp as [Hp Hf].
  assert (Hput : ∀ streams, owed tx (logged (NfHandler <$> fx) (with_conns (<[conn := mkConn (cn_peer c) h streams]> (nd_conns n)) n)) =
    owed tx n - count tx (poll_channel out) - count tx (cn_streams c ≫= info_channel) + count tx (streams ≫= info_channel)).
  { intros streams. rewrite owed_logged, (owed_conn tx conn c) by done. rewrite held_by_conn. destruct c as [p h0 st]. rewrite held_by_conn. simpl in *. lia. }
  destruct out as [e|rq info timeout|].
  - pose proof (on_handler_event_conserves tx (cn_peer c) e (nd_behaviour n)) as He. destruct (on_handler_event _ _ _) as [b fx']. destruct He as [He1 He2].
    rewrite owed_behaviour, Hput by done. cbn [poll_channel]. rewrite count_nil. lia.
  - rewrite Hput, bind_app, count_app. simpl. rewrite app_nil_r. lia.
  - rewrite Hput. cbn [poll_channel]. rewrite count_nil. lia.
Qed.

Lemma delete_channels tx i info (l : list ClientOutboundInfo) : l !! i = Some info →
  count tx (l ≫= info_channel) = count tx (info_channel info) + count tx (delete i l ≫= info_channel).
Proof.
  intros Hi. rewrite <-(take_drop_middle l i info Hi) at 1. rewrite delete_take_drop, !bind_app, bind_cons, !count_app. lia.
Qed.

Lemma end_stream_owed tx conn i f n : (∀ info h, let '(h', fx) := f info h in
    hd_commands h' = hd_commands h ∧ resolved tx (NfHandler <$> fx) = count tx (info_channel info)) →
  owed tx (end_stream conn i f n) = owed tx n.
Proof.
  intros Hf. unfold end_stream. destruct (nd_conns n !! conn) as [c|] eqn:Ec; [|done]. destruct (cn_streams c !! i) as [info|] eqn:Ei; [|done].
  specialize (Hf info (cn_handler c)). destruct (f info (cn_handler c)) as [h fx]. destruct Hf as [Hh Hx].
  rewrite owed_logged, (owed_conn tx conn c) by done. rewrite held_by_conn. destruct c as [p h0 st]. rewrite held_by_conn. simpl in *.
  rewrite Hh, Hx, (delete_channels tx i info st) by done. lia.
Qed.

Lemma on_handler_owed tx conn f n : (∀ h, hd_commands (f h) = hd_commands h) → owed tx (on_handler conn f n) = owed tx n.
Proof.
  intros Hf. unfold on_handler. destruct (nd_conns n !! conn) as [c|] eqn:Ec; [|done]. rewrite (owed_conn tx conn c) by done.
  rewrite held_by_conn, Hf. destruct c as [p h st]. rewrite held_by_conn. simpl. lia.
Qed.

Lemma close_owed tx conn n : owed tx (close_connection conn n) = owed tx n.
Proof.
  unfold close_connection. destruct (nd_conns n !! conn) as [c|] eqn:Ec; [|done]. set (n1 := logged _ _).
  assert (H1 : owed tx n1 = owed tx n).
  { unfold n1. rewrite owed_logged, resolved_drops. unfold owed, node_held. simpl. rewrite (map_sumZ_delete _ (nd_conns n) conn c Ec).
    unfold held_by at 2. lia. }
  pose proof (on_closed_conserves tx (cn_peer c) (bool_decide (connections_of (cn_peer c) n1 = ∅)) (nd_behaviour n1)) as Hc.
  destruct (on_connection_closed _ _ _) as [b fx]. destruct Hc. by rewrite owed_behaviour.
Qed.

Lemma node_step_owed tx n e : owed tx (node_step n e) = owed tx n + requested_in tx e.
Proof.
  destruct e as [cmd|cmd| |peer_id o t|conn peer_id|conn|conn|conn now inbound sends|conn i now output|conn i error|conn t1 t2 order output|conn error|now];
    cbn [node_step requested_in]; rewrite ?Z.add_0_r.
  - apply send_owed.
  - case_decide; [|done]. unfold owed, node_held. simpl. rewrite bind_app, count_app. destruct cmd; simpl; rewrite ?count_nil; lia.
  - destruct (nd_commands n) as [|cmd rest] eqn:E; [done|]. pose proof (on_command_conserves tx cmd (nd_behaviour n)) as H.
    destruct (on_command cmd (nd_behaviour n)) as [b fx]. unfold owed, node_held. simpl. rewrite E, bind_cons, count_app, resolved_app. lia.
  - pose proof (on_command_conserves tx (CmdActivatePeer peer_id o t) (nd_behaviour n)) as H.
    destruct (on_command _ (nd_behaviour n)) as [b fx]. cbn [cmd_channel] in H. rewrite count_nil in H. unfold owed, node_held. simpl. rewrite resolved_app. lia.
  - destruct (nd_conns n !! conn) eqn:E; [done|]. unfold owed, node_held. simpl. rewrite map_sumZ_insert, held_by_conn by done. simpl. lia.
  - apply close_owed.
  - apply poll_behaviour_owed.
  - apply poll_handler_owed.
  - apply end_stream_owed. intros info h. apply outbound_conserves.
  - apply end_stream_owed. intros info h. apply dial_error_conserves.
  - apply on_handler_owed. intros h. apply inbound_commands.
  - apply on_handler_owed. intros h. apply listen_error_commands.
  - apply service_owed.
Qed.

End node.

(** ** The address maps *)

Inductive BhEvent := BhCommand (cmd : ClientCommand) | BhHandler (peer_id : Z) (event : HandlerEvent) | BhClosed (peer_id : Z) (last : bool) | BhPop.

Definition bh_step b (e : BhEvent) : ClientBehaviour :=
  match e with
  | BhCommand cmd => (on_command cmd b).1
  | BhHandler peer_id event => (on_handler_event peer_id event b).1
  | BhClosed peer_id last => (on_connection_closed peer_id last b).1
  | BhPop => with_bh_events (tail (bh_events b)) b
  end.

(** An activation gives a peer no second overlay and an overlay no second peer. *)
Definition exclusive b (e : BhEvent) : Prop :=
  match e with
  | BhCommand (CmdActivatePeer p o _) => from_option (λ q, q = p) True (bh_overlay_peers b !! o) ∧ from_option (λ q, q = o) True (bh_peer_overlays b !! p)
  | _ => True
  end.

Fixpoint all_exclusive b (es : list BhEvent) : Prop :=
  match es with [] => True | e :: es => exclusive b e ∧ all_exclusive (bh_step b e) es end.

Definition activates (o : Z) (e : BhEvent) : Prop := match e with BhCommand (CmdActivatePeer _ o' _) => o' = o | _ => False end.

Lemma push_maps e b : bh_overlay_peers (bh_push_event e b).1 = bh_overlay_peers b ∧ bh_peer_overlays (bh_push_event e b).1 = bh_peer_overlays b.
Proof. unfold bh_push_event. by case_decide. Qed.

Lemma bh_step_maps b e : match e with
  | BhCommand (CmdActivatePeer p o _) =>
      bh_overlay_peers (bh_step b e) = <[o := p]> (bh_overlay_peers b) ∧ bh_peer_overlays (bh_step b e) = <[p := o]> (bh_peer_overlays b)
  | BhClosed p true =>
      match bh_peer_overlays b !! p with
      | Some o => bh_overlay_peers (bh_step b e) = delete o (bh_overlay_peers b) ∧ bh_peer_overlays (bh_step b e) = delete p (bh_peer_overlays b)
      | None => bh_step b e = b
      end
  | _ => bh_overlay_peers (bh_step b e) = bh_overlay_peers b ∧ bh_peer_overlays (bh_step b e) = bh_peer_overlays b
  end.
Proof.
  destruct e as [cmd|p e|p [|]|]; simpl; try done.
  - destruct cmd; simpl; try apply push_maps; unfold route; destruct (bh_overlay_peers b !! peer); try done; apply push_maps.
  - destruct e; simpl; try done; apply push_maps.
  - by destruct (bh_peer_overlays b !! p).
Qed.

(** While no overlay is activated under two peers at once, nor a peer under
    two overlays, the behaviour's two address maps are inverse after any
    commands, events and disconnects, so a command to an overlay reaches the peer
    that was activated for it. *)
Theorem address_maps_inverse es pseudosettle swap : all_exclusive (behaviour_new pseudosettle swap) es →
  let b := foldl bh_step (behaviour_new pseudosettle swap) es in
  ∀ p o, bh_peer_overlays b !! p = Some o ↔ bh_overlay_peers b !! o = Some p.
Proof.
  assert (H : ∀ b, (∀ p o, bh_peer_overlays b !! p = Some o ↔ bh_overlay_peers b !! o = Some p) → all_exclusive b es →
    ∀ p o, bh_peer_overlays (foldl bh_step b es) !! p = Some o ↔ bh_overlay_peers (foldl bh_step b es) !! o = Some p).
  2:{ intros Hx. apply H; [|done]. intros p o. simpl. by rewrite !lookup_empty. }
  induction es as [|e es IH]; intros b Hb; simpl; [done|]. intros [Hx Hes]. apply IH; [|done]. clear IH Hes.
  pose proof (bh_step_maps b e) as Hm. destruct e as [cmd|p e|p [|]|]; try (destruct Hm as [-> ->]; exact Hb).
  - destruct cmd as [p o t| | | | | |]; try (destruct Hm as [-> ->]; exact Hb). destruct Hm as [-> ->]. simpl in Hx. destruct Hx as [H1 H2]. intros q x.
    destruct (decide (p = q)) as [<-|Hq], (decide (o = x)) as [<-|Ho]; rewrite ?lookup_insert_eq, ?lookup_insert_ne by done; try done.
    + split; [by intros [= ->]|]. intros Hx. apply Hb in Hx. rewrite Hx in H2. simpl in H2. done.
    + split; [|by intros [= ->]]. intros Hx. apply Hb in Hx. rewrite Hx in H1. simpl in H1. done.
  - destruct (bh_peer_overlays b !! p) as [o|] eqn:Ep; [|by rewrite Hm]. destruct Hm as [-> ->]. intros q x. rewrite !lookup_delete_Some, Hb.
    apply Hb in Ep. split; intros [Hn Hq]; (split; [|done]); intros ->; [congruence|].
    apply Hb in Hq. apply Hb in Ep. congruence.
Qed.

(** An overlay that reconnects under a new peer becomes unreachable.  If it
    is activated for a second peer while the first is still connected, as when a
    connection is replaced, the disconnect of the first removes the overlay: from
    then on, until it is activated again, every retrieval from it is refused as not
    connected, although the second peer is connected and mapped to it. *)
Theorem superseded_overlay_unreachable b p1 p2 o t1 t2 es : p1 ≠ p2 → Forall (λ e, ¬ activates o e) es →
  let b1 := foldl bh_step b [BhCommand (CmdActivatePeer p1 o t1); BhCommand (CmdActivatePeer p2 o t2); BhClosed p1 true] in
  bh_peer_overlays b1 !! p2 = Some o ∧
  ∀ address tx originated, let b2 := foldl bh_step b1 es in
    on_command (CmdRetrieveChunk o address tx originated) b2 = (b2, [NfHandler (FxReply tx (RetrievalReply (Err NotConnected)))]).
Proof.
  intros Hne Hes b1. set (x1 := bh_step b (BhCommand (CmdActivatePeer p1 o t1))). set (x2 := bh_step x1 (BhCommand (CmdActivatePeer p2 o t2))).
  destruct (bh_step_maps b (BhCommand (CmdActivatePeer p1 o t1))) as [H1 H2]. fold x1 in H1, H2.
  destruct (bh_step_maps x1 (BhCommand (CmdActivatePeer p2 o t2))) as [H3 H4]. fold x2 in H3, H4.
  pose proof (bh_step_maps x2 (BhClosed p1 true)) as H5. change (bh_step x2 (BhClosed p1 true)) with b1 in H5.
  rewrite H4, H2 in H5. rewrite lookup_insert_ne in H5 by done. rewrite lookup_insert_eq in H5. destruct H5 as [H5 H6].
  split; [rewrite H6, lookup_delete_ne by done; apply lookup_insert_eq|].
  intros address tx originated b2. assert (Hn : bh_overlay_peers b2 !! o = None).
  { assert (Hb : bh_overlay_peers b1 !! o = None) by (rewrite H5; apply lookup_delete_eq). clearbody b1. unfold b2. clear - Hb Hes.
    revert b1 Hb. induction Hes as [|e es He Hes IH]; intros b1 Hb; simpl; [done|]. apply IH. pose proof (bh_step_maps b1 e) as Hm.
    destruct e as [cmd|p e|p [|]|]; try (destruct Hm as [-> _]; exact Hb).
    - destruct cmd as [p o' t| | | | | |]; try (destruct Hm as [-> _]; exact Hb). destruct Hm as [-> _]. simpl in He. by rewrite lookup_insert_ne by congruence.
    - destruct (bh_peer_overlays b1 !! p); [destruct Hm as [-> _]; by apply lookup_delete_None; right|by rewrite Hm]. }
  cbn [on_command]. unfold route. by rewrite Hn.
Qed.

(** ** Settlement through the node *)

(** Inputs of the settlement service that leave a peer's pending entry alone. *)
Definition leaves_pending (peer : Z) (i : PsInput) : Prop :=
  match i with
  | InEvent _ _ _ _ (PsSent p _) | InEvent _ _ _ _ (PsFailed p) => p ≠ peer
  | _ => True
  end.

Lemma pending_stays {A} `{BandwidthLedger A} peer p l : ∀ st : PseudosettleService A * list PsEffect,
  sv_pending st.1 !! peer = Some p → Forall (leaves_pending peer) l → sv_pending (run ps_step st l).1 !! peer = Some p.
Proof.
  unfold run. induction l as [|i l IH]; intros [s fx] Hp Hl; simpl; [done|]. apply Forall_cons in Hl as [Hi Hl]. apply IH; [|done]. clear IH Hl.
  simpl in Hp. unfold ps_step. destruct i as [now link [q x tx]|t1 t2 t3 link ev|q x d]; simpl; [| |done].
  - destruct (decide (q = peer)) as [->|Hq]; [rewrite Hp; done|]. destruct (sv_pending s !! q) eqn:Eq; [done|].
    destruct (is_some_and _ _); [done|]. destruct link; simpl; [by rewrite lookup_insert_ne|].
    rewrite lookup_insert_eq. simpl. rewrite lookup_delete_ne, lookup_insert_ne by done. done.
  - destruct ev as [q ack|q amount id|q]; simpl.
    + unfold handle_sent. destruct (sv_pending s !! q); [|done]. simpl. by rewrite lookup_delete_ne.
    + unfold handle_received. destruct (is_some_and _ _); [done|]. by destruct (Au.is_positive _).
    + unfold handle_failed. destruct (sv_pending s !! q); [|done]. simpl. by rewrite lookup_delete_ne.
Qed.

(** A settlement to a peer that is no longer connected is lost.  When the
    settlement service has sent a settle for an overlay the behaviour does not
    know, the command is dropped without a failure event; so as long as none comes
    from a later disconnect, the service keeps the entry and answers every
    further settle to that peer as already in progress. *)
Theorem lost_settle_strands_peer {A} `{BandwidthLedger A} (s : PseudosettleService A) b now peer amount tx l :
  (ps_handle_command now true s (PsSettle peer amount tx)).2 = [FxSendPseudosettle peer (wire_from_au amount)] →
  bh_overlay_peers b !! peer = None → Forall (leaves_pending peer) l →
  on_command (bridge_command (BrSendPseudosettle peer (wire_from_au amount))) b = (b, []) ∧
  let s' := (ps_run (ps_handle_command now true s (PsSettle peer amount tx)).1 l).1 in
  ∀ now' link amount' tx', ps_handle_command now' link s' (PsSettle peer amount' tx') = (s', [FxRespond tx' (Err PsSettlementInProgress)]).
Proof.
  intros Hs Hb Hl. split; [simpl; unfold route; by rewrite Hb|]. intros s' now' link amount' tx'.
  assert (Hp : sv_pending s' !! peer = Some (mkPending amount tx)).
  { apply pending_stays; [|done]. unfold ps_handle_command in *. destruct (sv_pending s !! peer); [done|].
    destruct (is_some_and _ _); [done|]. simpl. apply lookup_insert_eq. }
  unfold ps_handle_command. by rewrite Hp.
Qed.

(** Both services answer a payment.  The behaviour hands each payment to the
    settlement service and to the client service, which acknowledges the whole
    amount at once; whichever ack reaches the handler first is the one sent. *)
Section two_acks.
Context (chunk_address : Z → Z) {Eth : Type}.
Context (zero_signature : Z) (recover_address : Z → Z → option Eth) (compute_overlay : Eth → Z → Z → Z).
Context (proximity : Z → Z → Z) (is_content : Z → bool).

Abbreviation nstep := (node_step handler_config_default chunk_address zero_signature recover_address compute_overlay proximity is_content).

(** A peer (10, overlay 7) that connects and is activated pays [amount]; the
    client service runs before the settlement service's ack arrives. *)
Definition payment_schedule (amount : Z) (responder : nat) (t1 t2 now : Z) (ack : PseudosettleAck) : list NodeEvent :=
  [NeEstablished 1 10; NePeerReady 10 7 Client; NePollBehaviour 1; NePollHandler 1 t1 [] []; NePollBehaviour 1; NeService now;
   NeInbound 1 t1 t2 [] (InPseudosettle amount responder); NePollHandler 1 t2 [] []; NePollBehaviour 1; NeService now;
   NeBridge (BrAckPseudosettle 7 0 ack); NeTakeCommand; NeTakeCommand; NePollBehaviour 1; NePollBehaviour 1; NePollHandler 1 t2 [] []].

Definition ack_of (fx : NodeFx) : option (nat * PaymentAck) := match fx with NfHandler (FxAck r ack) => Some (r, ack) | _ => None end.

(** An ack that is taken from the channel is queued for the payer's handler, and
    then delivered to it. *)
Lemma take_ack b conns evs svc log o p id x rest : bh_overlay_peers b !! o = Some p → Z.of_nat (length (bh_events b)) < bh_max_pending_events b →
  nstep (mkNode b conns (CmdAckPseudosettle o id x :: rest) evs svc log) NeTakeCommand =
    mkNode (bh_queue (NotifyHandler p (HcAckPseudosettle id (wire_ack x))) b) conns rest evs svc log.
Proof. intros Ho Hl. simpl. unfold route. rewrite Ho. unfold bh_push_event. rewrite decide_False by lia. unfold with_behaviour. simpl. by rewrite app_nil_r. Qed.

Lemma deliver_ack b conns cmds evs svc log conn h streams p cmd rest : bh_events b = NotifyHandler p cmd :: rest →
  conns !! conn = Some (mkConn p h streams) → Z.of_nat (length (hd_commands h)) < 256 →
  nstep (mkNode b conns cmds evs svc log) (NePollBehaviour conn) =
    mkNode (with_bh_events rest b) (<[conn := mkConn p (with_commands (hd_commands h ++ [cmd]) h) streams]> conns) cmds evs svc log.
Proof.
  intros Hb Hc Hl. cbn [node_step]. unfold poll_behaviour. cbn [nd_behaviour]. rewrite Hb.
  assert (Hf : connections_of p (mkNode b conns cmds evs svc log) !! conn = Some (mkConn p h streams)) by (by apply map_lookup_filter_Some).
  rewrite Hf. cbn [cn_handler]. unfold on_behaviour_event. rewrite decide_False by (simpl; lia). unfold logged, with_conns, with_behaviour. simpl. by rewrite !app_nil_r.
Qed.

(** Two acks for a stored payment, taken one after the other, reach the handler
    in that order, and only the first is sent. *)
Lemma first_ack_sent b conns evs svc log conn h streams p o id r t x y now :
  bh_overlay_peers b !! o = Some p → bh_events b = [] → bh_max_pending_events b = DEFAULT_MAX_PENDING_EVENTS →
  conns !! conn = Some (mkConn p h streams) → hd_events h = [] → hd_commands h = [] → hd_responses h !! id = Some (mkStored r t) → hd_sends h = [] →
  nd_log (foldl nstep (mkNode b conns [CmdAckPseudosettle o id x; CmdAckPseudosettle o id y] evs svc log)
    [NeTakeCommand; NeTakeCommand; NePollBehaviour conn; NePollBehaviour conn; NePollHandler conn now [] []]) = log ++ [NfHandler (FxAck r (wire_ack x))].
Proof.
  intros Ho Hb Hm Hc Hev Hcm Hr Hs. cbn [foldl]. rewrite (take_ack _ _ _ _ _ _ p) by (rewrite ?Hb, ?Hm; done).
  rewrite (take_ack _ _ _ _ _ _ p) by (simpl; rewrite ?Hb, ?Hm; done).
  rewrite (deliver_ack _ _ _ _ _ _ conn h streams p (HcAckPseudosettle id (wire_ack x)) [NotifyHandler p (HcAckPseudosettle id (wire_ack y))])
    by (simpl; rewrite ?Hb, ?Hcm; done).
  rewrite (deliver_ack _ _ _ _ _ _ conn (with_commands (hd_commands h ++ [HcAckPseudosettle id (wire_ack x)]) h) streams p (HcAckPseudosettle id (wire_ack y)) [])
    by (simpl; rewrite ?Hcm, ?lookup_insert_eq; done).
  cbn [node_step]. unfold poll_handler. cbn [nd_conns]. rewrite lookup_insert_eq. cbn [cn_handler]. unfold handler_poll, pop_event. simpl. rewrite Hev, Hcm. simpl.
  unfold pop_event. simpl. unfold ack_payment, take_response. simpl. rewrite Hr. simpl. rewrite Hs. simpl. by rewrite lookup_delete_eq.
Qed.

Lemma client_service_ack_first s amount responder t1 t2 now ack :
  let n := foldl nstep (node_new true true s) (payment_schedule amount responder t1 t2 now ack) in
  omap ack_of (nd_log n) = [(responder, wire_ack (mkAck (Au.saturating_from_u256 amount) now))] ∧
  NfPs (PsReceived 7 amount 0) ∈ nd_log n.
Proof.
  intros n. set (n9 := foldl nstep (node_new true true s) (take 9 (payment_schedule amount responder t1 t2 now ack))).
  assert (E1 : nd_events n9 = [CePseudosettleReceived 7 10 amount 0]) by (vm_compute; reflexivity).
  assert (E2 : nd_commands n9 = []) by (vm_compute; reflexivity).
  assert (E3 : bh_overlay_peers (nd_behaviour n9) !! 7 = Some 10) by (vm_compute; reflexivity).
  assert (E4 : bh_events (nd_behaviour n9) = []) by (vm_compute; reflexivity).
  assert (E5 : bh_max_pending_events (nd_behaviour n9) = DEFAULT_MAX_PENDING_EVENTS) by (vm_compute; reflexivity).
  assert (E6 : nd_log n9 = [NfPs (PsReceived 7 amount 0)]) by (vm_compute; reflexivity).
  assert (E7 : nd_conns n9 !! 1 = Some (mkConn 10 (mkHandler (Active 7) 1 [] [] false false [] {[0 := mkStored responder t2]} []) [])) by (vm_compute; reflexivity).
  set (x := mkAck (Au.saturating_from_u256 amount) now).
  assert (Hn : nd_log n = [NfPs (PsReceived 7 amount 0); NfService (SvCommand (CmdAckPseudosettle 7 0 x)); NfHandler (FxAck responder (wire_ack x))]).
  { assert (Hd : n = foldl nstep n9 (drop 9 (payment_schedule amount responder t1 t2 now ack))) by (unfold n, n9; by rewrite <-foldl_app, take_drop).
    rewrite Hd. clear Hd n. clearbody n9. change (drop 9 _) with ([NeService now; NeBridge (BrAckPseudosettle 7 0 ack)] ++
      [NeTakeCommand; NeTakeCommand; NePollBehaviour 1; NePollBehaviour 1; NePollHandler 1 t2 [] []]). rewrite foldl_app.
    destruct n9 as [b conns cmds evs svc log]. simpl in E1, E2, E3, E4, E5, E6, E7. subst.
    assert (Hs : foldl nstep (mkNode b conns [] [CePseudosettleReceived 7 10 amount 0] svc [NfPs (PsReceived 7 amount 0)]) [NeService now; NeBridge (BrAckPseudosettle 7 0 ack)] =
      mkNode b conns [CmdAckPseudosettle 7 0 x; CmdAckPseudosettle 7 0 ack] [] svc [NfPs (PsReceived 7 amount 0); NfService (SvCommand (CmdAckPseudosettle 7 0 x))]) by done.
    rewrite Hs. erewrite first_ack_sent; [done|done|done|done|exact E7|done|done|apply lookup_singleton_eq|done]. }
  rewrite Hn. split; [done|by left].
Qed.

(** Two services acknowledge one payment, and the books come apart.  A peer
    pays [D], all its debt, to a node whose settlement service may accept less; if
    the client service is the first to run, the one ack that is sent accepts the
    whole amount whatever the settlement service decided, and after the payer has
    handled it the two books differ by exactly what was not forgiven. *)
Theorem full_ack_splits_books {A B} `{BandwidthLedger A, BandwidthLedger B} s
    (d : PseudosettleService A) (c : PseudosettleService B) pc D tx t1 t2 t3 m1 m2 now now' responder ack :
  bw_ok (sv_accounting d) → bw_ok (sv_accounting c) → 0 < D <= i64_max → 0 <= sv_refresh_rate c <= i64_max → 0 <= t1 → 0 <= t2 <= i64_max →
  (∀ t, sv_last_settlement c !! 7 = Some t → 0 <= t) → (∀ t, sv_first_seen c !! 7 = Some t → 0 <= t) →
  bw_balance (sv_accounting d) pc = - D → bw_balance (sv_accounting c) 7 = D → sv_pending d !! pc = Some (mkPending D tx) →
  FxAckPseudosettle 7 0 ack ∈ (handle_received t1 t2 t3 true c 7 (wire_from_au D) 0).2 →
  let n := foldl nstep (node_new true true s) (payment_schedule (wire_from_au D) responder m1 m2 now ack) in
  let c' := (handle_received t1 t2 t3 true c 7 (wire_from_au D) 0).1 in
  ∃ sent, omap ack_of (nd_log n) = [(responder, sent)] ∧
    let d' := (handle_sent now' d pc (domain_ack sent)).1 in
    bw_balance (sv_accounting d') pc + bw_balance (sv_accounting c') 7 = D - ack_accepted ack ∧ 0 <= ack_accepted ack <= D.
Proof.
  intros Hd Hc HD Hrate Ht1 Ht2 Hls Hfs Ebd Ebc Hp Hack n c'. eexists. split; [apply client_service_ack_first|]. clear n. intros d'.
  assert (Hw : Au.saturating_from_u256 (wire_from_au D) = D) by (unfold wire_from_au; alia).
  assert (Hsent : domain_ack (wire_ack (mkAck (Au.saturating_from_u256 (wire_from_au D)) now)) = mkAck D now).
  { unfold domain_ack, wire_ack. simpl. f_equal. rewrite Hw. exact Hw. }
  unfold d'. rewrite Hsent. unfold handle_sent. rewrite Hp. simpl. rewrite bw_record_same by done. rewrite Ebd.
  unfold c'. clear c' d' Hsent. unfold handle_received in *. rewrite Hw in *. destruct (is_some_and _ _) eqn:Hg; simpl in *.
  { apply list_elem_of_singleton in Hack. injection Hack as ->. simpl. rewrite Ebc. unfold Au.min, Au.ZERO, record_delta. mlia. }
  set (seen := match sv_first_seen c !! 7 with Some _ => _ | None => _ end) in *. set (s1 := mkPs _ _ _ _ _ seen _) in *.
  destruct (calculate_acceptable_bounds t2 s1 7 D) as (Hx1&_&_); try done; [lia| |].
  { simpl. unfold seen. destruct (sv_first_seen c !! 7) eqn:E; [by rewrite E; eauto|]. rewrite lookup_insert_eq. intros ? [= <-]. done. }
  set (x := calculate_acceptable t2 s1 7 D) in *. clearbody x. unfold Au.is_positive in *. case_bool_decide as Hpos; simpl in *.
  - apply elem_of_cons in Hack as [Hack|Hack]; [done|]. apply list_elem_of_singleton in Hack. injection Hack as ->. simpl.
    rewrite bw_record_same by done. rewrite Ebc. unfold Au.min, record_delta, Au.saturating_neg. mlia.
  - apply list_elem_of_singleton in Hack. injection Hack as ->. simpl. rewrite Ebc. unfold Au.min, record_delta. mlia.
Qed.
End two_acks.

(** ** Instances *)

Module ClientDemo.

Lemma address_maps_inverse_witness :
  let es := [BhCommand (CmdActivatePeer 10 7 Client); BhCommand (CmdActivatePeer 11 8 Storer); BhClosed 10 true; BhCommand (CmdActivatePeer 12 7 Client)] in
  let b := foldl bh_step (behaviour_new true true) es in
  bh_peer_overlays b !! 12 = Some 7 ∧ bh_overlay_peers b !! 7 = Some 12.
Proof.
  intros es b. assert (Hx : all_exclusive (behaviour_new true true) es) by (vm_compute; tauto).
  assert (H : bh_peer_overlays b !! 12 = Some 7) by (vm_compute; reflexivity). split; [exact H|].
  by apply (address_maps_inverse es true true Hx).
Defined.

Lemma superseded_overlay_unreachable_witness :
  let b := foldl bh_step (behaviour_new true true) [BhCommand (CmdActivatePeer 10 7 Client); BhCommand (CmdActivatePeer 11 7 Client); BhClosed 10 true] in
  (on_command (CmdRetrieveChunk 7 99 0 true) (foldl bh_step b [BhPop; BhHandler 11 (HeActivated 7)])).2 = [NfHandler (FxReply 0 (RetrievalReply (Err NotConnected)))].
Proof.
  intros b. destruct (superseded_overlay_unreachable (behaviour_new true true) 10 11 7 Client Client [BhPop; BhHandler 11 (HeActivated 7)]) as [_ H].
  - lia.
  - repeat constructor; simpl; tauto.
  - unfold b. by rewrite (H 99 0%nat true).
Defined.

Lemma lost_settle_strands_peer_witness :
  let s := (ps_handle_command 102 true mirror_debtor (PsSettle 9 50 1)).1 in
  on_command (CmdSendPseudosettle 9 50) (behaviour_new true true) = (behaviour_new true true, []) ∧
  (ps_handle_command 900 true (ps_run s [InEvent 200 200 200 true (PsFailed 8)]).1 (PsSettle 9 60 2)).2 = [FxRespond 2 (Err PsSettlementInProgress)].
Proof.
  intros s. destruct (lost_settle_strands_peer mirror_debtor (behaviour_new true true) 102 9 50 1 [InEvent 200 200 200 true (PsFailed 8)]) as [H1 H2].
  - vm_compute. reflexivity.
  - vm_compute. reflexivity.
  - repeat constructor; simpl; lia.
  - split; [exact H1|]. unfold s. by rewrite (H2 900 true 60 2%nat).
Defined.

(** The creditor accepts 300 of the 500 paid; the ack says 500. *)
Lemma full_ack_splits_books_witness :
  let c' := (handle_received 103 103 103 true mirror_creditor 7 500 0).1 in
  ∃ sent, pa_amount sent = 500 ∧
    bw_balance (sv_accounting (handle_sent 104 mirror_debtor 8 (domain_ack sent)).1) 8 + bw_balance (sv_accounting c') 7 = 200.
Proof.
  intros c'. destruct (full_ack_splits_books (Eth:=Z) (λ x : Z, x) 0 (λ _ _, None) (λ e _ _, e) ForwardDemo.proximity (λ _, true)
    (mkService true true None None) mirror_debtor mirror_creditor 8 500 0 103 103 103 1 2 103 104 99 (mkAck 300 103)) as (sent&Hs&Hb&_).
  - apply acc_wf_record, acc_wf_new.
  - apply acc_wf_record, acc_wf_new.
  - mlia.
  - vm_compute. split; congruence.
  - lia.
  - mlia.
  - intros t Ht. vm_compute in Ht. congruence.
  - intros t Ht. vm_compute in Ht. injection Ht as <-. lia.
  - vm_compute. reflexivity.
  - vm_compute. reflexivity.
  - vm_compute. reflexivity.
  - vm_compute. right. left.
  - exists sent. split; [|exact Hb]. rewrite (proj1 (client_service_ack_first _ _ _ _ _ _ _ _ _ _ _ _ _)) in Hs. injection Hs as <-. vm_compute. reflexivity.
Defined.

End ClientDemo.
