(* ===== verification/Stream.v ===== *)
(** * Streaming get and put pipelines

    Models [crates/swarm/stream/src/lib.rs]: the pipeline depth, address parsing,
    verified retrieval, and the three streams [GetStream], [GetStreamFrom] and
    [PutStream].

    A future in the in-flight set is what it was started with; which of them completes
    at a poll, and with what answer of the provider or the sender, is an input.
    A wire source is the script of what its polls will answer. *)

From S2P Require Import Prelude.
From S2P Require Import Bytes.
From S2P Require Import Postage.

(** ** Configuration *)

Definition PER_PEER_INFLIGHT_CAP : Z := 4.
Definition MIN_DOWNLOAD_CONCURRENCY : Z := PER_PEER_INFLIGHT_CAP.
Definition MAX_DOWNLOAD_CONCURRENCY : Z := 1024.

Record StreamConfig := mkStreamConfig { max_concurrency : Z }.

Definition stream_config_new (n : Z) : StreamConfig := mkStreamConfig (Z.max n 1).

Definition peer_bounded (connected_peers : Z) : StreamConfig :=
  let derived := u64_saturating_mul connected_peers PER_PEER_INFLIGHT_CAP in
  stream_config_new (Z.max MIN_DOWNLOAD_CONCURRENCY (Z.min MAX_DOWNLOAD_CONCURRENCY derived)).

Record ParseAddressError := mkParseError { pe_got : nat }.

Definition parse_address (bytes : list Z) : result ParseAddressError ChunkAddress :=
  if decide (length bytes = 32%nat) then Ok (of_be bytes) else Err (mkParseError (length bytes)).

(** ** Polls *)

(** What polling a non-empty in-flight set gives: the [i]-th future with an answer, or nothing yet. *)
Inductive FuPoll (R : Type) :=
| FuReady (i : nat) (r : R)
| FuPending.
Arguments FuReady {R} i r.
Arguments FuPending {R}.

(** The result of [poll_next]; [Pending] says whether the task woke itself. *)
Inductive StreamPoll (I : Type) :=
| PollItem (i : I)
| PollDone
| PollPending (woken : bool).
Arguments PollItem {I} i.
Arguments PollDone {I}.
Arguments PollPending {I} woken.

(** [FuturesUnordered::poll_next_unpin]: [None] when the set is empty, a pending
    set keeps its futures. *)
Definition fu_poll {F R : Type} (fs : list F) (p : FuPoll R) : option (option (F * R)) * list F :=
  match fs with
  | [] => (Some None, [])
  | _ =>
      match p with
      | FuReady i r =>
          match fs !! i with
          | Some f => (Some (Some (f, r)), delete i fs)
          | None => (None, fs)
          end
      | FuPending => (None, fs)
      end
  end.

Section streams.
Context {AnyChunk StampedChunk : Type} (chunk_address : AnyChunk → ChunkAddress)
  (stamped_address : StampedChunk → ChunkAddress).

Inductive SwarmError :=
| InvalidChunk (address : option ChunkAddress)
| OtherError (reason : string).

Record ChunkRetrievalResult := mkRetrieval {
  rr_chunk : AnyChunk;
  rr_stamp : option Stamp;
  rr_served_by : Z;
}.

Record VerifiedChunk := mkVerified {
  vc_chunk : AnyChunk;
  vc_stamp : option Stamp;
  vc_served_by : Z;
}.

(** [answer] is what [retrieve_chunk] resolved to. *)
Definition retrieve_verified (address : ChunkAddress) (answer : result SwarmError ChunkRetrievalResult) :
    result SwarmError VerifiedChunk :=
  res ← answer;
  if decide (chunk_address (rr_chunk res) ≠ address) then Err (InvalidChunk (Some address))
  else Ok (mkVerified (rr_chunk res) (rr_stamp res) (rr_served_by res)).

Abbreviation GetAnswer := (result SwarmError ChunkRetrievalResult).
Abbreviation GetItem := (ChunkAddress * result SwarmError VerifiedChunk)%type.

(** ** [GetStream] *)

Record GetStream := mkGet {
  gs_pending : list ChunkAddress;
  gs_in_flight : list ChunkAddress;
  gs_limit : Z;
}.

Definition get_stream (addresses : list ChunkAddress) (config : StreamConfig) : GetStream :=
  mkGet addresses [] (Z.max (max_concurrency config) 1).

Fixpoint get_refill (pending in_flight : list ChunkAddress) (limit : Z) : list ChunkAddress * list ChunkAddress :=
  if decide (Z.of_nat (length in_flight) < limit) then
    match pending with
    | [] => ([], in_flight)
    | address :: pending => get_refill pending (in_flight ++ [address]) limit
    end
  else (pending, in_flight).

Definition get_poll (s : GetStream) (p : FuPoll GetAnswer) : StreamPoll GetItem * GetStream :=
  let '(pending, in_flight) := get_refill (gs_pending s) (gs_in_flight s) (gs_limit s) in
  match fu_poll in_flight p with
  | (Some (Some (address, answer)), in_flight) =>
      let '(pending, in_flight) := get_refill pending in_flight (gs_limit s) in
      (PollItem (address, retrieve_verified address answer), mkGet pending in_flight (gs_limit s))
  | (Some None, in_flight) =>
      if decide (pending = []) then (PollDone, mkGet pending in_flight (gs_limit s))
      else (PollPending true, mkGet pending in_flight (gs_limit s))
  | (None, in_flight) => (PollPending false, mkGet pending in_flight (gs_limit s))
  end.

Definition get_size_hint (s : GetStream) : nat * option nat :=
  let remaining := (length (gs_pending s) + length (gs_in_flight s))%nat in (remaining, Some remaining).

(** ** [GetStreamFrom] *)

Inductive SourcePoll :=
| SourceReady (address : ChunkAddress)
| SourceEnd
| SourcePending.

Record GetStreamFrom := mkGetFrom {
  gf_source : option (list SourcePoll);
  gf_in_flight : list ChunkAddress;
  gf_limit : Z;
}.

Definition get_stream_from (addresses : list SourcePoll) (config : StreamConfig) : GetStreamFrom :=
  mkGetFrom (Some addresses) [] (Z.max (max_concurrency config) 1).

(** The admission loop over the answers of the source: the source left, the
    in-flight set, and whether the source parked.  A script that ends parks. *)
Fixpoint source_loop (script : list SourcePoll) (in_flight : list ChunkAddress) (limit : Z) :
    option (list SourcePoll) * list ChunkAddress * bool :=
  if decide (Z.of_nat (length in_flight) < limit) then
    match script with
    | [] => (Some [], in_flight, true)
    | SourceReady address :: script => source_loop script (in_flight ++ [address]) limit
    | SourceEnd :: _ => (None, in_flight, false)
    | SourcePending :: script => (Some script, in_flight, true)
    end
  else (Some script, in_flight, false).

Definition get_from_poll (s : GetStreamFrom) (p : FuPoll GetAnswer) : StreamPoll GetItem * GetStreamFrom :=
  let '(source, in_flight, source_pending) :=
    match gf_source s with
    | Some script => source_loop script (gf_in_flight s) (gf_limit s)
    | None => (None, gf_in_flight s, false)
    end in
  match fu_poll in_flight p with
  | (Some (Some (address, answer)), in_flight) =>
      (PollItem (address, retrieve_verified address answer), mkGetFrom source in_flight (gf_limit s))
  | (Some None, in_flight) =>
      match source with
      | None => (PollDone, mkGetFrom source in_flight (gf_limit s))
      | Some _ => (PollPending (negb source_pending), mkGetFrom source in_flight (gf_limit s))
      end
  | (None, in_flight) => (PollPending false, mkGetFrom source in_flight (gf_limit s))
  end.

(** ** [PutStream] *)

Context {PushReceipt : Type}.
Abbreviation Feed := (ChunkAddress * result SwarmError StampedChunk)%type.
Abbreviation PutAnswer := (result SwarmError PushReceipt).
Abbreviation PutItem := (ChunkAddress * result SwarmError PushReceipt)%type.

(** A feed error is a ready future, a chunk a push. *)
Inductive PutFuture :=
| FeedFailed (address : ChunkAddress) (error : SwarmError)
| PushChunk (address : ChunkAddress) (chunk : StampedChunk).

Record PutStream := mkPut {
  pt_pending : list Feed;
  pt_in_flight : list PutFuture;
  pt_limit : Z;
}.

Definition try_put_stream (chunks : list Feed) (config : StreamConfig) : PutStream :=
  mkPut chunks [] (Z.max (max_concurrency config) 1).

Definition put_stream (chunks : list StampedChunk) (config : StreamConfig) : PutStream :=
  try_put_stream ((λ c, (stamped_address c, Ok c)) <$> chunks) config.

Definition put_future (f : Feed) : PutFuture :=
  match f with
  | (address, Err error) => FeedFailed address error
  | (address, Ok chunk) => PushChunk address chunk
  end.

(** [push_chunk] with the sender's answer; a failed feed sends nothing. *)
Definition put_resolve (f : PutFuture) (answer : PutAnswer) : PutItem :=
  match f with
  | FeedFailed address error => (address, Err error)
  | PushChunk address _ => (address, answer)
  end.

Fixpoint put_refill (pending : list Feed) (in_flight : list PutFuture) (limit : Z) :
    list Feed * list PutFuture :=
  if decide (Z.of_nat (length in_flight) < limit) then
    match pending with
    | [] => ([], in_flight)
    | f :: pending => put_refill pending (in_flight ++ [put_future f]) limit
    end
  else (pending, in_flight).

Definition put_poll (s : PutStream) (p : FuPoll PutAnswer) : StreamPoll PutItem * PutStream :=
  let '(pending, in_flight) := put_refill (pt_pending s) (pt_in_flight s) (pt_limit s) in
  match fu_poll in_flight p with
  | (Some (Some (f, answer)), in_flight) =>
      let '(pending, in_flight) := put_refill pending in_flight (pt_limit s) in
      (PollItem (put_resolve f answer), mkPut pending in_flight (pt_limit s))
  | (Some None, in_flight) =>
      match pending with
      | [] => (PollDone, mkPut pending in_flight (pt_limit s))
      | _ => (PollPending true, mkPut pending in_flight (pt_limit s))
      end
  | (None, in_flight) => (PollPending false, mkPut pending in_flight (pt_limit s))
  end.
End streams.

(** ** Driving a stream

    The consumer polls; the items it gets, in order, and the stream left. *)
Fixpoint drive {S P I} (poll : S → P → StreamPoll I * S) (s : S) (ps : list P) : list I * S :=
  match ps with
  | [] => ([], s)
  | p :: ps =>
      let '(o, s) := poll s p in
      let '(items, s) := drive poll s ps in
      (match o with PollItem i => i :: items | _ => items end, s)
  end.

Definition out_items {I} (o : StreamPoll I) : list I := match o with PollItem i => [i] | _ => [] end.

(** An invariant that relates the items so far to the state carries along. *)
Lemma drive_invariant {S P I} (poll : S → P → StreamPoll I * S) (Inv : list I → S → Prop) :
  (∀ items s p, Inv items s → Inv (items ++ out_items (poll s p).1) (poll s p).2) →
  ∀ ps items s, Inv items s → Inv (items ++ (drive poll s ps).1) (drive poll s ps).2.
Proof.
  intros Hstep. induction ps as [|p ps IH]; intros items s Hs; simpl; [by rewrite app_nil_r|].
  specialize (Hstep items s p Hs). destruct (poll s p) as [o s'] eqn:E. simpl in Hstep.
  specialize (IH _ _ Hstep). destruct (drive poll s' ps) as [rest s'']. simpl in *.
  rewrite <-app_assoc in IH. by destruct o.
Qed.

Lemma fu_poll_item {F R} (fs : list F) (p : FuPoll R) f r fs' :
  fu_poll fs p = (Some (Some (f, r)), fs') → fs ≡ₚ f :: fs'.
Proof.
  destruct fs as [|g fs]; [done|]. unfold fu_poll. destruct p as [i r'|]; [|done].
  destruct ((g :: fs) !! i) as [f'|] eqn:E; [|done]. intros [= -> -> <-]. by apply delete_Permutation.
Qed.

Lemma fu_poll_none {F R} (fs : list F) (p : FuPoll R) fs' :
  fu_poll fs p = (Some None, fs') → fs = [] ∧ fs' = [].
Proof. destruct fs, p; simpl; repeat case_match; naive_solver. Qed.

Lemma fu_poll_pending {F R} (fs : list F) (p : FuPoll R) fs' :
  fu_poll fs p = (None, fs') → fs' = fs ∧ fs ≠ [].
Proof. destruct fs, p; simpl; repeat case_match; naive_solver. Qed.

(** The window after a refill: the next inputs move in, in order. *)
Definition room (n : nat) (limit : Z) : nat := Z.to_nat (limit - Z.of_nat n).

Lemma get_refill_spec pending fl limit :
  get_refill pending fl limit =
  (drop (room (length fl) limit) pending, fl ++ take (room (length fl) limit) pending).
Proof.
  unfold room. revert fl. induction pending as [|a pending IH]; intros fl; simpl.
  { by case_decide; rewrite drop_nil, take_nil, app_nil_r. }
  case_decide; [|by replace (Z.to_nat _) with 0%nat by lia; rewrite app_nil_r].
  rewrite IH, length_app. cbn [length].
  replace (Z.to_nat (limit - Z.of_nat (length fl))) with (S (Z.to_nat (limit - Z.of_nat (length fl + 1)))) by lia.
  simpl. by rewrite <-app_assoc.
Qed.

Lemma put_refill_spec {StampedChunk} (pending : list (ChunkAddress * result SwarmError StampedChunk)) fl limit :
  put_refill pending fl limit =
  (drop (room (length fl) limit) pending, fl ++ (put_future <$> take (room (length fl) limit) pending)).
Proof.
  unfold room. revert fl. induction pending as [|a pending IH]; intros fl; simpl.
  { by case_decide; rewrite drop_nil, take_nil, app_nil_r. }
  case_decide; [|by replace (Z.to_nat _) with 0%nat by lia; rewrite app_nil_r].
  rewrite IH, length_app. cbn [length].
  replace (Z.to_nat (limit - Z.of_nat (length fl))) with (S (Z.to_nat (limit - Z.of_nat (length fl + 1)))) by lia.
  simpl. by rewrite <-app_assoc.
Qed.

(** What was admitted is a prefix of the inputs; all but the window has been yielded. *)
Definition window {A F} (start : A → F) (inputs : list A) (resolved : list F) (fl : list F) (pending : list A)
    (limit : Z) : Prop :=
  ∃ k, pending = drop k inputs ∧ resolved ++ fl ≡ₚ start <$> take k inputs ∧ Z.of_nat (length fl) <= limit.

Section window.
Context {A F : Type} (start : A → F).
Implicit Types (inputs pending : list A) (fl done : list F) (limit : Z).

Lemma window_refill inputs resolved fl pending limit :
  window start inputs resolved fl pending limit →
  window start inputs resolved (fl ++ (start <$> take (room (length fl) limit) pending))
    (drop (room (length fl) limit) pending) limit.
Proof.
  intros (k & -> & Hp & Hl). set (n := room (length fl) limit). exists (k + n)%nat. split_and!.
  - by rewrite drop_drop.
  - rewrite app_assoc, Hp, <-fmap_app. f_equiv. by rewrite take_take_drop.
  - rewrite length_app, length_fmap, length_take. unfold n, room. lia.
Qed.

Lemma window_resolve inputs resolved fl pending limit f fl' :
  fl ≡ₚ f :: fl' → window start inputs resolved fl pending limit →
  window start inputs (resolved ++ [f]) fl' pending limit.
Proof.
  intros Hf (k & ? & Hp & Hl). exists k. split_and!; [done| |rewrite Hf in Hl; simpl in Hl; lia].
  by rewrite <-Hp, Hf, <-app_assoc.
Qed.

(** An empty window with room means that the inputs ran out. *)
Lemma window_empty inputs resolved fl pending limit :
  0 < limit → window start inputs resolved fl pending limit →
  fl ++ (start <$> take (room (length fl) limit) pending) = [] → pending = [] ∧ fl = [].
Proof.
  intros Hl _ [-> Hn]%app_eq_nil. split; [|done]. apply fmap_nil_inv in Hn.
  unfold room in Hn. simpl in Hn. destruct pending; [done|].
  replace (Z.to_nat (limit - Z.of_nat 0)) with (S (Z.to_nat (limit - 1))) in Hn by lia. by simpl in Hn.
Qed.
End window.

(** ** The streams keep the window *)

Section invariants.
Context {AnyChunk StampedChunk PushReceipt : Type} (chunk_address : AnyChunk → ChunkAddress).

Abbreviation GetAns := (result SwarmError (@ChunkRetrievalResult AnyChunk)).
Abbreviation GetIt := (ChunkAddress * result SwarmError (@VerifiedChunk AnyChunk))%type.
Abbreviation gpoll := (get_poll chunk_address).

(** A chunk handed out answers the address asked for. *)
Definition item_verified (i : GetIt) : Prop := ∀ v, i.2 = Ok v → chunk_address (vc_chunk v) = i.1.

Lemma retrieve_verified_ok address (answer : GetAns) :
  item_verified (address, retrieve_verified chunk_address address answer).
Proof.
  intros v. unfold retrieve_verified. destruct answer as [r|e]; simpl; [|done].
  case_decide as Hd; [done|]. intros [= <-]. simpl. by destruct (decide (chunk_address (rr_chunk r) = address)).
Qed.

Definition get_inv (inputs : list ChunkAddress) (limit : Z) (items : list GetIt) (s : GetStream) : Prop :=
  gs_limit s = limit ∧ Forall item_verified items ∧
  window id inputs items.*1 (gs_in_flight s) (gs_pending s) limit.

Lemma get_poll_inv inputs limit items s (p : FuPoll GetAns) :
  get_inv inputs limit items s → get_inv inputs limit (items ++ out_items (gpoll s p).1) (gpoll s p).2.
Proof.
  intros (<- & Hv & Hw). unfold get_poll. rewrite get_refill_spec.
  apply window_refill in Hw. rewrite list_fmap_id in Hw.
  set (pending := drop _ _) in *. set (fl := _ ++ take _ _) in *.
  destruct (fu_poll fl p) as [[[[a r]|]|] fl'] eqn:E; simpl.
  - apply fu_poll_item in E. rewrite get_refill_spec. simpl. split; [done|].
    split; [apply Forall_app; split; [done|apply Forall_singleton, retrieve_verified_ok]|].
    rewrite fmap_app. simpl. apply (window_resolve _ _ _ _ _ _ a fl') in Hw; [|done].
    apply window_refill in Hw. by rewrite list_fmap_id in Hw.
  - apply fu_poll_none in E as [Ef ->]. rewrite Ef in Hw.
    case_decide; simpl; rewrite app_nil_r; by split_and!.
  - apply fu_poll_pending in E as [-> _]. simpl. rewrite app_nil_r. by split_and!.
Qed.

(** How a poll that yields nothing leaves the stream. *)
Lemma get_poll_idle inputs limit items s (p : FuPoll GetAns) :
  0 < limit → get_inv inputs limit items s →
  match gpoll s p with
  | (PollItem _, _) => True
  | (PollDone, s') => gs_pending s' = [] ∧ gs_in_flight s' = []
  | (PollPending woken, s') => woken = false ∧ gs_in_flight s' ≠ []
  end.
Proof.
  intros Hl (<- & Hv & Hw). unfold get_poll. rewrite get_refill_spec.
  destruct (fu_poll _ p) as [[[[a r]|]|] fl'] eqn:E; simpl.
  - by rewrite get_refill_spec.
  - apply fu_poll_none in E as [Ef ->].
    destruct (window_empty id inputs items.*1 (gs_in_flight s) (gs_pending s) (gs_limit s)) as [-> _];
      [done|done|by rewrite list_fmap_id|]. by rewrite drop_nil, decide_True.
  - by apply fu_poll_pending in E as [-> ?].
Qed.

(** A completed retrieval is yielded while addresses are left. *)
Lemma get_poll_ready inputs limit items s (answer : GetAns) :
  0 < limit → get_inv inputs limit items s → (length items < length inputs)%nat →
  ∃ i s', gpoll s (FuReady 0 answer) = (PollItem i, s').
Proof.
  intros Hl Hi Hlt. pose proof Hi as (<- & _ & Hw). pose proof (window_refill _ _ _ _ _ _ Hw) as (k & Hp & Hq & _).
  rewrite !list_fmap_id in Hq. unfold get_poll. rewrite get_refill_spec.
  destruct (gs_in_flight s ++ take _ _) as [|f fl] eqn:Ef; simpl; [|rewrite get_refill_spec; by eauto].
  destruct (window_empty id inputs items.*1 (gs_in_flight s) (gs_pending s) (gs_limit s)) as [He _];
    [done|done|by rewrite list_fmap_id|].
  rewrite He, drop_nil in Hp. symmetry in Hp. rewrite app_nil_r in Hq.
  apply (f_equal length) in Hp. apply Permutation_length in Hq.
  rewrite length_drop in Hp. rewrite length_fmap, length_take in Hq. simpl in Hp. lia.
Qed.

Abbreviation Fd := (ChunkAddress * result SwarmError StampedChunk)%type.
Abbreviation PutIt := (ChunkAddress * result SwarmError PushReceipt)%type.

(** Every item is a feed's own error or the answer to its push. *)
Definition put_inv (feed : list Fd) (limit : Z) (items : list PutIt) (s : PutStream) : Prop :=
  pt_limit s = limit ∧ ∃ fs answers, items = zip_with put_resolve fs answers ∧ length fs = length answers ∧
  window put_future feed fs (pt_in_flight s) (pt_pending s) limit.

Lemma put_poll_inv feed limit items s p :
  put_inv feed limit items s → put_inv feed limit (items ++ out_items (put_poll s p).1) (put_poll s p).2.
Proof.
  intros (<- & fs & ans & -> & Hlen & Hw). unfold put_poll. rewrite put_refill_spec.
  apply window_refill in Hw. set (pending := drop _ _) in *. set (fl := _ ++ (_ <$> _)) in *.
  destruct (fu_poll fl p) as [[[[f r]|]|] fl'] eqn:E; simpl.
  - apply fu_poll_item in E. rewrite put_refill_spec. simpl. split; [done|].
    exists (fs ++ [f]), (ans ++ [r]). split_and!; [by rewrite zip_with_app|by rewrite !length_app, Hlen|].
    apply (window_resolve _ _ _ _ _ _ f fl') in Hw; [|done]. by apply window_refill in Hw.
  - apply fu_poll_none in E as [Ef ->]. rewrite Ef in Hw.
    destruct pending; simpl; rewrite app_nil_r; (split; [done|]); exists fs, ans; by split_and!.
  - apply fu_poll_pending in E as [-> _]. simpl. rewrite app_nil_r. split; [done|]. exists fs, ans. by split_and!.
Qed.

Lemma put_poll_idle feed limit items (s : PutStream) (p : FuPoll (result SwarmError PushReceipt)) :
  0 < limit → put_inv feed limit items s →
  match put_poll s p with
  | (PollItem _, _) => True
  | (PollDone, s') => pt_pending s' = [] ∧ pt_in_flight s' = []
  | (PollPending woken, s') => woken = false ∧ pt_in_flight s' ≠ []
  end.
Proof.
  intros Hl (<- & fs & ans & _ & _ & Hw). unfold put_poll. rewrite put_refill_spec.
  destruct (fu_poll _ p) as [[[[a r]|]|] fl'] eqn:E; simpl.
  - by rewrite put_refill_spec.
  - apply fu_poll_none in E as [Ef ->].
    destruct (window_empty put_future feed fs (pt_in_flight s) (pt_pending s) (pt_limit s)) as [-> _];
      [done|done|done|]. by rewrite drop_nil.
  - by apply fu_poll_pending in E as [-> ?].
Qed.

(** *** The wire source *)

Definition ready_addresses (script : list SourcePoll) : list ChunkAddress :=
  omap (λ a, match a with SourceReady x => Some x | _ => None end) script.

(** What has been consumed of the script, and whether it has ended. *)
Definition from_inv (script : list SourcePoll) (limit : Z) (items : list GetIt) (s : GetStreamFrom) : Prop :=
  gf_limit s = limit ∧ Forall item_verified items ∧ Z.of_nat (length (gf_in_flight s)) <= limit ∧
  ∃ consumed, items.*1 ++ gf_in_flight s ≡ₚ ready_addresses consumed ∧
    match gf_source s with
    | Some rest => script = consumed ++ rest
    | None => ∃ rest, script = consumed ++ SourceEnd :: rest
    end.

Lemma source_loop_spec script fl limit :
  Z.of_nat (length fl) <= limit →
  let '(source, fl', parked) := source_loop script fl limit in
  Z.of_nat (length fl') <= limit ∧
  (fl' = [] → 0 < limit → source = None ∨ parked = true) ∧
  ∃ consumed, fl' = fl ++ ready_addresses consumed ∧
    match source with
    | Some rest => script = consumed ++ rest
    | None => ∃ rest, script = consumed ++ SourceEnd :: rest
    end.
Proof.
  revert fl. induction script as [|a script IH]; intros fl Hl; simpl.
  { case_decide; (split; [done|]; split; [|exists []; by rewrite app_nil_r]); [by right|].
    intros ->. simpl in *. lia. }
  case_decide as Hd; [|split; [done|]; split; [intros ->; simpl in *; lia|]; exists []; by rewrite app_nil_r].
  destruct a as [a| |].
  - specialize (IH (fl ++ [a])). rewrite length_app in IH. simpl in IH.
    destruct (source_loop script (fl ++ [a]) limit) as [[source fl'] parked].
    destruct IH as (? & ? & consumed & -> & Hc); [lia|]. split; [done|]. split; [done|].
    exists (SourceReady a :: consumed). split; [by rewrite <-app_assoc|].
    destruct source; [by rewrite Hc|]. destruct Hc as [rest ->]. by exists rest.
  - split; [done|]. split; [by left|]. exists []. split; [by rewrite app_nil_r|]. by exists script.
  - split; [done|]. split; [by right|]. exists [SourcePending]. split; [by rewrite app_nil_r|done].
Qed.

(** The state after the admission loop, and whether the source parked. *)
Definition from_admitted (s : GetStreamFrom) : option (list SourcePoll) * list ChunkAddress * bool :=
  match gf_source s with
  | Some script => source_loop script (gf_in_flight s) (gf_limit s)
  | None => (None, gf_in_flight s, false)
  end.

Lemma from_admitted_inv script limit items s :
  from_inv script limit items s →
  let '(source, fl, parked) := from_admitted s in
  from_inv script limit items (mkGetFrom source fl (gf_limit s)) ∧
  (fl = [] → 0 < limit → source = None ∨ parked = true).
Proof.
  intros (<- & Hv & Hl & consumed & Hp & Hs). unfold from_admitted.
  destruct (gf_source s) as [rest|].
  - pose proof (source_loop_spec rest (gf_in_flight s) (gf_limit s) Hl) as Hx.
    destruct (source_loop rest _ _) as [[source fl] parked]. destruct Hx as (Hl' & He & more & -> & Hm).
    split; [|done]. split_and!; [done..|]. exists (consumed ++ more). split.
    { unfold ready_addresses in *. simpl. by rewrite omap_app, app_assoc, Hp. }
    simpl. destruct source as [rest'|]; [by rewrite Hs, Hm, app_assoc|].
    destruct Hm as [rest' ->]. exists rest'. by rewrite Hs, app_assoc.
  - split; [|by left]. split_and!; [done..|]. by exists consumed.
Qed.

Abbreviation fpoll := (get_from_poll chunk_address).

Lemma from_poll_inv script limit items s (p : FuPoll GetAns) :
  from_inv script limit items s → from_inv script limit (items ++ out_items (fpoll s p).1) (fpoll s p).2.
Proof.
  intros Hi%from_admitted_inv. unfold get_from_poll. fold (from_admitted s).
  destruct (from_admitted s) as [[source fl] parked]. destruct Hi as [(Hl & Hv & Hb & consumed & Hp & Hs) _].
  simpl in *. destruct (fu_poll fl p) as [[[[a r]|]|] fl'] eqn:E; simpl.
  - apply fu_poll_item in E. split; [done|].
    split; [apply Forall_app; split; [done|apply Forall_singleton, retrieve_verified_ok]|].
    split; [rewrite E in Hb; simpl in *; lia|]. exists consumed. split; [|done].
    by rewrite fmap_app, <-Hp, E, <-app_assoc.
  - apply fu_poll_none in E as [-> ->].
    destruct source; simpl; rewrite app_nil_r; (split_and!; [done..|]); by exists consumed.
  - apply fu_poll_pending in E as [-> _]. simpl. rewrite app_nil_r. split_and!; [done..|]. by exists consumed.
Qed.

Lemma from_poll_idle script limit items s (p : FuPoll GetAns) :
  0 < limit → from_inv script limit items s →
  match fpoll s p with
  | (PollItem _, _) => True
  | (PollDone, s') => gf_source s' = None ∧ gf_in_flight s' = []
  | (PollPending woken, s') => woken = false ∧ (gf_in_flight s' ≠ [] ∨ (from_admitted s).2 = true)
  end.
Proof.
  intros Hl Hi%from_admitted_inv. unfold get_from_poll. fold (from_admitted s).
  destruct (from_admitted s) as [[source fl] parked]. destruct Hi as [_ He].
  destruct (fu_poll fl p) as [[[[a r]|]|] fl'] eqn:E; simpl; [done| |].
  - apply fu_poll_none in E as [-> ->]. destruct (He eq_refl Hl) as [-> | ->]; [done|].
    destruct source; simpl; [by split; [|right]|done].
  - apply fu_poll_pending in E as [-> ?]. by split; [|left].
Qed.
End invariants.

(** ** Properties *)

Section properties.
Context {AnyChunk StampedChunk PushReceipt : Type} (chunk_address : AnyChunk → ChunkAddress).

Abbreviation GetAns := (result SwarmError (@ChunkRetrievalResult AnyChunk)).

(** C32: A download yields each address once, within its window.  Whatever order
    retrievals complete in and whatever providers answer, the addresses yielded and
    in flight are the first [k] of the list with the rest waiting, at most
    [max_concurrency] are in flight, every chunk yielded answers its address, the
    stream ends exactly when all have been yielded, never parks without a retrieval in
    flight that will wake it, and a completed retrieval is yielded at the next poll. *)
Theorem get_stream_exact (addresses : list ChunkAddress) (config : StreamConfig) (ps : list (FuPoll GetAns)) :
  let '(items, s) := drive (get_poll chunk_address) (get_stream addresses config) ps in
  (∃ k, gs_pending s = drop k addresses ∧ items.*1 ++ gs_in_flight s ≡ₚ take k addresses ∧
    Z.of_nat k <= Z.of_nat (length items) + Z.max 1 (max_concurrency config)) ∧
  Z.of_nat (length (gs_in_flight s)) <= Z.max 1 (max_concurrency config) ∧
  Forall (item_verified chunk_address) items ∧
  (∀ p, match get_poll chunk_address s p with
        | (PollItem (a, _), _) => a ∈ addresses
        | (PollDone, _) => items.*1 ≡ₚ addresses
        | (PollPending woken, s') => woken = false ∧ gs_in_flight s' ≠ []
        end) ∧
  (∀ answer, (length items < length addresses)%nat →
     ∃ i s', get_poll chunk_address s (FuReady 0 answer) = (PollItem i, s')).
Proof.
  set (limit := Z.max 1 (max_concurrency config)).
  assert (get_inv chunk_address addresses limit [] (get_stream addresses config)) as H0.
  { split_and!; [unfold get_stream, limit; simpl; lia|done|]. exists 0%nat. simpl. split_and!; [done..|lia]. }
  pose proof (drive_invariant _ _ (get_poll_inv chunk_address addresses limit) ps [] _ H0) as Hi.
  destruct (drive _ _ ps) as [items s]. simpl in Hi.
  pose proof Hi as (Hl & Hv & k & Hpend & Hperm & Hb). rewrite list_fmap_id in Hperm.
  split_and!; [|done|done| |].
  - destruct (decide (k <= length addresses)%nat) as [Hk|Hk].
    + exists k. split_and!; [done..|]. apply (f_equal length) in Hpend.
      apply Permutation_length in Hperm. rewrite length_app, length_fmap, length_take in Hperm. lia.
    + exists (length addresses). rewrite drop_ge in Hpend by lia. rewrite (take_ge _ k) in Hperm by lia.
      rewrite drop_all, firstn_all. split_and!; [done..|].
      apply Permutation_length in Hperm. rewrite length_app, length_fmap in Hperm. lia.
  - intros p. pose proof (get_poll_idle chunk_address addresses limit items s p ltac:(lia) Hi) as Hidle.
    pose proof (get_poll_inv chunk_address addresses limit items s p Hi) as (_ & _ & k' & Hp' & Hq' & _).
    rewrite list_fmap_id in Hq'. destruct (get_poll chunk_address s p) as [[[a r]| |w] s']; simpl in *.
    + assert (a ∈ take k' addresses) as Ha.
      { rewrite <-Hq', fmap_app, !elem_of_app. left. right. by apply list_elem_of_singleton. }
      by apply elem_of_take in Ha as (i & ?%list_elem_of_lookup_2 & _).
    + destruct Hidle as [He Hf]. rewrite Hf, !app_nil_r in Hq'. rewrite He in Hp'. rewrite Hq'.
      rewrite <-(take_drop k' addresses) at 2. by rewrite <-Hp', app_nil_r.
    + done.
  - intros answer Hlt. apply (get_poll_ready chunk_address addresses limit items); [lia|done|done].
Qed.

(** An upload resolves each fed chunk once.  The items are, up to order, the
    results of the first chunks of the feed less those in flight, a feed error is
    yielded as that address's item and sends nothing, at most [max_concurrency]
    chunks are pulled from the lazy feed ahead of what was yielded, and the stream
    ends exactly when the feed and the window are empty. *)
Theorem put_stream_exact (feed : list (ChunkAddress * result SwarmError StampedChunk)) (config : StreamConfig)
    (ps : list (FuPoll (result SwarmError PushReceipt))) :
  let '(items, s) := drive put_poll (try_put_stream feed config) ps in
  ∃ k fs answers,
    items = zip_with put_resolve fs answers ∧ length fs = length answers ∧
    pt_pending s = drop k feed ∧ fs ++ pt_in_flight s ≡ₚ put_future <$> take k feed ∧
    Z.of_nat (length (pt_in_flight s)) <= Z.max 1 (max_concurrency config) ∧
    (∀ p : FuPoll (result SwarmError PushReceipt), match put_poll s p with
          | (PollItem _, _) => True
          | (PollDone, _) => fs ≡ₚ put_future <$> feed
          | (PollPending woken, s') => woken = false ∧ pt_in_flight s' ≠ []
          end).
Proof.
  set (limit := Z.max 1 (max_concurrency config)).
  assert (put_inv (PushReceipt:=PushReceipt) feed limit [] (try_put_stream feed config)) as H0.
  { split; [unfold try_put_stream, limit; simpl; lia|]. exists [], []. split_and!; [done..|].
    exists 0%nat. simpl. split_and!; [done..|lia]. }
  pose proof (drive_invariant _ _ (put_poll_inv (PushReceipt:=PushReceipt) feed limit) ps [] _ H0) as Hi.
  destruct (drive _ _ ps) as [items s]. simpl in Hi.
  pose proof Hi as (Hl & fs & ans & Hit & Hlen & k & Hpend & Hperm & Hb).
  exists k, fs, ans. split_and!; [done..|]. intros p.
  pose proof (put_poll_idle feed limit items s p ltac:(lia) Hi) as Hidle.
  unfold put_poll in *. rewrite put_refill_spec in *.
  destruct (fu_poll _ p) as [[[[f r]|]|] fl'] eqn:E; [by rewrite put_refill_spec in *| |done].
  destruct (drop (room _ _) (pt_pending s)) as [|? ?] eqn:Ed; [|by destruct Hidle]. apply fu_poll_none in E as [Ef _].
  rewrite Hl in Ef. destruct (window_empty put_future feed fs (pt_in_flight s) (pt_pending s) limit) as [He Hf];
    [lia|by exists k|done|].
  rewrite Hf, app_nil_r in Hperm. rewrite Hperm. f_equiv.
  rewrite <-(take_drop k feed) at 2. by rewrite <-Hpend, He, app_nil_r.
Qed.

(** A download fed by a wire stream yields what the source delivered.  The
    addresses yielded and in flight are exactly those taken from the source, at most
    [max_concurrency] of them in flight, the stream ends only after the source has
    ended and everything was yielded, and it never parks unless a retrieval or the
    source will wake it. *)
Theorem get_from_exact (script : list SourcePoll) (config : StreamConfig) (ps : list (FuPoll GetAns)) :
  let '(items, s) := drive (get_from_poll chunk_address) (get_stream_from script config) ps in
  Z.of_nat (length (gf_in_flight s)) <= Z.max 1 (max_concurrency config) ∧
  Forall (item_verified chunk_address) items ∧
  (∃ consumed rest, script = consumed ++ rest ∧ items.*1 ++ gf_in_flight s ≡ₚ ready_addresses consumed) ∧
  (∀ p, match get_from_poll chunk_address s p with
        | (PollItem _, _) => True
        | (PollDone, _) => ∃ consumed rest,
            script = consumed ++ SourceEnd :: rest ∧ items.*1 ≡ₚ ready_addresses consumed
        | (PollPending woken, s') => woken = false ∧ (gf_in_flight s' ≠ [] ∨ (from_admitted s).2 = true)
        end).
Proof.
  set (limit := Z.max 1 (max_concurrency config)).
  assert (from_inv chunk_address script limit [] (get_stream_from script config)) as H0.
  { split_and!; [unfold get_stream_from, limit; simpl; lia|done|simpl; lia|]. by exists []. }
  pose proof (drive_invariant _ _ (from_poll_inv chunk_address script limit) ps [] _ H0) as Hi.
  destruct (drive _ _ ps) as [items s]. simpl in Hi.
  pose proof Hi as (Hl & Hv & Hb & consumed & Hperm & Hs). split_and!; [done..| |].
  - exists consumed. destruct (gf_source s); [by eauto|]. destruct Hs as [rest ->]. by eauto.
  - intros p. pose proof (from_poll_idle chunk_address script limit items s p ltac:(lia) Hi) as Hidle.
    pose proof (from_poll_inv chunk_address script limit items s p Hi) as (_ & _ & _ & more & Hq & Hm).
    destruct (get_from_poll chunk_address s p) as [[i| |w] s']; simpl in *; [done| |done].
    destruct Hidle as [E Ef]. rewrite E in Hm. rewrite Ef, !app_nil_r in Hq. destruct Hm as [rest Hm]. eauto.
Qed.

(** The download depth follows the peers between its floor and its ceiling. *)
Theorem peer_bounded_range (n : Z) :
  0 <= n → MIN_DOWNLOAD_CONCURRENCY <= max_concurrency (peer_bounded n) <= MAX_DOWNLOAD_CONCURRENCY ∧
  (1 <= n <= 256 → max_concurrency (peer_bounded n) = n * PER_PEER_INFLIGHT_CAP).
Proof.
  intros Hn. unfold peer_bounded, stream_config_new, MIN_DOWNLOAD_CONCURRENCY, MAX_DOWNLOAD_CONCURRENCY,
    PER_PEER_INFLIGHT_CAP. simpl. mlia.
Qed.
End properties.
